(* ===== verification/_CoqProject ===== *)
-Q . S2P
Prelude.v
ListHead.v
ListStore.v
KState.v
RwLock.v
UserMem.v
WaitQueue.v
Events.v
EventSpec.v
EventRefine.v
EventUser.v
EventSystem.v
EventCalls.v
EventLive.v
EventProps.v
EventRaces.v
Creds.v
Wp.v
Groups.v
StringLib.v
PosixAcl.v
Kfifo.v
Bits.v
Bitmap.v
BitmapOps.v
BitmapMap.v
BitmapRegion.v
Vfs.v
Task.v
XattrAcl.v
FileAcl.v
FileAclRel.v
FileAclSpec.v
FileAclRefine.v
TmpFs.v
TmpFsProps.v
TmpFsModes.v
TmpFsClaims.v
Access.v
WriteAccess.v
Heap.v
Rbtree.v
RbtreeSpec.v
HeapLogic.v
RbtreeProof.v
RbtreeWalk.v
RbtreeInsert.v
RbtreeErase.v
RbtreeClaims.v
Cfs.v
CfsSpec.v
CfsInv.v
CfsOps.v
CfsRun.v
SchedCore.v
SchedInv.v
SchedOps.v
SchedRun.v
SchedWait.v
CfsTree.v
CfsRefine.v
SchedRefine.v
CfsClaims.v
SchedClaims.v
