(* ===== verification/Prelude.v ===== *)
(** * A verification of parts of a Linux 2.6.32.63 kernel with event system calls

    The repository is the kernel [src/linux-2.6.32.63] with one subsystem
    added, the event system calls of [csc456/eventsyscalls.c]: processes
    create events, wait on them, signal them and destroy them, and owner and
    permission bits decide who may do what.  The development models this
    subsystem with everything of the kernel it stands on (linked lists, spin
    locks, wait queues, the wake-up path of the scheduler, copies to user
    memory), and beside it a number of self-contained parts of the kernel:
    the identities and capabilities of processes, supplementary groups,
    access control lists, the attributes, ACLs and permission checks of files,
    the string library, byte queues, bitmaps and red-black trees, the fair
    scheduling class that keeps its run queue in such a tree, and the core of
    the scheduler that calls it.

    ** How the code is modelled

    C functions are computations of the monad [M S A] of this file: they read
    and change a state [S] and end with a result or with a [fault].  A read
    or write through a pointer that is not valid, and a failed [BUG_ON], is
    [Oops]; reading an uninitialised variable is [Uninit]; an operation
    whose result C or the processor leaves undefined is [Undef]; spinning for a lock the
    running context holds itself is [Hang].  ([Horizon] is no fault of the code:
    it ends runs of a specification that leave its range.)  A theorem that a computation
    equals [Ok _], or that it [runs] (file [Wp]), therefore says that the C
    code ends and does none of this.  Integers are of type [Z] and are reduced
    to their width where the code can leave it ([u32], [s32], [u64]).

    Loops whose length is not structural are given fuel.  The fuel is computed
    from the arguments and always enough: the loop rule [runs_loop] of [Wp]
    asks for a measure below the fuel that every round lowers, and running out
    of fuel is the fault [Hang], which the theorems exclude.  Loops along
    pointers ([hloop] of [Heap]) get one round more than the heap has objects;
    in the proofs the objects that a loop visits bound its rounds.

    ** The event subsystem

    - [ListHead]: [include/linux/list.h], operation by operation, over a store
      of [list_head] cells, with the checking variants of [lib/list_debug.c];
      [ListStore]: sequences of the fourteen operations that change a list, on a
      store of circular lists, refine operations on a map of sequences.
    - [KState]: the state the subsystem works on, one record with cells,
      events, wait-queue entries, tasks, locks and user memory, and the
      [irqsave] lock operations of [include/linux/spinlock_api_smp.h].
    - [RwLock]: the ticket lock and the reader-writer lock of
      [arch/x86/include/asm/spinlock.h] as machines in which several
      processors interleave at every instruction: mutual exclusion, and first
      come first served.
    - [UserMem]: [copy_to_user] and [copy_from_user] as byte copies that stop
      at the first fault, on a memory whose bytes can be read and, some of
      them, written.
    - [WaitQueue]: [kernel/wait.c], [include/linux/wait.h] and the part of
      [kernel/sched.c] and [kernel/signal.c] that decides whether a task runs.
    - [Events]: the eight system calls with all their helpers, each as a
      program ([prog]) of steps cut at the lock operations.  A step has a label
      that says what it does to which event (find one, link, clear its
      condition, remove, free, or follow a pointer to it); [run] is the whole
      call on its own.
    - [EventSpec], [EventRefine], [EventUser]: an abstract event table and
      that every call, on every branch, implements its operation on the table.
    - [EventSystem]: any number of tasks inside calls and waits, as a
      transition system: the tasks interleave at every step, a task begins a
      call, makes the next step of its call or wait, or gets a Unix signal.
      [allowed] has the rules for callers, by the label of the step: a new
      event lies in free memory and is linked while ids are left, an event is
      removed only when no other task waits on it or holds a pointer to it,
      the calls with an uninitialised pointer search a list that is not empty,
      and the array of [sys_doeventinfo] fits the stack.  [Inv] is the part of
      the invariant on events and waiting tasks.
    - [EventCalls]: the points a call can be at ([call_at]), the invariant with
      the calls ([SInv]), that every allowed action keeps it ([exec_inv]), and
      that calls end after a bounded number of steps; [reach]: the states that
      allowed actions lead to from boot.  [EventLive]: sequences of actions,
      and that a task which is woken leaves its wait.
    - [EventProps]: the guarantees, with instances: no reachable step faults,
      sleepers stay queued, a signal frees every sleeper it finds within five
      of the sleeper's own steps, each call does what its specification says,
      refused calls change nothing.
    - [EventRaces]: where the code is wrong: use after free and double free
      around close, an uninitialised pointer on the empty list, ids after
      [INT_MAX], lost signals, the return value of an interrupted wait, and a
      loop over a queue that does not hold its lock.  [allowed] excludes the
      first three from the guarantees; the last is outside of the machine,
      where a critical section, with the loop that counts the waiters, is one
      step.

    ** Identities and access

    - [Creds]: the [set*uid], [set*gid], [capget] and [capset] calls of
      [kernel/sys.c] and [kernel/capability.c] with the rules of
      [security/commoncap.c].  A process without [CAP_SETUID] never gets an id
      it did not have, dropping root is permanent, [capget] and [capset] agree.
      Whether the kernel has [CONFIG_SECURITY_FILE_CAPABILITIES] is an argument.
    - [Groups]: the whole of [kernel/groups.c]: allocation, the Shell sort
      (it ends, and equals merge sort), [setgroups] on every branch
      without a leak, membership.
    - [PosixAcl]: the whole of [fs/posix_acl.c]: validity, the access
      check against the algorithm of POSIX.1e, round trips between modes and ACLs.
    - [Vfs]: [fs/attr.c] and what it uses of [include/linux/fs.h],
      [kernel/time.c] and [mm/truncate.c].  What it asks about the calling task
      is the class [Subject]; [Task]: a task with the credentials of [Creds]
      and the groups of [Groups] is an instance.
    - [XattrAcl]: the extended attribute format of ACLs
      ([include/linux/posix_acl_xattr.h], [fs/xattr_acl.c]); encoding and
      decoding are inverse.
    - [FileAcl]: [fs/generic_acl.c], [mm/shmem_acl.c] and the creation,
      deletion, chmod and chown of tmpfs inodes ([mm/shmem.c], [fs/attr.c],
      [fs/open.c], [fs/inode.c]) on ACL objects that inodes share and count.
      [FileAclRel]: what the objects stand for, and the rules of the primitive
      operations; [FileAclSpec]: the specification on contents, and the class
      [AclOps] of what [generic_acl.c] needs from a file system;
      [FileAclRefine]: [generic_acl.c] implements it for every instance.
    - [TmpFs], [TmpFsProps]: the tmpfs operations and sequences of them against
      the specification; [TmpFsModes]: modes agree with ACLs, as an invariant;
      [TmpFsClaims]: the results, from a mounted file system on: no freed ACL
      is touched and none is leaked, attributes are read back as written,
      chown drops the set-id bits, and a failing chmod has changed the mode.
      The count of inodes is bounded so that reference counts do not overflow
      ([room]).
    - [Access]: the permission functions of [fs/namei.c] with the device
      control group: the decision is that of POSIX.1e with capabilities, except
      when the group class is empty and the ACL is skipped.
    - [WriteAccess]: [get_write_access], [deny_write_access] and their inverses,
      interleaved at every access to the counter and the lock.

    ** The fair scheduler

    - [Heap]: objects of several types at addresses; the class [Holds] says
      that a heap has objects of a type.  [HeapLogic]: a separation logic for
      computations on it, on the heaps of Iris, and its adequacy: what is proved
      of owned objects holds of every heap that contains them.
    - [Rbtree]: the whole of [lib/rbtree.c] and [include/linux/rbtree.h], with
      the colour in the low bits of the parent pointer.  [RbtreeSpec]: trees,
      the colour rules and the position of a node as a zipper;
      [RbtreeProof]: their representation in the heap and rotations;
      [RbtreeWalk], [RbtreeInsert], [RbtreeErase]: the functions;
      [RbtreeClaims]: insertion, deletion and replacement keep a red-black tree
      with the right order, and the walks follow that order.
    - [Cfs]: the run queue of [kernel/sched_fair.c] with the load arithmetic of
      [kernel/sched.c], written against the class [Sched] of operations on
      entities and the timeline.  [CfsTree]: the instance of the code, a
      red-black tree; [CfsSpec]: the instance of the specification, a sorted
      list that checks what the tree relies on.
    - [CfsInv]: an invariant of the specification, and the clock of the run
      queue; [CfsOps]: every call keeps the invariant; [CfsRun]: sequences of
      calls.  Virtual times wrap around, and their order is that of signed
      differences: calls are required to find the virtual runtimes within
      [WINDOW] (73 years) of the clock, and to be made in turn ([legal], [fits]).
    - [CfsRefine]: every function simulates itself from one instance to the
      other; [CfsClaims]: the results for heaps: calls never fault, pick what
      the list picks, keep tree, cached leftmost node, count and load right,
      never turn the clock back, pick fairly, and the tick preempts in time.
    - [SchedCore]: [schedule], waking, forking, the tick, [nice] and
      [sched_yield] of [kernel/sched.c] on one processor with fair tasks, with
      the calls of the fair class as an argument.  [SchedInv], [SchedOps]: on the
      specification these calls, with a check of the window that ends the run
      with [Horizon], are always legal, and every operation keeps the counters
      of the run queue exact and the running task on it; [SchedRun]: sequences
      of operations and what each of them does ([core_effect]).
    - [SchedWait]: what [WaitQueue] says of the scheduler is an abstraction of
      this; [SchedRefine], [SchedClaims]: the results for heaps: any sequence of
      operations within the window runs without a fault and does what it
      should, and the tasks of the event subsystem run on this scheduler.

    ** Libraries

    - [Wp]: the rules of total correctness the files below use.
    - [StringLib]: the whole of [lib/string.c] over a memory of mapped bytes.
    - [Kfifo]: [kernel/kfifo.c]: refinement to a bounded queue across the
      wrap-around of the indices, and one reader with one writer without a
      lock, interleaved at every step.
    - [Bits]: [lib/find_next_bit.c] and [lib/find_last_bit.c]; [Bitmap]:
      the definitions of [lib/bitmap.c] and [include/linux/bitmap.h], the
      questions about bitmaps and the population count of [lib/hweight.c];
      [BitmapOps]: set algebra and shifts, in place too; [BitmapMap]:
      [bitmap_remap], [bitmap_onto] and [bitmap_fold]; [BitmapRegion]: the
      allocator of aligned regions.

    ** Code that is a parameter

    What [kmalloc] and the page allocator answer, whether a user address can
    be accessed, the process count of a user, the time, the hooks of the
    security module and the device whitelist are arguments of the definitions
    or part of the state; where a theorem relies on more (a block has the size that was
    asked for), that is a hypothesis, and a witness instantiates it.

    ** Not modelled

    The rest of the kernel (drivers, network, disk file systems, memory
    management, the other scheduling classes, other architectures) is outside
    this development: it is large, works on hardware or on state this model does not
    have, and the event system calls do not reach it.  Within the files that
    are modelled, left out are: assembly fast paths of copies and
    strings, lockdep and debugging output, the page cache, directory entries,
    quotas and notifications of files, path lookup, statistics, group scheduling,
    processor selection and load balancing of the scheduler, audit records and
    key rings of credentials, printing and parsing of bitmaps (variadic
    formatting), the big-endian searches.  Memory is sequentially consistent;
    the barriers of [Kfifo] are taken as keeping program order. *)
From stdpp Require Export base tactics list gmap.
From Stdlib Require Export ZArith Lia.

#[global] Open Scope Z_scope.

(** ** Faults and the kernel monad *)

(** What can go wrong while kernel C code runs: a wild or stale pointer is
    dereferenced ([Oops]), an uninitialised automatic variable is read
    ([Uninit]), a loop never ends, such as the spinning for a lock the running
    context itself holds ([Hang]), an operation without a defined result such
    as a variable-length array of negative size is executed ([Undef]), or the
    kernel stack is exhausted ([StackOverflow]).  [Horizon] is no fault of the
    code: the specification of the scheduler in [SchedInv] ends with it where
    its bounds on virtual time end. *)
Inductive fault : Type := Oops | Uninit | Hang | Undef | StackOverflow | Horizon.

Inductive res (A : Type) : Type :=
  | Ok (a : A)
  | Err (f : fault).
Arguments Ok {A} _.
Arguments Err {A} _.

#[export] Instance fault_eq_dec : EqDecision fault.
Proof. solve_decision. Defined.

(** State and fault monad: a C function over a state [S]. *)
Definition M (S A : Type) : Type := S -> res (A * S).

Section Monad.
  Context {S : Type}.

Definition ret {A} (a : A) : M S A := fun s => Ok (a, s).
Definition throw {A} (f : fault) : M S A := fun _ => Err f.
Definition bind {A B} (m : M S A) (k : A -> M S B) : M S B := fun s =>
  match m s with
  | Ok (a, s') => k a s'
  | Err f => Err f
  end.
Definition gets {A} (f : S -> A) : M S A := fun s => Ok (f s, s).
Definition modify (f : S -> S) : M S unit := fun s => Ok (tt, f s).
(** Read through a partial projection: absent means a bad dereference. *)
Definition deref {A} (f : S -> option A) : M S A := fun s =>
  match f s with Some a => Ok (a, s) | None => Err Oops end.

Lemma bind_ok {A B} (m : M S A) (k : A -> M S B) s a s' :
  m s = Ok (a, s') -> bind m k s = k a s'.
Proof. intros H. unfold bind. by rewrite H. Qed.

Lemma bind_err {A B} (m : M S A) (k : A -> M S B) s f :
  m s = Err f -> bind m k s = Err f.
Proof. intros H. unfold bind. by rewrite H. Qed.

Lemma bind_inv_ok {A B} (m : M S A) (k : A -> M S B) s r :
  bind m k s = Ok r -> exists a s', m s = Ok (a, s') /\ k a s' = Ok r.
Proof. unfold bind. destruct (m s) as [[a s']|] eqn:E; naive_solver. Qed.

Lemma bind_assoc {A B C} (m : M S A) (k : A -> M S B) (k' : B -> M S C) :
  forall s, bind (bind m k) k' s = bind m (fun a => bind (k a) k') s.
Proof. intros s. unfold bind. by destruct (m s) as [[? ?]|]. Qed.

Lemma deref_ok {A} (f : S -> option A) s a :
  f s = Some a -> deref f s = Ok (a, s).
Proof. intros H. unfold deref. by rewrite H. Qed.
End Monad.

Declare Scope kernel_scope.
Delimit Scope kernel_scope with kernel.
Notation "'let!' x := m 'in' k" := (bind m (fun x => k))
  (at level 10, x pattern, m at level 100, k at level 200)
  : kernel_scope.
Notation "m ;;; k" := (bind m (fun _ => k))
  (at level 199, right associativity) : kernel_scope.
#[global] Open Scope kernel_scope.

(** Run a computation on a component of a larger state. *)
Definition zoom {S T A} (get : S -> T) (set : T -> S -> S) (m : M T A) : M S A := fun s =>
  match m (get s) with
  | Ok (a, t) => Ok (a, set t s)
  | Err f => Err f
  end.

Lemma zoom_ok {S T A} (get : S -> T) set (m : M T A) s a t :
  m (get s) = Ok (a, t) -> zoom get set m s = Ok (a, set t s).
Proof. intros H. unfold zoom. by rewrite H. Qed.

(** ** Machine integers *)

Definition uwrap (w z : Z) : Z := z mod 2 ^ w.
Definition swrap (w z : Z) : Z := (z + 2 ^ (w - 1)) mod 2 ^ w - 2 ^ (w - 1).
Abbreviation u8 := (uwrap 8).
Abbreviation u16 := (uwrap 16).
Abbreviation u32 := (uwrap 32).
Abbreviation u64 := (uwrap 64).
Abbreviation s32 := (swrap 32).
Abbreviation s64 := (swrap 64).

Definition INT_MAX : Z := 2147483647.
Definition INT_MIN : Z := -2147483648.

Lemma uwrap_range w z : 0 <= w -> 0 <= uwrap w z < 2 ^ w.
Proof. intros. apply Z.mod_pos_bound. lia. Qed.

Lemma uwrap_small w z : 0 <= z < 2 ^ w -> uwrap w z = z.
Proof. apply Z.mod_small. Qed.

Lemma swrap_small w z : - 2 ^ (w - 1) <= z < 2 ^ (w - 1) -> 0 < w -> swrap w z = z.
Proof.
  intros H Hw. unfold swrap. rewrite Z.mod_small; [lia|].
  replace (2 ^ w) with (2 * 2 ^ (w - 1)); [lia|].
  rewrite <- Z.pow_succ_r by lia. f_equal. lia.
Qed.

Lemma swrap_range w z : 0 < w -> - 2 ^ (w - 1) <= swrap w z < 2 ^ (w - 1).
Proof.
  intros Hw. unfold swrap.
  pose proof (Z.mod_pos_bound (z + 2 ^ (w - 1)) (2 ^ w) ltac:(lia)).
  assert (2 ^ w = 2 * 2 ^ (w - 1)); [|lia].
  rewrite <- Z.pow_succ_r by lia. f_equal. lia.
Qed.

Create HintDb kernel.
#[export] Hint Resolve uwrap_range swrap_range : kernel.
#[export] Hint Extern 2 (_ <= _)%Z => lia : kernel.
#[export] Hint Extern 2 (_ < _)%Z => lia : kernel.

(** ** C truth values *)

Definition cbool (b : bool) : Z := if b then 1 else 0.
Definition ctrue (z : Z) : bool := negb (z =? 0).

(** ** Maps *)

Lemma alter_at `{Countable K} {A} (f : A -> A) (m : gmap K A) i v : m !! i = Some v -> alter f i m = <[i := f v]> m.
Proof. intros E. apply map_eq. intros j. rewrite lookup_alter, lookup_insert. case_decide; [subst; by rewrite E|done]. Qed.

(** ** Lists *)

Lemma NoDup_snoc {A} (l : list A) x : NoDup l -> x ∉ l -> NoDup (l ++ [x]).
Proof. intros. rewrite Permutation_app_comm. by apply NoDup_cons. Qed.
