(* ===== verification/ListHead.v ===== *)
(** Circular doubly linked lists: [include/linux/list.h].

    The [list_head] cells live in a shared store, a finite map from pointers
    to [next]/[prev] pairs; every operation is the sequence of reads and
    writes of the C code, and reading or writing through a pointer that is
    not in the store is an [Oops].  [is_list h head l] says that the store
    [h] holds a well-formed circular list with sentinel [head] whose entries
    are, in order, [l]; the lemmas show what each operation does to [l]. *)
From S2P Require Import Prelude.

Record list_head (ptr : Type) : Type := mk_list_head { next : ptr; prev : ptr }.
Arguments mk_list_head {ptr} _ _.
Arguments next {ptr} _.
Arguments prev {ptr} _.

Section ListHead.
  Context {ptr : Type} `{Countable ptr}.
  Implicit Types (h : gmap ptr (list_head ptr)) (p q x head : ptr) (l : list ptr).
  Abbreviation heap := (gmap ptr (list_head ptr)).
  Abbreviation LM := (M heap).

(** *** Field accesses *)

Definition get_next (p : ptr) : LM ptr := deref (fun h => next <$> h !! p).
Definition get_prev (p : ptr) : LM ptr := deref (fun h => prev <$> h !! p).
Definition set_next (p v : ptr) : LM unit := fun h =>
  match h !! p with
  | Some n => Ok (tt, <[p := mk_list_head v (prev n)]> h)
  | None => Err Oops
  end.
Definition set_prev (p v : ptr) : LM unit := fun h =>
  match h !! p with
  | Some n => Ok (tt, <[p := mk_list_head (next n) v]> h)
  | None => Err Oops
  end.

(** *** Operations *)

Definition INIT_LIST_HEAD (list : ptr) : LM unit :=
  set_next list list ;;;
  set_prev list list.

Definition __list_add (new prev next : ptr) : LM unit :=
  set_prev next new ;;;
  set_next new next ;;;
  set_prev new prev ;;;
  set_next prev new.

Definition list_add (new head : ptr) : LM unit :=
  let! n := get_next head in
  __list_add new head n.

Definition list_add_tail (new head : ptr) : LM unit :=
  let! p := get_prev head in
  __list_add new p head.

Definition __list_del (prev next : ptr) : LM unit :=
  set_prev next prev ;;;
  set_next prev next.

Definition list_del (LIST_POISON1 LIST_POISON2 : ptr) (entry : ptr) : LM unit :=
  let! p := get_prev entry in
  let! n := get_next entry in
  __list_del p n ;;;
  set_next entry LIST_POISON1 ;;;
  set_prev entry LIST_POISON2.

Definition list_replace (old new : ptr) : LM unit :=
  let! n := get_next old in
  set_next new n ;;;
  let! n' := get_next new in
  set_prev n' new ;;;
  let! p := get_prev old in
  set_prev new p ;;;
  let! p' := get_prev new in
  set_next p' new.

Definition list_replace_init (old new : ptr) : LM unit :=
  list_replace old new ;;;
  INIT_LIST_HEAD old.

Definition list_del_init (entry : ptr) : LM unit :=
  let! p := get_prev entry in
  let! n := get_next entry in
  __list_del p n ;;;
  INIT_LIST_HEAD entry.

Definition list_move (list head : ptr) : LM unit :=
  let! p := get_prev list in
  let! n := get_next list in
  __list_del p n ;;;
  list_add list head.

Definition list_move_tail (list head : ptr) : LM unit :=
  let! p := get_prev list in
  let! n := get_next list in
  __list_del p n ;;;
  list_add_tail list head.

Definition list_is_last (list head : ptr) : LM bool :=
  let! n := get_next list in
  ret (bool_decide (n = head)).

Definition list_empty (head : ptr) : LM bool :=
  let! n := get_next head in
  ret (bool_decide (n = head)).

Definition list_empty_careful (head : ptr) : LM bool :=
  let! n := get_next head in
  if bool_decide (n = head) then
    let! p := get_prev head in
    ret (bool_decide (n = p))
  else ret false.

Definition list_is_singular (head : ptr) : LM bool :=
  let! e := list_empty head in
  if negb e then
    let! n := get_next head in
    let! p := get_prev head in
    ret (bool_decide (n = p))
  else ret false.

Definition __list_cut_position (list head entry : ptr) : LM unit :=
  let! new_first := get_next entry in
  let! f := get_next head in
  set_next list f ;;;
  let! f' := get_next list in
  set_prev f' list ;;;
  set_prev list entry ;;;
  set_next entry list ;;;
  set_next head new_first ;;;
  set_prev new_first head.

Definition list_cut_position (list head entry : ptr) : LM unit :=
  let! e := list_empty head in
  if (e : bool) then ret tt else
  let! sing := list_is_singular head in
  let! n := get_next head in
  if sing && (bool_decide (n ≠ entry) && bool_decide (head ≠ entry)) then ret tt else
  if bool_decide (entry = head) then INIT_LIST_HEAD list
  else __list_cut_position list head entry.

Definition __list_splice (list prev next : ptr) : LM unit :=
  let! first := get_next list in
  let! last := get_prev list in
  set_prev first prev ;;;
  set_next prev first ;;;
  set_next last next ;;;
  set_prev next last.

Definition list_splice (list head : ptr) : LM unit :=
  let! e := list_empty list in
  if negb e then
    let! n := get_next head in
    __list_splice list head n
  else ret tt.

Definition list_splice_tail (list head : ptr) : LM unit :=
  let! e := list_empty list in
  if negb e then
    let! p := get_prev head in
    __list_splice list p head
  else ret tt.

Definition list_splice_init (list head : ptr) : LM unit :=
  let! e := list_empty list in
  if negb e then
    let! n := get_next head in
    __list_splice list head n ;;;
    INIT_LIST_HEAD list
  else ret tt.

Definition list_splice_tail_init (list head : ptr) : LM unit :=
  let! e := list_empty list in
  if negb e then
    let! p := get_prev head in
    __list_splice list p head ;;;
    INIT_LIST_HEAD list
  else ret tt.

(** [list_for_each]: the positions the loop visits, in order.  The loop may
    not end on a corrupt list; [fuel] bounds the number of iterations and
    running out of it is the endless loop, a [Hang]. *)
Fixpoint list_walk (fuel : nat) (pos head : ptr) : LM (list ptr) :=
  match fuel with
  | O => throw Hang
  | S fuel =>
      let! n := get_next pos in
      if bool_decide (pos = head) then ret []
      else
        let! rest := list_walk fuel n head in
        ret (pos :: rest)
  end.

(** The number of cells of the store bounds the length of any list in it. *)
Definition list_for_each (head : ptr) : LM (list ptr) :=
  let! fuel := gets (fun h => S (size h)) in
  let! n := get_next head in
  list_walk fuel n head.

(** *** Well-formed lists *)

(** [p] and [q] are adjacent: [p->next == q] and [q->prev == p]. *)
Definition nxt (h : heap) (p : ptr) : option ptr := next <$> h !! p.
Definition prv (h : heap) (p : ptr) : option ptr := prev <$> h !! p.
Definition linked (h : heap) (p q : ptr) : Prop := nxt h p = Some q /\ prv h q = Some p.

(** All neighbours in the sequence [s] of cells are linked. *)
Fixpoint path (h : heap) (s : list ptr) : Prop :=
  match s with
  | p :: ((q :: _) as s') => linked h p q /\ path h s'
  | _ => True
  end.

Definition is_list (h : heap) (head : ptr) (l : list ptr) : Prop :=
  NoDup (head :: l) /\ path h (head :: l ++ [head]).

(** [h'] differs from [h] at most at the cells [L], and has the same cells. *)
Definition modifies (L : list ptr) (h h' : heap) : Prop :=
  (forall y, y ∉ L -> h' !! y = h !! y) /\
  (forall y, is_Some (h' !! y) <-> is_Some (h !! y)).

(** *** Reads and writes *)

Definition upd_next (p v : ptr) (h : heap) : heap :=
  alter (fun n => mk_list_head v (prev n)) p h.
Definition upd_prev (p v : ptr) (h : heap) : heap :=
  alter (fun n => mk_list_head (next n) v) p h.

Lemma set_next_run p v h : is_Some (h !! p) -> set_next p v h = Ok (tt, upd_next p v h).
Proof.
  intros [n Hn]. unfold set_next, upd_next. by rewrite Hn, (alter_at _ _ _ _ Hn).
Qed.

Lemma set_prev_run p v h : is_Some (h !! p) -> set_prev p v h = Ok (tt, upd_prev p v h).
Proof.
  intros [n Hn]. unfold set_prev, upd_prev. by rewrite Hn, (alter_at _ _ _ _ Hn).
Qed.

Lemma upd_next_is_Some p v h y : is_Some (upd_next p v h !! y) <-> is_Some (h !! y).
Proof. unfold upd_next. rewrite lookup_alter. case_decide; [subst|done]. by rewrite fmap_is_Some. Qed.

Lemma upd_prev_is_Some p v h y : is_Some (upd_prev p v h !! y) <-> is_Some (h !! y).
Proof. unfold upd_prev. rewrite lookup_alter. case_decide; [subst|done]. by rewrite fmap_is_Some. Qed.

Lemma nxt_upd_next p v h y : is_Some (h !! p) ->
  nxt (upd_next p v h) y = if decide (y = p) then Some v else nxt h y.
Proof.
  intros [n Hn]. unfold nxt, upd_next. rewrite lookup_alter.
  do 2 case_decide; subst; try done. by rewrite Hn.
Qed.

Lemma nxt_upd_prev p v h y : nxt (upd_prev p v h) y = nxt h y.
Proof.
  unfold nxt, upd_prev. rewrite lookup_alter. case_decide; [subst|done].
  by destruct (h !! _).
Qed.

Lemma prv_upd_prev p v h y : is_Some (h !! p) ->
  prv (upd_prev p v h) y = if decide (y = p) then Some v else prv h y.
Proof.
  intros [n Hn]. unfold prv, upd_prev. rewrite lookup_alter.
  do 2 case_decide; subst; try done. by rewrite Hn.
Qed.

Lemma prv_upd_next p v h y : prv (upd_next p v h) y = prv h y.
Proof.
  unfold prv, upd_next. rewrite lookup_alter. case_decide; [subst|done].
  by destruct (h !! _).
Qed.

Lemma upd_next_ne p v h y : y <> p -> upd_next p v h !! y = h !! y.
Proof. intros. unfold upd_next. by rewrite lookup_alter_ne. Qed.

Lemma upd_prev_ne p v h y : y <> p -> upd_prev p v h !! y = h !! y.
Proof. intros. unfold upd_prev. by rewrite lookup_alter_ne. Qed.

Lemma get_next_run p q h : nxt h p = Some q -> get_next p h = Ok (q, h).
Proof. exact (deref_ok (fun h => nxt h p) h q). Qed.

Lemma get_prev_run p q h : prv h p = Some q -> get_prev p h = Ok (q, h).
Proof. exact (deref_ok (fun h => prv h p) h q). Qed.

Lemma nxt_is_Some h p q : nxt h p = Some q -> is_Some (h !! p).
Proof. unfold nxt. destruct (h !! p); naive_solver. Qed.

Lemma prv_is_Some h p q : prv h p = Some q -> is_Some (h !! p).
Proof. unfold prv. destruct (h !! p); naive_solver. Qed.
End ListHead.

(** Execute a straight-line sequence of pointer reads and writes. *)
Create HintDb listheap.
#[export] Hint Resolve nxt_is_Some prv_is_Some : listheap.
Ltac cell_tac :=
  repeat first [rewrite upd_next_is_Some | rewrite upd_prev_is_Some]; eauto with listheap.
Ltac read_tac :=
  repeat first
    [ rewrite nxt_upd_prev | rewrite prv_upd_next
    | rewrite nxt_upd_next by cell_tac; case_decide; simplify_eq
    | rewrite prv_upd_prev by cell_tac; case_decide; simplify_eq ];
  eauto.
Ltac run_step :=
  first
    [ erewrite bind_ok by (apply set_next_run; cell_tac)
    | erewrite bind_ok by (apply set_prev_run; cell_tac)
    | erewrite bind_ok by (apply get_next_run; solve [read_tac])
    | erewrite bind_ok by (apply get_prev_run; solve [read_tac]) ].
Ltac run_cells :=
  repeat run_step;
  try first [rewrite set_next_run by cell_tac | rewrite set_prev_run by cell_tac].

Section ListFacts.
  Context {ptr : Type} `{Countable ptr}.
  Implicit Types (h : gmap ptr (list_head ptr)) (p q x a b head : ptr) (l s : list ptr).

(** *** Paths *)

Lemma path_split h s1 a s2 :
  path h (s1 ++ a :: s2) <-> path h (s1 ++ [a]) /\ path h (a :: s2).
Proof.
  induction s1 as [|x s1 IH]; simpl; [tauto|].
  destruct s1 as [|y s1]; simpl in *; [tauto|].
  rewrite IH. tauto.
Qed.

Lemma path_cons2 h a b s : path h (a :: b :: s) <-> linked h a b /\ path h (b :: s).
Proof. done. Qed.

(** A path only depends on the [next] of all cells but the last and on the
    [prev] of all cells but the first. *)
Lemma path_ext h h' s b :
  path h (s ++ [b]) ->
  (forall y, y ∈ s -> nxt h' y = nxt h y) ->
  (forall y, y ∈ tail (s ++ [b]) -> prv h' y = prv h y) ->
  path h' (s ++ [b]).
Proof.
  induction s as [|a s IH]; [done|]. intros Hp Hn Hv.
  destruct s as [|c s]; simpl in *.
  - destruct Hp as [[Ha Hb] _]. split; [|done]. split.
    + rewrite Hn by set_solver. done.
    + rewrite Hv by set_solver. done.
  - destruct Hp as [[Ha Hb] Hp]. split; [split|].
    + rewrite Hn by set_solver. done.
    + rewrite Hv by set_solver. done.
    + apply IH; [done|set_solver|]. intros y Hy. apply Hv. set_solver.
Qed.

Lemma path_ext_cons h h' a s :
  path h (a :: s) ->
  (forall y, y ∈ removelast (a :: s) -> nxt h' y = nxt h y) ->
  (forall y, y ∈ s -> prv h' y = prv h y) ->
  path h' (a :: s).
Proof.
  intros Hp Hn Hv.
  destruct (exists_last (l := a :: s)) as (t & b & E); [done|].
  rewrite E in Hp, Hn |- *. rewrite removelast_last in Hn.
  apply (path_ext h); [done|done|]. rewrite <- E. done.
Qed.

Lemma is_list_cells h head l y : is_list h head l -> y ∈ head :: l -> is_Some (h !! y).
Proof.
  intros [_ Hp] Hy.
  assert (E : exists s1 s2 b, head :: l ++ [head] = s1 ++ y :: b :: s2).
  { apply list_elem_of_split in Hy as (s1 & s2 & E).
    destruct s2 as [|b s2].
    - exists s1, [], head. rewrite app_comm_cons, E, <- app_assoc. done.
    - exists s1, (s2 ++ [head]), b. rewrite app_comm_cons, E, <- app_assoc. done. }
  destruct E as (s1 & s2 & b & E). rewrite E in Hp.
  apply path_split in Hp as [_ [[Hy' _] _]]. eauto using nxt_is_Some.
Qed.

(** Changing cells outside a list leaves the list alone. *)
Lemma is_list_ext h h' head l :
  is_list h head l -> (forall y, y ∈ head :: l -> h' !! y = h !! y) -> is_list h' head l.
Proof.
  intros [Hnd Hp] He. split; [done|].
  rewrite app_comm_cons in *.
  apply (path_ext h); [done| |]; intros y Hy; unfold nxt, prv; rewrite He; try done; set_solver.
Qed.

Lemma is_list_frame h h' head l L :
  is_list h head l -> modifies L h h' -> (forall y, y ∈ head :: l -> y ∉ L) ->
  is_list h' head l.
Proof. intros Hl [Hm _] Hd. eapply is_list_ext; [exact Hl|]. intros y Hy. by apply Hm, Hd. Qed.

Lemma modifies_refl L h : modifies L h h.
Proof. done. Qed.

Lemma modifies_trans L h1 h2 h3 : modifies L h1 h2 -> modifies L h2 h3 -> modifies L h1 h3.
Proof.
  intros [A1 B1] [A2 B2]. split.
  - intros y Hy. rewrite A2, A1; done.
  - intros y. rewrite B2, B1. done.
Qed.

Lemma modifies_weaken L L' h1 h2 : modifies L h1 h2 -> L ⊆ L' -> modifies L' h1 h2.
Proof. intros [A B] HL. split; [|done]. intros y Hy. apply A. set_solver. Qed.

Lemma modifies_upd_next L p v h h' :
  modifies L h h' -> p ∈ L -> modifies L h (upd_next p v h').
Proof.
  intros [A B] Hp. split; intros y.
  - intros Hy. rewrite upd_next_ne by set_solver. by apply A.
  - rewrite upd_next_is_Some. apply B.
Qed.

Lemma modifies_upd_prev L p v h h' :
  modifies L h h' -> p ∈ L -> modifies L h (upd_prev p v h').
Proof.
  intros [A B] Hp. split; intros y.
  - intros Hy. rewrite upd_prev_ne by set_solver. by apply A.
  - rewrite upd_prev_is_Some. apply B.
Qed.

(** The cell before and the cell after a position of a list. *)
Lemma split_before head l : exists s a, head :: l = s ++ [a].
Proof. destruct (exists_last (l := head :: l)) as (s & a & E); eauto. Qed.

Lemma split_after head l : exists b s, l ++ [head] = b :: s.
Proof. destruct l; simpl; eauto. Qed.
End ListFacts.

Ltac modifies_tac :=
  repeat first [ apply modifies_refl
               | apply modifies_upd_next; [|set_solver]
               | apply modifies_upd_prev; [|set_solver] ].

Section ListSpecs.
  Context {ptr : Type} `{Countable ptr}.
  Implicit Types (h : gmap ptr (list_head ptr)) (p q x a b head : ptr) (l s : list ptr).

(** *** Initialisation *)

Lemma INIT_LIST_HEAD_spec h p :
  is_Some (h !! p) ->
  exists h', INIT_LIST_HEAD p h = Ok (tt, h') /\ is_list h' p [] /\ modifies [p] h h'.
Proof.
  intros Hp. unfold INIT_LIST_HEAD. run_cells. eexists; split; [done|]. split.
  - split; [apply NoDup_singleton|]. simpl. split; [|done]. split; read_tac.
  - modifies_tac.
Qed.

(** *** Relinking two adjacent cells *)

(** The cells [m] are put between [a] and [b], which were adjacent, or had
    other cells between them, in the circular list of [head]: only [a]'s
    [next], [b]'s [prev] and the cells [W] outside the list have changed. *)
Lemma path_relink h h' s1 a m b s2 W :
  path h (s1 ++ [a]) -> path h (b :: s2) -> path h' (a :: m ++ [b]) ->
  NoDup (s1 ++ a :: removelast (b :: s2)) -> NoDup (tail (s1 ++ [a]) ++ b :: s2) ->
  (forall y, y ∈ W -> y ∉ s1 ++ a :: b :: s2) ->
  (forall y, y ∉ a :: W -> nxt h' y = nxt h y) ->
  (forall y, y ∉ b :: W -> prv h' y = prv h y) ->
  path h' (s1 ++ a :: m ++ b :: s2).
Proof.
  intros Hp1 Hp2 Hm Hd1 Hd2 HW Hn Hv.
  assert (Ha : a ∉ s1) by (apply NoDup_app in Hd1 as (_ & E & _); set_solver).
  assert (Ha' : a ∉ removelast (b :: s2)).
  { apply NoDup_app in Hd1 as (_ & _ & E). by apply NoDup_cons in E as [E _]. }
  assert (Hb : b ∉ tail (s1 ++ [a])) by (apply NoDup_app in Hd2 as (_ & E & _); set_solver).
  assert (Hb' : b ∉ s2).
  { apply NoDup_app in Hd2 as (_ & _ & E). by apply NoDup_cons in E as [E _]. }
  assert (forall y, y ∈ tail (s1 ++ [a]) -> y ∈ s1 ++ [a]) by (destruct s1; set_solver).
  assert (forall y, y ∈ removelast (b :: s2) -> y ∈ b :: s2).
  { intros y. destruct (exists_last (l := b :: s2)) as (t & c & ->); [done|].
    rewrite removelast_last. set_solver. }
  apply path_split; split; [|rewrite app_comm_cons; apply path_split; split; [done|]].
  - apply (path_ext h); [done| |]; intros y Hy; [apply Hn|apply Hv]; set_solver.
  - apply (path_ext_cons h); [done| |]; intros y Hy; [apply Hn|apply Hv]; set_solver.
Qed.

Lemma cyc_nodup head l s1 a b s2 :
  NoDup (head :: l) -> head :: l ++ [head] = s1 ++ a :: b :: s2 ->
  NoDup (s1 ++ a :: removelast (b :: s2)) /\ NoDup (tail (s1 ++ [a]) ++ b :: s2).
Proof.
  intros Hnd E. split.
  - replace (s1 ++ a :: removelast (b :: s2)) with (removelast (s1 ++ a :: b :: s2)).
    + rewrite <- E, app_comm_cons, removelast_last. done.
    + rewrite removelast_app by done. done.
  - replace (tail (s1 ++ [a]) ++ b :: s2) with (tail (s1 ++ a :: b :: s2)).
    + rewrite <- E. simpl. by rewrite Permutation_app_comm.
    + destruct s1; simpl; [done|]. by rewrite <- app_assoc.
Qed.

Lemma __list_add_spec h head l1 l2 s1 a b s2 new :
  is_list h head (l1 ++ l2) ->
  head :: l1 = s1 ++ [a] -> l2 ++ [head] = b :: s2 ->
  new ∉ head :: l1 ++ l2 -> is_Some (h !! new) ->
  exists h', __list_add new a b h = Ok (tt, h') /\
    is_list h' head (l1 ++ new :: l2) /\ modifies (new :: head :: l1 ++ l2) h h'.
Proof.
  intros [Hnd Hp] E1 E2 Hn Hnew.
  assert (E : head :: (l1 ++ l2) ++ [head] = s1 ++ a :: b :: s2).
  { rewrite <- app_assoc, E2, app_comm_cons, E1, <- app_assoc. done. }
  rewrite E in Hp. destruct (cyc_nodup _ _ _ _ _ _ Hnd E) as [Hd1 Hd2].
  assert (Hn' : new ∉ s1 ++ a :: b :: s2) by (rewrite <- E; set_solver).
  apply path_split in Hp as [Hp1 [[L1 L2] Hp2]].
  unfold __list_add. run_cells. eexists; split; [done|]. split; [split|].
  - rewrite <- Permutation_middle. apply NoDup_cons in Hnd as [? ?].
    rewrite !NoDup_cons. set_solver.
  - replace (head :: (l1 ++ new :: l2) ++ [head]) with (s1 ++ a :: new :: b :: s2).
    + apply (path_relink h _ s1 a [new] b s2 [new]); try done; simpl;
        try (split; [|split]); repeat split; try intros y Hy; read_tac; set_solver.
    + rewrite <- app_assoc, <- app_comm_cons, E2, app_comm_cons, E1, <- app_assoc. done.
  - assert (a ∈ head :: l1) by (rewrite E1; set_solver).
    assert (b ∈ l2 ++ [head]) by (rewrite E2; set_solver).
    modifies_tac.
Qed.

Lemma list_add_spec h head l new :
  is_list h head l -> new ∉ head :: l -> is_Some (h !! new) ->
  exists h', list_add new head h = Ok (tt, h') /\
    is_list h' head (new :: l) /\ modifies (new :: head :: l) h h'.
Proof.
  intros Hl Hn Hnew. destruct (split_after head l) as (b & s & E).
  assert (nxt h head = Some b).
  { destruct Hl as [_ Hp]. rewrite E in Hp. by destruct Hp as [[? _] _]. }
  unfold list_add. run_step.
  by apply (__list_add_spec h head [] l [] head b s new).
Qed.

Lemma list_add_tail_spec h head l new :
  is_list h head l -> new ∉ head :: l -> is_Some (h !! new) ->
  exists h', list_add_tail new head h = Ok (tt, h') /\
    is_list h' head (l ++ [new]) /\ modifies (new :: head :: l) h h'.
Proof.
  intros Hl Hn Hnew. destruct (split_before head l) as (s & a & E).
  assert (prv h head = Some a).
  { destruct Hl as [_ Hp]. rewrite app_comm_cons, E, <- app_assoc in Hp.
    by apply path_split in Hp as [_ [[_ ?] _]]. }
  unfold list_add_tail. run_step.
  destruct (__list_add_spec h head l [] s a head [] new) as (h' & R & Hl' & Hm);
    rewrite ?app_nil_r in *; eauto.
Qed.

(** *** The neighbours of an entry *)

Lemma is_list_others h head l1 x l2 :
  is_list h head (l1 ++ x :: l2) -> NoDup (head :: l1 ++ l2) /\ x ∉ head :: l1 ++ l2.
Proof.
  intros [Hnd _]. rewrite <- Permutation_middle in Hnd. rewrite !NoDup_cons in *. set_solver.
Qed.

Lemma is_list_entry h head l1 x l2 :
  is_list h head (l1 ++ x :: l2) ->
  exists s1 a b s2,
    head :: l1 = s1 ++ [a] /\ l2 ++ [head] = b :: s2 /\
    path h (s1 ++ [a]) /\ linked h a x /\ linked h x b /\ path h (b :: s2) /\
    NoDup (s1 ++ a :: removelast (b :: s2)) /\ NoDup (tail (s1 ++ [a]) ++ b :: s2) /\
    x ∉ s1 ++ a :: b :: s2 /\ head :: (l1 ++ l2) ++ [head] = s1 ++ a :: b :: s2.
Proof.
  intros Hl. pose proof (is_list_others _ _ _ _ _ Hl) as [Hnd' Hx].
  destruct Hl as [_ Hp]. destruct (split_before head l1) as (s1 & a & E1).
  destruct (split_after head l2) as (b & s2 & E2).
  exists s1, a, b, s2.
  assert (E : head :: (l1 ++ l2) ++ [head] = s1 ++ a :: b :: s2).
  { rewrite <- app_assoc, E2, app_comm_cons, E1, <- app_assoc. done. }
  destruct (cyc_nodup _ _ _ _ _ _ Hnd' E) as [Hd1 Hd2].
  rewrite <- app_assoc, <- app_comm_cons, E2, app_comm_cons, E1, <- app_assoc in Hp.
  apply path_split in Hp as [Hp1 [L1 [L2 Hp2]]].
  rewrite <- E. do 8 (split; [done|]). split; [set_solver|done].
Qed.

(** *** Deletion *)

Lemma __list_del_spec h head l1 x l2 :
  is_list h head (l1 ++ x :: l2) ->
  exists a b h', prv h x = Some a /\ nxt h x = Some b /\ __list_del a b h = Ok (tt, h') /\
    is_list h' head (l1 ++ l2) /\ modifies (head :: l1 ++ l2) h h'.
Proof.
  intros Hl.
  destruct (is_list_entry _ _ _ _ _ Hl)
    as (s1 & a & b & s2 & E1 & E2 & Hp1 & [La La'] & [Lb Lb'] & Hp2 & Hd1 & Hd2 & Hx & E).
  exists a, b. unfold __list_del. run_cells. eexists. do 3 (split; [done|]). split; [split|].
  - apply (is_list_others _ _ _ _ _ Hl).
  - rewrite E. apply (path_relink h _ s1 a [] b s2 []); try done.
    + split; [|done]. split; read_tac.
    + set_solver.
    + intros y Hy. read_tac. set_solver.
    + intros y Hy. read_tac. set_solver.
  - assert (a ∈ head :: l1) by (rewrite E1; set_solver).
    assert (b ∈ l2 ++ [head]) by (rewrite E2; set_solver).
    modifies_tac.
Qed.

Lemma list_del_init_spec h head l1 x l2 :
  is_list h head (l1 ++ x :: l2) ->
  exists h', list_del_init x h = Ok (tt, h') /\
    is_list h' head (l1 ++ l2) /\ is_list h' x [] /\ modifies (head :: l1 ++ x :: l2) h h'.
Proof.
  intros Hl. pose proof (is_list_cells _ _ _ x Hl ltac:(set_solver)) as Hc.
  pose proof (is_list_others _ _ _ _ _ Hl) as [_ Hx].
  destruct (__list_del_spec _ _ _ _ _ Hl) as (a & b & h1 & Ha & Hb & R & Hl1 & Hm1).
  destruct (INIT_LIST_HEAD_spec h1 x) as (h2 & R2 & Hl2 & Hm2); [by apply Hm1|].
  exists h2. unfold list_del_init. do 2 run_step. rewrite (bind_ok _ _ _ _ _ R), R2.
  do 2 (split; [done || eapply is_list_frame; eauto; set_solver|]). split; [done|].
  eapply modifies_trans; eapply modifies_weaken; eauto; set_solver.
Qed.

Lemma list_del_spec P1 P2 h head l1 x l2 :
  is_list h head (l1 ++ x :: l2) ->
  exists h', list_del P1 P2 x h = Ok (tt, h') /\
    is_list h' head (l1 ++ l2) /\ h' !! x = Some (mk_list_head P1 P2) /\
    modifies (head :: l1 ++ x :: l2) h h'.
Proof.
  intros Hl. pose proof (is_list_cells _ _ _ x Hl ltac:(set_solver)) as Hc.
  pose proof (is_list_others _ _ _ _ _ Hl) as [_ Hx].
  destruct (__list_del_spec _ _ _ _ _ Hl) as (a & b & h1 & Ha & Hb & R & Hl1 & Hm1).
  assert (Hx1 : is_Some (h1 !! x)) by (by apply Hm1).
  assert (Hm2 : modifies [x] h1 (upd_prev x P2 (upd_next x P1 h1))) by modifies_tac.
  unfold list_del. do 2 run_step. rewrite (bind_ok _ _ _ _ _ R). run_cells.
  eexists. split; [done|]. split; [eapply is_list_frame; eauto; set_solver|]. split.
  - unfold upd_prev, upd_next. rewrite !lookup_alter_eq. by destruct Hx1 as [n ->].
  - eapply modifies_trans; eapply modifies_weaken; eauto; set_solver.
Qed.

(** *** Replacement and moves *)

Lemma list_replace_spec h head l1 old l2 new :
  is_list h head (l1 ++ old :: l2) -> new ∉ head :: l1 ++ old :: l2 -> is_Some (h !! new) ->
  exists h', list_replace old new h = Ok (tt, h') /\
    is_list h' head (l1 ++ new :: l2) /\ modifies (new :: head :: l1 ++ l2) h h'.
Proof.
  intros Hl Hn Hnew.
  destruct (is_list_entry _ _ _ _ _ Hl)
    as (s1 & a & b & s2 & E1 & E2 & Hp1 & [La La'] & [Lb Lb'] & Hp2 & Hd1 & Hd2 & Hx & E).
  assert (Ha : a ∈ head :: l1) by (rewrite E1; set_solver).
  assert (Hb : b ∈ l2 ++ [head]) by (rewrite E2; set_solver).
  assert (new ∉ s1 ++ a :: b :: s2) by (rewrite <- E; set_solver).
  assert (old <> b /\ old <> new) as [? ?] by set_solver.
  unfold list_replace. run_cells. eexists. split; [done|]. split; [split|modifies_tac].
  - destruct Hl as [Hnd _]. rewrite <- Permutation_middle in *.
    rewrite !NoDup_cons in *. set_solver.
  - rewrite <- app_assoc, <- app_comm_cons, E2, app_comm_cons, E1, <- app_assoc.
    apply (path_relink h _ s1 a [new] b s2 [new]); try done.
    + simpl. repeat split; read_tac; set_solver.
    + set_solver.
    + intros y Hy. read_tac; set_solver.
    + intros y Hy. read_tac; set_solver.
Qed.

Lemma list_replace_init_spec h head l1 old l2 new :
  is_list h head (l1 ++ old :: l2) -> new ∉ head :: l1 ++ old :: l2 -> is_Some (h !! new) ->
  exists h', list_replace_init old new h = Ok (tt, h') /\
    is_list h' head (l1 ++ new :: l2) /\ is_list h' old [] /\
    modifies (new :: head :: l1 ++ old :: l2) h h'.
Proof.
  intros Hl Hn Hnew. pose proof (is_list_cells _ _ _ old Hl ltac:(set_solver)) as Hc.
  pose proof (is_list_others _ _ _ _ _ Hl) as [_ Hx].
  destruct (list_replace_spec _ _ _ _ _ _ Hl Hn Hnew) as (h1 & R & Hl1 & Hm1).
  destruct (INIT_LIST_HEAD_spec h1 old) as (h2 & R2 & Hl2 & Hm2); [by apply Hm1|].
  exists h2. unfold list_replace_init. rewrite (bind_ok _ _ _ _ _ R), R2.
  split; [done|]. split; [eapply is_list_frame; eauto; set_solver|]. split; [done|].
  eapply modifies_trans; eapply modifies_weaken; eauto; set_solver.
Qed.

Lemma list_move_spec h head l1 x l2 head' l' :
  is_list h head (l1 ++ x :: l2) -> is_list h head' l' ->
  (forall y, y ∈ head :: l1 ++ x :: l2 -> y ∉ head' :: l') ->
  exists h', list_move x head' h = Ok (tt, h') /\
    is_list h' head (l1 ++ l2) /\ is_list h' head' (x :: l') /\
    modifies (head :: l1 ++ x :: l2 ++ head' :: l') h h'.
Proof.
  intros Hl Hl' Hd. pose proof (is_list_cells _ _ _ x Hl ltac:(set_solver)) as Hc.
  pose proof (is_list_others _ _ _ _ _ Hl) as [_ Hx].
  destruct (__list_del_spec _ _ _ _ _ Hl) as (a & b & h1 & Ha & Hb & R & Hl1 & Hm1).
  assert (Hl1' : is_list h1 head' l') by (eapply is_list_frame; eauto; set_solver).
  destruct (list_add_spec h1 head' l' x) as (h2 & R2 & Hl2 & Hm2);
    [done|set_solver|by apply Hm1|].
  exists h2. unfold list_move. do 2 run_step. rewrite (bind_ok _ _ _ _ _ R), R2.
  split; [done|]. split; [eapply is_list_frame; eauto; set_solver|]. split; [done|].
  eapply modifies_trans; eapply modifies_weaken; eauto; set_solver.
Qed.

Lemma list_move_tail_spec h head l1 x l2 head' l' :
  is_list h head (l1 ++ x :: l2) -> is_list h head' l' ->
  (forall y, y ∈ head :: l1 ++ x :: l2 -> y ∉ head' :: l') ->
  exists h', list_move_tail x head' h = Ok (tt, h') /\
    is_list h' head (l1 ++ l2) /\ is_list h' head' (l' ++ [x]) /\
    modifies (head :: l1 ++ x :: l2 ++ head' :: l') h h'.
Proof.
  intros Hl Hl' Hd. pose proof (is_list_cells _ _ _ x Hl ltac:(set_solver)) as Hc.
  pose proof (is_list_others _ _ _ _ _ Hl) as [_ Hx].
  destruct (__list_del_spec _ _ _ _ _ Hl) as (a & b & h1 & Ha & Hb & R & Hl1 & Hm1).
  assert (Hl1' : is_list h1 head' l') by (eapply is_list_frame; eauto; set_solver).
  destruct (list_add_tail_spec h1 head' l' x) as (h2 & R2 & Hl2 & Hm2);
    [done|set_solver|by apply Hm1|].
  exists h2. unfold list_move_tail. do 2 run_step. rewrite (bind_ok _ _ _ _ _ R), R2.
  split; [done|]. split; [eapply is_list_frame; eauto; set_solver|]. split; [done|].
  eapply modifies_trans; eapply modifies_weaken; eauto; set_solver.
Qed.

(** *** Tests *)

Lemma is_list_ends h head l :
  is_list h head l ->
  nxt h head = Some (default head (list.head l)) /\ prv h head = Some (default head (last l)).
Proof.
  intros [_ Hp]. split.
  - destruct l; by destruct Hp as [[? _] _].
  - destruct l as [|x l _] using rev_ind; [by destruct Hp as [[_ ?] _]|].
    rewrite last_snoc, <- app_assoc in *. simpl in *.
    change (path h ((head :: l) ++ x :: [head])) in Hp.
    by apply path_split in Hp as [_ [[_ ?] _]].
Qed.

Lemma list_empty_spec h head l :
  is_list h head l -> list_empty head h = Ok (bool_decide (l = []), h).
Proof.
  intros Hl. destruct (is_list_ends _ _ _ Hl) as [Hn _]. destruct Hl as [Hnd _].
  unfold list_empty. run_step. unfold ret. do 2 f_equal. apply bool_decide_ext.
  destruct l; simpl; [done|]. apply NoDup_cons in Hnd. set_solver.
Qed.

Lemma list_empty_careful_spec h head l :
  is_list h head l -> list_empty_careful head h = Ok (bool_decide (l = []), h).
Proof.
  intros Hl. destruct (is_list_ends _ _ _ Hl) as [Hn Hp]. destruct Hl as [Hnd _].
  unfold list_empty_careful. run_step. destruct l as [|x l]; simpl in *.
  - rewrite bool_decide_true by done. run_step. unfold ret.
    by rewrite !bool_decide_true by done.
  - rewrite bool_decide_false; [done|]. apply NoDup_cons in Hnd. set_solver.
Qed.

Lemma list_is_singular_spec h head l :
  is_list h head l -> list_is_singular head h = Ok (bool_decide (length l = 1%nat), h).
Proof.
  intros Hl. pose proof (is_list_ends _ _ _ Hl) as [Hn Hp].
  unfold list_is_singular. rewrite (bind_ok _ _ _ _ _ (list_empty_spec _ _ _ Hl)).
  destruct Hl as [Hnd _]. destruct l as [|x l]; simpl; [done|].
  do 2 run_step. unfold ret. do 2 f_equal. apply bool_decide_ext.
  destruct l as [|y l _] using rev_ind; simpl; [done|].
  rewrite app_comm_cons, last_snoc, length_app. simpl. apply NoDup_cons in Hnd as [_ Hnd].
  apply NoDup_cons in Hnd. split; [set_solver|lia].
Qed.

Lemma list_is_last_spec h head l1 x l2 :
  is_list h head (l1 ++ x :: l2) -> list_is_last x head h = Ok (bool_decide (l2 = []), h).
Proof.
  intros Hl. pose proof (is_list_others _ _ _ _ _ Hl) as [Hnd _].
  destruct (is_list_entry _ _ _ _ _ Hl) as (s1 & a & b & s2 & _ & E2 & _ & _ & [Lb _] & _).
  unfold list_is_last. run_step. unfold ret. do 2 f_equal. apply bool_decide_ext.
  apply NoDup_cons in Hnd as [Hnd _].
  destruct l2 as [|y l2]; simplify_eq/=; [done|]. set_solver.
Qed.

(** *** Traversal *)

Lemma is_list_next h head l1 x l2 :
  is_list h head (l1 ++ x :: l2) -> nxt h x = Some (default head (list.head l2)).
Proof.
  intros Hl. destruct (is_list_entry _ _ _ _ _ Hl)
    as (s1 & a & b & s2 & _ & E2 & _ & _ & [Lb _] & _).
  rewrite Lb. destruct l2; naive_solver.
Qed.

Lemma list_walk_spec h head l1 l2 fuel :
  is_list h head (l1 ++ l2) -> (length l2 < fuel)%nat ->
  list_walk fuel (default head (list.head l2)) head h = Ok (l2, h).
Proof.
  revert l1 fuel. induction l2 as [|x l2 IH]; intros l1 fuel Hl Hf;
    (destruct fuel as [|fuel]; [simpl in Hf; lia|]); cbn [list_walk list.head default].
  - rewrite app_nil_r in Hl. destruct (is_list_ends _ _ _ Hl) as [Hn _]. run_step.
    by rewrite bool_decide_true.
  - pose proof (is_list_next _ _ _ _ _ Hl) as Lb.
    pose proof (is_list_others _ _ _ _ _ Hl) as [_ Hx].
    run_step. cbn. rewrite bool_decide_false by set_solver.
    erewrite bind_ok; [done|]. apply (IH (l1 ++ [x])); [|simpl in Hf; lia].
    by rewrite <- app_assoc.
Qed.

Lemma is_list_length h head l : is_list h head l -> (length l < size h)%nat.
Proof.
  intros Hl. pose proof Hl as [Hnd _].
  assert (Hsub : list_to_set (head :: l) ⊆ (dom h : gset ptr)).
  { intros y Hy%elem_of_list_to_set. apply elem_of_dom. eapply is_list_cells; eauto. }
  apply subseteq_size in Hsub. rewrite size_list_to_set, size_dom in Hsub by done.
  simpl in Hsub. lia.
Qed.

(** [list_for_each] visits exactly the entries, in order, and terminates. *)
Lemma list_for_each_spec h head l :
  is_list h head l -> list_for_each head h = Ok (l, h).
Proof.
  intros Hl. pose proof (is_list_ends _ _ _ Hl) as [Hn _].
  pose proof (is_list_length _ _ _ Hl).
  unfold list_for_each. erewrite bind_ok by done. run_step.
  apply (list_walk_spec h head [] l); [done|lia].
Qed.

(** *** Splicing *)

(** The entries of a non-empty list, seen as an open path. *)
Lemma is_list_open h head l f t u z :
  is_list h head l -> l = f :: t -> l = u ++ [z] ->
  path h (u ++ [z]) /\ nxt h head = Some f /\ prv h head = Some z /\
  prv h f = Some head /\ nxt h z = Some head /\ z ∉ u /\ f ∉ tail (u ++ [z]).
Proof.
  intros [Hnd Hp] E1 E2. rewrite E2 in Hp. rewrite <- app_assoc in Hp. simpl app in Hp.
  change (path h ((head :: u) ++ z :: [head])) in Hp.
  apply path_split in Hp as [Hp1 [[L1 L1'] _]].
  assert (Hd : NoDup (u ++ [z])) by (rewrite <- E2; by apply NoDup_cons in Hnd as [_ ?]).
  assert (Hf : linked h head f /\ path h (u ++ [z])).
  { simpl app in Hp1. rewrite <- E2, E1 in Hp1. rewrite <- E2, E1. done. }
  destruct Hf as [[? ?] ?]. do 5 (split; [done|]). split.
  - apply NoDup_app in Hd as (_ & Hd & _). set_solver.
  - rewrite <- E2, E1. rewrite <- E2, E1 in Hd. by apply NoDup_cons in Hd as [? _].
Qed.

Lemma __list_splice_spec h head l1 l2 s1 a b s2 list l :
  is_list h head (l1 ++ l2) -> head :: l1 = s1 ++ [a] -> l2 ++ [head] = b :: s2 ->
  is_list h list l -> l <> [] -> (forall y, y ∈ list :: l -> y ∉ head :: l1 ++ l2) ->
  exists h', __list_splice list a b h = Ok (tt, h') /\
    is_list h' head (l1 ++ l ++ l2) /\ modifies (l ++ head :: l1 ++ l2) h h'.
Proof.
  intros [Hnd Hp] E1 E2 Hl Hne Hd.
  assert (E : head :: (l1 ++ l2) ++ [head] = s1 ++ a :: b :: s2).
  { rewrite <- app_assoc, E2, app_comm_cons, E1, <- app_assoc. done. }
  destruct (cyc_nodup _ _ _ _ _ _ Hnd E) as [Hd1 Hd2].
  rewrite E in Hp. apply path_split in Hp as [Hp1 [[La Lb] Hp2]].
  destruct l as [|f t]; [done|]. destruct (split_before f t) as (u & z & Eu).
  destruct (is_list_open _ _ _ _ _ _ _ Hl eq_refl Eu) as (Hpl & Lf & Lz & Vf & Vz & Hz & Hf).
  assert (Hin : forall y, y ∈ f :: t -> y ∉ s1 ++ a :: b :: s2).
  { intros y Hy. rewrite <- E. set_solver +Hy Hd. }
  assert (Hut : forall y, y ∈ u ++ [z] -> y ∈ f :: t) by (rewrite Eu; done).
  assert (Htu : forall y, y ∈ tail (u ++ [z]) -> y ∈ f :: t)
    by (intros y Hy; apply Hut; destruct u; set_solver +Hy).
  assert (Ha : a ∈ head :: l1) by (rewrite E1; set_solver +).
  assert (Hb : b ∈ l2 ++ [head]) by (rewrite E2; set_solver +).
  assert (Haf : a ∉ f :: t) by (intros ?%Hin; set_solver).
  assert (Hbf : b ∉ f :: t) by (intros ?%Hin; set_solver).
  assert (Hzf : z ∈ f :: t) by (rewrite Eu; set_solver +).
  assert (a <> z /\ a <> f /\ b <> z /\ b <> f) as (? & ? & ? & ?) by set_solver +Haf Hbf Hzf.
  unfold __list_splice. run_cells. eexists. split; [done|]. split; [split|].
  - apply NoDup_cons in Hnd as [Hnd1 Hnd2]. destruct Hl as [[_ Hndl]%NoDup_cons _].
    apply NoDup_cons. split; [set_solver +Hnd1 Hd|].
    rewrite (Permutation_app_comm (f :: t)), app_assoc. apply NoDup_app.
    split; [done|]. split; [|done]. set_solver +Hd.
  - rewrite <- !app_assoc, E2, app_comm_cons, E1, <- app_assoc.
    apply (path_relink h _ s1 a (f :: t) b s2 (f :: t)); try done.
    + change ((f :: t) ++ [b]) with (f :: t ++ [b]). apply path_cons2. split.
      * split; read_tac.
      * rewrite app_comm_cons, Eu, <- app_assoc. apply path_split.
        split; [|split; [|done]].
        -- apply (path_ext h); [done| |]; intros y Hy; read_tac;
             set_solver +Hy Hz Hf Hut Htu Haf Hbf.
        -- split; read_tac.
    + intros y Hy. read_tac; set_solver +Hy Hzf.
    + intros y Hy. read_tac; set_solver +Hy.
  - clear - Ha Hb Hzf. modifies_tac.
Qed.

Lemma list_splice_spec h head l' list l :
  is_list h head l' -> is_list h list l -> (forall y, y ∈ list :: l -> y ∉ head :: l') ->
  exists h', list_splice list head h = Ok (tt, h') /\
    is_list h' head (l ++ l') /\ modifies (l ++ head :: l') h h'.
Proof.
  intros Hl' Hl Hd. unfold list_splice.
  rewrite (bind_ok _ _ _ _ _ (list_empty_spec _ _ _ Hl)).
  case_bool_decide as Hne; simpl; [subst; by exists h|].
  destruct (split_after head l') as (b & s & E).
  assert (nxt h head = Some b).
  { destruct Hl' as [_ Hp]. rewrite E in Hp. by destruct Hp as [[? _] _]. }
  run_step. by apply (__list_splice_spec h head [] l' [] head b s list l).
Qed.

Lemma list_splice_tail_spec h head l' list l :
  is_list h head l' -> is_list h list l -> (forall y, y ∈ list :: l -> y ∉ head :: l') ->
  exists h', list_splice_tail list head h = Ok (tt, h') /\
    is_list h' head (l' ++ l) /\ modifies (l ++ head :: l') h h'.
Proof.
  intros Hl' Hl Hd. unfold list_splice_tail.
  rewrite (bind_ok _ _ _ _ _ (list_empty_spec _ _ _ Hl)).
  case_bool_decide as Hne; simpl; [subst; rewrite app_nil_r; by exists h|].
  destruct (split_before head l') as (s & a & E).
  assert (prv h head = Some a).
  { destruct Hl' as [_ Hp]. rewrite app_comm_cons, E, <- app_assoc in Hp.
    by apply path_split in Hp as [_ [[_ ?] _]]. }
  run_step.
  destruct (__list_splice_spec h head l' [] s a head [] list l) as (h' & R & Hl2 & Hm);
    rewrite ?app_nil_r in *; eauto.
Qed.

Lemma list_splice_init_spec h head l' list l :
  is_list h head l' -> is_list h list l -> (forall y, y ∈ list :: l -> y ∉ head :: l') ->
  exists h', list_splice_init list head h = Ok (tt, h') /\
    is_list h' head (l ++ l') /\ is_list h' list [] /\ modifies (list :: l ++ head :: l') h h'.
Proof.
  intros Hl' Hl Hd. pose proof (list_splice_spec _ _ _ _ _ Hl' Hl Hd) as (h1 & R & Hl1 & Hm1).
  unfold list_splice_init, list_splice in *.
  rewrite (bind_ok _ _ _ _ _ (list_empty_spec _ _ _ Hl)) in R.
  rewrite (bind_ok _ _ _ _ _ (list_empty_spec _ _ _ Hl)).
  case_bool_decide as Hne; simpl in *.
  { subst. unfold ret in R. injection R as <-. exists h. do 3 (split; [done|]). done. }
  apply bind_inv_ok in R as (n & h0 & R0 & R). rewrite (bind_ok _ _ _ _ _ R0), (bind_ok _ _ _ _ _ R).
  destruct (INIT_LIST_HEAD_spec h1 list) as (h2 & R2 & Hl2 & Hm2).
  { apply Hm1. eapply is_list_cells; [apply Hl|set_solver]. }
  exists h2. split; [done|]. split; [|split; [done|]].
  - eapply is_list_frame; eauto. destruct Hl as [[? _]%NoDup_cons _]. set_solver.
  - eapply modifies_trans; eapply modifies_weaken; eauto; set_solver.
Qed.

Lemma list_splice_tail_init_spec h head l' list l :
  is_list h head l' -> is_list h list l -> (forall y, y ∈ list :: l -> y ∉ head :: l') ->
  exists h', list_splice_tail_init list head h = Ok (tt, h') /\
    is_list h' head (l' ++ l) /\ is_list h' list [] /\ modifies (list :: l ++ head :: l') h h'.
Proof.
  intros Hl' Hl Hd.
  pose proof (list_splice_tail_spec _ _ _ _ _ Hl' Hl Hd) as (h1 & R & Hl1 & Hm1).
  unfold list_splice_tail_init, list_splice_tail in *.
  rewrite (bind_ok _ _ _ _ _ (list_empty_spec _ _ _ Hl)) in R.
  rewrite (bind_ok _ _ _ _ _ (list_empty_spec _ _ _ Hl)).
  case_bool_decide as Hne; simpl in *.
  { subst. unfold ret in R. injection R as <-. exists h. do 3 (split; [done|]). done. }
  apply bind_inv_ok in R as (n & h0 & R0 & R). rewrite (bind_ok _ _ _ _ _ R0), (bind_ok _ _ _ _ _ R).
  destruct (INIT_LIST_HEAD_spec h1 list) as (h2 & R2 & Hl2 & Hm2).
  { apply Hm1. eapply is_list_cells; [apply Hl|set_solver]. }
  exists h2. split; [done|]. split; [|split; [done|]].
  - eapply is_list_frame; eauto. destruct Hl as [[? _]%NoDup_cons _]. set_solver.
  - eapply modifies_trans; eapply modifies_weaken; eauto; set_solver.
Qed.

(** *** Cutting a list in two *)

Lemma __list_cut_position_spec h head l1 entry l2 list :
  is_list h head (l1 ++ entry :: l2) -> list ∉ head :: l1 ++ entry :: l2 ->
  is_Some (h !! list) ->
  exists h', __list_cut_position list head entry h = Ok (tt, h') /\
    is_list h' list (l1 ++ [entry]) /\ is_list h' head l2 /\
    modifies (list :: head :: l1 ++ entry :: l2) h h'.
Proof.
  intros Hl Hn Hc. pose proof (is_list_ends _ _ _ Hl) as [Hh _].
  destruct (is_list_entry _ _ _ _ _ Hl)
    as (s1 & a & b & s2 & E1 & E2 & Hp1 & [La La'] & [Lb Lb'] & Hp2 & _).
  pose proof (is_list_others _ _ _ _ _ Hl) as [[Hnd1 Hnd2]%NoDup_cons He].
  destruct (split_after entry l1) as (f & t & Ef).
  assert (Hf : default head (list.head (l1 ++ entry :: l2)) = f) by (destruct l1; naive_solver).
  rewrite Hf in Hh. clear Hf.
  assert (Hpf : path h (f :: t) /\ prv h f = Some head).
  { destruct Hl as [_ Hp].
    assert (E : head :: (l1 ++ entry :: l2) ++ [head] = head :: l1 ++ entry :: l2 ++ [head])
      by (by rewrite <- app_assoc).
    rewrite E, app_comm_cons in Hp. apply path_split in Hp as [Hp _].
    simpl in Hp. rewrite Ef in Hp. destruct Hp as [[? ?] ?]. done. }
  destruct Hpf as [Hpf Vf].
  assert (Hft : f ∈ l1 ++ [entry]) by (rewrite Ef; set_solver +).
  assert (Hb : b ∈ l2 ++ [head]) by (rewrite E2; set_solver +).
  apply NoDup_app in Hnd2 as (Hnd2 & Hnd3 & Hnd4).
  assert (Hle : NoDup (l1 ++ [entry])) by (apply NoDup_snoc; [done|set_solver +He]).
  assert (Hfn : f ∉ t) by (rewrite Ef in Hle; by apply NoDup_cons in Hle as [? _]).
  assert (Ht : forall y, y ∈ t -> y ∈ l1 ++ [entry]) by (rewrite Ef; set_solver +).
  assert (Hs2 : b ∉ s2).
  { assert (NoDup (l2 ++ [head])) as Hd by (apply NoDup_snoc; [done|set_solver +Hnd1]).
    rewrite E2 in Hd. by apply NoDup_cons in Hd as [? _]. }
  assert (Hs2l : forall y, y ∈ s2 -> y ∈ l2 ++ [head]) by (rewrite E2; set_solver +).
  assert (entry <> head /\ list <> entry /\ list <> head) as (? & ? & ?) by set_solver +He Hn.
  assert (Hlf : list <> f) by set_solver +Hft Hn.
  assert (Hlb : list <> b) by set_solver +Hb Hn.
  assert (Hfb : f <> b) by set_solver +Hft Hb He Hnd1 Hnd3.
  unfold __list_cut_position. run_cells. eexists.
  split; [done|]. split; [|split; [|clear - Hft Hb; modifies_tac]].
  - split; [apply NoDup_cons; split; [set_solver +Hn|done]|].
    rewrite Ef. simpl app. apply path_cons2. split; [split; read_tac|].
    rewrite app_comm_cons, <- Ef, <- app_assoc. apply path_split. split; [|split; [|done]].
    + rewrite Ef. apply (path_ext_cons h); [done| |]; intros y Hy.
      * rewrite <- Ef, removelast_last in Hy. read_tac; set_solver +Hy Hn Hnd1 He.
      * read_tac; set_solver +Hy Ht Hfn Hb Hnd1 Hnd3 Hn He.
    + split; read_tac.
  - split; [apply NoDup_cons; split; [set_solver +Hnd1|done]|].
    rewrite E2. apply path_cons2. split; [split; read_tac|].
    apply (path_ext_cons h); [done| |]; intros y Hy.
    + rewrite <- E2, removelast_last in Hy. read_tac; set_solver +Hy Hn Hnd1 He.
    + read_tac; set_solver +Hy Hs2 Hs2l Hft Hnd1 Hnd3 He Hn.
Qed.

Lemma list_cut_position_spec h head l1 entry l2 list :
  is_list h head (l1 ++ entry :: l2) -> list ∉ head :: l1 ++ entry :: l2 ->
  is_Some (h !! list) ->
  exists h', list_cut_position list head entry h = Ok (tt, h') /\
    is_list h' list (l1 ++ [entry]) /\ is_list h' head l2 /\
    modifies (list :: head :: l1 ++ entry :: l2) h h'.
Proof.
  intros Hl Hn Hc. unfold list_cut_position.
  pose proof (is_list_ends _ _ _ Hl) as [Hh _].
  pose proof (is_list_others _ _ _ _ _ Hl) as [_ He].
  rewrite (bind_ok _ _ _ _ _ (list_empty_spec _ _ _ Hl)).
  rewrite bool_decide_false by (destruct l1; done). cbn.
  rewrite (bind_ok _ _ _ _ _ (list_is_singular_spec _ _ _ Hl)). run_step.
  match goal with |- context [if ?c then _ else _] => replace c with false end.
  2:{ symmetry. apply andb_false_iff. case_bool_decide as Hlen; [right|by left].
      rewrite length_app in Hlen. destruct l1; simpl in *; [|lia].
      by rewrite bool_decide_false by tauto. }
  rewrite bool_decide_false by set_solver.
  by apply __list_cut_position_spec.
Qed.
End ListSpecs.

(** *** The checking variants of [lib/list_debug.c]

    With [CONFIG_DEBUG_LIST] [__list_add] and [list_del] first compare the
    neighbours' links and warn; the result is the list of warnings that fire,
    [true] for a [WARN] whose condition holds. *)
Module Debug.
Section Debug.
  Context {ptr : Type} `{Countable ptr}.
  Abbreviation LM := (M (gmap ptr (list_head ptr))).

Definition __list_add_debug (new prev next : ptr) : LM (list bool) :=
  let! np := get_prev next in
  let! pn := get_next prev in
  __list_add new prev next ;;;
  ret [bool_decide (np ≠ prev); bool_decide (pn ≠ next)].

Definition list_del_debug (LIST_POISON1 LIST_POISON2 entry : ptr) : LM (list bool) :=
  let! ep := get_prev entry in
  let! epn := get_next ep in
  let! en := get_next entry in
  let! enp := get_prev en in
  __list_del ep en ;;;
  set_next entry LIST_POISON1 ;;;
  set_prev entry LIST_POISON2 ;;;
  ret [bool_decide (epn ≠ entry); bool_decide (enp ≠ entry)].

(** On a well-formed list the checks are silent and the debugging version
    does what the plain one does. *)
Lemma __list_add_debug_silent (h : gmap ptr (list_head ptr)) (prev next new : ptr) r :
  linked h prev next -> __list_add new prev next h = Ok r ->
  __list_add_debug new prev next h = Ok ([false; false], r.2).
Proof.
  intros [L1 L2] R. unfold __list_add_debug. do 2 run_step. destruct r as [[] h'].
  rewrite (bind_ok _ _ _ _ _ R). unfold ret. by rewrite !bool_decide_false by tauto.
Qed.

Lemma list_del_debug_silent (h : gmap ptr (list_head ptr)) (head x P1 P2 : ptr) l1 l2 :
  is_list h head (l1 ++ x :: l2) ->
  exists h', list_del P1 P2 x h = Ok (tt, h') /\
    list_del_debug P1 P2 x h = Ok ([false; false], h').
Proof.
  intros Hl. destruct (list_del_spec P1 P2 _ _ _ _ _ Hl) as (h' & R & _).
  exists h'. split; [done|].
  destruct (is_list_entry _ _ _ _ _ Hl)
    as (s1 & a & b & s2 & _ & _ & _ & [La La'] & [Lb Lb'] & _).
  unfold list_del in R. unfold list_del_debug. do 4 run_step.
  erewrite bind_ok in R by (apply get_prev_run; eauto).
  erewrite bind_ok in R by (apply get_next_run; eauto).
  apply bind_inv_ok in R as ([] & h1 & R1 & R). rewrite (bind_ok _ _ _ _ _ R1).
  apply bind_inv_ok in R as ([] & h2 & R2 & R). rewrite (bind_ok _ _ _ _ _ R2).
  rewrite (bind_ok _ _ _ _ _ R). unfold ret. by rewrite !bool_decide_false by tauto.
Qed.
End Debug.
End Debug.
