(* ===== verification/ListStore.v ===== *)
(** Refinement of the list operations of [include/linux/list.h].

    [ListHead] shows what one operation does to the list it works on; here a
    whole store of circular lists is abstracted to a map from sentinels to
    sequences, and every operation of [list.h] is shown to refine the
    operation on sequences it stands for, the other lists being kept. *)
From S2P Require Import Prelude ListHead.

(** *** Refinement: a store of circular lists

    A store in which every cell belongs to exactly one circular list is an
    abstract map from sentinels to the sequences of their entries (a cell
    that is on no list is an empty list of its own, as [INIT_LIST_HEAD] and
    the [_init] operations leave it).  Each operation of [list.h] refines
    the corresponding operation on sequences. *)

Inductive list_cmd (ptr : Type) : Type :=
  | CInit (list : ptr)
  | CAdd (new head : ptr)
  | CAddTail (new head : ptr)
  | CDel (LIST_POISON1 LIST_POISON2 x : ptr)
  | CDelInit (x : ptr)
  | CMove (x head : ptr)
  | CMoveTail (x head : ptr)
  | CReplace (old new : ptr)
  | CReplaceInit (old new : ptr)
  | CSplice (list head : ptr)
  | CSpliceTail (list head : ptr)
  | CSpliceInit (list head : ptr)
  | CSpliceTailInit (list head : ptr)
  | CCut (list head entry : ptr).
Arguments CInit {ptr} _.
Arguments CAdd {ptr} _ _.
Arguments CAddTail {ptr} _ _.
Arguments CDel {ptr} _ _ _.
Arguments CDelInit {ptr} _.
Arguments CMove {ptr} _ _.
Arguments CMoveTail {ptr} _ _.
Arguments CReplace {ptr} _ _.
Arguments CReplaceInit {ptr} _ _.
Arguments CSplice {ptr} _ _.
Arguments CSpliceTail {ptr} _ _.
Arguments CSpliceInit {ptr} _ _.
Arguments CSpliceTailInit {ptr} _ _.
Arguments CCut {ptr} _ _ _.

Section ListStore.
  Context {ptr : Type} `{Countable ptr}.
  Abbreviation heap := (gmap ptr (list_head ptr)).
  Abbreviation store := (gmap ptr (list ptr)).
  Implicit Types (h : heap) (A : store).

Definition list_exec (c : list_cmd ptr) : M heap unit :=
  match c with
  | CInit list => INIT_LIST_HEAD list
  | CAdd new head => list_add new head
  | CAddTail new head => list_add_tail new head
  | CDel p1 p2 x => list_del p1 p2 x
  | CDelInit x => list_del_init x
  | CMove x head => list_move x head
  | CMoveTail x head => list_move_tail x head
  | CReplace old new => list_replace old new
  | CReplaceInit old new => list_replace_init old new
  | CSplice list head => list_splice list head
  | CSpliceTail list head => list_splice_tail list head
  | CSpliceInit list head => list_splice_init list head
  | CSpliceTailInit list head => list_splice_tail_init list head
  | CCut list head entry => list_cut_position list head entry
  end.

(** What each operation means on sequences.  A cell whose pointers an
    operation leaves stale (an entry after [list_del] or [list_replace], the
    old sentinel after [list_splice], the former entries of a list that is
    overwritten) is on no list and leaves the store. *)
Inductive store_step : list_cmd ptr -> store -> store -> Prop :=
  | SInit A list l :
      A !! list = Some l -> store_step (CInit list) A (<[list := []]> A)
  | SAdd A new head l :
      A !! head = Some l -> A !! new = Some [] -> new <> head ->
      store_step (CAdd new head) A (<[head := new :: l]> (delete new A))
  | SAddTail A new head l :
      A !! head = Some l -> A !! new = Some [] -> new <> head ->
      store_step (CAddTail new head) A (<[head := l ++ [new]]> (delete new A))
  | SDel A p1 p2 x head l1 l2 :
      A !! head = Some (l1 ++ x :: l2) ->
      store_step (CDel p1 p2 x) A (<[head := l1 ++ l2]> A)
  | SDelInit A x head l1 l2 :
      A !! head = Some (l1 ++ x :: l2) ->
      store_step (CDelInit x) A (<[head := l1 ++ l2]> (<[x := []]> A))
  | SDelInitAlone A x :
      A !! x = Some [] -> store_step (CDelInit x) A A
  | SMove A x head l1 l2 head' l' :
      A !! head = Some (l1 ++ x :: l2) -> A !! head' = Some l' -> head <> head' ->
      store_step (CMove x head') A (<[head := l1 ++ l2]> (<[head' := x :: l']> A))
  | SMoveWithin A x head l1 l2 :
      A !! head = Some (l1 ++ x :: l2) ->
      store_step (CMove x head) A (<[head := x :: l1 ++ l2]> A)
  | SMoveTail A x head l1 l2 head' l' :
      A !! head = Some (l1 ++ x :: l2) -> A !! head' = Some l' -> head <> head' ->
      store_step (CMoveTail x head') A (<[head := l1 ++ l2]> (<[head' := l' ++ [x]]> A))
  | SMoveTailWithin A x head l1 l2 :
      A !! head = Some (l1 ++ x :: l2) ->
      store_step (CMoveTail x head) A (<[head := l1 ++ l2 ++ [x]]> A)
  | SReplace A old new head l1 l2 :
      A !! head = Some (l1 ++ old :: l2) -> A !! new = Some [] -> new <> head ->
      store_step (CReplace old new) A (<[head := l1 ++ new :: l2]> (delete new A))
  | SReplaceInit A old new head l1 l2 :
      A !! head = Some (l1 ++ old :: l2) -> A !! new = Some [] -> new <> head ->
      store_step (CReplaceInit old new) A
        (<[head := l1 ++ new :: l2]> (<[old := []]> (delete new A)))
  | SSplice A list head l l' :
      A !! list = Some l -> A !! head = Some l' -> list <> head ->
      store_step (CSplice list head) A (<[head := l ++ l']> (delete list A))
  | SSpliceTail A list head l l' :
      A !! list = Some l -> A !! head = Some l' -> list <> head ->
      store_step (CSpliceTail list head) A (<[head := l' ++ l]> (delete list A))
  | SSpliceInit A list head l l' :
      A !! list = Some l -> A !! head = Some l' -> list <> head ->
      store_step (CSpliceInit list head) A (<[head := l ++ l']> (<[list := []]> A))
  | SSpliceTailInit A list head l l' :
      A !! list = Some l -> A !! head = Some l' -> list <> head ->
      store_step (CSpliceTailInit list head) A (<[head := l' ++ l]> (<[list := []]> A))
  | SCut A list l0 head l1 entry l2 :
      A !! list = Some l0 -> A !! head = Some (l1 ++ entry :: l2) -> list <> head ->
      store_step (CCut list head entry) A
        (<[head := l2]> (<[list := l1 ++ [entry]]> A))
  | SCutEmpty A list head entry :
      A !! head = Some [] -> store_step (CCut list head entry) A A
  | SCutSingular A list head x entry :
      A !! head = Some [x] -> entry <> x -> entry <> head -> store_step (CCut list head entry) A A
  | SCutHead A list l0 head x l :
      A !! list = Some l0 -> A !! head = Some (x :: l) -> list <> head ->
      store_step (CCut list head head) A (<[list := []]> A).

Definition store_rep (h : heap) (A : store) : Prop :=
  (forall k l, A !! k = Some l -> is_list h k l) /\
  (forall k1 k2 l1 l2, k1 <> k2 -> A !! k1 = Some l1 -> A !! k2 = Some l2 ->
     forall y, y ∈ k1 :: l1 -> y ∉ k2 :: l2).

(** No sentinel is an entry of a list. *)
Lemma store_rep_head h A k l x : store_rep h A -> A !! k = Some l -> x ∈ l -> A !! x = None.
Proof.
  intros [R1 R2] Hk Hx. destruct (A !! x) as [l'|] eqn:E; [|done]. exfalso.
  destruct (decide (x = k)) as [->|Hne].
  - destruct (R1 _ _ Hk) as [Hnd _]. apply NoDup_cons in Hnd. naive_solver.
  - apply (R2 k x l l' ltac:(done) Hk E x); set_solver.
Qed.

(** All the cells of some lists, sentinels included. *)
Definition cells (Bs : list (ptr * list ptr)) : list ptr :=
  concat ((fun B => B.1 :: B.2) <$> Bs).

Lemma elem_of_cells y Bs : y ∈ cells Bs <-> exists k l, (k, l) ∈ Bs /\ y ∈ k :: l.
Proof.
  unfold cells. rewrite list_elem_of_In, in_concat. split.
  - intros (B & HB & Hy). apply list_elem_of_In, list_elem_of_fmap in HB as ([k l] & -> & HB).
    exists k, l. split; [done|]. by apply list_elem_of_In in Hy.
  - intros (k & l & HB & Hy). exists (k :: l). split; [|by apply list_elem_of_In].
    apply list_elem_of_In, list_elem_of_fmap. by exists (k, l).
Qed.

Lemma cells_NoDup h A Bs :
  store_rep h A -> NoDup (Bs.*1) -> (forall k l, (k, l) ∈ Bs -> A !! k = Some l) ->
  NoDup (cells Bs).
Proof.
  intros [R1 R2]. induction Bs as [|[k l] Bs IH]; intros Hk Hin; [constructor|].
  apply NoDup_cons in Hk as [Hk1 Hk2].
  change (NoDup ((k :: l) ++ cells Bs)). apply NoDup_app. split; [|split].
  - apply (R1 k l), Hin. left.
  - intros y Hy (k' & l' & HB & Hy')%elem_of_cells.
    refine (R2 k k' l l' _ _ _ y Hy Hy'); [|apply Hin; left|apply Hin; by right].
    intros <-. apply Hk1. apply list_elem_of_fmap. by exists (k, l').
  - apply IH; [done|]. intros. apply Hin. by right.
Qed.

Lemma cells_disjoint Bs k1 k2 l1 l2 y :
  NoDup (cells Bs) -> k1 <> k2 -> (k1, l1) ∈ Bs -> (k2, l2) ∈ Bs ->
  y ∈ k1 :: l1 -> y ∉ k2 :: l2.
Proof.
  induction Bs as [|[k l] Bs IH]; [set_solver|]. intros Hnd Hne H1 H2 Hy1 Hy2.
  change (NoDup ((k :: l) ++ cells Bs)) in Hnd. apply NoDup_app in Hnd as (_ & Hd & Hnd).
  rewrite elem_of_cons in H1, H2.
  destruct H1 as [[= -> ->]|H1], H2 as [[= -> ->]|H2]; [done| | |by eapply IH].
  - apply (Hd y); [done|]. apply elem_of_cells. eauto.
  - apply (Hd y); [done|]. apply elem_of_cells. eauto.
Qed.

(** An operation that rearranges the cells of the lists [Bs] of the store
    into the lists [Bs'] and the cells [rest], which are on no list any more,
    and touches nothing else, keeps the store represented. *)
Lemma store_rep_rearrange h h' A A' Bs Bs' rest :
  store_rep h A -> NoDup (Bs.*1) -> (forall k l, (k, l) ∈ Bs -> A !! k = Some l) ->
  modifies (cells Bs) h h' -> cells Bs' ++ rest ≡ₚ cells Bs ->
  (forall k l, (k, l) ∈ Bs' -> is_list h' k l) ->
  (forall k l, A' !! k = Some l -> (k, l) ∈ Bs' \/ (k ∉ Bs.*1 /\ A !! k = Some l)) ->
  store_rep h' A'.
Proof.
  intros HR Hk HBs Hm Hperm Hl Hcase. pose proof HR as [R1 R2].
  pose proof (cells_NoDup _ _ _ HR Hk HBs) as Hnd.
  assert (Hout : forall k l y, k ∉ Bs.*1 -> A !! k = Some l -> y ∈ k :: l -> y ∉ cells Bs).
  { intros k l y Hk' HA Hy (k' & l' & HB & Hy')%elem_of_cells.
    refine (R2 k k' l l' _ HA (HBs _ _ HB) y Hy Hy').
    intros <-. apply Hk'. apply list_elem_of_fmap. by exists (k, l'). }
  assert (Hin : forall k l y, (k, l) ∈ Bs' -> y ∈ k :: l -> y ∈ cells Bs).
  { intros k l y HB Hy. rewrite <- Hperm. apply elem_of_app. left. apply elem_of_cells. eauto. }
  split.
  - intros k l [HB|[Hk' HA]]%Hcase; [by apply Hl|].
    eapply is_list_frame; [by apply R1|done|]. eauto.
  - intros k1 k2 l1 l2 Hne [H1|[K1 H1]]%Hcase [H2|[K2 H2]]%Hcase y Hy1 Hy2.
    + rewrite <- Hperm in Hnd. apply NoDup_app in Hnd as (Hnd & _ & _). by eapply (cells_disjoint Bs').
    + eapply (Hout k2); eauto.
    + eapply (Hout k1); eauto.
    + by eapply R2.
Qed.
End ListStore.

(** Side conditions of [store_rep_rearrange] for an explicit list of blocks. *)
Ltac store_cases :=
  intros ? ? HA;
  repeat (first [rewrite lookup_insert in HA | rewrite lookup_delete in HA];
          case_decide; simplify_eq);
  first [left; set_solver + | right; split; [set_solver|done]].
Ltac store_blocks :=
  let HB := fresh in
  intros ? ? HB; rewrite ?elem_of_cons, ?elem_of_nil in HB;
  destruct_or?; simplify_eq; done.
Ltac store_modifies :=
  eapply modifies_weaken; [eassumption|]; unfold cells; simpl; set_solver +.
Ltac store_perm := unfold cells; simpl; rewrite ?app_nil_r; solve_Permutation.
Ltac rearrange_rest Bs Bs' rest :=
  eapply (store_rep_rearrange _ _ _ _ Bs Bs' rest);
  [ eassumption | rewrite ?fmap_cons, ?fmap_nil; simpl
  | store_blocks | store_modifies | store_perm | store_blocks | store_cases ].
Ltac rearrange Bs Bs' :=
  match type of Bs with list (?ptr * _) => rearrange_rest Bs Bs' (@nil ptr) end.

Section ListRefine.
  Context {ptr : Type} `{Countable ptr}.
  Implicit Types (h : gmap ptr (list_head ptr)) (A : gmap ptr (list ptr)) (l : list ptr).

Lemma NoDup_two (a b : ptr) : a <> b -> NoDup [a; b].
Proof. intros. apply NoDup_cons. split; [set_solver|apply NoDup_singleton]. Qed.

Lemma store_add_refines h A new head l :
  store_rep h A -> A !! head = Some l -> A !! new = Some [] -> new <> head ->
  exists h', list_add new head h = Ok (tt, h') /\
    store_rep h' (<[head := new :: l]> (delete new A)).
Proof.
  intros HR Hh Hn Hne. pose proof HR as [R1 R2]. pose proof (R2 _ _ _ _ Hne Hn Hh) as D.
  destruct (list_add_spec h head l new) as (h' & R & Hl' & Hm);
    [by apply R1|apply D; set_solver +|eapply is_list_cells; [by apply R1|set_solver +]|].
  exists h'. split; [done|].
  rearrange [(new, []); (head, l)] [(head, new :: l)]. by apply NoDup_two.
Qed.

Lemma store_add_tail_refines h A new head l :
  store_rep h A -> A !! head = Some l -> A !! new = Some [] -> new <> head ->
  exists h', list_add_tail new head h = Ok (tt, h') /\
    store_rep h' (<[head := l ++ [new]]> (delete new A)).
Proof.
  intros HR Hh Hn Hne. pose proof HR as [R1 R2]. pose proof (R2 _ _ _ _ Hne Hn Hh) as D.
  destruct (list_add_tail_spec h head l new) as (h' & R & Hl' & Hm);
    [by apply R1|apply D; set_solver +|eapply is_list_cells; [by apply R1|set_solver +]|].
  exists h'. split; [done|].
  rearrange [(new, []); (head, l)] [(head, l ++ [new])]. by apply NoDup_two.
Qed.

Lemma store_del_refines h A x head l1 l2 :
  store_rep h A -> A !! head = Some (l1 ++ x :: l2) ->
  exists h', list_del_init x h = Ok (tt, h') /\
    store_rep h' (<[head := l1 ++ l2]> (<[x := []]> A)).
Proof.
  intros HR Hh. pose proof HR as [R1 R2].
  destruct (list_del_init_spec h head l1 x l2) as (h' & R & Hl1 & Hl2 & Hm); [by apply R1|].
  exists h'. split; [done|].
  rearrange [(head, l1 ++ x :: l2)] [(head, l1 ++ l2); (x, [])]. apply NoDup_singleton.
Qed.

Lemma store_move_refines h A x head l1 l2 head' l' :
  store_rep h A -> A !! head = Some (l1 ++ x :: l2) -> A !! head' = Some l' -> head <> head' ->
  exists h', list_move x head' h = Ok (tt, h') /\
    store_rep h' (<[head := l1 ++ l2]> (<[head' := x :: l']> A)).
Proof.
  intros HR Hh Hh' Hne. pose proof HR as [R1 R2]. pose proof (R2 _ _ _ _ Hne Hh Hh') as D.
  destruct (list_move_spec h head l1 x l2 head' l') as (h' & R & Hl1 & Hl2 & Hm);
    [by apply R1|by apply R1|done|].
  exists h'. split; [done|].
  rearrange [(head, l1 ++ x :: l2); (head', l')] [(head, l1 ++ l2); (head', x :: l')].
  by apply NoDup_two.
Qed.

Lemma store_move_tail_refines h A x head l1 l2 head' l' :
  store_rep h A -> A !! head = Some (l1 ++ x :: l2) -> A !! head' = Some l' -> head <> head' ->
  exists h', list_move_tail x head' h = Ok (tt, h') /\
    store_rep h' (<[head := l1 ++ l2]> (<[head' := l' ++ [x]]> A)).
Proof.
  intros HR Hh Hh' Hne. pose proof HR as [R1 R2]. pose proof (R2 _ _ _ _ Hne Hh Hh') as D.
  destruct (list_move_tail_spec h head l1 x l2 head' l') as (h' & R & Hl1 & Hl2 & Hm);
    [by apply R1|by apply R1|done|].
  exists h'. split; [done|].
  rearrange [(head, l1 ++ x :: l2); (head', l')] [(head, l1 ++ l2); (head', l' ++ [x])].
  by apply NoDup_two.
Qed.

Lemma store_replace_refines h A old new head l1 l2 :
  store_rep h A -> A !! head = Some (l1 ++ old :: l2) -> A !! new = Some [] -> new <> head ->
  exists h', list_replace_init old new h = Ok (tt, h') /\
    store_rep h' (<[head := l1 ++ new :: l2]> (<[old := []]> (delete new A))).
Proof.
  intros HR Hh Hn Hne. pose proof HR as [R1 R2]. pose proof (R2 _ _ _ _ Hne Hn Hh) as D.
  pose proof (store_rep_head _ _ _ _ old HR Hh ltac:(set_solver +)) as Ho.
  destruct (list_replace_init_spec h head l1 old l2 new) as (h' & R & Hl1 & Hl2 & Hm);
    [by apply R1|apply D; set_solver +|eapply is_list_cells; [by apply R1|set_solver +]|].
  exists h'. split; [done|].
  rearrange [(new, []); (head, l1 ++ old :: l2)] [(head, l1 ++ new :: l2); (old, [])].
  by apply NoDup_two.
Qed.

Lemma store_splice_refines h A list head l l' :
  store_rep h A -> A !! list = Some l -> A !! head = Some l' -> list <> head ->
  exists h', list_splice_init list head h = Ok (tt, h') /\
    store_rep h' (<[head := l ++ l']> (<[list := []]> A)).
Proof.
  intros HR Hl Hh Hne. pose proof HR as [R1 R2]. pose proof (R2 _ _ _ _ Hne Hl Hh) as D.
  destruct (list_splice_init_spec h head l' list l) as (h' & R & Hl1 & Hl2 & Hm);
    [by apply R1|by apply R1|done|].
  exists h'. split; [done|].
  rearrange [(list, l); (head, l')] [(list, []); (head, l ++ l')]. by apply NoDup_two.
Qed.

Lemma store_splice_tail_refines h A list head l l' :
  store_rep h A -> A !! list = Some l -> A !! head = Some l' -> list <> head ->
  exists h', list_splice_tail_init list head h = Ok (tt, h') /\
    store_rep h' (<[head := l' ++ l]> (<[list := []]> A)).
Proof.
  intros HR Hl Hh Hne. pose proof HR as [R1 R2]. pose proof (R2 _ _ _ _ Hne Hl Hh) as D.
  destruct (list_splice_tail_init_spec h head l' list l) as (h' & R & Hl1 & Hl2 & Hm);
    [by apply R1|by apply R1|done|].
  exists h'. split; [done|].
  rearrange [(list, l); (head, l')] [(list, []); (head, l' ++ l)]. by apply NoDup_two.
Qed.

Lemma store_cut_refines h A list l0 head l1 entry l2 :
  store_rep h A -> A !! list = Some l0 -> A !! head = Some (l1 ++ entry :: l2) -> list <> head ->
  exists h', list_cut_position list head entry h = Ok (tt, h') /\
    store_rep h' (<[head := l2]> (<[list := l1 ++ [entry]]> A)).
Proof.
  intros HR Hl Hh Hne. pose proof HR as [R1 R2]. pose proof (R2 _ _ _ _ Hne Hl Hh) as D.
  destruct (list_cut_position_spec h head l1 entry l2 list) as (h' & R & Hl1 & Hl2 & Hm);
    [by apply R1|apply D; set_solver +|apply (is_list_cells _ _ _ list (R1 _ _ Hl)); left|].
  exists h'. split; [done|].
  rearrange_rest [(list, l0); (head, l1 ++ entry :: l2)] [(list, l1 ++ [entry]); (head, l2)] l0.
  by apply NoDup_two.
Qed.

Lemma store_init_refines h A list l :
  store_rep h A -> A !! list = Some l ->
  exists h', INIT_LIST_HEAD list h = Ok (tt, h') /\ store_rep h' (<[list := []]> A).
Proof.
  intros HR Hl. pose proof HR as [R1 R2].
  destruct (INIT_LIST_HEAD_spec h list) as (h' & R & Hl' & Hm); [eapply is_list_cells; [by apply R1|left]|].
  exists h'. split; [done|]. rearrange_rest [(list, l)] [(list, @nil ptr)] l. apply NoDup_singleton.
Qed.

Lemma store_del_poison_refines h A p1 p2 x head l1 l2 :
  store_rep h A -> A !! head = Some (l1 ++ x :: l2) ->
  exists h', list_del p1 p2 x h = Ok (tt, h') /\ store_rep h' (<[head := l1 ++ l2]> A).
Proof.
  intros HR Hh. pose proof HR as [R1 R2].
  destruct (list_del_spec p1 p2 h head l1 x l2) as (h' & R & Hl & _ & Hm); [by apply R1|].
  exists h'. split; [done|]. rearrange_rest [(head, l1 ++ x :: l2)] [(head, l1 ++ l2)] [x]. apply NoDup_singleton.
Qed.

(** [list_del_init] of an entry that is on no list. *)
Lemma store_del_alone_refines h A x :
  store_rep h A -> A !! x = Some [] ->
  exists h', list_del_init x h = Ok (tt, h') /\ store_rep h' A.
Proof.
  intros HR Hx. pose proof HR as [R1 R2]. pose proof (R1 _ _ Hx) as Hl.
  destruct (is_list_ends _ _ _ Hl) as [Hn Hp]. simpl in Hn, Hp.
  pose proof (is_list_cells _ _ _ x Hl ltac:(left)) as Hc.
  destruct (INIT_LIST_HEAD_spec (upd_next x x (upd_prev x x h)) x) as (h' & R & Hl' & Hm).
  { by rewrite upd_next_is_Some, upd_prev_is_Some. }
  exists h'. split.
  - unfold list_del_init, __list_del. do 2 run_step. rewrite <- R. unfold bind at 1.
    rewrite (bind_ok _ _ _ _ _ (set_prev_run x x h Hc)), set_next_run; [done|by rewrite upd_prev_is_Some].
  - assert (Hm' : modifies [x] h h').
    { eapply modifies_trans; [|exact Hm]. modifies_tac. }
    clear Hm. replace (store_rep h' A) with (store_rep h' (<[x := []]> A)) by (by rewrite (insert_id A x [] Hx)).
    rearrange [(x, @nil ptr)] [(x, @nil ptr)]. apply NoDup_singleton.
Qed.

Lemma store_move_within_refines h A x head l1 l2 :
  store_rep h A -> A !! head = Some (l1 ++ x :: l2) ->
  exists h', list_move x head h = Ok (tt, h') /\ store_rep h' (<[head := x :: l1 ++ l2]> A).
Proof.
  intros HR Hh. pose proof HR as [R1 R2]. pose proof (R1 _ _ Hh) as Hl.
  pose proof (is_list_others _ _ _ _ _ Hl) as [_ Hx].
  destruct (__list_del_spec _ _ _ _ _ Hl) as (a & b & h1 & Ha & Hb & R & Hl1 & Hm1).
  destruct (list_add_spec h1 head (l1 ++ l2) x) as (h2 & R2' & Hl2 & Hm2);
    [done|set_solver +Hx|apply Hm1; eapply is_list_cells; [exact Hl|set_solver +]|].
  exists h2. split; [unfold list_move; do 2 run_step; by rewrite (bind_ok _ _ _ _ _ R)|].
  assert (Hm : modifies (head :: l1 ++ x :: l2) h h2).
  { eapply modifies_trans; eapply modifies_weaken; eauto; set_solver +. }
  rearrange [(head, l1 ++ x :: l2)] [(head, x :: l1 ++ l2)]. apply NoDup_singleton.
Qed.

Lemma store_move_tail_within_refines h A x head l1 l2 :
  store_rep h A -> A !! head = Some (l1 ++ x :: l2) ->
  exists h', list_move_tail x head h = Ok (tt, h') /\ store_rep h' (<[head := l1 ++ l2 ++ [x]]> A).
Proof.
  intros HR Hh. pose proof HR as [R1 R2]. pose proof (R1 _ _ Hh) as Hl.
  pose proof (is_list_others _ _ _ _ _ Hl) as [_ Hx].
  destruct (__list_del_spec _ _ _ _ _ Hl) as (a & b & h1 & Ha & Hb & R & Hl1 & Hm1).
  destruct (list_add_tail_spec h1 head (l1 ++ l2) x) as (h2 & R2' & Hl2 & Hm2);
    [done|set_solver +Hx|apply Hm1; eapply is_list_cells; [exact Hl|set_solver +]|].
  rewrite <- app_assoc in Hl2.
  exists h2. split; [unfold list_move_tail; do 2 run_step; by rewrite (bind_ok _ _ _ _ _ R)|].
  assert (Hm : modifies (head :: l1 ++ x :: l2) h h2).
  { eapply modifies_trans; eapply modifies_weaken; eauto; set_solver +. }
  rearrange [(head, l1 ++ x :: l2)] [(head, l1 ++ l2 ++ [x])]. apply NoDup_singleton.
Qed.

Lemma store_replace_stale_refines h A old new head l1 l2 :
  store_rep h A -> A !! head = Some (l1 ++ old :: l2) -> A !! new = Some [] -> new <> head ->
  exists h', list_replace old new h = Ok (tt, h') /\ store_rep h' (<[head := l1 ++ new :: l2]> (delete new A)).
Proof.
  intros HR Hh Hn Hne. pose proof HR as [R1 R2]. pose proof (R2 _ _ _ _ Hne Hn Hh) as D.
  destruct (list_replace_spec h head l1 old l2 new) as (h' & R & Hl1 & Hm);
    [by apply R1|apply D; set_solver +|eapply is_list_cells; [by apply R1|set_solver +]|].
  exists h'. split; [done|].
  rearrange_rest [(new, []); (head, l1 ++ old :: l2)] [(head, l1 ++ new :: l2)] [old]. by apply NoDup_two.
Qed.

Lemma store_splice_stale_refines h A list head l l' :
  store_rep h A -> A !! list = Some l -> A !! head = Some l' -> list <> head ->
  exists h', list_splice list head h = Ok (tt, h') /\ store_rep h' (<[head := l ++ l']> (delete list A)).
Proof.
  intros HR Hl Hh Hne. pose proof HR as [R1 R2]. pose proof (R2 _ _ _ _ Hne Hl Hh) as D.
  destruct (list_splice_spec h head l' list l) as (h' & R & Hl1 & Hm); [by apply R1|by apply R1|done|].
  exists h'. split; [done|].
  rearrange_rest [(list, l); (head, l')] [(head, l ++ l')] [list]. by apply NoDup_two.
Qed.

Lemma store_splice_tail_stale_refines h A list head l l' :
  store_rep h A -> A !! list = Some l -> A !! head = Some l' -> list <> head ->
  exists h', list_splice_tail list head h = Ok (tt, h') /\ store_rep h' (<[head := l' ++ l]> (delete list A)).
Proof.
  intros HR Hl Hh Hne. pose proof HR as [R1 R2]. pose proof (R2 _ _ _ _ Hne Hl Hh) as D.
  destruct (list_splice_tail_spec h head l' list l) as (h' & R & Hl1 & Hm); [by apply R1|by apply R1|done|].
  exists h'. split; [done|].
  rearrange_rest [(list, l); (head, l')] [(head, l' ++ l)] [list]. by apply NoDup_two.
Qed.

(** *** The guards of [list_cut_position] *)

Lemma store_cut_empty_refines h A list head entry :
  store_rep h A -> A !! head = Some [] -> list_cut_position list head entry h = Ok (tt, h).
Proof.
  intros [R1 _] Hh. unfold list_cut_position. by rewrite (bind_ok _ _ _ _ _ (list_empty_spec _ _ _ (R1 _ _ Hh))).
Qed.

Lemma store_cut_singular_refines h A list head x entry :
  store_rep h A -> A !! head = Some [x] -> entry <> x -> entry <> head ->
  list_cut_position list head entry h = Ok (tt, h).
Proof.
  intros [R1 _] Hh Hx Hne. pose proof (R1 _ _ Hh) as Hl. destruct (is_list_ends _ _ _ Hl) as [Hn _].
  unfold list_cut_position. rewrite (bind_ok _ _ _ _ _ (list_empty_spec _ _ _ Hl)).
  rewrite bool_decide_false by done. cbn. rewrite (bind_ok _ _ _ _ _ (list_is_singular_spec _ _ _ Hl)).
  rewrite (bind_ok _ _ _ _ _ (get_next_run _ _ _ Hn)). simpl. by rewrite !bool_decide_true by congruence.
Qed.

Lemma store_cut_head_refines h A list l0 head x l :
  store_rep h A -> A !! list = Some l0 -> A !! head = Some (x :: l) -> list <> head ->
  exists h', list_cut_position list head head h = Ok (tt, h') /\ store_rep h' (<[list := []]> A).
Proof.
  intros HR Hl0 Hh Hne. pose proof HR as [R1 _]. pose proof (R1 _ _ Hh) as Hl.
  destruct (is_list_ends _ _ _ Hl) as [Hn _].
  destruct (store_init_refines h A list l0 HR Hl0) as (h' & R & HR'). exists h'. split; [|done].
  unfold list_cut_position. rewrite (bind_ok _ _ _ _ _ (list_empty_spec _ _ _ Hl)).
  rewrite bool_decide_false by done. cbn. rewrite (bind_ok _ _ _ _ _ (list_is_singular_spec _ _ _ Hl)).
  rewrite (bind_ok _ _ _ _ _ (get_next_run _ _ _ Hn)).
  rewrite (bool_decide_false (head ≠ head)), !andb_false_r by naive_solver. by rewrite bool_decide_true.
Qed.

Lemma store_step_refines c A A' h :
  store_rep h A -> store_step c A A' ->
  exists h', list_exec c h = Ok (tt, h') /\ store_rep h' A'.
Proof.
  intros HR Hs. destruct Hs; cbn [list_exec].
  all: first
    [ eapply store_init_refines; eassumption | eapply store_add_refines; eassumption
    | eapply store_add_tail_refines; eassumption | eapply store_del_poison_refines; eassumption
    | eapply store_del_refines; eassumption | eapply store_del_alone_refines; eassumption
    | eapply store_move_refines; eassumption | eapply store_move_within_refines; eassumption
    | eapply store_move_tail_refines; eassumption | eapply store_move_tail_within_refines; eassumption
    | eapply store_replace_stale_refines; eassumption | eapply store_replace_refines; eassumption
    | eapply store_splice_stale_refines; eassumption | eapply store_splice_tail_stale_refines; eassumption
    | eapply store_splice_refines; eassumption | eapply store_splice_tail_refines; eassumption
    | eapply store_cut_refines; eassumption
    | eexists; split; [eapply store_cut_empty_refines; eassumption|assumption]
    | eexists; split; [eapply store_cut_singular_refines; eassumption|assumption]
    | eapply store_cut_head_refines; eassumption ].
Qed.
End ListRefine.

(** ** Sequences of operations *)

Fixpoint list_execs {ptr} `{Countable ptr} (cs : list (list_cmd ptr)) : M (gmap ptr (list_head ptr)) unit :=
  match cs with
  | [] => ret tt
  | c :: cs => list_exec c ;;; list_execs cs
  end.

Inductive store_steps {ptr} `{Countable ptr}
    : list (list_cmd ptr) -> gmap ptr (list ptr) -> gmap ptr (list ptr) -> Prop :=
  | SSnil A : store_steps [] A A
  | SScons c cs A A' A'' : store_step c A A' -> store_steps cs A' A'' -> store_steps (c :: cs) A A''.

(** C11: every sequence of the operations of [list.h] that change a list, each
    called on cells of the lists it is meant for (an entry to add is on no
    list, an entry to remove, move or replace is on one, the two lists of a
    splice or a cut differ, and a cut is at an entry of the list, at its head,
    or of a list with at most one entry), runs without a bad access and
    leaves well-formed circular lists that hold exactly the sequences the
    operations on sequences give: nothing is lost, duplicated or linked twice,
    and the lists an operation does not name are untouched. *)
Theorem list_ops_refine_sequences {ptr} `{Countable ptr} (cs : list (list_cmd ptr))
    (A A' : gmap ptr (list ptr)) (h : gmap ptr (list_head ptr)) :
  store_rep h A -> store_steps cs A A' ->
  exists h', list_execs cs h = Ok (tt, h') /\ store_rep h' A'.
Proof.
  intros HR Hs. revert h HR. induction Hs as [A|c cs A A' A'' Hc _ IH]; intros h HR.
  - by exists h.
  - destruct (store_step_refines c A A' h HR Hc) as (h1 & R & HR1).
    destruct (IH h1 HR1) as (h2 & R2 & HR2). exists h2. split; [|done].
    cbn [list_execs]. by rewrite (bind_ok _ _ _ _ _ R).
Qed.

(** List 1 holds 3 and 4, list 2 is empty. *)
Definition ex_store : gmap positive (list positive) := <[1%positive := [3; 4]%positive]> {[2%positive := []]}.
Definition ex_heap : gmap positive (list_head positive) :=
  <[1%positive := mk_list_head 3%positive 4%positive]>
  (<[3%positive := mk_list_head 4%positive 1%positive]>
  (<[4%positive := mk_list_head 1%positive 3%positive]>
  {[2%positive := mk_list_head 2%positive 2%positive]})).

Lemma ex_store_rep : store_rep ex_heap ex_store.
Proof.
  assert (Hl : forall k l, ex_store !! k = Some l -> (k = 1%positive /\ l = [3; 4]%positive) \/ (k = 2%positive /\ l = [])).
  { intros k l Hk. unfold ex_store in Hk. apply lookup_insert_Some in Hk as [[<- <-]|[_ Hk]]; [by left|right].
    by apply lookup_singleton_Some in Hk as [<- <-]. }
  split.
  - intros k l [[-> ->]|[-> ->]]%Hl; (split; [apply (bool_decide_unpack _); vm_compute; exact I|]);
      repeat split; vm_compute; reflexivity.
  - intros k1 k2 l1 l2 Hne [[-> ->]|[-> ->]]%Hl [[-> ->]|[-> ->]]%Hl; try done; set_solver +.
Qed.

(** Entry 3 moves to list 2, which is then spliced back. *)
Lemma list_ops_refine_sequences_witness :
  exists h', list_execs [CMove 3 2; CSpliceTailInit 2 1]%positive ex_heap = Ok (tt, h') /\
    store_rep h' (<[1%positive := [4; 3]%positive]> (<[2%positive := []]>
      (<[1%positive := [4%positive]]> (<[2%positive := [3%positive]]> ex_store)))).
Proof.
  apply (list_ops_refine_sequences [CMove 3 2; CSpliceTailInit 2 1]%positive ex_store); [apply ex_store_rep|].
  eapply SScons; [|eapply SScons; [|apply SSnil]].
  - apply (SMove ex_store 3%positive 1%positive [] [4%positive] 2%positive []); [reflexivity|reflexivity|done].
  - apply (SSpliceTailInit _ 2%positive 1%positive [3%positive] [4%positive]); [reflexivity|reflexivity|done].
Defined.
