(* ===== verification/KState.v ===== *)
(** The kernel state the event subsystem works on.

    One record holds what [csc456/eventsyscalls.c], the wait queues of
    [include/linux/wait.h] and [kernel/wait.c] and the wake-up path of
    [kernel/sched.c] read and write: the [list_head] cells, the [struct event]
    objects, the wait-queue entries and locks, the tasks, the global
    reader-writer lock, the interrupt and preemption state of the running
    processor and the user memory.  Memory that is not allocated is absent
    from the maps, so a stale pointer is an [Oops] when it is used. *)
From S2P Require Import Prelude ListHead.

(** *** Addresses *)

(** Wait-queue heads: [allevents.queue] and the [queue] of an event. *)
Inductive qaddr : Type := Qall | Qev (e : positive).

(** [list_head] cells: [allevents.eventlist], an event's [eventlist], a
    queue head's [task_list], a wait entry's [task_list], and the two poison
    addresses. *)
Inductive cell : Type :=
  | Call
  | Cev (e : positive)
  | Cq (q : qaddr)
  | Cw (w : positive)
  | LIST_POISON1
  | LIST_POISON2.

#[export] Instance qaddr_eq_dec : EqDecision qaddr.
Proof. solve_decision. Defined.
#[export] Instance cell_eq_dec : EqDecision cell.
Proof. solve_decision. Defined.

#[export] Instance qaddr_countable : Countable qaddr.
Proof.
  refine (inj_countable' (fun q => match q with Qall => None | Qev e => Some e end)
    (fun o => match o with None => Qall | Some e => Qev e end) _).
  by intros [].
Defined.

#[export] Instance cell_countable : Countable cell.
Proof.
  refine (inj_countable'
    (fun c => match c with
      | Call => inl 0%nat | LIST_POISON1 => inl 1%nat | LIST_POISON2 => inl 2%nat
      | Cev e => inr (inl e) | Cw w => inr (inr (inl w)) | Cq q => inr (inr (inr q)) end)
    (fun x => match x with
      | inl 0%nat => Call | inl 1%nat => LIST_POISON1 | inl _ => LIST_POISON2
      | inr (inl e) => Cev e | inr (inr (inl w)) => Cw w | inr (inr (inr q)) => Cq q end) _).
  by intros [].
Defined.

(** Which cell of a list a cell is: an address is of one kind only. *)
Ltac cell_cases :=
  repeat match goal with
    | H : _ ∈ _ :: _ |- _ => apply elem_of_cons in H as [H|H]
    | H : _ ∈ [] |- _ => by apply elem_of_nil in H
    | H : _ ∈ _ <$> _ |- _ => apply list_elem_of_fmap in H as (? & ? & H)
    end; simplify_eq; try done.

(** *** Objects *)

(** [struct event], less its two embedded list structures, which are cells. *)
Record event : Type := mk_event {
  id : Z;
  uid : Z;
  gid : Z;
  uidFlag : Z;
  gidFlag : Z;
  condition : Z;
}.

(** The [func] of a wait entry. *)
Inductive wait_queue_func_t : Type := default_wake_function_p | autoremove_wake_function_p.

Record wait_queue_t : Type := mk_wait_queue {
  flags : Z;
  private : positive;
  func : wait_queue_func_t;
}.

(** What the event code uses of [struct task_struct]. *)
Record task_struct : Type := mk_task {
  state : Z;
  on_rq : bool;
  sigpending : bool;
  euid : Z;
  egid : Z;
}.

Record kstate : Type := mk_kstate {
  cells : gmap cell (list_head cell);
  events : gmap positive event;
  waits : gmap positive wait_queue_t;
  qlocks : gmap qaddr bool;
  tasks : gmap positive task_struct;
  allevents_id : Z;
  lock : Z;
  irqs_on : bool;
  preempt_count : Z;
  user : gmap Z (Z * bool);
}.

Definition set_cells (c : gmap cell (list_head cell)) (s : kstate) : kstate :=
  mk_kstate c (events s) (waits s) (qlocks s) (tasks s) (allevents_id s) (lock s)
    (irqs_on s) (preempt_count s) (user s).
Definition set_events (v : gmap positive event) (s : kstate) : kstate :=
  mk_kstate (cells s) v (waits s) (qlocks s) (tasks s) (allevents_id s) (lock s)
    (irqs_on s) (preempt_count s) (user s).
Definition set_waits (v : gmap positive wait_queue_t) (s : kstate) : kstate :=
  mk_kstate (cells s) (events s) v (qlocks s) (tasks s) (allevents_id s) (lock s)
    (irqs_on s) (preempt_count s) (user s).
Definition set_qlocks (v : gmap qaddr bool) (s : kstate) : kstate :=
  mk_kstate (cells s) (events s) (waits s) v (tasks s) (allevents_id s) (lock s)
    (irqs_on s) (preempt_count s) (user s).
Definition set_tasks (v : gmap positive task_struct) (s : kstate) : kstate :=
  mk_kstate (cells s) (events s) (waits s) (qlocks s) v (allevents_id s) (lock s)
    (irqs_on s) (preempt_count s) (user s).
Definition set_allevents_id (v : Z) (s : kstate) : kstate :=
  mk_kstate (cells s) (events s) (waits s) (qlocks s) (tasks s) v (lock s)
    (irqs_on s) (preempt_count s) (user s).
Definition set_lock (v : Z) (s : kstate) : kstate :=
  mk_kstate (cells s) (events s) (waits s) (qlocks s) (tasks s) (allevents_id s) v
    (irqs_on s) (preempt_count s) (user s).
Definition set_irqs_on (v : bool) (s : kstate) : kstate :=
  mk_kstate (cells s) (events s) (waits s) (qlocks s) (tasks s) (allevents_id s) (lock s)
    v (preempt_count s) (user s).
Definition set_preempt_count (v : Z) (s : kstate) : kstate :=
  mk_kstate (cells s) (events s) (waits s) (qlocks s) (tasks s) (allevents_id s) (lock s)
    (irqs_on s) v (user s).
Definition set_user (v : gmap Z (Z * bool)) (s : kstate) : kstate :=
  mk_kstate (cells s) (events s) (waits s) (qlocks s) (tasks s) (allevents_id s) (lock s)
    (irqs_on s) (preempt_count s) v.

(** Run a list operation on the cells of the kernel state. *)
Definition lh {A} (m : M (gmap cell (list_head cell)) A) : M kstate A := zoom cells set_cells m.

Lemma lh_ok {A} (m : M (gmap cell (list_head cell)) A) s a c :
  m (cells s) = Ok (a, c) -> lh m s = Ok (a, set_cells c s).
Proof. apply zoom_ok. Qed.

Lemma set_cells_id s : set_cells (cells s) s = s.
Proof. by destruct s. Qed.

Lemma lh_read_ok {A} (m : M (gmap cell (list_head cell)) A) s a :
  m (cells s) = Ok (a, cells s) -> lh m s = Ok (a, s).
Proof. intros H. by rewrite (lh_ok _ _ _ _ H), set_cells_id. Qed.

(** *** Interrupt and preemption state *)

Definition local_irq_save : M kstate bool := fun s => Ok (irqs_on s, set_irqs_on false s).
Definition local_irq_restore (f : bool) : M kstate unit := modify (set_irqs_on f).
Definition preempt_disable : M kstate unit :=
  modify (fun s => set_preempt_count (preempt_count s + 1) s).
Definition preempt_enable : M kstate unit :=
  modify (fun s => set_preempt_count (preempt_count s - 1) s).

(** *** The x86 reader-writer spin lock, as one processor sees it *)

Definition RW_LOCK_BIAS : Z := 16777216.
Definition RW_LOCK_UNLOCKED : Z := RW_LOCK_BIAS.

(** [lock; subl $1,(%rw); jns 1f; call __read_lock_failed]: the slow path
    spins until the sign bit is clear; nobody clears it while this processor
    spins with the lock held by itself. *)
Definition __raw_read_lock : M kstate unit := fun s =>
  let v := u32 (lock s - 1) in
  if Z.testbit v 31 then Err Hang else Ok (tt, set_lock v s).
Definition __raw_read_unlock : M kstate unit := fun s => Ok (tt, set_lock (u32 (lock s + 1)) s).
Definition __raw_write_lock : M kstate unit := fun s =>
  let v := u32 (lock s - RW_LOCK_BIAS) in
  if v =? 0 then Ok (tt, set_lock v s) else Err Hang.
Definition __raw_write_unlock : M kstate unit := fun s =>
  Ok (tt, set_lock (u32 (lock s + RW_LOCK_BIAS)) s).

Definition read_lock_irqsave : M kstate bool :=
  let! flags := local_irq_save in
  preempt_disable ;;;
  __raw_read_lock ;;;
  ret flags.
Definition read_unlock_irqrestore (flags : bool) : M kstate unit :=
  __raw_read_unlock ;;;
  local_irq_restore flags ;;;
  preempt_enable.
Definition write_lock_irqsave : M kstate bool :=
  let! flags := local_irq_save in
  preempt_disable ;;;
  __raw_write_lock ;;;
  ret flags.
Definition write_unlock_irqrestore (flags : bool) : M kstate unit :=
  __raw_write_unlock ;;;
  local_irq_restore flags ;;;
  preempt_enable.

(** The spin lock of a wait-queue head, held or free. *)
Definition _raw_spin_lock (q : qaddr) : M kstate unit := fun s =>
  match qlocks s !! q with
  | None => Err Oops
  | Some true => Err Hang
  | Some false => Ok (tt, set_qlocks (<[q := true]> (qlocks s)) s)
  end.
Definition _raw_spin_unlock (q : qaddr) : M kstate unit := fun s =>
  match qlocks s !! q with
  | None => Err Oops
  | Some _ => Ok (tt, set_qlocks (<[q := false]> (qlocks s)) s)
  end.
Definition spin_lock_irqsave (q : qaddr) : M kstate bool :=
  let! flags := local_irq_save in
  preempt_disable ;;;
  _raw_spin_lock q ;;;
  ret flags.
Definition spin_unlock_irqrestore (q : qaddr) (flags : bool) : M kstate unit :=
  _raw_spin_unlock q ;;;
  local_irq_restore flags ;;;
  preempt_enable.

(** *** Critical sections *)

(** The state inside a critical section of the processor. *)
Definition q_held (q : qaddr) (s : kstate) : kstate :=
  set_qlocks (<[q := true]> (qlocks s))
    (set_preempt_count (preempt_count s + 1) (set_irqs_on false s)).
Definition r_held (s : kstate) : kstate :=
  set_lock (RW_LOCK_BIAS - 1)
    (set_preempt_count (preempt_count s + 1) (set_irqs_on false s)).
Definition w_held (s : kstate) : kstate :=
  set_lock 0 (set_preempt_count (preempt_count s + 1) (set_irqs_on false s)).

Lemma spin_lock_run q s :
  qlocks s !! q = Some false -> spin_lock_irqsave q s = Ok (irqs_on s, q_held q s).
Proof.
  intros Hq. unfold spin_lock_irqsave, bind, local_irq_save, preempt_disable, modify, _raw_spin_lock.
  simpl. by rewrite Hq.
Qed.

Lemma spin_unlock_run q s f :
  qlocks s !! q = Some false -> irqs_on s = f ->
  spin_unlock_irqrestore q f (q_held q s) = Ok (tt, s).
Proof.
  intros Hq <-. unfold spin_unlock_irqrestore, bind, _raw_spin_unlock. simpl.
  rewrite lookup_insert_eq. unfold local_irq_restore, preempt_enable, modify.
  rewrite insert_insert_eq, (insert_id _ _ _ Hq). simpl.
  replace (preempt_count s + 1 - 1) with (preempt_count s) by lia. by destruct s.
Qed.

(** Code between [spin_lock_irqsave] and [spin_unlock_irqrestore]. *)
Lemma spin_section {A} q (m : M kstate A) s s' a :
  qlocks s !! q = Some false -> m (q_held q s) = Ok (a, q_held q s') ->
  qlocks s' = qlocks s -> irqs_on s' = irqs_on s ->
  (let! flags := spin_lock_irqsave q in
   m ;;; spin_unlock_irqrestore q flags) s = Ok (tt, s').
Proof.
  intros Hq Hm Hq' Hi. rewrite (bind_ok _ _ _ _ _ (spin_lock_run _ _ Hq)).
  rewrite (bind_ok _ _ _ _ _ Hm). apply spin_unlock_run; [by rewrite Hq'|done].
Qed.

Lemma read_lock_run s : lock s = RW_LOCK_BIAS -> read_lock_irqsave s = Ok (irqs_on s, r_held s).
Proof.
  intros Hl. unfold read_lock_irqsave, bind, local_irq_save, preempt_disable, modify, __raw_read_lock.
  simpl. by rewrite Hl.
Qed.

Lemma read_unlock_run s f :
  lock s = RW_LOCK_BIAS -> irqs_on s = f -> read_unlock_irqrestore f (r_held s) = Ok (tt, s).
Proof.
  intros Hl <-. unfold read_unlock_irqrestore, bind, __raw_read_unlock, local_irq_restore,
    preempt_enable, modify. simpl.
  replace (preempt_count s + 1 - 1) with (preempt_count s) by lia.
  destruct s; simpl in *. by subst.
Qed.

Lemma write_lock_run s : lock s = RW_LOCK_BIAS -> write_lock_irqsave s = Ok (irqs_on s, w_held s).
Proof.
  intros Hl. unfold write_lock_irqsave, bind, local_irq_save, preempt_disable, modify, __raw_write_lock.
  simpl. by rewrite Hl.
Qed.

Lemma write_unlock_run s f :
  lock s = RW_LOCK_BIAS -> irqs_on s = f -> write_unlock_irqrestore f (w_held s) = Ok (tt, s).
Proof.
  intros Hl <-. unfold write_unlock_irqrestore, bind, __raw_write_unlock, local_irq_restore,
    preempt_enable, modify. simpl.
  replace (preempt_count s + 1 - 1) with (preempt_count s) by lia.
  destruct s; simpl in *. by subst.
Qed.
