(* ===== verification/RwLock.v ===== *)
(** The x86 spin locks, seen by several processors:
    [arch/x86/include/asm/spinlock.h] and the slow paths of
    [arch/x86/lib/rwlock_64.S].

    A machine state is the lock word and the program point of each processor.
    Every locked instruction, and every plain load of the word, is one step,
    so the steps of the processors interleave freely between any two of them.
    [KState] uses the uncontended case of the reader-writer lock; the lemmas at
    the end of its section show that a successful acquire there is a step of
    this machine. *)
From S2P Require Import Prelude ListHead KState.

(** ** Counting processors *)

Definition total {A} (f : A -> Z) (l : list A) : Z := foldr (fun x n => f x + n) 0 l.

Lemma total_insert {A} (f : A -> Z) l i x y :
  l !! i = Some x -> total f (<[i := y]> l) = total f l - f x + f y.
Proof.
  revert i. induction l as [|z l IH]; intros [|i] Hi; simplify_eq/=; [lia|].
  rewrite (IH _ Hi). lia.
Qed.

Lemma total_bound {A} (f : A -> Z) l :
  (forall x, 0 <= f x <= 1) -> 0 <= total f l <= Z.of_nat (length l).
Proof. intros Hf. induction l as [|x l IH]; simpl; [lia|]. specialize (Hf x). lia. Qed.

Lemma total_le {A} (f g : A -> Z) l : (forall x, f x <= g x) -> total f l <= total g l.
Proof. intros Hf. induction l as [|x l IH]; simpl; [lia|]. specialize (Hf x). lia. Qed.

Lemma total_add {A} (f g : A -> Z) l : total f l + total g l = total (fun x => f x + g x) l.
Proof. induction l as [|x l IH]; simpl; lia. Qed.

Lemma total_nonneg {A} (f : A -> Z) l : (forall x, 0 <= f x) -> 0 <= total f l.
Proof. intros Hf. induction l as [|x l IH]; simpl; [lia|]. specialize (Hf x). lia. Qed.

Lemma total_one {A} (f : A -> Z) l i x : (forall x, 0 <= f x) -> l !! i = Some x -> f x <= total f l.
Proof.
  intros Hf. revert i. induction l as [|y l IH]; intros [|i] Hi; simplify_eq/=.
  - pose proof (total_nonneg f l Hf). lia.
  - specialize (IH _ Hi). specialize (Hf y). lia.
Qed.

(** Two different places that count. *)
Lemma total_two {A} (f : A -> Z) l i j x y :
  (forall x, 0 <= f x) -> l !! i = Some x -> l !! j = Some y -> i <> j -> f x + f y <= total f l.
Proof.
  intros Hf. revert i j. induction l as [|z l IH]; intros [|i] [|j] Hi Hj Hne; simplify_eq/=.
  - pose proof (total_one f l _ _ Hf Hj). lia.
  - pose proof (total_one f l _ _ Hf Hi). lia.
  - specialize (IH i j Hi Hj ltac:(congruence)). specialize (Hf z). lia.
Qed.

(** ** The reader-writer lock *)

Module Rw.

(** The sign flag of a 32-bit result. *)
Definition sign (w : Z) : bool := Z.testbit w 31.

(** Program points: outside; after a failed subtraction in the fast path, the
    slow path or a trylock; in the loop of the slow path; about to try again;
    inside the critical section. *)
Inductive pc : Type :=
  | Idle
  | RFail | RSpin | RRetry | RTryFail | RHold
  | WFail | WSpin | WRetry | WTryFail | WHold.

Inductive op : Type := ReadLock | WriteLock | ReadTrylock | WriteTrylock | Continue | Unlock.

(** One instruction of a processor at [p]; [None] when the operation is not
    the next thing the processor can do. *)
Definition rw_instr (o : op) (p : pc) (w : Z) : option (pc * Z) :=
  match o, p with
  (* lock subl $1,(rw); jns *)
  | ReadLock, Idle => let w' := u32 (w - 1) in Some (if sign w' then RFail else RHold, w')
  (* lock subl $RW_LOCK_BIAS,(rw); jz *)
  | WriteLock, Idle => let w' := u32 (w - RW_LOCK_BIAS) in Some (if w' =? 0 then WHold else WFail, w')
  (* atomic_dec_return(count) >= 0 *)
  | ReadTrylock, Idle => let w' := u32 (w - 1) in Some (if sign w' then RTryFail else RHold, w')
  (* atomic_sub_and_test(RW_LOCK_BIAS, count) *)
  | WriteTrylock, Idle =>
      let w' := u32 (w - RW_LOCK_BIAS) in Some (if w' =? 0 then WHold else WTryFail, w')
  (* atomic_inc(count); atomic_add(RW_LOCK_BIAS, count) *)
  | Continue, RTryFail => Some (Idle, u32 (w + 1))
  | Continue, WTryFail => Some (Idle, u32 (w + RW_LOCK_BIAS))
  (* __read_lock_failed *)
  | Continue, RFail => Some (RSpin, u32 (w + 1))
  | Continue, RSpin => Some (if sign (u32 (w - 1)) then RSpin else RRetry, w)
  | Continue, RRetry => let w' := u32 (w - 1) in Some (if sign w' then RFail else RHold, w')
  (* __write_lock_failed *)
  | Continue, WFail => Some (WSpin, u32 (w + RW_LOCK_BIAS))
  | Continue, WSpin => Some (if w =? RW_LOCK_BIAS then WRetry else WSpin, w)
  | Continue, WRetry => let w' := u32 (w - RW_LOCK_BIAS) in Some (if w' =? 0 then WHold else WFail, w')
  (* incl; addl $RW_LOCK_BIAS *)
  | Unlock, RHold => Some (Idle, u32 (w + 1))
  | Unlock, WHold => Some (Idle, u32 (w + RW_LOCK_BIAS))
  | _, _ => None
  end.

Definition machine : Type := Z * list pc.

Definition exec (cpu : nat) (o : op) (m : machine) : option machine :=
  match m.2 !! cpu with
  | Some p => match rw_instr o p m.1 with
              | Some (p', w') => Some (w', <[cpu := p']> m.2)
              | None => None
              end
  | None => None
  end.

Inductive reach (n : nat) : machine -> Prop :=
  | reach_init : reach n (RW_LOCK_UNLOCKED, replicate n Idle)
  | reach_step cpu o m m' : reach n m -> exec cpu o m = Some m' -> reach n m'.

(** *** The invariant *)

(** A processor that has subtracted 1, or the bias, and not added it back. *)
Definition r_out (p : pc) : Z := match p with RFail | RTryFail | RHold => 1 | _ => 0 end.
Definition w_out (p : pc) : Z := match p with WFail | WTryFail | WHold => 1 | _ => 0 end.
Definition r_hold (p : pc) : Z := match p with RHold => 1 | _ => 0 end.
Definition w_hold (p : pc) : Z := match p with WHold => 1 | _ => 0 end.

Definition value (l : list pc) : Z := RW_LOCK_BIAS - total r_out l - RW_LOCK_BIAS * total w_out l.

Record Inv (n : nat) (m : machine) : Prop := {
  inv_len : length m.2 = n;
  inv_word : m.1 = u32 (value m.2);
  inv_excl : total w_hold m.2 = 0 \/ (total w_hold m.2 = 1 /\ total r_hold m.2 = 0);
}.

Lemma sign_u32 z : - 2 ^ 31 <= z < 2 ^ 31 -> sign (u32 z) = (z <? 0).
Proof.
  intros Hz. unfold sign. rewrite Z.testbit_eqb by lia. unfold uwrap.
  change (2 ^ 32) with 4294967296. change (2 ^ 31) with 2147483648 in *.
  destruct (Z.ltb_spec z 0); [apply Z.eqb_eq|apply Z.eqb_neq]; Z.div_mod_to_equations; lia.
Qed.

Lemma u32_zero z : - 2 ^ 31 <= z < 2 ^ 31 -> (u32 z =? 0) = (z =? 0).
Proof.
  intros Hz. unfold uwrap. change (2 ^ 32) with 4294967296. change (2 ^ 31) with 2147483648 in *.
  destruct (Z.eqb_spec z 0) as [->|]; [done|]. apply Z.eqb_neq. Z.div_mod_to_equations. lia.
Qed.

Lemma u32_add a b : u32 (u32 a + b) = u32 (a + b).
Proof. unfold uwrap. by rewrite Zplus_mod_idemp_l. Qed.
Lemma u32_sub a b : u32 (u32 a - b) = u32 (a - b).
Proof. unfold uwrap. by rewrite Zminus_mod_idemp_l. Qed.

Lemma out_bound l :
  0 <= total r_out l /\ 0 <= total w_out l /\ total r_out l + total w_out l <= Z.of_nat (length l) /\
  0 <= total r_hold l <= total r_out l /\ 0 <= total w_hold l <= total w_out l.
Proof.
  pose proof (total_bound r_out l) as H1. pose proof (total_bound w_out l) as H2.
  pose proof (total_bound r_hold l) as H3. pose proof (total_bound w_hold l) as H4.
  pose proof (total_bound (fun x => r_out x + w_out x) l) as H5. rewrite <- total_add in H5.
  pose proof (total_le r_hold r_out l) as H6. pose proof (total_le w_hold w_out l) as H7.
  repeat match goal with H : (forall x : pc, _) -> _ |- _ => specialize (H ltac:(by intros []; simpl; lia)) end.
  lia.
Qed.

Lemma value_range l :
  (length l < 128)%nat -> - 2 ^ 31 + 2 * RW_LOCK_BIAS <= value l <= RW_LOCK_BIAS.
Proof.
  intros Hn. destruct (out_bound l) as (H1 & H2 & H3 & _ & _). unfold value, RW_LOCK_BIAS.
  change (2 ^ 31) with 2147483648. lia.
Qed.

(** An instruction changes the value of the word by what it changes of the
    processor's contribution. *)
Lemma value_insert l i p p' :
  l !! i = Some p ->
  value (<[i := p']> l) = value l + (r_out p - r_out p') + RW_LOCK_BIAS * (w_out p - w_out p').
Proof. intros Hi. unfold value. rewrite !(total_insert _ _ _ _ _ Hi). lia. Qed.

Lemma rw_exec_inv n cpu o m m' : (n < 128)%nat -> Inv n m -> exec cpu o m = Some m' -> Inv n m'.
Proof.
  intros Hn [Hlen Hw Hex] E. destruct m as [w l]. unfold exec in E. simpl in *.
  destruct (l !! cpu) as [p|] eqn:Hp; [|done].
  destruct (rw_instr o p w) as [[p' w']|] eqn:Ei; [|done]. injection E as <-.
  pose proof (value_range l ltac:(lia)) as Hv. destruct (out_bound l) as (H1 & H2 & H3 & H4 & H5).
  pose proof (total_one w_hold l _ _ ltac:(by intros []) Hp) as Hone.
  pose proof (total_one r_hold l _ _ ltac:(by intros []) Hp) as Hone'.
  assert (Hgoal : w' = u32 (value (<[cpu := p']> l)) /\
    (total w_hold (<[cpu := p']> l) = 0 \/
     total w_hold (<[cpu := p']> l) = 1 /\ total r_hold (<[cpu := p']> l) = 0));
    [|split; simpl; [by rewrite length_insert|tauto|tauto]].
  rewrite (value_insert _ _ _ _ Hp), !(total_insert _ _ _ _ _ Hp). subst w.
  unfold rw_instr in Ei.
  destruct o, p; simplify_eq/=; rewrite ?u32_add, ?u32_sub in *;
    rewrite ?sign_u32, ?u32_zero in * by (unfold RW_LOCK_BIAS in *; change (2 ^ 31) with 2147483648 in *; lia);
    unfold value in *;
    repeat match goal with
      | |- context [?a <? ?b] => destruct (Z.ltb_spec a b)
      | |- context [?a =? ?b] => destruct (Z.eqb_spec a b)
      end; simpl; split; try (f_equal; lia); unfold RW_LOCK_BIAS in *; lia.
Qed.

Lemma rw_reach_inv n m : (n < 128)%nat -> reach n m -> Inv n m.
Proof.
  intros Hn. induction 1 as [|cpu o m m' _ IH E]; [|by eapply rw_exec_inv].
  assert (Ht : forall f : pc -> Z, f Idle = 0 -> total f (replicate n Idle) = 0).
  { intros f Hf. clear Hn. induction n as [|k IH]; simpl; [done|]. rewrite IH, Hf. done. }
  split; simpl; [by rewrite length_replicate| |left; by apply Ht].
  unfold value. by rewrite !Ht.
Qed.

(** A writer inside excludes every other processor. *)
Lemma inv_exclusive n m i j p :
  Inv n m -> m.2 !! i = Some WHold -> m.2 !! j = Some p -> i <> j -> p <> RHold /\ p <> WHold.
Proof.
  intros [_ _ Hex] Hi Hj Hne.
  pose proof (total_two w_hold m.2 i j _ _ ltac:(by intros []) Hi Hj Hne) as Hw.
  pose proof (total_one r_hold m.2 j _ ltac:(by intros []) Hj) as Hr.
  split; intros ->; simpl in *; lia.
Qed.

(** *** The lock at rest *)

(** When every processor is outside, the word is back at the bias, and then
    the first instruction of either lock succeeds. *)
Lemma quiescent n m :
  (n < 128)%nat -> reach n m -> Forall (fun p => p = Idle) m.2 -> m.1 = RW_LOCK_UNLOCKED.
Proof.
  intros Hn Hr Hi. destruct (rw_reach_inv _ _ Hn Hr) as [_ Hw _]. rewrite Hw. clear Hw Hr.
  assert (Ht : forall f : pc -> Z, f Idle = 0 -> total f m.2 = 0).
  { intros f Hf. induction Hi as [|p l -> _ IH]; simpl; [done|]. lia. }
  unfold value. by rewrite !Ht.
Qed.

(** A successful acquire of [KState] is a fast-path step of this machine. *)
Lemma raw_read_lock_step s s' :
  KState.__raw_read_lock s = Ok (tt, s') <->
  rw_instr ReadLock Idle (lock s) = Some (RHold, lock s') /\ s' = set_lock (lock s') s.
Proof.
  unfold KState.__raw_read_lock, rw_instr, sign. destruct (Z.testbit (u32 (lock s - 1)) 31); [naive_solver|].
  split; [by intros [= <-]|]. intros [[= E] ->]. by rewrite E.
Qed.

Lemma raw_write_lock_step s s' :
  KState.__raw_write_lock s = Ok (tt, s') <->
  rw_instr WriteLock Idle (lock s) = Some (WHold, lock s') /\ s' = set_lock (lock s') s.
Proof.
  unfold KState.__raw_write_lock, rw_instr. destruct (u32 (lock s - RW_LOCK_BIAS) =? 0); [|naive_solver].
  split; [by intros [= <-]|]. intros [[= E] ->]. by rewrite E.
Qed.
End Rw.

(** ** The ticket spin lock *)

Module Ticket.

(** The two halves of the lock word: the ticket being served and the next
    ticket to hand out. *)
Definition TICKET_SHIFT : Z := 8.
Definition head (slock : Z) : Z := Z.land slock 255.
Definition tail (slock : Z) : Z := Z.shiftr slock TICKET_SHIFT.

(** Program points: outside; in the loop of [__ticket_spin_lock] with the own
    ticket and the head read last; between the load and the [cmpxchgw] of
    [__ticket_spin_trylock]; holding the lock with its ticket. *)
Inductive pc : Type :=
  | Idle
  | Spin (ticket seen : Z)
  | Try (old : Z)
  | Hold (ticket : Z).

Inductive op : Type := Lock | Trylock | Continue | Unlock.

(** [incb] on the low byte does not carry into the high byte. *)
Definition incb (slock : Z) : Z := Z.shiftl (tail slock) TICKET_SHIFT + u8 (head slock + 1).

Definition ticket_instr (o : op) (p : pc) (slock : Z) : option (pc * Z) :=
  match o, p with
  (* lock xaddw *)
  | Lock, Idle => Some (Spin (tail slock) (head slock), u16 (slock + 256))
  (* cmpb; je, or movb and around again *)
  | Continue, Spin t h => Some (if t =? h then Hold t else Spin t (head slock), slock)
  (* movzwl; cmpb; jne *)
  | Trylock, Idle => Some (if head slock =? tail slock then Try slock else Idle, slock)
  (* lock cmpxchgw *)
  | Continue, Try old =>
      Some (if slock =? old then (Hold (tail old), u16 (old + 256)) else (Idle, slock))
  (* incb *)
  | Unlock, Hold _ => Some (Idle, incb slock)
  | _, _ => None
  end.

Definition machine : Type := Z * list pc.

Definition exec (cpu : nat) (o : op) (m : machine) : option machine :=
  match m.2 !! cpu with
  | Some p => match ticket_instr o p m.1 with
              | Some (p', w') => Some (w', <[cpu := p']> m.2)
              | None => None
              end
  | None => None
  end.

(** The processors in the order in which they took a ticket; the lock does
    not store it. *)
Definition queue_after (cpu : nat) (p p' : pc) (q : list nat) : list nat :=
  match p, p' with
  | Idle, Spin _ _ => q ++ [cpu]
  | Try _, Hold _ => q ++ [cpu]
  | Hold _, Idle => List.tl q
  | _, _ => q
  end.

Inductive reach (n : nat) : machine -> list nat -> Prop :=
  | reach_init : reach n (0, replicate n Idle) []
  | reach_step cpu o m m' q p p' :
      reach n m q -> exec cpu o m = Some m' -> m.2 !! cpu = Some p -> m'.2 !! cpu = Some p' ->
      reach n m' (queue_after cpu p p' q).

Definition __ticket_spin_is_locked (slock : Z) : bool :=
  negb (Z.land (Z.lxor (Z.shiftr slock TICKET_SHIFT) slock) (Z.shiftl 1 TICKET_SHIFT - 1) =? 0).
Definition __ticket_spin_is_contended (slock : Z) : bool :=
  Z.land (Z.shiftr slock TICKET_SHIFT - slock) (Z.shiftl 1 TICKET_SHIFT - 1) >? 1.

(** *** The queue behind the word *)

(** The word for head [h] and tail [t]. *)
Definition word (h t : Z) : Z := h + 256 * t.

Lemma word_parts h t : 0 <= h < 256 -> 0 <= t < 256 -> head (word h t) = h /\ tail (word h t) = t.
Proof.
  intros Hh Ht. unfold head, tail, word, TICKET_SHIFT. change 255 with (Z.ones 8).
  rewrite Z.land_ones, Z.shiftr_div_pow2 by lia. change (2 ^ 8) with 256.
  split; Z.div_mod_to_equations; lia.
Qed.

Lemma word_incb h t : 0 <= h < 256 -> 0 <= t < 256 -> incb (word h t) = word (u8 (h + 1)) t.
Proof.
  intros Hh Ht. unfold incb. destruct (word_parts h t Hh Ht) as [-> ->]. unfold word, TICKET_SHIFT.
  rewrite Z.shiftl_mul_pow2 by lia. lia.
Qed.

Lemma word_xadd h t : 0 <= h < 256 -> 0 <= t < 256 -> u16 (word h t + 256) = word h (u8 (t + 1)).
Proof.
  intros Hh Ht. unfold word, uwrap. change (2 ^ 16) with 65536. change (2 ^ 8) with 256.
  Z.div_mod_to_equations. lia.
Qed.

Lemma u8_range z : 0 <= u8 z < 256.
Proof. apply (uwrap_range 8). lia. Qed.
Lemma u8_add a b : u8 (u8 a + b) = u8 (a + b).
Proof. unfold uwrap. by rewrite Zplus_mod_idemp_l. Qed.

(** Fewer than 256 tickets are out, so a distance determines its place. *)
Lemma u8_same h i : 0 <= h < 256 -> 0 <= i < 256 -> u8 (h + i) = h -> i = 0.
Proof. intros Hh Hi. unfold uwrap. change (2 ^ 8) with 256. Z.div_mod_to_equations. lia. Qed.

Definition ticket (p : pc) : option Z :=
  match p with Spin t _ => Some t | Hold t => Some t | _ => None end.

(** What a program point at place [i] of the queue says. *)
Definition place_ok (h : Z) (i : nat) (p : pc) : Prop :=
  match p with
  | Spin t seen => t = u8 (h + Z.of_nat i) /\ (t = seen -> i = O)
  | Hold t => t = u8 (h + Z.of_nat i) /\ i = O
  | _ => False
  end.
Definition outside_ok (p : pc) : Prop :=
  match p with Idle => True | Try old => head old = tail old | _ => False end.

Record Inv (n : nat) (m : machine) (q : list nat) (h t : Z) : Prop := {
  inv_len : length m.2 = n;
  inv_word : m.1 = word h t;
  inv_head : 0 <= h < 256;
  inv_tail : t = u8 (h + Z.of_nat (length q));
  inv_nodup : NoDup q;
  inv_in : forall i cpu, q !! i = Some cpu -> exists p, m.2 !! cpu = Some p /\ place_ok h i p;
  inv_out : forall cpu p, m.2 !! cpu = Some p -> cpu ∉ q -> outside_ok p;
}.

Lemma queue_short n m q h t : Inv n m q h t -> (length q <= n)%nat.
Proof.
  intros HI. rewrite <- (inv_len _ _ _ _ _ HI), <- (length_seq (length m.2) 0).
  apply submseteq_length, NoDup_submseteq; [apply HI|].
  intros cpu Hc. apply list_elem_of_lookup in Hc as [i Hi].
  destruct (inv_in _ _ _ _ _ HI _ _ Hi) as (p & Hp & _). apply elem_of_seq.
  apply lookup_lt_Some in Hp. lia.
Qed.

Lemma inv_cases n m q h t cpu p :
  Inv n m q h t -> m.2 !! cpu = Some p ->
  (cpu ∉ q /\ outside_ok p) \/ (exists i, q !! i = Some cpu /\ place_ok h i p).
Proof.
  intros HI Hp. destruct (decide (cpu ∈ q)) as [Hin|Hn]; [right|left; split; [done|by eapply inv_out]].
  apply list_elem_of_lookup in Hin as [i Hi]. exists i. split; [done|].
  destruct (inv_in _ _ _ _ _ HI _ _ Hi) as (p' & Hp' & ?). congruence.
Qed.

(** A processor joins at the back, with the ticket that was next. *)
Lemma inv_join n l q h t cpu p p' :
  Inv n (word h t, l) q h t -> (n < 256)%nat -> l !! cpu = Some p -> cpu ∉ q ->
  place_ok h (length q) p' ->
  Inv n (word h (u8 (t + 1)), <[cpu := p']> l) (q ++ [cpu]) h (u8 (t + 1)).
Proof.
  intros HI Hn Hp Hq Hpl. split; simpl.
  - rewrite length_insert. apply HI.
  - done.
  - apply HI.
  - rewrite (inv_tail _ _ _ _ _ HI), u8_add, length_app. simpl. f_equal. lia.
  - apply NoDup_snoc; [apply HI|done].
  - intros i c Hc. apply lookup_app_Some in Hc as [Hc|[Hge Hc]].
    + destruct (inv_in _ _ _ _ _ HI _ _ Hc) as (pc0 & Hl & Ho). exists pc0. split; [|done].
      rewrite list_lookup_insert_ne; [done|]. intros ->. by apply Hq, list_elem_of_lookup_2 with i.
    + apply list_lookup_singleton_Some in Hc as [Hz <-]. exists p'.
      rewrite list_lookup_insert_eq by (by eapply lookup_lt_Some). split; [done|].
      by replace i with (length q) by lia.
  - intros c pc0 Hc Hnq. rewrite list_lookup_insert_ne in Hc by (intros ->; set_solver +Hnq).
    eapply (inv_out _ _ _ _ _ HI); [exact Hc|set_solver +Hnq].
Qed.

(** A processor changes its program point and stays where it is. *)
Lemma inv_move n w l q h t cpu p p' :
  Inv n (w, l) q h t -> l !! cpu = Some p ->
  (forall i, q !! i = Some cpu -> place_ok h i p') -> (cpu ∉ q -> outside_ok p') ->
  Inv n (w, <[cpu := p']> l) q h t.
Proof.
  intros HI Hp Hin Hout. split; simpl; try apply HI.
  - rewrite length_insert. apply HI.
  - intros i c Hc. destruct (decide (c = cpu)) as [->|Hne].
    + exists p'. rewrite list_lookup_insert_eq by (by eapply lookup_lt_Some). split; [done|by apply Hin].
    + rewrite list_lookup_insert_ne by done. by apply (inv_in _ _ _ _ _ HI).
  - intros c pc0 Hc Hnq. destruct (decide (c = cpu)) as [->|Hne].
    + rewrite list_lookup_insert_eq in Hc by (by eapply lookup_lt_Some). injection Hc as <-. by apply Hout.
    + rewrite list_lookup_insert_ne in Hc by done. by eapply (inv_out _ _ _ _ _ HI).
Qed.

(** The holder leaves from the front. *)
Lemma inv_leave n l q h t cpu p :
  Inv n (word h t, l) (cpu :: q) h t -> (n < 256)%nat -> l !! cpu = Some p ->
  Inv n (word (u8 (h + 1)) t, <[cpu := Idle]> l) q (u8 (h + 1)) t.
Proof.
  intros HI Hn Hp. pose proof (queue_short _ _ _ _ _ HI) as Hs. simpl in Hs.
  pose proof (inv_nodup _ _ _ _ _ HI) as Hnd. apply NoDup_cons in Hnd as [Hni Hnd].
  pose proof (inv_head _ _ _ _ _ HI) as Hh. split; simpl; try done.
  - rewrite length_insert. apply HI.
  - apply u8_range.
  - rewrite (inv_tail _ _ _ _ _ HI), u8_add. simpl. f_equal. lia.
  - intros i c Hc. destruct (inv_in _ _ _ _ _ HI (S i) c Hc) as (pc0 & Hl & Ho). exists pc0.
    assert (c <> cpu) by (intros ->; by apply Hni, list_elem_of_lookup_2 with i).
    rewrite list_lookup_insert_ne by done. split; [done|].
    destruct pc0; try done; simpl in *; destruct Ho as [-> Ho]; [|done].
    split; [rewrite u8_add; f_equal; lia|]. intros E. by specialize (Ho E).
  - intros c pc0 Hc Hnq. destruct (decide (c = cpu)) as [->|Hne].
    + rewrite list_lookup_insert_eq in Hc by (by eapply lookup_lt_Some). by injection Hc as <-.
    + rewrite list_lookup_insert_ne in Hc by done. eapply (inv_out _ _ _ _ _ HI); [exact Hc|set_solver +Hnq Hne].
Qed.

Lemma ticket_exec_inv n cpu o m m' q h t p p' :
  (n < 256)%nat -> Inv n m q h t -> exec cpu o m = Some m' ->
  m.2 !! cpu = Some p -> m'.2 !! cpu = Some p' ->
  exists h' t', Inv n m' (queue_after cpu p p' q) h' t'.
Proof.
  intros Hn HI E Hp Hp'. destruct m as [w l]. unfold exec in E. simpl in *. rewrite Hp in E.
  pose proof (inv_word _ _ _ _ _ HI) as Hw. simpl in Hw. subst w.
  pose proof (inv_head _ _ _ _ _ HI) as Hh. pose proof (inv_tail _ _ _ _ _ HI) as Ht.
  pose proof (queue_short _ _ _ _ _ HI) as Hs. pose proof (u8_range (h + Z.of_nat (length q))) as Htr.
  rewrite <- Ht in Htr. destruct (word_parts h t Hh Htr) as [Eh Et].
  destruct (ticket_instr o p (word h t)) as [[p1 w1]|] eqn:Ei; [|done]. injection E as <-. simpl in Hp'.
  rewrite list_lookup_insert_eq in Hp' by (by eapply lookup_lt_Some). injection Hp' as ->.
  pose proof (inv_cases _ _ _ _ _ _ _ HI Hp) as Hc.
  destruct o, p as [|tk seen|old|tk]; simpl in Ei, Hc; try discriminate Ei; try injection Ei as <- <-.
  - (* Lock *)
    destruct Hc as [[Hq _]|(i & _ & [])]. rewrite Eh, Et, word_xadd by done. simpl.
    exists h, (u8 (t + 1)). eapply inv_join; [done|done|done|done|]. simpl. split; [done|].
    rewrite Ht. intros Es. apply u8_same in Es; lia.
  - (* Trylock *)
    destruct Hc as [[Hq _]|(i & _ & [])]. exists h, t.
    destruct (Z.eqb_spec (head (word h t)) (tail (word h t))); simpl; (eapply inv_move; [done|done|..]);
      try done; intros i Hi; by apply list_elem_of_lookup_2 in Hi.
  - (* Continue, Spin *)
    destruct Hc as [[_ []]|(i & Hi & -> & Hsee)]. exists h, t.
    destruct (Z.eqb_spec (u8 (h + Z.of_nat i)) seen) as [E|E]; simpl; (eapply inv_move; [done|done|..]).
    + intros j Hj. replace j with i by (eapply NoDup_lookup; [apply HI|done..]). split; [done|auto].
    + intros Hn'. by apply list_elem_of_lookup_2 in Hi.
    + intros j Hj. replace j with i by (eapply NoDup_lookup; [apply HI|done..]). split; [done|].
      rewrite Eh. apply lookup_lt_Some in Hi. intros Es. apply u8_same in Es; lia.
    + intros Hn'. by apply list_elem_of_lookup_2 in Hi.
  - (* Continue, Try *)
    destruct Hc as [[Hq Hold]|(i & _ & [])]. simpl in Hold.
    destruct (Z.eqb_spec (word h t) old) as [<-|Hne]; injection Ei as <- <-; simpl.
    + rewrite Et, word_xadd by done. exists h, (u8 (t + 1)).
      assert (Hq0 : q = []).
      { destruct q as [|c q]; [done|]. exfalso. rewrite Eh, Et, Ht in Hold. symmetry in Hold.
        apply u8_same in Hold; [simpl in *; lia|done|simpl in *; lia]. }
      eapply inv_join; [done|done|done|done|]. simpl. rewrite Hq0 in *. by rewrite Ht.
    + exists h, t. eapply inv_move; [done|done| |done].
      intros i Hi. by apply list_elem_of_lookup_2 in Hi.
  - (* Unlock *)
    destruct Hc as [[_ []]|(i & Hi & _ & ->)]. destruct q as [|c q]; [done|]. injection Hi as ->.
    rewrite word_incb by done. exists (u8 (h + 1)), t. by eapply inv_leave.
Qed.

Lemma ticket_reach_inv n m q : (n < 256)%nat -> reach n m q -> exists h t, Inv n m q h t.
Proof.
  intros Hn. induction 1 as [|cpu o m m' q p p' _ (h & t & IH) E Hp Hp'].
  - exists 0, 0. split; simpl; try done; [by rewrite length_replicate|constructor|].
    intros cpu p Hl _. apply lookup_replicate in Hl as [-> _]. done.
  - by eapply ticket_exec_inv.
Qed.

(** *** What the word says about the queue *)

Lemma land_lxor a b m : Z.land (Z.lxor a b) m = Z.lxor (Z.land a m) (Z.land b m).
Proof.
  apply Z.bits_inj'. intros k Hk. rewrite Z.land_spec, !Z.lxor_spec, !Z.land_spec.
  by destruct (Z.testbit a k), (Z.testbit b k), (Z.testbit m k).
Qed.

Lemma is_locked_word h t :
  0 <= h < 256 -> 0 <= t < 256 -> __ticket_spin_is_locked (word h t) = negb (t =? h).
Proof.
  intros Hh Ht. unfold __ticket_spin_is_locked. destruct (word_parts h t Hh Ht) as [Eh Et].
  unfold tail in Et. rewrite Et, land_lxor. change (Z.shiftl 1 TICKET_SHIFT - 1) with 255.
  unfold head in Eh. rewrite Eh. change 255 with (Z.ones 8). rewrite Z.land_ones, Z.mod_small by lia.
  f_equal. destruct (Z.eqb_spec t h) as [->|Hne]; [by rewrite Z.lxor_nilpotent|].
  apply Z.eqb_neq. by rewrite Z.lxor_eq_0_iff.
Qed.

Lemma is_contended_word h t :
  0 <= h < 256 -> 0 <= t < 256 -> __ticket_spin_is_contended (word h t) = (1 <? u8 (t - h)).
Proof.
  intros Hh Ht. unfold __ticket_spin_is_contended. destruct (word_parts h t Hh Ht) as [Eh Et].
  unfold tail in Et. rewrite Et. change (Z.shiftl 1 TICKET_SHIFT - 1) with (Z.ones 8).
  rewrite Z.land_ones by lia. rewrite Z.gtb_ltb. f_equal. unfold word, uwrap.
  change (2 ^ 8) with 256. Z.div_mod_to_equations. lia.
Qed.

Lemma word_queue n m q :
  (n < 256)%nat -> reach n m q ->
  __ticket_spin_is_locked m.1 = negb (bool_decide (q = [])) /\
  __ticket_spin_is_contended m.1 = bool_decide (1 < length q)%nat.
Proof.
  intros Hn Hr. destruct (ticket_reach_inv n m q Hn Hr) as (h & t & HI).
  pose proof (queue_short _ _ _ _ _ HI) as Hs. pose proof (inv_head _ _ _ _ _ HI) as Hh.
  pose proof (inv_tail _ _ _ _ _ HI) as Ht. pose proof (u8_range (h + Z.of_nat (length q))) as Htr.
  rewrite <- Ht in Htr. rewrite (inv_word _ _ _ _ _ HI), is_locked_word, is_contended_word by done. split.
  - f_equal. destruct (Z.eqb_spec t h) as [E|E]; symmetry.
    + apply bool_decide_true. rewrite Ht in E. apply u8_same in E; [|done|lia].
      apply nil_length_inv. lia.
    + apply bool_decide_false. intros ->. apply E. rewrite Ht. simpl. rewrite Z.add_0_r.
      by apply (uwrap_small 8).
  - assert (Hd : u8 (t - h) = Z.of_nat (length q)).
    { rewrite Ht. unfold uwrap. change (2 ^ 8) with 256. Z.div_mod_to_equations. lia. }
    rewrite Hd. destruct (Z.ltb_spec 1 (Z.of_nat (length q))); symmetry;
      [apply bool_decide_true|apply bool_decide_false]; lia.
Qed.

(** The first of the queue gets the lock in at most two of its own steps. *)
Lemma first_acquires n m c q tk seen :
  (n < 256)%nat -> reach n m (c :: q) -> m.2 !! c = Some (Spin tk seen) ->
  exists m1, exec c Continue m = Some m1 /\
    (m1.2 !! c = Some (Hold tk) \/
     exists m2, exec c Continue m1 = Some m2 /\ m2.2 !! c = Some (Hold tk)).
Proof.
  intros Hn Hr Hp. destruct (ticket_reach_inv n m _ Hn Hr) as (h & t & HI).
  destruct (inv_in _ _ _ _ _ HI 0%nat c eq_refl) as (p & Hl & Ho). rewrite Hp in Hl.
  injection Hl as <-. simpl in Ho. destruct Ho as [Htk _]. rewrite Z.add_0_r in Htk.
  pose proof (inv_head _ _ _ _ _ HI) as Hh. unfold uwrap in Htk. rewrite Z.mod_small in Htk by done.
  pose proof (inv_tail _ _ _ _ _ HI) as Ht.
  assert (Eh : head m.1 = h).
  { rewrite (inv_word _ _ _ _ _ HI). apply word_parts; [done|]. rewrite Ht. apply u8_range. }
  pose proof (lookup_lt_Some _ _ _ Hp) as Hlt.
  unfold exec at 1. rewrite Hp. simpl. eexists. split; [reflexivity|].
  destruct (Z.eqb_spec tk seen) as [E|E]; [left|right]; simpl; [by rewrite list_lookup_insert_eq|].
  unfold exec. simpl. rewrite list_lookup_insert_eq by done. simpl. rewrite Eh, Htk, Z.eqb_refl.
  eexists. split; [reflexivity|]. simpl. rewrite list_lookup_insert_eq; [done|]. by rewrite length_insert.
Qed.
End Ticket.

(** ** Properties *)

(** C12: with fewer than 128 processors the reader-writer lock excludes: while a
    processor holds it for writing no other holds it at all, whatever the
    processors do in between, slow paths and failed trylocks included; and when
    nobody is inside or on the way the lock word is that of a free lock. *)
Theorem rwlock_mutual_exclusion n m :
  (n < 128)%nat -> Rw.reach n m ->
  (forall i j p, m.2 !! i = Some Rw.WHold -> m.2 !! j = Some p -> i <> j ->
     p <> Rw.RHold /\ p <> Rw.WHold) /\
  (Forall (fun p => p = Rw.Idle) m.2 -> m.1 = RW_LOCK_UNLOCKED).
Proof.
  intros Hn Hr. split; [|by apply (Rw.quiescent n)].
  intros i j p. by apply (Rw.inv_exclusive n), Rw.rw_reach_inv.
Qed.

(** Processor 0 writes, processor 1 has failed to read. *)
Lemma rwlock_mutual_exclusion_witness :
  Rw.reach 2 (u32 (-1), [Rw.WHold; Rw.RFail]) /\ (Rw.RFail <> Rw.RHold /\ Rw.RFail <> Rw.WHold).
Proof.
  assert (H : Rw.reach 2 (u32 (-1), [Rw.WHold; Rw.RFail])).
  { apply (Rw.reach_step 2 1 Rw.ReadLock (0, [Rw.WHold; Rw.Idle])); [|vm_compute; reflexivity].
    apply (Rw.reach_step 2 0 Rw.WriteLock (RW_LOCK_UNLOCKED, [Rw.Idle; Rw.Idle])); [|vm_compute; reflexivity].
    apply (Rw.reach_init 2). }
  split; [exact H|].
  apply (proj1 (rwlock_mutual_exclusion 2 _ ltac:(lia) H) 0%nat 1%nat); [reflexivity|reflexivity|lia].
Defined.

(** C13: with fewer than 256 processors the ticket lock is fair: at any time
    only the processor that took its ticket first can hold it, the first of
    the queue gets it within two of its own steps once it is its turn, and
    [__ticket_spin_is_locked] and [__ticket_spin_is_contended] tell whether
    the queue has an element, or more than one. *)
Theorem ticket_lock_fifo n m q :
  (n < 256)%nat -> Ticket.reach n m q ->
  (forall c tk, m.2 !! c = Some (Ticket.Hold tk) -> exists q', q = c :: q') /\
  (forall c q' tk seen, q = c :: q' -> m.2 !! c = Some (Ticket.Spin tk seen) ->
     exists m1, Ticket.exec c Ticket.Continue m = Some m1 /\
       (m1.2 !! c = Some (Ticket.Hold tk) \/
        exists m2, Ticket.exec c Ticket.Continue m1 = Some m2 /\ m2.2 !! c = Some (Ticket.Hold tk))) /\
  Ticket.__ticket_spin_is_locked m.1 = negb (bool_decide (q = [])) /\
  Ticket.__ticket_spin_is_contended m.1 = bool_decide (1 < length q)%nat.
Proof.
  intros Hn Hr. split; [|split; [|by apply (Ticket.word_queue n)]].
  - intros c tk Hc. destruct (Ticket.ticket_reach_inv n m q Hn Hr) as (h & t & HI).
    destruct (Ticket.inv_cases _ _ _ _ _ _ _ HI Hc) as [[_ []]|(i & Hi & _ & ->)].
    destruct q as [|c' q]; [done|]. injection Hi as ->. eauto.
  - intros c q' tk seen -> Hc. by eapply Ticket.first_acquires.
Qed.

(** Processor 1 holds the lock, processor 0 queues behind it. *)
Lemma ticket_lock_fifo_witness :
  Ticket.__ticket_spin_is_contended 512 = true /\
  exists m, Ticket.reach 2 m [1%nat; 0%nat] /\ m.1 = 512.
Proof.
  assert (H : Ticket.reach 2 (512, [Ticket.Spin 1 0; Ticket.Hold 0]) [1%nat; 0%nat]).
  { apply (Ticket.reach_step 2 0 Ticket.Lock (256, [Ticket.Idle; Ticket.Hold 0]) _ [1%nat]
      Ticket.Idle (Ticket.Spin 1 0)); [|vm_compute; reflexivity..].
    apply (Ticket.reach_step 2 1 Ticket.Continue (256, [Ticket.Idle; Ticket.Spin 0 0]) _ [1%nat]
      (Ticket.Spin 0 0) (Ticket.Hold 0)); [|vm_compute; reflexivity..].
    apply (Ticket.reach_step 2 1 Ticket.Lock (0, [Ticket.Idle; Ticket.Idle]) _ []
      Ticket.Idle (Ticket.Spin 0 0)); [|vm_compute; reflexivity..].
    apply (Ticket.reach_init 2). }
  destruct (ticket_lock_fifo 2 _ _ ltac:(lia) H) as (_ & _ & _ & Hc).
  split; [exact Hc|]. eexists. split; [exact H|reflexivity].
Defined.
