(* ===== verification/UserMem.v ===== *)
(** User memory and [copy_to_user]/[copy_from_user].

    User memory maps the addresses the calling process can read to bytes, and
    says which of them it can write.  A copy transfers bytes until the first
    address that faults and returns the number of bytes it did not transfer,
    which is what the byte loop [copy_user_handle_tail] of
    [arch/x86/lib/usercopy_64.c] leaves after a fault.  [int]s are stored in little-endian order. *)
From S2P Require Import Prelude KState.

(** *** Little-endian ints *)

Definition le32 (v : Z) : list Z :=
  [Z.land v 255; Z.land (Z.shiftr v 8) 255; Z.land (Z.shiftr v 16) 255; Z.land (Z.shiftr v 24) 255].

Definition of_le32 (bs : list Z) : Z :=
  match bs with
  | [a; b; c; d] => a + 256 * b + 65536 * c + 16777216 * d
  | _ => 0
  end.

Lemma land_255 v : Z.land v 255 = v mod 256.
Proof. change 255 with (Z.ones 8). by rewrite Z.land_ones by lia. Qed.

Lemma le32_round_trip v : of_le32 (le32 v) = u32 v.
Proof.
  unfold of_le32, le32, uwrap. rewrite !land_255, !Z.shiftr_div_pow2 by lia.
  change (2 ^ 8) with 256. change (2 ^ 16) with 65536. change (2 ^ 24) with 16777216.
  change (2 ^ 32) with 4294967296. Z.div_mod_to_equations. lia.
Qed.

Lemma le32_s32 v : INT_MIN <= v <= INT_MAX -> s32 (of_le32 (le32 v)) = v.
Proof.
  unfold INT_MIN, INT_MAX. intros Hv. rewrite le32_round_trip. unfold swrap, uwrap.
  change (2 ^ (32 - 1)) with 2147483648. change (2 ^ 32) with 4294967296.
  Z.div_mod_to_equations. lia.
Qed.

(** *** Copies *)

(** A byte of user memory, and whether the process may write it. *)
Abbreviation umem := (gmap Z (Z * bool)).

(** The result is the number of bytes not copied and the new memory. *)
Fixpoint copy_out (to : Z) (bs : list Z) (um : umem) : Z * umem :=
  match bs with
  | [] => (0, um)
  | b :: bs' =>
      match um !! to with
      | Some (_, true) => copy_out (to + 1) bs' (<[to := (b, true)]> um)
      | _ => (Z.of_nat (length bs), um)
      end
  end.

Fixpoint copy_in (from : Z) (len : nat) (um : umem) : Z * list Z :=
  match len with
  | O => (0, [])
  | S len' =>
      match um !! from with
      | None => (Z.of_nat len, [])
      | Some (b, _) => let r := copy_in (from + 1) len' um in (r.1, b :: r.2)
      end
  end.

Definition copy_to_user (to : Z) (bs : list Z) : M kstate Z := fun s =>
  let r := copy_out to bs (user s) in Ok (r.1, set_user r.2 s).
Definition copy_from_user (from : Z) (len : nat) : M kstate (Z * list Z) := fun s =>
  Ok (copy_in from len (user s), s).

(** [n] bytes from [a] on that can be read, and that can be written. *)
Definition readable (um : umem) (a : Z) (n : nat) : Prop :=
  forall k, a <= k < a + Z.of_nat n -> is_Some (um !! k).
Definition writable (um : umem) (a : Z) (n : nat) : Prop :=
  forall k, a <= k < a + Z.of_nat n -> exists b, um !! k = Some (b, true).

(** The [n] bytes from [a] on. *)
Fixpoint bytes_at (um : umem) (a : Z) (n : nat) : option (list Z) :=
  match n with
  | O => Some []
  | S n => match um !! a, bytes_at um (a + 1) n with
           | Some (b, _), Some bs => Some (b :: bs)
           | _, _ => None
           end
  end.

(** The [n] ints of the array at [a]. *)
Fixpoint ints_at (um : umem) (a : Z) (n : nat) : option (list Z) :=
  match n with
  | O => Some []
  | S n => match bytes_at um a 4, ints_at um (a + 4) n with
           | Some bs, Some vs => Some (s32 (of_le32 bs) :: vs)
           | _, _ => None
           end
  end.

Lemma writable_readable um a n : writable um a n -> readable um a n.
Proof. intros Hw k Hk. destruct (Hw k Hk) as [b ->]. by eexists. Qed.

Lemma copy_in_ok um a n : readable um a n <-> (copy_in a n um).1 = 0.
Proof.
  unfold readable. revert a. induction n as [|n IH]; intros a; simpl.
  - split; [done|]. lia.
  - split.
    + intros Hacc. destruct (Hacc a) as [[b w] ->]; [lia|]. simpl. apply IH. intros k Hk. apply Hacc. lia.
    + destruct (um !! a) as [[b w]|] eqn:E; simpl; [|lia]. rewrite <- IH. intros Hacc k Hk.
      destruct (decide (k = a)) as [->|]; [by rewrite E|]. apply Hacc. lia.
Qed.

Lemma copy_out_frame a bs um k :
  k < a \/ a + Z.of_nat (length bs) <= k -> (copy_out a bs um).2 !! k = um !! k.
Proof.
  revert a um. induction bs as [|b bs IH]; intros a um Hk; simpl in *; [done|].
  destruct (um !! a) as [[x []]|]; [|done..]. rewrite IH by lia. apply lookup_insert_ne. lia.
Qed.

(** A copy changes no permission. *)
Lemma copy_out_perm a bs um k : snd <$> (copy_out a bs um).2 !! k = snd <$> um !! k.
Proof.
  revert a um. induction bs as [|b bs IH]; intros a um; simpl; [done|].
  destruct (um !! a) as [[x []]|] eqn:E; [|done..]. rewrite IH, lookup_insert. case_decide; [subst|done].
  by rewrite E.
Qed.

Lemma same_perm_readable um um' a n :
  (forall k, snd <$> um' !! k = snd <$> um !! k) -> readable um a n -> readable um' a n.
Proof. intros Hp Hr k Hk. destruct (Hr k Hk) as [x E]. specialize (Hp k). rewrite E in Hp. by apply fmap_Some in Hp as (y & -> & _). Qed.

Lemma same_perm_writable um um' a n :
  (forall k, snd <$> um' !! k = snd <$> um !! k) -> writable um a n -> writable um' a n.
Proof.
  intros Hp Hr k Hk. destruct (Hr k Hk) as [x E]. specialize (Hp k). rewrite E in Hp.
  apply fmap_Some in Hp as ([y w] & -> & ?). simpl in *. subst. by eexists.
Qed.

Lemma copy_out_ok a bs um : writable um a (length bs) <-> (copy_out a bs um).1 = 0.
Proof.
  revert a um. induction bs as [|b bs IH]; intros a um; simpl.
  - split; [done|]. intros _ k Hk. simpl in Hk. lia.
  - split.
    + intros Hw. destruct (Hw a) as [x ->]; [simpl; lia|]. apply IH. intros k Hk.
      rewrite lookup_insert. case_decide; [by eexists|]. apply Hw. simpl. lia.
    + destruct (um !! a) as [[x []]|] eqn:E; simpl; [|lia..]. rewrite <- IH. intros Hw k Hk. simpl in Hk.
      destruct (decide (k = a)) as [->|]; [by exists x|]. destruct (Hw k) as [y Hy]; [lia|].
      rewrite lookup_insert_ne in Hy by done. by exists y.
Qed.

Lemma copy_out_bytes a bs um :
  writable um a (length bs) -> bytes_at (copy_out a bs um).2 a (length bs) = Some bs.
Proof.
  revert a um. induction bs as [|b bs IH]; intros a um Hw; simpl; [done|].
  destruct (Hw a) as [x Hx]; [simpl; lia|]. rewrite Hx, copy_out_frame by lia. rewrite lookup_insert_eq, IH; [done|].
  intros k Hk. rewrite lookup_insert. case_decide; [by eexists|]. apply Hw. simpl. lia.
Qed.

Lemma bytes_at_app um a n bs1 bs2 :
  length bs1 = n -> bytes_at um a (n + length bs2) = Some (bs1 ++ bs2) ->
  bytes_at um a n = Some bs1 /\ bytes_at um (a + Z.of_nat n) (length bs2) = Some bs2.
Proof.
  revert a bs1. induction n as [|n IH]; intros a [|b bs1] Hlen; try done; simpl.
  - rewrite Z.add_0_r. done.
  - destruct (um !! a) as [[z w]|]; [|done]. destruct (bytes_at um (a + 1) (n + length bs2)) eqn:E; [|done].
    intros [= -> ->]. destruct (IH (a + 1) bs1) as [H1 H2]; [simpl in Hlen; lia|done|].
    rewrite H1. split; [done|]. rewrite <- H2. f_equal. lia.
Qed.

(** What [copy_to_user] writes, [ints_at] reads back. *)
Lemma ints_at_bytes um a vs :
  Forall (fun v => INT_MIN <= v <= INT_MAX) vs ->
  bytes_at um a (4 * length vs) = Some (concat (le32 <$> vs)) -> ints_at um a (length vs) = Some vs.
Proof.
  revert a. induction vs as [|v vs IH]; intros a Hr Hb; [done|].
  apply Forall_cons in Hr as [Hv Hr].
  assert (Hlen : length (concat (le32 <$> vs)) = (4 * length vs)%nat).
  { clear. induction vs as [|v vs IH]; [done|]. change (4 + length (concat (le32 <$> vs)) = 4 * S (length vs))%nat. lia. }
  replace (4 * length (v :: vs))%nat with (4 + length (concat (le32 <$> vs)))%nat in Hb
    by (rewrite Hlen; simpl; lia).
  apply (bytes_at_app _ _ 4 (le32 v)) in Hb as [H1 H2]; [|done].
  rewrite Hlen in H2. cbn [ints_at length]. rewrite H1, (IH (a + 4)) by done.
  by rewrite le32_s32.
Qed.
