(* ===== verification/WaitQueue.v ===== *)
(** Wait queues: [include/linux/wait.h], [kernel/wait.c] and the wake-up path
    of [kernel/sched.c].

    The operations are transcribed statement by statement over [kstate].  Of
    [try_to_wake_up] and [schedule] the model keeps what decides whether a
    task runs: the state word, the run-queue flag and the pending signal.
    [SchedWait.v] shows that this is what the scheduler does. *)
From S2P Require Import Prelude ListHead KState.

(** *** Constants *)

Definition TASK_RUNNING : Z := 0.
Definition TASK_INTERRUPTIBLE : Z := 1.
Definition TASK_UNINTERRUPTIBLE : Z := 2.
Definition TASK_NORMAL : Z := Z.lor TASK_INTERRUPTIBLE TASK_UNINTERRUPTIBLE.
Definition WQ_FLAG_EXCLUSIVE : Z := 1.

(** *** Field accesses *)

Definition get_task (t : positive) : M kstate task_struct := deref (fun s => tasks s !! t).
Definition put_task (t : positive) (v : task_struct) : M kstate unit :=
  modify (fun s => set_tasks (<[t := v]> (tasks s)) s).
Definition get_wait (w : positive) : M kstate wait_queue_t := deref (fun s => waits s !! w).
Definition put_wait (w : positive) (v : wait_queue_t) : M kstate unit :=
  modify (fun s => set_waits (<[w := v]> (waits s)) s).

(** [set_current_state] and [__set_current_state] differ by a memory barrier. *)
Definition set_current_state (cur : positive) (v : Z) : M kstate unit :=
  let! t := get_task cur in
  put_task cur (mk_task v (on_rq t) (sigpending t) (euid t) (egid t)).
Definition signal_pending (cur : positive) : M kstate bool :=
  let! t := get_task cur in
  ret (sigpending t).

Definition set_flags (w : positive) (f : Z -> Z) : M kstate unit :=
  let! x := get_wait w in
  put_wait w (mk_wait_queue (f (flags x)) (private x) (func x)).

(** *** Queue heads and entries *)

Definition __init_waitqueue_head (q : qaddr) : M kstate unit :=
  modify (fun s => set_qlocks (<[q := false]> (qlocks s)) s) ;;;
  lh (INIT_LIST_HEAD (Cq q)).

(** [DEFINE_WAIT(name)]: an entry on the stack of the current task. *)
Definition DEFINE_WAIT (cur w : positive) : M kstate unit := fun s =>
  Ok (tt, set_waits (<[w := mk_wait_queue 0 cur autoremove_wake_function_p]> (waits s))
            (set_cells (<[Cw w := mk_list_head (Cw w) (Cw w)]> (cells s)) s)).

(** The end of the scope of such an entry. *)
Definition leave_scope (w : positive) : M kstate unit := fun s =>
  Ok (tt, set_waits (delete w (waits s)) (set_cells (delete (Cw w) (cells s)) s)).

Definition waitqueue_active (q : qaddr) : M kstate bool :=
  let! e := lh (list_empty (Cq q)) in
  ret (negb e).

Definition __add_wait_queue (head : qaddr) (new : positive) : M kstate unit :=
  lh (list_add (Cw new) (Cq head)).
Definition __add_wait_queue_tail (head : qaddr) (new : positive) : M kstate unit :=
  lh (list_add_tail (Cw new) (Cq head)).
Definition __remove_wait_queue (head : qaddr) (old : positive) : M kstate unit :=
  lh (list_del LIST_POISON1 LIST_POISON2 (Cw old)).

Definition add_wait_queue (q : qaddr) (wait : positive) : M kstate unit :=
  set_flags wait (fun f => Z.land f (Z.lnot WQ_FLAG_EXCLUSIVE)) ;;;
  let! flags := spin_lock_irqsave q in
  __add_wait_queue q wait ;;;
  spin_unlock_irqrestore q flags.

Definition add_wait_queue_exclusive (q : qaddr) (wait : positive) : M kstate unit :=
  set_flags wait (fun f => Z.lor f WQ_FLAG_EXCLUSIVE) ;;;
  let! flags := spin_lock_irqsave q in
  __add_wait_queue_tail q wait ;;;
  spin_unlock_irqrestore q flags.

Definition remove_wait_queue (q : qaddr) (wait : positive) : M kstate unit :=
  let! flags := spin_lock_irqsave q in
  __remove_wait_queue q wait ;;;
  spin_unlock_irqrestore q flags.

Definition prepare_to_wait (cur : positive) (q : qaddr) (wait : positive) (state : Z) : M kstate unit :=
  set_flags wait (fun f => Z.land f (Z.lnot WQ_FLAG_EXCLUSIVE)) ;;;
  let! flags := spin_lock_irqsave q in
  let! e := lh (list_empty (Cw wait)) in
  (if (e : bool) then __add_wait_queue q wait else ret tt) ;;;
  set_current_state cur state ;;;
  spin_unlock_irqrestore q flags.

Definition prepare_to_wait_exclusive (cur : positive) (q : qaddr) (wait : positive) (state : Z)
    : M kstate unit :=
  set_flags wait (fun f => Z.lor f WQ_FLAG_EXCLUSIVE) ;;;
  let! flags := spin_lock_irqsave q in
  let! e := lh (list_empty (Cw wait)) in
  (if (e : bool) then __add_wait_queue_tail q wait else ret tt) ;;;
  set_current_state cur state ;;;
  spin_unlock_irqrestore q flags.

Definition finish_wait (cur : positive) (q : qaddr) (wait : positive) : M kstate unit :=
  set_current_state cur TASK_RUNNING ;;;
  let! e := lh (list_empty_careful (Cw wait)) in
  if negb e then
    let! flags := spin_lock_irqsave q in
    lh (list_del_init (Cw wait)) ;;;
    spin_unlock_irqrestore q flags
  else ret tt.

(** *** Waking up *)

(** [out_activate]: [activate_task] puts the task on a run queue. *)
Definition ttwu_activate (t : task_struct) : task_struct :=
  mk_task (state t) true (sigpending t) (euid t) (egid t).
(** [out_running]: the task becomes [TASK_RUNNING]. *)
Definition ttwu_running (t : task_struct) : task_struct :=
  mk_task TASK_RUNNING (on_rq t) (sigpending t) (euid t) (egid t).

(** The task is not woken when its state is not in the mask; when it is still
    on a run queue it only becomes [TASK_RUNNING] and the result is 0. *)
Definition try_to_wake_up (p : positive) (mask : Z) : M kstate Z :=
  let! t := get_task p in
  if Z.land (state t) mask =? 0 then ret 0
  else if on_rq t then
    put_task p (ttwu_running t) ;;;
    ret 0
  else
    put_task p (ttwu_running (ttwu_activate t)) ;;;
    ret 1.

Definition default_wake_function (curr : positive) (mode : Z) : M kstate Z :=
  let! x := get_wait curr in
  try_to_wake_up (private x) mode.

Definition autoremove_wake_function (wait : positive) (mode : Z) : M kstate Z :=
  let! r := default_wake_function wait mode in
  (if negb (r =? 0) then lh (list_del_init (Cw wait)) else ret tt) ;;;
  ret r.

(** [curr->func(curr, mode, wake_flags, key)] *)
Definition call_func (curr : positive) (mode : Z) : M kstate Z :=
  let! x := get_wait curr in
  match func x with
  | default_wake_function_p => default_wake_function curr mode
  | autoremove_wake_function_p => autoremove_wake_function curr mode
  end.

(** [list_entry(ptr, wait_queue_t, task_list)]; any other cell is not inside
    a wait entry. *)
Definition wait_entry (c : cell) : M kstate positive :=
  match c with Cw w => ret w | _ => throw Oops end.

(** The body of [list_for_each_entry_safe]: [pos] is the entry to visit and
    [n] the one read before the body ran. *)
Fixpoint wake_loop (fuel : nat) (pos n : cell) (q : qaddr) (mode nr_exclusive : Z) : M kstate unit :=
  match fuel with
  | O => throw Hang
  | S fuel =>
      if bool_decide (pos = Cq q) then ret tt
      else
        let! curr := wait_entry pos in
        let! x := get_wait curr in
        let fl := flags x in
        let! woken := call_func curr mode in
        let excl := negb (woken =? 0) && negb (Z.land fl WQ_FLAG_EXCLUSIVE =? 0) in
        let nr := if excl then s32 (nr_exclusive - 1) else nr_exclusive in
        if excl && (nr =? 0) then ret tt
        else
          let! n' := lh (get_next n) in
          wake_loop fuel n n' q mode nr
  end.

Definition __wake_up_common (q : qaddr) (mode nr_exclusive : Z) : M kstate unit :=
  let! fuel := gets (fun s => S (size (cells s))) in
  let! pos := lh (get_next (Cq q)) in
  let! n := lh (get_next pos) in
  wake_loop fuel pos n q mode nr_exclusive.

Definition __wake_up (q : qaddr) (mode nr_exclusive : Z) : M kstate unit :=
  let! flags := spin_lock_irqsave q in
  __wake_up_common q mode nr_exclusive ;;;
  spin_unlock_irqrestore q flags.

Definition __wake_up_locked_key (q : qaddr) (mode : Z) : M kstate unit :=
  __wake_up_common q mode 1.

Definition wake_up (q : qaddr) : M kstate unit := __wake_up q TASK_NORMAL 1.
Definition wake_up_all (q : qaddr) : M kstate unit := __wake_up q TASK_NORMAL 0.

Definition abort_exclusive_wait (cur : positive) (q : qaddr) (wait : positive) (mode : Z) : M kstate unit :=
  set_current_state cur TASK_RUNNING ;;;
  let! flags := spin_lock_irqsave q in
  let! e := lh (list_empty (Cw wait)) in
  (if negb e then lh (list_del_init (Cw wait))
   else
     let! a := waitqueue_active q in
     if (a : bool) then __wake_up_locked_key q mode else ret tt) ;;;
  spin_unlock_irqrestore q flags.

(** *** Giving up the processor *)

(** [signal_pending_state], for the states used here ([TASK_WAKEKILL] is not
    among them, so no fatal signal is consulted). *)
Definition signal_pending_state (st : Z) (t : task_struct) : bool :=
  if Z.land st TASK_INTERRUPTIBLE =? 0 then false else sigpending t.

(** What [schedule] does to the task that calls it: a task that is not
    [TASK_RUNNING] leaves the run queue, unless a signal is pending. *)
Definition schedule_prev (cur : positive) : M kstate unit :=
  let! t := get_task cur in
  if state t =? 0 then ret tt
  else if signal_pending_state (state t) t then set_current_state cur TASK_RUNNING
  else put_task cur (mk_task (state t) false (sigpending t) (euid t) (egid t)).

(** [signal_wake_up_state(t, 0)] *)
Definition signal_wake_up (p : positive) : M kstate unit :=
  let! t := get_task p in
  put_task p (mk_task (state t) (on_rq t) true (euid t) (egid t)) ;;;
  let! r := try_to_wake_up p TASK_INTERRUPTIBLE in
  ret tt.

(** ** What waking a queue does *)

(** The effect of one wake-up on a task, and whether it succeeds. *)
Definition woken (mask : Z) (t : task_struct) : task_struct :=
  if Z.land (state t) mask =? 0 then t
  else mk_task TASK_RUNNING true (sigpending t) (euid t) (egid t).
Definition wakes (mask : Z) (t : task_struct) : bool :=
  negb (Z.land (state t) mask =? 0) && negb (on_rq t).

(** An entry of [DEFINE_WAIT], queued by [prepare_to_wait]: the entry on the
    stack of task [w], not exclusive. *)
Definition own_entry (s : kstate) (w : positive) : Prop :=
  (exists fl, waits s !! w = Some (mk_wait_queue fl w autoremove_wake_function_p) /\
     Z.land fl WQ_FLAG_EXCLUSIVE = 0) /\
  is_Some (tasks s !! w).

(** The tasks after waking [ws], and the entries that stay on the queue: those
    of the tasks that were not asleep. *)
Fixpoint wake_tasks (mask : Z) (ws : list positive) (ts : gmap positive task_struct)
    : gmap positive task_struct :=
  match ws with
  | [] => ts
  | w :: ws => wake_tasks mask ws (alter (woken mask) w ts)
  end.
Definition stays (mask : Z) (ts : gmap positive task_struct) (w : positive) : bool :=
  match ts !! w with Some t => negb (wakes mask t) | None => true end.
Definition kept (mask : Z) (ts : gmap positive task_struct) (ws : list positive) : list positive :=
  List.filter (stays mask ts) ws.

Lemma wake_tasks_lookup mask ws ts w :
  NoDup ws ->
  wake_tasks mask ws ts !! w = if decide (w ∈ ws) then woken mask <$> ts !! w else ts !! w.
Proof.
  revert ts. induction ws as [|x ws IH]; intros ts Hnd; simpl.
  - done.
  - apply NoDup_cons in Hnd as [Hx Hnd]. rewrite IH by done.
    destruct (decide (w = x)) as [->|Hne].
    + repeat case_decide; try set_solver. by rewrite lookup_alter_eq.
    + rewrite lookup_alter_ne by done. repeat case_decide; set_solver.
Qed.

Lemma kept_ext mask ts ts' ws :
  (forall w, w ∈ ws -> ts !! w = ts' !! w) -> kept mask ts ws = kept mask ts' ws.
Proof.
  intros Hext. unfold kept. induction ws as [|w ws IH]; [done|]. simpl.
  rewrite IH by (intros; apply Hext; by right).
  unfold stays. by rewrite (Hext w) by left.
Qed.

Lemma kept_subset mask ts ws w : w ∈ kept mask ts ws -> w ∈ ws.
Proof. unfold kept. rewrite !list_elem_of_In, filter_In. tauto. Qed.

Lemma try_to_wake_up_run s p mask t :
  tasks s !! p = Some t ->
  try_to_wake_up p mask s =
    Ok (cbool (wakes mask t), set_tasks (alter (woken mask) p (tasks s)) s).
Proof.
  intros Ht. unfold try_to_wake_up. erewrite bind_ok by (apply deref_ok; exact Ht).
  rewrite (alter_at _ _ _ _ Ht). unfold wakes, woken. destruct (Z.land (state t) mask =? 0); simpl.
  - unfold ret. rewrite (insert_id _ _ _ Ht). by destruct s.
  - destruct (on_rq t) eqn:Hr; [|done]. unfold ttwu_running. by rewrite Hr.
Qed.

Lemma autoremove_run s q l1 w l2 mask :
  own_entry s w -> is_list (cells s) (Cq q) (l1 ++ Cw w :: l2) ->
  exists r c, autoremove_wake_function w mask s =
      Ok (r, set_cells c (set_tasks (alter (woken mask) w (tasks s)) s)) /\
    is_list c (Cq q) (l1 ++ (if stays mask (tasks s) w then [Cw w] else []) ++ l2) /\
    (stays mask (tasks s) w = false -> is_list c (Cw w) []) /\
    modifies (Cq q :: l1 ++ Cw w :: l2) (cells s) c.
Proof.
  intros [(fl & Hw & _) [t Ht]] Hl. unfold autoremove_wake_function, default_wake_function.
  erewrite bind_ok; cycle 1.
  { erewrite bind_ok by (apply deref_ok; exact Hw). by apply try_to_wake_up_run. }
  exists (cbool (wakes mask t)). unfold stays. rewrite Ht.
  destruct (wakes mask t); simpl.
  - destruct (list_del_init_spec _ _ _ _ _ Hl) as (c & R & Hl1 & Hl2 & Hm).
    exists c. erewrite bind_ok; [|apply lh_ok, R]. done.
  - exists (cells s). split; [|by split]. unfold bind, ret. by destruct s.
Qed.

Lemma Cw_inj_list (ws : list positive) : NoDup (Cw <$> ws) <-> NoDup ws.
Proof. split; [apply NoDup_fmap_1|apply NoDup_fmap_2; by intros ?? [=]]. Qed.

Lemma own_entry_tasks s w x mask c :
  own_entry s w -> own_entry (set_cells c (set_tasks (alter (woken mask) x (tasks s)) s)) w.
Proof.
  intros [Hw Ht]. split; [done|]. simpl. rewrite lookup_alter. case_decide; [subst|done].
  by rewrite fmap_is_Some.
Qed.

(** The reads of the loop cursor succeed on a well-formed queue. *)
Lemma queue_next_run s q l1 l2 :
  is_list (cells s) (Cq q) (l1 ++ l2) ->
  exists n', lh (get_next (default (Cq q) (head l2))) s = Ok (n', s) /\
    (forall x l, l2 = x :: l -> n' = default (Cq q) (head l)).
Proof.
  intros Hl. destruct l2 as [|x l2]; simpl.
  - destruct (is_list_ends _ _ _ Hl) as [Hn _]. eexists. split; [|done].
    apply lh_read_ok, get_next_run, Hn.
  - pose proof (is_list_next _ _ _ _ _ Hl) as Hn. eexists. split; [apply lh_read_ok, get_next_run, Hn|].
    by intros ? ? [= <- <-].
Qed.

Lemma wake_loop_spec q mask ws : forall fuel l1 n s,
  Forall (own_entry s) ws -> NoDup ws ->
  is_list (cells s) (Cq q) (l1 ++ (Cw <$> ws)) -> (length ws < fuel)%nat ->
  (forall w ws', ws = w :: ws' -> n = default (Cq q) (head (Cw <$> ws'))) ->
  exists c, wake_loop fuel (default (Cq q) (head (Cw <$> ws))) n q mask 0 s =
      Ok (tt, set_cells c (set_tasks (wake_tasks mask ws (tasks s)) s)) /\
    is_list c (Cq q) (l1 ++ (Cw <$> kept mask (tasks s) ws)) /\
    (forall w, w ∈ ws -> stays mask (tasks s) w = false -> is_list c (Cw w) []) /\
    modifies (Cq q :: l1 ++ (Cw <$> ws)) (cells s) c.
Proof.
  induction ws as [|w ws IH]; intros fuel l1 n s Hown Hnd Hl Hf Hn;
    (destruct fuel as [|fuel]; [simpl in Hf; lia|]); cbn [wake_loop fmap list_fmap head default].
  { rewrite bool_decide_true by done. exists (cells s). split; [|split; [done|split; [set_solver|done]]].
    unfold ret. by destruct s. }
  apply Forall_cons in Hown as [Hw Hown]. apply NoDup_cons in Hnd as [Hni Hnd].
  rewrite (Hn w ws eq_refl). clear Hn.
  rewrite bool_decide_false by done. unfold wait_entry. erewrite bind_ok by done.
  destruct Hw as [(fl & Hwt & Hfl) Ht]. erewrite bind_ok by (apply deref_ok; exact Hwt).
  cbn zeta. unfold call_func. simpl flags.
  destruct (autoremove_run s q l1 w (Cw <$> ws) mask) as (r & c & R & Hl1 & Hsing & Hm);
    [by split; [exists fl|]|done|].
  erewrite bind_ok; cycle 1.
  { erewrite bind_ok by (apply deref_ok; exact Hwt). simpl func. cbn match. exact R. }
  rewrite Hfl. change (negb (0 =? 0)) with false. rewrite andb_false_r. cbn [andb].
  set (s1 := set_cells c (set_tasks (alter (woken mask) w (tasks s)) s)).
  rewrite app_assoc in Hl1. destruct (queue_next_run s1 q _ _ Hl1) as (n' & Rn & Hn').
  rewrite (bind_ok _ _ _ _ _ Rn).
  destruct (IH fuel (l1 ++ (if stays mask (tasks s) w then [Cw w] else [])) n' s1)
    as (c' & R' & Hl' & Hs' & Hm').
  { eapply Forall_impl; [exact Hown|]. intros x Hx. by apply own_entry_tasks. }
  { done. } { done. } { simpl in Hf. lia. }
  { intros x ws' ->. by apply (Hn' (Cw x)). }
  assert (Hk : kept mask (tasks s1) ws = kept mask (tasks s) ws).
  { apply kept_ext. intros x Hx. apply lookup_alter_ne. set_solver +Hx Hni. }
  assert (Hst : forall x, x ∈ ws -> stays mask (tasks s1) x = stays mask (tasks s) x).
  { intros x Hx. unfold stays, s1. simpl. rewrite lookup_alter_ne by (set_solver +Hx Hni). done. }
  exists c'. rewrite R'. split; [by destruct s|]. rewrite Hk in Hl'. split; [|split].
  - unfold kept at 1. simpl. destruct (stays mask (tasks s) w); rewrite <- app_assoc in Hl'; exact Hl'.
  - intros x [->|Hx]%elem_of_cons Hx'; [|apply Hs'; [done|by rewrite Hst]].
    rewrite Hx', app_nil_r in Hm'. eapply is_list_frame; [by apply Hsing|exact Hm'|].
    intros y ->%list_elem_of_singleton.
    by destruct (is_list_others _ _ _ _ _ Hl).
  - eapply modifies_trans; [exact Hm|]. eapply modifies_weaken; [exact Hm'|].
    destruct (stays mask (tasks s) w); set_solver +.
Qed.

(** [wake_up_all]: every task asleep on the queue runs again and its entry
    leaves the queue; the entries of tasks that were not asleep stay. *)
Lemma wake_up_all_spec q ws s :
  qlocks s !! q = Some false ->
  Forall (own_entry s) ws -> NoDup ws -> is_list (cells s) (Cq q) (Cw <$> ws) ->
  exists c, wake_up_all q s =
      Ok (tt, set_cells c (set_tasks (wake_tasks TASK_NORMAL ws (tasks s)) s)) /\
    is_list c (Cq q) (Cw <$> kept TASK_NORMAL (tasks s) ws) /\
    (forall w, w ∈ ws -> stays TASK_NORMAL (tasks s) w = false -> is_list c (Cw w) []) /\
    modifies (Cq q :: (Cw <$> ws)) (cells s) c.
Proof.
  intros Hq Hown Hnd Hl. pose proof (is_list_length _ _ _ Hl) as Hlen.
  rewrite length_fmap in Hlen.
  destruct (queue_next_run (q_held q s) q [] (Cw <$> ws) Hl) as (n & Rn & Hn).
  destruct (wake_loop_spec q TASK_NORMAL ws (S (size (cells s))) [] n (q_held q s))
    as (c & R & Hl' & Hs & Hm); [done|done|done|lia| |].
  { intros w ws' ->. by apply (Hn (Cw w)). }
  exists c. split; [|done]. unfold wake_up_all, __wake_up. apply (spin_section q _ s _ tt); [done| |done|done].
  unfold __wake_up_common. erewrite bind_ok by done.
  erewrite bind_ok by (apply lh_read_ok, get_next_run; by destruct (is_list_ends _ _ _ Hl)).
  rewrite (bind_ok _ _ _ _ _ Rn). exact R.
Qed.

(** [waitqueue_active] tests the queue for entries. *)
Lemma waitqueue_active_run q ws s :
  is_list (cells s) (Cq q) (Cw <$> ws) ->
  waitqueue_active q s = Ok (negb (bool_decide (ws = [])), s).
Proof.
  intros Hl. unfold waitqueue_active.
  rewrite (bind_ok _ _ _ _ _ (lh_read_ok _ _ _ (list_empty_spec _ _ _ Hl))).
  unfold ret. do 3 f_equal. apply bool_decide_ext. by destruct ws.
Qed.

(** A task that enters the queue is at its front and not [TASK_RUNNING]. *)
Lemma prepare_to_wait_spec cur q ws st s t fl :
  qlocks s !! q = Some false -> tasks s !! cur = Some t ->
  waits s !! cur = Some (mk_wait_queue fl cur autoremove_wake_function_p) ->
  is_list (cells s) (Cq q) (Cw <$> ws) -> is_list (cells s) (Cw cur) [] -> cur ∉ ws ->
  exists c, prepare_to_wait cur q cur st s =
      Ok (tt, set_cells c
        (set_tasks (<[cur := mk_task st (on_rq t) (sigpending t) (euid t) (egid t)]> (tasks s))
          (set_waits (<[cur := mk_wait_queue (Z.land fl (Z.lnot WQ_FLAG_EXCLUSIVE)) cur
                                 autoremove_wake_function_p]> (waits s)) s))) /\
    is_list c (Cq q) (Cw <$> (cur :: ws)) /\ modifies (Cw cur :: Cq q :: (Cw <$> ws)) (cells s) c.
Proof.
  intros Hq Ht Hw Hl Hc Hn. unfold prepare_to_wait.
  erewrite bind_ok by (unfold set_flags; erewrite bind_ok by (apply deref_ok; exact Hw); reflexivity).
  simpl flags. simpl private. simpl func.
  set (s1 := set_waits _ s).
  destruct (list_add_spec (cells s) (Cq q) (Cw <$> ws) (Cw cur)) as (c & R & Hl' & Hm);
    [done| |eapply is_list_cells; [exact Hc|left]|].
  { intros [?|Hin]%elem_of_cons; [done|]. apply list_elem_of_fmap in Hin as (? & [= <-] & ?). done. }
  exists c. split; [|done].
  rewrite (bind_ok _ _ _ _ _ (spin_lock_run q s1 Hq)).
  rewrite (bind_ok _ _ _ _ _ (lh_read_ok _ (q_held q s1) _ (list_empty_spec _ _ _ Hc))).
  rewrite bool_decide_true by done.
  erewrite bind_ok by (unfold __add_wait_queue; apply lh_ok; exact R).
  erewrite bind_ok; cycle 1.
  { unfold set_current_state. erewrite bind_ok by (apply deref_ok; exact Ht). reflexivity. }
  apply (spin_unlock_run q (set_cells c (set_tasks _ s1))); done.
Qed.

(** A task whose entry is still queued only changes its state. *)
Lemma prepare_to_wait_queued cur q l1 l2 st s t fl :
  qlocks s !! q = Some false -> tasks s !! cur = Some t ->
  waits s !! cur = Some (mk_wait_queue fl cur autoremove_wake_function_p) ->
  is_list (cells s) (Cq q) (l1 ++ Cw cur :: l2) ->
  prepare_to_wait cur q cur st s =
    Ok (tt, set_tasks (<[cur := mk_task st (on_rq t) (sigpending t) (euid t) (egid t)]> (tasks s))
          (set_waits (<[cur := mk_wait_queue (Z.land fl (Z.lnot WQ_FLAG_EXCLUSIVE)) cur
                                 autoremove_wake_function_p]> (waits s)) s)).
Proof.
  intros Hq Ht Hw Hl. unfold prepare_to_wait.
  erewrite bind_ok by (unfold set_flags; erewrite bind_ok by (apply deref_ok; exact Hw); reflexivity).
  simpl flags. simpl private. simpl func. set (s1 := set_waits _ s).
  rewrite (bind_ok _ _ _ _ _ (spin_lock_run q s1 Hq)).
  assert (He : lh (list_empty (Cw cur)) (q_held q s1) = Ok (false, q_held q s1)).
  { apply lh_read_ok. unfold list_empty. pose proof (is_list_next _ _ _ _ _ Hl) as Hn.
    pose proof (is_list_others _ _ _ _ _ Hl) as [_ Hx].
    erewrite bind_ok by (apply get_next_run, Hn).
    rewrite bool_decide_false; [done|]. destruct l2; set_solver +Hx. }
  rewrite (bind_ok _ _ _ _ _ He). erewrite bind_ok by done.
  erewrite bind_ok; cycle 1.
  { unfold set_current_state. erewrite bind_ok by (apply deref_ok; exact Ht). reflexivity. }
  apply (spin_unlock_run q (set_tasks _ s1)); done.
Qed.

(** [finish_wait] leaves the queue, whether or not a waker already removed
    the entry; in the second case the queue head is not touched at all. *)
Lemma finish_wait_queued cur q l1 l2 s t :
  qlocks s !! q = Some false -> tasks s !! cur = Some t ->
  is_list (cells s) (Cq q) (l1 ++ Cw cur :: l2) ->
  exists c, finish_wait cur q cur s =
      Ok (tt, set_cells c
        (set_tasks (<[cur := mk_task TASK_RUNNING (on_rq t) (sigpending t) (euid t) (egid t)]>
                      (tasks s)) s)) /\
    is_list c (Cq q) (l1 ++ l2) /\ is_list c (Cw cur) [] /\
    modifies (Cq q :: l1 ++ Cw cur :: l2) (cells s) c.
Proof.
  intros Hq Ht Hl. unfold finish_wait.
  erewrite bind_ok; cycle 1.
  { unfold set_current_state. erewrite bind_ok by (apply deref_ok; exact Ht). reflexivity. }
  set (s1 := set_tasks _ s).
  destruct (list_del_init_spec _ _ _ _ _ Hl) as (c & R & Hl1 & Hl2 & Hm).
  assert (He : lh (list_empty_careful (Cw cur)) s1 = Ok (false, s1)).
  { apply lh_read_ok. unfold list_empty_careful.
    pose proof (is_list_next _ _ _ _ _ Hl) as Hn.
    pose proof (is_list_others _ _ _ _ _ Hl) as [_ Hx].
    erewrite bind_ok by (apply get_next_run, Hn).
    rewrite bool_decide_false; [done|]. destruct l2; set_solver +Hx. }
  rewrite (bind_ok _ _ _ _ _ He). simpl negb. cbn match.
  exists c. split; [|done].
  apply (spin_section q _ s1 (set_cells c s1) tt); [done|exact (lh_ok _ (q_held q s1) _ _ R)|done|done].
Qed.

Lemma finish_wait_removed cur q s t :
  tasks s !! cur = Some t -> is_list (cells s) (Cw cur) [] ->
  finish_wait cur q cur s =
    Ok (tt, set_tasks (<[cur := mk_task TASK_RUNNING (on_rq t) (sigpending t) (euid t) (egid t)]>
                         (tasks s)) s).
Proof.
  intros Ht Hc. unfold finish_wait.
  erewrite bind_ok; cycle 1.
  { unfold set_current_state. erewrite bind_ok by (apply deref_ok; exact Ht). reflexivity. }
  set (s1 := set_tasks _ s).
  erewrite bind_ok by (apply (lh_read_ok _ s1), list_empty_careful_spec; exact Hc).
  done.
Qed.
