(* ===== verification/Events.v ===== *)
(** The event system calls: [csc456/eventsyscalls.c].

    Every handler is a [prog]: a sequence of atomic steps, cut where the code
    gives up the reader-writer lock [lock] (a critical section is one step,
    which the mutual exclusion of the lock, file [RwLock], justifies; what the
    code does outside the lock is a step of its own).  Each step carries a
    label that says what it does with which event; labels have no effect, but
    the rules for callers, file [EventSystem], speak of them.  [run] executes a
    handler without interference; file [EventSystem] interleaves them. *)
From S2P Require Import Prelude ListHead KState UserMem WaitQueue.

(** ** Pointers to events *)

(** The value of a [struct event *] variable.  [PtrAll] is [&allevents], of
    which the code only reads the id. *)
Inductive evptr : Type :=
  | Garbage
  | Null
  | PtrAll
  | Ptr (e : positive).

(** ** Programs of atomic steps *)

(** [Uses p]: the code holds the pointer [p] to an event it has found;
    [Clears p]: it also clears the condition of the event; [Removes p]: it takes
    the event off the list; [Allocates e], [Frees p]: the memory of an event is
    handed out or released; [Links e]: a new event gets its id and goes on the
    list; [Searches]: the code looks for an event with a pointer variable that
    has no value yet; [Counts]: it counts the events. *)
Inductive label : Type :=
  | Quiet
  | Allocates (e : positive)
  | Links (e : positive)
  | Uses (p : evptr)
  | Clears (p : evptr)
  | Removes (p : evptr)
  | Frees (p : evptr)
  | Searches
  | Counts.

Inductive prog (S A : Type) : Type :=
  | Done (a : A)
  | Step (l : label) (m : S -> res (prog S A * S)).
Arguments Done {S A} _.
Arguments Step {S A} _ _.

Definition atomic {S A B} (l : label) (m : M S A) (k : A -> prog S B) : prog S B :=
  Step l (fun s => match m s with Ok (a, s') => Ok (k a, s') | Err f => Err f end).

Fixpoint run {S A} (p : prog S A) : M S A := fun s =>
  match p with
  | Done a => Ok (a, s)
  | Step _ m => match m s with Ok (p', s') => run p' s' | Err f => Err f end
  end.

Notation "'step!' x := m 'in' k" := (atomic Quiet m (fun x => k))
  (at level 10, x pattern, m at level 100, k at level 200) : kernel_scope.
Notation "'step[' l ] x := m 'in' k" := (atomic l m (fun x => k))
  (at level 10, l at level 9, x pattern, m at level 100, k at level 200) : kernel_scope.

Lemma run_atomic {S A B} l (m : M S A) (k : A -> prog S B) s a s' :
  m s = Ok (a, s') -> run (atomic l m k) s = run (k a) s'.
Proof. intros E. simpl. by rewrite E. Qed.

Lemma run_atomic_err {S A B} l (m : M S A) (k : A -> prog S B) s f :
  m s = Err f -> run (atomic l m k) s = Err f.
Proof. intros E. simpl. by rewrite E. Qed.

(** [list_entry(ptr, struct event, eventlist)] *)
Definition event_entry (c : cell) : M kstate evptr :=
  match c with Call => ret PtrAll | Cev e => ret (Ptr e) | _ => throw Oops end.

Definition get_event (p : evptr) : M kstate event :=
  match p with
  | Ptr e => deref (fun s => events s !! e)
  | Garbage => throw Uninit
  | _ => throw Oops
  end.
Definition get_id (p : evptr) : M kstate Z :=
  match p with
  | PtrAll => gets allevents_id
  | _ => let! ev := get_event p in ret (id ev)
  end.
Definition upd_event (p : evptr) (f : event -> event) : M kstate unit :=
  let! ev := get_event p in
  match p with
  | Ptr e => modify (fun s => set_events (<[e := f ev]> (events s)) s)
  | _ => throw Oops
  end.
Definition queue_of (p : evptr) : M kstate qaddr :=
  match p with
  | Ptr e => ret (Qev e)
  | PtrAll => ret Qall
  | Garbage => throw Uninit
  | Null => throw Oops
  end.

Definition set_condition (v : Z) (ev : event) : event :=
  mk_event (id ev) (uid ev) (gid ev) (uidFlag ev) (gidFlag ev) v.
Definition set_owner (u g : Z) (ev : event) : event :=
  mk_event (id ev) u g (uidFlag ev) (gidFlag ev) (condition ev).
Definition set_mode (u g : Z) (ev : event) : event :=
  mk_event (id ev) (uid ev) (gid ev) u g (condition ev).

(** ** Utility functions *)

Definition getTaskuid (task : positive) : M kstate Z :=
  let! t := get_task task in ret (euid t).
Definition getTaskgid (task : positive) : M kstate Z :=
  let! t := get_task task in ret (egid t).

(** The result is 1 for the ids that are not valid. *)
Definition isValidEventId (eventId : Z) : Z := cbool (eventId <? 0).

Definition validateEvent (current : positive) (userCheck : Z) (event : evptr) : M kstate Z :=
  match event with
  | Garbage => throw Uninit
  | Null => ret 0
  | _ =>
      if ctrue userCheck then
        let! u0 := getTaskuid current in
        if u0 =? 0 then ret 1
        else
          let! u := getTaskuid current in
          let! ev := get_event event in
          if (u =? uid ev) && (uidFlag ev =? 1) then ret 1
          else
            let! g := getTaskgid current in
            let! ev := get_event event in
            if (g =? gid ev) && (gidFlag ev =? 1) then ret 1 else ret 0
      else ret 1
  end.

Definition validateUserEvent (current : positive) (event : evptr) : M kstate Z :=
  match event with
  | Garbage => throw Uninit
  | Null => ret 0
  | _ =>
      let! u0 := getTaskuid current in
      if u0 =? 0 then ret 1
      else
        let! u := getTaskuid current in
        let! ev := get_event event in
        if u =? uid ev then ret 1 else ret 0
  end.

(** The search loop the handlers share:
    [list_for_each(i, &allevents.eventlist)] with [waitEvent] set to the entry
    whose id matches, and to [NULL] after each entry that does not. *)
Fixpoint search_loop (fuel : nat) (i : cell) (eventID : Z) (waitEvent : evptr) : M kstate evptr :=
  match fuel with
  | O => throw Hang
  | S fuel =>
      let! _ := lh (get_next i) in
      if bool_decide (i = Call) then ret waitEvent
      else
        let! p := event_entry i in
        let! x := get_id p in
        if x =? eventID then ret p
        else
          let! n := lh (get_next i) in
          search_loop fuel n eventID Null
  end.

Definition search (eventID : Z) (waitEvent : evptr) : M kstate evptr :=
  let! fuel := gets (fun s => S (size (cells s))) in
  let! i := lh (get_next Call) in
  search_loop fuel i eventID waitEvent.

(** [list_for_each(j, &waitEvent->queue.task_list) process++], an [int] *)
Definition count_waiters (q : qaddr) : M kstate Z :=
  let! l := lh (list_for_each (Cq q)) in
  ret (s32 (Z.of_nat (length l))).

(** ** Initialisation *)

Definition doevent_init : M kstate unit :=
  modify (set_lock RW_LOCK_UNLOCKED) ;;;
  lh (INIT_LIST_HEAD Call) ;;;
  modify (set_allevents_id (-1)) ;;;
  __init_waitqueue_head Qall.

(** ** Creating an event *)

(** What [kmalloc] hands out: an address and the bytes that happen to be
    there. *)
Record junk : Type := mk_junk {
  j_addr : positive;
  j_event : event;
  j_eventlist : list_head cell;
  j_queue : list_head cell;
  j_qlock : bool;
}.

Definition place (j : junk) (s : kstate) : kstate :=
  set_qlocks (<[Qev (j_addr j) := j_qlock j]> (qlocks s))
    (set_events (<[j_addr j := j_event j]> (events s))
      (set_cells (<[Cev (j_addr j) := j_eventlist j]>
                    (<[Cq (Qev (j_addr j)) := j_queue j]> (cells s))) s)).

Definition kfree_event (e : positive) (s : kstate) : kstate :=
  set_qlocks (delete (Qev e) (qlocks s))
    (set_events (delete e (events s))
      (set_cells (delete (Cev e) (delete (Cq (Qev e)) (cells s))) s)).

(** [current_euid_egid(&newevent->uid, &newevent->gid)] *)
Definition current_euid_egid (current : positive) (p : evptr) : M kstate unit :=
  let! t := get_task current in
  upd_event p (set_owner (euid t) (egid t)).

Definition open_section (current : positive) (new : positive) : M kstate unit :=
  let! flags := write_lock_irqsave in
  lh (list_add_tail (Cev new) Call) ;;;
  let! c := lh (get_prev (Cev new)) in
  let! p := event_entry c in
  let! lastid := get_id p in
  upd_event (Ptr new) (fun ev =>
    mk_event (s32 (lastid + 1)) (uid ev) (gid ev) 1 1 (condition ev)) ;;;
  current_euid_egid current (Ptr new) ;;;
  __init_waitqueue_head (Qev new) ;;;
  upd_event (Ptr new) (set_condition 0) ;;;
  write_unlock_irqrestore flags.

(** [kmalloc_result] is the result of the allocator: nothing, or a block. *)
Definition sys_doeventopen (current : positive) (kmalloc_result : option junk) : prog kstate Z :=
  match kmalloc_result with
  | None => Done (-1)
  | Some j =>
      step[Allocates (j_addr j)] _ := (modify (place j) ;;; lh (INIT_LIST_HEAD (Cev (j_addr j)))) in
      step[Links (j_addr j)] _ := open_section current (j_addr j) in
      step[Uses (Ptr (j_addr j))] r := get_id (Ptr (j_addr j)) in
      Done r
  end.

(** ** Destroying an event *)

(** The lookup under the read lock, and the permission check. *)
Definition lookup_section (init : evptr) (valid : evptr -> M kstate Z) (eventID : Z)
    : M kstate (Z * evptr) :=
  let! flags := read_lock_irqsave in
  let! waitEvent := search eventID init in
  let! v := valid waitEvent in
  read_unlock_irqrestore flags ;;;
  ret (v, waitEvent).

Definition close_section (waitEvent : evptr) (process : bool) : M kstate Z :=
  let! flags := write_lock_irqsave in
  let! n := (if process then
               let! q := queue_of waitEvent in
               let! n := count_waiters q in
               upd_event waitEvent (set_condition 1) ;;;
               wake_up_all q ;;;
               ret n
             else ret 0) in
  (match waitEvent with
   | Ptr e => lh (list_del_init (Cev e))
   | _ => throw Oops
   end) ;;;
  write_unlock_irqrestore flags ;;;
  ret n.

Definition kfree (waitEvent : evptr) : M kstate unit :=
  match waitEvent with
  | Ptr e => fun s => match events s !! e with
                      | Some _ => Ok (tt, kfree_event e s)
                      | None => Err Oops
                      end
  | _ => throw Oops
  end.

Definition sys_doeventclose (current : positive) (eventID : Z) : prog kstate Z :=
  if ctrue (isValidEventId eventID) then Done (-1)
  else
    step! r := lookup_section Null (validateEvent current 1) eventID in
    if ctrue r.1 then
      step[Uses r.2] process := (let! q := queue_of r.2 in waitqueue_active q) in
      step[Removes r.2] n := close_section r.2 process in
      step[Frees r.2] _ := kfree r.2 in
      Done n
    else Done (-1).

(** ** Signalling an event *)

Definition sig_section (waitEvent : evptr) : M kstate Z :=
  let! flags := write_lock_irqsave in
  let! q := queue_of waitEvent in
  let! n := count_waiters q in
  upd_event waitEvent (set_condition 1) ;;;
  write_unlock_irqrestore flags ;;;
  ret n.

(** What a signal does to an event that has waiters. *)
Definition signal_waiters (waitEvent : evptr) : prog kstate Z :=
  step[Uses waitEvent] n := sig_section waitEvent in
  step[Uses waitEvent] _ := (let! q := queue_of waitEvent in wake_up_all q) in
  Done n.

Definition sys_doeventsig (current : positive) (eventID : Z) : prog kstate Z :=
  if ctrue (isValidEventId eventID) then Done (-1)
  else
    step! r := lookup_section Null (validateEvent current 1) eventID in
    if ctrue r.1 then
      step[Uses r.2] process := (let! q := queue_of r.2 in waitqueue_active q) in
      if (process : bool) then signal_waiters r.2 else Done 0
    else Done (-1).

(** ** Changing the owner and the mode of an event *)

Definition chown_section (waitEvent : evptr) (UID GID : Z) : M kstate unit :=
  let! flags := write_lock_irqsave in
  upd_event waitEvent (set_owner UID GID) ;;;
  write_unlock_irqrestore flags.

(** [uid_t] and [gid_t] are unsigned, so the comparisons with 0 are always
    false; they are kept as the code has them. *)
Definition sys_doeventchown (current : positive) (eventID UID GID : Z) : prog kstate Z :=
  if ctrue (isValidEventId eventID) || (u32 UID <? 0) || (u32 GID <? 0) then Done (-1)
  else
    step[Searches] r := lookup_section Garbage (validateUserEvent current) eventID in
    if ctrue r.1 then
      step[Uses r.2] _ := chown_section r.2 (u32 UID) (u32 GID) in
      Done 0
    else Done (-1).

Definition chmod_section (waitEvent : evptr) (UIDFlag GIDFlag : Z) : M kstate unit :=
  let! flags := write_lock_irqsave in
  upd_event waitEvent (set_mode UIDFlag GIDFlag) ;;;
  write_unlock_irqrestore flags.

Definition sys_doeventchmod (current : positive) (eventID UIDFlag GIDFlag : Z) : prog kstate Z :=
  if ctrue (isValidEventId eventID) then Done (-1)
  else
    step[Searches] r := lookup_section Garbage (validateUserEvent current) eventID in
    if ctrue r.1 then
      step[Uses r.2] _ := chmod_section r.2 UIDFlag GIDFlag in
      Done 0
    else Done (-1).

(** ** Reading an event *)

Definition NULL : Z := 0.
Definition EFAULT : Z := 14.

(** [if (p != NULL) not_copied = copy_from_user(&local, p, 4)] *)
Definition probe (p : Z) : M kstate Z :=
  if p =? NULL then ret 0
  else let! r := copy_from_user p 4 in ret r.1.

(** [if (p != NULL) not_copied = copy_to_user(p, &local, 4)]; the variable
    keeps the value of the earlier probe, [old], when the pointer is null. *)
Definition put (p v old : Z) : M kstate Z :=
  if p =? NULL then ret old else copy_to_user p (le32 v).

Definition stat_probe (UID GID UIDFlag GIDFlag : Z) : M kstate (Z * Z * Z * Z) :=
  let! n1 := probe UID in
  let! n2 := probe GID in
  let! n3 := probe UIDFlag in
  let! n4 := probe GIDFlag in
  ret (n1, n2, n3, n4).

(** The entry found and its four fields, read under the lock. *)
Definition stat_section (eventID : Z) : M kstate (evptr * option event) :=
  let! flags := read_lock_irqsave in
  let! waitEvent := search eventID Garbage in
  let! ev := (match waitEvent with
              | Ptr _ => let! ev := get_event waitEvent in ret (Some ev)
              | _ => ret None
              end) in
  read_unlock_irqrestore flags ;;;
  ret (waitEvent, ev).

Definition stat_copy (ev : event) (UID GID UIDFlag GIDFlag : Z) (n : Z * Z * Z * Z) : M kstate Z :=
  let '(n1, n2, n3, n4) := n in
  let! m1 := put UID (uid ev) n1 in
  let! m2 := put GID (gid ev) n2 in
  let! m3 := put UIDFlag (uidFlag ev) n3 in
  let! m4 := put GIDFlag (gidFlag ev) n4 in
  ret (if ctrue m1 || ctrue m2 || ctrue m3 || ctrue m4 then - EFAULT else 0).

Definition sys_doeventstat (eventID UID GID UIDFlag GIDFlag : Z) : prog kstate Z :=
  step! n := stat_probe UID GID UIDFlag GIDFlag in
  let '(n1, n2, n3, n4) := n in
  if ctrue n1 || ctrue n2 || ctrue n3 || ctrue n4 then Done (-1)
  else if ctrue (isValidEventId eventID) then Done (-1)
  else
    step[Searches] r := stat_section eventID in
    match r with
    | (Garbage, _) => atomic Quiet (throw Uninit) Done
    | (_, None) => Done (-1)
    | (_, Some ev) => atomic Quiet (stat_copy ev UID GID UIDFlag GIDFlag n) Done
    end.

(** ** Listing the events *)

(** The loop of [sys_doeventinfo]: [check] counts the entries, and the first
    [num] ids go to the array when there is one to fill. *)
Fixpoint info_loop (fuel : nat) (i : cell) (num eventIDs check : Z) (arr : list Z)
    : M kstate (Z * list Z) :=
  match fuel with
  | O => throw Hang
  | S fuel =>
      let! n := lh (get_next i) in
      if bool_decide (i = Call) then ret (check, arr)
      else
        let! arr' :=
          (if (check <? num) && negb (eventIDs =? NULL) then
             let! p := event_entry i in
             let! x := get_id p in
             ret (<[Z.to_nat check := x]> arr)
           else ret arr) in
        info_loop fuel n num eventIDs (s32 (check + 1)) arr'
  end.

Definition info_section (num eventIDs : Z) (arr : list Z) : M kstate (Z * list Z) :=
  let! flags := read_lock_irqsave in
  let! fuel := gets (fun s => S (size (cells s))) in
  let! i := lh (get_next Call) in
  let! r := info_loop fuel i num eventIDs 0 arr in
  read_unlock_irqrestore flags ;;;
  ret r.

Definition info_copy (num eventIDs check : Z) (arr : list Z) : M kstate Z :=
  let! bad := (if negb (eventIDs =? NULL) && (check <=? num) then
                 let! n := copy_to_user eventIDs (concat (le32 <$> arr)) in
                 ret (ctrue n)
               else ret false) in
  if (bad : bool) then ret (-1)
  else if (num <? check) && negb (eventIDs =? NULL) then ret (-1)
  else ret check.

Section Info.
  (** Whether the declaration [int eventsarray[num]] fits the kernel stack.
      C gives it no meaning for a negative [num]. *)
  Context (vla_ok : Z -> bool).

Definition sys_doeventinfo (num eventIDs : Z) : prog kstate Z :=
  if negb (vla_ok num) then
    atomic Quiet (throw (if num <? 0 then Undef else StackOverflow)) Done
  else if (num <? 0) && negb (eventIDs =? NULL) then Done (-1)
  else
    let arr := replicate (Z.to_nat num) (-1) in
    step! bad := probe eventIDs in
    if ctrue bad then Done (-1)
    else
      step[Counts] r := info_section num eventIDs arr in
      atomic Quiet (info_copy num eventIDs r.1 r.2) Done.
End Info.

(** ** Waiting for an event *)

(** What [sys_doeventwait] does up to [wait_event_interruptible]: return at
    once, or wait on an event whose condition it has cleared. *)
Inductive wait_outcome : Type := WReturn (r : Z) | WWait (p : evptr).

Definition sys_doeventwait (current : positive) (eventID : Z) : prog kstate wait_outcome :=
  if ctrue (isValidEventId eventID) then Done (WReturn (-1))
  else
    step! r := lookup_section Null (validateEvent current 1) eventID in
    if ctrue r.1 then
      step[Clears r.2] _ := upd_event r.2 (set_condition 0) in
      Done (WWait r.2)
    else Done (WReturn (-1)).

Definition ERESTARTSYS : Z := 512.

(** The program points of
    [wait_event_interruptible(waitEvent->queue, waitEvent->condition != 0)];
    the last carries the value of the macro, which the caller ignores. *)
Inductive wait_pc : Type :=
  | WEnter
  | WPrepare
  | WCheck
  | WSchedule
  | WAsleep
  | WFinish (ret : Z)
  | WOut (ret : Z).

Definition get_condition (p : evptr) : M kstate Z :=
  let! ev := get_event p in ret (condition ev).

(** One step; a task that left the run queue makes none until it is woken,
    which is [None]. *)
Definition wait_step (current : positive) (p : evptr) (pc : wait_pc) : M kstate (option wait_pc) :=
  match pc with
  | WEnter =>
      let! c := get_condition p in
      if ctrue c then ret (Some (WOut 0))
      else DEFINE_WAIT current current ;;; ret (Some WPrepare)
  | WPrepare =>
      let! q := queue_of p in
      prepare_to_wait current q current TASK_INTERRUPTIBLE ;;;
      ret (Some WCheck)
  | WCheck =>
      let! c := get_condition p in
      if ctrue c then ret (Some (WFinish 0))
      else
        let! sp := signal_pending current in
        if negb sp then ret (Some WSchedule) else ret (Some (WFinish (- ERESTARTSYS)))
  | WSchedule => schedule_prev current ;;; ret (Some WAsleep)
  | WAsleep =>
      let! t := get_task current in
      if on_rq t then ret (Some WPrepare) else ret None
  | WFinish r =>
      let! q := queue_of p in
      finish_wait current q current ;;;
      leave_scope current ;;;
      ret (Some (WOut r))
  | WOut _ => ret None
  end.

(** [retVal = 1; return retVal] *)
Definition wait_result (ret : Z) : Z := 1.
