(* ===== verification/EventSpec.v ===== *)
(** What the event system calls promise, and that they keep it.

    The abstract state is the sequence of events, oldest first, each with its
    fields and the tasks that wait on it.  [rep] relates it to the kernel
    state; for every handler of file [Events] there is a function on the
    abstract state and a lemma that the handler, run without interference,
    returns its result and leads to a state that represents its new state:
    in particular no handler faults, spins forever or leaves the lock, the
    interrupts or the preemption count changed. *)
From stdpp Require Import sorting.
From S2P Require Import Prelude ListHead KState UserMem WaitQueue Events.

(** ** The abstract state *)

Record aevent : Type := mk_aevent {
  a_addr : positive;
  a_ev : event;
  a_waiters : list positive;
}.

Definition a_id (x : aevent) : Z := id (a_ev x).

Definition find_event (eventID : Z) (a : list aevent) : option aevent :=
  List.find (fun x => a_id x =? eventID) a.

(** Root, the owner when the user flag is 1, the group when the group flag
    is 1 may wait on, signal and destroy an event. *)
Definition may_signal (t : task_struct) (ev : event) : bool :=
  (euid t =? 0) || ((euid t =? uid ev) && (uidFlag ev =? 1))
  || ((egid t =? gid ev) && (gidFlag ev =? 1)).

(** Root and the owner may change an event. *)
Definition may_change (t : task_struct) (ev : event) : bool :=
  (euid t =? 0) || (euid t =? uid ev).

Definition ids_ok (a : list aevent) : Prop :=
  StronglySorted Z.lt (a_id <$> a) /\ Forall (fun i => 0 <= i <= INT_MAX) (a_id <$> a).

(** ** Representation *)

Record rep_event (s : kstate) (x : aevent) : Prop := {
  re_ev : events s !! a_addr x = Some (a_ev x);
  re_queue : is_list (cells s) (Cq (Qev (a_addr x))) (Cw <$> a_waiters x);
  re_qlock : qlocks s !! Qev (a_addr x) = Some false;
  re_own : Forall (own_entry s) (a_waiters x);
}.

Record rep (s : kstate) (a : list aevent) : Prop := {
  rep_list : is_list (cells s) Call (Cev <$> (a_addr <$> a));
  rep_events : Forall (rep_event s) a;
  rep_waiters : NoDup (concat (a_waiters <$> a));
  rep_lock : lock s = RW_LOCK_BIAS;
  rep_all : allevents_id s = -1;
}.

(** The part of a state the code outside the subsystem sees. *)
Definition same_cpu (s s' : kstate) : Prop :=
  lock s' = lock s /\ irqs_on s' = irqs_on s /\ preempt_count s' = preempt_count s.

(** ** Finding an event *)

Lemma find_event_split eventID a x :
  find_event eventID a = Some x ->
  exists a1 a2, a = a1 ++ x :: a2 /\ a_id x = eventID /\ Forall (fun y => a_id y <> eventID) a1.
Proof.
  unfold find_event. induction a as [|y a IH]; simpl; [done|].
  destruct (Z.eqb_spec (a_id y) eventID).
  - intros [= ->]. exists [], a. done.
  - intros (a1 & a2 & -> & ? & ?)%IH. exists (y :: a1), a2. repeat split; [done|].
    by constructor.
Qed.

Lemma find_event_none eventID a :
  find_event eventID a = None -> Forall (fun y => a_id y <> eventID) a.
Proof.
  unfold find_event. induction a as [|y a IH]; simpl; [done|].
  destruct (Z.eqb_spec (a_id y) eventID); [done|]. intros. constructor; auto.
Qed.

(** Where the pointer variable of a handler points after the search. *)
Definition found (eventID : Z) (init : evptr) (a : list aevent) : evptr :=
  match find_event eventID a with
  | Some x => Ptr (a_addr x)
  | None => match a with [] => init | _ => Null end
  end.

Lemma search_loop_spec s eventID a : forall fuel l1 p,
  is_list (cells s) Call (l1 ++ (Cev <$> (a_addr <$> a))) ->
  Forall (fun x => events s !! a_addr x = Some (a_ev x)) a -> (length a < fuel)%nat ->
  search_loop fuel (default Call (head (Cev <$> (a_addr <$> a)))) eventID p s =
    Ok (match find_event eventID a with
        | Some x => Ptr (a_addr x)
        | None => match a with [] => p | _ => Null end
        end, s).
Proof.
  induction a as [|x a IH]; intros fuel l1 p Hl Hev Hf;
    (destruct fuel as [|fuel]; [simpl in Hf; lia|]);
    cbn [search_loop fmap list_fmap head default find_event List.find].
  - rewrite app_nil_r in Hl. destruct (is_list_ends _ _ _ Hl) as [Hn _].
    erewrite bind_ok by (apply lh_read_ok, get_next_run, Hn).
    by rewrite bool_decide_true by done.
  - apply Forall_cons in Hev as [Hx Hev]. pose proof (is_list_next _ _ _ _ _ Hl) as Hn.
    erewrite bind_ok by (apply lh_read_ok, get_next_run, Hn).
    rewrite bool_decide_false by done. unfold event_entry. erewrite bind_ok by done.
    erewrite bind_ok; cycle 1.
    { unfold get_id, get_event. erewrite bind_ok by (apply deref_ok, Hx). done. }
    unfold find_event. cbn [List.find]. fold (a_id x). destruct (a_id x =? eventID); [done|].
    erewrite bind_ok by (apply lh_read_ok, get_next_run, Hn).
    etrans; [apply (IH fuel (l1 ++ [Cev (a_addr x)]) Null)|].
    + by rewrite <- app_assoc.
    + done.
    + simpl in Hf. lia.
    + unfold find_event. destruct (List.find _ a); [done|]. by destruct a.
Qed.

Lemma search_spec s eventID a p :
  is_list (cells s) Call (Cev <$> (a_addr <$> a)) ->
  Forall (fun x => events s !! a_addr x = Some (a_ev x)) a ->
  search eventID p s = Ok (found eventID p a, s).
Proof.
  intros Hl Hev. unfold search. erewrite bind_ok by done.
  erewrite bind_ok by (apply lh_read_ok, get_next_run; by destruct (is_list_ends _ _ _ Hl)).
  apply (search_loop_spec s eventID a _ []); [done|done|].
  pose proof (is_list_length _ _ _ Hl) as Hlen. rewrite !length_fmap in Hlen. lia.
Qed.

Lemma rep_event_ev s a : rep s a -> Forall (fun x => events s !! a_addr x = Some (a_ev x)) a.
Proof. intros Hr. eapply Forall_impl; [apply (rep_events _ _ Hr)|]. by intros ? []. Qed.

Lemma rep_find s a eventID x :
  rep s a -> find_event eventID a = Some x -> rep_event s x.
Proof.
  intros Hr (a1 & a2 & -> & _)%find_event_split.
  pose proof (rep_events _ _ Hr) as Hall. apply Forall_app in Hall as [_ Hall].
  by apply Forall_cons in Hall as [? _].
Qed.

(** ** The permission checks *)

Lemma getTaskuid_run s current t :
  tasks s !! current = Some t -> getTaskuid current s = Ok (euid t, s).
Proof. intros Ht. unfold getTaskuid. by erewrite bind_ok by (apply deref_ok, Ht). Qed.

Lemma getTaskgid_run s current t :
  tasks s !! current = Some t -> getTaskgid current s = Ok (egid t, s).
Proof. intros Ht. unfold getTaskgid. by erewrite bind_ok by (apply deref_ok, Ht). Qed.

Lemma get_event_run s e ev : events s !! e = Some ev -> get_event (Ptr e) s = Ok (ev, s).
Proof. apply (deref_ok (fun s => events s !! e)). Qed.

Lemma upd_event_run s e ev f :
  events s !! e = Some ev ->
  upd_event (Ptr e) f s = Ok (tt, set_events (<[e := f ev]> (events s)) s).
Proof. intros He. unfold upd_event. by rewrite (bind_ok _ _ _ _ _ (get_event_run _ _ _ He)). Qed.

Lemma validateEvent_spec s current t eventID a :
  Forall (fun x => events s !! a_addr x = Some (a_ev x)) a -> tasks s !! current = Some t ->
  validateEvent current 1 (found eventID Null a) s =
    Ok (match find_event eventID a with
        | Some x => cbool (may_signal t (a_ev x))
        | None => 0
        end, s).
Proof.
  intros Hev Ht. unfold found. destruct (find_event eventID a) as [x|] eqn:E; [|by destruct a].
  apply find_event_split in E as (a1 & a2 & -> & _).
  apply Forall_app in Hev as [_ Hev]. apply Forall_cons in Hev as [Hx _].
  pose proof (getTaskuid_run _ _ _ Ht) as Ru.
  pose proof (getTaskgid_run _ _ _ Ht) as Rg.
  pose proof (get_event_run _ _ _ Hx) as Re.
  unfold validateEvent, may_signal. change (ctrue 1) with true. cbv beta iota.
  rewrite (bind_ok _ _ _ _ _ Ru). destruct (euid t =? 0); [done|].
  rewrite (bind_ok _ _ _ _ _ Ru), (bind_ok _ _ _ _ _ Re). cbn [orb].
  destruct ((euid t =? uid (a_ev x)) && (uidFlag (a_ev x) =? 1)); [done|].
  rewrite (bind_ok _ _ _ _ _ Rg), (bind_ok _ _ _ _ _ Re).
  by destruct ((egid t =? gid (a_ev x)) && (gidFlag (a_ev x) =? 1)).
Qed.

Lemma validateUserEvent_spec s current t eventID a :
  Forall (fun x => events s !! a_addr x = Some (a_ev x)) a -> tasks s !! current = Some t ->
  validateUserEvent current (found eventID Garbage a) s =
    match a with
    | [] => Err Uninit
    | _ => Ok (match find_event eventID a with
               | Some x => cbool (may_change t (a_ev x))
               | None => 0
               end, s)
    end.
Proof.
  intros Hev Ht. unfold found. destruct (find_event eventID a) as [x|] eqn:E; [|by destruct a].
  destruct a as [|y a]; [done|].
  apply find_event_split in E as (a1 & a2 & Ea & _). rewrite Ea in Hev.
  apply Forall_app in Hev as [_ Hev]. apply Forall_cons in Hev as [Hx _].
  pose proof (getTaskuid_run _ _ _ Ht) as Ru.
  pose proof (get_event_run _ _ _ Hx) as Re.
  unfold validateUserEvent, may_change.
  rewrite (bind_ok _ _ _ _ _ Ru). destruct (euid t =? 0); [done|].
  rewrite (bind_ok _ _ _ _ _ Ru), (bind_ok _ _ _ _ _ Re). cbn [orb].
  by destruct (euid t =? uid (a_ev x)).
Qed.

(** The lookup and the check, under the read lock. *)
Lemma lookup_section_run init valid eventID s a v :
  rep s a -> valid (found eventID init a) (r_held s) = Ok (v, r_held s) ->
  lookup_section init valid eventID s = Ok ((v, found eventID init a), s).
Proof.
  intros Hr Hv. unfold lookup_section.
  rewrite (bind_ok _ _ _ _ _ (read_lock_run _ (rep_lock _ _ Hr))).
  erewrite bind_ok; [|apply (search_spec (r_held s) eventID a init)];
    [|apply Hr|apply (rep_event_ev s a Hr)].
  rewrite (bind_ok _ _ _ _ _ Hv).
  erewrite bind_ok by (apply read_unlock_run; [apply Hr|done]). done.
Qed.

(** ** Changing one event *)

Lemma rep_addr_ne s a1 x a2 y :
  rep s (a1 ++ x :: a2) -> y ∈ a1 ++ a2 -> a_addr y <> a_addr x.
Proof.
  intros Hr Hy Heq. pose proof (rep_list _ _ Hr) as Hl.
  rewrite !fmap_app, !fmap_cons in Hl. apply is_list_others in Hl as [_ Hn].
  apply Hn. right. rewrite <- !fmap_app, <- Heq.
  apply list_elem_of_fmap. exists (a_addr y). split; [done|]. by apply list_elem_of_fmap_2.
Qed.

Definition others (a : list aevent) : list positive := concat (a_waiters <$> a).

Lemma elem_of_others w a : w ∈ others a <-> exists x, x ∈ a /\ w ∈ a_waiters x.
Proof.
  unfold others. rewrite list_elem_of_In, in_concat. split.
  - intros (l & Hl & Hw). apply list_elem_of_In, list_elem_of_fmap in Hl as (x & -> & Hx).
    exists x. split; [done|]. by apply list_elem_of_In in Hw.
  - intros (x & Hx & Hw). exists (a_waiters x). rewrite list_elem_of_In in Hw. split; [|done].
    apply list_elem_of_In. by apply list_elem_of_fmap_2.
Qed.

Lemma others_app a1 a2 : others (a1 ++ a2) = others a1 ++ others a2.
Proof. unfold others. by rewrite fmap_app, concat_app. Qed.

Lemma rep_waiters_split s a1 x a2 :
  rep s (a1 ++ x :: a2) ->
  NoDup (a_waiters x) /\ NoDup (others (a1 ++ a2)) /\
  (forall w, w ∈ a_waiters x -> w ∉ others (a1 ++ a2)).
Proof.
  intros Hr. pose proof (rep_waiters _ _ Hr) as Hnd. fold (others (a1 ++ x :: a2)) in Hnd.
  rewrite others_app in *. change (others (x :: a2)) with (a_waiters x ++ others a2) in Hnd.
  rewrite (Permutation_app_comm (a_waiters x)), app_assoc in Hnd.
  apply NoDup_app in Hnd as (H1 & H2 & H3). split; [done|]. split; [done|].
  intros w Hw Hw'. by eapply H2.
Qed.

(** Only the fields, the queue and the waiters of one event change; the new
    waiters wait for no other event. *)
Lemma rep_update s s' a1 x a2 ev' ws' L :
  rep s (a1 ++ x :: a2) ->
  events s' = <[a_addr x := ev']> (events s) -> qlocks s' = qlocks s ->
  lock s' = lock s -> allevents_id s' = allevents_id s ->
  modifies L (cells s) (cells s') ->
  (forall c, c ∈ L -> c = Cq (Qev (a_addr x)) \/ exists w, c = Cw w /\ w ∉ others (a1 ++ a2)) ->
  is_list (cells s') (Cq (Qev (a_addr x))) (Cw <$> ws') ->
  NoDup ws' -> (forall w, w ∈ ws' -> w ∉ others (a1 ++ a2)) -> Forall (own_entry s') ws' ->
  (forall w, w ∈ others (a1 ++ a2) -> own_entry s w -> own_entry s' w) ->
  rep s' (a1 ++ mk_aevent (a_addr x) ev' ws' :: a2).
Proof.
  intros Hr Hev Hq Hlk Hid Hm HL Hl' Hnd Hdis Hown Hown'.
  assert (Hoth : forall y, y ∈ a1 ++ a2 -> rep_event s y -> rep_event s' y).
  { intros y Hy [E1 E2 E3 E4]. pose proof (rep_addr_ne _ _ _ _ _ Hr Hy) as Hne. split.
    - by rewrite Hev, lookup_insert_ne.
    - eapply is_list_frame; [exact E2|exact Hm|]. intros c Hc HcL.
      apply HL in HcL as [->|(w & -> & Hw)]; apply elem_of_cons in Hc as [Hc|Hc].
      + congruence.
      + by apply list_elem_of_fmap in Hc as (? & ? & _).
      + done.
      + apply list_elem_of_fmap in Hc as (? & [= <-] & Hc). apply Hw, elem_of_others. eauto.
    - by rewrite Hq.
    - apply Forall_forall. intros w Hw. rewrite Forall_forall in E4.
      apply Hown'; [apply elem_of_others; eauto|auto]. }
  pose proof (rep_events _ _ Hr) as Hall. apply Forall_app in Hall as [Ha1 Ha2].
  apply Forall_cons in Ha2 as [Hx Ha2]. split.
  - pose proof (rep_list _ _ Hr) as Hl. rewrite !fmap_app, !fmap_cons in *.
    eapply is_list_frame; [exact Hl|exact Hm|]. intros c Hc HcL.
    apply HL in HcL as [->|(w & -> & _)];
      rewrite ?elem_of_cons, ?elem_of_app, ?elem_of_cons, !list_elem_of_fmap in Hc; naive_solver.
  - rewrite Forall_forall in Ha1, Ha2. apply Forall_app. split; [|apply Forall_cons; split].
    + apply Forall_forall. intros y Hy. apply Hoth; [set_solver +Hy|auto].
    + split; simpl; [by rewrite Hev, lookup_insert_eq|done|rewrite Hq; apply Hx|done].
    + apply Forall_forall. intros y Hy. apply Hoth; [set_solver +Hy|auto].
  - fold (others (a1 ++ mk_aevent (a_addr x) ev' ws' :: a2)).
    destruct (rep_waiters_split _ _ _ _ Hr) as (_ & Hno & _).
    rewrite others_app in *. change (others (_ :: a2)) with (ws' ++ others a2).
    rewrite (Permutation_app_comm ws'), app_assoc. apply NoDup_app. split; [done|].
    split; [|done]. intros w Hw Hw'. by apply (Hdis w).
  - by rewrite Hlk, (rep_lock _ _ Hr).
  - by rewrite Hid, (rep_all _ _ Hr).
Qed.

(** A change of the fields alone. *)
Lemma rep_set_fields s a1 x a2 ev' :
  rep s (a1 ++ x :: a2) ->
  rep (set_events (<[a_addr x := ev']> (events s)) s)
    (a1 ++ mk_aevent (a_addr x) ev' (a_waiters x) :: a2).
Proof.
  intros Hr. pose proof (rep_events _ _ Hr) as Hall. apply Forall_app in Hall as [_ Hall].
  apply Forall_cons in Hall as [[? ? ? ?] _].
  destruct (rep_waiters_split _ _ _ _ Hr) as (? & ? & ?).
  apply (rep_update s _ a1 x a2 ev' (a_waiters x) []); try done. set_solver +.
Qed.

(** ** The abstract operations *)

(** Apply [f] to the event with the given id. *)
Definition on_event (eventID : Z) (f : aevent -> aevent) (a : list aevent) : list aevent :=
  (fun x => if a_id x =? eventID then f x else x) <$> a.

Definition map_ev (f : event -> event) (x : aevent) : aevent :=
  mk_aevent (a_addr x) (f (a_ev x)) (a_waiters x).

Definition signalled (ts : gmap positive task_struct) (x : aevent) : aevent :=
  mk_aevent (a_addr x) (set_condition 1 (a_ev x)) (kept TASK_NORMAL ts (a_waiters x)).

(** The result and the new events and tasks of each call made by a task [t]. *)
Abbreviation tasks_t := (gmap positive task_struct).
Definition outcome : Type := Z * list aevent * tasks_t.

Definition last_id (a : list aevent) : Z := default (-1) (a_id <$> last a).

Definition spec_open (t : task_struct) (addr : positive) (a : list aevent) (ts : tasks_t) : outcome :=
  let i := s32 (last_id a + 1) in
  (i, a ++ [mk_aevent addr (mk_event i (euid t) (egid t) 1 1 0) []], ts).

Definition spec_change (t : task_struct) (eventID : Z) (f : event -> event)
    (a : list aevent) (ts : tasks_t) : outcome :=
  match find_event eventID a with
  | Some x => if may_change t (a_ev x) then (0, on_event eventID (map_ev f) a, ts) else (-1, a, ts)
  | None => (-1, a, ts)
  end.

Definition spec_sig (t : task_struct) (eventID : Z) (a : list aevent) (ts : tasks_t) : outcome :=
  match find_event eventID a with
  | Some x =>
      if may_signal t (a_ev x) then
        if bool_decide (a_waiters x = []) then (0, a, ts)
        else (s32 (Z.of_nat (length (a_waiters x))), on_event eventID (signalled ts) a,
              wake_tasks TASK_NORMAL (a_waiters x) ts)
      else (-1, a, ts)
  | None => (-1, a, ts)
  end.

Definition spec_close (t : task_struct) (eventID : Z) (a : list aevent) (ts : tasks_t) : outcome :=
  match find_event eventID a with
  | Some x =>
      if may_signal t (a_ev x) then
        (s32 (Z.of_nat (length (a_waiters x))),
         List.filter (fun y => negb (a_id y =? eventID)) a,
         wake_tasks TASK_NORMAL (a_waiters x) ts)
      else (-1, a, ts)
  | None => (-1, a, ts)
  end.

(** ** Ids are unique and ordered *)

Lemma ids_ok_split a1 x a2 :
  ids_ok (a1 ++ x :: a2) ->
  Forall (fun y => a_id y < a_id x) a1 /\ Forall (fun y => a_id x < a_id y) a2 /\
  0 <= a_id x <= INT_MAX.
Proof.
  intros [Hs Hr]. rewrite fmap_app, fmap_cons in *. apply Forall_app in Hr as [_ Hr].
  apply Forall_cons in Hr as [Hx _].
  apply StronglySorted_app in Hs as (Hlt & _ & Hs).
  apply StronglySorted_inv in Hs as [_ Hx2]. split; [|split; [|done]].
  - apply Forall_forall. intros y Hy. apply Hlt; [|left]. by apply list_elem_of_fmap_2.
  - rewrite Forall_fmap in Hx2. done.
Qed.

Lemma on_event_split eventID f a1 x a2 :
  ids_ok (a1 ++ x :: a2) -> a_id x = eventID ->
  on_event eventID f (a1 ++ x :: a2) = a1 ++ f x :: a2.
Proof.
  intros Hi <-. destruct (ids_ok_split _ _ _ Hi) as (H1 & H2 & _).
  unfold on_event. rewrite fmap_app, fmap_cons, Z.eqb_refl. rewrite Forall_forall in H1, H2.
  assert (Hid : forall a : list aevent, (forall y, y ∈ a -> a_id y <> a_id x) ->
    (fun y => if a_id y =? a_id x then f y else y) <$> a = a).
  { intros a. induction a as [|y a IH]; intros Ha; [done|]. rewrite fmap_cons.
    destruct (Z.eqb_spec (a_id y) (a_id x)) as [E|]; [by apply Ha in E; [|left]|].
    f_equal. apply IH. intros. apply Ha. by right. }
  rewrite !Hid; [done| |]; intros y Hy; [specialize (H2 y Hy)|specialize (H1 y Hy)]; lia.
Qed.

Lemma filter_out_split eventID a1 x a2 :
  ids_ok (a1 ++ x :: a2) -> a_id x = eventID ->
  List.filter (fun y => negb (a_id y =? eventID)) (a1 ++ x :: a2) = a1 ++ a2.
Proof.
  intros Hi <-. destruct (ids_ok_split _ _ _ Hi) as (H1 & H2 & _).
  assert (Hid : forall a, Forall (fun y => a_id y <> a_id x) a ->
    List.filter (fun y => negb (a_id y =? a_id x)) a = a).
  { intros a. induction 1 as [|y a Hy _ IH]; [done|]. simpl.
    destruct (Z.eqb_spec (a_id y) (a_id x)); [done|]. simpl. by rewrite IH. }
  rewrite List.filter_app. simpl. rewrite Z.eqb_refl. simpl.
  rewrite !Hid; [done| |]; eapply Forall_impl; eauto; simpl; lia.
Qed.

Lemma ids_ok_same a a' : a_id <$> a' = a_id <$> a -> ids_ok a -> ids_ok a'.
Proof. intros E. unfold ids_ok. by rewrite E. Qed.

Lemma ids_ok_remove a1 x a2 : ids_ok (a1 ++ x :: a2) -> ids_ok (a1 ++ a2).
Proof.
  intros [Hs Hr]. split; rewrite !fmap_app, ?fmap_cons in *.
  - apply StronglySorted_app in Hs as (Hlt & Hs1 & Hs2). apply StronglySorted_app.
    apply StronglySorted_inv in Hs2 as [Hs2 _]. split; [|done]. intros. apply Hlt; [done|by right].
  - apply Forall_app in Hr as [? Hr]. apply Forall_cons in Hr as [_ ?]. by apply Forall_app.
Qed.

Lemma last_id_bound a : ids_ok a -> -1 <= last_id a <= INT_MAX /\
  Forall (fun y => a_id y <= last_id a) a.
Proof.
  intros Hi. unfold last_id. destruct a as [|x a _] using rev_ind; [by split|].
  rewrite last_snoc. simpl. destruct (ids_ok_split _ _ _ Hi) as (H1 & _ & Hx).
  split; [lia|]. apply Forall_app. split; [|repeat constructor; lia].
  eapply Forall_impl; [exact H1|]. simpl. lia.
Qed.

Lemma ids_ok_snoc a x : ids_ok a -> a_id x = last_id a + 1 -> a_id x <= INT_MAX -> ids_ok (a ++ [x]).
Proof.
  intros Hi Hx Hm. destruct (last_id_bound _ Hi) as [Hb Hle]. destruct Hi as [Hs Hr].
  split; rewrite fmap_app; simpl.
  - apply StronglySorted_app. split; [|split; [done|repeat constructor]].
    intros i j Hii ->%list_elem_of_singleton. apply list_elem_of_fmap in Hii as (y & -> & Hy).
    rewrite Forall_forall in Hle. specialize (Hle y Hy). lia.
  - apply Forall_app. split; [done|]. repeat constructor; lia.
Qed.
