(* ===== verification/EventRefine.v ===== *)
(** Each event system call refines its abstract operation.

    For a handler run without interference from a state that represents the
    abstract events, the lemmas give the result, the new abstract events and
    the new tasks, and that the lock, the interrupt flag and the preemption
    count are what they were before the call. *)
From S2P Require Import Prelude ListHead KState UserMem WaitQueue Events EventSpec.

(** Wait entries that are on the stack of some task stay usable, and those
    that are on no queue stay off every queue. *)
Record keeps (s : kstate) (a : list aevent) (s' : kstate) : Prop := {
  keeps_own : forall w, own_entry s w -> own_entry s' w;
  keeps_off : forall w, w ∉ others a -> is_list (cells s) (Cw w) [] -> is_list (cells s') (Cw w) [];
}.

(** The handler [p] implements the abstract outcome [o] in state [s], which
    represents [a]. *)
Definition implements (p : prog kstate Z) (s : kstate) (a : list aevent) (o : outcome) : Prop :=
  exists s', run p s = Ok (o.1.1, s') /\ rep s' o.1.2 /\ tasks s' = o.2 /\ same_cpu s s' /\ keeps s a s'.

Lemma keeps_same s s' a :
  cells s' = cells s -> waits s' = waits s -> tasks s' = tasks s -> keeps s a s'.
Proof. intros Hc Hw Ht. split; unfold own_entry; rewrite ?Hc, ?Hw, ?Ht; done. Qed.

Lemma single_ext (h h' : gmap cell (list_head cell)) w :
  h' !! Cw w = h !! Cw w -> is_list h (Cw w) [] -> is_list h' (Cw w) [].
Proof. intros E Hl. eapply is_list_ext; [exact Hl|]. by intros y ->%list_elem_of_singleton. Qed.

Lemma implements_done r s a : rep s a -> implements (Done r) s a (r, a, tasks s).
Proof. intros Hr. exists s. repeat (split; [done|]). by apply keeps_same. Qed.

Lemma isValidEventId_neg i : ctrue (isValidEventId i) = (i <? 0).
Proof. unfold isValidEventId. by destruct (i <? 0). Qed.

Lemma find_event_neg i a : ids_ok a -> i < 0 -> find_event i a = None.
Proof.
  intros Hi Hneg. destruct (find_event i a) as [x|] eqn:E; [|done].
  apply find_event_split in E as (a1 & a2 & -> & Hx & _).
  apply ids_ok_split in Hi as (_ & _ & ?). lia.
Qed.

Lemma ctrue_cbool b : ctrue (cbool b) = b.
Proof. by destruct b. Qed.

(** ** chown and chmod *)

Lemma change_section_run s a1 x a2 f :
  rep s (a1 ++ x :: a2) ->
  (let! flags := write_lock_irqsave in
   upd_event (Ptr (a_addr x)) f ;;;
   write_unlock_irqrestore flags) s =
  Ok (tt, set_events (<[a_addr x := f (a_ev x)]> (events s)) s).
Proof.
  intros Hr. pose proof (rep_events _ _ Hr) as Hall. apply Forall_app in Hall as [_ Hall].
  apply Forall_cons in Hall as [[He _ _ _] _].
  rewrite (bind_ok _ _ _ _ _ (write_lock_run _ (rep_lock _ _ Hr))).
  rewrite (bind_ok _ _ _ _ _ (upd_event_run (w_held s) _ _ f He)).
  apply (write_unlock_run (set_events _ s)); [apply Hr|done].
Qed.

(** The common shape of the two handlers. *)
Lemma change_implements current t eventID f s a (sec : evptr -> M kstate unit) :
  rep s a -> ids_ok a -> a <> [] -> tasks s !! current = Some t ->
  (forall x p, a_addr x = p -> sec (Ptr p) =
     (let! flags := write_lock_irqsave in
      upd_event (Ptr p) f ;;;
      write_unlock_irqrestore flags)) ->
  implements
    (step[Searches] r := lookup_section Garbage (validateUserEvent current) eventID in
     if ctrue r.1 then step[Uses r.2] _ := sec r.2 in Done 0 else Done (-1))
    s a (spec_change t eventID f a (tasks s)).
Proof.
  intros Hr Hi Hne Ht Hsec. unfold implements, spec_change.
  erewrite run_atomic; [|apply lookup_section_run; [exact Hr|]]; cycle 1.
  { rewrite (validateUserEvent_spec (r_held s) current t) by (done || apply (rep_event_ev s a Hr)).
    destruct a; [done|reflexivity]. }
  simpl fst. simpl snd. unfold found.
  destruct (find_event eventID a) as [x|] eqn:E; [|by apply implements_done].
  rewrite ctrue_cbool. destruct (may_change t (a_ev x)); [|by apply implements_done].
  apply find_event_split in E as (a1 & a2 & -> & Hx & _).
  rewrite (Hsec x _ eq_refl). rewrite (run_atomic _ _ _ _ _ _ (change_section_run _ a1 x a2 f Hr)).
  eexists. split; [reflexivity|]. simpl. rewrite on_event_split by done.
  split; [by apply rep_set_fields|]. repeat (split; [done|]). by apply keeps_same.
Qed.

Lemma chown_implements current t eventID UID GID s a :
  rep s a -> ids_ok a -> a <> [] -> tasks s !! current = Some t ->
  implements (sys_doeventchown current eventID UID GID) s a
    (spec_change t eventID (set_owner (u32 UID) (u32 GID)) a (tasks s)).
Proof.
  intros Hr Hi Hne Ht. unfold sys_doeventchown. rewrite isValidEventId_neg.
  pose proof (uwrap_range 32 UID ltac:(lia)). pose proof (uwrap_range 32 GID ltac:(lia)).
  destruct (Z.ltb_spec (u32 UID) 0); [lia|]. destruct (Z.ltb_spec (u32 GID) 0); [lia|].
  destruct (Z.ltb_spec eventID 0); cbn [orb].
  - unfold spec_change. rewrite find_event_neg by done. by apply implements_done.
  - apply (change_implements current t eventID _ s a (fun p => chown_section p _ _)); done.
Qed.

Lemma chmod_implements current t eventID UIDFlag GIDFlag s a :
  rep s a -> ids_ok a -> a <> [] -> tasks s !! current = Some t ->
  implements (sys_doeventchmod current eventID UIDFlag GIDFlag) s a
    (spec_change t eventID (set_mode UIDFlag GIDFlag) a (tasks s)).
Proof.
  intros Hr Hi Hne Ht. unfold sys_doeventchmod. rewrite isValidEventId_neg.
  destruct (Z.ltb_spec eventID 0); cbn [orb].
  - unfold spec_change. rewrite find_event_neg by done. by apply implements_done.
  - apply (change_implements current t eventID _ s a (fun p => chmod_section p _ _)); done.
Qed.

(** With no event at all both calls read an uninitialised pointer. *)
Lemma change_uninit current t eventID s k :
  rep s [] -> tasks s !! current = Some t ->
  run (step[Searches] r := lookup_section Garbage (validateUserEvent current) eventID in k r) s =
    Err (A := Z * kstate) Uninit.
Proof.
  intros Hr Ht. apply run_atomic_err. unfold lookup_section.
  rewrite (bind_ok _ _ _ _ _ (read_lock_run _ (rep_lock _ _ Hr))).
  erewrite bind_ok; [|apply (search_spec (r_held s) eventID [] Garbage)];
    [|apply Hr|constructor].
  apply bind_err. by rewrite (validateUserEvent_spec (r_held s) current t) by (done || constructor).
Qed.

(** ** Signalling *)

Lemma count_waiters_run q ws s :
  is_list (cells s) (Cq q) (Cw <$> ws) ->
  count_waiters q s = Ok (s32 (Z.of_nat (length ws)), s).
Proof.
  intros Hl. unfold count_waiters.
  rewrite (bind_ok _ _ _ _ _ (lh_read_ok _ _ _ (list_for_each_spec _ _ _ Hl))).
  by rewrite length_fmap.
Qed.

Lemma own_entry_woken s s' w mask ws :
  waits s' = waits s -> tasks s' = wake_tasks mask ws (tasks s) -> NoDup ws ->
  own_entry s w -> own_entry s' w.
Proof.
  intros Hw Ht Hnd [Hown His]. unfold own_entry. rewrite Hw, Ht, wake_tasks_lookup by done.
  split; [done|]. case_decide; [|done]. by rewrite fmap_is_Some.
Qed.

Lemma kept_NoDup mask ts ws : NoDup ws -> NoDup (kept mask ts ws).
Proof. intros. apply NoDup_ListNoDup, List.NoDup_filter. by apply NoDup_ListNoDup. Qed.

(** Changing the fields of an event and waking its queue. *)
Lemma rep_woken s a1 x a2 c ev' :
  rep s (a1 ++ x :: a2) ->
  is_list c (Cq (Qev (a_addr x))) (Cw <$> kept TASK_NORMAL (tasks s) (a_waiters x)) ->
  modifies (Cq (Qev (a_addr x)) :: (Cw <$> a_waiters x)) (cells s) c ->
  rep (set_cells c (set_tasks (wake_tasks TASK_NORMAL (a_waiters x) (tasks s))
        (set_events (<[a_addr x := ev']> (events s)) s)))
    (a1 ++ mk_aevent (a_addr x) ev' (kept TASK_NORMAL (tasks s) (a_waiters x)) :: a2).
Proof.
  intros Hr Hl Hm. destruct (rep_waiters_split _ _ _ _ Hr) as (Hnd & _ & Hdis).
  pose proof (rep_events _ _ Hr) as Hall. apply Forall_app in Hall as [_ Hall].
  apply Forall_cons in Hall as [[_ _ _ Hown] _]. rewrite Forall_forall in Hown.
  apply (rep_update s _ a1 x a2 _ _ (Cq (Qev (a_addr x)) :: (Cw <$> a_waiters x)));
    try done.
  - intros y [->|Hy]%elem_of_cons; [by left|right].
    apply list_elem_of_fmap in Hy as (w & -> & Hw). eauto.
  - by apply kept_NoDup.
  - intros w Hw%kept_subset. auto.
  - apply Forall_forall. intros w Hw%kept_subset.
    apply (own_entry_woken s _ w TASK_NORMAL (a_waiters x)); auto.
  - intros w _ Hw. by apply (own_entry_woken s _ w TASK_NORMAL (a_waiters x)).
Qed.

Lemma elem_of_others_mid w a1 x a2 :
  w ∈ others (a1 ++ x :: a2) <-> w ∈ a_waiters x \/ w ∈ others (a1 ++ a2).
Proof.
  rewrite !others_app. change (others (x :: a2)) with (a_waiters x ++ others a2). set_solver +.
Qed.

Lemma keeps_woken s s' a1 x a2 mask :
  waits s' = waits s -> tasks s' = wake_tasks mask (a_waiters x) (tasks s) -> NoDup (a_waiters x) ->
  (forall w, w ∉ a_waiters x -> cells s' !! Cw w = cells s !! Cw w) ->
  keeps s (a1 ++ x :: a2) s'.
Proof.
  intros Hw Ht Hnd Hc. split.
  - intros w. by apply (own_entry_woken s _ w mask (a_waiters x)).
  - intros w Hn. apply single_ext, Hc. rewrite elem_of_others_mid in Hn. tauto.
Qed.

(** The entries a signal takes off the queue are on no queue. *)
Lemma signalled_off s a1 x a2 c w ev' :
  (forall w, w ∈ a_waiters x -> stays TASK_NORMAL (tasks s) w = false -> is_list c (Cw w) []) ->
  w ∈ others (a1 ++ x :: a2) ->
  w ∉ others (a1 ++ mk_aevent (a_addr x) ev' (kept TASK_NORMAL (tasks s) (a_waiters x)) :: a2) ->
  is_list c (Cw w) [].
Proof.
  intros Hs Hin Hn. rewrite elem_of_others_mid in Hin, Hn. simpl in Hn.
  destruct Hin as [Hin|Hin]; [|tauto]. apply Hs; [done|].
  destruct (stays TASK_NORMAL (tasks s) w) eqn:E; [|done]. exfalso. apply Hn. left.
  unfold kept. rewrite list_elem_of_In, filter_In, <- list_elem_of_In. done.
Qed.

Lemma sig_section_run s a1 x a2 :
  rep s (a1 ++ x :: a2) ->
  sig_section (Ptr (a_addr x)) s =
    Ok (s32 (Z.of_nat (length (a_waiters x))),
        set_events (<[a_addr x := set_condition 1 (a_ev x)]> (events s)) s).
Proof.
  intros Hr. pose proof (rep_events _ _ Hr) as Hall. apply Forall_app in Hall as [_ Hall].
  apply Forall_cons in Hall as [[He Hl _ _] _]. unfold sig_section.
  rewrite (bind_ok _ _ _ _ _ (write_lock_run _ (rep_lock _ _ Hr))).
  erewrite bind_ok by done.
  rewrite (bind_ok _ _ _ _ _ (count_waiters_run _ _ (w_held s) Hl)).
  rewrite (bind_ok _ _ _ _ _ (upd_event_run (w_held s) _ _ _ He)).
  erewrite bind_ok; [done|]. apply (write_unlock_run (set_events _ s)); [apply Hr|done].
Qed.

(** The lookup of the calls any permitted task may make. *)
Lemma lookup_event_run current t eventID s a :
  rep s a -> tasks s !! current = Some t ->
  lookup_section Null (validateEvent current 1) eventID s =
    Ok ((match find_event eventID a with
         | Some x => cbool (may_signal t (a_ev x))
         | None => 0
         end, found eventID Null a), s).
Proof.
  intros Hr Ht. apply lookup_section_run; [done|].
  apply (validateEvent_spec (r_held s)); [apply (rep_event_ev s a Hr)|done].
Qed.

Lemma sig_implements_off current t eventID s a :
  rep s a -> ids_ok a -> tasks s !! current = Some t ->
  let o := spec_sig t eventID a (tasks s) in
  exists s', run (sys_doeventsig current eventID) s = Ok (o.1.1, s') /\ rep s' o.1.2 /\
    tasks s' = o.2 /\ same_cpu s s' /\ keeps s a s' /\
    (forall w, w ∈ others a -> w ∉ others o.1.2 -> is_list (cells s') (Cw w) []).
Proof.
  intros Hr Hi Ht o. subst o.
  assert (Hdone : forall r : Z, exists s', run (Done r) s = Ok (r, s') /\ rep s' a /\
    tasks s' = tasks s /\ same_cpu s s' /\ keeps s a s' /\
    (forall w, w ∈ others a -> w ∉ others a -> is_list (cells s') (Cw w) [])).
  { intros r. exists s. split_and!; try done. }
  unfold sys_doeventsig. rewrite isValidEventId_neg.
  destruct (Z.ltb_spec eventID 0).
  { unfold spec_sig. rewrite find_event_neg by done. apply Hdone. }
  rewrite (run_atomic _ _ _ _ _ _ (lookup_event_run _ _ eventID _ _ Hr Ht)).
  cbn [fst snd]. unfold spec_sig, found.
  destruct (find_event eventID a) as [x|] eqn:E; [|apply Hdone].
  rewrite ctrue_cbool. destruct (may_signal t (a_ev x)); [|apply Hdone].
  pose proof (rep_find _ _ _ _ Hr E) as [He Hl Hq Hown].
  apply find_event_split in E as (a1 & a2 & -> & Hx & _).
  erewrite run_atomic by (erewrite bind_ok by done; apply (waitqueue_active_run _ _ _ Hl)).
  destruct (bool_decide (a_waiters x = [])); cbn [negb]; [apply Hdone|]. unfold signal_waiters.
  rewrite (run_atomic _ _ _ _ _ _ (sig_section_run _ _ _ _ Hr)).
  destruct (rep_waiters_split _ _ _ _ Hr) as (Hnd & _).
  destruct (wake_up_all_spec (Qev (a_addr x)) (a_waiters x)
    (set_events (<[a_addr x := set_condition 1 (a_ev x)]> (events s)) s))
    as (c & R & Hl' & Hs & Hm); [done..|].
  erewrite run_atomic by (erewrite bind_ok by done; exact R).
  eexists. rewrite on_event_split by done.
  split; [reflexivity|]. split; [apply (rep_woken s a1 x a2 c _ Hr Hl' Hm)|].
  repeat (split; [done|]). split; [|by intros w; apply signalled_off].
  apply (keeps_woken s _ a1 x a2 TASK_NORMAL); [done|done|done|]. intros w Hw. apply Hm.
  intros Hin. cell_cases.
Qed.

Lemma sig_implements current t eventID s a :
  rep s a -> ids_ok a -> tasks s !! current = Some t ->
  implements (sys_doeventsig current eventID) s a (spec_sig t eventID a (tasks s)).
Proof.
  intros Hr Hi Ht. destruct (sig_implements_off current t eventID s a Hr Hi Ht)
    as (s' & ? & ? & ? & ? & ? & _). by exists s'.
Qed.

(** ** Destroying *)

(** Taking one event off the list. *)
Lemma rep_remove s s' a1 x a2 :
  rep s (a1 ++ x :: a2) ->
  (forall e, e <> a_addr x -> events s' !! e = events s !! e /\ qlocks s' !! Qev e = qlocks s !! Qev e) ->
  lock s' = lock s -> allevents_id s' = allevents_id s ->
  is_list (cells s') Call (Cev <$> (a_addr <$> a1 ++ a2)) ->
  (forall y, y ∈ a1 ++ a2 -> forall c, c ∈ Cq (Qev (a_addr y)) :: (Cw <$> a_waiters y) ->
     cells s' !! c = cells s !! c) ->
  (forall w, own_entry s w -> own_entry s' w) ->
  rep s' (a1 ++ a2).
Proof.
  intros Hr Hev Hlk Hid Hl Hc Hown. split; [done| | |by rewrite Hlk, (rep_lock _ _ Hr)|
    by rewrite Hid, (rep_all _ _ Hr)].
  - apply Forall_forall. intros y Hy. pose proof (rep_addr_ne _ _ _ _ _ Hr Hy) as Hne.
    pose proof (rep_events _ _ Hr) as Hall. rewrite Forall_forall in Hall.
    destruct (Hall y) as [E1 E2 E3 E4]; [set_solver +Hy|]. destruct (Hev _ Hne) as [O1 O2]. split.
    + by rewrite O1.
    + eapply is_list_ext; [exact E2|]. by apply Hc.
    + by rewrite O2.
    + eapply Forall_impl; [exact E4|done].
  - by destruct (rep_waiters_split _ _ _ _ Hr) as (_ & ? & _).
Qed.

Lemma list_del_event_run s a1 x a2 :
  rep s (a1 ++ x :: a2) ->
  exists c : gmap cell (list_head cell), list_del_init (Cev (a_addr x)) (cells s) = Ok (tt, c) /\
    is_list c Call (Cev <$> (a_addr <$> a1 ++ a2)) /\
    (forall y, (forall e, y <> Cev e) -> y <> Call -> c !! y = cells s !! y) /\
    (forall y, is_Some (cells s !! y) -> is_Some (c !! y)).
Proof.
  intros Hr. pose proof (rep_list _ _ Hr) as Hl. rewrite !fmap_app, !fmap_cons in Hl.
  destruct (list_del_init_spec _ _ _ _ _ Hl) as (c & R & Hl' & _ & Hm).
  exists c. rewrite !fmap_app. split; [done|]. split; [done|].
  split; [|intros y; apply Hm]. intros y Hne Hy. apply Hm.
  rewrite elem_of_cons, elem_of_app, elem_of_cons, !list_elem_of_fmap. naive_solver.
Qed.

(** The state after the critical section of [sys_doeventclose], before the
    release of the memory. *)
Lemma close_section_run s a1 x a2 (process : bool) :
  rep s (a1 ++ x :: a2) -> (process = false -> a_waiters x = []) ->
  exists c ev', close_section (Ptr (a_addr x)) process s =
      Ok (s32 (Z.of_nat (length (a_waiters x))),
          set_cells c (set_tasks (wake_tasks TASK_NORMAL (a_waiters x) (tasks s))
            (set_events (<[a_addr x := ev']> (events s)) s))) /\
    is_list c Call (Cev <$> (a_addr <$> a1 ++ a2)) /\
    (forall y, y ∈ a1 ++ a2 -> forall z, z ∈ Cq (Qev (a_addr y)) :: (Cw <$> a_waiters y) ->
       c !! z = cells s !! z) /\
    (forall w, w ∉ a_waiters x -> c !! Cw w = cells s !! Cw w) /\
    (forall y, is_Some (cells s !! y) -> is_Some (c !! y)).
Proof.
  intros Hr Hp. pose proof (rep_events _ _ Hr) as Hall. apply Forall_app in Hall as [_ Hall].
  apply Forall_cons in Hall as [[He Hl Hq Hown] _].
  destruct (rep_waiters_split _ _ _ _ Hr) as (Hnd & _ & Hdis). unfold close_section.
  rewrite (bind_ok _ _ _ _ _ (write_lock_run _ (rep_lock _ _ Hr))).
  destruct process; cycle 1.
  - rewrite (Hp eq_refl). destruct (list_del_event_run _ _ _ _ Hr) as (c & R & Hl1 & Hc & Hs).
    exists c, (a_ev x). split; [|split; [done|split; [|split; [intros; by apply Hc|done]]]].
    + erewrite bind_ok by done. rewrite (bind_ok _ _ _ _ _ (lh_ok _ (w_held s) _ _ R)).
      rewrite (insert_id _ _ _ He). erewrite bind_ok; [reflexivity|].
      by apply (write_unlock_run (set_cells c s)); [apply Hr|].
    + intros y _ z Hz. apply Hc; intros; intros ->; cell_cases.
  - set (s1 := set_events (<[a_addr x := set_condition 1 (a_ev x)]> (events s)) s).
    destruct (wake_up_all_spec (Qev (a_addr x)) (a_waiters x) (w_held s1))
      as (c1 & R1 & Hl' & _ & Hm1); [done..|].
    destruct (list_del_event_run _ _ _ _ (rep_woken s a1 x a2 c1 (set_condition 1 (a_ev x)) Hr Hl' Hm1)) as (c & R & Hl1 & Hc & Hs).
    exists c, (set_condition 1 (a_ev x)). split; [|split; [done|split; [|split; [|intros y Hy; by apply Hs, Hm1]]]].
    + erewrite bind_ok; cycle 1.
      { erewrite bind_ok by done.
        rewrite (bind_ok _ _ _ _ _ (count_waiters_run _ _ (w_held s) Hl)).
        rewrite (bind_ok _ _ _ _ _ (upd_event_run (w_held s) _ _ _ He)).
        rewrite (bind_ok _ _ _ _ _ R1). reflexivity. }
      cbv beta. erewrite bind_ok; [|apply lh_ok; exact R].
      erewrite bind_ok; [reflexivity|].
      apply (write_unlock_run (set_cells c (set_tasks _ s1))); [apply Hr|done].
    + intros y Hy z Hz. rewrite Hc.
      * apply Hm1. intros Hz'. cell_cases; [by apply (rep_addr_ne _ _ _ _ _ Hr Hy)|].
        by eapply Hdis, elem_of_others; eauto.
      * intros e ->. cell_cases.
      * intros ->. cell_cases.
    + intros w Hw. rewrite Hc by done. apply Hm1.
      intros Hin. cell_cases.
Qed.

Lemma find_event_mid a1 x a2 : ids_ok (a1 ++ x :: a2) -> find_event (a_id x) (a1 ++ x :: a2) = Some x.
Proof.
  intros Hi. destruct (ids_ok_split _ _ _ Hi) as (H1 & _ & _). unfold find_event. clear Hi.
  induction H1 as [|y a1 Hy _ IH]; simpl; [by rewrite Z.eqb_refl|].
  destruct (Z.eqb_spec (a_id y) (a_id x)); [lia|done].
Qed.

(** A permitted close, to the end: the memory of the event is gone. *)
Lemma close_run current t s a1 x a2 :
  rep s (a1 ++ x :: a2) -> ids_ok (a1 ++ x :: a2) -> tasks s !! current = Some t ->
  may_signal t (a_ev x) = true ->
  exists c ev', run (sys_doeventclose current (a_id x)) s =
      Ok (s32 (Z.of_nat (length (a_waiters x))),
          kfree_event (a_addr x)
            (set_cells c (set_tasks (wake_tasks TASK_NORMAL (a_waiters x) (tasks s))
              (set_events (<[a_addr x := ev']> (events s)) s)))) /\
    is_list c Call (Cev <$> (a_addr <$> a1 ++ a2)) /\
    (forall y, y ∈ a1 ++ a2 -> forall z, z ∈ Cq (Qev (a_addr y)) :: (Cw <$> a_waiters y) ->
       c !! z = cells s !! z) /\
    (forall w, w ∉ a_waiters x -> c !! Cw w = cells s !! Cw w).
Proof.
  intros Hr Hi Ht Hmay. unfold sys_doeventclose. rewrite isValidEventId_neg.
  pose proof (ids_ok_split _ _ _ Hi) as (_ & _ & Hx). destruct (Z.ltb_spec (a_id x) 0); [lia|].
  pose proof (find_event_mid _ _ _ Hi) as E. pose proof (rep_find _ _ _ _ Hr E) as [_ Hl _ _].
  rewrite (run_atomic _ _ _ _ _ _ (lookup_event_run _ _ (a_id x) _ _ Hr Ht)).
  cbn [fst snd]. unfold found. rewrite E, ctrue_cbool, Hmay.
  erewrite run_atomic by (erewrite bind_ok by done; apply (waitqueue_active_run _ _ _ Hl)).
  destruct (close_section_run _ _ _ _ (negb (bool_decide (a_waiters x = []))) Hr)
    as (c & ev' & R & Hl' & Hc & Hcw & _); [by case_bool_decide|].
  rewrite (run_atomic _ _ _ _ _ _ R). erewrite run_atomic; cycle 1.
  { unfold kfree. simpl. by rewrite lookup_insert_eq. }
  exists c, ev'. by split.
Qed.

Lemma close_implements current t eventID s a :
  rep s a -> ids_ok a -> tasks s !! current = Some t ->
  implements (sys_doeventclose current eventID) s a (spec_close t eventID a (tasks s)).
Proof.
  intros Hr Hi Ht. unfold spec_close. destruct (find_event eventID a) as [x|] eqn:E; cycle 1.
  { unfold sys_doeventclose. rewrite isValidEventId_neg.
    destruct (eventID <? 0); [by apply implements_done|]. unfold implements.
    rewrite (run_atomic _ _ _ _ _ _ (lookup_event_run _ _ eventID _ _ Hr Ht)), E. by apply implements_done. }
  destruct (may_signal t (a_ev x)) eqn:Hmay; cycle 1.
  { unfold sys_doeventclose. rewrite isValidEventId_neg.
    destruct (eventID <? 0); [by apply implements_done|]. unfold implements.
    rewrite (run_atomic _ _ _ _ _ _ (lookup_event_run _ _ eventID _ _ Hr Ht)), E, Hmay.
    by apply implements_done. }
  apply find_event_split in E as (a1 & a2 & -> & <- & _).
  destruct (close_run _ _ _ _ _ _ Hr Hi Ht Hmay) as (c & ev' & R & Hl' & Hc & Hcw).
  eexists. split; [exact R|]. rewrite filter_out_split by done.
  destruct (rep_waiters_split _ _ _ _ Hr) as (Hnd & _ & _).
  split; [|split; [done|split; [done|]]]; [apply (rep_remove s _ a1 x a2 Hr); try done|].
  - intros e He. simpl. rewrite !lookup_delete_ne by congruence. by rewrite lookup_insert_ne by congruence.
  - simpl. eapply is_list_ext; [exact Hl'|]. intros y Hy. rewrite !lookup_delete_ne; [done| |].
    + intros <-. cell_cases.
    + intros <-. cell_cases. by eapply rep_addr_ne.
  - intros y Hy z Hz. simpl. rewrite !lookup_delete_ne; [by apply Hc with y| |].
    + intros <-. cell_cases. by apply (rep_addr_ne _ _ _ _ _ Hr Hy).
    + intros <-. cell_cases.
  - intros w Hw. by apply (own_entry_woken s _ w TASK_NORMAL (a_waiters x)).
  - apply (keeps_woken s _ a1 x a2 TASK_NORMAL); [done|done|done|]. intros w Hw. simpl.
    rewrite !lookup_delete_ne by done. by apply Hcw.
Qed.

(** ** Creating *)

(** The memory of a new event touches no queue and no list. *)
Lemma rep_place s a j :
  rep s a -> j_addr j ∉ a_addr <$> a -> rep (place j s) a.
Proof.
  intros Hr Hn. split; [| |apply Hr..].
  - eapply is_list_ext; [apply (rep_list _ _ Hr)|]. intros y Hy. simpl.
    rewrite !lookup_insert_ne; [done| |]; intros <-; cell_cases. apply Hn.
    match goal with E : _ = a_addr _ |- _ => rewrite E end. by apply list_elem_of_fmap_2.
  - apply Forall_forall. intros x Hx. pose proof (rep_events _ _ Hr) as Hall.
    rewrite Forall_forall in Hall. destruct (Hall x Hx) as [E1 E2 E3 E4].
    assert (j_addr j <> a_addr x).
    { intros Heq. apply Hn. rewrite Heq. by apply list_elem_of_fmap_2. }
    split; simpl; [by rewrite lookup_insert_ne| |rewrite lookup_insert_ne; congruence|done].
    eapply is_list_ext; [exact E2|]. intros y Hy.
    rewrite !lookup_insert_ne; [done| |]; intros <-; cell_cases.
Qed.

Lemma is_list_prev {ptr} `{Countable ptr} (h : gmap ptr (list_head ptr)) head l x :
  is_list h head (l ++ [x]) -> prv h x = Some (default head (last l)).
Proof.
  intros [_ Hp]. assert (Hgo : forall s a s', path h (s ++ a :: x :: s') -> prv h x = Some a).
  { clear. induction s as [|z s IH]; intros a s' Hp; [by destruct Hp as [[_ ?] _]|].
    apply (IH a s'). destruct s; by destruct Hp as [_ Hp]. }
  destruct l as [|y l _] using rev_ind; [by apply (Hgo [] _ [head])|].
  rewrite last_snoc. apply (Hgo (head :: l) y [head]). simpl in *. by rewrite <- !app_assoc in Hp.
Qed.

Lemma rep_append s s' a x :
  rep s a -> a_waiters x = [] ->
  is_list (cells s') Call (Cev <$> (a_addr <$> a ++ [x])) ->
  is_list (cells s') (Cq (Qev (a_addr x))) [] ->
  events s' !! a_addr x = Some (a_ev x) -> qlocks s' !! Qev (a_addr x) = Some false ->
  (forall e, e <> a_addr x -> events s' !! e = events s !! e /\ qlocks s' !! Qev e = qlocks s !! Qev e) ->
  (forall c, c <> Cq (Qev (a_addr x)) -> c <> Call -> (forall e, c <> Cev e) ->
     cells s' !! c = cells s !! c) ->
  waits s' = waits s -> tasks s' = tasks s -> lock s' = lock s -> allevents_id s' = allevents_id s ->
  rep s' (a ++ [x]).
Proof.
  intros Hr Hw Hl Hq Hev Hlk Hoth Hc Hws Hts Hl1 Hl2.
  assert (Hne : forall y, y ∈ a -> a_addr y <> a_addr x).
  { intros y Hy Heq. rewrite !fmap_app in Hl. destruct (is_list_others _ _ _ _ _ Hl) as [_ Hn].
    apply Hn. rewrite app_nil_r, <- Heq. right. by do 2 apply list_elem_of_fmap_2. }
  split; [done| | |by rewrite Hl1, (rep_lock _ _ Hr)|by rewrite Hl2, (rep_all _ _ Hr)].
  - apply Forall_app. split; [|constructor; [split; rewrite ?Hw; done|constructor]].
    apply Forall_forall. intros y Hy. pose proof (rep_events _ _ Hr) as Hall.
    rewrite Forall_forall in Hall. destruct (Hall y Hy) as [E1 E2 E3 E4].
    destruct (Hoth (a_addr y) (Hne y Hy)) as [O1 O2]. split; [by rewrite O1| |by rewrite O2|].
    + eapply is_list_ext; [exact E2|]. intros z Hz. apply Hc;
        intros; intros ->; cell_cases. by apply (Hne y Hy).
    + eapply Forall_impl; [exact E4|]. intros w. unfold own_entry. by rewrite Hws, Hts.
  - rewrite fmap_app, concat_app. simpl. rewrite Hw, app_nil_r. apply Hr.
Qed.

(** The id of the entry before the new one. *)
Lemma last_entry_run s a c :
  allevents_id s = -1 -> Forall (fun x => events s !! a_addr x = Some (a_ev x)) a ->
  c = default Call (last (Cev <$> (a_addr <$> a))) ->
  (let! p := event_entry c in get_id p) s = Ok (last_id a, s).
Proof.
  intros Hid Hev ->. unfold last_id. destruct a as [|x a _] using rev_ind.
  - simpl. erewrite bind_ok by done. simpl. unfold gets. by rewrite Hid.
  - rewrite !fmap_app. simpl. rewrite !last_snoc. simpl.
    apply Forall_app in Hev as [_ Hev]. apply Forall_cons in Hev as [Hx _].
    erewrite bind_ok by done. simpl.
    by rewrite (bind_ok _ _ _ _ _ (get_event_run _ _ _ Hx)).
Qed.

(** The state with a new event. *)
Definition with_event (new : positive) (c : gmap cell (list_head cell)) (ev : event) (s : kstate) : kstate :=
  set_cells c (set_qlocks (<[Qev new := false]> (qlocks s)) (set_events (<[new := ev]> (events s)) s)).

(** The memory of an event that is in no list yet, or not any more. *)
Definition placed (s : kstate) (e : positive) : Prop :=
  is_Some (events s !! e) /\ is_Some (cells s !! Cev e) /\ is_Some (cells s !! Cq (Qev e)).

(** The allocation and the initialisation of the entry for the global list. *)
Lemma place_run s a j :
  rep s a -> j_addr j ∉ a_addr <$> a ->
  exists c, (modify (place j) ;;; lh (INIT_LIST_HEAD (Cev (j_addr j)))) s = Ok (tt, set_cells c (place j s)) /\
    rep (set_cells c (place j s)) a /\ placed (set_cells c (place j s)) (j_addr j) /\
    modifies [Cev (j_addr j)] (cells (place j s)) c.
Proof.
  intros Hr Hn. pose proof (rep_place _ _ _ Hr Hn) as Hr'. set (new := j_addr j) in *.
  destruct (INIT_LIST_HEAD_spec (cells (place j s)) (Cev new)) as (c & R & _ & Hm).
  { simpl. by rewrite lookup_insert_eq. }
  exists c. split; [by erewrite bind_ok by done; apply lh_ok|]. split; [|split; [|done]].
  - split; [| |apply Hr'..].
    + eapply is_list_frame; [apply (rep_list _ _ Hr')|exact Hm|]. intros y Hy ->%list_elem_of_singleton.
      cell_cases. apply Hn. match goal with E : _ = a_addr _ |- _ => rewrite E end. by apply list_elem_of_fmap_2.
    + apply Forall_forall. intros x Hx. pose proof (rep_events _ _ Hr') as Hall.
      rewrite Forall_forall in Hall. destruct (Hall x Hx) as [E1 E2 E3 E4]. split; try done.
      eapply is_list_frame; [exact E2|exact Hm|]. intros y Hy ->%list_elem_of_singleton. cell_cases.
  - split; [simpl; by rewrite lookup_insert_eq|]. split; simpl.
    + apply Hm. simpl. by rewrite lookup_insert_eq.
    + apply Hm. simpl. rewrite lookup_insert_ne by done. by rewrite lookup_insert_eq.
Qed.

(** The cells after the entry is appended and the queue initialised. *)
Lemma open_cells s a new :
  rep s a -> placed s new -> new ∉ a_addr <$> a ->
  exists c1 c2 : gmap cell (list_head cell),
    list_add_tail (Cev new) Call (cells s) = Ok (tt, c1) /\
    INIT_LIST_HEAD (Cq (Qev new)) c1 = Ok (tt, c2) /\
    prv c1 (Cev new) = Some (default Call (last (Cev <$> (a_addr <$> a)))) /\
    is_list c2 Call ((Cev <$> (a_addr <$> a)) ++ [Cev new]) /\
    is_list c2 (Cq (Qev new)) [] /\
    (forall c, c <> Cq (Qev new) -> c <> Call -> (forall e, c <> Cev e) -> c2 !! c = cells s !! c) /\
    (forall c, is_Some (cells s !! c) -> is_Some (c2 !! c)).
Proof.
  intros Hr (_ & Hce & Hcq) Hn.
  assert (Hn' : Cev new ∉ Call :: (Cev <$> (a_addr <$> a))).
  { rewrite elem_of_cons, list_elem_of_fmap. intros [?|(? & [= <-] & ?)]; done. }
  destruct (list_add_tail_spec (cells s) Call _ (Cev new) (rep_list _ _ Hr) Hn') as (c1 & R1 & Hl1 & Hm1); [done|].
  destruct (INIT_LIST_HEAD_spec c1 (Cq (Qev new))) as (c2 & R2 & Hl2 & Hm2); [by apply Hm1|].
  exists c1, c2. do 2 (split; [done|]). split; [by apply is_list_prev|]. split; [|split; [done|split]].
  - eapply is_list_frame; [exact Hl1|exact Hm2|]. intros y Hy ->%list_elem_of_singleton.
    rewrite elem_of_cons, elem_of_app, list_elem_of_fmap, list_elem_of_singleton in Hy. naive_solver.
  - intros c Hc1 Hc2 Hc3. rewrite (proj1 Hm2) by set_solver +Hc1. rewrite (proj1 Hm1); [done|].
    rewrite !elem_of_cons, list_elem_of_fmap. naive_solver.
  - intros c Hc. by apply Hm2, Hm1.
Qed.

(** The section of sys_doeventopen: the event is appended with the next id. *)
Lemma open_section_run current t new s a :
  rep s a -> tasks s !! current = Some t -> placed s new -> new ∉ a_addr <$> a ->
  exists c, let ev := mk_event (s32 (last_id a + 1)) (euid t) (egid t) 1 1 0 in
    open_section current new s = Ok (tt, with_event new c ev s) /\
    rep (with_event new c ev s) (a ++ [mk_aevent new ev []]) /\
    (forall x, x <> Cq (Qev new) -> x <> Call -> (forall e, x <> Cev e) -> c !! x = cells s !! x) /\
    (forall x, is_Some (cells s !! x) -> is_Some (c !! x)).
Proof.
  intros Hr Ht Hpl Hn. destruct (open_cells _ _ _ Hr Hpl Hn) as (c1 & c2 & R1 & R2 & Hp & Hl & Hq & Hc & Hs).
  destruct Hpl as [[ev0 He] _]. exists c2. intros ev. split; [|split; [|done]].
  - unfold open_section. rewrite (bind_ok _ _ _ _ _ (write_lock_run s (rep_lock _ _ Hr))).
    erewrite bind_ok; [|apply lh_ok; exact R1].
    erewrite bind_ok; [|apply lh_read_ok, get_prev_run, Hp].
    rewrite <- bind_assoc. erewrite bind_ok; [|eapply last_entry_run; [apply Hr| |reflexivity]; apply (rep_event_ev _ _ Hr)].
    erewrite bind_ok; [|apply upd_event_run; simpl; exact He].
    erewrite bind_ok; cycle 1.
    { unfold current_euid_egid. erewrite bind_ok by (apply deref_ok; exact Ht).
      apply upd_event_run. simpl. apply lookup_insert_eq. }
    erewrite bind_ok; cycle 1.
    { unfold __init_waitqueue_head. erewrite bind_ok by done. apply lh_ok. exact R2. }
    erewrite bind_ok; [|apply upd_event_run; simpl; apply lookup_insert_eq].
    simpl. rewrite !insert_insert_eq.
    apply (write_unlock_run (with_event new c2 ev s)); [apply Hr|done].
  - apply (rep_append s _ a); try done; simpl.
    + by rewrite !fmap_app.
    + apply lookup_insert_eq.
    + apply lookup_insert_eq.
    + intros e He'. rewrite !lookup_insert_ne; [done| |]; congruence.
Qed.

Lemma open_implements current t j s a :
  rep s a -> tasks s !! current = Some t -> j_addr j ∉ a_addr <$> a ->
  implements (sys_doeventopen current (Some j)) s a (spec_open t (j_addr j) a (tasks s)).
Proof.
  intros Hr Ht Hn. destruct (place_run _ _ _ Hr Hn) as (c & R0 & Hr' & Hpl & Hm).
  destruct (open_section_run current t (j_addr j) _ _ Hr' Ht Hpl Hn) as (c2 & Ro & Hr2 & Hc & _).
  unfold implements, sys_doeventopen, spec_open.
  erewrite run_atomic by exact R0. rewrite (run_atomic _ _ _ _ _ _ Ro). erewrite run_atomic; cycle 1.
  { unfold get_id. erewrite bind_ok by (apply get_event_run; simpl; apply lookup_insert_eq). done. }
  eexists. split; [reflexivity|]. split; [exact Hr2|]. do 2 (split; [done|]).
  split; [done|]. intros w _. apply single_ext. simpl. rewrite Hc by done.
  simpl. rewrite (proj1 Hm) by set_solver. simpl. by rewrite !lookup_insert_ne by done.
Qed.

(** A permitted change of owner, with the state it leads to. *)
Lemma chown_run current t eventID UID GID s a x :
  rep s a -> ids_ok a -> tasks s !! current = Some t ->
  find_event eventID a = Some x -> may_change t (a_ev x) = true ->
  exists s', run (sys_doeventchown current eventID UID GID) s = Ok (0, s') /\
    rep s' (on_event eventID (map_ev (set_owner (u32 UID) (u32 GID))) a) /\ user s' = user s.
Proof.
  intros Hr Hi Ht E Hm. assert (Hne : a <> []) by (by intros ->).
  destruct (chown_implements current t eventID UID GID s a Hr Hi Hne Ht) as (s' & R & Hr' & _).
  unfold spec_change in *. rewrite E, Hm in R, Hr'. exists s'. split; [done|]. split; [done|].
  revert R. unfold sys_doeventchown. rewrite isValidEventId_neg.
  destruct ((eventID <? 0) || (u32 UID <? 0) || (u32 GID <? 0)); [done|].
  erewrite run_atomic; [|apply lookup_section_run; [exact Hr|]]; cycle 1.
  { rewrite (validateUserEvent_spec (r_held s) current t) by (done || apply (rep_event_ev s a Hr)).
    destruct a; [done|reflexivity]. }
  cbn [fst snd]. unfold found. rewrite E, Hm. change (ctrue (cbool true)) with true. cbv iota.
  apply find_event_split in E as (a1 & a2 & -> & _).
  rewrite (run_atomic _ _ _ _ _ _ (change_section_run _ a1 x a2 (set_owner (u32 UID) (u32 GID)) Hr
    : chown_section (Ptr (a_addr x)) _ _ s = _)). by intros [= <-].
Qed.
