(* ===== verification/EventUser.v ===== *)
(** The two system calls that copy to user memory: [sys_doeventstat] and
    [sys_doeventinfo]. *)
From S2P Require Import Prelude ListHead KState UserMem WaitQueue Events EventSpec EventRefine.

(** A pointer argument the call accepts: null or four bytes that can be read;
    and one it can write through. *)
Definition ptr_ok (um : umem) (p : Z) : Prop := p = NULL \/ readable um p 4.
Definition out_ok (um : umem) (p : Z) : Prop := p = NULL \/ writable um p 4.

#[export] Instance readable_dec um a n : Decision (readable um a n).
Proof. refine (cast_if (decide ((copy_in a n um).1 = 0))); by rewrite copy_in_ok. Defined.
#[export] Instance writable_dec um a n : Decision (writable um a n).
Proof.
  refine (cast_if (decide ((copy_out a (replicate n 0) um).1 = 0))); by rewrite <- copy_out_ok, length_replicate in *.
Defined.
#[export] Instance ptr_ok_dec um p : Decision (ptr_ok um p).
Proof. apply or_dec; apply _. Defined.
#[export] Instance out_ok_dec um p : Decision (out_ok um p).
Proof. apply or_dec; apply _. Defined.

(** User memory after a field went out through a pointer argument, and how many
    of its bytes did not. *)
Definition put_mem (p v : Z) (um : umem) : umem :=
  if p =? NULL then um else (copy_out p (le32 v) um).2.
Definition put_left (p v : Z) (um : umem) : Z :=
  if p =? NULL then 0 else (copy_out p (le32 v) um).1.

Definition stat_mem (ev : event) (UID GID UIDFlag GIDFlag : Z) (um : umem) : umem :=
  put_mem GIDFlag (gidFlag ev) (put_mem UIDFlag (uidFlag ev)
    (put_mem GID (gid ev) (put_mem UID (uid ev) um))).

Lemma put_mem_perm p v um k : snd <$> put_mem p v um !! k = snd <$> um !! k.
Proof. unfold put_mem. destruct (p =? NULL); [done|]. apply copy_out_perm. Qed.

Lemma out_ok_put um p q v : out_ok (put_mem q v um) p <-> out_ok um p.
Proof.
  unfold out_ok. split; (intros [?|Hw]; [by left|right]); (eapply same_perm_writable; [|exact Hw]);
    intros k; by rewrite put_mem_perm.
Qed.

Lemma put_left_ok um p v : put_left p v um = 0 <-> out_ok um p.
Proof.
  unfold put_left, out_ok. destruct (Z.eqb_spec p NULL) as [->|Hp]; [split; [by left|done]|].
  rewrite <- copy_out_ok. split; [by right|]. by intros [?|?].
Qed.

Lemma probe_run p s : exists n, probe p s = Ok (n, s) /\ (n = 0 <-> ptr_ok (user s) p).
Proof.
  unfold probe, ptr_ok. destruct (Z.eqb_spec p NULL) as [->|Hp].
  - exists 0. split; [done|]. split; [by left|done].
  - exists (copy_in p 4 (user s)).1. split; [done|]. rewrite <- copy_in_ok. naive_solver.
Qed.

Lemma put_run p v s : put p v 0 s = Ok (put_left p v (user s), set_user (put_mem p v (user s)) s).
Proof. unfold put, put_mem, put_left. destruct (p =? NULL); [by destruct s|done]. Qed.

Lemma stat_probe_run p1 p2 p3 p4 s :
  exists n1 n2 n3 n4, stat_probe p1 p2 p3 p4 s = Ok ((n1, n2, n3, n4), s) /\
    (n1 = 0 <-> ptr_ok (user s) p1) /\ (n2 = 0 <-> ptr_ok (user s) p2) /\
    (n3 = 0 <-> ptr_ok (user s) p3) /\ (n4 = 0 <-> ptr_ok (user s) p4).
Proof.
  destruct (probe_run p1 s) as (n1 & R1 & ?), (probe_run p2 s) as (n2 & R2 & ?),
    (probe_run p3 s) as (n3 & R3 & ?), (probe_run p4 s) as (n4 & R4 & ?).
  exists n1, n2, n3, n4. split; [|done]. unfold stat_probe.
  by rewrite (bind_ok _ _ _ _ _ R1), (bind_ok _ _ _ _ _ R2), (bind_ok _ _ _ _ _ R3),
    (bind_ok _ _ _ _ _ R4).
Qed.

(** Every field is copied, whether or not the copies before it failed. *)
Definition stat_result (um : umem) (ps : list Z) : Z := if bool_decide (Forall (out_ok um) ps) then 0 else - EFAULT.

Lemma stat_copy_run ev p1 p2 p3 p4 s :
  stat_copy ev p1 p2 p3 p4 (0, 0, 0, 0) s =
    Ok (stat_result (user s) [p1; p2; p3; p4], set_user (stat_mem ev p1 p2 p3 p4 (user s)) s).
Proof.
  unfold stat_copy. rewrite (bind_ok _ _ _ _ _ (put_run _ _ _)). erewrite bind_ok by apply put_run.
  erewrite bind_ok by apply put_run. erewrite bind_ok by apply put_run. unfold ret, stat_result. simpl. f_equal. f_equal.
  unfold ctrue. case_bool_decide as Hf; rewrite !Forall_cons, Forall_nil in Hf.
  - destruct Hf as (? & ? & ? & ? & _).
    by rewrite !(proj2 (put_left_ok _ _ _)) by (by rewrite ?out_ok_put).
  - repeat match goal with |- context [negb (put_left ?p ?v ?m =? 0)] => let E := fresh "E" in
      destruct (Z.eqb_spec (put_left p v m) 0) as [E|]; [apply put_left_ok in E; rewrite ?out_ok_put in E; cbn [negb orb]|by cbn [negb orb]; rewrite ?orb_true_r] end.
    exfalso. tauto.
Qed.

(** The result and the user memory of [sys_doeventstat]. *)
Definition spec_stat (eventID UID GID UIDFlag GIDFlag : Z) (a : list aevent) (um : umem) : Z * umem :=
  match find_event eventID a with
  | Some x =>
      if bool_decide (Forall (ptr_ok um) [UID; GID; UIDFlag; GIDFlag])
      then (stat_result um [UID; GID; UIDFlag; GIDFlag], stat_mem (a_ev x) UID GID UIDFlag GIDFlag um) else (-1, um)
  | None => (-1, um)
  end.

Lemma stat_section_run eventID s a :
  rep s a ->
  stat_section eventID s =
    Ok ((found eventID Garbage a,
         match find_event eventID a with Some x => Some (a_ev x) | None => None end), s).
Proof.
  intros Hr. unfold stat_section.
  rewrite (bind_ok _ _ _ _ _ (read_lock_run _ (rep_lock _ _ Hr))).
  erewrite bind_ok; [|apply (search_spec (r_held s) eventID a)]; [|apply Hr|apply (rep_event_ev s a Hr)].
  unfold found. destruct (find_event eventID a) as [x|] eqn:E.
  - destruct (rep_find _ _ _ _ Hr E) as [He _ _ _].
    erewrite bind_ok; cycle 1.
    { by rewrite (bind_ok _ _ _ _ _ (get_event_run (r_held s) _ _ He)). }
    erewrite bind_ok by (by apply read_unlock_run; [apply Hr|]). done.
  - erewrite bind_ok; [|by destruct a].
    erewrite bind_ok by (by apply read_unlock_run; [apply Hr|]). done.
Qed.

Lemma user_id s : set_user (user s) s = s.
Proof. by destruct s. Qed.

Lemma stat_run eventID p1 p2 p3 p4 s a :
  rep s a -> ids_ok a -> a <> [] ->
  run (sys_doeventstat eventID p1 p2 p3 p4) s =
    let o := spec_stat eventID p1 p2 p3 p4 a (user s) in Ok (o.1, set_user o.2 s).
Proof.
  intros Hr Hi Hne. unfold sys_doeventstat, spec_stat.
  destruct (stat_probe_run p1 p2 p3 p4 s) as (n1 & n2 & n3 & n4 & R & E1 & E2 & E3 & E4).
  rewrite (run_atomic _ _ _ _ _ _ R).
  assert (Hall : Forall (ptr_ok (user s)) [p1; p2; p3; p4] <-> n1 = 0 /\ n2 = 0 /\ n3 = 0 /\ n4 = 0).
  { rewrite !Forall_cons, Forall_nil. tauto. }
  destruct (decide (n1 = 0 /\ n2 = 0 /\ n3 = 0 /\ n4 = 0)) as [Hz|Hz].
  - rewrite (bool_decide_true _ (proj2 Hall Hz)). destruct Hz as (-> & -> & -> & ->).
    cbn [orb ctrue Z.eqb negb]. rewrite isValidEventId_neg. destruct (Z.ltb_spec eventID 0).
    { rewrite find_event_neg by done. simpl. by rewrite user_id. }
    rewrite (run_atomic _ _ _ _ _ _ (stat_section_run eventID _ _ Hr)). unfold found.
    destruct (find_event eventID a) as [x|].
    + by erewrite run_atomic by apply stat_copy_run.
    + destruct a; [done|]. simpl. by rewrite user_id.
  - assert (Hb : bool_decide (Forall (ptr_ok (user s)) [p1; p2; p3; p4]) = false).
    { apply bool_decide_false. by rewrite Hall. }
    rewrite Hb. unfold ctrue.
    destruct (Z.eqb_spec n1 0), (Z.eqb_spec n2 0), (Z.eqb_spec n3 0), (Z.eqb_spec n4 0);
      try (exfalso; tauto); simpl; destruct (find_event eventID a); simpl; by rewrite user_id.
Qed.

Lemma stat_uninit eventID p1 p2 p3 p4 s :
  rep s [] -> 0 <= eventID -> Forall (ptr_ok (user s)) [p1; p2; p3; p4] ->
  run (sys_doeventstat eventID p1 p2 p3 p4) s = Err Uninit.
Proof.
  intros Hr Hi Hp. unfold sys_doeventstat.
  destruct (stat_probe_run p1 p2 p3 p4 s) as (n1 & n2 & n3 & n4 & R & E1 & E2 & E3 & E4).
  rewrite !Forall_cons, Forall_nil in Hp. destruct Hp as (H1 & H2 & H3 & H4 & _).
  rewrite (run_atomic _ _ _ _ _ _ R).
  rewrite (proj2 E1 H1), (proj2 E2 H2), (proj2 E3 H3), (proj2 E4 H4). cbn [orb ctrue Z.eqb negb].
  rewrite isValidEventId_neg. destruct (Z.ltb_spec eventID 0); [lia|].
  by rewrite (run_atomic _ _ _ _ _ _ (stat_section_run eventID _ _ Hr)).
Qed.

Lemma out_ptr_ok um p : out_ok um p -> ptr_ok um p.
Proof. intros [?|Hw]; [by left|right]. by apply writable_readable. Qed.

Lemma stat_empty eventID p1 p2 p3 p4 s :
  rep s [] ->
  run (sys_doeventstat eventID p1 p2 p3 p4) s =
    if bool_decide (Forall (ptr_ok (user s)) [p1; p2; p3; p4]) && (0 <=? eventID) then Err Uninit else Ok (-1, s).
Proof.
  intros Hr. case_bool_decide as Hp; cbn [andb].
  - destruct (Z.leb_spec 0 eventID); [by apply stat_uninit|]. unfold sys_doeventstat.
    destruct (stat_probe_run p1 p2 p3 p4 s) as (n1 & n2 & n3 & n4 & R & E1 & E2 & E3 & E4).
    rewrite (run_atomic _ _ _ _ _ _ R). destruct (_ || _ || _ || _); [done|].
    rewrite isValidEventId_neg. by destruct (Z.ltb_spec eventID 0); [|lia].
  - unfold sys_doeventstat. destruct (stat_probe_run p1 p2 p3 p4 s) as (n1 & n2 & n3 & n4 & R & E1 & E2 & E3 & E4).
    rewrite (run_atomic _ _ _ _ _ _ R). rewrite !Forall_cons, Forall_nil in Hp. unfold ctrue.
    destruct (Z.eqb_spec n1 0), (Z.eqb_spec n2 0), (Z.eqb_spec n3 0), (Z.eqb_spec n4 0); try done. exfalso. tauto.
Qed.

(** Reading the memory back: a pointer whose bytes no later copy touches
    holds its field. *)
Definition disjoint4 (p q : Z) : Prop := p = NULL \/ q = NULL \/ p + 4 <= q \/ q + 4 <= p.

Lemma bytes_at_ext um um' a n :
  (forall k, a <= k < a + Z.of_nat n -> um' !! k = um !! k) -> bytes_at um' a n = bytes_at um a n.
Proof.
  revert a. induction n as [|n IH]; intros a Hext; [done|]. simpl.
  rewrite (Hext a) by lia. rewrite (IH (a + 1)); [done|]. intros k Hk. apply Hext. lia.
Qed.

Lemma put_mem_frame p q v um :
  p <> NULL -> disjoint4 p q -> bytes_at (put_mem q v um) p 4 = bytes_at um p 4.
Proof.
  intros Hp Hd. unfold put_mem. destruct (Z.eqb_spec q NULL); [done|].
  apply bytes_at_ext. intros k Hk. apply copy_out_frame. simpl length. unfold disjoint4 in Hd. lia.
Qed.

Lemma put_mem_get p v um :
  p <> NULL -> out_ok um p -> bytes_at (put_mem p v um) p 4 = Some (le32 v).
Proof.
  intros Hp [?|Ha]; [done|]. unfold put_mem. destruct (Z.eqb_spec p NULL); [done|].
  by apply (copy_out_bytes p (le32 v) um).
Qed.

Lemma stat_mem_get ev p1 p2 p3 p4 um :
  Forall (fun p => p <> NULL /\ out_ok um p) [p1; p2; p3; p4] ->
  disjoint4 p1 p2 -> disjoint4 p1 p3 -> disjoint4 p1 p4 -> disjoint4 p2 p3 -> disjoint4 p2 p4 ->
  disjoint4 p3 p4 ->
  bytes_at (stat_mem ev p1 p2 p3 p4 um) p1 4 = Some (le32 (uid ev)) /\
  bytes_at (stat_mem ev p1 p2 p3 p4 um) p2 4 = Some (le32 (gid ev)) /\
  bytes_at (stat_mem ev p1 p2 p3 p4 um) p3 4 = Some (le32 (uidFlag ev)) /\
  bytes_at (stat_mem ev p1 p2 p3 p4 um) p4 4 = Some (le32 (gidFlag ev)).
Proof.
  rewrite !Forall_cons, Forall_nil. intros ([? ?] & [? ?] & [? ?] & [? ?] & _) ? ? ? ? ? ?.
  unfold stat_mem. split; [|split; [|split]].
  - rewrite !put_mem_frame by done. by apply put_mem_get.
  - rewrite !put_mem_frame by done. apply put_mem_get; [done|]. by rewrite ?out_ok_put.
  - rewrite !put_mem_frame by done. apply put_mem_get; [done|]. by rewrite ?out_ok_put.
  - apply put_mem_get; [done|]. by rewrite ?out_ok_put.
Qed.

(** ** Listing the events *)

Lemma info_loop_spec s num eventIDs a : forall fuel l1 check arr,
  is_list (cells s) Call (l1 ++ (Cev <$> (a_addr <$> a))) ->
  Forall (fun x => events s !! a_addr x = Some (a_ev x)) a -> (length a < fuel)%nat ->
  0 <= check -> check + Z.of_nat (length a) <= INT_MAX ->
  exists arr', info_loop fuel (default Call (head (Cev <$> (a_addr <$> a)))) num eventIDs check arr s =
      Ok ((check + Z.of_nat (length a), arr'), s) /\
    (eventIDs <> NULL -> check + Z.of_nat (length a) <= num ->
     forall pre rest, arr = pre ++ rest -> Z.of_nat (length pre) = check -> (length a <= length rest)%nat ->
       arr' = pre ++ (a_id <$> a) ++ drop (length a) rest).
Proof.
  induction a as [|x a IH]; intros fuel l1 check arr Hl Hev Hf Hc Hm;
    (destruct fuel as [|fuel]; [simpl in Hf; lia|]); cbn [info_loop fmap list_fmap head default].
  - rewrite app_nil_r in Hl. destruct (is_list_ends _ _ _ Hl) as [Hn _].
    erewrite bind_ok by (apply lh_read_ok, get_next_run, Hn).
    rewrite bool_decide_true by done. exists arr. split; [by rewrite Z.add_0_r|].
    intros _ _ pre rest -> _ _. done.
  - apply Forall_cons in Hev as [Hx Hev]. pose proof (is_list_next _ _ _ _ _ Hl) as Hn.
    erewrite bind_ok by (apply lh_read_ok, get_next_run, Hn).
    rewrite bool_decide_false by done. simpl length in *.
    set (arr1 := if (check <? num) && negb (eventIDs =? NULL) then <[Z.to_nat check := a_id x]> arr else arr).
    rewrite (bind_ok _ _ s arr1 s); cycle 1.
    { unfold arr1. destruct ((check <? num) && negb (eventIDs =? NULL)); [|done].
      erewrite bind_ok by done. simpl.
      erewrite bind_ok; [reflexivity|]. by rewrite (bind_ok _ _ _ _ _ (get_event_run _ _ _ Hx)). }
    assert (Hs : s32 (check + 1) = check + 1).
    { apply swrap_small; [|lia]. change (2 ^ (32 - 1)) with 2147483648. unfold INT_MAX in Hm. lia. }
    rewrite Hs. destruct (IH fuel (l1 ++ [Cev (a_addr x)]) (check + 1) arr1) as (arr' & R & Harr).
    { by rewrite <- app_assoc. } { done. } { lia. } { lia. } { lia. }
    exists arr'. split.
    { etrans; [exact R|]. do 3 f_equal. lia. }
    intros Hnn Hle pre [|r rest] -> Hpre Hlen; simpl in Hlen; [lia|].
    rewrite (Harr Hnn ltac:(lia) (pre ++ [a_id x]) rest).
    + by rewrite <- app_assoc.
    + unfold arr1. destruct (Z.ltb_spec check num); [|lia].
      destruct (Z.eqb_spec eventIDs NULL); [done|]. cbn [andb negb]. rewrite <- Hpre, Nat2Z.id.
      rewrite <- (Nat.add_0_r (length pre)), insert_app_r. simpl. by rewrite <- app_assoc.
    + rewrite length_app. simpl. lia.
    + lia.
Qed.

(** What [sys_doeventinfo] returns and leaves in user memory, for an array
    that fits the stack. *)
Definition info_ids (num : Z) (a : list aevent) : list Z :=
  (a_id <$> a) ++ replicate (Z.to_nat num - length a) (-1).

Definition spec_info (num eventIDs : Z) (a : list aevent) (um : umem) : Z * umem :=
  let n := Z.of_nat (length a) in
  if eventIDs =? NULL then (n, um)
  else if (num <? 0) || negb (bool_decide (ptr_ok um eventIDs)) || (num <? n) then (-1, um)
  else
    let r := copy_out eventIDs (concat (le32 <$> info_ids num a)) um in
    (if r.1 =? 0 then n else -1, r.2).

Lemma info_section_run num eventIDs s a :
  rep s a -> Z.of_nat (length a) <= INT_MAX ->
  exists arr, info_section num eventIDs (replicate (Z.to_nat num) (-1)) s =
      Ok ((Z.of_nat (length a), arr), s) /\
    (eventIDs <> NULL -> Z.of_nat (length a) <= num -> arr = info_ids num a).
Proof.
  intros Hr Hm. unfold info_section.
  rewrite (bind_ok _ _ _ _ _ (read_lock_run _ (rep_lock _ _ Hr))). erewrite bind_ok by done.
  erewrite bind_ok; cycle 1.
  { apply (lh_read_ok _ (r_held s)), get_next_run. apply (is_list_ends _ _ _ (rep_list _ _ Hr)). }
  pose proof (is_list_length _ _ _ (rep_list _ _ Hr)) as Hlen. rewrite !length_fmap in Hlen.
  destruct (info_loop_spec (r_held s) num eventIDs a (S (size (cells s))) [] 0
    (replicate (Z.to_nat num) (-1))) as (arr & R & Harr);
    [apply Hr|apply (rep_event_ev s a Hr)|lia|lia|lia|].
  exists arr. rewrite (bind_ok _ _ _ _ _ R).
  erewrite bind_ok by (by apply read_unlock_run; [apply Hr|]). split; [done|].
  intros Hnn Hle. rewrite (Harr Hnn Hle [] (replicate (Z.to_nat num) (-1))); [|done|done|].
  - unfold info_ids. by rewrite drop_replicate.
  - rewrite length_replicate. lia.
Qed.

Lemma info_run vla_ok num eventIDs s a :
  rep s a -> Z.of_nat (length a) <= INT_MAX -> vla_ok num = true ->
  run (sys_doeventinfo vla_ok num eventIDs) s =
    let o := spec_info num eventIDs a (user s) in Ok (o.1, set_user o.2 s).
Proof.
  intros Hr Hm Hv. unfold sys_doeventinfo, spec_info. rewrite Hv. cbn [negb].
  destruct (Z.eqb_spec eventIDs NULL) as [->|Hnn]; cbn [negb].
  - rewrite andb_false_r. rewrite (run_atomic _ _ _ s 0 s eq_refl). change (ctrue 0) with false. cbv iota.
    destruct (info_section_run num NULL _ _ Hr Hm) as (arr & R & _).
    rewrite (run_atomic _ _ _ _ _ _ R). erewrite run_atomic; cycle 1.
    { unfold info_copy. cbn [Z.eqb NULL negb andb]. erewrite bind_ok by done.
      rewrite andb_false_r. reflexivity. }
    simpl. by rewrite user_id.
  - rewrite andb_true_r. destruct (Z.ltb_spec num 0); cbn [orb]; [simpl; by rewrite user_id|].
    destruct (probe_run eventIDs s) as (n & R & Hn). rewrite (run_atomic _ _ _ _ _ _ R).
    unfold ctrue. destruct (Z.eqb_spec n 0) as [Hz|Hz]; cbn [negb].
    + rewrite (bool_decide_true _ (proj1 Hn Hz)). cbn [negb orb].
      destruct (info_section_run num eventIDs _ _ Hr Hm) as (arr & R' & Harr).
      rewrite (run_atomic _ _ _ _ _ _ R'). cbn [fst snd]. unfold info_copy.
      destruct (Z.eqb_spec eventIDs NULL); [done|]. cbn [negb andb].
      destruct (Z.ltb_spec num (Z.of_nat (length a))).
      * destruct (Z.leb_spec (Z.of_nat (length a)) num); [lia|].
        simpl. by rewrite user_id.
      * destruct (Z.leb_spec (Z.of_nat (length a)) num); [|lia].
        rewrite (Harr Hnn) by done. simpl. unfold bind, copy_to_user, ret, ctrue. simpl.
        by destruct ((copy_out eventIDs _ (user s)).1 =? 0).
    + assert (Hb : bool_decide (ptr_ok (user s) eventIDs) = false).
      { apply bool_decide_false. by rewrite <- Hn. }
      rewrite Hb. simpl. by rewrite user_id.
Qed.

Lemma info_bytes num a :
  Z.of_nat (length a) <= num -> length (concat (le32 <$> info_ids num a)) = (4 * Z.to_nat num)%nat.
Proof.
  intros Hle. assert (Hlen : length (info_ids num a) = Z.to_nat num).
  { unfold info_ids. rewrite length_app, length_fmap, length_replicate. lia. }
  rewrite <- Hlen. generalize (info_ids num a). intros l. induction l as [|v l IH]; [done|].
  change (4 + length (concat (le32 <$> l)) = 4 * S (length l))%nat. lia.
Qed.

(** A complete listing can be read back. *)
Lemma info_read_back num eventIDs a um :
  ids_ok a -> writable um eventIDs (4 * Z.to_nat num) -> Z.of_nat (length a) <= num ->
  eventIDs <> NULL -> 0 < num ->
  spec_info num eventIDs a um =
    (Z.of_nat (length a), (copy_out eventIDs (concat (le32 <$> info_ids num a)) um).2) /\
  ints_at (spec_info num eventIDs a um).2 eventIDs (Z.to_nat num) = Some (info_ids num a).
Proof.
  intros [_ Hi] Hacc Hle Hnn Hpos.
  assert (Hlen : length (info_ids num a) = Z.to_nat num).
  { unfold info_ids. rewrite length_app, length_fmap, length_replicate. lia. }
  pose proof (info_bytes num a Hle) as Hlen4.
  assert (Hw : writable um eventIDs (length (concat (le32 <$> info_ids num a)))) by by rewrite Hlen4.
  pose proof (proj1 (copy_out_ok _ _ _) Hw) as E1. pose proof (copy_out_bytes _ _ _ Hw) as E2.
  assert (Hs : spec_info num eventIDs a um =
    (Z.of_nat (length a), (copy_out eventIDs (concat (le32 <$> info_ids num a)) um).2)).
  { unfold spec_info. destruct (Z.eqb_spec eventIDs NULL); [done|].
    destruct (Z.ltb_spec num 0); [lia|]. destruct (Z.ltb_spec num (Z.of_nat (length a))); [lia|].
    rewrite bool_decide_true.
    - cbn [orb negb]. by rewrite E1.
    - right. apply writable_readable. intros k Hk. apply Hacc. lia. }
  split; [done|]. rewrite Hs. simpl. rewrite <- Hlen. apply ints_at_bytes.
  - unfold info_ids. apply Forall_app. split; [|apply Forall_replicate; unfold INT_MIN, INT_MAX; lia].
    eapply Forall_impl; [exact Hi|]. unfold INT_MIN, INT_MAX. simpl. lia.
  - by rewrite Hlen, <- Hlen4.
Qed.

(** A buffer that can not be written in full. *)
Lemma info_unwritable num eventIDs a um :
  eventIDs <> NULL -> ~ writable um eventIDs (4 * Z.to_nat num) -> (spec_info num eventIDs a um).1 = -1.
Proof.
  intros Hnn Hw. unfold spec_info. destruct (Z.eqb_spec eventIDs NULL); [done|].
  destruct (Z.ltb_spec num 0); [done|]. destruct (bool_decide _); [|done].
  destruct (Z.ltb_spec num (Z.of_nat (length a))); [done|]. cbn [orb negb].
  destruct (Z.eqb_spec (copy_out eventIDs (concat (le32 <$> info_ids num a)) um).1 0) as [E|]; [|done].
  exfalso. apply copy_out_ok in E. rewrite info_bytes in E by lia. done.
Qed.
