(* ===== verification/EventSystem.v ===== *)
(** Tasks that make event system calls, as a transition system.

    A system state is the kernel state together with the tasks that are
    inside [wait_event_interruptible], each with its event and program point,
    and the tasks that are inside another part of a call, each with the steps
    it still has to make.  An action begins a call, makes one step of a task,
    or sends a task a signal; so the critical sections and the unlocked
    accesses of any number of calls and waits interleave in every order.

    [Inv] is the invariant of the kernel state and the waiting tasks; this
    file shows that the steps of waiting tasks and signals keep it.  File
    [EventCalls] adds the calls. *)
From S2P Require Import Prelude ListHead KState UserMem WaitQueue Events EventSpec EventRefine EventUser.

Abbreviation waiting := (gmap positive (evptr * wait_pc)).

(** A call that is under way. *)
Inductive call : Type :=
  | CReturns (p : prog kstate Z)
  | CWaits (p : prog kstate wait_outcome).

Record esys : Type := mk_esys { ks : kstate; ws : waiting; cs : gmap positive call }.

Inductive request : Type :=
  | ROpen (m : option junk)
  | RClose (eventID : Z)
  | RSig (eventID : Z)
  | RChown (eventID UID GID : Z)
  | RChmod (eventID UIDFlag GIDFlag : Z)
  | RStat (eventID UID GID UIDFlag GIDFlag : Z)
  | RInfo (num eventIDs : Z)
  | RWait (eventID : Z).

Inductive action : Type :=
  | ABegin (cur : positive) (r : request)
  | AStep (cur : positive)
  | ASignal (p : positive).

(** The task that acts. *)
Definition actor (act : action) : positive :=
  match act with ABegin c _ | AStep c | ASignal c => c end.

#[global] Instance action_step_dec act cur : Decision (act = AStep cur).
Proof.
  destruct act as [c r|c|c]; [by right| |by right].
  destruct (decide (c = cur)) as [->|]; [by left|right; congruence].
Defined.

Section System.
  Context (vla_ok : Z -> bool).

Definition handler (cur : positive) (r : request) : call :=
  match r with
  | ROpen m => CReturns (sys_doeventopen cur m)
  | RClose eventID => CReturns (sys_doeventclose cur eventID)
  | RSig eventID => CReturns (sys_doeventsig cur eventID)
  | RChown eventID UID GID => CReturns (sys_doeventchown cur eventID UID GID)
  | RChmod eventID uf gf => CReturns (sys_doeventchmod cur eventID uf gf)
  | RStat eventID p1 p2 p3 p4 => CReturns (sys_doeventstat eventID p1 p2 p3 p4)
  | RInfo num p => CReturns (sys_doeventinfo vla_ok num p)
  | RWait eventID => CWaits (sys_doeventwait cur eventID)
  end.

(** One step of a call. *)
Definition call_step (c : call) : M kstate call := fun s =>
  match c with
  | CReturns (Step _ m) => match m s with Ok (p, s') => Ok (CReturns p, s') | Err f => Err f end
  | CWaits (Step _ m) => match m s with Ok (p, s') => Ok (CWaits p, s') | Err f => Err f end
  | _ => Ok (c, s)
  end.

(** What becomes of a task whose call has got to [c]: a call that has no step
    left returns its value, or goes on to wait; a task that stays in the
    kernel gives 0. *)
Definition settle (cur : positive) (c : call) (s : kstate) (st : esys) : Z * esys :=
  match c with
  | CReturns (Done v) | CWaits (Done (WReturn v)) => (v, mk_esys s (ws st) (delete cur (cs st)))
  | CWaits (Done (WWait p)) => (0, mk_esys s (<[cur := (p, WEnter)]> (ws st)) (delete cur (cs st)))
  | _ => (0, mk_esys s (ws st) (<[cur := c]> (cs st)))
  end.

(** One step of a waiting task. *)
Definition wait_exec (cur : positive) (s : kstate) (W : waiting) : res (Z * (kstate * waiting)) :=
  match W !! cur with
  | None => Ok (0, (s, W))
  | Some (p, pc) =>
      match wait_step cur p pc s with
      | Ok (None, s') => Ok (0, (s', W))
      | Ok (Some (WOut r), s') => Ok (wait_result r, (s', delete cur W))
      | Ok (Some pc', s') => Ok (0, (s', <[cur := (p, pc')]> W))
      | Err f => Err f
      end
  end.

Definition exec (act : action) (st : esys) : res (Z * esys) :=
  match act with
  | ABegin cur r => Ok (settle cur (handler cur r) (ks st) st)
  | AStep cur =>
      match cs st !! cur with
      | Some c => match call_step c (ks st) with
                  | Ok (c', s') => Ok (settle cur c' s' st)
                  | Err f => Err f
                  end
      | None => match wait_exec cur (ks st) (ws st) with
                | Ok (r, (s', W')) => Ok (r, mk_esys s' W' (cs st))
                | Err f => Err f
                end
      end
  | ASignal p =>
      match signal_wake_up p (ks st) with
      | Ok (_, s') => Ok (0, mk_esys s' (ws st) (cs st))
      | Err f => Err f
      end
  end.

(** A sequence of actions; the result is that of the last. *)
Fixpoint exec_all (acts : list action) (st : esys) : res (Z * esys) :=
  match acts with
  | [] => Ok (0, st)
  | act :: acts =>
      match exec act st with
      | Ok (r, st') => match acts with [] => Ok (r, st') | _ => exec_all acts st' end
      | Err f => Err f
      end
  end.

(** ** The rules for callers *)

(** What the next step of a call does. *)
Definition next_label (c : call) : label :=
  match c with
  | CReturns (Step l _) | CWaits (Step l _) => l
  | _ => Quiet
  end.

(** The call is about to follow its pointer to event [e]. *)
Definition holds (c : call) (e : positive) : Prop :=
  next_label c = Uses (Ptr e) \/ next_label c = Clears (Ptr e) \/ next_label c = Removes (Ptr e).

(** Task [t] waits on event [e] or holds a pointer to it. *)
Definition uses (st : esys) (t e : positive) : Prop :=
  (exists pc, ws st !! t = Some (Ptr e, pc)) \/ (exists c, cs st !! t = Some c /\ holds c e).

(** The event list is not empty. *)
Definition some_event (s : kstate) : Prop := nxt (cells s) Call <> Some Call.

(** When task [cur] may make a step with label [l]: a new event lies in free
    memory; a new event goes on the list before the ids are used up; an event
    is taken off the list only when no other task waits on it or holds a
    pointer to it; the calls that read an uninitialised pointer look for their
    event only when there are events; there are not too many events to count.
    All other steps may be made at any time. *)
Definition step_allowed (cur : positive) (l : label) (st : esys) : Prop :=
  match l with
  | Allocates e => events (ks st) !! e = None
  | Links _ => forall e ev, events (ks st) !! e = Some ev -> id ev < INT_MAX
  | Removes (Ptr e) => forall t, t <> cur -> ~ uses st t e
  | Searches => some_event (ks st)
  | Counts => Z.of_nat (size (events (ks st))) <= INT_MAX
  | _ => True
  end.

(** Calls begin in tasks that run and are not inside a call or a wait, and the
    array of [sys_doeventinfo] fits the stack. *)
Definition allowed (act : action) (st : esys) : Prop :=
  is_Some (tasks (ks st) !! actor act) /\
  match act with
  | ABegin cur r =>
      ws st !! cur = None /\ cs st !! cur = None /\ on_rq <$> tasks (ks st) !! cur = Some true /\
      match r with RInfo num _ => vla_ok num = true | _ => True end
  | AStep cur => forall c, cs st !! cur = Some c -> step_allowed cur (next_label c) st
  | ASignal _ => True
  end.

(** The rules as a test that can be run. *)
Definition holdsb (c : call) (e : positive) : bool :=
  match next_label c with
  | Uses (Ptr f) | Clears (Ptr f) | Removes (Ptr f) => bool_decide (f = e)
  | _ => false
  end.
Definition usesb (st : esys) (t e : positive) : bool :=
  match ws st !! t with Some (Ptr f, _) => bool_decide (f = e) | _ => false end ||
  match cs st !! t with Some c => holdsb c e | None => false end.
Definition others_use (st : esys) (cur e : positive) : list positive :=
  List.filter (fun t => negb (bool_decide (t = cur)) && usesb st t e)
    (elements (dom (ws st) ∪ dom (cs st))).
Definition step_allowedb (cur : positive) (l : label) (st : esys) : bool :=
  match l with
  | Allocates e => bool_decide (events (ks st) !! e = None)
  | Links _ => forallb (fun p => id p.2 <? INT_MAX) (map_to_list (events (ks st)))
  | Removes (Ptr e) => bool_decide (others_use st cur e = [])
  | Searches => bool_decide (nxt (cells (ks st)) Call <> Some Call)
  | Counts => Z.of_nat (size (events (ks st))) <=? INT_MAX
  | _ => true
  end.
Definition allowedb (act : action) (st : esys) : bool :=
  match tasks (ks st) !! actor act with
  | None => false
  | Some t =>
      match act with
      | ABegin cur r =>
          bool_decide (ws st !! cur = None) && match cs st !! cur with None => true | _ => false end && on_rq t &&
          match r with RInfo num _ => vla_ok num | _ => true end
      | AStep cur => match cs st !! cur with Some c => step_allowedb cur (next_label c) st | None => true end
      | ASignal _ => true
      end
  end.

Lemma usesb_complete st t e : uses st t e -> usesb st t e = true /\ t ∈ elements (dom (ws st) ∪ dom (cs st)).
Proof.
  rewrite elem_of_elements, elem_of_union, !elem_of_dom. unfold usesb. intros [[pc Hpc]|(c & Hc & Hh)].
  - rewrite Hpc. split; [|left; by eexists]. by rewrite bool_decide_true.
  - rewrite Hc. split; [|right; by eexists]. unfold holdsb.
    destruct Hh as [Hh|[Hh|Hh]]; rewrite Hh, bool_decide_true by done; apply orb_true_r.
Qed.

Lemma step_allowedb_sound cur l st : step_allowedb cur l st = true -> step_allowed cur l st.
Proof.
  destruct l as [|e|e|p|p|p|p| |]; simpl; try done.
  - apply bool_decide_eq_true_1.
  - rewrite forallb_forall. intros Hf e' ev He. apply elem_of_map_to_list, list_elem_of_In in He.
    specialize (Hf _ He). simpl in Hf. lia.
  - destruct p; try done. intros Hn%bool_decide_eq_true_1 t Hne Hu. apply usesb_complete in Hu as [Hu Hin].
    assert (Ht : t ∈ others_use st cur e); [|rewrite Hn in Ht; by apply elem_of_nil in Ht].
    unfold others_use. rewrite list_elem_of_In, filter_In, <- list_elem_of_In. split; [done|].
    by rewrite bool_decide_false, Hu.
  - apply bool_decide_eq_true_1.
  - lia.
Qed.

Lemma allowedb_sound act st : allowedb act st = true -> allowed act st.
Proof.
  unfold allowedb, allowed. destruct (tasks (ks st) !! actor act) as [t|] eqn:Ht; [|done]. intros Ha.
  split; [by eexists|]. destruct act as [cur r|cur|p]; simpl in Ht; [|intros c Hc; rewrite Hc in Ha; by apply step_allowedb_sound|done].
  rewrite !andb_true_iff in Ha. destruct Ha as [[[H1 H2] H3] H4]. apply bool_decide_eq_true_1 in H1.
  rewrite Ht. simpl. rewrite H3. destruct (cs st !! cur); [done|]. split_and!; try done. by destruct r.
Qed.
End System.

(** ** The invariant *)
(** A waiting task waits on an event of the list.  Once it has set up its
    wait entry, the entry is either on the queue of that event or on none. *)
Definition thread_ok (s : kstate) (a : list aevent) (t : positive) (p : evptr) (pc : wait_pc) : Prop :=
  exists x, x ∈ a /\ p = Ptr (a_addr x) /\ is_Some (tasks s !! t) /\
    match pc with
    | WEnter => t ∉ others a
    | WOut _ => False
    | _ => own_entry s t /\ (t ∈ a_waiters x \/ (t ∉ others a /\ is_list (cells s) (Cw t) []))
    end.

(** A task that has queued itself stays queued until it is woken, and a task
    that does not run is on a queue and can be woken: no signal can miss it. *)
Definition sleep_ok (a : list aevent) (t : positive) (pc : wait_pc) (tk : task_struct) : Prop :=
  match pc with
  | WCheck | WSchedule =>
      on_rq tk = true /\ t ∈ others a /\ (state tk = TASK_RUNNING \/ state tk = TASK_INTERRUPTIBLE)
  | WAsleep => on_rq tk = false -> t ∈ others a /\ state tk = TASK_INTERRUPTIBLE
  | _ => on_rq tk = true
  end.

Record Inv (s : kstate) (W : waiting) (a : list aevent) : Prop := {
  inv_rep : rep s a;
  inv_ids : ids_ok a;
  inv_thr : forall t p pc, W !! t = Some (p, pc) -> thread_ok s a t p pc;
  inv_wait : forall x w, x ∈ a -> w ∈ a_waiters x -> exists pc, W !! w = Some (Ptr (a_addr x), pc);
  inv_sleep : forall t p pc tk, W !! t = Some (p, pc) -> tasks s !! t = Some tk -> sleep_ok a t pc tk;
}.

(** What may happen to another task: it stays as it is, or it is woken; only
    a task that is woken leaves its queue. *)
Definition runs_on (s : kstate) (a a' : list aevent) (t : positive) (tk' : task_struct) : Prop :=
  exists tk, tasks s !! t = Some tk /\
    (on_rq tk = true \/ on_rq tk' = false -> on_rq tk' = on_rq tk /\ (t ∈ others a -> t ∈ others a')) /\
    (state tk' = state tk \/ (state tk' = TASK_RUNNING /\ on_rq tk' = true)).

Lemma runs_on_same s a a' t tk :
  tasks s !! t = Some tk -> (t ∈ others a -> t ∈ others a') -> runs_on s a a' t tk.
Proof. intros. exists tk. split; [done|]. split; [done|by left]. Qed.

Lemma sleep_ok_runs s a a' t pc tk' :
  runs_on s a a' t tk' -> (forall tk, tasks s !! t = Some tk -> sleep_ok a t pc tk) ->
  sleep_ok a' t pc tk'.
Proof.
  intros (tk & Ht & Hr & Hst) Hs. specialize (Hs tk Ht).
  destruct pc; simpl in *; destruct (on_rq tk), (on_rq tk'); intuition congruence.
Qed.

(** An action of task [cur] keeps the invariant when it keeps the entries of
    all other tasks and [cur] itself is fine afterwards. *)
Lemma inv_update s W a s' W' a' cur :
  Inv s W a -> rep s' a' -> ids_ok a' ->
  (forall t, t <> cur -> W' !! t = W !! t) ->
  (forall x t pc, x ∈ a -> t <> cur -> W !! t = Some (Ptr (a_addr x), pc) ->
     exists x', x' ∈ a' /\ a_addr x' = a_addr x) ->
  (forall t, is_Some (tasks s !! t) -> is_Some (tasks s' !! t)) ->
  (forall t, t <> cur -> own_entry s t -> own_entry s' t) ->
  (forall t, t <> cur -> t ∉ others a' -> t ∈ others a \/ is_list (cells s) (Cw t) [] ->
     is_list (cells s') (Cw t) []) ->
  (forall x' w, x' ∈ a' -> w ∈ a_waiters x' -> w <> cur ->
     exists x, x ∈ a /\ a_addr x = a_addr x' /\ w ∈ a_waiters x) ->
  (forall t tk', t <> cur -> tasks s' !! t = Some tk' -> runs_on s a a' t tk') ->
  match W' !! cur with
  | None => cur ∉ others a'
  | Some (p, pc) => thread_ok s' a' cur p pc /\
      (forall x', x' ∈ a' -> cur ∈ a_waiters x' -> p = Ptr (a_addr x')) /\
      (forall tk, tasks s' !! cur = Some tk -> sleep_ok a' cur pc tk)
  end ->
  Inv s' W' a'.
Proof.
  intros HI Hr Hi HW Hev Ht Hown Hoff Hw Hrun Hcur. split; [done|done| | |].
  - intros t p pc Hl. destruct (decide (t = cur)) as [->|Hne]; [by rewrite Hl in Hcur; destruct Hcur|].
    rewrite HW in Hl by done. destruct (inv_thr _ _ _ HI _ _ _ Hl) as (x & Hx & -> & Htk & Hpc).
    destruct (decide (t ∈ others a')) as [Hin|Hnin].
    + apply elem_of_others in Hin as (y' & Hy' & Hty').
      destruct (Hw _ _ Hy' Hty' Hne) as (y & Hy & Heq & Hty).
      destruct (inv_wait _ _ _ HI _ _ Hy Hty) as [pc' Hl'].
      assert (t ∈ others a) by (apply elem_of_others; eauto).
      exists y'. split; [done|]. split; [congruence|]. split; [auto|].
      destruct pc; try done; destruct Hpc as [? _]; split; auto.
    + destruct (Hev _ _ _ Hx Hne Hl) as (x' & Hx' & Heq). exists x'.
      split; [done|]. split; [congruence|]. split; [auto|].
      destruct pc; try done; destruct Hpc as [Ho Hpc]; (split; [by apply Hown|right]); (split; [done|]);
        apply Hoff; try done; destruct Hpc as [Hpc|[_ Hpc]]; auto; left; apply elem_of_others; eauto.
  - intros x' w Hx' Hwx. destruct (decide (w = cur)) as [->|Hne].
    + destruct (W' !! cur) as [[p pc]|].
      * destruct Hcur as (_ & Hp & _). exists pc. by rewrite (Hp _ Hx' Hwx).
      * exfalso. apply Hcur, elem_of_others. eauto.
    + destruct (Hw _ _ Hx' Hwx Hne) as (x & Hx & <- & Hin). rewrite HW by done.
      by apply (inv_wait _ _ _ HI).
  - intros t p pc tk' Hl Htk. destruct (decide (t = cur)) as [->|Hne].
    + rewrite Hl in Hcur. by apply Hcur.
    + rewrite HW in Hl by done. eapply sleep_ok_runs; [by apply Hrun|]. intros tk. by eapply (inv_sleep _ _ _ HI).
Qed.

Lemma inv_idle s W a t : Inv s W a -> W !! t = None -> t ∉ others a.
Proof.
  intros HI Hn (x & Hx & Hw)%elem_of_others. destruct (inv_wait _ _ _ HI _ _ Hx Hw). congruence.
Qed.

(** ** What a step changes *)

Definition running (s : kstate) (t : positive) : Prop := on_rq <$> tasks s !! t = Some true.
Definition awake (s : kstate) (t : positive) : Prop := state <$> tasks s !! t = Some TASK_RUNNING.
Definition cond_set (s : kstate) (e : positive) : Prop :=
  exists ev, events s !! e = Some ev /\ condition ev <> 0.

(** What a step with label [l] can do to the other tasks, to the event list
    and to the conditions; [o] is the task that steps, when it may stop
    running. *)
Record effect (l : label) (o : option positive) (s : kstate) (a : list aevent)
    (s' : kstate) (a' : list aevent) : Prop := {
  eff_cpu : same_cpu s s';
  eff_run : forall t, o <> Some t -> running s t -> running s' t;
  eff_awake : forall t, o <> Some t -> awake s t -> awake s' t;
  eff_in : forall e, e ∈ a_addr <$> a -> l <> Removes (Ptr e) -> e ∈ a_addr <$> a';
  eff_out : forall e, e ∈ a_addr <$> a' -> e ∈ a_addr <$> a \/ l = Links e;
  eff_placed : forall e, placed s e -> l <> Frees (Ptr e) -> placed s' e;
  eff_cond : forall e, l <> Clears (Ptr e) -> l <> Removes (Ptr e) -> e ∈ a_addr <$> a ->
    cond_set s e -> cond_set s' e;
}.

(** A step that leaves the events and the other tasks alone. *)
Lemma effect_quiet l cur s a s' a' :
  same_cpu s s' -> events s' = events s -> (forall t, t <> cur -> tasks s' !! t = tasks s !! t) ->
  (forall c, (forall w, c <> Cw w) -> is_Some (cells s !! c) -> is_Some (cells s' !! c)) ->
  a_addr <$> a' = a_addr <$> a -> effect l (Some cur) s a s' a'.
Proof.
  intros Hcpu He Ht Hc Ha. split; [done| | |by rewrite Ha|rewrite Ha; by left| |].
  - intros t Hn. unfold running. rewrite Ht; [done|congruence].
  - intros t Hn. unfold awake. rewrite Ht; [done|congruence].
  - intros e (? & ? & ?) _. split; [by rewrite He|]. split; by apply Hc.
  - intros e _ _ _. unfold cond_set. by rewrite He.
Qed.

Lemma effect_refl l o s a : effect l o s a s a.
Proof. split; try done. by left. Qed.

(** ** Steps of calls *)

Lemma inv_call s W a s' a' cur :
  Inv s W a -> W !! cur = None -> rep s' a' -> ids_ok a' -> keeps s a s' ->
  (forall t, is_Some (tasks s !! t) -> is_Some (tasks s' !! t)) ->
  (forall t tk', t <> cur -> tasks s' !! t = Some tk' -> runs_on s a a' t tk') ->
  (forall x t pc, x ∈ a -> W !! t = Some (Ptr (a_addr x), pc) ->
     exists x', x' ∈ a' /\ a_addr x' = a_addr x) ->
  (forall w, w ∈ others a -> w ∉ others a' -> is_list (cells s') (Cw w) []) ->
  (forall x' w, x' ∈ a' -> w ∈ a_waiters x' -> exists x, x ∈ a /\ a_addr x = a_addr x' /\ w ∈ a_waiters x) ->
  Inv s' W a'.
Proof.
  intros HI Hn Hr Hi [Ko Kf] Ht Hrun Hev Hoff Hw.
  apply (inv_update s W a s' W a' cur); try done.
  - intros x t pc Hx _. by apply Hev.
  - intros t _. by apply Ko.
  - intros t _ Hn' [Hin|Hl]; [by apply Hoff|]. destruct (decide (t ∈ others a)); [by apply Hoff|by apply Kf].
  - intros x' w Hx' Hwx _. by apply Hw.
  - rewrite Hn. intros (x' & Hx' & Hwx)%elem_of_others. destruct (Hw _ _ Hx' Hwx) as (x & Hx & _ & Hin).
    apply (inv_idle _ _ _ _ HI Hn), elem_of_others. eauto.
Qed.

(** A call whose outcome keeps addresses and waiters. *)
Lemma inv_same s W a s' a' cur :
  Inv s W a -> W !! cur = None -> rep s' a' -> keeps s a s' -> tasks s' = tasks s ->
  a_id <$> a' = a_id <$> a -> a_addr <$> a' = a_addr <$> a -> a_waiters <$> a' = a_waiters <$> a ->
  Inv s' W a'.
Proof.
  intros HI Hn Hr Hk Ht Eid Ead Ew.
  assert (Hcor : forall b b' : list aevent, a_addr <$> b' = a_addr <$> b -> a_waiters <$> b' = a_waiters <$> b ->
    forall x, x ∈ b -> exists x', x' ∈ b' /\ a_addr x' = a_addr x /\ a_waiters x' = a_waiters x).
  { clear. induction b as [|y b IH]; intros [|y' b'] E1 E2 x Hx; try done; [by apply elem_of_nil in Hx|].
    injection E1 as Ha E1. injection E2 as Hw E2. apply elem_of_cons in Hx as [->|Hx].
    - exists y'. split; [left|done].
    - destruct (IH b' E1 E2 x Hx) as (x' & ? & ?). exists x'. split; [by right|done]. }
  apply (inv_call s W a s' a' cur); try done.
  - eapply ids_ok_same; [exact Eid|apply HI].
  - by rewrite Ht.
  - intros t tk' _ Htk. rewrite Ht in Htk. apply runs_on_same; [done|]. unfold others. by rewrite Ew.
  - intros x _ _ Hx _. destruct (Hcor a a' Ead Ew x Hx) as (x' & ? & ? & _). eauto.
  - unfold others. rewrite Ew. done.
  - intros x' w Hx' Hw. destruct (Hcor a' a (eq_sym Ead) (eq_sym Ew) x' Hx') as (x & ? & ? & E).
    exists x. rewrite E. done.
Qed.

Lemma on_event_fields eventID f a :
  (forall ev, id (f ev) = id ev) ->
  a_id <$> on_event eventID (map_ev f) a = a_id <$> a /\
  a_addr <$> on_event eventID (map_ev f) a = a_addr <$> a /\
  a_waiters <$> on_event eventID (map_ev f) a = a_waiters <$> a.
Proof.
  intros Hf. unfold on_event. induction a as [|x a (E1 & E2 & E3)]; [done|].
  rewrite !fmap_cons, E1, E2, E3. destruct (a_id x =? eventID); [|done].
  unfold a_id at 1. simpl. by rewrite Hf.
Qed.

Lemma some_event_ne s a : rep s a -> some_event s -> a <> [].
Proof.
  intros Hr Hs ->. apply Hs. destruct (is_list_ends _ _ _ (rep_list _ _ Hr)) as [Hn _]. done.
Qed.

Lemma rep_user s a um : rep s a -> rep (set_user um s) a.
Proof.
  intros Hr. split; try apply Hr. eapply Forall_impl; [apply (rep_events _ _ Hr)|].
  intros x [? ? ? Ho]. by split.
Qed.

Lemma last_id_event s a :
  rep s a -> (forall e ev, events s !! e = Some ev -> id ev < INT_MAX) -> last_id a < INT_MAX.
Proof.
  intros Hr Hb. unfold last_id. destruct a as [|x a _] using rev_ind; [done|].
  rewrite last_snoc. simpl. pose proof (rep_event_ev _ _ Hr) as Hev.
  apply Forall_app in Hev as [_ Hev]. apply Forall_cons in Hev as [Hx _]. by apply (Hb _ _ Hx).
Qed.

Lemma wake_tasks_some mask ws ts t :
  NoDup ws -> is_Some (ts !! t) -> is_Some (wake_tasks mask ws ts !! t).
Proof.
  intros Hnd Hs. rewrite wake_tasks_lookup by done. case_decide; [|done]. by rewrite fmap_is_Some.
Qed.

(** There are no more events on the list than in memory. *)
Lemma rep_size s a : rep s a -> (length a <= size (events s))%nat.
Proof.
  intros Hr. destruct (rep_list _ _ Hr) as [Hnd _]. apply NoDup_cons in Hnd as [_ Hnd].
  apply NoDup_fmap_1 in Hnd. rewrite <- (length_fmap a_addr), <- size_dom.
  rewrite <- (size_list_to_set (C := gset positive) _ Hnd). apply subseteq_size.
  intros e He%elem_of_list_to_set. apply elem_of_dom.
  apply list_elem_of_fmap in He as (x & -> & Hx). pose proof (rep_event_ev _ _ Hr) as Hev.
  rewrite Forall_forall in Hev. rewrite (Hev x Hx). by eexists.
Qed.

(** ** Waiting *)

Lemma rep_frame s s' a :
  rep s a -> events s' = events s -> qlocks s' = qlocks s -> lock s' = lock s ->
  allevents_id s' = allevents_id s ->
  (forall c, (forall w, c = Cw w -> w ∈ others a) -> cells s' !! c = cells s !! c) ->
  (forall w, w ∈ others a -> own_entry s w -> own_entry s' w) -> rep s' a.
Proof.
  intros Hr He Hq Hl Hid Hc Ho. split.
  - eapply is_list_ext; [apply (rep_list _ _ Hr)|]. intros y Hy. apply Hc. intros w ->. cell_cases.
  - apply Forall_forall. intros x Hx. pose proof (rep_events _ _ Hr) as Hall.
    rewrite Forall_forall in Hall. destruct (Hall x Hx) as [E1 E2 E3 E4].
    split; [by rewrite He| |by rewrite Hq|].
    + eapply is_list_ext; [exact E2|]. intros y Hy. apply Hc. intros w ->. cell_cases.
      apply elem_of_others. eauto.
    + rewrite Forall_forall in E4 |- *. intros w Hw. apply Ho; [|by apply E4]. apply elem_of_others. eauto.
  - apply Hr.
  - by rewrite Hl, (rep_lock _ _ Hr).
  - by rewrite Hid, (rep_all _ _ Hr).
Qed.

(** The state of [cur] after a step. *)
Definition cur_ok (s : kstate) (W : waiting) (a : list aevent) (x : aevent) (cur : positive) : Prop :=
  match W !! cur with
  | None => cur ∉ others a
  | Some (p, pc) => p = Ptr (a_addr x) /\ thread_ok s a cur p pc /\
      (forall tk, tasks s !! cur = Some tk -> sleep_ok a cur pc tk)
  end.

(** A step of [cur], which waits on [x], leaves the entries of all other
    tasks alone. *)
Lemma inv_wait_step s W a1 x a2 s' W' x' cur :
  Inv s W (a1 ++ x :: a2) -> rep s' (a1 ++ x' :: a2) ->
  a_id x' = a_id x -> a_addr x' = a_addr x -> cur ∉ others (a1 ++ a2) ->
  (forall t, t <> cur -> t ∈ a_waiters x' <-> t ∈ a_waiters x) ->
  (forall t, t <> cur -> W' !! t = W !! t) ->
  (forall t, t <> cur -> tasks s' !! t = tasks s !! t) -> is_Some (tasks s' !! cur) ->
  (forall t, t <> cur -> waits s' !! t = waits s !! t) ->
  (forall t, t <> cur -> t ∉ others (a1 ++ x :: a2) -> cells s' !! Cw t = cells s !! Cw t) ->
  cur_ok s' W' (a1 ++ x' :: a2) x' cur ->
  Inv s' W' (a1 ++ x' :: a2).
Proof.
  intros HI Hr Hid Had Hn Hw HW Ht Hcs Hws Hc Hcur.
  apply (inv_update s W (a1 ++ x :: a2) s' W' _ cur HI Hr); try done.
  - eapply ids_ok_same; [|apply HI]. by rewrite !fmap_app, !fmap_cons, Hid.
  - intros y _ _ [Hy|[->|Hy]%elem_of_cons]%elem_of_app _ _.
    + exists y. split; [set_solver +Hy|done].
    + exists x'. split; [set_solver +|done].
    + exists y. split; [set_solver +Hy|done].
  - intros t. destruct (decide (t = cur)) as [->|Hne]; [done|by rewrite Ht].
  - intros t Hne [Hwt Htk]. split; [by rewrite Hws|by rewrite Ht].
  - intros t Hne Hnt Hor. assert (Hnt' : t ∉ others (a1 ++ x :: a2)).
    { rewrite elem_of_others_mid in Hnt |- *. rewrite <- Hw by done. done. }
    destruct Hor as [?|Hl]; [done|]. eapply single_ext; [|exact Hl]. by apply Hc.
  - intros y w [Hy|[->|Hy]%elem_of_cons]%elem_of_app Hwy Hne.
    + exists y. split; [set_solver +Hy|done].
    + exists x. split; [set_solver +|]. by rewrite <- Hw.
    + exists y. split; [set_solver +Hy|done].
  - intros t tk' Hne Htk. rewrite Ht in Htk by done. apply runs_on_same; [done|].
    rewrite !elem_of_others_mid, Hw by done. done.
  - unfold cur_ok in Hcur. destruct (W' !! cur) as [[p pc]|]; [|done].
    destruct Hcur as (-> & Hok & Hsl). split; [done|]. split; [|done]. intros y Hy Hcy. f_equal.
    apply elem_of_app in Hy as [Hy|[->|Hy]%elem_of_cons]; [|done|];
      exfalso; apply Hn, elem_of_others; exists y; (split; [set_solver +Hy|done]).
Qed.

(** The outcome of a step of a waiting task. *)
Definition step_ok (s : kstate) (W : waiting) (a : list aevent) (cur : positive) : Prop :=
  exists r s' W' a', wait_exec cur s W = Ok (r, (s', W')) /\ Inv s' W' a' /\
    effect Quiet (Some cur) s a s' a' /\ forall t, t <> cur -> W' !! t = W !! t.

Lemma set_tasks_id s cur t : tasks s !! cur = Some t -> set_tasks (<[cur := t]> (tasks s)) s = s.
Proof. intros Ht. rewrite (insert_id _ _ _ Ht). by destruct s. Qed.

(** What [schedule] makes of the task that calls it. *)
Definition scheduled (t : task_struct) : task_struct :=
  if state t =? 0 then t
  else mk_task (if signal_pending_state (state t) t then TASK_RUNNING else state t)
         (if signal_pending_state (state t) t then on_rq t else false) (sigpending t) (euid t) (egid t).

Section Step.
  Context (s : kstate) (W : waiting) (a1 : list aevent) (x : aevent) (a2 : list aevent).
  Context (cur : positive) (t : task_struct).
  Hypothesis HI : Inv s W (a1 ++ x :: a2).
  Hypothesis Ht : tasks s !! cur = Some t.

Lemma x_event : rep_event s x.
Proof.
  pose proof (rep_events _ _ (inv_rep _ _ _ HI)) as Hall. apply Forall_app in Hall as [_ Hall].
  by apply Forall_cons in Hall as [? _].
Qed.

Lemma cur_elsewhere pc : W !! cur = Some (Ptr (a_addr x), pc) -> cur ∉ others (a1 ++ a2).
Proof.
  intros Hpc (y & Hy & Hin)%elem_of_others.
  destruct (inv_wait _ _ _ HI y cur) as [pc' Hpc']; [set_solver +Hy|done|].
  rewrite Hpc in Hpc'. injection Hpc' as Heq _. by apply (rep_addr_ne _ _ _ _ _ (inv_rep _ _ _ HI) Hy).
Qed.

(** A step that changes neither the cells nor the entries: the task itself
    and its program point. *)
Lemma step_task pc pc' t' :
  W !! cur = Some (Ptr (a_addr x), pc) ->
  match pc with WEnter | WOut _ => False | _ => True end ->
  match pc' with WEnter | WOut _ => False | _ => True end -> sleep_ok (a1 ++ x :: a2) cur pc' t' ->
  Inv (set_tasks (<[cur := t']> (tasks s)) s) (<[cur := (Ptr (a_addr x), pc')]> W) (a1 ++ x :: a2).
Proof.
  intros Hpc Hp Hp' Hsl. apply (inv_wait_step s W a1 x a2 _ _ x cur HI); try done.
  - apply (rep_frame s); try done; [apply HI|]. intros w _ [? ?]. split; [done|]. simpl.
    rewrite lookup_insert. by case_decide.
  - by eapply cur_elsewhere.
  - intros u Hu. by rewrite lookup_insert_ne.
  - intros u Hu. simpl. by rewrite lookup_insert_ne.
  - simpl. by rewrite lookup_insert_eq.
  - unfold cur_ok. rewrite lookup_insert_eq. split; [done|]. split; cycle 1.
    { intros tk. simpl. rewrite lookup_insert_eq. by intros [= <-]. }
    destruct (inv_thr _ _ _ HI _ _ _ Hpc) as (y & Hy & Heq & Hs & Hok).
    exists y. split; [done|]. split; [done|]. simpl. rewrite lookup_insert_eq. split; [done|].
    destruct pc; try done; destruct pc'; try done; destruct Hok as [[? ?] ?]; (split; [|done]);
      (split; [done|]); simpl; by rewrite lookup_insert_eq.
Qed.

(** The entry of a task that is past [DEFINE_WAIT]: queued or not. *)
Lemma entry_cases pc :
  W !! cur = Some (Ptr (a_addr x), pc) ->
  match pc with WEnter | WOut _ => False | _ => True end ->
  own_entry s cur /\
  ((exists w1 w2, a_waiters x = w1 ++ cur :: w2) \/
   (cur ∉ others (a1 ++ x :: a2) /\ is_list (cells s) (Cw cur) [])).
Proof.
  intros Hpc Hp. destruct (inv_thr _ _ _ HI _ _ _ Hpc) as (y & Hy & [= Heq] & _ & Hok).
  assert (Hor : own_entry s cur /\ (cur ∈ a_waiters y \/
    cur ∉ others (a1 ++ x :: a2) /\ is_list (cells s) (Cw cur) [])) by (by destruct pc).
  destruct Hor as [Ho [Hq|Hq]]; (split; [done|]); [left|by right].
  assert (Hyx : cur ∈ a_waiters x).
  { apply elem_of_app in Hy as [Hy|[->|Hy]%elem_of_cons]; [|done|];
      exfalso; (eapply (rep_addr_ne s a1 x a2 y); [apply HI|set_solver +Hy|done]). }
  by apply list_elem_of_split in Hyx.
Qed.

Lemma get_condition_run : get_condition (Ptr (a_addr x)) s = Ok (condition (a_ev x), s).
Proof.
  destruct x_event as [He _ _ _]. unfold get_condition.
  by rewrite (bind_ok _ _ _ _ _ (get_event_run _ _ _ He)).
Qed.

(** The three ways a step ends. *)
Lemma step_stays p pc s' a' :
  W !! cur = Some (p, pc) -> wait_step cur p pc s = Ok (None, s') -> Inv s' W a' ->
  effect Quiet (Some cur) s (a1 ++ x :: a2) s' a' -> step_ok s W (a1 ++ x :: a2) cur.
Proof. intros Hpc R Hi He. exists 0, s', W, a'. unfold wait_exec. by rewrite Hpc, R. Qed.
Lemma step_goes p pc pc' s' a' :
  W !! cur = Some (p, pc) -> wait_step cur p pc s = Ok (Some pc', s') ->
  match pc' with WOut _ => False | _ => True end -> Inv s' (<[cur := (p, pc')]> W) a' ->
  effect Quiet (Some cur) s (a1 ++ x :: a2) s' a' -> step_ok s W (a1 ++ x :: a2) cur.
Proof.
  intros Hpc R Hp Hi He. exists 0, s', (<[cur := (p, pc')]> W), a'. unfold wait_exec. rewrite Hpc, R.
  split; [by destruct pc'|]. do 2 (split; [done|]). intros u Hu. by rewrite lookup_insert_ne.
Qed.
Lemma step_leaves p pc r s' a' :
  W !! cur = Some (p, pc) -> wait_step cur p pc s = Ok (Some (WOut r), s') -> Inv s' (delete cur W) a' ->
  effect Quiet (Some cur) s (a1 ++ x :: a2) s' a' -> step_ok s W (a1 ++ x :: a2) cur.
Proof.
  intros Hpc R Hi He. exists (wait_result r), s', (delete cur W), a'. unfold wait_exec. rewrite Hpc, R.
  do 3 (split; [done|]). intros u Hu. by rewrite lookup_delete_ne.
Qed.

(** [cur] with a fresh entry, or without one after its scope has ended. *)
Lemma inv_entry (c : gmap cell (list_head cell)) ws ts W' pc :
  W !! cur = Some (Ptr (a_addr x), pc) -> cur ∉ others (a1 ++ x :: a2) ->
  (forall y, y <> Cw cur -> c !! y = cells s !! y) ->
  (forall u, u <> cur -> ws !! u = waits s !! u) ->
  (forall u, u <> cur -> ts !! u = tasks s !! u) -> is_Some (ts !! cur) ->
  (forall u, u <> cur -> W' !! u = W !! u) ->
  cur_ok (set_cells c (set_waits ws (set_tasks ts s))) W' (a1 ++ x :: a2) x cur ->
  Inv (set_cells c (set_waits ws (set_tasks ts s))) W' (a1 ++ x :: a2).
Proof.
  intros Hpc Hno Hc Hw Hts Hcur HW Hok. apply (inv_wait_step s W a1 x a2 _ _ x cur HI); try done.
  - apply (rep_frame s); try done; [apply HI| |].
    + intros y Hy. apply Hc. intros ->. by apply Hno, Hy.
    + intros w Hin [Ho ?]. assert (w <> cur) by congruence. unfold own_entry. simpl.
      by rewrite Hw, Hts.
  - by eapply cur_elsewhere.
  - intros u Hu _. apply Hc. congruence.
Qed.

Lemma step_enter : W !! cur = Some (Ptr (a_addr x), WEnter) -> step_ok s W (a1 ++ x :: a2) cur.
Proof.
  intros Hpc. destruct (inv_thr _ _ _ HI _ _ _ Hpc) as (y & Hy & _ & _ & Hno).
  assert (R : wait_step cur (Ptr (a_addr x)) WEnter s =
    (if ctrue (condition (a_ev x)) then ret (Some (WOut 0))
     else DEFINE_WAIT cur cur ;;; ret (Some WPrepare)) s).
  { cbn [wait_step]. by rewrite (bind_ok _ _ _ _ _ get_condition_run). }
  destruct (ctrue (condition (a_ev x))).
  - apply (step_leaves _ _ _ _ (a1 ++ x :: a2) Hpc R); [|apply effect_refl].
    apply (inv_wait_step s W a1 x a2 _ _ x cur HI); try done; [apply HI|by eapply cur_elsewhere| |].
    + intros u Hu. simpl. by rewrite lookup_delete_ne.
    + unfold cur_ok. simpl. by rewrite lookup_delete_eq.
  - eapply (step_goes _ _ _ _ (a1 ++ x :: a2) Hpc R); [done| |]; cycle 1.
    { apply effect_quiet; try done. intros c Hc. simpl. by rewrite lookup_insert_ne. }
    refine (inv_entry (<[Cw cur := mk_list_head (Cw cur) (Cw cur)]> (cells s))
      (<[cur := mk_wait_queue 0 cur autoremove_wake_function_p]> (waits s)) (tasks s)
      (<[cur := (Ptr (a_addr x), WPrepare)]> W) _ Hpc Hno _ _ _ _ _ _).
    + intros z Hz. by rewrite lookup_insert_ne.
    + intros u Hu. by rewrite lookup_insert_ne.
    + done.
    + by exists t.
    + intros u Hu. by rewrite lookup_insert_ne.
    + unfold cur_ok. rewrite lookup_insert_eq. split; [done|]. split; cycle 1.
      { intros tk Htk. by apply (inv_sleep _ _ _ HI _ _ _ _ Hpc). }
      exists x. split; [set_solver +|]. split; [done|]. split; [by exists t|]. split.
      * split; [|by exists t]. exists 0. split; [apply lookup_insert_eq|done].
      * right. split; [done|]. simpl. split; [apply NoDup_singleton|].
        unfold nxt, prv. simpl. unfold linked, nxt, prv. by rewrite lookup_insert_eq.
Qed.

Lemma step_check : W !! cur = Some (Ptr (a_addr x), WCheck) -> step_ok s W (a1 ++ x :: a2) cur.
Proof.
  intros Hpc.
  assert (R : exists pc', wait_step cur (Ptr (a_addr x)) WCheck s = Ok (Some pc', s) /\
    match pc' with WEnter | WOut _ => False | _ => True end /\ sleep_ok (a1 ++ x :: a2) cur pc' t).
  { destruct (inv_sleep _ _ _ HI _ _ _ _ Hpc Ht) as (Hrq & Hin & Hst).
    cbn [wait_step]. rewrite (bind_ok _ _ _ _ _ get_condition_run).
    destruct (ctrue (condition (a_ev x))); [by eexists|].
    erewrite bind_ok by (unfold signal_pending; erewrite bind_ok by (apply deref_ok, Ht); reflexivity).
    destruct (sigpending t); by eexists. }
  destruct R as (pc' & R & Hp & Hsl).
  apply (step_goes _ _ _ _ (a1 ++ x :: a2) Hpc R); [by destruct pc'| |apply effect_refl].
  pose proof (step_task _ pc' t Hpc) as Hi. rewrite (set_tasks_id _ _ _ Ht) in Hi. by apply Hi.
Qed.

Lemma schedule_run :
  wait_step cur (Ptr (a_addr x)) WSchedule s =
    Ok (Some WAsleep, set_tasks (<[cur := scheduled t]> (tasks s)) s).
Proof.
  cbn [wait_step]. unfold schedule_prev, scheduled. rewrite bind_assoc.
  erewrite bind_ok by (apply deref_ok, Ht). destruct (state t =? 0).
  - by rewrite (set_tasks_id _ _ _ Ht).
  - destruct (signal_pending_state (state t) t); [|done].
    unfold set_current_state. rewrite bind_assoc. by erewrite bind_ok by (apply deref_ok, Ht).
Qed.

Lemma step_schedule : W !! cur = Some (Ptr (a_addr x), WSchedule) -> step_ok s W (a1 ++ x :: a2) cur.
Proof.
  intros Hpc. destruct (inv_sleep _ _ _ HI _ _ _ _ Hpc Ht) as (Hrq & Hin & Hst).
  apply (step_goes _ _ _ _ (a1 ++ x :: a2) Hpc schedule_run); [done| |].
  - refine (step_task _ WAsleep _ Hpc I I _). simpl. unfold scheduled.
    destruct (Z.eqb_spec (state t) 0); [congruence|].
    destruct (signal_pending_state (state t) t); simpl; [congruence|]. intros _.
    destruct Hst; [done|by split].
  - apply effect_quiet; try done. intros u Hu. simpl. by rewrite lookup_insert_ne.
Qed.

Lemma step_asleep : W !! cur = Some (Ptr (a_addr x), WAsleep) -> step_ok s W (a1 ++ x :: a2) cur.
Proof.
  intros Hpc.
  assert (R : wait_step cur (Ptr (a_addr x)) WAsleep s =
    Ok (if on_rq t then Some WPrepare else None, s)).
  { cbn [wait_step]. erewrite bind_ok by (apply deref_ok, Ht). by destruct (on_rq t). }
  destruct (on_rq t) eqn:Hrq.
  - apply (step_goes _ _ _ _ (a1 ++ x :: a2) Hpc R); [done| |apply effect_refl].
    pose proof (step_task _ WPrepare t Hpc I I Hrq) as Hi. by rewrite (set_tasks_id _ _ _ Ht) in Hi.
  - by apply (step_stays _ _ _ (a1 ++ x :: a2) Hpc R); [|apply effect_refl].
Qed.

Lemma own_cur : own_entry s cur -> exists fl,
  waits s !! cur = Some (mk_wait_queue fl cur autoremove_wake_function_p).
Proof. intros [(fl & Hw & _) _]. eauto. Qed.

Lemma clear_exclusive fl : Z.land (Z.land fl (Z.lnot WQ_FLAG_EXCLUSIVE)) WQ_FLAG_EXCLUSIVE = 0.
Proof.
  rewrite <- Z.land_assoc, (Z.land_comm (Z.lnot _)), Z.land_lnot_diag. apply Z.land_0_r.
Qed.

(** The changes [prepare_to_wait] and [finish_wait] make to the queue. *)
Lemma inv_queue (c : gmap cell (list_head cell)) wq t' ws' pc W' :
  let s' := set_cells c (set_tasks (<[cur := t']> (tasks s)) (set_waits (<[cur := wq]> (waits s)) s)) in
  let x' := mk_aevent (a_addr x) (a_ev x) ws' in
  W !! cur = Some (Ptr (a_addr x), pc) ->
  private wq = cur -> func wq = autoremove_wake_function_p -> Z.land (flags wq) WQ_FLAG_EXCLUSIVE = 0 ->
  is_list c (Cq (Qev (a_addr x))) (Cw <$> ws') ->
  modifies (Cw cur :: Cq (Qev (a_addr x)) :: (Cw <$> a_waiters x)) (cells s) c ->
  NoDup ws' -> (forall u, u <> cur -> u ∈ ws' <-> u ∈ a_waiters x) ->
  (forall u, u <> cur -> W' !! u = W !! u) ->
  cur_ok s' W' (a1 ++ x' :: a2) x' cur ->
  Inv s' W' (a1 ++ x' :: a2).
Proof.
  intros s' x' Hpc Hpr Hfn Hfl Hl Hm Hnd Hin HW Hok. pose proof (inv_rep _ _ _ HI) as Hr.
  pose proof (cur_elsewhere _ Hpc) as Hne. destruct (rep_waiters_split _ _ _ _ Hr) as (_ & _ & Hdis).
  destruct x_event as [He _ _ Hown]. rewrite Forall_forall in Hown.
  assert (Ho : forall u, u <> cur -> own_entry s u -> own_entry s' u).
  { intros u Hu. unfold own_entry, s'. simpl. by rewrite !lookup_insert_ne. }
  assert (Hcur : own_entry s' cur).
  { destruct wq as [fl pr fn]. simpl in *. subst. split; simpl; rewrite lookup_insert_eq; [|done].
    by exists fl. }
  apply (inv_wait_step s W a1 x a2 s' W' x' cur HI); try done.
  - apply (rep_update s s' a1 x a2 (a_ev x) ws'
      (Cw cur :: Cq (Qev (a_addr x)) :: (Cw <$> a_waiters x)) Hr); try done.
    + simpl. by rewrite (insert_id _ _ _ He).
    + intros y Hy. cell_cases; [right|by left|right]; eexists; split; eauto.
    + intros w Hw. destruct (decide (w = cur)) as [->|]; [done|]. by apply Hdis, Hin.
    + apply Forall_forall. intros w Hw. destruct (decide (w = cur)) as [->|Hn]; [done|].
      apply Ho; [done|]. by apply Hown, Hin.
    + intros w Hw. apply Ho. congruence.
  - intros u Hu. simpl. by rewrite lookup_insert_ne.
  - simpl. by rewrite lookup_insert_eq.
  - intros u Hu. simpl. by rewrite lookup_insert_ne.
  - intros u Hu Hno. apply Hm. intros Hy. cell_cases. apply Hno, elem_of_others_mid. by left.
Qed.

Lemma queue_effect (c : gmap cell (list_head cell)) wq t' x' :
  (forall y, is_Some (cells s !! y) -> is_Some (c !! y)) -> a_addr x' = a_addr x ->
  effect Quiet (Some cur) s (a1 ++ x :: a2)
    (set_cells c (set_tasks (<[cur := t']> (tasks s)) (set_waits (<[cur := wq]> (waits s)) s)))
    (a1 ++ x' :: a2).
Proof.
  intros Hc Ha. apply effect_quiet; try done.
  - intros u Hu. simpl. by rewrite lookup_insert_ne.
  - intros y _. apply Hc.
  - by rewrite !fmap_app, !fmap_cons, Ha.
Qed.

(** After [prepare_to_wait] the entry is on the queue and the task is marked
    as sleeping. *)
Lemma prepare_mid :
  W !! cur = Some (Ptr (a_addr x), WPrepare) ->
  exists s1 x1, wait_step cur (Ptr (a_addr x)) WPrepare s = Ok (Some WCheck, s1) /\
    Inv s1 (<[cur := (Ptr (a_addr x), WCheck)]> W) (a1 ++ x1 :: a2) /\
    a_addr x1 = a_addr x /\ a_ev x1 = a_ev x /\ cur ∈ a_waiters x1 /\
    tasks s1 !! cur =
      Some (mk_task TASK_INTERRUPTIBLE (on_rq t) (sigpending t) (euid t) (egid t)) /\
    effect Quiet (Some cur) s (a1 ++ x :: a2) s1 (a1 ++ x1 :: a2).
Proof.
  intros Hpc. destruct (entry_cases _ Hpc I) as [Ho Hor].
  destruct (own_cur Ho) as [fl Hw]. destruct x_event as [He Hl Hq _].
  destruct (rep_waiters_split _ _ _ _ (inv_rep _ _ _ HI)) as (Hnd & _ & _).
  set (t' := mk_task TASK_INTERRUPTIBLE (on_rq t) (sigpending t) (euid t) (egid t)).
  set (wq := mk_wait_queue (Z.land fl (Z.lnot WQ_FLAG_EXCLUSIVE)) cur autoremove_wake_function_p).
  assert (R : exists c ws', wait_step cur (Ptr (a_addr x)) WPrepare s =
      Ok (Some WCheck, set_cells c (set_tasks (<[cur := t']> (tasks s))
            (set_waits (<[cur := wq]> (waits s)) s))) /\
    is_list c (Cq (Qev (a_addr x))) (Cw <$> ws') /\
    modifies (Cw cur :: Cq (Qev (a_addr x)) :: (Cw <$> a_waiters x)) (cells s) c /\
    NoDup ws' /\ cur ∈ ws' /\ forall u, u <> cur -> u ∈ ws' <-> u ∈ a_waiters x).
  { cbn [wait_step]. destruct Hor as [(w1 & w2 & Hws)|[Hno Hc]].
    - exists (cells s), (a_waiters x). split; [|split_and!; try done; rewrite Hws; set_solver +].
      rewrite Hws, fmap_app, fmap_cons in Hl. erewrite bind_ok by done.
      erewrite bind_ok; [|by eapply prepare_to_wait_queued]. reflexivity.
    - rewrite elem_of_others_mid in Hno.
      destruct (prepare_to_wait_spec cur (Qev (a_addr x)) (a_waiters x) TASK_INTERRUPTIBLE s t fl)
        as (c & R & Hl' & Hm); try done; [tauto|].
      exists c, (cur :: a_waiters x). rewrite NoDup_cons.
      split; [|split_and!; try done; [tauto|left|intros u Hu; rewrite elem_of_cons; tauto]].
      erewrite bind_ok by done. by rewrite (bind_ok _ _ _ _ _ R). }
  destruct R as (c & ws' & R & Hl' & Hm & Hnd' & Hin & Hiff).
  eexists _, (mk_aevent (a_addr x) (a_ev x) ws').
  split; [exact R|]. split; [|split_and!; try done; [simpl; by rewrite lookup_insert_eq|]]; cycle 1.
  { apply (queue_effect c wq t'); try done. apply Hm. }
  apply (inv_queue c wq t' ws' WPrepare _ Hpc); try done; [apply clear_exclusive| |].
  - intros u Hu. simpl. by rewrite lookup_insert_ne.
  - unfold cur_ok. simpl. rewrite !lookup_insert_eq. split; [done|]. split; cycle 1.
    { intros tk [= <-]. split; [apply (inv_sleep _ _ _ HI _ _ _ _ Hpc Ht)|].
      split; [apply elem_of_others_mid; by left|by right]. }
    eexists. split; [apply elem_of_app; right; left|]. split; [done|]. simpl. rewrite lookup_insert_eq.
    split; [done|]. split; [|by left]. split; simpl; rewrite lookup_insert_eq; [|done].
    eexists. split; [done|apply clear_exclusive].
Qed.

Lemma step_prepare : W !! cur = Some (Ptr (a_addr x), WPrepare) -> step_ok s W (a1 ++ x :: a2) cur.
Proof.
  intros Hpc. destruct (prepare_mid Hpc) as (s1 & x1 & R & HI1 & _ & _ & _ & _ & He).
  by apply (step_goes _ _ _ _ (a1 ++ x1 :: a2) Hpc R).
Qed.

(** The state between [finish_wait] and the end of the scope of the entry. *)
Lemma finish_mid r :
  W !! cur = Some (Ptr (a_addr x), WFinish r) ->
  exists s1 x1, wait_step cur (Ptr (a_addr x)) (WFinish r) s =
      Ok (Some (WOut r), set_cells (delete (Cw cur) (cells s1)) (set_waits (delete cur (waits s1)) s1)) /\
    Inv s1 W (a1 ++ x1 :: a2) /\ a_addr x1 = a_addr x /\ is_Some (tasks s1 !! cur) /\
    cur ∉ others (a1 ++ x1 :: a2) /\ effect Quiet (Some cur) s (a1 ++ x :: a2) s1 (a1 ++ x1 :: a2).
Proof.
  intros Hpc. destruct (entry_cases _ Hpc I) as [Ho Hor]. destruct x_event as [He Hl Hq _].
  pose proof (cur_elsewhere _ Hpc) as Hne. destruct Ho as [(fl & Hw & Hfl) _].
  destruct (rep_waiters_split _ _ _ _ (inv_rep _ _ _ HI)) as (Hnd & _ & _).
  set (t' := mk_task TASK_RUNNING (on_rq t) (sigpending t) (euid t) (egid t)).
  assert (R : exists c ws', finish_wait cur (Qev (a_addr x)) cur s =
      Ok (tt, set_cells c (set_tasks (<[cur := t']> (tasks s)) s)) /\
    is_list c (Cq (Qev (a_addr x))) (Cw <$> ws') /\ is_list c (Cw cur) [] /\
    modifies (Cw cur :: Cq (Qev (a_addr x)) :: (Cw <$> a_waiters x)) (cells s) c /\
    NoDup ws' /\ cur ∉ ws' /\ forall u, u <> cur -> u ∈ ws' <-> u ∈ a_waiters x).
  { destruct Hor as [(w1 & w2 & Hws)|[Hno Hc]].
    - rewrite Hws, fmap_app, fmap_cons in Hl.
      destruct (finish_wait_queued cur _ _ _ _ _ Hq Ht Hl) as (c & R & Hl' & Hs & Hm).
      exists c, (w1 ++ w2). rewrite Hws, <- Permutation_middle, NoDup_cons in Hnd.
      split_and!; [exact R|by rewrite fmap_app|done| |apply Hnd|apply Hnd|rewrite Hws; set_solver +].
      rewrite Hws, fmap_app, fmap_cons. eapply modifies_weaken; [exact Hm|]. set_solver +.
    - exists (cells s), (a_waiters x). rewrite elem_of_others_mid in Hno.
      rewrite (finish_wait_removed _ _ _ _ Ht Hc). split_and!; try done. tauto. }
  destruct R as (c & ws' & R & Hl' & Hs & Hm & Hnd' & Hin & Hiff).
  assert (Hno' : cur ∉ others (a1 ++ mk_aevent (a_addr x) (a_ev x) ws' :: a2)).
  { rewrite elem_of_others_mid. simpl. tauto. }
  exists (set_cells c (set_tasks (<[cur := t']> (tasks s))
    (set_waits (<[cur := mk_wait_queue fl cur autoremove_wake_function_p]> (waits s)) s))).
  exists (mk_aevent (a_addr x) (a_ev x) ws').
  split; [|split; [|split; [reflexivity|split; [simpl; by rewrite lookup_insert_eq|split; [exact Hno'|]]]]].
  3: { apply (queue_effect c _ t'); try done. apply Hm. }
  - cbn [wait_step]. erewrite bind_ok by done. rewrite (bind_ok _ _ _ _ _ R).
    rewrite (insert_id _ _ _ Hw). done.
  - apply (inv_queue c _ t' ws' _ W Hpc); try done. unfold cur_ok. rewrite Hpc. split; [done|].
    split; cycle 1.
    { intros tk. simpl. rewrite lookup_insert_eq. intros [= <-]. by apply (inv_sleep _ _ _ HI _ _ _ _ Hpc Ht). }
    eexists. split; [apply elem_of_app; right; left|]. split; [done|]. simpl. rewrite lookup_insert_eq.
    split; [done|]. split; [|by right]. split; simpl; rewrite lookup_insert_eq; [by exists fl|done].
Qed.
End Step.

Lemma step_finish s W a1 x a2 cur t r :
  Inv s W (a1 ++ x :: a2) -> tasks s !! cur = Some t ->
  W !! cur = Some (Ptr (a_addr x), WFinish r) -> step_ok s W (a1 ++ x :: a2) cur.
Proof.
  intros HI Ht Hpc.
  destruct (finish_mid s W a1 x a2 cur t HI Ht r Hpc) as (s1 & x1 & R & HI1 & Had & Ht1 & Hno & He).
  rewrite <- Had in Hpc, R. apply (step_leaves s W a1 x a2 cur _ _ _ _ (a1 ++ x1 :: a2) Hpc R); cycle 1.
  { destruct He as [E1 E2 E3 E4 E5 E6 E7]. split; try done.
    intros e Hp _. apply E6 in Hp as (? & ? & ?); [|done]. split; [done|]. simpl.
    by rewrite !lookup_delete_ne by done. }
  refine (inv_entry s1 W a1 x1 a2 cur HI1 (delete (Cw cur) (cells s1)) (delete cur (waits s1)) (tasks s1)
    (delete cur W) _ Hpc Hno _ _ _ _ _ _); try done.
  - intros y Hy. by rewrite lookup_delete_ne.
  - intros u Hu. by rewrite lookup_delete_ne.
  - intros u Hu. by rewrite lookup_delete_ne.
  - unfold cur_ok. by rewrite lookup_delete_eq.
Qed.

Lemma inv_step s W a cur :
  Inv s W a -> step_ok s W a cur.
Proof.
  intros HI. destruct (W !! cur) as [[p pc]|] eqn:Hpc; cycle 1.
  { exists 0, s, W, a. unfold wait_exec. rewrite Hpc. do 2 (split; [done|]). split; [apply effect_refl|done]. }
  destruct (inv_thr _ _ _ HI _ _ _ Hpc) as (x & Hx & -> & [t Ht] & Hok).
  apply list_elem_of_split in Hx as (a1 & a2 & ->). destruct pc.
  - by eapply step_enter.
  - by eapply step_prepare.
  - by eapply step_check.
  - by eapply step_schedule.
  - by eapply step_asleep.
  - by eapply step_finish.
  - done.
Qed.

(** A signal changes only the task that receives it. *)
Lemma inv_signal s W a p t :
  Inv s W a -> tasks s !! p = Some t ->
  let t' := mk_task (state t) (on_rq t) true (euid t) (egid t) in
  let s' := set_tasks (<[p := woken TASK_INTERRUPTIBLE t']> (tasks s)) s in
  signal_wake_up p s = Ok (tt, s') /\ Inv s' W a /\ effect Quiet None s a s' a.
Proof.
  intros HI Ht t' s'. assert (R : signal_wake_up p s = Ok (tt, s')).
  { unfold signal_wake_up. erewrite bind_ok by (apply deref_ok, Ht). erewrite bind_ok by done.
    erewrite bind_ok by (apply try_to_wake_up_run; simpl; apply lookup_insert_eq).
    unfold ret, s'. do 2 f_equal. simpl. rewrite (alter_at _ _ _ _ (lookup_insert_eq _ _ _)).
    by rewrite insert_insert_eq. }
  split; [exact R|]. clear R.
  assert (Hrun : forall u tk', tasks s' !! u = Some tk' -> runs_on s a a u tk').
  { intros u tk'. simpl. destruct (decide (u = p)) as [->|].
    - rewrite lookup_insert_eq. intros [= <-]. exists t. split; [done|].
      unfold woken. simpl. destruct (Z.land (state t) TASK_INTERRUPTIBLE =? 0); simpl; naive_solver.
    - rewrite lookup_insert_ne by done. intros Htk. by apply runs_on_same. }
  assert (Hts : forall u, is_Some (tasks s !! u) -> is_Some (tasks s' !! u)).
  { intros u Hu. simpl. rewrite lookup_insert. by case_decide. }
  assert (Ho : forall u, own_entry s u -> own_entry s' u).
  { intros u [? ?]. split; [done|]. by apply Hts. }
  split.
  - split; [|apply HI| |apply HI|].
    + apply (rep_frame s); try done; [apply HI|]. auto.
    + intros u q pc Hpc. destruct (inv_thr _ _ _ HI _ _ _ Hpc) as (x & Hx & -> & Htk & Hok).
      exists x. split; [done|]. split; [done|]. split; [by apply Hts|].
      destruct pc; try done; destruct Hok as [? ?]; (split; [by apply Ho|done]).
    + intros u q pc tk' Hpc Htk. eapply (sleep_ok_runs s a a); [|intros tk; by eapply (inv_sleep _ _ _ HI)].
      by apply Hrun.
  - split; try done; [| |by left]; intros u _; unfold running, awake; simpl;
      (destruct (decide (u = p)) as [->|]; [|by rewrite lookup_insert_ne]);
      rewrite Ht, lookup_insert_eq; unfold woken; simpl; intros [= Hs].
    + by destruct (_ =? _); simpl; rewrite ?Hs.
    + by destruct (_ =? _); simpl; rewrite ?Hs.
Qed.
