(* ===== verification/EventCalls.v ===== *)
(** The calls of the transition system of file [EventSystem].

    [SInv] adds to the invariant of the kernel state and the waiting tasks
    what is known of every call that is under way: which steps it still has
    to make, that an event it holds a pointer to is on the list, and that the
    memory of an event that is not yet on the list, or not any more, belongs
    to one call only.  The main lemma, [exec_inv], says that an allowed action
    neither faults nor loops and keeps the invariant; what the rules exclude
    are the inputs and the interleavings on which the code is wrong, file
    [EventRaces]. *)
From S2P Require Import Prelude ListHead KState UserMem WaitQueue Events EventSpec EventRefine EventUser EventSystem.

(** ** The sections of the calls *)

Lemma elem_addr_mid e a1 x x' a2 :
  a_addr x' = a_addr x -> e ∈ a_addr <$> a1 ++ x' :: a2 <-> e ∈ a_addr <$> a1 ++ x :: a2.
Proof. intros Ha. by rewrite !fmap_app, !fmap_cons, Ha. Qed.

(** A step that changes no task. *)
Lemma effect_tasks l s a s' a' :
  same_cpu s s' -> tasks s' = tasks s ->
  (forall e, e ∈ a_addr <$> a -> l <> Removes (Ptr e) -> e ∈ a_addr <$> a') ->
  (forall e, e ∈ a_addr <$> a' -> e ∈ a_addr <$> a \/ l = Links e) ->
  (forall e, placed s e -> l <> Frees (Ptr e) -> placed s' e) ->
  (forall e, l <> Clears (Ptr e) -> l <> Removes (Ptr e) -> e ∈ a_addr <$> a -> cond_set s e -> cond_set s' e) ->
  effect l None s a s' a'.
Proof. intros Hc Ht ????. split; try done; intros t _; unfold running, awake; by rewrite Ht. Qed.

(** The event a call holds a pointer to. *)
Lemma held_event (a : list aevent) e : e ∈ a_addr <$> a -> exists a1 x a2, a = a1 ++ x :: a2 /\ e = a_addr x.
Proof.
  intros (x & -> & Hx)%list_elem_of_fmap. apply list_elem_of_split in Hx as (a1 & a2 & ->). eauto.
Qed.

Lemma placed_in s a x : rep s a -> x ∈ a -> placed s (a_addr x).
Proof.
  intros Hr Hx. pose proof (rep_events _ _ Hr) as Hall. rewrite Forall_forall in Hall.
  destruct (Hall x Hx) as [He Hq _ _]. split; [by exists (a_ev x)|]. split.
  - apply (is_list_cells _ _ _ _ (rep_list _ _ Hr)). right. by do 2 apply list_elem_of_fmap_2.
  - apply (is_list_cells _ _ _ _ Hq). left.
Qed.

Lemma rep_release s a e : rep s a -> e ∉ a_addr <$> a -> rep (kfree_event e s) a.
Proof.
  intros Hr Hn. assert (Hne : forall x, x ∈ a -> e <> a_addr x).
  { intros x Hx ->. by apply Hn, list_elem_of_fmap_2. }
  split; [| |apply Hr..].
  - eapply is_list_ext; [apply (rep_list _ _ Hr)|]. intros y Hy. simpl.
    rewrite !lookup_delete_ne; [done| |]; intros <-; cell_cases. by eapply Hne.
  - apply Forall_forall. intros x Hx. pose proof (rep_events _ _ Hr) as Hall.
    rewrite Forall_forall in Hall. destruct (Hall x Hx) as [E1 E2 E3 E4]. specialize (Hne x Hx).
    split; simpl; [by rewrite lookup_delete_ne| |rewrite lookup_delete_ne; congruence|done].
    eapply is_list_ext; [exact E2|]. intros y Hy.
    rewrite !lookup_delete_ne; [done| |]; intros <-; cell_cases.
Qed.

Section Sections.
  Context (s : kstate) (W : waiting) (cur : positive).
  Hypothesis Hidle : W !! cur = None.

(** A step that changes the fields of an event and not its id. *)
Lemma inv_fields l a1 x a2 f :
  Inv s W (a1 ++ x :: a2) -> (forall ev, id (f ev) = id ev) ->
  (l <> Clears (Ptr (a_addr x)) -> condition (a_ev x) <> 0 -> condition (f (a_ev x)) <> 0) ->
  let s' := set_events (<[a_addr x := f (a_ev x)]> (events s)) s in
  Inv s' W (a1 ++ map_ev f x :: a2) /\ effect l None s (a1 ++ x :: a2) s' (a1 ++ map_ev f x :: a2).
Proof.
  intros HI Hf Hcond s'. pose proof (x_event _ _ _ _ _ HI) as [He _ _ _]. split.
  - apply (inv_same s W (a1 ++ x :: a2) s' _ cur); try done.
    + apply rep_set_fields, HI.
    + rewrite !fmap_app, !fmap_cons. unfold a_id at 2. simpl. by rewrite Hf.
    + by rewrite !fmap_app, !fmap_cons.
    + by rewrite !fmap_app, !fmap_cons.
  - apply effect_tasks; try done.
    + intros e Hin _. by rewrite (elem_addr_mid e a1 x (map_ev f x) a2).
    + intros e Hin. left. by rewrite <- (elem_addr_mid e a1 x (map_ev f x) a2).
    + intros e (? & ? & ?) _. split; [|done]. simpl. rewrite lookup_insert. by case_decide.
    + intros e Hl _ _ (ev & Hev & Hc). unfold cond_set. simpl. destruct (decide (e = a_addr x)) as [->|Hne].
      * rewrite lookup_insert_eq. rewrite He in Hev. injection Hev as <-. eexists. split; [done|]. by apply Hcond.
      * rewrite lookup_insert_ne by congruence. by exists ev.
Qed.

Lemma inv_set_user l a um :
  Inv s W a -> Inv (set_user um s) W a /\ effect l None s a (set_user um s) a.
Proof.
  intros HI. split.
  - apply (inv_same s W a _ a cur); try done. apply rep_user, HI.
  - apply effect_tasks; try done. by left.
Qed.

Lemma runs_on_woken a1 x a2 ev' u tk' :
  NoDup (a_waiters x) -> wake_tasks TASK_NORMAL (a_waiters x) (tasks s) !! u = Some tk' ->
  runs_on s (a1 ++ x :: a2)
    (a1 ++ mk_aevent (a_addr x) ev' (kept TASK_NORMAL (tasks s) (a_waiters x)) :: a2) u tk'.
Proof.
  intros Hnd Hu. rewrite wake_tasks_lookup in Hu by done. case_decide as Hin.
  - apply fmap_Some in Hu as (tk & Htk & ->). exists tk. split; [done|]. split; cycle 1.
    { unfold woken. destruct (_ =? _); [by left|by right]. }
    intros Hor. rewrite !elem_of_others_mid. simpl.
    assert (Hst : stays TASK_NORMAL (tasks s) u = true /\ on_rq (woken TASK_NORMAL tk) = on_rq tk).
    { unfold stays. rewrite Htk. unfold wakes, woken in *.
      destruct (Z.land (state tk) TASK_NORMAL =? 0); [done|]. simpl in *.
      destruct (on_rq tk); [done|]. by destruct Hor. }
    split; [apply Hst|]. intros [_|?]; [left|by right].
    unfold kept. rewrite list_elem_of_In, filter_In, <- list_elem_of_In. split; [done|apply Hst].
  - apply runs_on_same; [done|]. rewrite !elem_of_others_mid. tauto.
Qed.

Lemma woken_running t : running s t -> on_rq <$> (woken TASK_NORMAL <$> tasks s !! t) = Some true.
Proof.
  unfold running. destruct (tasks s !! t) as [tk|]; [|done]. intros [= Hrq]. simpl.
  unfold woken. by destruct (_ =? _); simpl; rewrite ?Hrq.
Qed.
Lemma woken_awake t : awake s t -> state <$> (woken TASK_NORMAL <$> tasks s !! t) = Some TASK_RUNNING.
Proof.
  unfold awake. destruct (tasks s !! t) as [tk|]; [|done]. intros [= Hst]. simpl.
  unfold woken. by destruct (_ =? _); simpl; rewrite ?Hst.
Qed.

(** Waking the queue of an event. *)
Lemma inv_wake l a1 x a2 :
  Inv s W (a1 ++ x :: a2) ->
  exists s', (let! q := queue_of (Ptr (a_addr x)) in wake_up_all q) s = Ok (tt, s') /\
    let a' := a1 ++ mk_aevent (a_addr x) (a_ev x) (kept TASK_NORMAL (tasks s) (a_waiters x)) :: a2 in
    Inv s' W a' /\ effect l None s (a1 ++ x :: a2) s' a' /\ events s' = events s /\
    tasks s' = wake_tasks TASK_NORMAL (a_waiters x) (tasks s).
Proof.
  intros HI. pose proof (inv_rep _ _ _ HI) as Hr. destruct (x_event _ _ _ _ _ HI) as [He Hl Hq Hown].
  destruct (rep_waiters_split _ _ _ _ Hr) as (Hnd & _ & _).
  destruct (wake_up_all_spec (Qev (a_addr x)) (a_waiters x) s Hq Hown Hnd Hl) as (c & R & Hl' & Hoff & Hm).
  pose proof (rep_woken s a1 x a2 c (a_ev x) Hr Hl' Hm) as Hr'.
  rewrite (insert_id _ _ _ He) in Hr'. eexists. split; [by erewrite bind_ok by done|]. split; [|split; [|done]].
  - eapply (inv_call s W (a1 ++ x :: a2) _ _ cur HI Hidle).
    + clear -Hr'. destruct s. exact Hr'.
    + eapply ids_ok_same; [|apply HI]. by rewrite !fmap_app, !fmap_cons.
    + apply (keeps_woken s _ a1 x a2 TASK_NORMAL); [done|done|done|]. intros w Hw. apply Hm. intros Hin. cell_cases.
    + intros u Hu. by apply wake_tasks_some.
    + intros u tk' _ Htk. by apply runs_on_woken.
    + intros y _ _ Hy _. pose proof (list_elem_of_fmap_2 a_addr _ _ Hy) as Hin.
      rewrite <- (elem_addr_mid _ a1 x (mk_aevent (a_addr x) (a_ev x) (kept TASK_NORMAL (tasks s) (a_waiters x))) a2) in Hin by done.
      apply list_elem_of_fmap in Hin as (y' & ? & ?). eauto.
    + intros w Hw Hw'. by apply (signalled_off s a1 x a2 c w (a_ev x)).
    + intros y w [Hy|[->|Hy]%elem_of_cons]%elem_of_app Hw.
      * exists y. split; [set_solver +Hy|done].
      * exists x. split; [set_solver +|]. split; [done|]. by apply kept_subset in Hw.
      * exists y. split; [set_solver +Hy|done].
  - split; try done.
    + intros t _ Hrun. unfold running. simpl. rewrite wake_tasks_lookup by done.
      case_decide; [by apply woken_running|done].
    + intros t _ Hrun. unfold awake. simpl. rewrite wake_tasks_lookup by done.
      case_decide; [by apply woken_awake|done].
    + intros e Hin _. by rewrite elem_addr_mid.
    + intros e Hin. left. by rewrite <- elem_addr_mid.
    + intros e (? & ? & ?) _. split; [done|]. split; by apply Hm.
Qed.
(** The memory of a new event. *)
Lemma inv_place a j :
  Inv s W a -> events s !! j_addr j = None ->
  exists s', (modify (place j) ;;; lh (INIT_LIST_HEAD (Cev (j_addr j)))) s = Ok (tt, s') /\
    Inv s' W a /\ effect (Allocates (j_addr j)) None s a s' a /\
    placed s' (j_addr j) /\ j_addr j ∉ a_addr <$> a.
Proof.
  intros HI Hj. pose proof (inv_rep _ _ _ HI) as Hr.
  assert (Hn : j_addr j ∉ a_addr <$> a).
  { intros (x & Hx & Hin)%list_elem_of_fmap. pose proof (rep_event_ev _ _ Hr) as Hev.
    rewrite Forall_forall in Hev. specialize (Hev x Hin). rewrite <- Hx in Hev. congruence. }
  destruct (place_run s a j Hr Hn) as (c & R & Hr' & Hpl & Hm). eexists. split; [exact R|].
  assert (Hc : forall y, is_Some (cells s !! y) -> is_Some (c !! y)).
  { intros y Hy. apply Hm. simpl. rewrite !lookup_insert. by repeat case_decide. }
  split; [|split; [|done]].
  - apply (inv_same s W a _ a cur HI Hidle Hr'); try done. split; [done|]. intros w _. apply single_ext. simpl.
    rewrite (proj1 Hm) by set_solver +. simpl. by rewrite !lookup_insert_ne.
  - apply effect_tasks; try done; [by left| |].
    + intros e (? & ? & ?) _. split; [simpl; rewrite lookup_insert; by case_decide|].
      split; by apply Hc.
    + intros e _ _ _ (ev & He & ?). exists ev. simpl. rewrite lookup_insert_ne; [done|congruence].
Qed.

(** A new event goes on the list. *)
Lemma inv_link a new t :
  Inv s W a -> tasks s !! cur = Some t -> placed s new -> new ∉ a_addr <$> a ->
  (forall e ev, events s !! e = Some ev -> id ev < INT_MAX) ->
  exists s' a', open_section cur new s = Ok (tt, s') /\ Inv s' W a' /\
    effect (Links new) None s a s' a' /\ new ∈ a_addr <$> a'.
Proof.
  intros HI Ht Hpl Hn Hb. pose proof (inv_rep _ _ _ HI) as Hr.
  destruct (open_section_run cur t new s a Hr Ht Hpl Hn) as (c & R & Hr' & Hc & Hs).
  pose proof (last_id_event _ _ Hr Hb) as Hlt. destruct (last_id_bound _ (inv_ids _ _ _ HI)) as [Hlb _].
  assert (Hw : s32 (last_id a + 1) = last_id a + 1).
  { apply swrap_small; [|lia]. change (2 ^ (32 - 1)) with 2147483648. unfold INT_MAX in *. lia. }
  do 2 eexists. split; [exact R|]. split; [|split].
  - apply (inv_call s W a _ _ cur HI Hidle Hr'); try done.
    + apply ids_ok_snoc; [apply HI|done|]. unfold a_id. simpl. lia.
    + split; [done|]. intros w _. apply single_ext. simpl. by rewrite Hc.
    + intros u tk' _ Htk. apply runs_on_same; [done|]. rewrite others_app. set_solver +.
    + intros x _ _ Hx _. exists x. split; [set_solver +Hx|done].
    + intros w Hw1 Hw2. exfalso. apply Hw2. rewrite others_app. set_solver +Hw1.
    + intros x' w [Hx'|Hx']%elem_of_app Hw1; [eauto|].
      apply list_elem_of_singleton in Hx' as ->. by apply elem_of_nil in Hw1.
  - apply effect_tasks; try done.
    + intros e He _. rewrite fmap_app. set_solver +He.
    + intros e. rewrite fmap_app, elem_of_app. simpl. rewrite list_elem_of_singleton. intros [? | ->]; auto.
    + intros e (? & ? & ?) _. split; [simpl; rewrite lookup_insert; by case_decide|]. split; by apply Hs.
    + intros e _ _ He (ev & Hev & ?). exists ev. simpl. rewrite lookup_insert_ne; [done|]. by intros ->.
  - rewrite fmap_app. set_solver +.
Qed.

(** An event nobody waits on goes off the list; its memory stays. *)
Lemma inv_removed a1 x a2 (process : bool) :
  Inv s W (a1 ++ x :: a2) -> (forall t pc, W !! t <> Some (Ptr (a_addr x), pc)) ->
  exists n s', close_section (Ptr (a_addr x)) process s = Ok (n, s') /\ Inv s' W (a1 ++ a2) /\
    effect (Removes (Ptr (a_addr x))) None s (a1 ++ x :: a2) s' (a1 ++ a2) /\
    placed s' (a_addr x) /\ a_addr x ∉ a_addr <$> a1 ++ a2.
Proof.
  intros HI Hno. pose proof (inv_rep _ _ _ HI) as Hr.
  assert (Hw : a_waiters x = []).
  { destruct (a_waiters x) as [|w ws'] eqn:Ew; [done|]. exfalso.
    destruct (inv_wait _ _ _ HI x w) as [pc Hpc]; [set_solver +|rewrite Ew; left|]. by apply (Hno w pc). }
  destruct (close_section_run s a1 x a2 process Hr (fun _ => Hw)) as (c & ev' & R & Hl & Hc & Hcw & Hs).
  rewrite Hw in R, Hcw. assert (Hn : a_addr x ∉ a_addr <$> a1 ++ a2).
  { intros (y & Hy & Hin)%list_elem_of_fmap. by apply (rep_addr_ne _ _ _ _ _ Hr Hin). }
  assert (Hpl : forall e, placed s e -> placed (set_cells c (set_tasks (tasks s)
    (set_events (<[a_addr x := ev']> (events s)) s))) e).
  { intros e (? & ? & ?). split; [simpl; rewrite lookup_insert; by case_decide|]. split; by apply Hs. }
  do 2 eexists. split; [exact R|]. split; [|split; [|split; [|done]]].
  - apply (inv_call s W (a1 ++ x :: a2) _ _ cur HI Hidle); try done.
    + apply (rep_remove s _ a1 x a2 Hr); try done. intros e He. simpl. by rewrite lookup_insert_ne.
    + eapply ids_ok_remove, HI.
    + split; [done|]. intros w _. apply single_ext. simpl. apply Hcw. set_solver +.
    + intros u tk' _ Htk. apply runs_on_same; [done|]. rewrite elem_of_others_mid, Hw. set_solver +.
    + intros y u pc [Hy|[->|Hy]%elem_of_cons]%elem_of_app Hu; [| |].
      * exists y. split; [set_solver +Hy|done].
      * by destruct (Hno u pc).
      * exists y. split; [set_solver +Hy|done].
    + intros w Hin Hin'. rewrite elem_of_others_mid, Hw in Hin.
      destruct Hin as [Hin|Hin]; [by apply elem_of_nil in Hin|done].
    + intros y w Hy Hin. exists y. split; [set_solver +Hy|done].
  - apply effect_tasks; try done.
    + intros e. rewrite !fmap_app, fmap_cons, !elem_of_app, elem_of_cons. intuition congruence.
    + intros e. rewrite !fmap_app, fmap_cons, !elem_of_app, elem_of_cons. tauto.
    + intros e He _. by apply Hpl.
    + intros e _ Hne _ (ev & Hev & ?). exists ev. simpl. rewrite lookup_insert_ne; [done|congruence].
  - apply Hpl, (placed_in s (a1 ++ x :: a2)); [done|]. set_solver +.
Qed.

(** The memory of an event that is not on the list is released. *)
Lemma inv_freed a e :
  Inv s W a -> placed s e -> e ∉ a_addr <$> a ->
  kfree (Ptr e) s = Ok (tt, kfree_event e s) /\ Inv (kfree_event e s) W a /\
  effect (Frees (Ptr e)) None s a (kfree_event e s) a.
Proof.
  intros HI [[ev He] _] Hn. split; [by unfold kfree; rewrite He|]. pose proof (inv_rep _ _ _ HI) as Hr.
  split.
  - apply (inv_same s W a _ a cur HI Hidle); try done.
    + apply (rep_release _ _ _ Hr Hn).
    + split; [done|]. intros w _. apply single_ext. simpl. by rewrite !lookup_delete_ne.
  - apply effect_tasks; try done; [by left| |].
    + intros f (? & ? & ?) Hne. assert (e <> f) by congruence.
      split; simpl; [by rewrite lookup_delete_ne|]. rewrite !lookup_delete_ne by congruence. done.
    + intros f _ _ Hf (ev' & ? & ?). exists ev'. simpl. rewrite lookup_delete_ne; [done|]. by intros ->.
Qed.
End Sections.

(** ** Calls under way *)

(** The rests of the calls, by name. *)
Definition open_rest (cur e : positive) : prog kstate Z :=
  step[Links e] _ := open_section cur e in
  step[Uses (Ptr e)] r := get_id (Ptr e) in
  Done r.
Definition close_rest (e : positive) (process : bool) : prog kstate Z :=
  step[Removes (Ptr e)] n := close_section (Ptr e) process in
  step[Frees (Ptr e)] _ := kfree (Ptr e) in
  Done n.
Definition close_test (e : positive) : prog kstate Z :=
  step[Uses (Ptr e)] process := (let! q := queue_of (Ptr e) in waitqueue_active q) in
  close_rest e process.
Definition sig_test (e : positive) : prog kstate Z :=
  step[Uses (Ptr e)] process := (let! q := queue_of (Ptr e) in waitqueue_active q) in
  if (process : bool) then signal_waiters (Ptr e) else Done 0.
Definition sig_wake (e : positive) (n : Z) : prog kstate Z :=
  step[Uses (Ptr e)] _ := (let! q := queue_of (Ptr e) in wake_up_all q) in
  Done n.
Definition stat_rest (eventID UID GID UIDFlag GIDFlag : Z) : prog kstate Z :=
  step[Searches] r := stat_section eventID in
  match r with
  | (Garbage, _) => atomic Quiet (throw Uninit) Done
  | (_, None) => Done (-1)
  | (_, Some ev) => atomic Quiet (stat_copy ev UID GID UIDFlag GIDFlag (0, 0, 0, 0)) Done
  end.
Definition info_rest (num eventIDs : Z) : prog kstate Z :=
  step[Counts] r := info_section num eventIDs (replicate (Z.to_nat num) (-1)) in
  atomic Quiet (info_copy num eventIDs r.1 r.2) Done.
Definition wait_rest (e : positive) : prog kstate wait_outcome :=
  step[Clears (Ptr e)] _ := upd_event (Ptr e) (set_condition 0) in
  Done (WWait (Ptr e)).

Section Calls.
  Context (vla_ok : Z -> bool).

Definition pending (c : call) : Prop :=
  match c with CReturns (Done _) | CWaits (Done _) => False | _ => True end.

#[local] Instance pending_dec c : Decision (pending c).
Proof. destruct c as [[]|[]]; first [left; exact I|right; intros []]. Defined.

(** How far a call of task [cur] can have got. *)
Inductive call_at (cur : positive) : call -> Prop :=
  | at_begin r :
      match r with RInfo num _ => vla_ok num = true | _ => True end ->
      pending (handler vla_ok cur r) -> call_at cur (handler vla_ok cur r)
  | at_open e : call_at cur (CReturns (open_rest cur e))
  | at_opened e : call_at cur (CReturns (step[Uses (Ptr e)] r := get_id (Ptr e) in Done r))
  | at_close_test e : call_at cur (CReturns (close_test e))
  | at_close e process : call_at cur (CReturns (close_rest e process))
  | at_free e n : call_at cur (CReturns (step[Frees (Ptr e)] _ := kfree (Ptr e) in Done n))
  | at_sig_test e : call_at cur (CReturns (sig_test e))
  | at_sig e : call_at cur (CReturns (signal_waiters (Ptr e)))
  | at_sig_wake e n : call_at cur (CReturns (sig_wake e n))
  | at_chown e U G : call_at cur (CReturns (step[Uses (Ptr e)] _ := chown_section (Ptr e) U G in Done 0))
  | at_chmod e U G : call_at cur (CReturns (step[Uses (Ptr e)] _ := chmod_section (Ptr e) U G in Done 0))
  | at_stat i p1 p2 p3 p4 : call_at cur (CReturns (stat_rest i p1 p2 p3 p4))
  | at_stat_copy ev p1 p2 p3 p4 :
      call_at cur (CReturns (atomic Quiet (stat_copy ev p1 p2 p3 p4 (0, 0, 0, 0)) Done))
  | at_info num p : call_at cur (CReturns (info_rest num p))
  | at_info_copy num p check arr : call_at cur (CReturns (atomic Quiet (info_copy num p check arr) Done))
  | at_clear e : call_at cur (CWaits (wait_rest e)).

(** What holds before a step with label [l]. *)
Definition label_ok (s : kstate) (a : list aevent) (l : label) : Prop :=
  match l with
  | Uses (Ptr e) | Clears (Ptr e) | Removes (Ptr e) => e ∈ a_addr <$> a
  | Links e | Frees (Ptr e) => placed s e /\ e ∉ a_addr <$> a
  | Uses _ | Clears _ | Removes _ | Frees _ => False
  | _ => True
  end.

(** The call owns the memory of event [e], which is not on the list. *)
Definition owns (c : call) (e : positive) : Prop :=
  next_label c = Links e \/ next_label c = Frees (Ptr e).

Record SInv (st : esys) (a : list aevent) : Prop := {
  si_inv : Inv (ks st) (ws st) a;
  si_call : forall t c, cs st !! t = Some c ->
    ws st !! t = None /\ running (ks st) t /\ call_at t c /\ label_ok (ks st) a (next_label c);
  si_owns : forall t u c d e, cs st !! t = Some c -> cs st !! u = Some d -> owns c e -> owns d e -> t = u;
}.

(** The calls of the other tasks after a step of [cur] with label [l]. *)
Lemma si_others st a cur l o s' (W' : waiting) a' :
  SInv st a -> (l = Quiet \/ exists c, cs st !! cur = Some c /\ next_label c = l) ->
  step_allowed cur l st -> effect l o (ks st) a s' a' -> (forall t, t <> cur -> o <> Some t) ->
  (forall t, t <> cur -> W' !! t = ws st !! t) ->
  forall t c, t <> cur -> cs st !! t = Some c ->
    W' !! t = None /\ running s' t /\ call_at t c /\ label_ok s' a' (next_label c).
Proof.
  intros HS Hl Ha He Ho HW t c Hne Hc. destruct (si_call _ _ HS _ _ Hc) as (Hi & Hr & Hat & Hok).
  split; [by rewrite HW|]. split; [apply (eff_run _ _ _ _ _ _ He); auto|]. split; [done|].
  assert (Hin : forall e, holds c e -> e ∈ a_addr <$> a -> e ∈ a_addr <$> a').
  { intros e Hh Hin. apply (eff_in _ _ _ _ _ _ He); [done|]. intros ->.
    apply (Ha t Hne). right. by exists c. }
  assert (Hown : forall e, owns c e -> placed (ks st) e /\ e ∉ a_addr <$> a -> placed s' e /\ e ∉ a_addr <$> a').
  { intros e Hp [Hpl Hn].
    assert (Hno : forall d, cs st !! cur = Some d -> ~ owns d e).
    { intros d Hd Hq. apply Hne. by apply (si_owns _ _ HS t cur c d e). }
    split.
    - apply (eff_placed _ _ _ _ _ _ He); [done|]. intros ->. destruct Hl as [|(d & Hd & Hd')]; [done|].
      apply (Hno d Hd). by right.
    - intros Hin'. apply (eff_out _ _ _ _ _ _ He) in Hin' as [?| ->]; [done|].
      destruct Hl as [|(d & Hd & Hd')]; [done|]. apply (Hno d Hd). by left. }
  revert Hok. destruct (next_label c) as [| | |[]|[]|[]|[]| |] eqn:El; simpl; try done.
  - apply Hown. by left.
  - apply Hin. by left.
  - apply Hin. right. by left.
  - apply Hin. right. by right.
  - apply Hown. by right.
Qed.

(** ** The outcome of a step of a call *)

(** The call has gone on to [c'] by a step with label [l], which led to [s']. *)
Definition next_ok (cur : positive) (l : label) (c' : call) (s' : kstate) (a' : list aevent) : Prop :=
  match c' with
  | CReturns (Done _) | CWaits (Done _) => True
  | _ => call_at cur c' /\ label_ok s' a' (next_label c') /\
         forall e, owns c' e -> l = Allocates e \/ l = Removes (Ptr e)
  end.

Definition goes (cur : positive) (l : label) (st : esys) (a : list aevent) (c' : call) (s' : kstate) : Prop :=
  exists a', Inv s' (ws (settle cur c' s' st).2) a' /\ effect l None (ks st) a s' a' /\ next_ok cur l c' s' a'.

Definition call_ok (cur : positive) (st : esys) (a : list aevent) (c : call) : Prop :=
  exists c' s', call_step c (ks st) = Ok (c', s') /\ goes cur (next_label c) st a c' s'.

Lemma si_settle cur l st a c' s' :
  SInv st a -> (l = Quiet \/ exists c, cs st !! cur = Some c /\ next_label c = l) ->
  step_allowed cur l st -> ws st !! cur = None -> running (ks st) cur ->
  (forall e, l = Removes (Ptr e) -> e ∈ a_addr <$> a) ->
  goes cur l st a c' s' ->
  exists a', SInv (settle cur c' s' st).2 a' /\ effect l None (ks st) a s' a'.
Proof.
  intros HS Hl Ha Hidle Hrun Hrm (a' & HI & He & Hn). exists a'. split; [|done].
  set (st' := (settle cur c' s' st).2) in *.
  assert (Hks : ks st' = s') by (unfold st'; destruct c' as [[]|[[]|]]; done).
  assert (HW : forall t, t <> cur -> ws st' !! t = ws st !! t).
  { intros t Hne. unfold st'. destruct c' as [[]|[[]|]]; try done. simpl. by rewrite lookup_insert_ne. }
  assert (Hcs : forall t c, cs st' !! t = Some c ->
    (t <> cur /\ cs st !! t = Some c) \/ (t = cur /\ c = c' /\ ws st' !! cur = None /\ next_ok cur l c' s' a' /\
      pending c')).
  { intros t c. unfold st'. destruct c' as [[|]|[[|]|]]; simpl; rewrite ?lookup_delete_Some, ?lookup_insert_Some;
      naive_solver. }
  assert (Hoth : forall t c, t <> cur -> cs st !! t = Some c ->
    ws st' !! t = None /\ running s' t /\ call_at t c /\ label_ok s' a' (next_label c)).
  { by apply (si_others st a cur l None). }
  assert (Hown : forall t c e, t <> cur -> cs st !! t = Some c -> owns c e -> owns c' e -> next_ok cur l c' s' a' ->
    pending c' -> False).
  { intros t c e Hne Hc Hp Hp' Hok Hd. destruct (si_call _ _ HS _ _ Hc) as (_ & _ & _ & Hlo).
    assert (Hpl : placed (ks st) e /\ e ∉ a_addr <$> a) by (by destruct Hp as [Hp|Hp]; rewrite Hp in Hlo).
    assert (Hor : l = Allocates e \/ l = Removes (Ptr e)).
    { destruct c' as [[]|[]]; try done; by apply Hok. }
    destruct Hor as [->| ->]; [|by apply Hpl, Hrm]. simpl in Ha. destruct Hpl as [[[? He'] _] _]. congruence. }
  split; [by rewrite Hks| |].
  - rewrite Hks. intros t c [[Hne Hc]|(-> & -> & Hw & Hok & Hd)]%Hcs; [by apply Hoth|].
    split; [done|]. split; [by apply (eff_run _ _ _ _ _ _ He)|]. destruct c' as [[]|[]]; try done; split; apply Hok.
  - intros t u c d e [[Hne Hc]|(-> & -> & Hw & Hok & Hd)]%Hcs [[Hne' Hc']|(-> & -> & Hw' & Hok' & Hd')]%Hcs Hp Hq; try done.
    + by apply (si_owns _ _ HS t u c d e).
    + by destruct (Hown t c e).
    + by destruct (Hown u d e).
Qed.
(** ** Every step of every call *)

Lemma info_copy_run num eventIDs check arr s :
  exists v um, info_copy num eventIDs check arr s = Ok (v, set_user um s).
Proof.
  unfold info_copy, bind. destruct (negb (eventIDs =? NULL) && (check <=? num)).
  - unfold copy_to_user, ret. cbv zeta. destruct (copy_out _ _ _) as [n um]. cbn [fst snd].
    destruct (ctrue n); [by do 2 eexists|]. by destruct (_ && _); do 2 eexists.
  - unfold ret. exists (if (num <? check) && negb (eventIDs =? NULL) then -1 else check), (user s).
    rewrite user_id. by destruct (_ && _).
Qed.

Section Step.
  Context (cur : positive) (st : esys) (a : list aevent).
  Hypothesis HI : Inv (ks st) (ws st) a.
  Hypothesis Hidle : ws st !! cur = None.
  Context (t : task_struct).
  Hypothesis Ht : tasks (ks st) !! cur = Some t.

(** A step of a call that returns: its effect and what follows. *)
Lemma step_returns {A} l (m : M kstate A) k v s' a' :
  m (ks st) = Ok (v, s') -> Inv s' (ws st) a' -> effect l None (ks st) a s' a' ->
  next_ok cur l (CReturns (k v)) s' a' -> call_ok cur st a (CReturns (atomic l m k)).
Proof.
  intros R Hi He Hn. exists (CReturns (k v)), s'. split; [simpl; by rewrite R|]. exists a'. split; [|done].
  by destruct (k v).
Qed.

(** A step that reads. *)
Lemma step_reads {A} l (m : M kstate A) k v :
  m (ks st) = Ok (v, ks st) -> next_ok cur l (CReturns (k v)) (ks st) a ->
  call_ok cur st a (CReturns (atomic l m k)).
Proof. intros R Hn. by apply (step_returns l m k v (ks st) a R HI (effect_refl _ _ _ _)). Qed.

Lemma lookup_then (init : evptr) valid eventID l (k : Z * evptr -> prog kstate Z) v :
  lookup_section init valid eventID (ks st) = Ok ((v, found eventID init a), ks st) ->
  (forall x, x ∈ a -> next_ok cur l (CReturns (k (v, Ptr (a_addr x)))) (ks st) a) ->
  (find_event eventID a = None -> next_ok cur l (CReturns (k (v, found eventID init a))) (ks st) a) ->
  call_ok cur st a (CReturns (atomic l (lookup_section init valid eventID) k)).
Proof.
  intros R Hx Hn. apply (step_reads _ _ _ _ R). revert Hn. unfold found.
  destruct (find_event eventID a) as [x|] eqn:E; [|auto]. intros _. apply Hx.
  apply find_event_split in E as (a1 & a2 & -> & _). set_solver +.
Qed.

(** The look-ups with the permission to signal. *)
Lemma lookup_signal eventID (k : Z * evptr -> prog kstate Z) :
  (forall v e, e ∈ a_addr <$> a -> next_ok cur Quiet (CReturns (k (v, Ptr e))) (ks st) a) ->
  (forall p, next_ok cur Quiet (CReturns (k (0, p))) (ks st) a) ->
  call_ok cur st a (CReturns (atomic Quiet (lookup_section Null (validateEvent cur 1) eventID) k)).
Proof.
  intros Hx Hn. eapply lookup_then; [apply (lookup_event_run _ _ eventID _ _ (inv_rep _ _ _ HI) Ht)| |].
  - intros x Hin. by apply Hx, list_elem_of_fmap_2.
  - intros ->. apply Hn.
Qed.

(** The look-ups with the permission to change. *)
Lemma lookup_change eventID (k : Z * evptr -> prog kstate Z) :
  a <> [] ->
  (forall v e, e ∈ a_addr <$> a -> next_ok cur Searches (CReturns (k (v, Ptr e))) (ks st) a) ->
  (forall p, next_ok cur Searches (CReturns (k (0, p))) (ks st) a) ->
  call_ok cur st a (CReturns (atomic Searches (lookup_section Garbage (validateUserEvent cur) eventID) k)).
Proof.
  intros Hne Hx Hn. pose proof (inv_rep _ _ _ HI) as Hr.
  eapply lookup_then; [apply (lookup_section_run _ _ _ _ _ _ Hr)| |].
  - rewrite (validateUserEvent_spec (r_held (ks st)) cur t) by (done || apply (rep_event_ev _ _ Hr)).
    destruct a; [done|reflexivity].
  - intros x Hin. by apply Hx, list_elem_of_fmap_2.
  - intros ->. apply Hn.
Qed.

(** No call owns memory at such a label. *)
Lemma next_plain l c :
  call_at cur c -> label_ok (ks st) a (next_label c) ->
  match next_label c with Links _ | Frees _ => False | _ => True end -> next_ok cur l c (ks st) a.
Proof.
  intros Hc Hl Hp. assert (forall e, owns c e -> l = Allocates e \/ l = Removes (Ptr e)).
  { intros e [E|E]; by rewrite E in Hp. }
  by destruct c as [[]|[]].
Qed.

Lemma begin_ok r :
  match r with RInfo num _ => vla_ok num = true | _ => True end ->
  pending (handler vla_ok cur r) -> step_allowed cur (next_label (handler vla_ok cur r)) st ->
  call_ok cur st a (handler vla_ok cur r).
Proof.
  intros Hv Hp Ha. pose proof (inv_rep _ _ _ HI) as Hr.
  destruct r as [[j|]|i|i|i U G|i U G|i p1 p2 p3 p4|n p|i]; simpl in Hp, Ha |- *; try done.
  - destruct (inv_place _ _ _ Hidle a j HI Ha) as (s' & R & HI' & He & Hpl & Hn).
    eapply step_returns; [exact R|exact HI'|exact He|]. split; [apply at_open|]. split; [done|].
    intros e [[= <-]|?]; [by left|done].
  - unfold sys_doeventclose in *. destruct (ctrue (isValidEventId i)); [done|].
    apply lookup_signal; [intros v e He|intros q]; cbn [fst snd]; [|exact I].
    destruct (ctrue v); [|exact I]. by apply next_plain; [apply at_close_test| |].
  - unfold sys_doeventsig in *. destruct (ctrue (isValidEventId i)); [done|].
    apply lookup_signal; [intros v e He|intros q]; cbn [fst snd]; [|exact I].
    destruct (ctrue v); [|exact I]. by apply next_plain; [apply at_sig_test| |].
  - unfold sys_doeventchown in *. destruct (_ || _ || _); [done|]. simpl in Ha.
    apply lookup_change; [by eapply some_event_ne|intros v e He|intros q]; cbn [fst snd]; [|exact I].
    destruct (ctrue v); [|exact I]. by apply next_plain; [apply at_chown| |].
  - unfold sys_doeventchmod in *. destruct (ctrue (isValidEventId i)); [done|]. simpl in Ha.
    apply lookup_change; [by eapply some_event_ne|intros v e He|intros q]; cbn [fst snd]; [|exact I].
    destruct (ctrue v); [|exact I]. by apply next_plain; [apply at_chmod| |].
  - destruct (stat_probe_run p1 p2 p3 p4 (ks st)) as (n1 & n2 & n3 & n4 & R & _).
    eapply step_reads; [exact R|]. cbv beta iota.
    destruct (ctrue n1 || ctrue n2 || ctrue n3 || ctrue n4) eqn:E; [exact I|].
    destruct (ctrue (isValidEventId i)); [exact I|].
    assert (n1 = 0 /\ n2 = 0 /\ n3 = 0 /\ n4 = 0) as (-> & -> & -> & ->).
    { unfold ctrue in E. destruct (Z.eqb_spec n1 0), (Z.eqb_spec n2 0), (Z.eqb_spec n3 0), (Z.eqb_spec n4 0); done. }
    by apply next_plain; [apply at_stat| |].
  - unfold sys_doeventinfo in *. rewrite Hv in *. simpl in *. destruct (_ && _); [done|].
    destruct (probe_run p (ks st)) as (b & R & _). eapply step_reads; [exact R|].
    destruct (ctrue b); [exact I|]. by apply next_plain; [apply at_info| |].
  - unfold sys_doeventwait in *. destruct (ctrue (isValidEventId i)); [done|].
    unfold call_ok. simpl. rewrite (lookup_event_run _ _ i _ _ Hr Ht). do 2 eexists. split; [done|]. simpl.
    exists a. unfold found. destruct (find_event i a) as [x|] eqn:E; [|by split; [|split; [apply effect_refl|]]].
    destruct (ctrue _); [|by split; [|split; [apply effect_refl|]]].
    split; [done|]. split; [apply effect_refl|]. apply next_plain; [apply (at_clear cur (a_addr x))| |done].
    apply find_event_split in E as (a1 & a2 & -> & _). simpl. set_solver +.
Qed.
Lemma fields_ok l e (m : M kstate unit) f (k : unit -> prog kstate Z) :
  e ∈ a_addr <$> a -> (forall ev, id (f ev) = id ev) -> (forall ev, condition (f ev) = condition ev) ->
  (forall s a1 x a2, rep s (a1 ++ x :: a2) -> e = a_addr x ->
     m s = Ok (tt, set_events (<[a_addr x := f (a_ev x)]> (events s)) s)) ->
  (exists v, k tt = Done v) -> call_ok cur st a (CReturns (atomic l m k)).
Proof.
  intros Hin Hf Hc R [v Hk]. destruct (held_event _ e Hin) as (a1 & x & a2 & Ha & He).
  assert (HI' : Inv (ks st) (ws st) (a1 ++ x :: a2)) by (by rewrite <- Ha).
  destruct (inv_fields _ _ _ Hidle l a1 x a2 f HI' Hf) as [Hi Hef]; [by rewrite Hc|].
  rewrite <- Ha in Hef. eapply step_returns; [by apply (R _ a1 x a2); [apply HI'|]|exact Hi|exact Hef|].
  by rewrite Hk.
Qed.

Lemma sig_section_ok e :
  e ∈ a_addr <$> a -> call_ok cur st a (CReturns (signal_waiters (Ptr e))).
Proof.
  intros Hin. destruct (held_event _ e Hin) as (a1 & x & a2 & Ha & ->).
  assert (HI' : Inv (ks st) (ws st) (a1 ++ x :: a2)) by (by rewrite <- Ha).
  destruct (inv_fields _ _ _ Hidle (Uses (Ptr (a_addr x))) a1 x a2 (set_condition 1) HI') as [Hi Hef]; [done..|].
  rewrite <- Ha in Hef.
  eapply step_returns; [by apply (sig_section_run _ a1 x a2), HI'|exact Hi|exact Hef|].
  split; [apply at_sig_wake|]. split; [|by intros ? []]. simpl. rewrite Ha in Hin. by rewrite elem_addr_mid.
Qed.

Lemma wake_ok e n : e ∈ a_addr <$> a -> call_ok cur st a (CReturns (sig_wake e n)).
Proof.
  intros Hin. destruct (held_event _ e Hin) as (a1 & x & a2 & Ha & ->).
  assert (HI' : Inv (ks st) (ws st) (a1 ++ x :: a2)) by (by rewrite <- Ha).
  destruct (inv_wake _ _ _ Hidle (Uses (Ptr (a_addr x))) a1 x a2 HI') as (s' & R & Hi & Hef & _).
  rewrite <- Ha in Hef. by eapply step_returns; [exact R|exact Hi|exact Hef|].
Qed.

Lemma test_run e :
  e ∈ a_addr <$> a -> exists b, (let! q := queue_of (Ptr e) in waitqueue_active q) (ks st) = Ok (b, ks st).
Proof.
  intros Hin. destruct (held_event _ e Hin) as (a1 & x & a2 & Ha & ->).
  assert (HI' : Inv (ks st) (ws st) (a1 ++ x :: a2)) by (by rewrite <- Ha).
  destruct (x_event _ _ _ _ _ HI') as [_ Hl _ _].
  eexists. erewrite bind_ok by done. apply (waitqueue_active_run _ _ _ Hl).
Qed.

Lemma remove_ok e process :
  e ∈ a_addr <$> a -> step_allowed cur (Removes (Ptr e)) st -> call_ok cur st a (CReturns (close_rest e process)).
Proof.
  intros Hin Hno. destruct (held_event _ e Hin) as (a1 & x & a2 & Ha & ->).
  assert (HI' : Inv (ks st) (ws st) (a1 ++ x :: a2)) by (by rewrite <- Ha).
  destruct (inv_removed _ _ _ Hidle a1 x a2 process HI') as (n & s' & R & Hi & Hef & Hpl & Hn).
  { intros u pc Hu. destruct (decide (u = cur)) as [->|Hne]; [congruence|]. apply (Hno u Hne). left. eauto. }
  rewrite <- Ha in Hef. eapply step_returns; [exact R|exact Hi|exact Hef|].
  split; [apply at_free|]. split; [done|]. intros e [?|[= ->]]; [done|by right].
Qed.

Lemma clear_ok e : e ∈ a_addr <$> a -> on_rq t = true -> call_ok cur st a (CWaits (wait_rest e)).
Proof.
  intros Hin Hrq. destruct (held_event _ e Hin) as (a1 & x & a2 & Ha & ->).
  assert (HI' : Inv (ks st) (ws st) (a1 ++ x :: a2)) by (by rewrite <- Ha).
  destruct (x_event _ _ _ _ _ HI') as [He _ _ _].
  destruct (inv_fields _ _ _ Hidle (Clears (Ptr (a_addr x))) a1 x a2 (set_condition 0) HI') as [_ Hef]; [done..|].
  unfold call_ok. simpl. rewrite (upd_event_run _ _ _ _ He). do 2 eexists. split; [done|].
  exists (a1 ++ map_ev (set_condition 0) x :: a2). split; [|split; [by rewrite Ha|done]]. simpl.
  pose proof (inv_idle _ _ _ _ HI' Hidle) as Hno.
  apply (inv_wait_step (ks st) (ws st) a1 x a2 _ _ _ cur HI'); try done.
  - apply rep_set_fields, HI'.
  - rewrite elem_of_others_mid in Hno. tauto.
  - intros u Hu. by rewrite lookup_insert_ne.
  - unfold cur_ok. rewrite lookup_insert_eq. split; [done|]. split.
    + exists (map_ev (set_condition 0) x). split; [set_solver +|]. split; [done|]. split; [by exists t|].
      rewrite elem_of_others_mid in *. done.
    + intros tk Htk. simpl in Htk. rewrite Ht in Htk. by injection Htk as <-.
Qed.

Lemma call_step_ok c :
  call_at cur c -> label_ok (ks st) a (next_label c) -> step_allowed cur (next_label c) st ->
  on_rq t = true -> call_ok cur st a c.
Proof.
  intros Hc Hl Ha Hrq. pose proof (inv_rep _ _ _ HI) as Hr.
  destruct Hc as [r Hv Hp|e|e|e|e process|e n|e|e|e n|e U G|e U G|i p1 p2 p3 p4|ev p1 p2 p3 p4|n p|n p chk arr|e];
    [by apply begin_ok|..]; simpl in Hl, Ha.
  - destruct Hl as [Hpl Hn]. destruct (inv_link _ _ _ Hidle a e t HI Ht Hpl Hn Ha) as (s' & a' & R & Hi & Hef & Hin).
    eapply step_returns; [exact R|exact Hi|exact Hef|]. split; [apply at_opened|]. split; [done|by intros ? []].
  - destruct (held_event _ e Hl) as (a1 & x & a2 & Heq & ->).
    pose proof (rep_event_ev _ _ Hr) as Hev. rewrite Heq in Hev.
    apply Forall_app in Hev as [_ Hev]. apply Forall_cons in Hev as [Hx _].
    eapply step_reads; [|exact I]. unfold get_id. by rewrite (bind_ok _ _ _ _ _ (get_event_run _ _ _ Hx)).
  - destruct (test_run e Hl) as (b & R). eapply step_reads; [exact R|]. by apply next_plain; [apply at_close|..].
  - by apply remove_ok.
  - destruct Hl as [Hpl Hn]. destruct (inv_freed _ _ _ Hidle a e HI Hpl Hn) as (R & Hi & Hef).
    by eapply step_returns; [exact R|exact Hi|exact Hef|].
  - destruct (test_run e Hl) as (b & R). eapply step_reads; [exact R|].
    destruct b; [|exact I]. by apply next_plain; [apply at_sig|..].
  - by apply sig_section_ok.
  - by apply wake_ok.
  - eapply (fields_ok _ e _ (set_owner U G)); [done..| |by eexists].
    intros s a1 x a2 Hr' ->. by apply (change_section_run s a1 x a2 (set_owner U G)).
  - eapply (fields_ok _ e _ (set_mode U G)); [done..| |by eexists].
    intros s a1 x a2 Hr' ->. by apply (change_section_run s a1 x a2 (set_mode U G)).
  - eapply step_reads; [apply (stat_section_run i _ _ Hr)|]. cbv beta. unfold found.
    pose proof (some_event_ne _ _ Hr Ha) as Hne.
    destruct (find_event i a) as [x|]; [|by destruct a]. by apply next_plain; [apply at_stat_copy|..].
  - destruct (inv_set_user _ _ _ Hidle Quiet a (stat_mem ev p1 p2 p3 p4 (user (ks st))) HI) as [Hi Hef].
    by eapply step_returns; [apply stat_copy_run|exact Hi|exact Hef|].
  - destruct (info_section_run n p (ks st) a Hr) as (arr & R & _); [pose proof (rep_size _ _ Hr); lia|].
    eapply step_reads; [exact R|]. by apply next_plain; [apply at_info_copy|..].
  - destruct (info_copy_run n p chk arr (ks st)) as (v & um & R).
    destruct (inv_set_user _ _ _ Hidle Quiet a um HI) as [Hi Hef].
    by eapply step_returns; [exact R|exact Hi|exact Hef|].
  - by apply clear_ok.
Qed.
End Step.
(** ** Every action *)

Definition sinv (st : esys) : Prop := exists a, SInv st a.

(** What an action does. *)
Definition act_label (act : action) (st : esys) : label :=
  match act with
  | AStep cur => match cs st !! cur with Some c => next_label c | None => Quiet end
  | _ => Quiet
  end.

Lemma settle_ks cur c' s' st : ks (settle cur c' s' st).2 = s'.
Proof. by destruct c' as [[]|[[]|]]. Qed.
Lemma settle_ws cur c' s' st t : t <> cur -> ws (settle cur c' s' st).2 !! t = ws st !! t.
Proof. intros Hne. destruct c' as [[]|[[]|]]; try done. simpl. by rewrite lookup_insert_ne. Qed.

(** What an allowed action leaves: the invariant, and all the tasks that do
    not step themselves. *)
Definition acted (act : action) (st : esys) (a : list aevent) (st' : esys) : Prop :=
  exists a' o, SInv st' a' /\ effect (act_label act st) o (ks st) a (ks st') a' /\
    (forall t, act <> AStep t -> o <> Some t) /\
    (forall t, act <> AStep t -> is_Some (ws st !! t) -> ws st' !! t = ws st !! t).

Lemma handler_ws cur req s st : ws (settle cur (handler vla_ok cur req) s st).2 = ws st.
Proof.
  destruct req as [[]|i|i|i U G|i U G|i p1 p2 p3 p4|n p|i]; simpl; try done;
    unfold sys_doeventclose, sys_doeventsig, sys_doeventchown, sys_doeventchmod, sys_doeventinfo, sys_doeventwait;
    by repeat case_match; simplify_eq.
Qed.

(** The first step of a call needs nothing but free memory. *)
Lemma handler_label cur req s a :
  label_ok s a (next_label (handler vla_ok cur req)) /\
  match next_label (handler vla_ok cur req) with Links _ | Frees _ => False | _ => True end.
Proof.
  destruct req as [[]|i|i|i U G|i U G|i p1 p2 p3 p4|n p|i]; simpl; try done;
    unfold sys_doeventclose, sys_doeventsig, sys_doeventchown, sys_doeventchmod, sys_doeventinfo, sys_doeventwait.
  all: repeat match goal with |- context [if ?b then _ else _] => destruct b end; done.
Qed.

Lemma begin_acted cur req st a :
  SInv st a -> allowed vla_ok (ABegin cur req) st ->
  exists r st', exec vla_ok (ABegin cur req) st = Ok (r, st') /\ acted (ABegin cur req) st a st'.
Proof.
  intros HS (_ & Hw & Hc & Hrun & Hv). simpl.
  assert (Hg : goes cur Quiet st a (handler vla_ok cur req) (ks st)).
  { exists a. rewrite handler_ws. split; [apply HS|]. split; [apply effect_refl|].
    destruct (decide (pending (handler vla_ok cur req))) as [Hp|Hp]; cycle 1.
    { destruct (handler vla_ok cur req) as [[]|[]]; try done; by destruct Hp. }
    destruct (handler_label cur req (ks st) a). by apply (next_plain _ _ _ _ _ (at_begin _ _ Hv Hp)). }
  destruct (si_settle cur Quiet st a (handler vla_ok cur req) (ks st) HS) as (a' & HS' & He); [by left|done|done|done|done|exact Hg|].
  do 2 eexists. split; [by rewrite (surjective_pairing (settle _ _ _ _))|].
  exists a', None. rewrite settle_ks. split; [done|]. split; [done|]. split; [done|]. intros t _ _. by rewrite handler_ws.
Qed.

Lemma step_acted cur st a :
  SInv st a -> allowed vla_ok (AStep cur) st ->
  exists r st', exec vla_ok (AStep cur) st = Ok (r, st') /\ acted (AStep cur) st a st'.
Proof.
  intros HS ([t Ht] & Ha). simpl in Ht, Ha |- *. destruct (cs st !! cur) as [c|] eqn:Hc.
  - destruct (si_call _ _ HS _ _ Hc) as (Hw & Hrun & Hat & Hl). specialize (Ha c eq_refl).
    assert (Hrq : on_rq t = true) by (unfold running in Hrun; rewrite Ht in Hrun; by injection Hrun).
    destruct (call_step_ok cur st a (si_inv _ _ HS) Hw t Ht c Hat Hl Ha Hrq) as (c' & s' & R & Hg).
    destruct (si_settle cur (next_label c) st a c' s' HS) as (a' & HS' & He); try done; [eauto| |].
    { intros e E. by rewrite E in Hl. }
    do 2 eexists. split; [by rewrite R, (surjective_pairing (settle _ _ _ _))|].
    exists a', None. rewrite settle_ks. unfold act_label. rewrite Hc.
    do 3 (split; [done|]). intros u Hu _. apply settle_ws. congruence.
  - destruct (inv_step _ _ _ cur (si_inv _ _ HS)) as (r & s' & W' & a' & R & HI & He & HW).
    do 2 eexists. split; [by rewrite R|]. exists a', (Some cur). unfold act_label. rewrite Hc.
    split; [|split; [done|split; [congruence|intros u Hu _; apply HW; congruence]]].
    assert (Hoth : forall u d, cs st !! u = Some d -> u <> cur) by (intros u d Hd ->; congruence).
    split; [done| |apply HS]. simpl. intros u d Hd.
    apply (si_others st a cur Quiet (Some cur) s' W' a' HS); try done; [by left|congruence|by eapply Hoth].
Qed.

Lemma signal_acted p st a :
  SInv st a -> allowed vla_ok (ASignal p) st ->
  exists r st', exec vla_ok (ASignal p) st = Ok (r, st') /\ acted (ASignal p) st a st'.
Proof.
  intros HS ([t Ht] & _). simpl in Ht |- *.
  destruct (inv_signal _ _ _ p t (si_inv _ _ HS) Ht) as (R & HI & He).
  do 2 eexists. split; [by rewrite R|]. exists a, None. split; [|by split; [|split]].
  split; [done| |apply HS]. simpl. intros u d Hd. destruct (si_call _ _ HS _ _ Hd) as (? & Hrun & ? & Hl).
  split; [done|]. split; [by apply (eff_run _ _ _ _ _ _ He)|]. split; [done|].
  revert Hl. by destruct (next_label d) as [| | |[]|[]|[]|[]| |].
Qed.

(** An allowed action neither faults nor loops, and keeps the invariant. *)
Lemma exec_acted act st a :
  SInv st a -> allowed vla_ok act st -> exists r st', exec vla_ok act st = Ok (r, st') /\ acted act st a st'.
Proof. destruct act; [apply begin_acted|apply step_acted|apply signal_acted]. Qed.

Lemma exec_inv act st :
  sinv st -> allowed vla_ok act st ->
  exists r st', exec vla_ok act st = Ok (r, st') /\ sinv st' /\ same_cpu (ks st) (ks st').
Proof.
  intros [a HS] Ha. destruct (exec_acted act st a HS Ha) as (r & st' & R & a' & o & HS' & He & _).
  exists r, st'. split; [done|]. split; [by exists a'|apply He].
Qed.

(** ** Reachable states *)

(** The static data of the subsystem before [doevent_init]. *)
Definition boot_ok (s : kstate) : Prop := is_Some (cells s !! Call) /\ is_Some (cells s !! Cq Qall).

Lemma init_inv s :
  boot_ok s -> exists s', doevent_init s = Ok (tt, s') /\ Inv s' ∅ [] /\
    irqs_on s' = irqs_on s /\ preempt_count s' = preempt_count s /\ lock s' = RW_LOCK_BIAS.
Proof.
  intros [H1 H2]. unfold doevent_init. erewrite bind_ok by done.
  destruct (INIT_LIST_HEAD_spec (cells s) Call H1) as (c1 & R1 & Hl1 & Hm1).
  erewrite bind_ok; [|apply lh_ok; exact R1]. erewrite bind_ok by done.
  destruct (INIT_LIST_HEAD_spec c1 (Cq Qall)) as (c2 & R2 & _ & Hm2); [by apply Hm1|].
  unfold __init_waitqueue_head. erewrite bind_ok by done.
  eexists. split; [apply lh_ok; exact R2|]. split; [|done]. split.
  - split; [|constructor|constructor|done|done]. simpl.
    eapply is_list_frame; [exact Hl1|exact Hm2|]. set_solver +.
  - split; constructor.
  - done.
  - intros x w Hx. by apply elem_of_nil in Hx.
  - done.
Qed.

(** The states allowed actions lead to, from the end of [doevent_init]. *)
Inductive reach (s0 : kstate) : esys -> Prop :=
  | reach_init s : doevent_init s0 = Ok (tt, s) -> reach s0 (mk_esys s ∅ ∅)
  | reach_exec st act r st' :
      reach s0 st -> allowed vla_ok act st -> exec vla_ok act st = Ok (r, st') -> reach s0 st'.

Lemma reach_inv s0 st :
  boot_ok s0 -> reach s0 st ->
  sinv st /\ lock (ks st) = RW_LOCK_BIAS /\ irqs_on (ks st) = irqs_on s0 /\
  preempt_count (ks st) = preempt_count s0.
Proof.
  intros Hb. destruct (init_inv s0 Hb) as (s1 & R1 & HI & E1 & E2 & E3).
  induction 1 as [s R|st act r st' _ (Hi & L1 & L2 & L3) Ha R].
  - rewrite R1 in R. injection R as <-. split; [|done]. exists []. by split.
  - destruct (exec_inv act st Hi Ha) as (r' & st'' & R' & Hi' & C1 & C2 & C3).
    rewrite R in R'. injection R' as <- <-. split; [done|]. by rewrite C1, C2, C3.
Qed.

(** ** Calls end *)

(** At most [n] steps are left, whatever the other tasks do in between. *)
Fixpoint ends {A} (n : nat) (p : prog kstate A) : Prop :=
  match p with
  | Done _ => True
  | Step _ m => match n with
                | O => False
                | S n => forall s p' s', m s = Ok (p', s') -> ends n p'
                end
  end.
Definition call_ends (n : nat) (c : call) : Prop :=
  match c with CReturns p => ends n p | CWaits p => ends n p end.

Lemma ends_atomic {A B} n l (m : M kstate A) (k : A -> prog kstate B) :
  (forall v, ends n (k v)) -> ends (S n) (atomic l m k).
Proof. intros Hk. simpl. intros s p' s'. destruct (m s) as [[v s1]|]; [|done]. intros [= <- _]. apply Hk. Qed.
Lemma ends_done {A} n (v : A) : ends n (Done v).
Proof. by destruct n. Qed.

Lemma handler_ends cur req : call_ends 4 (handler vla_ok cur req).
Proof.
  destruct req as [[]|i|i|i U G|i U G|i p1 p2 p3 p4|n p|i]; unfold call_ends, handler, sys_doeventopen,
    sys_doeventclose, sys_doeventsig, signal_waiters, sys_doeventchown, sys_doeventchmod, sys_doeventstat,
    sys_doeventinfo, sys_doeventwait.
  all: repeat first [apply ends_done|apply ends_atomic; intros ?|case_match].
Qed.

Lemma call_at_ends cur c : call_at cur c -> call_ends 4 c.
Proof.
  intros [r _ _| | | | | | | | | | | | | | |]; [apply handler_ends|..]; unfold call_ends, open_rest, close_test,
    close_rest, sig_test, signal_waiters, sig_wake, stat_rest, info_rest, wait_rest.
  all: repeat first [apply ends_done|apply ends_atomic; intros ?|case_match].
Qed.
End Calls.
