(* ===== verification/EventLive.v ===== *)
(** Runs of the transition system, and what a signal brings about.

    A path is a sequence of allowed actions.  Once [sys_doeventsig] has woken
    the queue of an event, every task that waits on the event leaves the
    kernel within five of its own steps, on every path on which nobody clears
    the condition again. *)
From S2P Require Import Prelude ListHead KState UserMem WaitQueue Events EventSpec EventRefine EventUser EventSystem EventCalls.

Section Live.
  Context (vla_ok : Z -> bool).

Inductive path (ok : action -> esys -> Prop) : list action -> esys -> esys -> Prop :=
  | path_nil st : path ok [] st st
  | path_cons act acts st r st1 st' :
      allowed vla_ok act st -> ok act st -> exec vla_ok act st = Ok (r, st1) -> path ok acts st1 st' ->
      path ok (act :: acts) st st'.

(** Any action at all, and any that does not clear the condition of [e]. *)
Definition any (act : action) (st : esys) : Prop := True.
Definition keeps_cond (e : positive) (act : action) (st : esys) : Prop := act_label act st <> Clears (Ptr e).

(** A path as a program: the state it leads to, when every action is allowed
    and passes the test. *)
Fixpoint run_path (ok : action -> esys -> bool) (acts : list action) (st : esys) : option esys :=
  match acts with
  | [] => Some st
  | act :: acts =>
      if allowedb vla_ok act st && ok act st then
        match exec vla_ok act st with Ok (_, st') => run_path ok acts st' | Err _ => None end
      else None
  end.
Definition anyb (act : action) (st : esys) : bool := true.
Definition keeps_condb (e : positive) (act : action) (st : esys) : bool :=
  match act_label act st with Clears (Ptr f) => negb (bool_decide (f = e)) | _ => true end.
Definition after (acts : list action) (st : esys) : esys := default st (run_path anyb acts st).

Lemma keeps_condb_sound e act st : keeps_condb e act st = true -> keeps_cond e act st.
Proof.
  unfold keeps_condb, keeps_cond. intros Hk E. rewrite E in Hk. by rewrite bool_decide_true in Hk.
Qed.

Lemma run_path_sound ok okb acts st st' :
  (forall act st, okb act st = true -> ok act st) -> run_path okb acts st = Some st' -> path ok acts st st'.
Proof.
  intros Hok. revert st. induction acts as [|act acts IH]; intros st R; simpl in R.
  { injection R as <-. constructor. }
  destruct (allowedb vla_ok act st) eqn:Ha; [|done]. destruct (okb act st) eqn:Ho; [|done].
  simpl in R. destruct (exec vla_ok act st) as [[r st1]|] eqn:E; [|done].
  econstructor; [by apply allowedb_sound|by apply Hok|exact E|by apply IH].
Qed.

Lemma run_path_any okb acts st st' : run_path okb acts st = Some st' -> after acts st = st'.
Proof.
  unfold after. revert st. induction acts as [|act acts IH]; intros st R; simpl in R |- *; [by injection R|].
  destruct (allowedb vla_ok act st); [|done]. destruct (okb act st); [|done]. simpl in *.
  destruct (exec vla_ok act st) as [[r st1]|]; [|done]. specialize (IH st1 R).
  destruct (run_path anyb acts st1) as [st2|] eqn:E; [done|]. simpl in IH |- *.
  exfalso. revert E. clear -R. revert st1 R. induction acts as [|act acts IH]; intros st R; simpl in *; [done|].
  destruct (allowedb vla_ok act st); [|done]. destruct (okb act st); [|done]. simpl in *.
  destruct (exec vla_ok act st) as [[r st1]|]; [|done]. by apply IH.
Qed.

(** Paths to concrete states. *)
Lemma path_after ok okb acts st :
  (forall act st, okb act st = true -> ok act st) ->
  match run_path okb acts st with Some _ => true | None => false end = true -> path ok acts st (after acts st).
Proof.
  intros Hok R. destruct (run_path okb acts st) as [st'|] eqn:E; [|done].
  rewrite (run_path_any _ _ _ _ E). by apply (run_path_sound ok okb).
Qed.

Lemma reach_path ok acts s0 st st' : path ok acts st st' -> reach vla_ok s0 st -> reach vla_ok s0 st'.
Proof. induction 1 as [|act acts st r st1 st' Ha _ R _ IH]; [done|]. intros Hr. by eapply IH, reach_exec. Qed.

Lemma reach_after acts s0 st : reach vla_ok s0 st -> reach vla_ok s0 (after acts st).
Proof.
  intros Hr. unfold after. destruct (run_path anyb acts st) as [st'|] eqn:E; [|done].
  apply (reach_path any acts s0 st); [|done]. by apply (run_path_sound any anyb).
Qed.

(** The number of steps of one task. *)
Definition own (w : positive) (acts : list action) : nat := length (filter (fun act => act = AStep w) acts).

Lemma own_cons w act acts : own w (act :: acts) = ((if decide (act = AStep w) then 1 else 0) + own w acts)%nat.
Proof. unfold own. rewrite filter_cons. by case_decide. Qed.

Lemma path_app_inv ok acts1 acts2 st st' :
  path ok (acts1 ++ acts2) st st' -> exists st1, path ok acts1 st st1 /\ path ok acts2 st1 st'.
Proof.
  revert st. induction acts1 as [|act acts1 IH]; intros st Hp; [by exists st; split; [constructor|]|].
  inversion Hp; subst. destruct (IH st1) as (st2 & ? & ?); [done|]. exists st2. split; [|done]. by econstructor.
Qed.

Lemma path_one ok act st st' :
  path ok [act] st st' -> exists r, allowed vla_ok act st /\ ok act st /\ exec vla_ok act st = Ok (r, st').
Proof. intros Hp. inversion Hp as [|? ? ? r st1 ? Ha Ho R Hp']; subst. inversion Hp'; subst. eauto. Qed.

Lemma exec_sinv act st a r st' :
  SInv vla_ok st a -> allowed vla_ok act st -> exec vla_ok act st = Ok (r, st') -> acted vla_ok act st a st'.
Proof.
  intros HS Ha R. destruct (exec_acted vla_ok act st a HS Ha) as (r' & st'' & R' & H).
  rewrite R in R'. by injection R' as <- <-.
Qed.

(** A call stays where it is while its task makes no step. *)
Lemma call_waits act st r st' cur c :
  allowed vla_ok act st -> exec vla_ok act st = Ok (r, st') -> act <> AStep cur -> cs st !! cur = Some c ->
  cs st' !! cur = Some c.
Proof.
  assert (Hset : forall u c' s', u <> cur -> cs (settle u c' s' st).2 !! cur = cs st !! cur).
  { intros u c' s' Hu. destruct c' as [[]|[[]|]]; simpl; by rewrite ?lookup_delete_ne, ?lookup_insert_ne. }
  intros Ha R Hne Hc. destruct act as [u req|u|u]; simpl in R.
  - injection R as R. replace st' with (settle u (handler vla_ok u req) (ks st) st).2 by (by rewrite R).
    rewrite Hset; [done|]. intros ->. destruct Ha as (_ & _ & Hn & _). congruence.
  - assert (u <> cur) by congruence. destruct (cs st !! u) as [d|].
    + destruct (call_step d (ks st)) as [[c' s']|]; [|done]. injection R as R.
      replace st' with (settle u c' s' st).2 by (by rewrite R). by rewrite Hset.
    + destruct (wait_exec u (ks st) (ws st)) as [[v [s' W']]|]; [|done]. by injection R as <- <-.
  - destruct (signal_wake_up u (ks st)) as [[v s']|]; [|done]. by injection R as <- <-.
Qed.

(** The condition of an event stays set while another task uses the event. *)
Lemma cond_kept act st a r st' t e :
  SInv vla_ok st a -> allowed vla_ok act st -> exec vla_ok act st = Ok (r, st') ->
  keeps_cond e act st -> act <> AStep t -> uses st t e -> e ∈ a_addr <$> a ->
  cond_set (ks st) e -> cond_set (ks st') e.
Proof.
  intros HS Ha R Hk Hne Hu Hin Hc. destruct (exec_sinv _ _ _ _ _ HS Ha R) as (a' & o & _ & He & _).
  apply (eff_cond _ _ _ _ _ _ He e Hk); [|done|done]. intros Hl.
  destruct act as [|u|]; [done| |done]. simpl in Hl. destruct (cs st !! u) as [c|] eqn:Eu; [|done].
  destruct Ha as [_ Ha]. specialize (Ha c Eu). rewrite Hl in Ha. apply (Ha t); [congruence|done].
Qed.

(** ** The way out *)

(** Task [w], which waits on [e], leaves within [n] of its steps: the
    condition is set, and the task runs. *)
Definition leaves_in (st : esys) (w e : positive) (n : nat) : Prop :=
  cond_set (ks st) e /\
  exists pc, ws st !! w = Some (Ptr e, pc) /\
    match pc with
    | WEnter | WFinish _ => n = 1%nat
    | WCheck => n = 2%nat
    | WPrepare => n = 3%nat
    | WAsleep => n = 4%nat /\ running (ks st) w
    | WSchedule => n = 5%nat /\ awake (ks st) w
    | WOut _ => False
    end.

Lemma waits_in st a w e pc : SInv vla_ok st a -> ws st !! w = Some (Ptr e, pc) -> e ∈ a_addr <$> a.
Proof.
  intros HS Hpc. destruct (inv_thr _ _ _ (si_inv _ _ _ HS) _ _ _ Hpc) as (x & Hx & [= ->] & _).
  by apply list_elem_of_fmap_2.
Qed.

(** The steps of the other tasks do not delay it. *)
Lemma leaves_other act st a r st' w e n :
  SInv vla_ok st a -> allowed vla_ok act st -> exec vla_ok act st = Ok (r, st') -> keeps_cond e act st ->
  act <> AStep w -> leaves_in st w e n -> leaves_in st' w e n.
Proof.
  intros HS Ha R Hk Hne (Hc & pc & Hpc & Hn). pose proof (waits_in _ _ _ _ _ HS Hpc) as Hin.
  destruct (exec_sinv _ _ _ _ _ HS Ha R) as (a' & o & _ & He & Ho & HW). split.
  - apply (cond_kept act st a r st' w e); try done. left. eauto.
  - exists pc. rewrite HW by (done || by eexists). split; [done|].
    destruct pc; try done; destruct Hn as [-> Hn]; (split; [done|]).
    + apply (eff_awake _ _ _ _ _ _ He); auto.
    + apply (eff_run _ _ _ _ _ _ He); auto.
Qed.

Lemma own_step st w p pc pc' s' :
  cs st !! w = None -> ws st !! w = Some (p, pc) -> wait_step w p pc (ks st) = Ok (Some pc', s') ->
  exec vla_ok (AStep w) st =
    Ok (match pc' with
        | WOut r => (1, mk_esys s' (delete w (ws st)) (cs st))
        | _ => (0, mk_esys s' (<[w := (p, pc')]> (ws st)) (cs st))
        end).
Proof. intros Hc Hpc R. simpl. rewrite Hc. unfold wait_exec. rewrite Hpc, R. by destruct pc'. Qed.

Lemma own_step_err st w p pc f :
  cs st !! w = None -> ws st !! w = Some (p, pc) -> wait_step w p pc (ks st) = Err f ->
  exec vla_ok (AStep w) st = Err f.
Proof. intros Hc Hpc R. simpl. rewrite Hc. unfold wait_exec. by rewrite Hpc, R. Qed.

(** Its own steps bring it closer. *)
Lemma leaves_own st a w e n :
  SInv vla_ok st a -> leaves_in st w e n ->
  exists r st', exec vla_ok (AStep w) st = Ok (r, st') /\
    ((n = 1%nat /\ r = 1 /\ ws st' !! w = None) \/ exists k, n = S k /\ leaves_in st' w e k).
Proof.
  intros HS ((ev & Hev & Hcond) & pc & Hpc & Hn). pose proof (si_inv _ _ _ HS) as HI.
  assert (Hcs : cs st !! w = None).
  { destruct (cs st !! w) as [c|] eqn:Ec; [|done]. destruct (si_call _ _ _ HS _ _ Ec). congruence. }
  destruct (inv_thr _ _ _ HI _ _ _ Hpc) as (x & Hx & [= ->] & [t Ht] & Hok).
  apply list_elem_of_split in Hx as (a1 & a2 & ->).
  destruct (x_event _ _ _ _ _ HI) as [He _ _ _]. rewrite Hev in He. injection He as ->.
  assert (Hct : ctrue (condition (a_ev x)) = true) by (unfold ctrue; by destruct (Z.eqb_spec (condition (a_ev x)) 0)).
  pose proof (get_condition_run _ _ _ _ _ HI) as Rc.
  assert (Hgo : forall pc' s' k, wait_step w (Ptr (a_addr x)) pc (ks st) = Ok (Some pc', s') ->
    match pc' with WOut _ => False | _ => True end -> n = S k ->
    leaves_in (mk_esys s' (<[w := (Ptr (a_addr x), pc')]> (ws st)) (cs st)) w (a_addr x) k ->
    exists r st', exec vla_ok (AStep w) st = Ok (r, st') /\
      ((n = 1%nat /\ r = 1 /\ ws st' !! w = None) \/ exists k, n = S k /\ leaves_in st' w (a_addr x) k)).
  { intros pc' s' k R Hp -> Hl. rewrite (own_step _ _ _ _ _ _ Hcs Hpc R). exists 0. eexists.
    split; [by destruct pc'|]. right. eauto. }
  assert (Hcs' : cond_set (ks st) (a_addr x)) by (by exists (a_ev x)).
  destruct pc; simpl in Hn.
  - exists 1. eexists. rewrite (own_step _ _ _ _ (WOut 0) (ks st) Hcs Hpc);
      [|cbn [wait_step]; rewrite (bind_ok _ _ _ _ _ Rc); by rewrite Hct].
    split; [done|]. left. split_and!; [done|done|]. simpl. apply lookup_delete_eq.
  - destruct (prepare_mid _ _ _ _ _ _ _ HI Ht Hpc) as (s1 & x1 & R & _ & _ & _ & _ & _ & Hef).
    apply (Hgo _ _ 2%nat R I Hn). split; [|eexists; split; [apply lookup_insert_eq|done]].
    apply (eff_cond _ _ _ _ _ _ Hef (a_addr x)); try done. by eapply waits_in.
  - apply (Hgo (WFinish 0) (ks st) 1%nat); [cbn [wait_step]; rewrite (bind_ok _ _ _ _ _ Rc); by rewrite Hct|done|done|].
    split; [done|]. eexists. split; [apply lookup_insert_eq|done].
  - destruct Hn as [-> Hn]. destruct (inv_sleep _ _ _ HI _ _ _ _ Hpc Ht) as (Hrq & _ & _).
    apply (Hgo _ _ 4%nat (schedule_run _ x w t Ht)); [done|done|]. split; [done|].
    eexists. split; [apply lookup_insert_eq|]. split; [done|]. unfold running, awake in *. simpl.
    rewrite lookup_insert_eq. rewrite Ht in Hn. injection Hn as Hn. unfold scheduled. rewrite Hn. simpl. by rewrite Hrq.
  - destruct Hn as [-> Hn]. unfold running in Hn. rewrite Ht in Hn. injection Hn as Hn.
    apply (Hgo WPrepare (ks st) 3%nat); [|done|done|].
    + cbn [wait_step]. erewrite bind_ok by (apply deref_ok, Ht). by rewrite Hn.
    + split; [done|]. eexists. split; [apply lookup_insert_eq|done].
  - destruct (finish_mid _ _ _ _ _ _ _ HI Ht _ Hpc) as (s1 & x1 & R & _).
    do 2 eexists. rewrite (own_step _ _ _ _ _ _ Hcs Hpc R). split; [done|]. left.
    split_and!; [done|done|]. simpl. apply lookup_delete_eq.
  - done.
Qed.

Lemma leaves_path acts : forall st a st' w e n,
  SInv vla_ok st a -> leaves_in st w e n -> path (keeps_cond e) acts st st' -> (n <= own w acts)%nat ->
  exists acts1 acts2 st1 st2, acts = acts1 ++ AStep w :: acts2 /\ path (keeps_cond e) acts1 st st1 /\
    exec vla_ok (AStep w) st1 = Ok (1, st2) /\ ws st2 !! w = None /\ (own w acts1 < n)%nat.
Proof.
  induction acts as [|act acts IH]; intros st a st' w e n HS Hl Hp Hn.
  { exfalso. unfold own in Hn. simpl in Hn. destruct Hl as (_ & pc & _ & Hpc). destruct pc; destruct_and?; lia. }
  inversion Hp as [|? ? ? r st1 ? Ha Hk R Hp']; subst. rewrite own_cons in Hn.
  destruct (exec_sinv _ _ _ _ _ HS Ha R) as (a1 & o & HS1 & _).
  case_decide as Hd.
  - subst act. destruct (leaves_own _ _ _ _ _ HS Hl) as (r' & st1' & R' & Hor). rewrite R in R'. injection R' as <- <-.
    destruct Hor as [(-> & -> & Hw)|(k & -> & Hl')].
    { exists [], acts, st, st1. split_and!; try done; [constructor|unfold own; simpl; lia]. }
    destruct (IH st1 a1 st' w e k HS1 Hl' Hp') as (p1 & p2 & s1 & s2 & -> & Hp1 & R2 & Hw & Hlt); [lia|].
    exists (AStep w :: p1), p2, s1, s2. split_and!; try done; [by econstructor|].
    rewrite own_cons, decide_True by done. lia.
  - pose proof (leaves_other _ _ _ _ _ _ _ _ HS Ha R Hk Hd Hl) as Hl'.
    destruct (IH st1 a1 st' w e n HS1 Hl' Hp') as (p1 & p2 & s1 & s2 & -> & Hp1 & R2 & Hw & Hlt); [lia|].
    exists (act :: p1), p2, s1, s2. split_and!; try done; [by econstructor|].
    rewrite own_cons, decide_False by done. lia.
Qed.

(** ** A signal under way *)

Lemma path_sinv ok acts st st' : path ok acts st st' -> sinv vla_ok st -> sinv vla_ok st'.
Proof.
  induction 1 as [|act acts st r st1 st' Ha _ R _ IH]; [done|]. intros [a HS].
  destruct (exec_sinv _ _ _ _ _ HS Ha R) as (a' & o & HS' & _). apply IH. by exists a'.
Qed.

Lemma path_call ok acts st st' cur c :
  path ok acts st st' -> AStep cur ∉ acts -> cs st !! cur = Some c -> cs st' !! cur = Some c.
Proof.
  induction 1 as [|act acts st r st1 st' Ha _ R _ IH]; [done|]. rewrite not_elem_of_cons. intros [Hne Hn] Hc.
  apply IH; [done|]. by apply (call_waits _ _ _ _ _ _ Ha R).
Qed.

(** The condition stays set while a call holds a pointer to the event. *)
Lemma path_cond acts st st' cur c e :
  path (keeps_cond e) acts st st' -> sinv vla_ok st -> AStep cur ∉ acts -> cs st !! cur = Some c ->
  next_label c = Uses (Ptr e) -> cond_set (ks st) e -> cond_set (ks st') e.
Proof.
  induction 1 as [|act acts st r st1 st' Ha Hk R _ IH]; [done|].
  intros [a HS] [Hne Hn]%not_elem_of_cons Hc Hl Hs. assert (act <> AStep cur) by congruence.
  destruct (exec_sinv _ _ _ _ _ HS Ha R) as (a' & o & HS' & _). apply IH; [by exists a'|done| |done|].
  - by eapply call_waits.
  - destruct (si_call _ _ _ HS _ _ Hc) as (_ & _ & _ & Hok). rewrite Hl in Hok.
    apply (cond_kept act st a r st1 cur e); try done. right. exists c. split; [done|]. by left.
Qed.

Lemma call_exec {A} st cur l (m : M kstate A) (k : A -> prog kstate Z) v s' :
  cs st !! cur = Some (CReturns (atomic l m k)) -> m (ks st) = Ok (v, s') ->
  exec vla_ok (AStep cur) st = Ok (settle cur (CReturns (k v)) s' st).
Proof. intros Hc R. simpl. rewrite Hc. simpl. by rewrite R. Qed.

Lemma returns_ws st cur p r st' :
  cs st !! cur = Some (CReturns p) -> exec vla_ok (AStep cur) st = Ok (r, st') -> ws st' = ws st.
Proof.
  intros Hc R. simpl in R. rewrite Hc in R. destruct p as [v|l m]; simpl in R; [by injection R as <- <-|].
  destruct (m (ks st)) as [[[v|l' m'] s']|]; simpl in R; by simplify_eq.
Qed.

(** The look-up of a permitted signal. *)
Lemma found_step st a cur t x :
  rep (ks st) a -> ids_ok a -> tasks (ks st) !! cur = Some t -> find_event (a_id x) a = Some x ->
  may_signal t (a_ev x) = true -> cs st !! cur = Some (CReturns (sys_doeventsig cur (a_id x))) ->
  exec vla_ok (AStep cur) st =
    Ok (0, mk_esys (ks st) (ws st) (<[cur := CReturns (sig_test (a_addr x))]> (cs st))).
Proof.
  intros Hr Hi Ht E Hm Hc. unfold sys_doeventsig in Hc. rewrite isValidEventId_neg in Hc.
  destruct (Z.ltb_spec (a_id x) 0); [by rewrite find_event_neg in E|].
  rewrite (call_exec _ _ _ _ _ _ _ Hc (lookup_event_run cur t (a_id x) _ _ Hr Ht)).
  unfold found. by rewrite E, Hm.
Qed.

(** A task that sleeps on an event is on its queue. *)
Lemma asleep_queued s W a1 x a2 w :
  Inv s W (a1 ++ x :: a2) -> W !! w = Some (Ptr (a_addr x), WAsleep) -> on_rq <$> tasks s !! w = Some false ->
  w ∈ a_waiters x.
Proof.
  intros HI Hpc (tk & Ht & Hrq)%fmap_Some. destruct (inv_sleep _ _ _ HI _ _ _ _ Hpc Ht) as [Hin _]; [done|].
  rewrite elem_of_others_mid in Hin. destruct Hin as [|Hin]; [done|]. by destruct (cur_elsewhere _ _ _ _ _ _ HI _ Hpc).
Qed.

(** [waitqueue_active] sees a sleeper. *)
Lemma test_step st a cur w e :
  SInv vla_ok st a -> cs st !! cur = Some (CReturns (sig_test e)) ->
  ws st !! w = Some (Ptr e, WAsleep) -> on_rq <$> tasks (ks st) !! w = Some false ->
  exec vla_ok (AStep cur) st =
    Ok (0, mk_esys (ks st) (ws st) (<[cur := CReturns (signal_waiters (Ptr e))]> (cs st))).
Proof.
  intros HS Hc Hpc Hrq. destruct (held_event _ _ (waits_in _ _ _ _ _ HS Hpc)) as (a1 & x & a2 & -> & ->).
  pose proof (si_inv _ _ _ HS) as HI. pose proof (asleep_queued _ _ _ _ _ _ HI Hpc Hrq) as Hw.
  destruct (x_event _ _ _ _ _ HI) as [_ Hl _ _].
  erewrite call_exec; [|exact Hc|erewrite bind_ok by done; apply (waitqueue_active_run _ _ _ Hl)].
  rewrite bool_decide_false; [done|]. intros E. rewrite E in Hw. by apply elem_of_nil in Hw.
Qed.

(** The section sets the condition. *)
Lemma section_step st a cur e :
  SInv vla_ok st a -> cs st !! cur = Some (CReturns (signal_waiters (Ptr e))) ->
  exists n s', exec vla_ok (AStep cur) st =
      Ok (0, mk_esys s' (ws st) (<[cur := CReturns (sig_wake e n)]> (cs st))) /\
    cond_set s' e /\ tasks s' = tasks (ks st).
Proof.
  intros HS Hc. destruct (si_call _ _ _ HS _ _ Hc) as (_ & _ & _ & Hok).
  destruct (held_event _ _ Hok) as (a1 & x & a2 & -> & ->). pose proof (si_inv _ _ _ HS) as HI.
  do 2 eexists. split; [erewrite call_exec; [|exact Hc|apply (sig_section_run _ a1 x a2), HI]; reflexivity|].
  split; [|done]. eexists. split; [apply lookup_insert_eq|done].
Qed.

(** After the queue is woken, every task that waits on the event is on its
    way out. *)
Lemma wake_step st a cur e n w pc r st' :
  SInv vla_ok st a -> cs st !! cur = Some (CReturns (sig_wake e n)) -> cond_set (ks st) e ->
  ws st !! w = Some (Ptr e, pc) -> exec vla_ok (AStep cur) st = Ok (r, st') ->
  exists k, (k <= 5)%nat /\ leaves_in st' w e k.
Proof.
  intros HS Hc Hcond Hpc R. destruct (held_event _ _ (waits_in _ _ _ _ _ HS Hpc)) as (a1 & x & a2 & -> & ->).
  pose proof (si_inv _ _ _ HS) as HI. destruct (si_call _ _ _ HS _ _ Hc) as (Hidle & _).
  destruct (inv_wake _ _ _ Hidle Quiet a1 x a2 HI) as (s' & Rw & _ & Hef & Hev & Hts).
  rewrite (call_exec _ _ _ _ _ _ _ Hc Rw) in R. simpl in R. injection R as <- <-.
  destruct (inv_thr _ _ _ HI _ _ _ Hpc) as (x0 & _ & _ & [t Ht] & Hok).
  pose proof (inv_sleep _ _ _ HI _ _ _ _ Hpc Ht) as Hsl.
  destruct (rep_waiters_split _ _ _ _ (inv_rep _ _ _ HI)) as (Hnd & _ & _).
  assert (Hc' : cond_set s' (a_addr x)) by (unfold cond_set in *; by rewrite Hev).
  assert (Hwoken : w ∈ others (a1 ++ x :: a2) -> tasks s' !! w = Some (woken TASK_NORMAL t)).
  { rewrite elem_of_others_mid. intros [Hin|Hin]; [|by destruct (cur_elsewhere _ _ _ _ _ _ HI _ Hpc)].
    by rewrite Hts, wake_tasks_lookup, decide_True, Ht by done. }
  assert (Hpick : forall k, (k <= 5)%nat ->
    match pc with WEnter | WFinish _ => k = 1%nat | WCheck => k = 2%nat | WPrepare => k = 3%nat
    | WAsleep => k = 4%nat /\ running s' w | WSchedule => k = 5%nat /\ awake s' w | WOut _ => False end ->
    exists k, (k <= 5)%nat /\ leaves_in (mk_esys s' (ws st) (delete cur (cs st))) w (a_addr x) k).
  { intros k Hk Hm. exists k. split; [done|]. split; [done|]. by exists pc. }
  destruct pc; simpl in Hsl.
  - by apply (Hpick 1%nat); [lia|].
  - by apply (Hpick 3%nat); [lia|].
  - by apply (Hpick 2%nat); [lia|].
  - apply (Hpick 5%nat); [lia|]. split; [done|]. destruct Hsl as (Hrq & Hin & Hst). unfold awake.
    rewrite (Hwoken Hin). unfold woken. simpl. by destruct Hst as [E|E]; rewrite E; simpl; rewrite ?E.
  - apply (Hpick 4%nat); [lia|]. split; [done|]. destruct (on_rq t) eqn:Hrq.
    + apply (eff_run _ _ _ _ _ _ Hef); [done|]. unfold running. by rewrite Ht; simpl; rewrite Hrq.
    + destruct (Hsl eq_refl) as [Hin Hst]. unfold running. rewrite (Hwoken Hin). unfold woken. by rewrite Hst.
  - by apply (Hpick 1%nat); [lia|].
  - by destruct Hok.
Qed.

(** The whole signal, from the test of the queue on: the steps of [cur] and
    of the other tasks interleave as they like, but nobody clears the
    condition after the critical section. *)
Lemma signal_reaches st0 a cur w e pc acts0 acts1 acts2 st1 st2 st3 :
  SInv vla_ok st0 a -> cs st0 !! cur = Some (CReturns (sig_test e)) ->
  ws st0 !! w = Some (Ptr e, WAsleep) -> on_rq <$> tasks (ks st0) !! w = Some false ->
  AStep cur ∉ acts0 ++ acts1 ->
  path any (AStep cur :: acts0 ++ [AStep cur]) st0 st1 ->
  path (keeps_cond e) (acts1 ++ [AStep cur]) st1 st2 -> ws st2 !! w = Some (Ptr e, pc) ->
  path (keeps_cond e) acts2 st2 st3 -> (5 <= own w acts2)%nat ->
  exists acts3 acts4 st4 st5, acts2 = acts3 ++ AStep w :: acts4 /\ path (keeps_cond e) acts3 st2 st4 /\
    exec vla_ok (AStep w) st4 = Ok (1, st5) /\ ws st5 !! w = None /\ (own w acts3 < 5)%nat.
Proof.
  intros HS Hc Hpc Hrq [Hn0 Hn1]%not_elem_of_app Hp0 Hp1 Hw Hp2 Hown.
  inversion Hp0 as [|? ? ? r sa ? Ha _ R Hp0']; subst. clear Hp0.
  rewrite (test_step _ _ _ _ _ HS Hc Hpc Hrq) in R. injection R as <- <-.
  apply path_app_inv in Hp0' as (sb & Hpb & Hp0').
  assert (Hsb : sinv vla_ok sb).
  { apply (path_sinv _ _ _ _ Hpb). destruct (step_acted vla_ok cur st0 a HS Ha) as (r & st' & R & a' & o & HS' & _).
    rewrite (test_step _ _ _ _ _ HS Hc Hpc Hrq) in R. injection R as <- <-. by exists a'. }
  pose proof (path_call _ _ _ _ cur _ Hpb Hn0 (lookup_insert_eq _ _ _)) as Hcb.
  apply path_one in Hp0' as (r & Hab & _ & R). destruct Hsb as [ab HSb].
  destruct (section_step _ _ _ _ HSb Hcb) as (n & s' & R' & Hcond & _). rewrite R in R'. injection R' as -> ->.
  destruct (exec_sinv _ _ _ _ _ HSb Hab R) as (a1 & o & HS1 & _).
  apply path_app_inv in Hp1 as (sc & Hpc' & Hp1).
  pose proof (path_sinv _ _ _ _ Hpc' (ex_intro _ _ HS1)) as [ac HSc].
  pose proof (path_call _ _ _ _ cur _ Hpc' Hn1 (lookup_insert_eq _ _ _)) as Hcc.
  pose proof (path_cond _ _ _ cur _ e Hpc' (ex_intro _ _ HS1) Hn1 (lookup_insert_eq _ _ _) eq_refl Hcond) as Hcondc.
  apply path_one in Hp1 as (r2 & Hac & _ & R2).
  destruct (exec_sinv _ _ _ _ _ HSc Hac R2) as (a2 & o2 & HS2 & _ & _ & HW2).
  rewrite (returns_ws _ _ _ _ _ Hcc R2) in Hw.
  destruct (wake_step _ _ _ _ _ _ _ _ _ HSc Hcc Hcondc Hw R2) as (k & Hk & Hl).
  destruct (leaves_path acts2 st2 a2 st3 w e k HS2 Hl Hp2) as (p1 & p2 & s4 & s5 & Hacts & Hpp & Rw & Hww & Hlt); [lia|].
  exists p1, p2, s4, s5. split_and!; try done. lia.
Qed.

(** A state in which a permitted signal has found its event. *)
Definition with_call (cur : positive) (c : call) (st : esys) : esys :=
  mk_esys (ks st) (ws st) (<[cur := c]> (cs st)).

Lemma with_call_ne cur c st t : t <> cur -> cs (with_call cur c st) !! t = cs st !! t.
Proof. intros Hne. simpl. by rewrite lookup_insert_ne. Qed.

Lemma reach_found s0 st a cur t x :
  reach vla_ok s0 st -> rep (ks st) a -> ids_ok a -> tasks (ks st) !! cur = Some t ->
  find_event (a_id x) a = Some x -> may_signal t (a_ev x) = true ->
  allowed vla_ok (ABegin cur (RSig (a_id x))) st ->
  reach vla_ok s0 (with_call cur (CReturns (sig_test (a_addr x)))
    (with_call cur (CReturns (sys_doeventsig cur (a_id x))) st)).
Proof.
  intros Hre Hr Hi Ht E Hm Ha. set (p := CReturns (sys_doeventsig cur (a_id x))).
  assert (R : exec vla_ok (ABegin cur (RSig (a_id x))) st = Ok (0, with_call cur p st) /\ next_label p = Quiet).
  { unfold p. simpl. unfold sys_doeventsig. rewrite isValidEventId_neg.
    by destruct (Z.ltb_spec (a_id x) 0); [rewrite find_event_neg in E|]. }
  destruct R as [R Hl]. apply (reach_exec _ _ (with_call cur p st) (AStep cur) 0).
  - by apply (reach_exec _ _ st (ABegin cur (RSig (a_id x))) 0).
  - split; [by exists t|]. simpl. intros c. rewrite lookup_insert_eq. intros [= <-]. by rewrite Hl.
  - apply (found_step _ a cur t x); try done. apply lookup_insert_eq.
Qed.

(** And one in which a permitted wait is about to clear the condition. *)
Lemma reach_waits s0 st a u t x :
  reach vla_ok s0 st -> rep (ks st) a -> tasks (ks st) !! u = Some t ->
  find_event (a_id x) a = Some x -> may_signal t (a_ev x) = true -> 0 <= a_id x ->
  allowed vla_ok (ABegin u (RWait (a_id x))) st ->
  reach vla_ok s0 (with_call u (CWaits (wait_rest (a_addr x)))
    (with_call u (CWaits (sys_doeventwait u (a_id x))) st)).
Proof.
  intros Hre Hr Ht E Hm Hx Ha. set (p := CWaits (sys_doeventwait u (a_id x))).
  assert (R : exec vla_ok (ABegin u (RWait (a_id x))) st = Ok (0, with_call u p st) /\ next_label p = Quiet /\
    exec vla_ok (AStep u) (with_call u p st) = Ok (0, with_call u (CWaits (wait_rest (a_addr x))) (with_call u p st))).
  { unfold p. simpl. rewrite lookup_insert_eq. unfold sys_doeventwait. rewrite isValidEventId_neg.
    destruct (Z.ltb_spec (a_id x) 0); [lia|]. split; [done|]. split; [done|]. simpl.
    rewrite (lookup_event_run u t (a_id x) _ _ Hr Ht). unfold found. by rewrite E, Hm. }
  destruct R as (R & Hl & R'). apply (reach_exec _ _ (with_call u p st) (AStep u) 0); [| |exact R'].
  - by apply (reach_exec _ _ st (ABegin u (RWait (a_id x))) 0).
  - split; [by exists t|]. simpl. intros c. rewrite lookup_insert_eq. intros [= <-]. by rewrite Hl.
Qed.

Lemma reach_signalling s0 st cur w e :
  boot_ok s0 -> reach vla_ok s0 st -> cs st !! cur = Some (CReturns (sig_test e)) ->
  ws st !! w = Some (Ptr e, WAsleep) -> on_rq <$> tasks (ks st) !! w = Some false ->
  reach vla_ok s0 (with_call cur (CReturns (signal_waiters (Ptr e))) st).
Proof.
  intros Hb Hre Hc Hpc Hrq. destruct (reach_inv _ _ _ Hb Hre) as [[a HS] _].
  destruct (si_call _ _ _ HS _ _ Hc) as (_ & Hrun & _).
  apply (reach_exec _ _ st (AStep cur) 0); [done| |by apply (test_step st a cur w e)].
  split; [unfold running in Hrun; apply fmap_Some in Hrun as (? & ? & _); by eexists|].
  intros c Hc'. rewrite Hc in Hc'. by injection Hc' as <-.
Qed.
End Live.
