(* ===== verification/EventProps.v ===== *)
(** What the event system calls guarantee: the properties of files
    [EventRefine], [EventUser], [EventCalls] and [EventLive], each with an
    instance on a concrete machine. *)
From S2P Require Import Prelude ListHead KState UserMem WaitQueue Events EventSpec EventRefine EventUser EventSystem EventCalls EventLive.

(** ** A concrete machine *)

(** Task 1 is root, tasks 2, 3 and 4 are ordinary users, 2 and 4 the same one; 64 bytes of user memory
    start at address 4096, and 64 that can only be read at address 8192. *)
Definition ex_task (u g : Z) : task_struct := mk_task TASK_RUNNING true false u g.
Definition ex_boot : kstate :=
  mk_kstate (<[Call := mk_list_head Call Call]> {[Cq Qall := mk_list_head Call Call]}) ∅ ∅ ∅
    (<[1%positive := ex_task 0 0]> (<[2%positive := ex_task 100 10]>
       (<[4%positive := ex_task 100 10]> {[3%positive := ex_task 200 20]})))
    0 0 true 0 (list_to_map (((fun n => (4096 + Z.of_nat n, (0, true))) <$> seq 0 64) ++
       ((fun n => (8192 + Z.of_nat n, (0, false))) <$> seq 0 64))).
Definition ex_junk (e : positive) : junk :=
  mk_junk e (mk_event 7 7 7 7 7 7) (mk_list_head Call Call) (mk_list_head Call Call) true.
Definition ex_vla (n : Z) : bool := (0 <=? n) && (n <=? 1024).

Definition ok_state {A} (d : A) (r : res (Z * A)) : A := match r with Ok (_, a) => a | Err _ => d end.
Definition ex_init : kstate := match doevent_init ex_boot with Ok (_, s) => s | Err _ => ex_boot end.

Definition ex_start : esys := mk_esys ex_init ∅ ∅.

(** Task 2 has created event 0 at address 10. *)
Definition ex_open : list action :=
  [ABegin 2 (ROpen (Some (ex_junk 10))); AStep 2; AStep 2; AStep 2].
Definition ex_opened : esys := after ex_vla ex_open ex_start.
Definition ex_events : list aevent := [mk_aevent 10 (mk_event 0 100 10 1 1 0) []].
(** Task 1 sleeps on it. *)
Definition ex_sleep : list action := [ABegin 1 (RWait 0); AStep 1; AStep 1; AStep 1; AStep 1; AStep 1; AStep 1].
Definition ex_asleep : esys := after ex_vla ex_sleep ex_opened.
Definition ex_events' : list aevent := [mk_aevent 10 (mk_event 0 100 10 1 1 0) [1%positive]].

Ltac solve_path := repeat split; vm_compute; reflexivity.
Ltac solve_list := split; [apply (bool_decide_unpack _); vm_compute; exact I|solve_path].
Ltac solve_own := split; [eexists; split; vm_compute; reflexivity|eexists; vm_compute; reflexivity].
Ltac solve_event :=
  split; [vm_compute; reflexivity|solve_list|vm_compute; reflexivity
         |repeat (apply Forall_cons; split; [solve_own|]); by apply Forall_nil].
Ltac solve_rep :=
  split; [solve_list|repeat (apply Forall_cons; split; [solve_event|]); by apply Forall_nil
         |apply (bool_decide_unpack _); vm_compute; exact I|vm_compute; reflexivity|vm_compute; reflexivity].

Lemma ex_rep0 : rep ex_init [].
Proof. solve_rep. Qed.
Lemma ex_rep : rep (ks ex_opened) ex_events.
Proof. solve_rep. Qed.
Lemma ex_rep' : rep (ks ex_asleep) ex_events'.
Proof. solve_rep. Qed.

Lemma ex_boot_ok : boot_ok ex_boot.
Proof. split; eexists; vm_compute; reflexivity. Qed.

Lemma ex_reach_start : reach ex_vla ex_boot ex_start.
Proof. apply reach_init. vm_compute. reflexivity. Qed.
Lemma ex_reach_opened : reach ex_vla ex_boot ex_opened.
Proof. apply reach_after, ex_reach_start. Qed.
Lemma ex_reach_asleep : reach ex_vla ex_boot ex_asleep.
Proof. apply reach_after, ex_reach_opened. Qed.

(** ** Safety *)

(** C1: in every state that allowed actions can reach, whatever the number of
    tasks and however the critical sections and the unlocked steps of their
    calls and waits interleave, an allowed action ends without a bad memory
    access, an uninitialised read or a deadlock, and leaves the lock free and
    the interrupt flag and the preemption count as they were at boot; and
    every call under way ends, or begins to wait, within four of its own
    steps, whatever the other tasks do in between.  The rules of [allowed]: a
    new event lies in free memory and is linked while all ids are below
    [INT_MAX]; an event is removed only when no other task waits on it or
    holds a pointer to it; chown, chmod and stat search only a list that is
    not empty; the array of info fits the stack and there are at most
    [INT_MAX] events.  A critical section is one step. *)
Theorem reachable_calls_safe vla_ok s0 st act :
  boot_ok s0 -> reach vla_ok s0 st -> allowed vla_ok act st ->
  (exists r st', exec vla_ok act st = Ok (r, st') /\ lock (ks st') = RW_LOCK_BIAS /\
     irqs_on (ks st') = irqs_on s0 /\ preempt_count (ks st') = preempt_count s0) /\
  (forall cur c, cs st !! cur = Some c -> call_ends 4 c).
Proof.
  intros Hb Hr Ha. destruct (reach_inv _ _ _ Hb Hr) as ([a HS] & L1 & L2 & L3). split.
  - destruct (exec_inv vla_ok act st (ex_intro _ a HS) Ha) as (r & st' & R & _ & C1 & C2 & C3).
    exists r, st'. by rewrite C1, C2, C3.
  - intros cur c Hc. destruct (si_call _ _ _ HS _ _ Hc) as (_ & _ & Hat & _). by eapply call_at_ends.
Qed.

(** Task 2 is about to set the condition of the event task 1 sleeps on. *)
Definition ex_signalling : esys := after ex_vla [ABegin 2 (RSig 0); AStep 2; AStep 2] ex_asleep.

Lemma reachable_calls_safe_witness :
  exists r st', exec ex_vla (AStep 2) ex_signalling = Ok (r, st') /\ lock (ks st') = RW_LOCK_BIAS /\
    irqs_on (ks st') = irqs_on ex_boot /\ preempt_count (ks st') = preempt_count ex_boot.
Proof.
  apply (reachable_calls_safe ex_vla ex_boot ex_signalling (AStep 2)).
  - apply ex_boot_ok.
  - apply reach_after, ex_reach_asleep.
  - apply allowedb_sound. vm_compute. reflexivity.
Defined.

(** C2: in every state that allowed actions can reach the ids of the events on
    the list increase strictly and are non-negative, and a task that sleeps in
    [wait_event_interruptible] can be woken and is on the wait queue of the
    event it waits on, which is live, so no wake-up of that queue can miss
    it. *)
Theorem reachable_sleeper_queued vla_ok s0 st :
  boot_ok s0 -> reach vla_ok s0 st ->
  (exists a, is_list (cells (ks st)) Call (Cev <$> (a_addr <$> a)) /\ ids_ok a /\
     Forall (fun x => events (ks st) !! a_addr x = Some (a_ev x)) a) /\
  (forall t p pc tk, ws st !! t = Some (p, pc) -> tasks (ks st) !! t = Some tk -> on_rq tk = false ->
     state tk = TASK_INTERRUPTIBLE /\
     exists e ev l, p = Ptr e /\ events (ks st) !! e = Some ev /\
       is_list (cells (ks st)) (Cq (Qev e)) l /\ Cw t ∈ l).
Proof.
  intros Hb Hr. destruct (reach_inv _ _ _ Hb Hr) as [[a HS] _]. pose proof (si_inv _ _ _ HS) as HI.
  pose proof (inv_rep _ _ _ HI) as Hrep. split.
  { exists a. split; [apply Hrep|]. split; [apply HI|apply (rep_event_ev _ _ Hrep)]. }
  intros t p pc tk Hpc Ht Hoff. pose proof (inv_sleep _ _ _ HI _ _ _ _ Hpc Ht) as Hs.
  assert (Hin : t ∈ others a /\ state tk = TASK_INTERRUPTIBLE).
  { destruct pc; simpl in Hs; try congruence; try (by apply Hs); destruct Hs; congruence. }
  destruct Hin as [Hin Hst]. split; [done|].
  apply elem_of_others in Hin as (x & Hx & Hw). destruct (inv_wait _ _ _ HI _ _ Hx Hw) as [pc' Hpc'].
  pose proof (rep_events _ _ Hrep) as Hall. rewrite Forall_forall in Hall.
  destruct (Hall x Hx) as [He Hl _ _]. exists (a_addr x), (a_ev x), (Cw <$> a_waiters x).
  split; [congruence|]. split; [done|]. split; [done|]. by apply list_elem_of_fmap_2.
Qed.

Lemma reachable_sleeper_queued_witness :
  exists e ev l, Ptr 10 = Ptr e /\ events (ks ex_asleep) !! e = Some ev /\
    is_list (cells (ks ex_asleep)) (Cq (Qev e)) l /\ Cw 1 ∈ l.
Proof.
  destruct (reachable_sleeper_queued ex_vla ex_boot ex_asleep ex_boot_ok ex_reach_asleep) as [_ H].
  apply (H 1%positive (Ptr 10) WAsleep (mk_task TASK_INTERRUPTIBLE false false 0 0)); vm_compute; reflexivity.
Defined.

(** ** Each call implements its specification *)

(** C6: [sys_doeventopen] appends one event whose id is one more than that of
    the last event, owned by the caller, with both permission flags set and no
    waiters; it returns that id and changes nothing else, and the ids still
    increase.  When the last id is the largest [int] the new id is the smallest
    one, and the ids do not increase any more.  When the allocator fails the
    call returns -1 and changes nothing. *)
Theorem doeventopen_correct current t j s a :
  rep s a -> ids_ok a -> tasks s !! current = Some t -> j_addr j ∉ a_addr <$> a ->
  let i := if last_id a <? INT_MAX then last_id a + 1 else INT_MIN in
  let x := mk_aevent (j_addr j) (mk_event i (euid t) (egid t) 1 1 0) [] in
  (exists s', run (sys_doeventopen current (Some j)) s = Ok (i, s') /\ rep s' (a ++ [x]) /\
     tasks s' = tasks s /\ same_cpu s s') /\
  (ids_ok (a ++ [x]) <-> last_id a < INT_MAX) /\
  run (sys_doeventopen current None) s = Ok (-1, s).
Proof.
  intros Hr Hi Ht Hn i x. destruct (last_id_bound _ Hi) as [Hlb Hub].
  assert (Hs : s32 (last_id a + 1) = i).
  { unfold i. destruct (Z.ltb_spec (last_id a) INT_MAX).
    - apply swrap_small; unfold INT_MAX in *; lia.
    - by replace (last_id a) with INT_MAX by lia. }
  split; [|split; [|done]].
  - destruct (open_implements current t j s a Hr Ht Hn) as (s' & R & Hr' & Ht' & Hc & _).
    unfold spec_open in *. cbn [fst snd] in *. rewrite Hs in R, Hr'. by exists s'.
  - unfold x, i. destruct (Z.ltb_spec (last_id a) INT_MAX); split; try done; [intros _|intros Hi'|lia].
    + apply ids_ok_snoc; [done|done|]. unfold a_id. simpl. lia.
    + exfalso. destruct Hi' as [_ Hf]. rewrite fmap_app in Hf. apply Forall_app in Hf as [_ Hf]. apply Forall_cons in Hf as [Hf _].
      unfold a_id in Hf. simpl in Hf. unfold INT_MIN in Hf. lia.
Qed.

Lemma ex_ids0 : ids_ok [].
Proof. split; constructor. Qed.
Lemma ex_ids : ids_ok ex_events.
Proof. split; repeat constructor; vm_compute; congruence. Qed.
Lemma ex_ids' : ids_ok ex_events'.
Proof. split; repeat constructor; vm_compute; congruence. Qed.

Lemma doeventopen_correct_witness :
  run (sys_doeventopen 3 None) (ks ex_opened) = Ok (-1, (ks ex_opened)) /\
  exists s', run (sys_doeventopen 3 (Some (ex_junk 11))) (ks ex_opened) = Ok (1, s').
Proof.
  destruct (doeventopen_correct 3 (ex_task 200 20) (ex_junk 11) (ks ex_opened) ex_events)
    as [(s' & R & _) [_ H]]; [apply ex_rep|apply ex_ids|vm_compute; reflexivity
    |apply (bool_decide_unpack _); vm_compute; exact I|].
  split; [exact H|]. exists s'. exact R.
Defined.

(** C4: [sys_doeventclose] by a task with permission removes exactly the event
    with the given id, wakes every task asleep on it and returns the number of
    tasks on its queue; otherwise it returns -1 and nothing changes.  *)
Theorem doeventclose_correct current t eventID s a :
  rep s a -> ids_ok a -> tasks s !! current = Some t ->
  implements (sys_doeventclose current eventID) s a (spec_close t eventID a (tasks s)) /\
  ids_ok (spec_close t eventID a (tasks s)).1.2.
Proof.
  intros Hr Hi Ht. split; [by apply close_implements|].
  unfold spec_close. destruct (find_event eventID a) as [x|] eqn:E; [|done].
  destruct (may_signal t (a_ev x)); [|done].
  apply find_event_split in E as (a1 & a2 & -> & Hx & _). simpl. rewrite filter_out_split by done.
  by eapply ids_ok_remove.
Qed.

Lemma doeventclose_correct_witness :
  exists s', run (sys_doeventclose 2 0) (ks ex_asleep) = Ok (1, s') /\ rep s' [].
Proof.
  destruct (doeventclose_correct 2 (ex_task 100 10) 0 (ks ex_asleep) ex_events')
    as [(s' & R & Hr & _) _]; [apply ex_rep'|apply ex_ids'|vm_compute; reflexivity|].
  exists s'. split; [exact R|exact Hr].
Defined.

(** C5: [sys_doeventsig] by a task with permission returns the number of tasks
    on the queue of the event; when there are any it sets the condition, wakes
    every task that sleeps and takes exactly those off the queue.  A signal to
    an event nobody waits on changes nothing.  Without permission, or for an
    unknown id, the call returns -1 and nothing changes. *)
Theorem doeventsig_correct current t eventID s a :
  rep s a -> ids_ok a -> tasks s !! current = Some t ->
  implements (sys_doeventsig current eventID) s a (spec_sig t eventID a (tasks s)).
Proof. apply sig_implements. Qed.

Lemma doeventsig_correct_witness :
  exists s', run (sys_doeventsig 2 0) (ks ex_asleep) = Ok (1, s') /\
    rep s' [mk_aevent 10 (mk_event 0 100 10 1 1 1) []].
Proof.
  destruct (doeventsig_correct 2 (ex_task 100 10) 0 (ks ex_asleep) ex_events')
    as (s' & R & Hr & _); [apply ex_rep'|apply ex_ids'|vm_compute; reflexivity|].
  exists s'. split; [exact R|exact Hr].
Defined.

(** C7: with at least one event on the list, [sys_doeventchown] and
    [sys_doeventchmod] by root or by the owner change exactly the owner,
    respectively the two flags, of the event and return 0; otherwise they
    return -1 and nothing changes.  With an empty list they return -1 for a
    negative id and read their uninitialised pointer for every other. *)
Theorem doeventchange_correct current t eventID U G s a :
  rep s a -> ids_ok a -> tasks s !! current = Some t ->
  match a with
  | [] =>
      let r := if eventID <? 0 then Ok (-1, s) else Err Uninit in
      run (sys_doeventchown current eventID U G) s = r /\ run (sys_doeventchmod current eventID U G) s = r
  | _ =>
      implements (sys_doeventchown current eventID U G) s a
        (spec_change t eventID (set_owner (u32 U) (u32 G)) a (tasks s)) /\
      implements (sys_doeventchmod current eventID U G) s a
        (spec_change t eventID (set_mode U G) a (tasks s))
  end.
Proof.
  intros Hr Hi Ht. destruct a as [|x a]; [|split; [by apply chown_implements|by apply chmod_implements]].
  pose proof (uwrap_range 32 U ltac:(lia)). pose proof (uwrap_range 32 G ltac:(lia)).
  unfold sys_doeventchown, sys_doeventchmod. rewrite isValidEventId_neg.
  destruct (Z.ltb_spec eventID 0); [done|]. destruct (Z.ltb_spec (u32 U) 0); [lia|].
  destruct (Z.ltb_spec (u32 G) 0); [lia|]. cbn [orb]. split; by apply (change_uninit current t).
Qed.

Lemma doeventchange_correct_witness :
  (exists s', run (sys_doeventchown 2 0 200 20) (ks ex_opened) = Ok (0, s') /\
     rep s' [mk_aevent 10 (mk_event 0 200 20 1 1 0) []]) /\
  (exists s', run (sys_doeventchmod 3 0 0 0) (ks ex_opened) = Ok (-1, s') /\ rep s' ex_events).
Proof.
  split.
  - destruct (doeventchange_correct 2 (ex_task 100 10) 0 200 20 (ks ex_opened) ex_events)
      as [(s' & R & Hr & _) _]; [apply ex_rep|apply ex_ids|vm_compute; reflexivity|].
    exists s'. split; [exact R|exact Hr].
  - destruct (doeventchange_correct 3 (ex_task 200 20) 0 0 0 (ks ex_opened) ex_events)
      as [_ (s' & R & Hr & _)]; [apply ex_rep|apply ex_ids|vm_compute; reflexivity|].
    exists s'. split; [exact R|exact Hr].
Defined.

(** C8: [sys_doeventstat] on a list that is not empty changes nothing but user
    memory.  It returns -1 and leaves that alone when the event does not exist
    or a pointer that is not null can not be read; otherwise it writes each
    field through its pointer and returns 0 when all of them could be written
    and -EFAULT when one could not; four pointers that can be written and do
    not overlap then hold the four fields.  On an empty list it returns -1 for
    a pointer that can not be read or a negative id, and otherwise reads its
    uninitialised pointer. *)
Theorem doeventstat_correct eventID UID GID UIDFlag GIDFlag s a :
  rep s a -> ids_ok a ->
  let ps := [UID; GID; UIDFlag; GIDFlag] in
  match a with
  | [] =>
      run (sys_doeventstat eventID UID GID UIDFlag GIDFlag) s =
        if bool_decide (Forall (ptr_ok (user s)) ps) && (0 <=? eventID) then Err Uninit else Ok (-1, s)
  | _ =>
      run (sys_doeventstat eventID UID GID UIDFlag GIDFlag) s =
        match find_event eventID a with
        | Some x =>
            if bool_decide (Forall (ptr_ok (user s)) ps) then
              Ok (if bool_decide (Forall (out_ok (user s)) ps) then 0 else - EFAULT,
                  set_user (stat_mem (a_ev x) UID GID UIDFlag GIDFlag (user s)) s)
            else Ok (-1, s)
        | None => Ok (-1, s)
        end
  end /\
  (Forall (fun p => p <> NULL /\ out_ok (user s) p) ps ->
   disjoint4 UID GID -> disjoint4 UID UIDFlag -> disjoint4 UID GIDFlag ->
   disjoint4 GID UIDFlag -> disjoint4 GID GIDFlag -> disjoint4 UIDFlag GIDFlag ->
   forall ev, let um := stat_mem ev UID GID UIDFlag GIDFlag (user s) in
     bytes_at um UID 4 = Some (le32 (uid ev)) /\ bytes_at um GID 4 = Some (le32 (gid ev)) /\
     bytes_at um UIDFlag 4 = Some (le32 (uidFlag ev)) /\ bytes_at um GIDFlag 4 = Some (le32 (gidFlag ev))).
Proof.
  intros Hr Hi ps. split; [|intros; by apply stat_mem_get]. destruct a as [|y a].
  - by apply stat_empty.
  - rewrite (stat_run _ _ _ _ _ _ _ Hr Hi) by done. unfold spec_stat.
    destruct (find_event eventID (y :: a)) as [x|]; [|simpl; by rewrite user_id].
    fold ps. case_bool_decide; [done|]. simpl. by rewrite user_id.
Qed.

Lemma doeventstat_correct_witness :
  (exists um, run (sys_doeventstat 0 4096 0 4104 4108) (ks ex_opened) = Ok (0, set_user um (ks ex_opened)) /\
     bytes_at um 4096 4 = Some [100; 0; 0; 0]) /\
  (exists s', run (sys_doeventstat 0 4096 8192 0 0) (ks ex_opened) = Ok (- EFAULT, s')) /\
  run (sys_doeventstat 0 4096 0 0 0) ex_init = Err Uninit.
Proof.
  split; [|split].
  - destruct (doeventstat_correct 0 4096 0 4104 4108 (ks ex_opened) ex_events ex_rep ex_ids) as [R _].
    eexists. split; [exact R|]. vm_compute. reflexivity.
  - destruct (doeventstat_correct 0 4096 8192 0 0 (ks ex_opened) ex_events ex_rep ex_ids) as [R _].
    eexists. exact R.
  - destruct (doeventstat_correct 0 4096 0 0 0 ex_init [] ex_rep0 ex_ids0) as [R _]. exact R.
Defined.

(** What [sys_doeventchown] writes, [sys_doeventstat] reads back: after a
    permitted change of owner the two calls agree on the owner, the group and
    the untouched flags, for any four disjoint pointers to memory that can be
    written. *)
Theorem chown_stat_round_trip current t eventID U G p1 p2 p3 p4 s a x :
  rep s a -> ids_ok a -> tasks s !! current = Some t ->
  find_event eventID a = Some x -> may_change t (a_ev x) = true ->
  Forall (fun p => p <> NULL /\ out_ok (user s) p) [p1; p2; p3; p4] ->
  disjoint4 p1 p2 -> disjoint4 p1 p3 -> disjoint4 p1 p4 -> disjoint4 p2 p3 -> disjoint4 p2 p4 ->
  disjoint4 p3 p4 ->
  exists s1 s2, run (sys_doeventchown current eventID U G) s = Ok (0, s1) /\
    run (sys_doeventstat eventID p1 p2 p3 p4) s1 = Ok (0, s2) /\
    bytes_at (user s2) p1 4 = Some (le32 (u32 U)) /\ bytes_at (user s2) p2 4 = Some (le32 (u32 G)) /\
    bytes_at (user s2) p3 4 = Some (le32 (uidFlag (a_ev x))) /\
    bytes_at (user s2) p4 4 = Some (le32 (gidFlag (a_ev x))).
Proof.
  intros Hr Hi Ht E Hm Hp D1 D2 D3 D4 D5 D6.
  assert (Hne : a <> []) by (by intros ->).
  destruct (chown_run current t eventID U G s a x Hr Hi Ht E Hm) as (s1 & R & Hr1 & Hu).
  apply find_event_split in E as (a1 & a2 & -> & Hx & _).
  rewrite on_event_split in Hr1 by done.
  set (x' := map_ev (set_owner (u32 U) (u32 G)) x) in *.
  assert (Hi' : ids_ok (a1 ++ x' :: a2)).
  { eapply ids_ok_same; [|exact Hi]. by rewrite !fmap_app, !fmap_cons. }
  pose proof (stat_run eventID p1 p2 p3 p4 s1 (a1 ++ x' :: a2) Hr1 Hi') as R2.
  assert (E' : find_event eventID (a1 ++ x' :: a2) = Some x').
  { rewrite <- Hx. apply (find_event_mid a1 x' a2 Hi'). }
  assert (Ho : Forall (out_ok (user s)) [p1; p2; p3; p4]).
  { eapply Forall_impl; [exact Hp|]. by intros ? [_ ?]. }
  unfold spec_stat, stat_result in R2. rewrite E', Hu, (bool_decide_true _ Ho), bool_decide_true in R2; cycle 1.
  { eapply Forall_impl; [exact Ho|]. intros p. apply out_ptr_ok. }
  exists s1. eexists. split; [done|]. split; [apply R2; by destruct a1|].
  exact (stat_mem_get (a_ev x') p1 p2 p3 p4 (user s) Hp D1 D2 D3 D4 D5 D6).
Qed.

Lemma chown_stat_round_trip_witness :
  exists s1 s2, run (sys_doeventchown 2 0 200 20) (ks ex_opened) = Ok (0, s1) /\
    run (sys_doeventstat 0 4096 4100 4104 4108) s1 = Ok (0, s2) /\
    bytes_at (user s2) 4096 4 = Some (le32 (u32 200)).
Proof.
  destruct (chown_stat_round_trip 2 (ex_task 100 10) 0 200 20 4096 4100 4104 4108 (ks ex_opened) ex_events
    (mk_aevent 10 (mk_event 0 100 10 1 1 0) [])) as (s1 & s2 & R1 & R2 & B & _);
    [apply ex_rep|apply ex_ids|vm_compute; reflexivity|reflexivity|reflexivity
    |apply (bool_decide_unpack _); vm_compute; exact I|unfold disjoint4; lia..|].
  exists s1, s2. split; [exact R1|split; [exact R2|exact B]].
Defined.

(** C9: with fewer than 2^31 events, [sys_doeventinfo] on an array that fits the
    stack changes nothing but user memory.  Without a buffer it returns the
    number of events.  With a buffer that can be written and is large enough
    for all of them it returns that number too, and the buffer then holds
    exactly their ids, oldest first, and -1 in the unused places.  With a buffer
    that is too small it returns -1 and leaves memory alone; with one that can
    not be written in full it returns -1.  An array that does not fit the stack
    overflows it, and one of negative size has no meaning in C. *)
Theorem doeventinfo_correct vla_ok num eventIDs s a :
  rep s a -> ids_ok a -> Z.of_nat (length a) <= INT_MAX ->
  let n := Z.of_nat (length a) in
  let o := spec_info num eventIDs a (user s) in
  run (sys_doeventinfo vla_ok num eventIDs) s =
    (if vla_ok num then Ok (o.1, set_user o.2 s) else Err (if num <? 0 then Undef else StackOverflow)) /\
  (eventIDs = NULL -> o = (n, user s)) /\
  (eventIDs <> NULL -> writable (user s) eventIDs (4 * Z.to_nat num) -> n <= num -> 0 < num ->
   o.1 = n /\ ints_at o.2 eventIDs (Z.to_nat num) = Some (info_ids num a)) /\
  (eventIDs <> NULL -> num < n -> o = (-1, user s)) /\
  (eventIDs <> NULL -> ~ writable (user s) eventIDs (4 * Z.to_nat num) -> o.1 = -1).
Proof.
  intros Hr Hi Hm n o. split; [|split; [|split; [|split]]].
  - destruct (vla_ok num) eqn:Hv; [by apply info_run|]. unfold sys_doeventinfo. by rewrite Hv.
  - intros ->. done.
  - intros Hnn Hacc Hle Hpos. destruct (info_read_back num eventIDs a (user s)) as [E1 E2]; [done..|].
    split; [unfold o; by rewrite E1|done].
  - intros Hnn Hlt. unfold o, spec_info. destruct (Z.eqb_spec eventIDs NULL); [done|].
    destruct (Z.ltb_spec num (Z.of_nat (length a))); [|lia]. by rewrite orb_true_r.
  - by apply info_unwritable.
Qed.

Lemma doeventinfo_correct_witness :
  (exists um, run (sys_doeventinfo ex_vla 2 4096) (ks ex_opened) = Ok (1, set_user um (ks ex_opened)) /\
     ints_at um 4096 2 = Some [0; -1]) /\
  run (sys_doeventinfo ex_vla (-1) 0) (ks ex_opened) = Err Undef.
Proof.
  split.
  - destruct (doeventinfo_correct ex_vla 2 4096 (ks ex_opened) ex_events ex_rep ex_ids) as (R & _ & B & _);
      [vm_compute; congruence|].
    destruct B as [B1 B2]; [done|apply (bool_decide_unpack _); vm_compute; exact I|vm_compute; congruence|lia|].
    eexists. split; [exact R|exact B2].
  - destruct (doeventinfo_correct ex_vla (-1) 0 (ks ex_opened) ex_events ex_rep ex_ids) as (R & _);
      [vm_compute; congruence|]. exact R.
Defined.

(** C3: a signal reaches every task asleep on the event.  When [sys_doeventsig]
    has found the event and task [w] sleeps on it, then, along every sequence
    of allowed actions in which the caller makes its three remaining steps
    (the test of the queue, the critical section, the wake-up), with any
    actions of any tasks in between, and as long as no [sys_doeventwait]
    clears the condition of the event after the critical section: if [w] is
    still inside a wait on the event at the wake-up, it leaves the kernel with
    the result 1 at the latest at the fifth of its own steps. *)
Theorem signal_frees_sleeper vla_ok s0 st0 cur w e pc acts0 acts1 acts2 st1 st2 st3 :
  boot_ok s0 -> reach vla_ok s0 st0 ->
  cs st0 !! cur = Some (CReturns (sig_test e)) ->
  ws st0 !! w = Some (Ptr e, WAsleep) -> on_rq <$> tasks (ks st0) !! w = Some false ->
  AStep cur ∉ acts0 ++ acts1 ->
  path vla_ok any (AStep cur :: acts0 ++ [AStep cur]) st0 st1 ->
  path vla_ok (keeps_cond e) (acts1 ++ [AStep cur]) st1 st2 -> ws st2 !! w = Some (Ptr e, pc) ->
  path vla_ok (keeps_cond e) acts2 st2 st3 -> (5 <= own w acts2)%nat ->
  exists acts3 acts4 st4 st5, acts2 = acts3 ++ AStep w :: acts4 /\
    path vla_ok (keeps_cond e) acts3 st2 st4 /\ (own w acts3 < 5)%nat /\
    exec vla_ok (AStep w) st4 = Ok (1, st5) /\ ws st5 !! w = None.
Proof.
  intros Hb Hr Hc Hw Hrq Hn Hp0 Hp1 Hpc Hp2 Ho. destruct (reach_inv _ _ _ Hb Hr) as [[a HS] _].
  destruct (signal_reaches vla_ok st0 a cur w e pc acts0 acts1 acts2 st1 st2 st3)
    as (p3 & p4 & s4 & s5 & E & Hp & R & Hl & Hlt); try done.
  by exists p3, p4, s4, s5.
Qed.

(** Task 2 has found the event; task 3 lists the events in the meantime. *)
Definition ex_found : esys :=
  with_call 2 (CReturns (sig_test 10)) (with_call 2 (CReturns (sys_doeventsig 2 0)) ex_asleep).
Lemma ex_reach_found : reach ex_vla ex_boot ex_found.
Proof.
  apply (reach_found ex_vla ex_boot ex_asleep ex_events' 2 (ex_task 100 10)
    (mk_aevent 10 (mk_event 0 100 10 1 1 0) [1%positive]) ex_reach_asleep ex_rep' ex_ids');
    [vm_compute; reflexivity|reflexivity|reflexivity|].
  apply allowedb_sound. vm_compute. reflexivity.
Qed.
Definition ex_acts0 : list action := [ABegin 3 (RInfo 2 4096)].
Definition ex_acts1 : list action := [AStep 3].
Definition ex_acts2 : list action := [AStep 1; AStep 3; AStep 1; AStep 1; AStep 3; AStep 1; AStep 1].
Definition ex_st1 : esys := after ex_vla (AStep 2 :: ex_acts0 ++ [AStep 2]) ex_found.
Definition ex_st2 : esys := after ex_vla (ex_acts1 ++ [AStep 2]) ex_st1.

Lemma signal_frees_sleeper_witness :
  exists acts3 acts4 st4 st5, ex_acts2 = acts3 ++ AStep 1 :: acts4 /\
    path ex_vla (keeps_cond 10) acts3 ex_st2 st4 /\ (own 1 acts3 < 5)%nat /\
    exec ex_vla (AStep 1) st4 = Ok (1, st5) /\ ws st5 !! 1%positive = None.
Proof.
  apply (signal_frees_sleeper ex_vla ex_boot ex_found 2 1 10 WAsleep ex_acts0 ex_acts1 ex_acts2
    ex_st1 ex_st2 (after ex_vla ex_acts2 ex_st2)).
  - apply ex_boot_ok.
  - apply ex_reach_found.
  - apply lookup_insert_eq.
  - vm_compute. reflexivity.
  - vm_compute. reflexivity.
  - intros Hin. repeat (apply elem_of_cons in Hin as [Hin|Hin]; [done|]). by apply elem_of_nil in Hin.
  - apply (path_after _ any anyb); [done|]. vm_compute. reflexivity.
  - apply (path_after _ _ (keeps_condb 10)); [apply keeps_condb_sound|]. vm_compute. reflexivity.
  - vm_compute. reflexivity.
  - apply (path_after _ _ (keeps_condb 10)); [apply keeps_condb_sound|]. vm_compute. reflexivity.
  - vm_compute. lia.
Defined.

(** Destroying undoes creating: the task that opened an event may close
    it, is told that nobody waited, and the events are those from before. *)
Theorem open_close_round_trip current t j s a :
  rep s a -> ids_ok a -> last_id a < INT_MAX -> tasks s !! current = Some t ->
  j_addr j ∉ a_addr <$> a ->
  exists s1 s2, run (sys_doeventopen current (Some j)) s = Ok (last_id a + 1, s1) /\
    run (sys_doeventclose current (last_id a + 1)) s1 = Ok (0, s2) /\ rep s2 a /\ tasks s2 = tasks s.
Proof.
  intros Hr Hi Hlt Ht Hn. destruct (last_id_bound _ Hi) as [Hlb _].
  destruct (open_implements current t j s a Hr Ht Hn) as (s1 & R & Hr1 & Ht1 & _).
  unfold spec_open in *. cbn [fst snd] in *. rewrite swrap_small in R, Hr1;
    [|unfold INT_MAX in *; lia|lia|unfold INT_MAX in *; lia|lia].
  set (x := mk_aevent (j_addr j) (mk_event (last_id a + 1) (euid t) (egid t) 1 1 0) []) in *.
  assert (Hi1 : ids_ok (a ++ [x])) by (apply ids_ok_snoc; [done|done|unfold a_id; simpl; lia]).
  destruct (close_implements current t (a_id x) s1 (a ++ [x]) Hr1 Hi1) as (s2 & R2 & Hr2 & Ht2 & _);
    [by rewrite Ht1|].
  unfold spec_close in *. rewrite (find_event_mid _ _ _ Hi1) in R2, Hr2, Ht2.
  assert (Hm : may_signal t (a_ev x) = true).
  { unfold may_signal. simpl. by rewrite Z.eqb_refl, orb_true_r. }
  rewrite Hm in R2, Hr2, Ht2. cbn [fst snd] in Hr2. rewrite (filter_out_split (a_id x) a x []), app_nil_r in Hr2 by done.
  exists s1, s2. split; [done|]. split; [exact R2|]. split; [done|]. by rewrite Ht2, <- Ht1.
Qed.

Lemma open_close_round_trip_witness :
  exists s1 s2, run (sys_doeventopen 3 (Some (ex_junk 11))) (ks ex_asleep) = Ok (1, s1) /\
    run (sys_doeventclose 3 1) s1 = Ok (0, s2) /\ rep s2 ex_events'.
Proof.
  destruct (open_close_round_trip 3 (ex_task 200 20) (ex_junk 11) (ks ex_asleep) ex_events')
    as (s1 & s2 & R1 & R2 & Hr & _);
    [apply ex_rep'|apply ex_ids'|vm_compute; reflexivity|vm_compute; reflexivity
    |apply (bool_decide_unpack _); vm_compute; exact I|].
  exists s1, s2. split; [exact R1|split; [exact R2|exact Hr]].
Defined.

(** C10: a task that is neither root, nor the owner of an event whose user flag
    is 1, nor of its group with the group flag 1, can not wait on, signal or
    destroy it, and one that is neither root nor owner can not change it: the
    calls return -1 and the state is the same to the last bit.  The same holds
    for an id no event has, except that the two calls that change an event
    need a list that is not empty or a negative id. *)
Theorem denied_calls_change_nothing current t eventID U G s a :
  rep s a -> ids_ok a -> tasks s !! current = Some t ->
  (match find_event eventID a with Some x => may_signal t (a_ev x) | None => false end = false ->
   run (sys_doeventclose current eventID) s = Ok (-1, s) /\
   run (sys_doeventsig current eventID) s = Ok (-1, s) /\
   run (sys_doeventwait current eventID) s = Ok (WReturn (-1), s)) /\
  (match find_event eventID a with Some x => may_change t (a_ev x) | None => false end = false ->
   a <> [] \/ eventID < 0 ->
   run (sys_doeventchown current eventID U G) s = Ok (-1, s) /\
   run (sys_doeventchmod current eventID U G) s = Ok (-1, s)).
Proof.
  intros Hr Hi Ht. split; intros Hd.
  - pose proof (lookup_event_run current t eventID s a Hr Ht) as R.
    unfold sys_doeventclose, sys_doeventsig, sys_doeventwait. rewrite isValidEventId_neg.
    destruct (eventID <? 0); [done|]. rewrite !(run_atomic _ _ _ _ _ _ R). cbn [fst snd].
    destruct (find_event eventID a) as [x|]; [|done]. by rewrite Hd.
  - intros Hne. unfold sys_doeventchown, sys_doeventchmod. rewrite isValidEventId_neg.
    destruct (Z.ltb_spec eventID 0); [done|]. destruct Hne as [Hne|]; [|lia].
    assert (R : lookup_section Garbage (validateUserEvent current) eventID s =
      Ok ((0, found eventID Garbage a), s)).
    { apply (lookup_section_run _ _ _ _ _ _ Hr).
      rewrite (validateUserEvent_spec (r_held s) current t) by (done || apply (rep_event_ev s a Hr)).
      destruct (find_event eventID a) as [x|]; destruct a; try done; by rewrite Hd. }
    cbn [orb]. destruct (_ || _); [split; [done|]|]; rewrite !(run_atomic _ _ _ _ _ _ R); done.
Qed.

Lemma denied_calls_change_nothing_witness :
  run (sys_doeventsig 3 0) (ks ex_asleep) = Ok (-1, (ks ex_asleep)) /\
  run (sys_doeventchown 3 0 200 20) (ks ex_asleep) = Ok (-1, (ks ex_asleep)).
Proof.
  destruct (denied_calls_change_nothing 3 (ex_task 200 20) 0 200 20 (ks ex_asleep) ex_events'
    ex_rep' ex_ids') as [H1 H2]; [vm_compute; reflexivity|].
  destruct (H1 eq_refl) as (_ & H3 & _). destruct H2 as [H4 _]; [reflexivity|by left|]. split; [exact H3|exact H4].
Defined.
