(* ===== verification/EventRaces.v ===== *)
(** Where the event system calls go wrong.

    Each theorem shows the model of [csc456/eventsyscalls.c] doing what the
    code does on an input or an interleaving that the rules of file
    [EventSystem] exclude, or that is within the rules and loses a signal. *)
From S2P Require Import Prelude ListHead KState UserMem WaitQueue Events EventSpec EventRefine EventUser EventSystem EventCalls EventLive EventProps.

Lemma exec_all_cons vla_ok act acts st r st' :
  exec vla_ok act st = Ok (r, st') -> acts <> [] -> exec_all vla_ok (act :: acts) st = exec_all vla_ok acts st'.
Proof. intros R Hne. simpl. rewrite R. by destruct acts. Qed.
Lemma exec_all_one vla_ok act st r st' :
  exec vla_ok act st = Ok (r, st') -> exec_all vla_ok [act] st = Ok (r, st').
Proof. intros R. simpl. by rewrite R. Qed.

(** ** Closing an event somebody waits on *)

Section Close.
  Context (vla_ok : Z -> bool).

(** A permitted close that nothing interrupts, to the end. *)
Lemma close_all st a1 x a2 cur tc :
  rep (ks st) (a1 ++ x :: a2) -> ids_ok (a1 ++ x :: a2) -> tasks (ks st) !! cur = Some tc ->
  may_signal tc (a_ev x) = true ->
  exists n c ev' C', exec_all vla_ok (ABegin cur (RClose (a_id x)) :: replicate 4 (AStep cur)) st =
    Ok (n, mk_esys (kfree_event (a_addr x)
      (set_cells c (set_tasks (wake_tasks TASK_NORMAL (a_waiters x) (tasks (ks st)))
        (set_events (<[a_addr x := ev']> (events (ks st))) (ks st))))) (ws st) (delete cur C')) /\
    forall t, t <> cur -> C' !! t = cs st !! t.
Proof.
  intros Hr Hi Ht Hm. pose proof (find_event_mid _ _ _ Hi) as E.
  destruct (ids_ok_split _ _ _ Hi) as (_ & _ & Hx).
  set (p := CReturns (sys_doeventclose cur (a_id x))).
  assert (R0 : exec vla_ok (ABegin cur (RClose (a_id x))) st = Ok (0, with_call cur p st)).
  { unfold p. simpl. unfold sys_doeventclose. rewrite isValidEventId_neg. by destruct (Z.ltb_spec (a_id x) 0); [lia|]. }
  assert (R1 : exec vla_ok (AStep cur) (with_call cur p st) =
    Ok (0, with_call cur (CReturns (close_test (a_addr x))) (with_call cur p st))).
  { assert (Hp : cs (with_call cur p st) !! cur = Some p) by apply lookup_insert_eq.
    unfold p in Hp at 2. unfold sys_doeventclose in Hp. rewrite isValidEventId_neg in Hp.
    destruct (Z.ltb_spec (a_id x) 0); [lia|].
    rewrite (call_exec _ _ _ _ _ _ _ _ Hp (lookup_event_run cur tc (a_id x) (ks st) _ Hr Ht)).
    unfold found. by rewrite E, Hm. }
  destruct (rep_find _ _ _ _ Hr E) as [_ Hl _ _].
  set (st1 := with_call cur (CReturns (close_test (a_addr x))) (with_call cur p st)) in *.
  set (b := negb (bool_decide (a_waiters x = []))).
  assert (R2 : exec vla_ok (AStep cur) st1 = Ok (0, with_call cur (CReturns (close_rest (a_addr x) b)) st1)).
  { erewrite call_exec; [|apply lookup_insert_eq|erewrite bind_ok by done; apply (waitqueue_active_run _ _ (ks st) Hl)].
    reflexivity. }
  destruct (close_section_run (ks st) a1 x a2 b Hr) as (c & ev' & R & _); [unfold b; by case_bool_decide|].
  set (st2 := with_call cur (CReturns (close_rest (a_addr x) b)) st1) in *.
  match type of R with _ = Ok (?k, ?m) => set (n := k) in R; set (s3 := m) in R end.
  set (st3 := mk_esys s3 (ws st)
    (<[cur := CReturns (step[Frees (Ptr (a_addr x))] _ := kfree (Ptr (a_addr x)) in Done n)]> (cs st2))).
  assert (R3 : exec vla_ok (AStep cur) st2 = Ok (0, st3)).
  { by rewrite (call_exec vla_ok st2 cur _ _ _ _ _ (lookup_insert_eq _ _ _) R). }
  assert (R4 : exec vla_ok (AStep cur) st3 = Ok (n, mk_esys (kfree_event (a_addr x) s3) (ws st) (delete cur (cs st3)))).
  { rewrite (call_exec vla_ok st3 cur _ _ _ tt (kfree_event (a_addr x) s3) (lookup_insert_eq _ _ _)); [done|].
    unfold kfree. simpl. by rewrite lookup_insert_eq. }
  exists n, c, ev', (cs st3). cbn [replicate]. rewrite (exec_all_cons _ _ _ _ _ _ R0), (exec_all_cons _ _ _ _ _ _ R1),
    (exec_all_cons _ _ _ _ _ _ R2), (exec_all_cons _ _ _ _ _ _ R3), (exec_all_one _ _ _ _ _ R4) by done.
  split; [done|]. intros t Hne. simpl. by rewrite !lookup_insert_ne.
Qed.

Lemma close_then_steps st a w e tw ev cur tc :
  SInv vla_ok st a -> ws st !! w = Some (Ptr e, WAsleep) -> tasks (ks st) !! w = Some tw -> on_rq tw = false ->
  events (ks st) !! e = Some ev -> tasks (ks st) !! cur = Some tc -> may_signal tc ev = true ->
  exists n st', exec_all vla_ok (ABegin cur (RClose (id ev)) :: replicate 4 (AStep cur)) st = Ok (n, st') /\
    exec_all vla_ok [AStep w; AStep w] st' = Err Oops.
Proof.
  intros HS Hpc Htw Hoff Hev Htc Hmay. pose proof (si_inv _ _ _ HS) as HI.
  destruct (held_event _ _ (waits_in _ _ _ _ _ _ HS Hpc)) as (a1 & x & a2 & -> & ->).
  assert (Hw : w ∈ a_waiters x) by (apply (asleep_queued _ _ _ _ _ _ HI Hpc); by rewrite Htw; simpl; rewrite Hoff).
  destruct (inv_sleep _ _ _ HI _ _ _ _ Hpc Htw Hoff) as [_ Hst].
  destruct (x_event _ _ _ _ _ HI) as [He _ _ Hown]. rewrite Hev in He. injection He as ->.
  rewrite Forall_forall in Hown. destruct (Hown w Hw) as [(fl & Hwt & _) _].
  destruct (rep_waiters_split _ _ _ _ (inv_rep _ _ _ HI)) as (Hnd & _ & _).
  assert (Hcs : cs st !! w = None).
  { destruct (cs st !! w) as [c|] eqn:Ec; [|done]. destruct (si_call _ _ _ HS _ _ Ec). congruence. }
  destruct (close_all st a1 x a2 cur tc (inv_rep _ _ _ HI) (inv_ids _ _ _ HI) Htc Hmay)
    as (n & c & ev' & C' & R & HC).
  match type of R with _ = Ok (_, ?m) => set (st' := m) in R end. exists n, st'. split; [exact R|].
  assert (Hcs' : cs st' !! w = None).
  { simpl. destruct (decide (w = cur)) as [->|]; [apply lookup_delete_eq|].
    rewrite lookup_delete_ne by done. by rewrite HC. }
  assert (R1 : wait_step w (Ptr (a_addr x)) WAsleep (ks st') = Ok (Some WPrepare, ks st')).
  { cbn [wait_step]. rewrite (bind_ok _ _ (ks st') (woken TASK_NORMAL tw) (ks st')); cycle 1.
    { apply deref_ok. simpl. rewrite wake_tasks_lookup, decide_True by done. by rewrite Htw. }
    unfold woken. by rewrite Hst. }
  assert (R2 : wait_step w (Ptr (a_addr x)) WPrepare (ks st') = Err Oops).
  { cbn [wait_step]. rewrite (bind_ok _ _ (ks st') (Qev (a_addr x)) (ks st')) by done. apply bind_err.
    unfold prepare_to_wait, set_flags. rewrite bind_assoc.
    rewrite (bind_ok _ _ (ks st') _ (ks st') (deref_ok (fun s => waits s !! w) (ks st') _ Hwt)).
    erewrite bind_ok by done. apply bind_err.
    unfold spin_lock_irqsave, bind, local_irq_save, preempt_disable, modify, _raw_spin_lock. simpl.
    by rewrite lookup_delete_eq. }
  rewrite (exec_all_cons _ _ _ _ _ _ (own_step vla_ok st' w _ _ _ _ Hcs' Hpc R1)) by done.
  set (st1 := mk_esys (ks st') (<[w := (Ptr (a_addr x), WPrepare)]> (ws st')) (cs st')).
  assert (R3 : exec vla_ok (AStep w) st1 = Err Oops); [|cbn [exec_all]; by rewrite R3].
  by apply (own_step_err vla_ok st1 w (Ptr (a_addr x)) WPrepare); [|apply lookup_insert_eq|].
Qed.
End Close.

(** C14: a task asleep on an event that is closed is woken and then locks the
    queue of the event, which [kfree] has released: its second step is a bad
    memory access. *)
Theorem close_use_after_free vla_ok s0 st w e tw ev cur tc :
  boot_ok s0 -> reach vla_ok s0 st ->
  ws st !! w = Some (Ptr e, WAsleep) -> tasks (ks st) !! w = Some tw -> on_rq tw = false ->
  events (ks st) !! e = Some ev -> tasks (ks st) !! cur = Some tc -> may_signal tc ev = true ->
  exists n st', exec_all vla_ok (ABegin cur (RClose (id ev)) :: replicate 4 (AStep cur)) st = Ok (n, st') /\
    exec_all vla_ok [AStep w; AStep w] st' = Err Oops.
Proof.
  intros Hb Hr. destruct (reach_inv _ _ _ Hb Hr) as [[a HS] _].
  intros. by apply (close_then_steps vla_ok st a w e tw ev cur tc).
Qed.

Lemma close_use_after_free_witness :
  exists n st', exec_all ex_vla (ABegin 2 (RClose 0) :: replicate 4 (AStep 2)) ex_asleep = Ok (n, st') /\
    exec_all ex_vla [AStep 1; AStep 1] st' = Err Oops.
Proof.
  apply (close_use_after_free ex_vla ex_boot ex_asleep 1 10
    (mk_task TASK_INTERRUPTIBLE false false 0 0) (mk_event 0 100 10 1 1 0) 2 (ex_task 100 10)).
  - apply ex_boot_ok.
  - apply ex_reach_asleep.
  - vm_compute. reflexivity.
  - vm_compute. reflexivity.
  - reflexivity.
  - vm_compute. reflexivity.
  - vm_compute. reflexivity.
  - reflexivity.
Defined.

(** ** No event on the list *)

(** With no event on the list, [sys_doeventchown], [sys_doeventchmod] and
    [sys_doeventstat] use their pointer variable without having set it, for
    every non-negative id. *)
Theorem empty_list_uninitialised current t eventID U G p1 p2 p3 p4 s :
  rep s [] -> tasks s !! current = Some t -> 0 <= eventID ->
  Forall (ptr_ok (user s)) [p1; p2; p3; p4] ->
  run (sys_doeventchown current eventID U G) s = Err Uninit /\
  run (sys_doeventchmod current eventID U G) s = Err Uninit /\
  run (sys_doeventstat eventID p1 p2 p3 p4) s = Err Uninit.
Proof.
  intros Hr Ht Hi Hp. pose proof (uwrap_range 32 U ltac:(lia)). pose proof (uwrap_range 32 G ltac:(lia)).
  unfold sys_doeventchown, sys_doeventchmod. rewrite isValidEventId_neg.
  destruct (Z.ltb_spec eventID 0); [lia|]. destruct (Z.ltb_spec (u32 U) 0); [lia|].
  destruct (Z.ltb_spec (u32 G) 0); [lia|]. cbn [orb].
  split; [by apply (change_uninit current t)|]. split; [by apply (change_uninit current t)|].
  by apply stat_uninit.
Qed.

Lemma empty_list_uninitialised_witness :
  run (sys_doeventchown 2 0 5 5) ex_init = Err Uninit /\
  run (sys_doeventchmod 2 0 5 5) ex_init = Err Uninit /\
  run (sys_doeventstat 0 4096 0 0 0) ex_init = Err Uninit.
Proof.
  apply (empty_list_uninitialised 2 (ex_task 100 10) 0 5 5 4096 0 0 0 ex_init ex_rep0);
    [vm_compute; reflexivity|lia|apply (bool_decide_unpack _); vm_compute; exact I].
Defined.

(** ** Running out of ids *)

(** Once the last event has the largest [int] as its id, the next event
    gets the smallest one: [sys_doeventopen] returns a negative number although
    it created the event, and no call accepts the id, so nobody can ever
    destroy the event. *)
Theorem id_overflow_unreachable current t j s a :
  rep s a -> last_id a = INT_MAX -> tasks s !! current = Some t -> j_addr j ∉ a_addr <$> a ->
  exists s', run (sys_doeventopen current (Some j)) s = Ok (INT_MIN, s') /\
    rep s' (a ++ [mk_aevent (j_addr j) (mk_event INT_MIN (euid t) (egid t) 1 1 0) []]) /\
    run (sys_doeventclose current INT_MIN) s' = Ok (-1, s') /\
    run (sys_doeventsig current INT_MIN) s' = Ok (-1, s') /\
    run (sys_doeventwait current INT_MIN) s' = Ok (WReturn (-1), s').
Proof.
  intros Hr Hl Ht Hn. destruct (open_implements current t j s a Hr Ht Hn) as (s' & R & Hr' & _).
  unfold spec_open in *. rewrite Hl in R, Hr'. exists s'. by split.
Qed.

Definition ex_last : kstate :=
  set_events {[10%positive := mk_event INT_MAX 100 10 1 1 0]} (ks ex_opened).
Lemma ex_rep_last : rep ex_last [mk_aevent 10 (mk_event INT_MAX 100 10 1 1 0) []].
Proof. solve_rep. Qed.

Lemma id_overflow_unreachable_witness :
  exists s', run (sys_doeventopen 3 (Some (ex_junk 11))) ex_last = Ok (INT_MIN, s') /\
    run (sys_doeventclose 3 INT_MIN) s' = Ok (-1, s').
Proof.
  destruct (id_overflow_unreachable 3 (ex_task 200 20) (ex_junk 11) ex_last _ ex_rep_last)
    as (s' & R & _ & R' & _);
    [reflexivity|vm_compute; reflexivity|apply (bool_decide_unpack _); vm_compute; exact I|].
  exists s'. split; [exact R|exact R'].
Defined.

(** ** Lost signals and interrupted waits *)

Section Lost.
  Context (vla_ok : Z -> bool).

(** The first two steps of a task that was woken: it queues itself again. *)
Lemma woken_steps st a w e t :
  SInv vla_ok st a -> ws st !! w = Some (Ptr e, WAsleep) -> tasks (ks st) !! w = Some t -> on_rq t = true ->
  exists st2 a2 ev, (forall acts, acts <> [] ->
      exec_all vla_ok (AStep w :: AStep w :: acts) st = exec_all vla_ok acts st2) /\
    Inv (ks st2) (ws st2) a2 /\ cs st2 = cs st /\ cs st2 !! w = None /\
    ws st2 !! w = Some (Ptr e, WCheck) /\
    events (ks st) !! e = Some ev /\ get_condition (Ptr e) (ks st2) = Ok (condition ev, ks st2) /\
    tasks (ks st2) !! w = Some (mk_task TASK_INTERRUPTIBLE (on_rq t) (sigpending t) (euid t) (egid t)).
Proof.
  intros HS Hpc Ht Hrq. pose proof (si_inv _ _ _ HS) as HI.
  destruct (held_event _ _ (waits_in _ _ _ _ _ _ HS Hpc)) as (a1 & x & a2 & -> & ->).
  destruct (x_event _ _ _ _ _ HI) as [He _ _ _].
  assert (Hcs : cs st !! w = None).
  { destruct (cs st !! w) as [c|] eqn:Ec; [|done]. destruct (si_call _ _ _ HS _ _ Ec). congruence. }
  assert (R1 : wait_step w (Ptr (a_addr x)) WAsleep (ks st) = Ok (Some WPrepare, ks st)).
  { cbn [wait_step]. erewrite bind_ok by (apply deref_ok, Ht). by rewrite Hrq. }
  pose proof (step_task _ _ a1 x a2 w HI _ WPrepare t Hpc I I Hrq) as HI1.
  rewrite (set_tasks_id _ _ _ Ht) in HI1.
  destruct (prepare_mid _ _ a1 x a2 w t HI1 Ht (lookup_insert_eq _ _ _))
    as (s2 & x2 & R2 & HI2 & Had & Hev & _ & Ht2 & _).
  rewrite insert_insert_eq in HI2. exists (mk_esys s2 (<[w := (Ptr (a_addr x), WCheck)]> (ws st)) (cs st)).
  exists (a1 ++ x2 :: a2), (a_ev x).
  split; [|split; [done|split; [done|split; [done|split; [apply lookup_insert_eq|split; [done|split; [|done]]]]]]].
  - intros acts Hne. rewrite (exec_all_cons _ _ _ _ _ _ (own_step vla_ok _ _ _ _ _ _ Hcs Hpc R1)) by done.
    pose proof (own_step vla_ok (mk_esys (ks st) (<[w := (Ptr (a_addr x), WPrepare)]> (ws st)) (cs st)) w _ _ _ _
      Hcs (lookup_insert_eq _ _ _) R2) as E2. cbn [ws cs] in E2. rewrite insert_insert_eq in E2.
    by rewrite (exec_all_cons _ _ _ _ _ _ E2).
  - rewrite <- Had, <- Hev. rewrite <- Had in HI2. apply (get_condition_run _ _ _ _ _ HI2).
Qed.

(** A task that was woken, but finds the condition cleared, sleeps again. *)
Lemma sleeps_again st a w e t ev :
  SInv vla_ok st a -> ws st !! w = Some (Ptr e, WAsleep) -> tasks (ks st) !! w = Some t -> on_rq t = true ->
  sigpending t = false -> events (ks st) !! e = Some ev -> condition ev = 0 ->
  exists st', exec_all vla_ok [AStep w; AStep w; AStep w; AStep w] st = Ok (0, st') /\
    ws st' !! w = Some (Ptr e, WAsleep) /\ on_rq <$> tasks (ks st') !! w = Some false.
Proof.
  intros HS Hpc Ht Hrq Hsp Hev Hc.
  destruct (woken_steps st a w e t HS Hpc Ht Hrq) as (st2 & a2 & ev' & R & HI2 & _ & Hcs & Hpc2 & Hev' & Rc & Ht2).
  rewrite Hev in Hev'. injection Hev' as <-. rewrite R by done.
  assert (R3 : wait_step w (Ptr e) WCheck (ks st2) = Ok (Some WSchedule, ks st2)).
  { cbn [wait_step]. rewrite (bind_ok _ _ _ _ _ Rc), Hc. cbn [ctrue Z.eqb negb].
    erewrite bind_ok by (unfold signal_pending; erewrite bind_ok by (apply deref_ok, Ht2); reflexivity).
    simpl. by rewrite Hsp. }
  rewrite (exec_all_cons _ _ _ _ _ _ (own_step vla_ok _ _ _ _ _ _ Hcs Hpc2 R3)) by done.
  destruct (inv_thr _ _ _ HI2 _ _ _ Hpc2) as (x2 & _ & [= ->] & _).
  pose proof (own_step vla_ok (mk_esys (ks st2) (<[w := (Ptr (a_addr x2), WSchedule)]> (ws st2)) (cs st2)) w _ _ _ _
    Hcs (lookup_insert_eq _ _ _) (schedule_run _ x2 w _ Ht2)) as E4.
  eexists. split; [apply (exec_all_one _ _ _ _ _ E4)|].
  simpl. rewrite !lookup_insert_eq. split; [done|]. unfold scheduled, signal_pending_state. simpl. by rewrite Hsp.
Qed.

(** A task with a pending signal leaves, whether the condition is set or
    not. *)
Lemma interrupted st a w e t ev :
  SInv vla_ok st a -> ws st !! w = Some (Ptr e, WAsleep) -> tasks (ks st) !! w = Some t -> on_rq t = true ->
  sigpending t = true -> events (ks st) !! e = Some ev ->
  exists st3 st4, exec_all vla_ok [AStep w; AStep w; AStep w] st = Ok (0, st3) /\
    ws st3 !! w = Some (Ptr e, WFinish (if ctrue (condition ev) then 0 else - ERESTARTSYS)) /\
    exec_all vla_ok [AStep w; AStep w; AStep w; AStep w] st = Ok (1, st4) /\ ws st4 !! w = None.
Proof.
  intros HS Hpc Ht Hrq Hsp Hev.
  destruct (woken_steps st a w e t HS Hpc Ht Hrq) as (st2 & a2 & ev' & R & HI2 & _ & Hcs & Hpc2 & Hev' & Rc & Ht2).
  rewrite Hev in Hev'. injection Hev' as <-. set (v := if ctrue (condition ev) then 0 else - ERESTARTSYS).
  assert (R3 : wait_step w (Ptr e) WCheck (ks st2) = Ok (Some (WFinish v), ks st2)).
  { cbn [wait_step]. rewrite (bind_ok _ _ _ _ _ Rc). unfold v. destruct (ctrue (condition ev)); [done|].
    erewrite bind_ok by (unfold signal_pending; erewrite bind_ok by (apply deref_ok, Ht2); reflexivity).
    simpl. by rewrite Hsp. }
  destruct (inv_thr _ _ _ HI2 _ _ _ Hpc2) as (x2 & Hx2 & [= ->] & _).
  apply list_elem_of_split in Hx2 as (b1 & b2 & ->).
  pose proof (step_task _ _ b1 x2 b2 w HI2 _ (WFinish v) _ Hpc2 I I
    (Hrq : on_rq (mk_task TASK_INTERRUPTIBLE (on_rq t) (sigpending t) (euid t) (egid t)) = true)) as HI3.
  rewrite (set_tasks_id _ _ _ Ht2) in HI3.
  destruct (finish_mid _ _ _ _ _ _ _ HI3 Ht2 _ (lookup_insert_eq _ _ _)) as (s4 & x4 & R4 & _).
  pose proof (own_step vla_ok (mk_esys (ks st2) (<[w := (Ptr (a_addr x2), WFinish v)]> (ws st2)) (cs st2)) w _ _ _ _
    Hcs (lookup_insert_eq _ _ _) R4) as E4.
  do 2 eexists. rewrite !R by done.
  split; [apply exec_all_one, (own_step vla_ok _ _ _ _ _ _ Hcs Hpc2 R3)|].
  split; [apply lookup_insert_eq|]. rewrite (exec_all_cons _ _ _ _ _ _ (own_step vla_ok _ _ _ _ _ _ Hcs Hpc2 R3)) by done.
  split; [apply (exec_all_one _ _ _ _ _ E4)|].
  simpl. apply lookup_delete_eq.
Qed.

(** The two steps of a signal: it counts the queue and wakes it. *)
Lemma signal_steps st a1 x a2 cur w tw :
  SInv vla_ok st (a1 ++ x :: a2) -> cs st !! cur = Some (CReturns (signal_waiters (Ptr (a_addr x)))) ->
  ws st !! w = Some (Ptr (a_addr x), WAsleep) -> tasks (ks st) !! w = Some tw -> on_rq tw = false ->
  exists st2 b, (forall acts, acts <> [] ->
      exec_all vla_ok (AStep cur :: AStep cur :: acts) st = exec_all vla_ok acts st2) /\
    exec_all vla_ok [AStep cur; AStep cur] st = Ok (s32 (Z.of_nat (length (a_waiters x))), st2) /\
    SInv vla_ok st2 b /\ ws st2 = ws st /\ (forall u, u <> cur -> cs st2 !! u = cs st !! u) /\
    tasks (ks st2) !! w = Some (mk_task TASK_RUNNING true (sigpending tw) (euid tw) (egid tw)) /\
    (forall u, is_Some (tasks (ks st) !! u) -> is_Some (tasks (ks st2) !! u)).
Proof.
  intros HS Hc Hpc Htw Hoff. pose proof (si_inv _ _ _ HS) as HI.
  destruct (si_call _ _ _ HS _ _ Hc) as (Hidle & Hrun & _).
  assert (Ha : forall st' c, cs st' !! cur = Some c -> (exists e, next_label c = Uses (Ptr e)) ->
    running (ks st') cur -> allowed vla_ok (AStep cur) st').
  { intros st' c Hc' [e Hl] Hr. split; [unfold running in Hr; apply fmap_Some in Hr as (? & ? & _); by eexists|].
    intros d Hd. rewrite Hc' in Hd. injection Hd as <-. by rewrite Hl. }
  set (n := s32 (Z.of_nat (length (a_waiters x)))).
  set (st1 := mk_esys (set_events (<[a_addr x := set_condition 1 (a_ev x)]> (events (ks st))) (ks st)) (ws st)
    (<[cur := CReturns (sig_wake (a_addr x) n)]> (cs st))).
  assert (R1 : exec vla_ok (AStep cur) st = Ok (0, st1)).
  { by rewrite (call_exec _ _ _ _ _ _ _ _ Hc (sig_section_run _ a1 x a2 (inv_rep _ _ _ HI))). }
  destruct (exec_sinv vla_ok _ _ _ _ _ HS (Ha st _ Hc (ex_intro _ _ eq_refl) Hrun) R1) as (b1 & o1 & HS1 & He1 & _).
  assert (Hc1 : cs st1 !! cur = Some (CReturns (sig_wake (a_addr x) n))) by apply lookup_insert_eq.
  destruct (si_call _ _ _ HS1 _ _ Hc1) as (_ & Hrun1 & _).
  destruct (inv_fields (ks st) (ws st) cur Hidle Quiet a1 x a2 (set_condition 1) HI) as [HI1 _]; [done..|].
  destruct (inv_wake (ks st1) (ws st1) cur Hidle Quiet a1 (map_ev (set_condition 1) x) a2 HI1)
    as (s2 & Rw & _ & _ & _ & Hts).
  set (st2 := mk_esys s2 (ws st) (delete cur (cs st1))).
  assert (R2 : exec vla_ok (AStep cur) st1 = Ok (n, st2)) by (by rewrite (call_exec _ _ _ _ _ _ _ _ Hc1 Rw)).
  destruct (exec_sinv vla_ok _ _ _ _ _ HS1 (Ha st1 _ Hc1 (ex_intro _ _ eq_refl) Hrun1) R2) as (b2 & o2 & HS2 & _).
  destruct (rep_waiters_split _ _ _ _ (inv_rep _ _ _ HI)) as (Hnd & _ & _).
  exists st2, b2. split; [|split; [|split; [done|split; [done|split; [|split]]]]].
  - intros acts Hne. by rewrite (exec_all_cons _ _ _ _ _ _ R1), (exec_all_cons _ _ _ _ _ _ R2).
  - by rewrite (exec_all_cons _ _ _ _ _ _ R1), (exec_all_one _ _ _ _ _ R2).
  - intros u Hu. simpl. by rewrite lookup_delete_ne, lookup_insert_ne.
  - simpl. rewrite Hts. simpl. rewrite wake_tasks_lookup, decide_True, Htw; [|apply (asleep_queued _ _ _ _ _ _ HI Hpc); by rewrite Htw; simpl; rewrite Hoff|done].
    destruct (inv_sleep _ _ _ HI _ _ _ _ Hpc Htw Hoff) as [_ Hst]. simpl. unfold woken. by rewrite Hst.
  - intros u Hu. simpl. rewrite Hts. by apply wake_tasks_some.
Qed.

(** Another wait clears the condition before the woken task looks at it. *)
Lemma signal_lost st a1 x a2 cur u w tw :
  SInv vla_ok st (a1 ++ x :: a2) -> cs st !! cur = Some (CReturns (signal_waiters (Ptr (a_addr x)))) ->
  cs st !! u = Some (CWaits (wait_rest (a_addr x))) ->
  ws st !! w = Some (Ptr (a_addr x), WAsleep) -> tasks (ks st) !! w = Some tw -> on_rq tw = false ->
  sigpending tw = false ->
  exists st', exec_all vla_ok [AStep cur; AStep cur; AStep u; AStep w; AStep w; AStep w; AStep w] st = Ok (0, st') /\
    ws st' !! w = Some (Ptr (a_addr x), WAsleep) /\ on_rq <$> tasks (ks st') !! w = Some false.
Proof.
  intros HS Hc Hu Hpc Htw Hoff Hsp. assert (Hne : u <> cur) by congruence.
  assert (Hnw : u <> w) by (intros ->; destruct (si_call _ _ _ HS _ _ Hu); congruence).
  destruct (signal_steps st a1 x a2 cur w tw HS Hc Hpc Htw Hoff) as (st2 & b & R & _ & HS2 & Hws & Hcs & Htw2 & Hts).
  rewrite R by done. rewrite <- (Hcs u Hne) in Hu. rewrite <- Hws in Hpc.
  destruct (held_event _ _ (waits_in _ _ _ _ _ _ HS2 Hpc)) as (b1 & y & b2 & -> & Hxy).
  destruct (x_event _ _ _ _ _ (si_inv _ _ _ HS2)) as [He _ _ _]. rewrite <- Hxy in He.
  set (st3 := mk_esys (set_events (<[a_addr x := set_condition 0 (a_ev y)]> (events (ks st2))) (ks st2))
    (<[u := (Ptr (a_addr x), WEnter)]> (ws st2)) (delete u (cs st2))).
  assert (R3 : exec vla_ok (AStep u) st2 = Ok (0, st3)).
  { simpl. rewrite Hu. simpl. by rewrite (upd_event_run _ _ _ _ He). }
  destruct (si_call _ _ _ HS2 _ _ Hu) as (_ & Hrun & _).
  destruct (exec_sinv vla_ok (AStep u) st2 _ 0 st3 HS2) as (b3 & o & HS3 & _); [|done|].
  { split; [unfold running in Hrun; apply fmap_Some in Hrun as (? & ? & _); by eexists|].
    intros c Hc'. rewrite Hu in Hc'. by injection Hc' as <-. }
  rewrite (exec_all_cons _ _ _ _ _ _ R3) by done.
  apply (sleeps_again st3 b3 w (a_addr x) (mk_task TASK_RUNNING true (sigpending tw) (euid tw) (egid tw))
    (set_condition 0 (a_ev y)) HS3); try done.
  - simpl. by rewrite lookup_insert_ne.
  - apply lookup_insert_eq.
Qed.

(** A signal from another process ends the wait. *)
Lemma wait_interrupted st a w e tw ev :
  SInv vla_ok st a -> ws st !! w = Some (Ptr e, WAsleep) -> tasks (ks st) !! w = Some tw -> on_rq tw = false ->
  events (ks st) !! e = Some ev ->
  exists st3 st4, exec_all vla_ok [ASignal w; AStep w; AStep w; AStep w] st = Ok (0, st3) /\
    ws st3 !! w = Some (Ptr e, WFinish (if ctrue (condition ev) then 0 else - ERESTARTSYS)) /\
    exec_all vla_ok [ASignal w; AStep w; AStep w; AStep w; AStep w] st = Ok (1, st4) /\ ws st4 !! w = None.
Proof.
  intros HS Hpc Htw Hoff Hev. pose proof (si_inv _ _ _ HS) as HI.
  destruct (inv_sleep _ _ _ HI _ _ _ _ Hpc Htw Hoff) as [_ Hst].
  destruct (inv_signal _ _ _ w tw HI Htw) as (R & _ & _).
  match type of R with _ = Ok (_, ?m) => set (s1 := m) in R end.
  assert (R1 : exec vla_ok (ASignal w) st = Ok (0, mk_esys s1 (ws st) (cs st))) by (simpl; by rewrite R).
  destruct (exec_sinv vla_ok (ASignal w) st a 0 (mk_esys s1 (ws st) (cs st)) HS) as (b & o & HS1 & _); [by split; [by eexists|]|exact R1|].
  destruct (interrupted (mk_esys s1 (ws st) (cs st)) b w e
    (mk_task TASK_RUNNING true true (euid tw) (egid tw)) ev HS1) as (st3 & st4 & R3 & Hw3 & R4 & Hw4); try done.
  - simpl. rewrite lookup_insert_eq. unfold woken. simpl. by rewrite Hst.
  - exists st3, st4. by rewrite !(exec_all_cons _ _ _ _ _ _ R1).
Qed.
End Lost.

(** C15: the result of a wait says little.  When task [w] sleeps on an event,
    [cur] has decided to signal it and [u] is about to wait on it too, the
    signal counts [w] among the tasks it signalled; but if [u] then clears the
    condition before [w] looks at it, four steps of [w] bring it back to sleep:
    the signal is lost.  And a wait on an event nobody signalled that a Unix
    signal interrupts returns 1, like one that ended with a signal to the
    event: the value [-ERESTARTSYS] of [wait_event_interruptible] is dropped. *)
Theorem wait_result_unreliable vla_ok s0 st cur u w e tw ev :
  boot_ok s0 -> reach vla_ok s0 st ->
  cs st !! cur = Some (CReturns (signal_waiters (Ptr e))) -> cs st !! u = Some (CWaits (wait_rest e)) ->
  ws st !! w = Some (Ptr e, WAsleep) -> tasks (ks st) !! w = Some tw -> on_rq tw = false ->
  sigpending tw = false -> events (ks st) !! e = Some ev -> condition ev = 0 ->
  (exists l st', is_list (cells (ks st)) (Cq (Qev e)) l /\ Cw w ∈ l /\
     exec_all vla_ok [AStep cur; AStep cur] st = Ok (s32 (Z.of_nat (length l)), st')) /\
  (exists st', exec_all vla_ok [AStep cur; AStep cur; AStep u; AStep w; AStep w; AStep w; AStep w] st = Ok (0, st') /\
     ws st' !! w = Some (Ptr e, WAsleep) /\ on_rq <$> tasks (ks st') !! w = Some false) /\
  (exists st3 st4, exec_all vla_ok [ASignal w; AStep w; AStep w; AStep w] st = Ok (0, st3) /\
     ws st3 !! w = Some (Ptr e, WFinish (- ERESTARTSYS)) /\
     exec_all vla_ok [ASignal w; AStep w; AStep w; AStep w; AStep w] st = Ok (1, st4) /\ ws st4 !! w = None).
Proof.
  intros Hb Hr Hc Hu Hpc Htw Hoff Hsp Hev Hcond. destruct (reach_inv _ _ _ Hb Hr) as [[a HS] _].
  destruct (held_event _ _ (waits_in _ _ _ _ _ _ HS Hpc)) as (a1 & x & a2 & -> & ->).
  pose proof (si_inv _ _ _ HS) as HI. split; [|split].
  - destruct (signal_steps vla_ok st a1 x a2 cur w tw HS Hc Hpc Htw Hoff) as (st2 & b & _ & R & _).
    destruct (x_event _ _ _ _ _ HI) as [_ Hl _ _]. exists (Cw <$> a_waiters x), st2. rewrite length_fmap.
    split; [done|]. split; [|done]. apply list_elem_of_fmap_2, (asleep_queued _ _ _ _ _ _ HI Hpc).
    by rewrite Htw; simpl; rewrite Hoff.
  - by apply (signal_lost vla_ok st a1 x a2 cur u w tw).
  - destruct (wait_interrupted vla_ok st _ w (a_addr x) tw ev HS) as (st3 & st4 & R3 & Hw3 & R4 & Hw4); try done.
    exists st3, st4. by rewrite Hcond in Hw3.
Qed.

(** Task 2 signals the event task 1 sleeps on while task 4 goes to wait. *)
Definition ex_signals : esys := with_call 2 (CReturns (signal_waiters (Ptr 10))) ex_found.
Definition ex_lost : esys :=
  with_call 4 (CWaits (wait_rest 10)) (with_call 4 (CWaits (sys_doeventwait 4 0)) ex_signals).

Lemma ex_reach_lost : reach ex_vla ex_boot ex_lost.
Proof.
  apply (reach_waits ex_vla ex_boot ex_signals ex_events' 4 (ex_task 100 10)
    (mk_aevent 10 (mk_event 0 100 10 1 1 0) [1%positive])).
  - apply (reach_signalling _ _ ex_found 2 1 10 ex_boot_ok ex_reach_found);
      [apply lookup_insert_eq|vm_compute; reflexivity|vm_compute; reflexivity].
  - exact ex_rep'.
  - vm_compute. reflexivity.
  - reflexivity.
  - reflexivity.
  - vm_compute. congruence.
  - apply allowedb_sound. vm_compute. reflexivity.
Qed.

Lemma wait_result_unreliable_witness :
  exists st', exec_all ex_vla [AStep 2; AStep 2; AStep 4; AStep 1; AStep 1; AStep 1; AStep 1] ex_lost = Ok (0, st') /\
    ws st' !! 1%positive = Some (Ptr 10, WAsleep) /\ on_rq <$> tasks (ks st') !! 1%positive = Some false.
Proof.
  apply (wait_result_unreliable ex_vla ex_boot ex_lost 2 4 1 10
    (mk_task TASK_INTERRUPTIBLE false false 0 0) (mk_event 0 100 10 1 1 0)).
  - apply ex_boot_ok.
  - apply ex_reach_lost.
  - unfold ex_lost. rewrite !with_call_ne by done. apply lookup_insert_eq.
  - apply lookup_insert_eq.
  - vm_compute. reflexivity.
  - vm_compute. reflexivity.
  - reflexivity.
  - reflexivity.
  - vm_compute. reflexivity.
  - reflexivity.
Defined.

(** ** Two closes of one event *)

Definition result (r : res (Z * esys)) : option Z := match r with Ok (v, _) => Some v | Err _ => None end.

(** Two tasks that close the same event at the same time can both find it
    before either removes it; both then remove it and both release its memory.
    One after the other, the second is refused. *)
Theorem concurrent_close_double_free :
  let close1 := ABegin 1 (RClose 0) in
  let close2 := ABegin 2 (RClose 0) in
  exec_all ex_vla [close1; close2; AStep 1; AStep 2; AStep 1; AStep 2; AStep 1; AStep 2; AStep 1; AStep 2]
    ex_opened = Err Oops /\
  result (exec_all ex_vla [close1; close2; AStep 1; AStep 2; AStep 1; AStep 2; AStep 1; AStep 2; AStep 1] ex_opened)
    = Some 0 /\
  result (exec_all ex_vla [close1; close2; AStep 1; AStep 1; AStep 1; AStep 1; AStep 2] ex_opened) = Some (-1).
Proof. vm_compute. auto. Qed.

(** ** Counting a queue without its lock *)

(** [sys_doeventsig] and [sys_doeventclose] count the entries of a queue under
    the lock of the event list, but entries leave the queue under the lock of
    the queue alone.  A loop that stands on an entry when the entry is unlinked
    never ends: the entry then points to itself. *)
Theorem count_loop_hangs c (q : qaddr) l1 w l2 :
  is_list c (Cq q) (l1 ++ Cw w :: l2) ->
  exists c', list_del_init (Cw w) c = Ok (tt, c') /\ forall fuel, list_walk fuel (Cw w) (Cq q) c' = Err Hang.
Proof.
  intros Hl. destruct (list_del_init_spec _ _ _ _ _ Hl) as (c' & R & _ & Hw & _). exists c'. split; [done|].
  destruct (is_list_ends _ _ _ Hw) as [Hn _].
  induction fuel as [|fuel IH]; [done|]. cbn [list_walk].
  rewrite (bind_ok _ _ _ _ _ (get_next_run _ _ _ Hn)). cbn [fmap list_fmap head default].
  rewrite bool_decide_false by done. by apply bind_err.
Qed.
