(* ===== verification/Creds.v ===== *)
(** Credentials: the [set*uid] and [set*gid] system calls of [kernel/sys.c],
    [cap_task_fix_setuid] and [cap_capset] of [security/commoncap.c], and the
    capability sets of [include/linux/capability.h].

    A system call maps the credentials of the running task to its result and
    the credentials after it.  [prepare_creds] may fail for lack of memory and
    [alloc_uid] may fail or find too many processes; both are arguments.  The
    hooks [security_task_setuid] and [security_task_setgid] of the configured
    security module, the default one, return 0. *)
From S2P Require Import Prelude.

(** ** Capability sets *)

(** A [kernel_cap_t], its two words side by side. *)
Definition kernel_cap_t : Type := Z.

Definition CAP_CHOWN : Z := 0.
Definition CAP_DAC_OVERRIDE : Z := 1.
Definition CAP_DAC_READ_SEARCH : Z := 2.
Definition CAP_FOWNER : Z := 3.
Definition CAP_FSETID : Z := 4.
Definition CAP_SETGID : Z := 6.
Definition CAP_SETUID : Z := 7.
Definition CAP_SETPCAP : Z := 8.
Definition CAP_LINUX_IMMUTABLE : Z := 9.
Definition CAP_MKNOD : Z := 27.
Definition CAP_MAC_OVERRIDE : Z := 32.

Definition cap_raised (c : kernel_cap_t) (flag : Z) : bool := Z.testbit c flag.
Definition cap_combine (a b : kernel_cap_t) : kernel_cap_t := Z.lor a b.
Definition cap_intersect (a b : kernel_cap_t) : kernel_cap_t := Z.land a b.
Definition cap_drop (a drop : kernel_cap_t) : kernel_cap_t := Z.ldiff a drop.
Definition cap_isclear (a : kernel_cap_t) : bool := a =? 0.
Definition cap_issubset (a set : kernel_cap_t) : bool := cap_isclear (cap_drop a set).

Definition CAP_FS_SET : kernel_cap_t :=
  foldr (fun f s => Z.lor (Z.shiftl 1 f) s) 0
    [CAP_CHOWN; CAP_MKNOD; CAP_DAC_OVERRIDE; CAP_DAC_READ_SEARCH; CAP_FOWNER; CAP_FSETID;
     CAP_LINUX_IMMUTABLE; CAP_MAC_OVERRIDE].
Definition cap_drop_fs_set (a : kernel_cap_t) : kernel_cap_t := cap_drop a CAP_FS_SET.
Definition cap_raise_fs_set (a permitted : kernel_cap_t) : kernel_cap_t :=
  cap_combine a (cap_intersect permitted CAP_FS_SET).

Lemma cap_issubset_spec a b :
  cap_issubset a b = true <-> forall f, 0 <= f -> cap_raised a f = true -> cap_raised b f = true.
Proof.
  unfold cap_issubset, cap_isclear, cap_drop, cap_raised. rewrite Z.eqb_eq. split.
  - intros E f Hf Ha. destruct (Z.testbit b f) eqn:Eb; [done|].
    assert (Hd : Z.testbit (Z.ldiff a b) f = true) by (by rewrite Z.ldiff_spec, Ha, Eb).
    rewrite E, Z.bits_0 in Hd. done.
  - intros Hs. apply Z.bits_inj'. intros f Hf. rewrite Z.ldiff_spec, Z.bits_0.
    destruct (Z.testbit a f) eqn:Ea; [|done]. by rewrite (Hs f Hf Ea).
Qed.

(** ** Credentials *)

Record cred : Type := mk_cred {
  uid : Z; gid : Z; suid : Z; sgid : Z; euid : Z; egid : Z; fsuid : Z; fsgid : Z;
  securebits : Z;
  cap_inheritable : kernel_cap_t;
  cap_permitted : kernel_cap_t;
  cap_effective : kernel_cap_t;
  cap_bset : kernel_cap_t;
}.

Definition set_uids (u s e f : Z) (c : cred) : cred :=
  mk_cred u (gid c) s (sgid c) e (egid c) f (fsgid c) (securebits c) (cap_inheritable c)
    (cap_permitted c) (cap_effective c) (cap_bset c).
Definition set_gids (g s e f : Z) (c : cred) : cred :=
  mk_cred (uid c) g (suid c) s (euid c) e (fsuid c) f (securebits c) (cap_inheritable c)
    (cap_permitted c) (cap_effective c) (cap_bset c).
Definition set_caps (i p e : kernel_cap_t) (c : cred) : cred :=
  mk_cred (uid c) (gid c) (suid c) (sgid c) (euid c) (egid c) (fsuid c) (fsgid c) (securebits c)
    i p e (cap_bset c).

Definition set_uid v c := set_uids v (suid c) (euid c) (fsuid c) c.
Definition set_suid v c := set_uids (uid c) v (euid c) (fsuid c) c.
Definition set_euid v c := set_uids (uid c) (suid c) v (fsuid c) c.
Definition set_fsuid v c := set_uids (uid c) (suid c) (euid c) v c.
Definition set_gid v c := set_gids v (sgid c) (egid c) (fsgid c) c.
Definition set_sgid v c := set_gids (gid c) v (egid c) (fsgid c) c.
Definition set_egid v c := set_gids (gid c) (sgid c) v (fsgid c) c.
Definition set_fsgid v c := set_gids (gid c) (sgid c) (egid c) v c.
Definition set_permitted v c := set_caps (cap_inheritable c) v (cap_effective c) c.
Definition set_effective v c := set_caps (cap_inheritable c) (cap_permitted c) v c.

Definition capable (c : cred) (cap : Z) : bool := cap_raised (cap_effective c) cap.

Definition SECURE_NO_SETUID_FIXUP : Z := 2.
Definition SECURE_KEEP_CAPS : Z := 4.
(** [issecure] looks at the current credentials, which are the old ones. *)
Definition issecure (old : cred) (X : Z) : bool := Z.testbit (securebits old) X.

Definition EPERM : Z := 1.
Definition ESRCH : Z := 3.
Definition EAGAIN : Z := 11.
Definition ENOMEM : Z := 12.
Definition EFAULT : Z := 14.
Definition EINVAL : Z := 22.

Definition _LINUX_CAPABILITY_VERSION_1 : Z := 0x19980330.
Definition _LINUX_CAPABILITY_VERSION_2 : Z := 0x20071026.
Definition _LINUX_CAPABILITY_VERSION_3 : Z := 0x20080522.

(** ** The capability fix-ups *)

Definition cap_emulate_setxuid (new old : cred) : cred :=
  let new :=
    if ((uid old =? 0) || (euid old =? 0) || (suid old =? 0)) &&
       (negb (uid new =? 0) && negb (euid new =? 0) && negb (suid new =? 0)) &&
       negb (issecure old SECURE_KEEP_CAPS)
    then set_effective 0 (set_permitted 0 new) else new in
  let new := if (euid old =? 0) && negb (euid new =? 0) then set_effective 0 new else new in
  if negb (euid old =? 0) && (euid new =? 0) then set_effective (cap_permitted new) new else new.

Inductive lsm_setid : Type := LSM_SETID_ID | LSM_SETID_RE | LSM_SETID_RES | LSM_SETID_FS.

(** Of the values of [flags] only these four are passed; the [default] case,
    which returns [-EINVAL], is never taken. *)
Definition cap_task_fix_setuid (new old : cred) (flags : lsm_setid) : cred :=
  match flags with
  | LSM_SETID_RE | LSM_SETID_ID | LSM_SETID_RES =>
      if negb (issecure old SECURE_NO_SETUID_FIXUP) then cap_emulate_setxuid new old else new
  | LSM_SETID_FS =>
      if negb (issecure old SECURE_NO_SETUID_FIXUP) then
        let new := if (fsuid old =? 0) && negb (fsuid new =? 0)
                   then set_effective (cap_drop_fs_set (cap_effective new)) new else new in
        if negb (fsuid old =? 0) && (fsuid new =? 0)
        then set_effective (cap_raise_fs_set (cap_effective new) (cap_permitted new)) new else new
      else new
  end.

(** ** Attempts: a new set of credentials or an error *)

Inductive attempt (A : Type) : Type := Good (a : A) | Bad (err : Z).
Arguments Good {A} _.
Arguments Bad {A} _.

Definition try {A B} (m : attempt A) (k : A -> attempt B) : attempt B :=
  match m with Good a => k a | Bad e => Bad e end.
Notation "'try!' x := m 'in' k" := (try m (fun x => k))
  (at level 10, x pattern, m at level 100, k at level 200) : kernel_scope.

(** [commit_creds] installs the new credentials, [abort_creds] drops them. *)
Definition finish (old : cred) (m : attempt cred) : Z * cred :=
  match m with Good new => (0, new) | Bad e => (e, old) end.

(** [(uid_t) -1] *)
Definition NONE : Z := 4294967295.
Definition given (v : Z) : bool := negb (v =? NONE).

Section SetId.
  (** Whether [prepare_creds] succeeds; the number of processes of the user
      [alloc_uid] finds, or its failure; the limit [RLIMIT_NPROC]. *)
  Context (mem_ok : bool) (alloc_uid : Z -> option Z) (rlim_cur : Z).

(** [INIT_USER] is the user structure of uid 0. *)
Definition set_user (new : cred) : attempt cred :=
  match alloc_uid (uid new) with
  | None => Bad (- EAGAIN)
  | Some processes =>
      if (rlim_cur <=? processes) && negb (uid new =? 0) then Bad (- EAGAIN) else Good new
  end.

Definition setregid (rgid egid_ : Z) (old : cred) : Z * cred :=
  if negb mem_ok then (- ENOMEM, old)
  else finish old (
    let new := old in
    try! new :=
      (if given rgid then
         if (gid old =? rgid) || (egid old =? rgid) || capable old CAP_SETGID
         then Good (set_gid rgid new) else Bad (- EPERM)
       else Good new) in
    try! new :=
      (if given egid_ then
         if (gid old =? egid_) || (egid old =? egid_) || (sgid old =? egid_) || capable old CAP_SETGID
         then Good (set_egid egid_ new) else Bad (- EPERM)
       else Good new) in
    let new := if given rgid || (given egid_ && negb (egid_ =? gid old))
               then set_sgid (egid new) new else new in
    Good (set_fsgid (egid new) new)).

Definition setgid (gid_ : Z) (old : cred) : Z * cred :=
  if negb mem_ok then (- ENOMEM, old)
  else finish old (
    if capable old CAP_SETGID then Good (set_gids gid_ gid_ gid_ gid_ old)
    else if (gid_ =? gid old) || (gid_ =? sgid old)
    then Good (set_egid gid_ (set_fsgid gid_ old))
    else Bad (- EPERM)).

Definition setreuid (ruid euid_ : Z) (old : cred) : Z * cred :=
  if negb mem_ok then (- ENOMEM, old)
  else finish old (
    let new := old in
    try! new :=
      (if given ruid then
         let new := set_uid ruid new in
         if negb (uid old =? ruid) && negb (euid old =? ruid) && negb (capable old CAP_SETUID)
         then Bad (- EPERM) else Good new
       else Good new) in
    try! new :=
      (if given euid_ then
         let new := set_euid euid_ new in
         if negb (uid old =? euid_) && negb (euid old =? euid_) && negb (suid old =? euid_) &&
            negb (capable old CAP_SETUID)
         then Bad (- EPERM) else Good new
       else Good new) in
    try! new := (if negb (uid new =? uid old) then set_user new else Good new) in
    let new := if given ruid || (given euid_ && negb (euid_ =? uid old))
               then set_suid (euid new) new else new in
    let new := set_fsuid (euid new) new in
    Good (cap_task_fix_setuid new old LSM_SETID_RE)).

Definition setuid (uid_ : Z) (old : cred) : Z * cred :=
  if negb mem_ok then (- ENOMEM, old)
  else finish old (
    let new := old in
    try! new :=
      (if capable old CAP_SETUID then
         let new := set_suid uid_ (set_uid uid_ new) in
         if negb (uid_ =? uid old) then set_user new else Good new
       else if negb (uid_ =? uid old) && negb (uid_ =? suid new) then Bad (- EPERM)
       else Good new) in
    let new := set_fsuid uid_ (set_euid uid_ new) in
    Good (cap_task_fix_setuid new old LSM_SETID_ID)).

(** An id that is given must be one of the three. *)
Definition among (v a b c : Z) : bool := negb (given v) || (v =? a) || (v =? b) || (v =? c).

Definition setresuid (ruid euid_ suid_ : Z) (old : cred) : Z * cred :=
  if negb mem_ok then (- ENOMEM, old)
  else finish old (
    let new := old in
    try! new :=
      (if negb (capable old CAP_SETUID) then
         if negb (among ruid (uid old) (euid old) (suid old)) then Bad (- EPERM)
         else if negb (among euid_ (uid old) (euid old) (suid old)) then Bad (- EPERM)
         else if negb (among suid_ (uid old) (euid old) (suid old)) then Bad (- EPERM)
         else Good new
       else Good new) in
    try! new :=
      (if given ruid then
         let new := set_uid ruid new in
         if negb (ruid =? uid old) then set_user new else Good new
       else Good new) in
    let new := if given euid_ then set_euid euid_ new else new in
    let new := if given suid_ then set_suid suid_ new else new in
    let new := set_fsuid (euid new) new in
    Good (cap_task_fix_setuid new old LSM_SETID_RES)).

Definition setresgid (rgid egid_ sgid_ : Z) (old : cred) : Z * cred :=
  if negb mem_ok then (- ENOMEM, old)
  else finish old (
    let new := old in
    try! new :=
      (if negb (capable old CAP_SETGID) then
         if negb (among rgid (gid old) (egid old) (sgid old)) then Bad (- EPERM)
         else if negb (among egid_ (gid old) (egid old) (sgid old)) then Bad (- EPERM)
         else if negb (among sgid_ (gid old) (egid old) (sgid old)) then Bad (- EPERM)
         else Good new
       else Good new) in
    let new := if given rgid then set_gid rgid new else new in
    let new := if given egid_ then set_egid egid_ new else new in
    let new := if given sgid_ then set_sgid sgid_ new else new in
    Good (set_fsgid (egid new) new)).

(** The result is the old id whether or not it changed. *)
Definition setfsuid (uid_ : Z) (old : cred) : Z * cred :=
  if negb mem_ok then (fsuid old, old)
  else
    let old_fsuid := fsuid old in
    if (uid_ =? uid old) || (uid_ =? euid old) || (uid_ =? suid old) || (uid_ =? fsuid old) ||
       capable old CAP_SETUID then
      if negb (uid_ =? old_fsuid) then
        (old_fsuid, cap_task_fix_setuid (set_fsuid uid_ old) old LSM_SETID_FS)
      else (old_fsuid, old)
    else (old_fsuid, old).

Definition setfsgid (gid_ : Z) (old : cred) : Z * cred :=
  if negb mem_ok then (fsgid old, old)
  else
    let old_fsgid := fsgid old in
    if (gid_ =? gid old) || (gid_ =? egid old) || (gid_ =? sgid old) || (gid_ =? fsgid old) ||
       capable old CAP_SETGID then
      if negb (gid_ =? old_fsgid) then (old_fsgid, set_fsgid gid_ old) else (old_fsgid, old)
    else (old_fsgid, old).

(** [file_caps]: whether the kernel is built with
    [CONFIG_SECURITY_FILE_CAPABILITIES]; [csc256.config] leaves it out. *)
Definition cap_inh_is_capped (file_caps : bool) (old : cred) : bool :=
  if file_caps && capable old CAP_SETPCAP then false else true.

Definition cap_capset (file_caps : bool) (new old : cred) (effective inheritable permitted : kernel_cap_t) : attempt cred :=
  if cap_inh_is_capped file_caps old &&
     negb (cap_issubset inheritable (cap_combine (cap_inheritable old) (cap_permitted old)))
  then Bad (- EPERM)
  else if negb (cap_issubset inheritable (cap_combine (cap_inheritable old) (cap_bset old)))
  then Bad (- EPERM)
  else if negb (cap_issubset permitted (cap_permitted old)) then Bad (- EPERM)
  else if negb (cap_issubset effective permitted) then Bad (- EPERM)
  else Good (set_caps inheritable permitted effective new).

(** The header the caller passes: its two fields as [get_user] reads them,
    and whether the version can be written back. *)
Record cap_header : Type := mk_header {
  version : option Z; version_writable : bool; hpid : option Z;
}.

(** Returns [tocopy]; the version the kernel prefers is written back when it
    does not know the one it is given. *)
Definition cap_validate_magic (h : cap_header) : attempt nat :=
  match version h with
  | None => Bad (- EFAULT)
  | Some v =>
      if v =? _LINUX_CAPABILITY_VERSION_1 then Good 1%nat
      else if v =? _LINUX_CAPABILITY_VERSION_2 then Good 2%nat
      else if v =? _LINUX_CAPABILITY_VERSION_3 then Good 2%nat
      else if version_writable h then Bad (- EINVAL) else Bad (- EFAULT)
  end.

(** [struct __user_cap_data_struct] *)
Record cap_data : Type := mk_data { d_effective : Z; d_permitted : Z; d_inheritable : Z }.

(** The words of a set, the missing ones zero. *)
Fixpoint of_words (ws : list Z) : kernel_cap_t :=
  match ws with [] => 0 | w :: ws' => Z.lor w (Z.shiftl (of_words ws') 32) end.

Definition capset (file_caps : bool) (tgid : Z) (header : cap_header) (data : nat -> option (list cap_data))
    (old : cred) : Z * cred :=
  finish old (
    try! tocopy := cap_validate_magic header in
    match hpid header with
    | None => Bad (- EFAULT)
    | Some pid =>
        if negb (pid =? 0) && negb (pid =? tgid) then Bad (- EPERM)
        else
          match data tocopy with
          | None => Bad (- EFAULT)
          | Some kdata =>
              if negb mem_ok then Bad (- ENOMEM)
              else cap_capset file_caps old old (of_words (d_effective <$> kdata))
                     (of_words (d_inheritable <$> kdata)) (of_words (d_permitted <$> kdata))
          end
    end).
End SetId.

Definition cap_get_target_pid (find_task_by_vpid : Z -> option cred) (tgid pid : Z) (self : cred) :
    attempt cred :=
  if negb (pid =? 0) && negb (pid =? tgid) then
    match find_task_by_vpid pid with None => Bad (- ESRCH) | Some target => Good target end
  else Good self.

Definition word (c : kernel_cap_t) (i : nat) : Z := Z.land (Z.shiftr c (32 * Z.of_nat i)) (Z.ones 32).

(** The result is the data copied out, when the copy succeeds. *)
Definition capget (find_task_by_vpid : Z -> option cred) (tgid : Z) (header : cap_header)
    (writable : bool) (self : cred) : attempt (list cap_data) :=
  try! tocopy := cap_validate_magic header in
  match hpid header with
  | None => Bad (- EFAULT)
  | Some pid =>
      if pid <? 0 then Bad (- EINVAL)
      else
        try! c := cap_get_target_pid find_task_by_vpid tgid pid self in
        if writable then
          Good ((fun i => mk_data (word (cap_effective c) i) (word (cap_permitted c) i)
                            (word (cap_inheritable c) i)) <$> seq 0 tocopy)
        else Bad (- EFAULT)
  end.


(** ** What a call may change *)

Definition caps_le (a b : kernel_cap_t) : Prop :=
  forall f, 0 <= f -> cap_raised a f = true -> cap_raised b f = true.

Lemma caps_le_refl a : caps_le a a.
Proof. by intros f. Qed.
Lemma caps_le_trans a b c : caps_le a b -> caps_le b c -> caps_le a c.
Proof. intros H1 H2 f Hf Ha. auto. Qed.
Lemma caps_le_0 b : caps_le 0 b.
Proof. intros f _ Hf. unfold cap_raised in Hf. by rewrite Z.bits_0 in Hf. Qed.

Create HintDb caps.
#[export] Hint Resolve caps_le_refl caps_le_0 : caps.

Definition uid_of (c : cred) (v : Z) : Prop := v = uid c \/ v = euid c \/ v = suid c \/ v = fsuid c.
Definition gid_of (c : cred) (v : Z) : Prop := v = gid c \/ v = egid c \/ v = sgid c \/ v = fsgid c.

(** Without the capability no new id appears; permitted capabilities are
    never gained, and the effective ones stay among the permitted. *)
Record confined (old new : cred) : Prop := {
  conf_uid : capable old CAP_SETUID = false -> forall v, uid_of new v -> uid_of old v;
  conf_gid : capable old CAP_SETGID = false -> forall v, gid_of new v -> gid_of old v;
  conf_perm : caps_le (cap_permitted new) (cap_permitted old);
  conf_eff : caps_le (cap_effective old) (cap_permitted old) ->
             caps_le (cap_effective new) (cap_permitted new);
}.

Lemma confined_refl c : confined c c.
Proof. split; auto with caps. Qed.

(** The ids of credentials, for comparison. *)
Definition ids (c : cred) : list Z :=
  [uid c; euid c; suid c; fsuid c; gid c; egid c; sgid c; fsgid c].

Lemma emulate_ids new old : ids (cap_emulate_setxuid new old) = ids new.
Proof. unfold cap_emulate_setxuid. by repeat case_match. Qed.

Lemma fix_ids new old flags : ids (cap_task_fix_setuid new old flags) = ids new.
Proof.
  unfold cap_task_fix_setuid. destruct flags; repeat case_match; try done; apply emulate_ids.
Qed.

Lemma emulate_caps new old :
  cap_permitted new = cap_permitted old -> cap_effective new = cap_effective old ->
  caps_le (cap_permitted (cap_emulate_setxuid new old)) (cap_permitted old) /\
  (caps_le (cap_effective old) (cap_permitted old) ->
   caps_le (cap_effective (cap_emulate_setxuid new old)) (cap_permitted (cap_emulate_setxuid new old))).
Proof.
  intros Ep Ee. unfold cap_emulate_setxuid.
  repeat case_match; simpl; rewrite ?Ep, ?Ee; split; auto with caps.
Qed.

Lemma fix_caps new old flags :
  cap_permitted new = cap_permitted old -> cap_effective new = cap_effective old ->
  caps_le (cap_permitted (cap_task_fix_setuid new old flags)) (cap_permitted old) /\
  (caps_le (cap_effective old) (cap_permitted old) ->
   caps_le (cap_effective (cap_task_fix_setuid new old flags))
     (cap_permitted (cap_task_fix_setuid new old flags))).
Proof.
  intros Ep Ee. unfold cap_task_fix_setuid.
  destruct flags; case_match; try (by apply emulate_caps); rewrite ?Ep, ?Ee;
    try (by split; auto with caps).
  destruct ((fsuid old =? 0) && negb (fsuid new =? 0)), (negb (fsuid old =? 0) && (fsuid _ =? 0));
    simpl; rewrite ?Ep, ?Ee; split; auto with caps; intros Hle f Hf;
    unfold cap_raise_fs_set, cap_combine, cap_intersect, cap_drop_fs_set, cap_drop, cap_raised;
    rewrite ?Z.lor_spec, ?Z.land_spec, ?Z.ldiff_spec by done; specialize (Hle f Hf);
    unfold cap_raised in Hle; destruct (Z.testbit (cap_effective old) f), (Z.testbit (cap_permitted old) f),
      (Z.testbit CAP_FS_SET f); simpl; auto.
Qed.

(** The ids a fix-up leaves alone. *)
Lemma confined_fix old new flags :
  cap_permitted new = cap_permitted old -> cap_effective new = cap_effective old ->
  (capable old CAP_SETUID = false -> forall v, uid_of new v -> uid_of old v) ->
  (capable old CAP_SETGID = false -> forall v, gid_of new v -> gid_of old v) ->
  confined old (cap_task_fix_setuid new old flags).
Proof.
  intros Ep Ee Hu Hg. destruct (fix_caps new old flags Ep Ee) as [Hp He].
  pose proof (fix_ids new old flags) as E. unfold ids in E. injection E as E1 E2 E3 E4 E5 E6 E7 E8.
  split; [| |done|done]; unfold uid_of, gid_of in *; rewrite ?E1, ?E2, ?E3, ?E4, ?E5, ?E6, ?E7, ?E8; done.
Qed.

#[local] Arguments capable : simpl never.
#[local] Arguments cap_raised : simpl never.
#[local] Arguments cap_task_fix_setuid : simpl never.

Ltac split_call :=
  unfold finish, try, among, given, set_user; repeat case_match; simplify_eq/=;
  try apply confined_refl.

Ltac solve_ids := intros Hc v; unfold uid_of, gid_of; rewrite ?Hc in *; simpl; lia.

Ltac same_cred := match goal with |- _ = ?c => by destruct c end.

Section Confined.
  Context (mem_ok : bool) (alloc_uid : Z -> option Z) (rlim_cur : Z).

Lemma setreuid_confined r e old : confined old (setreuid mem_ok alloc_uid rlim_cur r e old).2.
Proof.
  unfold setreuid. split_call; apply confined_fix; try done; solve_ids.
Qed.

Lemma setuid_confined u old : confined old (setuid mem_ok alloc_uid rlim_cur u old).2.
Proof.
  unfold setuid. split_call; apply confined_fix; try done; solve_ids.
Qed.

Lemma setresuid_confined r e s old : confined old (setresuid mem_ok alloc_uid rlim_cur r e s old).2.
Proof.
  unfold setresuid. split_call; apply confined_fix; try done; solve_ids.
Qed.

Lemma setfsuid_confined u old : confined old (setfsuid mem_ok u old).2.
Proof.
  unfold setfsuid. split_call; apply confined_fix; try done; solve_ids.
Qed.

Lemma confined_gids old new :
  set_gids (gid old) (sgid old) (egid old) (fsgid old) new = old ->
  (capable old CAP_SETGID = false -> forall v, gid_of new v -> gid_of old v) ->
  confined old new.
Proof.
  intros E Hg. destruct old as [], new as []; unfold set_gids in E; simpl in E.
  injection E; intros; subst.
  split; [by intros _ v Hv|done|apply caps_le_refl|done].
Qed.

Lemma setregid_confined r e old : confined old (setregid mem_ok r e old).2.
Proof.
  unfold setregid. split_call; (apply confined_gids; [same_cred|]); solve_ids.
Qed.

Lemma setgid_confined g old : confined old (setgid mem_ok g old).2.
Proof.
  unfold setgid. split_call; (apply confined_gids; [same_cred|]); solve_ids.
Qed.

Lemma setresgid_confined r e s old : confined old (setresgid mem_ok r e s old).2.
Proof.
  unfold setresgid. split_call; (apply confined_gids; [same_cred|]); solve_ids.
Qed.

Lemma setfsgid_confined g old : confined old (setfsgid mem_ok g old).2.
Proof.
  unfold setfsgid. split_call; (apply confined_gids; [same_cred|]); solve_ids.
Qed.

Lemma cap_capset_confined file_caps old eff inh perm new :
  cap_capset file_caps old old eff inh perm = Good new -> confined old new.
Proof.
  unfold cap_capset. repeat case_match; intros E; simplify_eq/=.
  rewrite ->!negb_false_iff, cap_issubset_spec in *. split; try done; by intros _.
Qed.

Lemma capset_confined file_caps tgid h data old : confined old (capset mem_ok file_caps tgid h data old).2.
Proof.
  unfold capset, finish, try. case_match eqn:E; [|apply confined_refl].
  repeat case_match; simplify_eq. by eapply cap_capset_confined.
Qed.
End Confined.

(** ** Sequences of calls *)

(** What a call finds: see [SetId]. *)
Record call_env : Type := mk_env {
  e_mem_ok : bool; e_alloc_uid : Z -> option Z; e_rlim_cur : Z; e_tgid : Z; e_file_caps : bool;
}.

Inductive id_call : Type :=
  | Setregid (rgid egid_ : Z) | Setgid (gid_ : Z) | Setreuid (ruid euid_ : Z) | Setuid (uid_ : Z)
  | Setresuid (ruid euid_ suid_ : Z) | Setresgid (rgid egid_ sgid_ : Z)
  | Setfsuid (uid_ : Z) | Setfsgid (gid_ : Z)
  | Capset (header : cap_header) (data : nat -> option (list cap_data)).

Definition id_exec (ev : call_env) (c : id_call) : cred -> Z * cred :=
  let '(mk_env mem_ok alloc rlim tgid file_caps) := ev in
  match c with
  | Setregid r e => setregid mem_ok r e
  | Setgid g => setgid mem_ok g
  | Setreuid r e => setreuid mem_ok alloc rlim r e
  | Setuid u => setuid mem_ok alloc rlim u
  | Setresuid r e s => setresuid mem_ok alloc rlim r e s
  | Setresgid r e s => setresgid mem_ok r e s
  | Setfsuid u => setfsuid mem_ok u
  | Setfsgid g => setfsgid mem_ok g
  | Capset h d => capset mem_ok file_caps tgid h d
  end.

Fixpoint id_run (cs : list (call_env * id_call)) (c : cred) : cred :=
  match cs with [] => c | (ev, call) :: cs' => id_run cs' (id_exec ev call c).2 end.

Lemma id_exec_confined ev call c : confined c (id_exec ev call c).2.
Proof.
  destruct ev, call; simpl; auto using setregid_confined, setgid_confined, setreuid_confined,
    setuid_confined, setresuid_confined, setresgid_confined, setfsuid_confined, setfsgid_confined,
    capset_confined.
Qed.

Lemma not_permitted_incapable c cap :
  caps_le (cap_effective c) (cap_permitted c) -> 0 <= cap -> cap_raised (cap_permitted c) cap = false ->
  capable c cap = false.
Proof.
  intros Hle Hc Hp. unfold capable. destruct (cap_raised (cap_effective c) cap) eqn:E; [|done].
  rewrite (Hle cap Hc E) in Hp. done.
Qed.

Lemma caps_le_lacks a b f : caps_le a b -> 0 <= f -> cap_raised b f = false -> cap_raised a f = false.
Proof.
  intros Hle Hf Hb. destruct (cap_raised a f) eqn:E; [|done]. by rewrite (Hle f Hf E) in Hb.
Qed.

Lemma id_run_caps cs c :
  caps_le (cap_effective c) (cap_permitted c) ->
  caps_le (cap_permitted (id_run cs c)) (cap_permitted c) /\
  caps_le (cap_effective (id_run cs c)) (cap_permitted (id_run cs c)).
Proof.
  revert c. induction cs as [|[ev call] cs IH]; intros c He; simpl; [auto with caps|].
  destruct (id_exec_confined ev call c) as [_ _ Hp He']. destruct (IH _ (He' He)) as [Hp2 He2].
  split; [by eapply caps_le_trans|done].
Qed.

Lemma id_run_uids cs c :
  caps_le (cap_effective c) (cap_permitted c) -> cap_raised (cap_permitted c) CAP_SETUID = false ->
  forall v, uid_of (id_run cs c) v -> uid_of c v.
Proof.
  revert c. induction cs as [|[ev call] cs IH]; intros c He Hs v Hv; simpl in *; [done|].
  destruct (id_exec_confined ev call c) as [Hu _ Hp He'].
  apply (Hu (not_permitted_incapable c CAP_SETUID He ltac:(done) Hs)).
  apply IH; [auto| |done]. by eapply caps_le_lacks.
Qed.

Lemma id_run_gids cs c :
  caps_le (cap_effective c) (cap_permitted c) -> cap_raised (cap_permitted c) CAP_SETGID = false ->
  forall v, gid_of (id_run cs c) v -> gid_of c v.
Proof.
  revert c. induction cs as [|[ev call] cs IH]; intros c He Hs v Hv; simpl in *; [done|].
  destruct (id_exec_confined ev call c) as [_ Hg Hp He'].
  apply (Hg (not_permitted_incapable c CAP_SETGID He ltac:(done) Hs)).
  apply IH; [auto| |done]. by eapply caps_le_lacks.
Qed.

(** ** Dropping root *)

(** A process with a root id and the default [securebits]. *)
Definition is_root (c : cred) : Prop :=
  (uid c = 0 \/ euid c = 0 \/ suid c = 0) /\ capable c CAP_SETUID = true /\
  issecure c SECURE_NO_SETUID_FIXUP = false /\ issecure c SECURE_KEEP_CAPS = false.

Lemma setuid_drops alloc rlim u c n :
  is_root c -> u <> 0 -> alloc u = Some n -> n < rlim ->
  exists c', setuid true alloc rlim u c = (0, c') /\
    cap_permitted c' = 0 /\ cap_effective c' = 0 /\
    uid c' = u /\ euid c' = u /\ suid c' = u /\ fsuid c' = u.
Proof.
  intros (Hid & Hc & Hf & Hk) Hu Ha Hn.
  unfold setuid, set_user. simpl. rewrite Hc, Ha, (proj2 (Z.leb_gt rlim n)) by lia.
  assert (Hfix : forall new, uid new = u -> euid new = u -> suid new = u -> fsuid new = u ->
    let c' := cap_task_fix_setuid new c LSM_SETID_ID in
    cap_permitted c' = 0 /\ cap_effective c' = 0 /\ uid c' = u /\ euid c' = u /\ suid c' = u /\ fsuid c' = u).
  { intros new E1 E2 E3 E4 c'. subst c'. pose proof (fix_ids new c LSM_SETID_ID) as E.
    unfold ids in E. injection E as F1 F2 F3 F4 _ _ _ _. rewrite F1, F2, F3, F4.
    split_and!; try done; unfold cap_task_fix_setuid; rewrite Hf; simpl;
      unfold cap_emulate_setxuid; rewrite Hk, E1, E2, E3, (proj2 (Z.eqb_neq u 0) Hu);
      replace ((uid c =? 0) || (euid c =? 0) || (suid c =? 0)) with true by lia; simpl;
      destruct (euid c =? 0); simpl; by rewrite ?E2, ?(proj2 (Z.eqb_neq u 0) Hu). }
  destruct (u =? uid c) eqn:Eu; simpl.
  - eexists. split; [done|]. by apply Hfix.
  - eexists. split; [done|]. by apply Hfix.
Qed.

(** ** The sets as words *)

Lemma of_words_word c : 0 <= c < 2 ^ 64 -> of_words (word c <$> seq 0 2) = c.
Proof.
  intros Hc. apply Z.bits_inj'. intros n Hn. simpl. unfold word.
  rewrite !Z.lor_spec, Z.shiftl_spec, Z.shiftl_0_l, Z.lor_0_r, !Z.land_spec, !Z.shiftr_spec by lia.
  destruct (Z.ltb_spec n 32) as [Hl|Hl].
  - rewrite Z.ones_spec_low, (Z.testbit_neg_r _ (n - 32)) by lia. simpl.
    rewrite andb_true_r, orb_false_r. f_equal. lia.
  - rewrite (Z.ones_spec_high 32 n) by lia. rewrite andb_false_r. simpl.
    change (32 * Z.of_nat 1) with 32. rewrite Z.shiftr_spec by lia.
    replace (n - 32 + 32) with n by lia. destruct (Z.ltb_spec n 64).
    + rewrite Z.ones_spec_low by lia. by rewrite andb_true_r.
    + rewrite Z.ones_spec_high by lia. rewrite andb_false_r. symmetry.
      destruct (decide (c = 0)) as [->|]; [apply Z.bits_0|].
      apply Z.bits_above_log2; [lia|]. apply Z.log2_lt_pow2; [lia|].
      apply Z.lt_le_trans with (2 ^ 64); [lia|]. apply Z.pow_le_mono_r; lia.
Qed.

Lemma cap_issubset_le a b : caps_le a b -> cap_issubset a b = true.
Proof. intros H. by apply cap_issubset_spec. Qed.

Lemma caps_le_combine_l a b : caps_le a (cap_combine a b).
Proof.
  intros f Hf Ha. unfold cap_combine, cap_raised in *. rewrite Z.lor_spec, Ha. done.
Qed.

(** ** Claims *)

(** C24: over any sequence of the nine calls a process that is not permitted
    [CAP_SETUID] only ever has user ids it started with, one that is not
    permitted [CAP_SETGID] only group ids it started with; no call adds a
    permitted capability, and what is effective stays permitted. *)
Theorem no_new_identity (cs : list (call_env * id_call)) (c : cred)
    (He : caps_le (cap_effective c) (cap_permitted c)) :
  (cap_raised (cap_permitted c) CAP_SETUID = false -> forall v, uid_of (id_run cs c) v -> uid_of c v) /\
  (cap_raised (cap_permitted c) CAP_SETGID = false -> forall v, gid_of (id_run cs c) v -> gid_of c v) /\
  caps_le (cap_permitted (id_run cs c)) (cap_permitted c) /\
  caps_le (cap_effective (id_run cs c)) (cap_permitted (id_run cs c)).
Proof.
  destruct (id_run_caps cs c He). split_and!; [| |done|done].
  - intros Hs. by apply id_run_uids.
  - intros Hs. by apply id_run_gids.
Qed.

(** A set-user-id program of user 1001, run by user 1000. *)
Definition ex_suid : cred := mk_cred 1000 100 1001 100 1001 100 1001 100 0 0 0 0 (Z.ones 34).
Definition ex_env : call_env := mk_env true (fun _ => Some 1) 100 7 false.
Definition ex_calls : list (call_env * id_call) :=
  [(ex_env, Setresuid NONE 1000 NONE); (ex_env, Setuid 0); (ex_env, Setresuid 1001 1001 1001)].

Lemma no_new_identity_witness :
  (forall v, uid_of (id_run ex_calls ex_suid) v -> v = 1000 \/ v = 1001) /\
  uid (id_run ex_calls ex_suid) = 1001.
Proof.
  split; [|vm_compute; reflexivity]. intros v Hv.
  destruct (no_new_identity ex_calls ex_suid ltac:(apply caps_le_refl)) as [Hu _].
  specialize (Hu ltac:(vm_compute; reflexivity) v Hv). unfold uid_of in Hu. simpl in Hu. lia.
Defined.

(** C25: for a process with a root user id, the capability to set user ids and
    the default [securebits] (neither [SECURE_KEEP_CAPS] nor
    [SECURE_NO_SETUID_FIXUP]), [setuid] to another user whose process limit is
    not reached succeeds when memory is left; whatever calls of the nine
    follow, all four user ids stay that user's and no capability is ever
    permitted or effective again. *)
Theorem root_drop_is_permanent (alloc : Z -> option Z) (rlim u n : Z) (c : cred)
    (cs : list (call_env * id_call))
    (Hc : is_root c) (Hu : u <> 0) (Ha : alloc u = Some n) (Hn : n < rlim) :
  exists c', setuid true alloc rlim u c = (0, c') /\
    let c'' := id_run cs c' in
    uid c'' = u /\ euid c'' = u /\ suid c'' = u /\ fsuid c'' = u /\
    (forall cap, 0 <= cap -> cap_raised (cap_permitted c'') cap = false /\ capable c'' cap = false).
Proof.
  destruct (setuid_drops alloc rlim u c n Hc Hu Ha Hn) as (c' & Hr & Hp & He & E1 & E2 & E3 & E4).
  exists c'. split; [done|]. intros c''.
  assert (Hle : caps_le (cap_effective c') (cap_permitted c')) by (rewrite He; auto with caps).
  destruct (id_run_caps cs c' Hle) as [Hp2 He2]. rewrite Hp in Hp2.
  assert (Hv : forall v, uid_of c'' v -> v = u).
  { intros v Hv. apply id_run_uids in Hv; [|done|by rewrite Hp].
    unfold uid_of in Hv. rewrite E1, E2, E3, E4 in Hv. tauto. }
  split_and!; try (apply Hv; unfold uid_of; tauto).
  intros cap Hcap. assert (Hno : cap_raised (cap_permitted c'') cap = false).
  { eapply caps_le_lacks; [exact Hp2|done|]. apply Z.bits_0. }
  split; [done|]. by apply not_permitted_incapable.
Qed.

Definition ex_root : cred := mk_cred 0 0 0 0 0 0 0 0 0 0 (Z.ones 34) (Z.ones 34) (Z.ones 34).

Lemma ex_root_is_root : is_root ex_root.
Proof. repeat split. by left. Qed.

Lemma root_drop_is_permanent_witness :
  exists c', setuid true (fun _ => Some 1) 100 1000 ex_root = (0, c') /\
    uid (id_run [(ex_env, Setuid 0); (ex_env, Setresuid 0 0 0)] c') = 1000.
Proof.
  destruct (root_drop_is_permanent (fun _ => Some 1) 100 1000 1 ex_root
    [(ex_env, Setuid 0); (ex_env, Setresuid 0 0 0)] ex_root_is_root
    ltac:(done) ltac:(reflexivity) ltac:(lia)) as (c' & Hr & Hu & _).
  exists c'. split; [exact Hr|exact Hu].
Defined.

(** Root can step aside and come back: [setresuid(-1, u, -1)] leaves no
    effective capability, and [setresuid(-1, 0, -1)] after it restores the
    credentials exactly, whether or not memory for a [user_struct] is left. *)
Theorem root_steps_aside_and_returns (alloc : Z -> option Z) (rlim u : Z) (c : cred)
    (Hids : uid c = 0 /\ euid c = 0 /\ suid c = 0 /\ fsuid c = 0) (Hc : is_root c)
    (Hfull : cap_effective c = cap_permitted c) (Hu : u <> 0) (Hg : u <> NONE) :
  exists c', setresuid true alloc rlim NONE u NONE c = (0, c') /\
    cap_effective c' = 0 /\ cap_permitted c' = cap_permitted c /\ euid c' = u /\
    setresuid true alloc rlim NONE 0 NONE c' = (0, c).
Proof.
  destruct Hc as (_ & Hc & Hf & Hk), Hids as (E1 & E2 & E3 & E4).
  destruct c as [u1 g1 u2 g2 u3 g3 u4 g4 sb ci cp ce cb]. simpl in *. subst.
  exists (mk_cred 0 g1 0 g2 u g3 u g4 sb ci cp 0 cb).
  unfold setresuid, set_user, cap_task_fix_setuid, cap_emulate_setxuid, given. simpl.
  rewrite Hc. rewrite (proj2 (Z.eqb_neq u NONE) Hg). simpl.
  unfold issecure in *. simpl in *. rewrite Hf. simpl. rewrite (proj2 (Z.eqb_neq u 0) Hu). simpl.
  unfold capable, cap_raised. simpl. done.
Qed.

Lemma root_steps_aside_and_returns_witness :
  exists c', setresuid true (fun _ => None) 0 NONE 1000 NONE ex_root = (0, c') /\
    setresuid true (fun _ => None) 0 NONE 0 NONE c' = (0, ex_root).
Proof.
  destruct (root_steps_aside_and_returns (fun _ => None) 0 1000 ex_root
    ltac:(repeat split) ex_root_is_root ltac:(reflexivity) ltac:(done) ltac:(done))
    as (c' & H1 & _ & _ & _ & H2).
  exists c'. split; [exact H1|exact H2].
Defined.

(** What [capget] returns with version 3 of the interface can be given
    back: [capset] accepts it and leaves the credentials as they are. *)
Theorem capget_capset_round_trip (find : Z -> option cred) (file_caps : bool) (tgid : Z) (c : cred)
    (He : caps_le (cap_effective c) (cap_permitted c))
    (Hw : 0 <= cap_effective c < 2 ^ 64 /\ 0 <= cap_permitted c < 2 ^ 64 /\
          0 <= cap_inheritable c < 2 ^ 64) :
  let h := mk_header (Some _LINUX_CAPABILITY_VERSION_3) true (Some 0) in
  exists kdata, capget find tgid h true c = Good kdata /\
    capset true file_caps tgid h (fun _ => Some kdata) c = (0, c).
Proof.
  intros h. destruct Hw as (We & Wp & Wi). eexists. split; [reflexivity|].
  transitivity (finish c (cap_capset file_caps c c (of_words (word (cap_effective c) <$> seq 0 2))
    (of_words (word (cap_inheritable c) <$> seq 0 2)) (of_words (word (cap_permitted c) <$> seq 0 2)))).
  { reflexivity. }
  rewrite !of_words_word by done. unfold cap_capset.
  rewrite !(cap_issubset_le _ (cap_combine _ _)) by apply caps_le_combine_l.
  rewrite (cap_issubset_le _ (cap_permitted c)) by apply caps_le_refl.
  rewrite (cap_issubset_le _ (cap_permitted c)) by done. simpl. rewrite andb_false_r. by destruct c.
Qed.

Lemma capget_capset_round_trip_witness :
  exists kdata, capget (fun _ => None) 7
      (mk_header (Some _LINUX_CAPABILITY_VERSION_3) true (Some 0)) true ex_root = Good kdata /\
    length kdata = 2%nat.
Proof.
  destruct (capget_capset_round_trip (fun _ => None) false 7 ex_root ltac:(apply caps_le_refl)
    ltac:(vm_compute; intuition congruence)) as (kdata & H & _).
  exists kdata. split; [exact H|]. vm_compute in H. injection H as <-. reflexivity.
Defined.
