(* ===== verification/Wp.v ===== *)
(** Total correctness of computations of the kernel monad.

    [runs m s Q]: from the state [s] the computation [m] ends without a fault,
    and its result and final state satisfy [Q].  The rules compose these
    statements along [bind] and loops; [wp] applies them. *)
From S2P Require Import Prelude.

Definition runs {S A} (m : M S A) (s : S) (Q : A -> S -> Prop) : Prop :=
  exists a s', m s = Ok (a, s') /\ Q a s'.

(** A C loop: [body] takes the local variables and either goes on with new
    ones or leaves the loop with a result. *)
Fixpoint loop {S L R} (fuel : nat) (body : L -> M S (L + R)) (l : L) : M S R :=
  match fuel with
  | O => throw Hang
  | Datatypes.S fuel' =>
      let! x := body l in
      match x with inl l' => loop fuel' body l' | inr r => ret r end
  end.

Section Rules.
  Context {S : Type}.

Lemma runs_ret {A} (a : A) s (Q : A -> S -> Prop) : Q a s -> runs (ret a) s Q.
Proof. intros. by exists a, s. Qed.

Lemma runs_gets {A} (f : S -> A) s (Q : A -> S -> Prop) : Q (f s) s -> runs (gets f) s Q.
Proof. intros. by exists (f s), s. Qed.

Lemma runs_modify f s (Q : unit -> S -> Prop) : Q tt (f s) -> runs (modify f) s Q.
Proof. intros. by exists tt, (f s). Qed.

Lemma runs_deref {A} (f : S -> option A) s a (Q : A -> S -> Prop) :
  f s = Some a -> Q a s -> runs (deref f) s Q.
Proof. intros H HQ. exists a, s. by rewrite (deref_ok _ _ _ H). Qed.

Lemma runs_bind {A B} (m : M S A) (k : A -> M S B) s Q :
  runs m s (fun a s' => runs (k a) s' Q) -> runs (let! a := m in k a) s Q.
Proof.
  intros (a & s' & H & b & s'' & H' & HQ). exists b, s''. by rewrite (bind_ok _ _ _ _ _ H).
Qed.

Lemma runs_mono {A} (m : M S A) s (Q Q' : A -> S -> Prop) :
  runs m s Q -> (forall a s', Q a s' -> Q' a s') -> runs m s Q'.
Proof. intros (a & s' & H & HQ) HQQ. exists a, s'. auto. Qed.

Lemma runs_ok {A} (m : M S A) s a s' (Q : A -> S -> Prop) :
  m s = Ok (a, s') -> Q a s' -> runs m s Q.
Proof. by exists a, s'. Qed.

(** The loop rule: an invariant [I] and a measure that every round lowers. *)
Lemma runs_loop {L R} (body : L -> M S (L + R)) (I : L -> S -> Prop) (meas : L -> S -> nat) Q fuel l s :
  (forall l s, I l s ->
    runs (body l) s (fun x s' =>
      match x with
      | inl l' => I l' s' /\ (meas l' s' < meas l s)%nat
      | inr r => Q r s'
      end)) ->
  I l s -> (meas l s < fuel)%nat -> runs (loop fuel body l) s Q.
Proof.
  intros Hb. revert l s. induction fuel as [|fuel IH]; intros l s HI Hm; [lia|]. simpl.
  apply runs_bind. destruct (Hb l s HI) as (x & s' & E & Hx). apply (runs_ok _ _ _ _ _ E).
  destruct x as [l'|r]; [|by apply runs_ret]. destruct Hx as [HI' Hlt]. apply IH; [done|lia].
Qed.
End Rules.

(** One rule at a time, along the structure of the computation. *)
Ltac wp1 :=
  lazymatch goal with
  | |- runs (bind _ _) _ _ => apply runs_bind
  | |- runs (ret _) _ _ => apply runs_ret
  | |- runs (gets _) _ _ => apply runs_gets
  | |- runs (modify _) _ _ => apply runs_modify
  end.
Ltac wp := repeat (wp1; cbv beta).

(** ** Arrays *)

(** Elements of an array by index; [None] is an access out of bounds. *)
Definition zget {A} (l : list A) (i : Z) : option A :=
  if i <? 0 then None else l !! Z.to_nat i.
Definition zset {A} (l : list A) (i : Z) (v : A) : option (list A) :=
  if (i <? 0) || (Z.of_nat (length l) <=? i) then None else Some (<[Z.to_nat i := v]> l).

Lemma zget_lt {A} (l : list A) i : 0 <= i < Z.of_nat (length l) -> zget l i = l !! Z.to_nat i.
Proof. intros H. unfold zget. by rewrite (proj2 (Z.ltb_ge i 0)) by lia. Qed.

Lemma zget_Some {A} (l : list A) i :
  0 <= i < Z.of_nat (length l) -> exists v, zget l i = Some v /\ l !! Z.to_nat i = Some v.
Proof.
  intros H. rewrite zget_lt by done. destruct (lookup_lt_is_Some_2 l (Z.to_nat i)) as [v E]; [lia|].
  by exists v.
Qed.

Lemma zset_lt {A} (l : list A) i v :
  0 <= i < Z.of_nat (length l) -> zset l i v = Some (<[Z.to_nat i := v]> l).
Proof.
  intros H. unfold zset. by rewrite (proj2 (Z.ltb_ge i 0)), (proj2 (Z.leb_gt _ _)) by lia.
Qed.

Lemma insert_delete_perm {A} (l : list A) i x :
  (i < length l)%nat -> <[i := x]> l ≡ₚ x :: delete i l.
Proof.
  intros Hi. assert (E : delete i (<[i := x]> l) = delete i l).
  { revert i Hi. induction l as [|y l IH]; intros [|i] Hi; simpl in *; try lia; [done|].
    change (y :: delete i (<[i := x]> l) = y :: delete i l). by rewrite IH by lia. }
  rewrite <-E. apply delete_Permutation. by rewrite list_lookup_insert_eq.
Qed.

(** Moving the hole of an insertion keeps the elements. *)
Lemma insert_move_perm {A} (l : list A) i j x y :
  i <> j -> (i < length l)%nat -> l !! j = Some y ->
  <[j := x]> (<[i := y]> l) ≡ₚ <[i := x]> l.
Proof.
  intros Hij Hi Hj. pose proof (lookup_lt_Some _ _ _ Hj) as Hjl.
  rewrite insert_delete_perm by (by rewrite length_insert).
  rewrite (insert_delete_perm l i x) by done. f_equiv.
  apply (Permutation_cons_inv (a := y)). rewrite <-(insert_delete_perm l i) by done.
  symmetry. apply delete_Permutation. by rewrite list_lookup_insert_ne.
Qed.
