(* ===== verification/Groups.v ===== *)
(** Supplementary groups: [kernel/groups.c].

    A [group_info] keeps the group ids in blocks, either the one inside the
    structure or pages of 1024 ids.  The state holds the structures by their
    addresses, the free memory, the user's array, and of the credentials of
    the running task what the system calls use.  Memory the allocator returns
    is not initialised: the free lists hold what is in it.  User memory is
    taken as an array of [gid_t]; a copy fails when a word of it faults.  The
    numbers stay far below the limits of [int]: [setgroups] rejects more than
    65536 groups. *)
From stdpp Require Import sorting.
From S2P Require Import Prelude Wp.

(** ** Data *)

Definition NGROUPS_SMALL : Z := 32.
Definition NGROUPS_PER_BLOCK : Z := 1024.
Definition NGROUPS_MAX : Z := 65536.

(** What an element of [blocks] points to. *)
Inductive block : Type := In_struct | Page (words : list Z).

Record group_info : Type := mk_gi {
  usage : Z; ngroups : Z; nblocks : Z; small_block : list Z; blocks : list block;
}.

Definition set_usage (v : Z) (gi : group_info) : group_info :=
  mk_gi v (ngroups gi) (nblocks gi) (small_block gi) (blocks gi).
Definition set_small (v : list Z) (gi : group_info) : group_info :=
  mk_gi (usage gi) (ngroups gi) (nblocks gi) v (blocks gi).
Definition set_blocks (v : list block) (gi : group_info) : group_info :=
  mk_gi (usage gi) (ngroups gi) (nblocks gi) (small_block gi) v.

Definition block_words (gi : group_info) (b : block) : list Z :=
  match b with In_struct => small_block gi | Page words => words end.

(** Replace the words of block [i]. *)
Definition put_block (gi : group_info) (i : Z) (words : list Z) : option group_info :=
  match zget (blocks gi) i with
  | None => None
  | Some In_struct => Some (set_small words gi)
  | Some (Page _) => bs ← zset (blocks gi) i (Page words); Some (set_blocks bs gi)
  end.

(** [GROUP_AT] read and assigned to. *)
Definition GROUP_AT (gi : group_info) (i : Z) : option Z :=
  b ← zget (blocks gi) (i / NGROUPS_PER_BLOCK); zget (block_words gi b) (i mod NGROUPS_PER_BLOCK).
Definition set_GROUP_AT (gi : group_info) (i v : Z) : option group_info :=
  b ← zget (blocks gi) (i / NGROUPS_PER_BLOCK);
  ws ← zset (block_words gi b) (i mod NGROUPS_PER_BLOCK) v;
  put_block gi (i / NGROUPS_PER_BLOCK) ws.

(** ** Sorting and searching *)

Definition group_at (i : Z) : M group_info Z := deref (fun gi => GROUP_AT gi i).
Definition group_assign (i v : Z) : M group_info unit := fun gi =>
  match set_GROUP_AT gi i v with Some gi' => Ok (tt, gi') | None => Err Oops end.

(** [for (stride = 1; stride < gidsetsize; stride = 3 * stride + 1) ;] *)
Definition grow_stride (gidsetsize : Z) : M group_info Z :=
  loop (S (Z.to_nat gidsetsize))
    (fun stride => if stride <? gidsetsize then ret (inl (3 * stride + 1)) else ret (inr stride)) 1.

(** The inner [while]: the element [tmp] moves down by strides. *)
Definition sift_down (stride tmp left_ right_ : Z) : M group_info Z :=
  loop (S (Z.to_nat (left_ + stride)))
    (fun '(left_, right_) =>
       if 0 <=? left_ then
         let! l := group_at left_ in
         if tmp <? l then group_assign right_ l ;;; ret (inl (left_ - stride, left_))
         else ret (inr right_)
       else ret (inr right_)) (left_, right_).

(** The [for] loop over [base] for one stride. *)
Definition stride_pass (gidsetsize stride : Z) : M group_info unit :=
  let max := gidsetsize - stride in
  loop (S (Z.to_nat max))
    (fun base =>
       if base <? max then
         let left_ := base in
         let right_ := left_ + stride in
         let! tmp := group_at right_ in
         let! right_ := sift_down stride tmp left_ right_ in
         group_assign right_ tmp ;;;
         ret (inl (base + 1))
       else ret (inr tt)) 0.

Definition groups_sort : M group_info unit :=
  let! gidsetsize := gets ngroups in
  let! stride := grow_stride gidsetsize in
  loop (S (Z.to_nat stride))
    (fun stride =>
       if stride =? 0 then ret (inr tt)
       else stride_pass gidsetsize stride ;;; ret (inl (stride / 3))) (stride / 3).

(** The null check of [groups_search] is the caller's: a [group_info] here. *)
Definition groups_search (grp : Z) : M group_info Z :=
  let! right_ := gets ngroups in
  loop (S (Z.to_nat right_))
    (fun '(left_, right_) =>
       if left_ <? right_ then
         let mid := (left_ + right_) / 2 in
         let! g := group_at mid in
         if g <? grp then ret (inl (mid + 1, right_))
         else if grp <? g then ret (inl (left_, mid))
         else ret (inr 1)
       else ret (inr 0)) (0, right_).

(** ** Well-formed structures *)

Definition gids (gi : group_info) : list Z :=
  take (Z.to_nat (ngroups gi)) (concat (block_words gi <$> blocks gi)).

(** Whether [blocks[0] == small_block]. *)
Definition is_small (bs : list block) : bool :=
  match bs with In_struct :: _ => true | _ => false end.

(** What sorting and filling leave alone. *)
Definition header (gi : group_info) : Z * Z * Z * bool :=
  (usage gi, ngroups gi, nblocks gi, is_small (blocks gi)).

Definition is_page (b : block) : Prop :=
  match b with In_struct => False | Page ws => length ws = Z.to_nat NGROUPS_PER_BLOCK end.

Record wf (gi : group_info) : Prop := {
  wf_ngroups : 0 <= ngroups gi;
  wf_nblocks : nblocks gi = Z.of_nat (length (blocks gi));
  wf_small : length (small_block gi) = Z.to_nat NGROUPS_SMALL;
  wf_blocks : (blocks gi = [In_struct] /\ ngroups gi <= NGROUPS_SMALL) \/
              (Forall is_page (blocks gi) /\
               ngroups gi <= NGROUPS_PER_BLOCK * Z.of_nat (length (blocks gi)));
}.

(** *** Blocks of equal size as one array *)

Section Concat.
  Context {A : Type} (k : nat) (Hk : (0 < k)%nat).

Lemma concat_length_eq (ws : list (list A)) :
  Forall (fun w => length w = k) ws -> length (concat ws) = (k * length ws)%nat.
Proof.
  clear Hk. induction 1 as [|w ws Hw _ IH]; simpl; [lia|]. rewrite length_app, IH, Hw. lia.
Qed.

Lemma concat_lookup_eq (ws : list (list A)) n :
  Forall (fun w => length w = k) ws ->
  concat ws !! n = w ← ws !! (n / k)%nat; w !! (n mod k)%nat.
Proof.
  intros Hws. revert n. induction Hws as [|w ws Hw _ IH]; intros n; simpl; [done|].
  destruct (decide (n < k)%nat) as [Hn|Hn].
  - rewrite lookup_app_l by lia. by rewrite Nat.div_small, Nat.mod_small by done.
  - assert (E : n = (n - k + 1 * k)%nat) by lia.
    rewrite lookup_app_r by lia. rewrite IH, Hw. revert E. generalize (n - k)%nat. intros m ->.
    rewrite Nat.div_add, Nat.Div0.mod_add by lia. by rewrite Nat.add_1_r.
Qed.

Lemma concat_insert_eq (ws : list (list A)) n w v :
  Forall (fun w => length w = k) ws -> ws !! (n / k)%nat = Some w ->
  concat (<[(n / k)%nat := <[(n mod k)%nat := v]> w]> ws) = <[n := v]> (concat ws).
Proof.
  intros Hws Hw. apply list_eq. intros m.
  assert (Hws' : Forall (fun w => length w = k) (<[(n / k)%nat := <[(n mod k)%nat := v]> w]> ws)).
  { apply Forall_insert; [done|]. rewrite length_insert. exact (Forall_lookup_1 _ _ _ _ Hws Hw). }
  rewrite concat_lookup_eq by done.
  pose proof (Forall_lookup_1 _ _ _ _ Hws Hw) as Hlw. cbv beta in Hlw.
  pose proof (lookup_lt_Some _ _ _ Hw) as Hlt.
  pose proof (Nat.mod_upper_bound n k ltac:(lia)). pose proof (Nat.mod_upper_bound m k ltac:(lia)).
  pose proof (Nat.div_mod_eq n k). pose proof (Nat.div_mod_eq m k).
  destruct (decide (n = m)) as [<-|Hne].
  - rewrite list_lookup_insert_eq by done. simpl. rewrite list_lookup_insert_eq by lia.
    rewrite list_lookup_insert_eq; [done|]. rewrite concat_length_eq by done.
    pose proof (Nat.mul_le_mono_l (S (n / k)) (length ws) k ltac:(lia)) as Hle.
    rewrite Nat.mul_succ_r in Hle. lia.
  - rewrite (list_lookup_insert_ne (concat ws)), concat_lookup_eq by done.
    destruct (decide (n / k = m / k)%nat) as [E|E].
    + rewrite <-E. rewrite list_lookup_insert_eq, Hw by done. simpl.
      apply list_lookup_insert_ne. intros E'. apply Hne. congruence.
    + by rewrite list_lookup_insert_ne.
Qed.
End Concat.

(** *** Access to the ids *)

Lemma is_small_pages bs : Forall is_page bs -> is_small bs = false.
Proof. by intros [|[|]]. Qed.

Lemma is_page_insert bs i w w' :
  Forall is_page bs -> bs !! i = Some (Page w) -> length w' = length w ->
  Forall is_page (<[i := Page w']> bs).
Proof.
  intros Hp Hi Hl. apply Forall_insert; [done|]. simpl. rewrite Hl.
  exact (Forall_lookup_1 _ _ _ _ Hp Hi).
Qed.

Lemma pages_lookup gi bs j :
  Forall is_page bs ->
  concat (block_words gi <$> bs) !! j = b ← bs !! (j / 1024)%nat; block_words gi b !! (j mod 1024)%nat.
Proof.
  intros Hp. rewrite (concat_lookup_eq 1024).
  - rewrite list_lookup_fmap. by destruct (bs !! _).
  - lia.
  - apply Forall_fmap. eapply Forall_impl; [exact Hp|]. by intros [|ws].
Qed.

Lemma length_gids gi : wf gi -> length (gids gi) = Z.to_nat (ngroups gi).
Proof.
  intros [Hn Hb Hs [[E Hle]|[Hp Hle]]]; unfold gids; rewrite length_take.
  - rewrite E. simpl. rewrite app_nil_r, Hs. unfold NGROUPS_SMALL in *. lia.
  - rewrite (concat_length_eq (Z.to_nat NGROUPS_PER_BLOCK)), length_fmap;
      [unfold NGROUPS_PER_BLOCK in *; lia|].
    apply Forall_fmap. eapply Forall_impl; [exact Hp|]. by intros [|ws].
Qed.

Lemma div_mod_nat i :
  0 <= i -> Z.to_nat (i / NGROUPS_PER_BLOCK) = (Z.to_nat i / 1024)%nat /\
  Z.to_nat (i mod NGROUPS_PER_BLOCK) = (Z.to_nat i mod 1024)%nat.
Proof.
  intros. unfold NGROUPS_PER_BLOCK.
  rewrite Z2Nat.inj_div, Z2Nat.inj_mod by lia. done.
Qed.

Lemma GROUP_AT_gids gi i : wf gi -> 0 <= i < ngroups gi -> GROUP_AT gi i = gids gi !! Z.to_nat i.
Proof.
  intros [Hn Hb Hs Hbl] Hi. unfold GROUP_AT, gids. rewrite lookup_take_lt by lia.
  destruct (div_mod_nat i ltac:(lia)) as [Ed Em].
  assert (Hd : 0 <= i / NGROUPS_PER_BLOCK) by (apply Z.div_pos; unfold NGROUPS_PER_BLOCK; lia).
  assert (Hm : 0 <= i mod NGROUPS_PER_BLOCK) by (apply Z.mod_pos_bound; unfold NGROUPS_PER_BLOCK; lia).
  unfold zget. rewrite (proj2 (Z.ltb_ge _ _) Hd), (proj2 (Z.ltb_ge _ _) Hm), Ed, Em.
  destruct Hbl as [[E Hle]|[Hp Hle]].
  - unfold NGROUPS_SMALL in *. rewrite E, Nat.div_small, Nat.mod_small by lia.
    simpl. by rewrite app_nil_r.
  - by rewrite pages_lookup.
Qed.

Lemma set_GROUP_AT_gids gi i v :
  wf gi -> 0 <= i < ngroups gi ->
  exists gi', set_GROUP_AT gi i v = Some gi' /\ wf gi' /\ header gi' = header gi /\
    gids gi' = <[Z.to_nat i := v]> (gids gi).
Proof.
  intros [Hn Hb Hs Hbl] Hi. destruct (div_mod_nat i ltac:(lia)) as [Ed Em].
  assert (Hd : 0 <= i / NGROUPS_PER_BLOCK) by (apply Z.div_pos; unfold NGROUPS_PER_BLOCK; lia).
  assert (Hm : 0 <= i mod NGROUPS_PER_BLOCK < NGROUPS_PER_BLOCK)
    by (apply Z.mod_pos_bound; unfold NGROUPS_PER_BLOCK; lia).
  unfold set_GROUP_AT, put_block, gids. destruct Hbl as [[E Hle]|[Hp Hle]].
  - unfold NGROUPS_SMALL in *. rewrite E, Z.div_small, Z.mod_small by (unfold NGROUPS_PER_BLOCK; lia).
    simpl. rewrite zset_lt by (rewrite Hs; lia). simpl. eexists. split; [done|].
    split; [split; simpl; rewrite ?length_insert; auto|]. split; [done|].
    simpl. rewrite E. simpl. rewrite !app_nil_r. by rewrite take_insert_lt by lia.
  - assert (Hlt : i / NGROUPS_PER_BLOCK < Z.of_nat (length (blocks gi))).
    { apply Z.div_lt_upper_bound; unfold NGROUPS_PER_BLOCK in *; lia. }
    destruct (zget_Some (blocks gi) (i / NGROUPS_PER_BLOCK) ltac:(lia)) as (b & -> & Eb).
    pose proof (Forall_lookup_1 _ _ _ _ Hp Eb) as Hpb. destruct b as [|w]; [done|]. unfold is_page in Hpb. simpl.
    rewrite zset_lt by (rewrite Hpb; lia). simpl. rewrite zset_lt by lia. simpl. eexists. split; [done|].
    assert (Hp' := is_page_insert _ _ _ (<[Z.to_nat (i mod NGROUPS_PER_BLOCK) := v]> w) Hp Eb
      ltac:(apply length_insert)).
    split; [split; simpl; rewrite ?length_insert; auto|].
    split; [unfold header; simpl; by rewrite !is_small_pages|]. simpl. rewrite <-take_insert_lt by lia. f_equal.
    rewrite <-(concat_insert_eq 1024 ltac:(lia) _ _ w).
    + f_equal. rewrite Ed, Em, list_fmap_insert. simpl. f_equal.
    + apply Forall_fmap. eapply Forall_impl; [exact Hp|]. by intros [|ws].
    + rewrite list_lookup_fmap, <-Ed, Eb. done.
Qed.

Lemma gids_lookup gi i :
  wf gi -> 0 <= i < ngroups gi -> exists v, GROUP_AT gi i = Some v /\ gids gi !! Z.to_nat i = Some v.
Proof.
  intros Hwf Hi. rewrite GROUP_AT_gids by done.
  destruct (lookup_lt_is_Some_2 (gids gi) (Z.to_nat i)) as [v E]; [rewrite length_gids by done; lia|].
  by exists v.
Qed.

Lemma runs_group_at gi i (Q : Z -> group_info -> Prop) :
  wf gi -> 0 <= i < ngroups gi -> (forall v, gids gi !! Z.to_nat i = Some v -> Q v gi) ->
  runs (group_at i) gi Q.
Proof.
  intros Hwf Hi HQ. destruct (gids_lookup gi i Hwf Hi) as (v & E & Ev).
  by apply (runs_deref _ _ v); [|apply HQ].
Qed.

Lemma runs_group_assign gi i v (Q : unit -> group_info -> Prop) :
  wf gi -> 0 <= i < ngroups gi ->
  (forall gi', wf gi' -> header gi' = header gi -> gids gi' = <[Z.to_nat i := v]> (gids gi) -> Q tt gi') ->
  runs (group_assign i v) gi Q.
Proof.
  intros Hwf Hi HQ. destruct (set_GROUP_AT_gids gi i v Hwf Hi) as (gi' & E & Hwf' & Hh & Hg).
  exists tt, gi'. unfold group_assign. rewrite E. auto.
Qed.

(** *** The Shell sort *)

(** The strides: 1, 4, 13, 40, ... and 0 at the end. *)
Inductive shell : Z -> Prop :=
  | shell_0 : shell 0
  | shell_S s : shell s -> shell (3 * s + 1).

Lemma shell_nonneg s : shell s -> 0 <= s.
Proof. induction 1; lia. Qed.

Lemma shell_div s : shell s -> shell (s / 3) /\ (s / 3 = 0 -> s <= 1).
Proof.
  intros [|s' Hs]; [split; [constructor|done]|].
  replace ((3 * s' + 1) / 3) with s' by (apply Z.div_unique with 1; lia).
  split; [done|lia].
Qed.

Lemma header_ngroups gi gi' : header gi' = header gi -> ngroups gi' = ngroups gi.
Proof. unfold header. congruence. Qed.

Lemma runs_grow_stride gi n :
  0 <= n -> runs (grow_stride n) gi (fun s gi' => gi' = gi /\ shell s /\ n <= s /\ 1 <= s).
Proof.
  intros Hn. unfold grow_stride.
  apply runs_loop with (I := fun s gi' => gi' = gi /\ shell s /\ 1 <= s)
    (meas := fun s _ => Z.to_nat (n - s)).
  - intros s gi' (-> & Hs & H1). destruct (Z.ltb_spec s n); wp; [|done].
    split_and!; try done; [by constructor|lia|lia].
  - split_and!; [done| |done]. apply (shell_S 0), shell_0.
  - lia.
Qed.

(** Ordered up to position [m], the hole [r] apart; what follows the hole is
    at least [tmp]. *)
Definition ordered_but (r m : nat) (tmp : Z) (a : list Z) : Prop :=
  (forall i j x y, (i < j <= m)%nat -> i <> r -> j <> r -> a !! i = Some x -> a !! j = Some y -> x <= y) /\
  (forall j y, (r < j <= m)%nat -> a !! j = Some y -> tmp <= y).

Definition ordered (m : nat) (a : list Z) : Prop :=
  forall i j x y, (i < j < m)%nat -> a !! i = Some x -> a !! j = Some y -> x <= y.

Lemma ordered_hole m tmp a : ordered m a -> ordered_but m m tmp a.
Proof. intros H. split; [|lia]. intros i j x y Hij _ Hj. apply H. lia. Qed.

Lemma ordered_move r m tmp l a :
  ordered_but (S r) m tmp a -> (S r <= m)%nat -> (S r < length a)%nat -> a !! r = Some l -> tmp < l ->
  ordered_but r m tmp (<[S r := l]> a).
Proof.
  intros [H1 H2] Hr Hlen Hl Htmp. split.
  - intros i j x y Hij Hi Hj. rewrite !list_lookup_insert. repeat case_decide; intros Hx Hy; simplify_eq.
    + lia.
    + apply (H1 r j x y); try done; lia.
    + apply (H1 i r x y); try done; lia.
    + eapply (H1 i j); eauto; lia.
  - intros j y Hj. rewrite list_lookup_insert. repeat case_decide; intros Hy; simplify_eq; [lia|].
    apply (H2 j); [lia|done].
Qed.

Lemma ordered_fill r m tmp a :
  ordered_but r m tmp a -> (r <= m)%nat -> (r < length a)%nat ->
  (forall l, r <> O -> a !! (r - 1)%nat = Some l -> l <= tmp) ->
  ordered (S m) (<[r := tmp]> a).
Proof.
  intros [H1 H2] Hr Hlen Hl i j x y Hij.
  destruct (decide (i = r)) as [->|Hi], (decide (j = r)) as [->|Hj]; try lia.
  - rewrite list_lookup_insert_eq, list_lookup_insert_ne by done. intros [= <-] Hy.
    apply (H2 j); [lia|done].
  - rewrite list_lookup_insert_eq, list_lookup_insert_ne by done. intros Hx [= <-].
    destruct (lookup_lt_is_Some_2 a (r - 1)) as [l El]; [lia|].
    transitivity l; [|apply Hl; [lia|done]].
    destruct (decide (i = (r - 1)%nat)) as [->|]; [naive_solver lia|].
    apply (H1 i (r - 1)%nat x l); try done; lia.
  - rewrite !list_lookup_insert_ne by done. apply H1; try done; lia.
Qed.

(** One insertion, for the element at [right_]. *)
Lemma runs_sift_down gi stride tmp base a0 :
  wf gi -> 0 < stride -> 0 <= base -> base + stride < ngroups gi -> gids gi = a0 ->
  a0 !! Z.to_nat (base + stride) = Some tmp ->
  (stride = 1 -> ordered (S (Z.to_nat base)) a0) ->
  runs (sift_down stride tmp base (base + stride)) gi (fun r gi' =>
    wf gi' /\ header gi' = header gi /\ 0 <= r < ngroups gi /\
    <[Z.to_nat r := tmp]> (gids gi') ≡ₚ a0 /\
    (stride = 1 -> ordered (S (S (Z.to_nat base))) (<[Z.to_nat r := tmp]> (gids gi')))).
Proof.
  intros Hwf Hs Hb Hlt Ha Htmp Hord. unfold sift_down.
  apply runs_loop with
    (I := fun '(l, r) gi' => wf gi' /\ header gi' = header gi /\ l = r - stride /\
       0 <= r <= base + stride /\ <[Z.to_nat r := tmp]> (gids gi') ≡ₚ a0 /\
       (stride = 1 -> ordered_but (Z.to_nat r) (S (Z.to_nat base)) tmp (gids gi')))
    (meas := fun '(l, r) _ => Z.to_nat r).
  - intros [l r] gi' (Hwf' & Hh & El & Hr & Hp & Ho). pose proof (header_ngroups _ _ Hh) as En.
    pose proof (length_gids _ Hwf') as Hlen.
    destruct (Z.leb_spec 0 l) as [Hl|Hl].
    + wp. apply runs_group_at; [done|lia|]. intros v Hv. destruct (Z.ltb_spec tmp v).
      * wp. apply runs_group_assign; [done|lia|]. intros gi'' Hwf'' Hh'' Hg''. wp.
        split; [|lia]. split_and!; [done|congruence|lia|lia|lia| |].
        -- rewrite Hg''. rewrite insert_move_perm; [done|lia|lia|done].
        -- intros H1. specialize (Ho H1). rewrite Hg''.
           replace (Z.to_nat r) with (S (Z.to_nat l)) in * by lia. apply ordered_move; try done; lia.
      * wp. split_and!; [done|done|lia|lia|done|]. intros H1. specialize (Ho H1).
        apply ordered_fill; [done|lia|lia|]. intros x Hx E.
        replace (Z.to_nat r - 1)%nat with (Z.to_nat l) in E by lia. naive_solver lia.
    + wp. split_and!; [done|done|lia|lia|done|]. intros H1. specialize (Ho H1).
      apply ordered_fill; [done|lia|lia|]. intros x Hx E. lia.
  - split_and!; [done|done|lia|lia|lia| |].
    + rewrite Ha. by rewrite list_insert_id.
    + intros H1. rewrite Ha. replace (Z.to_nat (base + stride)) with (S (Z.to_nat base)) by lia.
      by apply ordered_hole, Hord.
  - lia.
Qed.

Lemma runs_stride_pass gi n stride :
  wf gi -> 0 < stride -> ngroups gi = n ->
  runs (stride_pass n stride) gi (fun _ gi' =>
    wf gi' /\ header gi' = header gi /\ gids gi' ≡ₚ gids gi /\
    (stride = 1 -> ordered (Z.to_nat n) (gids gi'))).
Proof.
  intros Hwf Hs En. unfold stride_pass.
  apply runs_loop with
    (I := fun b gi' => wf gi' /\ header gi' = header gi /\ 0 <= b /\ gids gi' ≡ₚ gids gi /\
       (stride = 1 -> b <= Z.max 0 (n - 1) /\ ordered (S (Z.to_nat b)) (gids gi')))
    (meas := fun b _ => Z.to_nat (n - stride - b)).
  - intros b gi' (Hwf' & Hh & Hb & Hp & Ho). pose proof (header_ngroups _ _ Hh) as En'.
    destruct (Z.ltb_spec b (n - stride)) as [Hlt|Hge].
    + wp. apply runs_group_at; [done|lia|]. intros tmp Htmp. wp.
      eapply runs_mono; [apply (runs_sift_down gi' stride tmp b (gids gi')); try done; [lia|]; intros; apply Ho; done|].
      intros r gi2 (Hwf2 & Hh2 & Hr & Hp2 & Ho2). wp.
      apply runs_group_assign; [done|rewrite (header_ngroups _ _ Hh2); lia|]. intros gi3 Hwf3 Hh3 Hg3. wp.
      split; [|lia]. split_and!; [done|congruence|lia| |].
      * by rewrite Hg3, Hp2.
      * intros H1. rewrite Hg3. replace (Z.to_nat (b + 1)) with (S (Z.to_nat b)) by lia. split; [lia|auto].
    + wp. split_and!; [done|done|done|]. intros H1. destruct (Ho H1) as [Hbn Ho'].
      intros i j x y Hij. apply Ho'. lia.
  - split_and!; [done|done|done|done|]. intros _. split; [lia|]. intros i j x y Hij. simpl in Hij. lia.
  - lia.
Qed.

Lemma runs_groups_sort gi :
  wf gi ->
  runs groups_sort gi (fun _ gi' =>
    wf gi' /\ header gi' = header gi /\ gids gi' ≡ₚ gids gi /\ ordered (Z.to_nat (ngroups gi)) (gids gi')).
Proof.
  intros Hwf. unfold groups_sort. wp. eapply runs_mono; [apply runs_grow_stride, (wf_ngroups _ Hwf)|].
  intros s gi1 (-> & Hs & Hns & H1). cbv beta.
  apply runs_loop with
    (I := fun st gi' => wf gi' /\ header gi' = header gi /\ gids gi' ≡ₚ gids gi /\ shell st /\
       (st = 0 -> ordered (Z.to_nat (ngroups gi)) (gids gi')))
    (meas := fun st _ => Z.to_nat st).
  - intros st gi' (Hwf' & Hh & Hp & Hst & Ho). pose proof (shell_nonneg _ Hst).
    destruct (Z.eqb_spec st 0) as [E|Hne]; wp; [by split_and!; auto|].
    eapply runs_mono; [apply runs_stride_pass; [done|lia|by apply header_ngroups]|].
    intros _ gi2 (Hwf2 & Hh2 & Hp2 & Ho2). wp. destruct (shell_div st Hst) as [Hd Hd0]. split.
    + split_and!; [done|congruence|by rewrite Hp2|done|]. intros E0. apply Ho2. specialize (Hd0 E0). lia.
    + apply Z2Nat.inj_lt; [by apply Z.div_pos|done|]. apply Z.div_lt; lia.
  - destruct (shell_div s Hs) as [Hd Hd0]. split_and!; [done|done|done|done|]. intros E0.
    specialize (Hd0 E0). intros i j x y Hij. lia.
  - apply Nat.lt_succ_r, Z2Nat.inj_le; [apply Z.div_pos; lia|lia|]. apply Z.div_le_upper_bound; lia.
Qed.

Lemma runs_groups_search gi grp :
  wf gi -> ordered (Z.to_nat (ngroups gi)) (gids gi) ->
  runs (groups_search grp) gi (fun r gi' => gi' = gi /\ r = cbool (bool_decide (grp ∈ gids gi))).
Proof.
  intros Hwf Ho. unfold groups_search. wp. pose proof (length_gids _ Hwf) as Hlen.
  apply runs_loop with
    (I := fun '(l, r) gi' => gi' = gi /\ 0 <= l <= r /\ r <= ngroups gi /\
       (forall i x, (i < Z.to_nat l)%nat -> gids gi !! i = Some x -> x < grp) /\
       (forall i x, (Z.to_nat r <= i)%nat -> gids gi !! i = Some x -> grp < x))
    (meas := fun '(l, r) _ => Z.to_nat (r - l)).
  - intros [l r] gi' (-> & Hl & Hr & Hlo & Hhi). destruct (Z.ltb_spec l r) as [Hlt|Hge].
    + assert (Hm : l <= (l + r) / 2 < r).
      { split; [apply Z.div_le_lower_bound; lia|apply Z.div_lt_upper_bound; lia]. }
      wp. apply runs_group_at; [done|lia|]. intros v Hv.
      destruct (Z.ltb_spec v grp); [|destruct (Z.ltb_spec grp v)]; wp.
      * split; [|lia]. split_and!; try done; try lia. intros i x Hi Hx.
        destruct (decide (i = Z.to_nat ((l + r) / 2))) as [->|]; [naive_solver lia|].
        apply Z.le_lt_trans with v; [|done]. apply (Ho i (Z.to_nat ((l + r) / 2))); try done. lia.
      * split; [|lia]. split_and!; try done; try lia. intros i x Hi Hx.
        destruct (decide (i = Z.to_nat ((l + r) / 2))) as [->|]; [naive_solver lia|].
        apply Z.lt_le_trans with v; [done|]. apply (Ho (Z.to_nat ((l + r) / 2)) i); try done.
        apply lookup_lt_Some in Hx. lia.
      * split; [done|]. assert (v = grp) as -> by lia.
        rewrite bool_decide_true; [done|]. by eapply list_elem_of_lookup_2.
    + wp. split; [done|]. rewrite bool_decide_false; [done|].
      intros (i & Hi)%list_elem_of_lookup_1. destruct (decide (i < Z.to_nat l)%nat) as [Hil|Hil].
      * specialize (Hlo i grp Hil Hi). lia.
      * specialize (Hhi i grp ltac:(lia) Hi). lia.
  - pose proof (wf_ngroups _ Hwf). split_and!; try done; try lia.
    intros i x Hi Hx%lookup_lt_Some. lia.
  - lia.
Qed.

(** ** Memory and the system calls *)

Record gstate : Type := mk_gs {
  store : gmap Z group_info;
  free_objs : list (Z * list Z);
  free_pages : list (list Z);
  user_gids : gmap Z Z;
  cur_groups : Z; cur_fsgid : Z; cur_egid : Z;
  cap_setgid : bool;
  creds_left : bool;
}.

Definition with_store (v : gmap Z group_info) (s : gstate) : gstate :=
  mk_gs v (free_objs s) (free_pages s) (user_gids s) (cur_groups s) (cur_fsgid s) (cur_egid s)
    (cap_setgid s) (creds_left s).
Definition with_objs (v : list (Z * list Z)) (s : gstate) : gstate :=
  mk_gs (store s) v (free_pages s) (user_gids s) (cur_groups s) (cur_fsgid s) (cur_egid s)
    (cap_setgid s) (creds_left s).
Definition with_pages (v : list (list Z)) (s : gstate) : gstate :=
  mk_gs (store s) (free_objs s) v (user_gids s) (cur_groups s) (cur_fsgid s) (cur_egid s)
    (cap_setgid s) (creds_left s).
Definition with_user (v : gmap Z Z) (s : gstate) : gstate :=
  mk_gs (store s) (free_objs s) (free_pages s) v (cur_groups s) (cur_fsgid s) (cur_egid s)
    (cap_setgid s) (creds_left s).
Definition with_cur (v : Z) (s : gstate) : gstate :=
  mk_gs (store s) (free_objs s) (free_pages s) (user_gids s) v (cur_fsgid s) (cur_egid s)
    (cap_setgid s) (creds_left s).

Definition kmalloc : M gstate (option (Z * list Z)) := fun s =>
  match free_objs s with [] => Ok (None, s) | o :: os => Ok (Some o, with_objs os s) end.
Definition kfree (p : Z) : M gstate unit := fun s =>
  match store s !! p with
  | None => Err Oops
  | Some gi => Ok (tt, with_objs ((p, small_block gi) :: free_objs s) (with_store (delete p (store s)) s))
  end.
Definition __get_free_page : M gstate (option (list Z)) := fun s =>
  match free_pages s with [] => Ok (None, s) | p :: ps => Ok (Some p, with_pages ps s) end.
Definition free_page (b : block) : M gstate unit := fun s =>
  match b with In_struct => Err Oops | Page ws => Ok (tt, with_pages (ws :: free_pages s) s) end.

(** Run an operation on the structure at [p]. *)
Definition at_gi {A} (p : Z) (m : M group_info A) : M gstate A := fun s =>
  match store s !! p with
  | None => Err Oops
  | Some gi =>
      match m gi with
      | Ok (a, gi') => Ok (a, with_store (<[p := gi']> (store s)) s)
      | Err f => Err f
      end
  end.

(** The [for] loop over the blocks; [false] when a page could not be had. *)
Definition alloc_blocks (nblocks : Z) : M gstate (bool * list block) :=
  loop (S (Z.to_nat nblocks))
    (fun '(i, bs) =>
       if i <? nblocks then
         let! b := __get_free_page in
         match b with
         | None => ret (inr (false, bs))
         | Some ws => ret (inl (i + 1, bs ++ [Page ws]))
         end
       else ret (inr (true, bs))) (0, []).

(** [out_undo_partial_alloc] *)
Definition undo_blocks (bs : list block) : M gstate unit :=
  loop (S (length bs))
    (fun i =>
       let i := i - 1 in
       if 0 <=? i then
         let! b := deref (fun _ => zget bs i) in
         free_page b ;;; ret (inl i)
       else ret (inr tt)) (Z.of_nat (length bs)).

Definition groups_alloc (gidsetsize : Z) : M gstate (option Z) :=
  let nblocks := (gidsetsize + NGROUPS_PER_BLOCK - 1) / NGROUPS_PER_BLOCK in
  let nblocks := if nblocks =? 0 then 1 else nblocks in
  let! o := kmalloc in
  match o with
  | None => ret None
  | Some (p, small) =>
      let gi := mk_gi 1 gidsetsize nblocks small [] in
      modify (fun s => with_store (<[p := gi]> (store s)) s) ;;;
      if gidsetsize <=? NGROUPS_SMALL then
        at_gi p (modify (set_blocks [In_struct])) ;;; ret (Some p)
      else
        let! (ok, bs) := alloc_blocks nblocks in
        if (ok : bool) then at_gi p (modify (set_blocks bs)) ;;; ret (Some p)
        else undo_blocks bs ;;; kfree p ;;; ret None
  end.

Definition groups_free (p : Z) : M gstate unit :=
  let! gi := deref (fun s => store s !! p) in
  let! b0 := deref (fun _ => zget (blocks gi) 0) in
  match b0 with
  | In_struct => ret tt
  | Page _ =>
      loop (S (Z.to_nat (nblocks gi)))
        (fun i =>
           if i <? nblocks gi then
             let! b := deref (fun _ => zget (blocks gi) i) in
             free_page b ;;; ret (inl (i + 1))
           else ret (inr tt)) 0
  end ;;;
  kfree p.

Definition get_group_info (p : Z) : M gstate unit :=
  at_gi p (modify (fun gi => set_usage (usage gi + 1) gi)).
Definition put_group_info (p : Z) : M gstate unit :=
  at_gi p (modify (fun gi => set_usage (usage gi - 1) gi)) ;;;
  let! gi := deref (fun s => store s !! p) in
  if usage gi =? 0 then groups_free p else ret tt.

Definition EPERM : Z := 1.
Definition ENOMEM : Z := 12.
Definition EFAULT : Z := 14.
Definition EINVAL : Z := 22.

(** Copies of [gid_t]s, with whether all of them were transferred. *)
Fixpoint copy_words_out (to : Z) (ws : list Z) (um : gmap Z Z) : bool * gmap Z Z :=
  match ws with
  | [] => (true, um)
  | w :: ws' =>
      match um !! to with None => (false, um) | Some _ => copy_words_out (to + 1) ws' (<[to := w]> um) end
  end.
Fixpoint copy_words_in (from : Z) (n : nat) (um : gmap Z Z) : option (list Z) :=
  match n with
  | O => Some []
  | S n' => w ← um !! from; ws ← copy_words_in (from + 1) n' um; Some (w :: ws)
  end.

(** The first [n] words of block [i]; more than it has is a bad access. *)
Definition block_prefix (gi : group_info) (i : Z) (n : nat) : option (list Z) :=
  b ← zget (blocks gi) i;
  let ws := block_words gi b in
  if (n <=? length ws)%nat then Some (take n ws) else None.

Definition groups_to_user (grouplist p : Z) : M gstate Z :=
  let! gi := deref (fun s => store s !! p) in
  loop (S (Z.to_nat (nblocks gi)))
    (fun '(i, count, grouplist) =>
       if i <? nblocks gi then
         let cp_count := Z.min NGROUPS_PER_BLOCK count in
         let! ws := deref (fun _ => block_prefix gi i (Z.to_nat cp_count)) in
         let! ok := gets (fun s => (copy_words_out grouplist ws (user_gids s)).1) in
         modify (fun s => with_user (copy_words_out grouplist ws (user_gids s)).2 s) ;;;
         if (ok : bool) then ret (inl (i + 1, count - cp_count, grouplist + NGROUPS_PER_BLOCK))
         else ret (inr (- EFAULT))
       else ret (inr 0)) (0, ngroups gi, grouplist).

(** Write [ws] over the first words of block [i]. *)
Definition block_fill (i : Z) (ws : list Z) : M group_info unit := fun gi =>
  match zget (blocks gi) i with
  | None => Err Oops
  | Some b =>
      let old := block_words gi b in
      if (length ws <=? length old)%nat then
        match put_block gi i (ws ++ drop (length ws) old) with
        | Some gi' => Ok (tt, gi')
        | None => Err Oops
        end
      else Err Oops
  end.

Definition groups_from_user (p grouplist : Z) : M gstate Z :=
  let! gi := deref (fun s => store s !! p) in
  loop (S (Z.to_nat (nblocks gi)))
    (fun '(i, count, grouplist) =>
       if i <? nblocks gi then
         let cp_count := Z.min NGROUPS_PER_BLOCK count in
         let! o := gets (fun s => copy_words_in grouplist (Z.to_nat cp_count) (user_gids s)) in
         match o with
         | None => ret (inr (- EFAULT))
         | Some ws =>
             at_gi p (block_fill i ws) ;;;
             ret (inl (i + 1, count - cp_count, grouplist + NGROUPS_PER_BLOCK))
         end
       else ret (inr 0)) (0, ngroups gi, grouplist).

(** [new] is the [group_info] of the new credentials; the result has the one
    they have afterwards.  [security_task_setgroups] of the default security
    module returns 0. *)
Definition set_groups (new group_info : Z) : M gstate (Z * Z) :=
  put_group_info new ;;;
  at_gi group_info groups_sort ;;;
  get_group_info group_info ;;;
  ret (0, group_info).

(** [prepare_creds] copies the credentials and takes a reference to their
    groups; [commit_creds] installs the new ones.  The old credentials, which
    others may still use, keep their reference. *)
Definition set_current_groups (group_info : Z) : M gstate Z :=
  let! ok := gets creds_left in
  if negb ok then ret (- ENOMEM)
  else
    let! new := gets cur_groups in
    get_group_info new ;;;
    let! (r, new) := set_groups new group_info in
    modify (with_cur new) ;;;
    ret r.

Definition getgroups (gidsetsize grouplist : Z) : M gstate Z :=
  let! p := gets cur_groups in
  if gidsetsize <? 0 then ret (- EINVAL)
  else
    let! i := deref (fun s => ngroups <$> store s !! p) in
    if negb (gidsetsize =? 0) then
      if gidsetsize <? i then ret (- EINVAL)
      else
        let! e := groups_to_user grouplist p in
        if ctrue e then ret (- EFAULT) else ret i
    else ret i.

Definition setgroups (gidsetsize grouplist : Z) : M gstate Z :=
  let! capable := gets cap_setgid in
  if negb capable then ret (- EPERM)
  else if NGROUPS_MAX <? u32 gidsetsize then ret (- EINVAL)
  else
    let! o := groups_alloc gidsetsize in
    match o with
    | None => ret (- ENOMEM)
    | Some p =>
        let! retval := groups_from_user p grouplist in
        if ctrue retval then put_group_info p ;;; ret retval
        else
          let! retval := set_current_groups p in
          put_group_info p ;;;
          ret retval
    end.

Definition in_group_p (grp : Z) : M gstate Z :=
  let! fsgid := gets cur_fsgid in
  if negb (grp =? fsgid) then
    let! p := gets cur_groups in at_gi p (groups_search grp)
  else ret 1.

Definition in_egroup_p (grp : Z) : M gstate Z :=
  let! egid := gets cur_egid in
  if negb (grp =? egid) then
    let! p := gets cur_groups in at_gi p (groups_search grp)
  else ret 1.

(** ** Filling and reading blocks *)

(** Index [j] of the ids is in block [i]. *)
Definition in_block (i j : nat) : Prop := (1024 * i <= j < 1024 * i + 1024)%nat.

Lemma block_fill_ok gi i ws :
  wf gi -> 0 <= i < nblocks gi ->
  Z.of_nat (length ws) = Z.min NGROUPS_PER_BLOCK (Z.max 0 (ngroups gi - NGROUPS_PER_BLOCK * i)) ->
  exists gi', block_fill i ws gi = Ok (tt, gi') /\ wf gi' /\ header gi' = header gi /\
    (forall j, (j < Z.to_nat (ngroups gi))%nat ->
      gids gi' !! j = if decide (in_block (Z.to_nat i) j) then ws !! (j - 1024 * Z.to_nat i)%nat
                      else gids gi !! j).
Proof.
  intros Hwf Hi Hlen. destruct Hwf as [Hn Hb Hs Hbl]. unfold block_fill, put_block.
  destruct (zget_Some (blocks gi) i ltac:(lia)) as (b & Eb & Eb').
  rewrite Eb. unfold NGROUPS_PER_BLOCK, NGROUPS_SMALL in *. destruct Hbl as [[E Hle]|[Hp Hle]].
  - assert (i = 0) as -> by (rewrite E in *; simpl in *; lia). rewrite E in Eb'. injection Eb' as <-. cbn [block_words].
    rewrite (proj2 (Nat.leb_le _ _)) by lia. eexists. split; [done|].
    split; [split; simpl; auto; rewrite length_app, length_drop; unfold NGROUPS_SMALL; lia|]. split; [done|].
    intros j Hj. rewrite decide_True by (unfold in_block; lia). unfold gids. simpl.
    rewrite E. simpl. rewrite app_nil_r, lookup_take_lt, lookup_app_l, Nat.sub_0_r by lia. done.
  - pose proof (Forall_lookup_1 _ _ _ _ Hp Eb') as Hpb. destruct b as [|w]; [done|]. unfold is_page, NGROUPS_PER_BLOCK in Hpb. simpl.
    rewrite (proj2 (Nat.leb_le _ _)) by lia. rewrite zset_lt by lia. simpl. eexists. split; [done|].
    assert (Hl' : length (ws ++ drop (length ws) w) = length w) by (rewrite length_app, length_drop; lia).
    pose proof (is_page_insert _ _ _ _ Hp Eb' Hl') as Hp'.
    split; [split; simpl; rewrite ?length_insert; auto|].
    split; [unfold header; simpl; by rewrite !is_small_pages|].
    intros j Hj. unfold gids. cbn [blocks ngroups set_blocks]. rewrite !lookup_take_lt by done.
    rewrite !pages_lookup by done.
    pose proof (Nat.div_mod_eq j 1024). pose proof (Nat.mod_upper_bound j 1024 ltac:(lia)).
    unfold in_block. destruct (Nat.eq_dec (Z.to_nat i) (j / 1024)) as [Eq|Hne].
    + rewrite decide_True by lia. rewrite <-Eq, list_lookup_insert_eq by lia.
      cbn [mbind option_bind block_words].
      rewrite lookup_app_l by lia. f_equal. lia.
    + rewrite decide_False by lia. by rewrite list_lookup_insert_ne.
Qed.

Lemma block_prefix_ok gi i :
  wf gi -> 0 <= i < nblocks gi ->
  let n := Z.min NGROUPS_PER_BLOCK (Z.max 0 (ngroups gi - NGROUPS_PER_BLOCK * i)) in
  exists ws, block_prefix gi i (Z.to_nat n) = Some ws /\ length ws = Z.to_nat n /\
    (forall j, (j < Z.to_nat n)%nat -> ws !! j = gids gi !! (1024 * Z.to_nat i + j)%nat).
Proof.
  intros Hwf Hi n. destruct Hwf as [Hn Hb Hs Hbl]. unfold block_prefix.
  destruct (zget_Some (blocks gi) i ltac:(lia)) as (b & -> & Eb). cbn [mbind option_bind].
  unfold NGROUPS_PER_BLOCK, NGROUPS_SMALL in *. destruct Hbl as [[E Hle]|[Hp Hle]].
  - assert (i = 0) as -> by (rewrite E in *; simpl in *; lia). rewrite E in Eb. simplify_eq/=.
    rewrite (proj2 (Nat.leb_le _ _)) by lia. eexists. split; [done|]. rewrite length_take.
    split; [lia|]. intros j Hj. unfold gids. rewrite E. simpl.
    by rewrite app_nil_r, !lookup_take_lt by lia.
  - pose proof (Forall_lookup_1 _ _ _ _ Hp Eb) as Hpb. destruct b as [|w]; [done|]. unfold is_page, NGROUPS_PER_BLOCK in Hpb. cbn [block_words].
    rewrite (proj2 (Nat.leb_le _ _)) by lia. eexists. split; [done|]. rewrite length_take.
    split; [lia|]. intros j Hj. unfold gids. rewrite !lookup_take_lt by lia.
    rewrite pages_lookup by done.
    rewrite (Nat.mul_comm 1024), Nat.add_comm, Nat.div_add, Nat.Div0.mod_add by lia.
    rewrite Nat.div_small, Nat.mod_small, Nat.add_0_l, Eb by lia. done.
Qed.

(** ** Allocation *)

Definition objs_ok (s : gstate) : Prop :=
  NoDup (free_objs s).*1 /\
  forall p sb, (p, sb) ∈ free_objs s -> store s !! p = None /\ length sb = Z.to_nat NGROUPS_SMALL.
Definition pages_ok (s : gstate) : Prop :=
  Forall (fun ws => length ws = Z.to_nat NGROUPS_PER_BLOCK) (free_pages s).

(** The pages a list of [n] groups needs. *)
Definition pages_for (n : Z) : Z :=
  if n <=? NGROUPS_SMALL then 0 else (n + NGROUPS_PER_BLOCK - 1) / NGROUPS_PER_BLOCK.

Lemma pages_for_pos n : NGROUPS_SMALL < n ->
  1 <= pages_for n /\ n <= NGROUPS_PER_BLOCK * pages_for n.
Proof.
  unfold pages_for, NGROUPS_SMALL, NGROUPS_PER_BLOCK. intros Hn. rewrite (proj2 (Z.leb_gt _ _)) by done.
  pose proof (Z.div_mod (n + 1024 - 1) 1024 ltac:(lia)).
  pose proof (Z.mod_pos_bound (n + 1024 - 1) 1024 ltac:(lia)). lia.
Qed.

(** The state with [k] of its free pages taken. *)
Definition take_pages (k : nat) (s : gstate) : gstate := with_pages (drop k (free_pages s)) s.

Lemma take_pages_0 s : take_pages 0 s = s.
Proof. by destruct s. Qed.

Lemma get_free_page_take i s :
  __get_free_page (take_pages i s) =
  match free_pages s !! i with
  | None => Ok (None, take_pages i s)
  | Some w => Ok (Some w, take_pages (S i) s)
  end.
Proof.
  unfold __get_free_page, take_pages. cbn [free_pages with_pages].
  destruct (free_pages s !! i) as [w|] eqn:E.
  - by rewrite (drop_S _ _ _ E).
  - by rewrite drop_ge by (by apply lookup_ge_None).
Qed.

Lemma runs_alloc_blocks k s :
  0 <= k ->
  runs (alloc_blocks k) s (fun '(ok, bs) s' =>
    let m := Nat.min (Z.to_nat k) (length (free_pages s)) in
    bs = Page <$> take m (free_pages s) /\ s' = take_pages m s /\
    ok = (Z.to_nat k <=? length (free_pages s))%nat).
Proof.
  intros Hk. unfold alloc_blocks.
  apply runs_loop with
    (I := fun '(i, bs) s' => 0 <= i <= k /\ (Z.to_nat i <= length (free_pages s))%nat /\
       bs = Page <$> take (Z.to_nat i) (free_pages s) /\ s' = take_pages (Z.to_nat i) s)
    (meas := fun '(i, _) _ => Z.to_nat (k - i)).
  - intros [i bs] s' (Hi & Hil & -> & ->). destruct (Z.ltb_spec i k).
    + apply runs_bind. pose proof (get_free_page_take (Z.to_nat i) s) as E.
      destruct (free_pages s !! Z.to_nat i) as [w|] eqn:El; apply (runs_ok _ _ _ _ _ E); wp.
      * pose proof (lookup_lt_Some _ _ _ El). split; [|lia].
        replace (Z.to_nat (i + 1)) with (S (Z.to_nat i)) by lia. split_and!; [lia|lia|lia| |done].
        rewrite (take_S_r _ _ w) by done. by rewrite fmap_app.
      * apply lookup_ge_None in El. replace (Nat.min _ _) with (Z.to_nat i) by lia.
        split_and!; [done|done|]. symmetry. apply Nat.leb_gt. lia.
    + wp. rewrite Nat.min_l by lia. replace k with i by lia. split_and!; [done|done|].
      symmetry. by apply Nat.leb_le.
  - rewrite take_pages_0. split_and!; try done; lia.
  - lia.
Qed.

Lemma runs_undo_blocks m s :
  (m <= length (free_pages s))%nat ->
  runs (undo_blocks (Page <$> take m (free_pages s))) (take_pages m s) (fun _ s' => s' = s).
Proof.
  intros Hm. unfold undo_blocks.
  apply runs_loop with
    (I := fun i s' => 0 <= i <= Z.of_nat m /\ s' = take_pages (Z.to_nat i) s)
    (meas := fun i _ => Z.to_nat i).
  - intros i s' [Hi ->]. destruct (Z.leb_spec 0 (i - 1)).
    + destruct (lookup_lt_is_Some_2 (free_pages s) (Z.to_nat (i - 1))) as [w Hw]; [lia|]. wp.
      apply (runs_deref _ _ (Page w)).
      { unfold zget. rewrite (proj2 (Z.ltb_ge _ _)) by lia. rewrite list_lookup_fmap, lookup_take_lt by lia.
        by rewrite Hw. }
      wp. eapply runs_ok; [reflexivity|]. wp. split; [|lia]. split; [lia|].
      unfold take_pages, with_pages. cbn [free_pages store free_objs user_gids cur_groups cur_fsgid cur_egid cap_setgid creds_left].
      f_equal. rewrite (drop_S _ _ _ Hw). do 2 f_equal. lia.
    + wp. replace (Z.to_nat i) with O by lia. apply take_pages_0.
  - rewrite length_fmap, length_take. split; [lia|]. f_equal. lia.
  - rewrite length_fmap, length_take. lia.
Qed.

(** The structure at [p] replaced. *)
Definition put_gi (p : Z) (gi : group_info) (s : gstate) : gstate :=
  with_store (<[p := gi]> (store s)) s.

Lemma put_gi_put p gi gi' s : put_gi p gi' (put_gi p gi s) = put_gi p gi' s.
Proof. unfold put_gi, with_store. simpl. by rewrite insert_insert_eq. Qed.

Lemma put_gi_lookup p gi s : store (put_gi p gi s) !! p = Some gi.
Proof. apply lookup_insert_eq. Qed.

Lemma runs_at_gi {A} p (m : M group_info A) s gi Q :
  store s !! p = Some gi -> runs m gi (fun a gi' => Q a (put_gi p gi' s)) -> runs (at_gi p m) s Q.
Proof.
  intros Hp (a & gi' & E & HQ). exists a, (put_gi p gi' s). unfold at_gi. rewrite Hp, E. done.
Qed.

Definition allocated (n p : Z) (gi : group_info) (s s' : gstate) : Prop :=
  exists sb os, free_objs s = (p, sb) :: os /\ pages_for n <= Z.of_nat (length (free_pages s)) /\
    s' = put_gi p gi (with_objs os (take_pages (Z.to_nat (pages_for n)) s)).

Definition no_memory (n : Z) (s : gstate) : bool :=
  match free_objs s with [] => true | _ => Z.of_nat (length (free_pages s)) <? pages_for n end.

Lemma kfree_undo p sb os n nb s :
  objs_ok s -> free_objs s = (p, sb) :: os ->
  kfree p (put_gi p (mk_gi 1 n nb sb []) (with_objs os s)) = Ok (tt, s).
Proof.
  intros [_ Ho] E. destruct (Ho p sb) as [Hp _]; [rewrite E; by left|].
  unfold kfree. rewrite put_gi_lookup. destruct s. simpl in *. subst.
  unfold put_gi, with_objs, with_store. simpl. by rewrite delete_insert_id.
Qed.

Lemma runs_groups_alloc n s :
  0 <= n -> objs_ok s -> pages_ok s ->
  runs (groups_alloc n) s (fun o s' =>
    match o with
    | None => s' = s /\ no_memory n s = true
    | Some p => no_memory n s = false /\ exists gi, allocated n p gi s s' /\ wf gi /\
        usage gi = 1 /\ ngroups gi = n /\ 0 < nblocks gi /\
        (if is_small (blocks gi) then 0 else nblocks gi) = pages_for n
    end).
Proof.
  intros Hn Hobj Hpg. unfold groups_alloc, no_memory. apply runs_bind.
  destruct (free_objs s) as [|[p sb] os] eqn:Eo.
  { eapply runs_ok; [unfold kmalloc; rewrite Eo; reflexivity|]. by apply runs_ret. }
  destruct (proj2 Hobj p sb) as [Hp Hsb]; [rewrite Eo; by left|].
  eapply runs_ok; [unfold kmalloc; rewrite Eo; reflexivity|]. cbv beta iota. wp.
  set (nb := if _ =? 0 then _ else _).
  change (with_store _ _) with (put_gi p (mk_gi 1 n nb sb []) (with_objs os s)).
  destruct (Z.leb_spec n NGROUPS_SMALL) as [Hle|Hgt].
  - assert (Epf : pages_for n = 0) by (unfold pages_for; by rewrite (proj2 (Z.leb_le _ _) Hle)).
    wp. eapply runs_at_gi; [apply put_gi_lookup|]. wp. rewrite Epf. split; [apply Z.ltb_ge; lia|].
    eexists. split.
    { exists sb, os. rewrite Eo, Epf, take_pages_0. split_and!; [done|lia|apply put_gi_put]. }
    assert (Enb : nb = 1).
    { subst nb. unfold NGROUPS_SMALL, NGROUPS_PER_BLOCK in *.
      destruct (Z.eqb_spec ((n + 1024 - 1) / 1024) 0) as [|Hne]; [done|].
      assert ((n + 1024 - 1) / 1024 < 2) by (apply Z.div_lt_upper_bound; lia).
      assert (0 <= (n + 1024 - 1) / 1024) by (apply Z.div_pos; lia). lia. }
    split_and!; try done; [split; simpl; auto|simpl; lia].
  - destruct (pages_for_pos n Hgt) as [Hpos Hcap].
    assert (Epf : pages_for n = nb).
    { subst nb. unfold pages_for in *. rewrite (proj2 (Z.leb_gt _ _) Hgt) in *.
      by rewrite (proj2 (Z.eqb_neq _ _)) by lia. }
    wp. eapply runs_mono; [apply runs_alloc_blocks; lia|]. intros [ok bs] s' (-> & -> & ->).
    cbn [free_pages put_gi with_store with_objs]. rewrite <-Epf.
    destruct (Nat.leb_spec (Z.to_nat (pages_for n)) (length (free_pages s))) as [Hen|Hfew].
    + wp. eapply runs_at_gi; [apply lookup_insert_eq|]. wp. split; [apply Z.ltb_ge; lia|].
      eexists. split.
      { exists sb, os. split_and!; [done|lia|]. rewrite Nat.min_l by lia.
        change (take_pages ?k (put_gi p ?g (with_objs os s))) with (put_gi p g (with_objs os (take_pages k s))).
        apply put_gi_put. }
      split_and!; [split|..]; simpl; try done.
      * rewrite length_fmap, length_take. lia.
      * right. rewrite length_fmap, length_take. rewrite Nat.min_l, Z2Nat.id by lia. split; [|done].
        apply Forall_fmap, Forall_take. eapply Forall_impl; [exact Hpg|done].
      * lia.
      * rewrite is_small_pages; [done|]. apply Forall_fmap, Forall_take. eapply Forall_impl; [exact Hpg|done].
    + rewrite Nat.min_r by lia. wp. eapply runs_mono.
      { apply (runs_undo_blocks (length (free_pages s)) (put_gi p (mk_gi 1 n (pages_for n) sb []) (with_objs os s))).
        simpl. lia. }
      intros _ s' ->. cbv beta. wp. eapply runs_ok; [by apply kfree_undo|]. wp. split; [done|].
      apply Z.ltb_lt. lia.
Qed.

Lemma runs_groups_free p gi s :
  store s !! p = Some gi -> wf gi -> blocks gi <> [] ->
  runs (groups_free p) s (fun _ s' => exists ps,
    s' = with_objs ((p, small_block gi) :: free_objs s)
           (with_pages (ps ++ free_pages s) (with_store (delete p (store s)) s)) /\
    Forall (fun ws => length ws = Z.to_nat NGROUPS_PER_BLOCK) ps /\
    Z.of_nat (length ps) = if is_small (blocks gi) then 0 else nblocks gi).
Proof.
  intros Hp Hwf Hne. unfold groups_free. wp. eapply runs_deref; [exact Hp|]. wp.
  destruct (blocks gi) as [|b0 bs] eqn:Eb; [done|]. apply (runs_deref _ _ b0); [done|]. wp.
  apply runs_mono with (Q := fun _ s' => exists ps, s' = with_pages (ps ++ free_pages s) s /\
    Forall (fun ws => length ws = Z.to_nat NGROUPS_PER_BLOCK) ps /\
    Z.of_nat (length ps) = if is_small (blocks gi) then 0 else nblocks gi).
  2: { intros _ s' (ps & -> & Hps & Hl). eapply runs_ok; [unfold kfree; simpl; rewrite Hp; reflexivity|].
       exists ps. rewrite Eb in Hl. split_and!; done. }
  destruct b0 as [|w].
  - wp. exists []. rewrite Eb. split_and!; [by destruct s|constructor|done].
  - assert (Hpg : Forall is_page (blocks gi)).
    { destruct Hwf as [_ _ _ [[E _]|[H _]]]; [rewrite E in Eb; done|done]. }
    rewrite (is_small_pages _ Hpg). rewrite <-Eb.
    apply runs_loop with
      (I := fun i s' => 0 <= i <= nblocks gi /\ exists ps, s' = with_pages (ps ++ free_pages s) s /\
         Forall (fun ws => length ws = Z.to_nat NGROUPS_PER_BLOCK) ps /\ Z.of_nat (length ps) = i)
      (meas := fun i _ => Z.to_nat (nblocks gi - i)).
    + intros i s' (Hi & ps & -> & Hps & Hl). destruct (Z.ltb_spec i (nblocks gi)).
      * destruct (zget_Some (blocks gi) i) as (b & Ez & El); [rewrite <-(wf_nblocks _ Hwf); lia|].
        pose proof (Forall_lookup_1 _ _ _ _ Hpg El) as Hb. destruct b as [|w']; [done|].
        wp. eapply runs_deref; [exact Ez|]. wp. eapply runs_ok; [reflexivity|]. wp. split; [|lia].
        split; [lia|]. exists (w' :: ps). split_and!; [done|by constructor|simpl; lia].
      * wp. exists ps. split_and!; [done|done|lia].
    + rewrite (wf_nblocks _ Hwf), Eb. split; [simpl; lia|]. exists []. split_and!; [by destruct s|constructor|done].
    + lia.
Qed.

(** *** References *)

Lemma set_usage_ok v gi :
  wf gi -> wf (set_usage v gi) /\ gids (set_usage v gi) = gids gi.
Proof. by intros [H1 H2 H3 H4]. Qed.

Lemma put_group_info_keep p gi s :
  store s !! p = Some gi -> usage gi <> 1 ->
  put_group_info p s = Ok (tt, put_gi p (set_usage (usage gi - 1) gi) s).
Proof.
  intros Hp Hu. unfold put_group_info, bind, at_gi. rewrite Hp. simpl.
  unfold deref. change (with_store _ _) with (put_gi p (set_usage (usage gi - 1) gi) s).
  rewrite put_gi_lookup. simpl. by rewrite (proj2 (Z.eqb_neq _ _)) by lia.
Qed.

Lemma runs_put_group_info_last p gi s Q :
  store s !! p = Some gi -> usage gi = 1 ->
  runs (groups_free p) (put_gi p (set_usage 0 gi) s) Q -> runs (put_group_info p) s Q.
Proof.
  intros Hp Hu HQ. unfold put_group_info. wp. apply (runs_at_gi _ _ _ _ _ Hp). wp.
  eapply runs_deref; [apply put_gi_lookup|]. cbn [usage set_usage]. rewrite Hu. exact HQ.
Qed.

Lemma get_group_info_ok p gi s :
  store s !! p = Some gi -> get_group_info p s = Ok (tt, put_gi p (set_usage (usage gi + 1) gi) s).
Proof. intros Hp. unfold get_group_info, at_gi. by rewrite Hp. Qed.

(** *** The user's array *)

Lemma copy_words_in_spec a n um ws :
  copy_words_in a n um = Some ws <->
  length ws = n /\ forall j, (j < n)%nat -> ws !! j = um !! (a + Z.of_nat j).
Proof.
  revert a ws. induction n as [|n IH]; intros a ws; simpl.
  { split; [intros [= <-]; split; [done|lia]|]. by intros [->%nil_length_inv _]. }
  split.
  - destruct (um !! a) as [w|] eqn:Ea; [|done]. simpl. destruct (copy_words_in _ _ _) as [ws'|] eqn:Ec; [|done].
    intros [= <-]. apply IH in Ec as [<- Hl]. split; [done|]. intros [|j] Hj; simpl.
    + by rewrite Z.add_0_r.
    + rewrite Hl by lia. f_equal. lia.
  - intros [Hlen Hl]. destruct ws as [|w ws]; [done|]. simpl in Hlen.
    pose proof (Hl O ltac:(lia)) as H0. simpl in H0. rewrite Z.add_0_r in H0. rewrite <-H0. simpl.
    rewrite (proj2 (IH (a + 1) ws)); [done|]. split; [lia|]. intros j Hj.
    rewrite (Hl (S j) ltac:(lia) : ws !! j = _). f_equal. lia.
Qed.

Lemma copy_words_in_None a n um k m :
  (k + m <= n)%nat -> copy_words_in (a + Z.of_nat k) m um = None -> copy_words_in a n um = None.
Proof.
  intros Hkm HN. destruct (copy_words_in a n um) as [ws|] eqn:E; [|done].
  apply copy_words_in_spec in E as [Hl Hj].
  assert (E : copy_words_in (a + Z.of_nat k) m um = Some (take m (drop k ws))); [|congruence].
  apply copy_words_in_spec. rewrite length_take, length_drop.
  split; [lia|]. intros j Hjm. rewrite lookup_take_lt, lookup_drop, Hj by lia. f_equal. lia.
Qed.

Lemma ngroups_fit gi : wf gi -> ngroups gi <= NGROUPS_PER_BLOCK * nblocks gi.
Proof.
  intros [Hn Hb Hs [[E Hle]|[_ Hle]]]; rewrite Hb; [|done]. rewrite E.
  unfold NGROUPS_SMALL, NGROUPS_PER_BLOCK in *. simpl. lia.
Qed.

Lemma runs_groups_from_user p a gi s :
  store s !! p = Some gi -> wf gi ->
  runs (groups_from_user p a) s (fun r s' => exists gi', s' = put_gi p gi' s /\ wf gi' /\
    header gi' = header gi /\
    match copy_words_in a (Z.to_nat (ngroups gi)) (user_gids s) with
    | None => r = - EFAULT
    | Some ws => r = 0 /\ gids gi' = ws
    end).
Proof.
  intros Hp Hwf. pose proof (ngroups_fit gi Hwf) as Hfit. pose proof (wf_ngroups gi Hwf) as Hn0.
  assert (Hnb : 0 <= nblocks gi) by (rewrite (wf_nblocks gi Hwf); lia).
  unfold groups_from_user. wp. eapply runs_deref; [exact Hp|].
  apply runs_loop with
    (I := fun '(i, count, a') s' => exists gi', s' = put_gi p gi' s /\ wf gi' /\ header gi' = header gi /\
       0 <= i <= nblocks gi /\ count = Z.max 0 (ngroups gi - NGROUPS_PER_BLOCK * i) /\
       a' = a + NGROUPS_PER_BLOCK * i /\
       (forall j, (j < Z.to_nat (ngroups gi))%nat -> Z.of_nat j < NGROUPS_PER_BLOCK * i ->
         gids gi' !! j = user_gids s !! (a + Z.of_nat j)))
    (meas := fun '(i, _, _) _ => Z.to_nat (nblocks gi - i)).
  - intros [[i count] a'] s' (gi' & -> & Hwf' & Hh & Hi & -> & -> & Hg).
    pose proof (f_equal (fun h => h.1.1.2) Hh) as En. pose proof (f_equal (fun h => h.1.2) Hh) as Eb.
    cbn in En, Eb. destruct (Z.ltb_spec i (nblocks gi)).
    + set (m := Z.min _ _). wp. cbn [user_gids put_gi with_store].
      destruct (copy_words_in _ (Z.to_nat m) _) as [ws|] eqn:Ec; wp.
      * apply copy_words_in_spec in Ec as [Hl Hj].
        destruct (block_fill_ok gi' i ws Hwf') as (gi2 & Ef & Hwf2 & Hh2 & Hg2); [lia|rewrite En, Hl; unfold m, NGROUPS_PER_BLOCK; lia|].
        eapply runs_at_gi; [apply put_gi_lookup|]. apply (runs_ok _ _ _ _ _ Ef). wp. split; [|lia].
        exists gi2. rewrite put_gi_put. unfold NGROUPS_PER_BLOCK in *.
        split_and!; [done|done|congruence|lia|lia|lia|lia|]. intros j Hjn Hji.
        rewrite Hg2 by lia. case_decide as Hin; unfold in_block in Hin.
        { rewrite Hj by lia. f_equal. lia. } apply Hg; lia.
      * exists gi'. split_and!; try done. unfold NGROUPS_PER_BLOCK in *.
        rewrite (copy_words_in_None a _ _ (Z.to_nat (1024 * i)) (Z.to_nat m)); [done| |].
        { destruct (Z.le_gt_cases (ngroups gi) (1024 * i)); [|lia].
          assert (m = 0) as E0 by lia. rewrite E0 in Ec. done. }
        rewrite <-Ec. f_equal. lia.
    + wp. exists gi'. split_and!; try done.
      assert (E : copy_words_in a (Z.to_nat (ngroups gi)) (user_gids s) = Some (gids gi')).
      { apply copy_words_in_spec. rewrite length_gids, En by done. split; [done|].
        intros j Hj. apply Hg; [done|]. assert (i = nblocks gi) as -> by lia. lia. }
      by rewrite E.
  - exists gi. split_and!; try done; try lia. unfold put_gi. rewrite insert_id by done. by destruct s.
  - lia.
Qed.

(** ** Sorted lists *)

Lemma ordered_cons x l : ordered (S (length l)) (x :: l) -> Forall (Z.le x) l /\ ordered (length l) l.
Proof.
  intros H. split.
  - apply Forall_lookup_2. intros i y Hi. apply (H O (S i)); [|done|done].
    apply lookup_lt_Some in Hi. lia.
  - intros i j a b Hij Ha Hb. apply (H (S i) (S j)); [lia|done|done].
Qed.

Lemma ordered_merge_sort l l' : ordered (length l') l' -> l' ≡ₚ l -> l' = merge_sort Z.le l.
Proof.
  intros Ho Hp. apply (StronglySorted_unique Z.le).
  - clear Hp. induction l' as [|x l' IH]; constructor; apply ordered_cons in Ho as [Hx Ho]; auto.
  - apply Sorted_StronglySorted; [intros ???; lia|]. apply Sorted_merge_sort. intros x y. lia.
  - by rewrite merge_sort_Permutation.
Qed.

(** ** The system calls *)

Record gs_ok (s : gstate) : Prop := {
  ok_cur : exists gi, store s !! cur_groups s = Some gi /\ wf gi /\ 1 <= usage gi /\
             ordered (Z.to_nat (ngroups gi)) (gids gi);
  ok_objs : objs_ok s;
  ok_pages : pages_ok s;
}.

Lemma put_gi_id p gi s : store s !! p = Some gi -> put_gi p gi s = s.
Proof. intros Hp. unfold put_gi. rewrite insert_id by done. by destruct s. Qed.

Lemma get_put_group_info p gi s :
  store s !! p = Some gi -> 1 <= usage gi ->
  (get_group_info p ;;; put_group_info p) s = Ok (tt, s).
Proof.
  intros Hp Hu. rewrite (bind_ok _ _ _ _ _ (get_group_info_ok _ _ _ Hp)).
  rewrite (put_group_info_keep _ _ _ (put_gi_lookup _ _ _)) by (simpl; lia).
  rewrite put_gi_put. f_equal. f_equal. rewrite <-(put_gi_id p gi s) at 2 by done. f_equal.
  destruct gi. unfold set_usage. simpl. f_equal. lia.
Qed.

Lemma runs_set_current_groups p gi gc s :
  store s !! p = Some gi -> wf gi -> store s !! cur_groups s = Some gc -> 1 <= usage gc ->
  creds_left s = true ->
  runs (set_current_groups p) s (fun r s' => r = 0 /\ exists gi',
    s' = with_cur p (put_gi p gi' s) /\ wf gi' /\ header gi' = header (set_usage (usage gi + 1) gi) /\
    gids gi' = merge_sort Z.le (gids gi) /\ ordered (Z.to_nat (ngroups gi)) (gids gi')).
Proof.
  intros Hp Hwf Hc Hu Hcr. unfold set_current_groups. wp. rewrite Hcr. cbn [negb]. wp.
  pose proof (get_put_group_info _ _ _ Hc Hu) as Hgp. apply bind_inv_ok in Hgp as ([] & s1 & E1 & E2).
  apply (runs_ok _ _ _ _ _ E1). unfold set_groups. wp. apply (runs_ok _ _ _ _ _ E2). wp.
  eapply runs_at_gi; [exact Hp|]. eapply runs_mono; [by apply runs_groups_sort|].
  intros _ gi' (Hwf' & Hh & Hperm & Ho). cbv beta. wp.
  eapply runs_ok; [apply get_group_info_ok, put_gi_lookup|]. rewrite put_gi_put. wp. split; [done|].
  eexists. split; [done|]. destruct (set_usage_ok (usage gi' + 1) gi' Hwf') as [Hwf2 ->].
  split_and!; [done| | |done].
  - unfold header in *. cbn in *. congruence.
  - apply ordered_merge_sort; [|done]. rewrite length_gids, (header_ngroups gi gi' Hh) by done. done.
Qed.

Lemma runs_in_group_p g gid s :
  gs_ok s -> exists gi, store s !! cur_groups s = Some gi /\
    (if negb (g =? gid) then at_gi (cur_groups s) (groups_search g) else ret 1) s =
    Ok (cbool (bool_decide (g = gid \/ g ∈ gids gi)), s).
Proof.
  intros [(gi & Hc & Hwf & Hu & Ho) _ _]. exists gi. split; [done|].
  destruct (Z.eqb_spec g gid) as [->|Hne]; simpl.
  - by rewrite bool_decide_true by (by left).
  - destruct (runs_groups_search gi g Hwf Ho) as (r & gi' & E & -> & ->).
    unfold at_gi. rewrite Hc, E. f_equal. f_equal; [|by apply (put_gi_id _ _ _ Hc)].
    f_equal. apply bool_decide_ext. naive_solver.
Qed.

(** The task's credentials and memory, apart from the groups. *)
Definition rest (s : gstate) : gmap Z Z * Z * Z * bool * bool :=
  (user_gids s, cur_fsgid s, cur_egid s, cap_setgid s, creds_left s).

(** As many free objects and pages as before, and the same structures. *)
Record restored (s s' : gstate) : Prop := {
  re_store : store s' = store s;
  re_cur : cur_groups s' = cur_groups s;
  re_rest : rest s' = rest s;
  re_objs : (free_objs s').*1 = (free_objs s).*1;
  re_pages : length (free_pages s') = length (free_pages s);
}.

Lemma restored_refl s : restored s s.
Proof. by split. Qed.

Lemma runs_give_back n p gi gi' s s1 :
  gs_ok s -> allocated n p gi s s1 -> wf gi' -> usage gi' = 1 -> 0 < nblocks gi' ->
  (if is_small (blocks gi') then 0 else nblocks gi') = pages_for n ->
  runs (put_group_info p) (put_gi p gi' s1) (fun _ s' => gs_ok s' /\ restored s s').
Proof.
  intros [(gc & Hc & Hcok) [Hnd Hobj] Hpg] (sb & os & Eo & Hen & ->) Hwf Hu Hnb Hnp.
  destruct (Hobj p sb) as [Hp Hsb]; [rewrite Eo; by left|].
  eapply runs_put_group_info_last; [apply put_gi_lookup|done|]. rewrite !put_gi_put.
  eapply runs_mono; [apply runs_groups_free; [apply put_gi_lookup|by apply set_usage_ok|]|].
  { cbn. intros E. rewrite (wf_nblocks _ Hwf), E in Hnb. done. }
  intros _ s' (ps & -> & Hps & Hl). cbn [blocks set_usage nblocks small_block] in Hl |- *.
  rewrite Hnp in Hl. cbn [store free_objs free_pages put_gi with_store with_objs take_pages with_pages].
  rewrite delete_insert_id by done.
  split; split; cbn [store cur_groups free_objs free_pages with_store with_objs with_pages put_gi take_pages].
  - by exists gc.
  - rewrite Eo in Hnd, Hobj. split; [exact Hnd|]. intros q sb' [Hq|Hq]%elem_of_cons; [|by apply Hobj; right].
    simplify_eq. split; [done|]. apply (wf_small _ Hwf).
  - apply Forall_app. split; [done|]. by apply Forall_drop.
  - done.
  - done.
  - done.
  - by rewrite Eo.
  - rewrite length_app, length_drop. lia.
Qed.

(** The result [setgroups] is to have. *)
Definition setgroups_result (n a : Z) (s : gstate) : Z :=
  if negb (cap_setgid s) then - EPERM
  else if (n <? 0) || (NGROUPS_MAX <? n) then - EINVAL
  else if no_memory n s then - ENOMEM
  else match copy_words_in a (Z.to_nat n) (user_gids s) with
       | None => - EFAULT
       | Some _ => if creds_left s then 0 else - ENOMEM
       end.

(** The groups after a successful call: a new structure that only the task's
    credentials refer to holds [gs], the others are as before. *)
Definition installed (gs : list Z) (s s' : gstate) : Prop :=
  exists gi, store s' !! cur_groups s' = Some gi /\ gids gi = gs /\ usage gi = 1 /\
    store s !! cur_groups s' = None /\ rest s' = rest s /\
    (forall q, q <> cur_groups s' -> store s' !! q = store s !! q).

Lemma runs_install n p gi gs s s1 :
  gs_ok s -> allocated n p gi s s1 -> wf gi -> usage gi = 1 -> creds_left s = true -> gids gi = gs ->
  runs (let! r := set_current_groups p in put_group_info p ;;; ret r) s1 (fun r s' =>
    r = 0 /\ gs_ok s' /\ installed (merge_sort Z.le gs) s s').
Proof.
  intros [(gc & Hc & Hcwf & Hcu & Hco) [Hnd Hobj] Hpg] (sb & os & Eo & Hen & ->) Hwf Hu Hcr Hg.
  destruct (Hobj p sb) as [Hp Hsb]; [rewrite Eo; by left|].
  assert (Hne : p <> cur_groups s) by congruence.
  wp. eapply runs_mono.
  { eapply (runs_set_current_groups p gi gc); [apply put_gi_lookup|done| |done|done].
    cbn. by rewrite lookup_insert_ne. }
  intros r s2 (-> & gi2 & -> & Hwf2 & Hh2 & Hg2 & Ho2). cbv beta. wp.
  pose proof (f_equal (fun h => h.1.1.1) Hh2) as Eu. pose proof (f_equal (fun h => h.1.1.2) Hh2) as En.
  cbn in Eu, En.
  eapply runs_ok; [apply (put_group_info_keep p gi2); [cbn; apply lookup_insert_eq|lia]|]. wp.
  destruct (set_usage_ok (usage gi2 - 1) gi2 Hwf2) as [Hwf3 Hg3]. split; [done|]. split; [split|].
  - eexists. split; [apply put_gi_lookup|]. split; [done|]. rewrite Hg3. cbn. rewrite En. split; [lia|done].
  - cbn. rewrite Eo in Hnd, Hobj. apply NoDup_cons in Hnd as [Hni Hnd]. split; [done|]. intros q sb' Hq.
    assert (q <> p). { intros ->. apply Hni. by apply (list_elem_of_fmap_2 fst) in Hq. }
    cbn. rewrite !lookup_insert_ne by done. apply Hobj. by right.
  - cbn. by apply Forall_drop.
  - eexists. split; [apply put_gi_lookup|]. split_and!; [by rewrite Hg3, Hg2, Hg|cbn; lia|done|done|].
    intros q Hq. cbn in Hq |- *. by rewrite !lookup_insert_ne.
Qed.

Lemma groups_range n :
  INT_MIN <= n <= INT_MAX -> (NGROUPS_MAX <? u32 n) = (n <? 0) || (NGROUPS_MAX <? n).
Proof.
  unfold INT_MIN, INT_MAX, NGROUPS_MAX, uwrap. intros Hn. change (2 ^ 32) with 4294967296.
  destruct (Z.ltb_spec n 0).
  - simpl. apply Z.ltb_lt. rewrite <-(Z.mod_unique n 4294967296 (-1) (n + 4294967296)); lia.
  - simpl. by rewrite Z.mod_small by lia.
Qed.

(** *** Reading the groups back *)

Lemma copy_words_out_spec a ws um :
  (forall j, (j < length ws)%nat -> is_Some (um !! (a + Z.of_nat j))) ->
  exists um', copy_words_out a ws um = (true, um') /\
    (forall k, um' !! k = if decide (a <= k < a + Z.of_nat (length ws))
                          then ws !! Z.to_nat (k - a) else um !! k).
Proof.
  revert a um. induction ws as [|w ws IH]; intros a um Hacc; simpl.
  { exists um. split; [done|]. intros k. by rewrite decide_False by lia. }
  destruct (Hacc O ltac:(simpl; lia)) as [x Hx]. simpl in Hx. rewrite Z.add_0_r in Hx. rewrite Hx.
  destruct (IH (a + 1) (<[a := w]> um)) as (um' & -> & Hum').
  { intros j Hj. rewrite lookup_insert_ne by lia. destruct (Hacc (S j) ltac:(simpl; lia)) as [y Hy].
    exists y. rewrite <-Hy. f_equal. lia. }
  exists um'. split; [done|]. intros k. rewrite Hum'. destruct (decide (k = a)) as [->|Hne].
  - rewrite decide_False, decide_True by lia. by rewrite lookup_insert_eq, Z.sub_diag.
  - repeat case_decide; try lia.
    + replace (Z.to_nat (k - a)) with (S (Z.to_nat (k - (a + 1)))) by lia. done.
    + by rewrite lookup_insert_ne.
Qed.

(** The user's array with [l] written from [a] on. *)
Definition written (l : list Z) (a : Z) (um um' : gmap Z Z) : Prop :=
  forall k, um' !! k = if decide (a <= k < a + Z.of_nat (length l)) then l !! Z.to_nat (k - a) else um !! k.

Lemma runs_groups_to_user p a gi s :
  store s !! p = Some gi -> wf gi ->
  (forall j, (j < Z.to_nat (ngroups gi))%nat -> is_Some (user_gids s !! (a + Z.of_nat j))) ->
  runs (groups_to_user a p) s (fun r s' => r = 0 /\ exists um', s' = with_user um' s /\
    written (gids gi) a (user_gids s) um').
Proof.
  intros Hp Hwf Hacc. pose proof (ngroups_fit gi Hwf) as Hfit. pose proof (wf_ngroups gi Hwf) as Hn0.
  assert (Hnb : 0 <= nblocks gi) by (rewrite (wf_nblocks gi Hwf); lia).
  pose proof (length_gids gi Hwf) as Hlg.
  unfold groups_to_user. wp. eapply runs_deref; [exact Hp|].
  apply runs_loop with
    (I := fun '(i, count, a') s' => 0 <= i <= nblocks gi /\
       count = Z.max 0 (ngroups gi - NGROUPS_PER_BLOCK * i) /\ a' = a + NGROUPS_PER_BLOCK * i /\
       exists um', s' = with_user um' s /\
         written (take (Z.to_nat (NGROUPS_PER_BLOCK * i)) (gids gi)) a (user_gids s) um')
    (meas := fun '(i, _, _) _ => Z.to_nat (nblocks gi - i)).
  - intros [[i count] a'] s' (Hi & -> & -> & um' & -> & Hw). destruct (Z.ltb_spec i (nblocks gi)).
    + destruct (block_prefix_ok gi i Hwf) as (ws & Ews & Hl & Hj); [lia|].
      set (m := Z.min _ _) in *. wp. eapply runs_deref; [exact Ews|]. wp. cbn [user_gids with_user].
      unfold NGROUPS_PER_BLOCK in *. unfold written in Hw. rewrite length_take in Hw.
      destruct (copy_words_out_spec (a + 1024 * i) ws um') as (um2 & Ec & Hum2).
      { intros j Hjl. rewrite Hw. case_decide; [lia|].
        destruct (Hacc (Z.to_nat (1024 * i) + j)%nat ltac:(lia)) as [v Hv]. exists v. rewrite <-Hv.
        f_equal. lia. }
      rewrite Ec. cbn [fst snd]. wp. split; [|lia]. split_and!; [lia|lia|lia|lia|]. exists um2. split; [done|].
      intros k. rewrite Hum2, Hw, length_take.
      repeat case_decide; try lia.
      * rewrite lookup_take_lt, Hj by lia. f_equal. lia.
      * by rewrite !lookup_take_lt by lia.
      * done.
    + wp. split; [done|]. exists um'. split; [done|]. unfold NGROUPS_PER_BLOCK in *.
      by rewrite take_ge in Hw by lia.
  - split_and!; try done; try lia. exists (user_gids s). split; [by destruct s|]. intros k.
    rewrite Z.mul_0_r. simpl. by rewrite decide_False by lia.
  - lia.
Qed.

Lemma runs_setgroups n a s :
  gs_ok s -> INT_MIN <= n <= INT_MAX ->
  runs (setgroups n a) s (fun r s' => r = setgroups_result n a s /\ gs_ok s' /\
    (r <> 0 -> restored s s') /\
    (r = 0 -> exists gs, copy_words_in a (Z.to_nat n) (user_gids s) = Some gs /\
       installed (merge_sort Z.le gs) s s')).
Proof.
  intros Hs Hn. pose proof (restored_refl s). unfold setgroups, setgroups_result. wp.
  destruct (cap_setgid s); cbn [negb]; [|by wp].
  rewrite groups_range by done. destruct ((n <? 0) || (NGROUPS_MAX <? n)) eqn:Er; [by wp|].
  apply orb_false_iff in Er as [Er%Z.ltb_ge _]. wp.
  eapply runs_mono; [apply runs_groups_alloc; [done|apply Hs|apply Hs]|].
  intros [p|] s1; cbv beta; [|intros [-> ->]; by wp].
  intros (-> & gi & Hal & Hwf & Hu & Hng & Hnb & Hnp). wp.
  assert (Hp : store s1 !! p = Some gi) by (destruct Hal as (? & ? & _ & _ & ->); apply put_gi_lookup).
  eapply runs_mono; [by apply runs_groups_from_user|].
  intros r s2 (gi' & -> & Hwf' & Hh & Hr). cbv beta.
  assert (Eum : user_gids s1 = user_gids s) by (by destruct Hal as (? & ? & _ & _ & ->)).
  rewrite Hng, Eum in Hr. unfold header in Hh. injection Hh as Hu' Hn' Hnb' Hsm'.
  assert (Hal' : allocated n p gi' s (put_gi p gi' s1)).
  { destruct Hal as (sb & os & ? & ? & ->). exists sb, os. by rewrite put_gi_put. }
  assert (Hback : runs (put_group_info p) (put_gi p gi' s1) (fun _ s' => gs_ok s' /\ restored s s')).
  { apply (runs_give_back n p gi); rewrite ?Hu', ?Hnb', ?Hsm'; done. }
  destruct (copy_words_in a (Z.to_nat n) (user_gids s)) as [gs|].
  - destruct Hr as [-> Hg]. cbn [ctrue Z.eqb negb]. destruct (creds_left s) eqn:Ecr.
    + eapply runs_mono; [apply (runs_install n p gi' gs s); try done; congruence|].
      intros r s' (-> & Hok & Hin). split_and!; [done|done|done|]. by exists gs.
    + wp. eapply runs_ok.
      { unfold set_current_groups, bind, gets. cbn.
        assert (E : creds_left s1 = false) by (by destruct Hal as (? & ? & _ & _ & ->)). by rewrite E. }
      cbv beta. wp. eapply runs_mono; [exact Hback|]. intros _ s' [??]. by wp.
  - subst r. change (ctrue (- EFAULT)) with true. cbv iota. wp.
    eapply runs_mono; [exact Hback|]. intros _ s' [??]. by wp.
Qed.

Lemma setgroups_correct_inv n a s s' gs :
  gs_ok s -> INT_MIN <= n <= INT_MAX -> copy_words_in a (Z.to_nat n) (user_gids s) = Some gs ->
  setgroups n a s = Ok (0, s') ->
  gs_ok s' /\ 0 <= n /\ exists gi, store s' !! cur_groups s' = Some gi /\ gids gi = merge_sort Z.le gs /\
    rest s' = rest s.
Proof.
  intros Hs Hn Hgs Hr. destruct (runs_setgroups n a s Hs Hn) as (r & s2 & E & Er & Hok & _ & Hin).
  rewrite Hr in E. injection E as <- <-.
  destruct (Hin eq_refl) as (gs' & Hgs' & gi & Hc & Hg & _ & _ & Hrest & _).
  split; [done|]. split.
  - unfold setgroups_result in Er. repeat case_match; try done. lia.
  - exists gi. rewrite Hgs in Hgs'. injection Hgs' as <-. by split_and!.
Qed.

(** ** Claims *)

(** [groups_sort] ends, touches no id outside the list and leaves the
    ids in the order a merge sort gives. *)
Theorem groups_sort_is_merge_sort (gi : group_info) (Hwf : wf gi) :
  exists gi', groups_sort gi = Ok (tt, gi') /\ wf gi' /\ header gi' = header gi /\
    gids gi' = merge_sort Z.le (gids gi).
Proof.
  destruct (runs_groups_sort gi Hwf) as ([] & gi' & E & Hwf' & Hh & Hp & Ho). exists gi'.
  split_and!; try done. apply ordered_merge_sort; [|done].
  by rewrite length_gids, (header_ngroups _ _ Hh).
Qed.

Definition ex_small : group_info := mk_gi 1 5 1 ([30; 7; 100; 7; 2] ++ repeat 0 27) [In_struct].

Lemma ex_small_wf : wf ex_small.
Proof. split; [done|done|done|]. left. split; [done|]. unfold NGROUPS_SMALL. simpl. lia. Qed.

Lemma groups_sort_is_merge_sort_witness :
  exists gi', groups_sort ex_small = Ok (tt, gi') /\ gids gi' = [2; 7; 7; 30; 100].
Proof.
  destruct (groups_sort_is_merge_sort ex_small ex_small_wf) as (gi' & E & _ & _ & Hg).
  exists gi'. split; [exact E|]. rewrite Hg. vm_compute. reflexivity.
Defined.

(** A task without supplementary groups, memory for one [group_info], and
    three ids in the user's array. *)
Definition ex_empty : group_info := mk_gi 2 0 1 (repeat 0 32) [In_struct].
Definition ex_gs : gstate :=
  mk_gs {[1 := ex_empty]} [(2, repeat 55 32)] [] (list_to_map [(10, 42); (11, 7); (12, 42)]) 1 100 100 true true.

Lemma ex_gs_ok : gs_ok ex_gs.
Proof.
  split.
  - exists ex_empty. split; [done|]. split; [|split; [by vm_compute|]].
    + split; [done|done|done|]. left. split; [done|]. unfold NGROUPS_SMALL. simpl. lia.
    + intros i j x y Hij. simpl in Hij. lia.
  - split; [apply NoDup_singleton|]. intros p sb [= -> ->]%list_elem_of_singleton. done.
  - constructor.
Qed.

(** C26: [setgroups] ends without a fault, with the result its arguments and
    the memory determine.  When it fails, the structures are as before and
    every object and page it took is free again; when it succeeds, the
    credentials have a structure of their own with the user's ids in order. *)
Theorem setgroups_correct (n a : Z) (s : gstate) (Hs : gs_ok s) (Hn : INT_MIN <= n <= INT_MAX) :
  exists s', setgroups n a s = Ok (setgroups_result n a s, s') /\ gs_ok s' /\
    (setgroups_result n a s <> 0 -> restored s s') /\
    (setgroups_result n a s = 0 -> exists gs, copy_words_in a (Z.to_nat n) (user_gids s) = Some gs /\
       installed (merge_sort Z.le gs) s s').
Proof.
  destruct (runs_setgroups n a s Hs Hn) as (r & s' & E & -> & H). by exists s'.
Qed.

Lemma setgroups_correct_witness :
  exists s', setgroups 3 10 ex_gs = Ok (0, s') /\
    exists gs, copy_words_in 10 3 (user_gids ex_gs) = Some gs /\ installed (merge_sort Z.le gs) ex_gs s'.
Proof.
  destruct (setgroups_correct 3 10 ex_gs ex_gs_ok ltac:(vm_compute; intuition congruence))
    as (s' & E & _ & _ & H).
  exists s'. split; [exact E|]. apply H. vm_compute. reflexivity.
Defined.

(** After a [setgroups] that succeeded, [in_group_p] and [in_egroup_p]
    tell exactly the ids given and the task's own, and [getgroups] returns
    their number and writes them, in order, to a large enough array. *)
Theorem setgroups_membership (n a : Z) (s s' : gstate) (gs : list Z) (Hs : gs_ok s)
    (Hn : INT_MIN <= n <= INT_MAX) (Hgs : copy_words_in a (Z.to_nat n) (user_gids s) = Some gs)
    (Hr : setgroups n a s = Ok (0, s')) :
  (forall g, in_group_p g s' = Ok (cbool (bool_decide (g = cur_fsgid s \/ g ∈ gs)), s')) /\
  (forall g, in_egroup_p g s' = Ok (cbool (bool_decide (g = cur_egid s \/ g ∈ gs)), s')) /\
  (forall m b, n <= m -> 0 < m ->
    (forall j, (j < Z.to_nat n)%nat -> is_Some (user_gids s !! (b + Z.of_nat j))) ->
    exists um', getgroups m b s' = Ok (n, with_user um' s') /\
      written (merge_sort Z.le gs) b (user_gids s) um').
Proof.
  destruct (setgroups_correct_inv n a s s' gs Hs Hn Hgs Hr) as (Hok & H0 & gi & Hc & Hg & Hrest).
  unfold rest in Hrest. injection Hrest as Eum Efs Eeg _ _.
  assert (Hmem : forall g gid, g = gid \/ g ∈ gids gi <-> g = gid \/ g ∈ gs).
  { intros g gid. by rewrite Hg, merge_sort_Permutation. }
  split_and!.
  - intros g. unfold in_group_p, bind, gets. destruct (runs_in_group_p g (cur_fsgid s') s' Hok) as (gi' & Hc' & E).
    assert (gi' = gi) as -> by congruence. rewrite <-Efs, <-(bool_decide_ext _ _ (Hmem g (cur_fsgid s'))). rewrite <-E.
    by destruct (negb (g =? cur_fsgid s')).
  - intros g. unfold in_egroup_p, bind, gets. destruct (runs_in_group_p g (cur_egid s') s' Hok) as (gi' & Hc' & E).
    assert (gi' = gi) as -> by congruence. rewrite <-Eeg, <-(bool_decide_ext _ _ (Hmem g (cur_egid s'))). rewrite <-E.
    by destruct (negb (g =? cur_egid s')).
  - intros m b Hm Hm0 Hacc. destruct Hok as [(gi' & Hc' & Hwf & _) _ _].
    assert (gi' = gi) as -> by congruence.
    assert (En : ngroups gi = n).
    { pose proof (length_gids gi Hwf) as Hl. rewrite Hg, merge_sort_Permutation in Hl.
      apply copy_words_in_spec in Hgs as [Hlg _]. pose proof (wf_ngroups gi Hwf). lia. }
    destruct (runs_groups_to_user (cur_groups s') b gi s' Hc Hwf) as (r & s2 & E & -> & um' & -> & Hw).
    { by rewrite En, Eum. }
    exists um'. rewrite <-Eum, <-Hg. split; [|done]. unfold getgroups, bind, gets, deref.
    rewrite (proj2 (Z.ltb_ge _ _)), Hc by lia. cbn [fmap option_fmap option_map].
    rewrite (proj2 (Z.eqb_neq _ _)), En, (proj2 (Z.ltb_ge _ _)) by lia. cbn [negb]. by rewrite E.
Qed.

Lemma setgroups_membership_witness :
  exists s', setgroups 3 10 ex_gs = Ok (0, s') /\
    in_group_p 7 s' = Ok (1, s') /\ in_group_p 8 s' = Ok (0, s').
Proof.
  assert (E : exists s', setgroups 3 10 ex_gs = Ok (0, s')) by (eexists; vm_compute; reflexivity).
  destruct E as [s' E]. exists s'. split; [exact E|].
  destruct (setgroups_membership 3 10 ex_gs s' [42; 7; 42] ex_gs_ok
    ltac:(vm_compute; intuition congruence) ltac:(vm_compute; reflexivity) E) as [H _].
  split; rewrite H; f_equal; f_equal; vm_compute; reflexivity.
Defined.
