(* ===== verification/StringLib.v ===== *)
(** The string functions of [lib/string.c] and the character classes of
    [lib/ctype.c].

    Memory maps addresses to bytes; an access to an address that is not
    mapped is a fault.  A [char] is kept as its byte, 0 to 255: the functions
    only compare them for equality or as [unsigned char].  A loop over a
    string visits each mapped address at most once, so that the number of
    mapped addresses bounds its rounds; a counted loop is bounded by its
    counter.  A null pointer is [None]. *)
From S2P Require Import Prelude Wp.

Abbreviation mem := (gmap Z Z).
Definition load (a : Z) : M mem Z := deref (fun m => m !! a).
Definition storeb (a v : Z) : M mem unit := fun m =>
  match m !! a with Some _ => Ok (tt, <[a := v]> m) | None => Err Oops end.

(** A loop over addresses. *)
Definition mloop {L R} (body : L -> M mem (L + R)) (l : L) : M mem R :=
  let! n := gets (fun m => S (size m)) in loop n body l.

(** ** Character classes *)

Definition _U : Z := 1.
Definition _L : Z := 2.
Definition _D : Z := 4.
Definition _C : Z := 8.
Definition _P : Z := 16.
Definition _S : Z := 32.
Definition _X : Z := 64.
Definition _SP : Z := 128.

Definition _ctype : list Z :=
  repeat _C 9 ++ repeat (Z.lor _C _S) 5 ++ repeat _C 18 ++
  [Z.lor _S _SP] ++ repeat _P 15 ++ repeat _D 10 ++ repeat _P 7 ++
  repeat (Z.lor _U _X) 6 ++ repeat _U 20 ++ repeat _P 6 ++
  repeat (Z.lor _L _X) 6 ++ repeat _L 20 ++ repeat _P 4 ++ [_C] ++
  repeat 0 32 ++ [Z.lor _S _SP] ++ repeat _P 31 ++
  repeat _U 23 ++ [_P] ++ repeat _U 7 ++ repeat _L 24 ++ [_P] ++ repeat _L 8.

Definition __ismask (x : Z) : Z := default 0 (_ctype !! Z.to_nat (u8 x)).
Definition isspace (c : Z) : bool := negb (Z.land (__ismask c) _S =? 0).
Definition isupper (c : Z) : bool := negb (Z.land (__ismask c) _U =? 0).
Definition islower (c : Z) : bool := negb (Z.land (__ismask c) _L =? 0).
Definition isdigit (c : Z) : bool := negb (Z.land (__ismask c) _D =? 0).
Definition isxdigit (c : Z) : bool := negb (Z.land (__ismask c) (Z.lor _D _X) =? 0).

(** ['A' - 'a'] is [- 32]. *)
Definition __tolower (c : Z) : Z := if isupper c then u8 (c + 32) else c.
Definition __toupper (c : Z) : Z := if islower c then u8 (c - 32) else c.

(** ** Comparisons *)

(** One round of the [do] loop. *)
Definition strnicmp_round : Z * Z * Z -> M mem (Z * Z * Z + Z) := fun '(s1, s2, len) =>
  let! c1 := load s1 in
  let! c2 := load s2 in
  if c1 =? 0 then ret (inr (c1 - c2))
  else if c2 =? 0 then ret (inr (c1 - c2))
  else
    let next c1 c2 :=
      ret (if len - 1 =? 0 then inr (c1 - c2) else inl (s1 + 1, s2 + 1, len - 1)) in
    if c1 =? c2 then next c1 c2
    else
      let c1 := __tolower c1 in
      let c2 := __tolower c2 in
      if negb (c1 =? c2) then ret (inr (c1 - c2)) else next c1 c2.

Definition strnicmp (s1 s2 len : Z) : M mem Z :=
  if len =? 0 then ret 0 else loop (Z.to_nat len) strnicmp_round (s1, s2, len).

Definition strcasecmp_round : Z * Z -> M mem (Z * Z + Z) := fun '(s1, s2) =>
  let! b1 := load s1 in
  let! b2 := load s2 in
  let c1 := __tolower b1 in
  let c2 := __tolower b2 in
  if (c1 =? c2) && negb (c1 =? 0) then ret (inl (s1 + 1, s2 + 1)) else ret (inr (c1 - c2)).

Definition strcasecmp (s1 s2 : Z) : M mem Z := mloop strcasecmp_round (s1, s2).

(** [n] is a [size_t] and wraps around. *)
Definition strncasecmp_round : Z * Z * Z -> M mem (Z * Z * Z + Z) := fun '(s1, s2, n) =>
  let! b1 := load s1 in
  let! b2 := load s2 in
  let c1 := __tolower b1 in
  let c2 := __tolower b2 in
  let n := u64 (n - 1) in
  if (0 <? n) && (c1 =? c2) && negb (c1 =? 0) then ret (inl (s1 + 1, s2 + 1, n))
  else ret (inr (c1 - c2)).

Definition strncasecmp (s1 s2 n : Z) : M mem Z := mloop strncasecmp_round (s1, s2, n).

Definition strcmp (cs ct : Z) : M mem Z :=
  mloop
    (fun '(cs, ct) =>
       let! c1 := load cs in
       let! c2 := load ct in
       if negb (c1 =? c2) then ret (inr (if c1 <? c2 then -1 else 1))
       else if c1 =? 0 then ret (inr 0)
       else ret (inl (cs + 1, ct + 1)))
    (cs, ct).

Definition strncmp (cs ct count : Z) : M mem Z :=
  loop (S (Z.to_nat count))
    (fun '(cs, ct, count) =>
       if count =? 0 then ret (inr 0)
       else
         let! c1 := load cs in
         let! c2 := load ct in
         if negb (c1 =? c2) then ret (inr (if c1 <? c2 then -1 else 1))
         else if c1 =? 0 then ret (inr 0)
         else ret (inl (cs + 1, ct + 1, count - 1)))
    (cs, ct, count).

Definition streq_round : Z * Z -> M mem (Z * Z + Z * Z) := fun '(s1, s2) =>
  let! c1 := load s1 in
  if c1 =? 0 then ret (inr (s1, s2))
  else
    let! c2 := load s2 in
    if c1 =? c2 then ret (inl (s1 + 1, s2 + 1)) else ret (inr (s1, s2)).

(** The tests after the loop; 10 is the newline. *)
Definition streq_end (s1 s2 : Z) : M mem bool :=
  let! c1 := load s1 in
  let! c2 := load s2 in
  if c1 =? c2 then ret true
  else
    let! r2 := (if (c1 =? 0) && (c2 =? 10) then let! n := load (s2 + 1) in ret (n =? 0) else ret false) in
    if (r2 : bool) then ret true
    else if c1 =? 10 then let! n := load (s1 + 1) in ret ((n =? 0) && (c2 =? 0))
    else ret false.

Definition sysfs_streq (s1 s2 : Z) : M mem bool :=
  let! (s1, s2) := mloop streq_round (s1, s2) in streq_end s1 s2.

Definition memcmp (cs ct count : Z) : M mem Z :=
  loop (S (Z.to_nat count))
    (fun '(su1, su2, count) =>
       if 0 <? count then
         let! c1 := load su1 in
         let! c2 := load su2 in
         let res := c1 - c2 in
         if negb (res =? 0) then ret (inr res) else ret (inl (su1 + 1, su2 + 1, count - 1))
       else ret (inr 0))
    (cs, ct, count).

(** ** Lengths and searches *)

Definition strlen (s : Z) : M mem Z :=
  mloop (fun sc => let! c := load sc in if c =? 0 then ret (inr (sc - s)) else ret (inl (sc + 1))) s.

Definition strnlen (s count : Z) : M mem Z :=
  loop (S (Z.to_nat count))
    (fun '(sc, count) =>
       if count =? 0 then ret (inr (sc - s))
       else let! c := load sc in if c =? 0 then ret (inr (sc - s)) else ret (inl (sc + 1, count - 1)))
    (s, count).

Definition strchr (s c : Z) : M mem (option Z) :=
  mloop
    (fun s => let! b := load s in
       if b =? u8 c then ret (inr (Some s))
       else if b =? 0 then ret (inr None) else ret (inl (s + 1))) s.

Definition strrchr (s c : Z) : M mem (option Z) :=
  let! n := strlen s in
  loop (S (Z.to_nat n))
    (fun p => let! b := load p in
       if b =? u8 c then ret (inr (Some p))
       else if s <=? p - 1 then ret (inl (p - 1)) else ret (inr None)) (s + n).

Definition strnchr (s count c : Z) : M mem (option Z) :=
  loop (S (Z.to_nat count))
    (fun '(s, count) =>
       if count =? 0 then ret (inr None)
       else
         let! b := load s in
         if b =? 0 then ret (inr None)
         else if b =? u8 c then ret (inr (Some s)) else ret (inl (s + 1, count - 1)))
    (s, count).

(** Whether the byte [b] is one of the string at [a]: the inner loops of
    [strspn], [strcspn] and [strpbrk]. *)
Definition char_in (b a : Z) : M mem bool :=
  mloop
    (fun a => let! c := load a in
       if c =? 0 then ret (inr false) else if b =? c then ret (inr true) else ret (inl (a + 1))) a.

Definition strspn (s accept : Z) : M mem Z :=
  mloop
    (fun '(p, count) => let! b := load p in
       if b =? 0 then ret (inr count)
       else
         let! i := char_in b accept in
         if negb i then ret (inr count) else ret (inl (p + 1, count + 1)))
    (s, 0).

Definition strcspn (s reject : Z) : M mem Z :=
  mloop
    (fun '(p, count) => let! b := load p in
       if b =? 0 then ret (inr count)
       else
         let! i := char_in b reject in
         if (i : bool) then ret (inr count) else ret (inl (p + 1, count + 1)))
    (s, 0).

Definition strpbrk (cs ct : Z) : M mem (option Z) :=
  mloop
    (fun sc1 => let! b := load sc1 in
       if b =? 0 then ret (inr None)
       else
         let! i := char_in b ct in
         if (i : bool) then ret (inr (Some sc1)) else ret (inl (sc1 + 1)))
    cs.

Definition memscan (addr c size : Z) : M mem Z :=
  loop (S (Z.to_nat size))
    (fun '(p, size) =>
       if size =? 0 then ret (inr p)
       else let! b := load p in if b =? c then ret (inr p) else ret (inl (p + 1, size - 1)))
    (addr, size).

Definition memchr (s c n : Z) : M mem (option Z) :=
  loop (S (Z.to_nat n))
    (fun '(p, n) =>
       if n =? 0 then ret (inr None)
       else let! b := load p in if u8 c =? b then ret (inr (Some p)) else ret (inl (p + 1, n - 1)))
    (s, n).

Definition strstr (s1 s2 : Z) : M mem (option Z) :=
  let! l2 := strlen s2 in
  let l2 := s32 l2 in
  if l2 =? 0 then ret (Some s1)
  else
    let! l1 := strlen s1 in
    let l1 := s32 l1 in
    loop (S (S (Z.to_nat l1)))
      (fun '(s1, l1) =>
         if l2 <=? l1 then
           let! r := memcmp s1 s2 l2 in
           if r =? 0 then ret (inr (Some s1)) else ret (inl (s1 + 1, l1 - 1))
         else ret (inr None))
      (s1, l1).

(** ** Copies *)

Definition memset (s c count : Z) : M mem Z :=
  loop (S (Z.to_nat count))
    (fun '(xs, count) =>
       if count =? 0 then ret (inr s) else storeb xs (u8 c) ;;; ret (inl (xs + 1, count - 1)))
    (s, count).

Definition memcpy (dest src count : Z) : M mem Z :=
  loop (S (Z.to_nat count))
    (fun '(tmp, s, count) =>
       if count =? 0 then ret (inr dest)
       else let! b := load s in storeb tmp b ;;; ret (inl (tmp + 1, s + 1, count - 1)))
    (dest, src, count).

Definition memmove (dest src count : Z) : M mem Z :=
  if dest <=? src then
    loop (S (Z.to_nat count))
      (fun '(tmp, s, count) =>
         if count =? 0 then ret (inr dest)
         else let! b := load s in storeb tmp b ;;; ret (inl (tmp + 1, s + 1, count - 1)))
      (dest, src, count)
  else
    loop (S (Z.to_nat count))
      (fun '(tmp, s, count) =>
         if count =? 0 then ret (inr dest)
         else let! b := load (s - 1) in storeb (tmp - 1) b ;;; ret (inl (tmp - 1, s - 1, count - 1)))
      (dest + count, src + count, count).

(** The loop of [strcpy] and [strcat] that copies up to the terminator. *)
Definition copy_string (dest src : Z) : M mem unit :=
  mloop
    (fun '(dest, src) =>
       let! b := load src in
       storeb dest b ;;;
       if b =? 0 then ret (inr tt) else ret (inl (dest + 1, src + 1)))
    (dest, src).

Definition strcpy (dest src : Z) : M mem Z := copy_string dest src ;;; ret dest.

Definition strncpy (dest src count : Z) : M mem Z :=
  loop (S (Z.to_nat count))
    (fun '(tmp, src, count) =>
       if count =? 0 then ret (inr dest)
       else
         let! b := load src in
         storeb tmp b ;;;
         ret (inl (tmp + 1, (if negb (b =? 0) then src + 1 else src), count - 1)))
    (dest, src, count).

Definition strlcpy (dest src size : Z) : M mem Z :=
  let! r := strlen src in
  (if negb (size =? 0) then
     let len := if size <=? r then size - 1 else r in
     memcpy dest src len ;;; storeb (dest + len) 0
   else ret tt) ;;;
  ret r.

(** The loop of [strcat] and [strncat] that finds the end of [dest]. *)
Definition string_end (dest : Z) : M mem Z :=
  mloop (fun d => let! b := load d in if b =? 0 then ret (inr d) else ret (inl (d + 1))) dest.

Definition strcat (dest src : Z) : M mem Z :=
  let! d := string_end dest in
  copy_string d src ;;; ret dest.

Definition strncat (dest src count : Z) : M mem Z :=
  (if negb (count =? 0) then
     let! d := string_end dest in
     loop (S (Z.to_nat count))
       (fun '(d, src, count) =>
          let! b := load src in
          storeb d b ;;;
          if b =? 0 then ret (inr tt)
          else if count - 1 =? 0 then storeb (d + 1) 0 ;;; ret (inr tt)
          else ret (inl (d + 1, src + 1, count - 1)))
       (d, src, count)
   else ret tt) ;;;
  ret dest.

(** [BUG_ON] ends in an oops. *)
Definition strlcat (dest src count : Z) : M mem Z :=
  let! dsize := strlen dest in
  let! len := strlen src in
  let res := dsize + len in
  if count <=? dsize then throw Oops
  else
    let dest := dest + dsize in
    let count := count - dsize in
    let len := if count <=? len then count - 1 else len in
    memcpy dest src len ;;; storeb (dest + len) 0 ;;; ret res.

Definition strstrip (s : Z) : M mem Z :=
  let! size := strlen s in
  if size =? 0 then ret s
  else
    let! e :=
      loop (S (Z.to_nat size))
        (fun e =>
           if s <=? e then
             let! b := load e in if isspace b then ret (inl (e - 1)) else ret (inr e)
           else ret (inr e)) (s + size - 1) in
    storeb (e + 1) 0 ;;;
    mloop
      (fun s => let! b := load s in
         if negb (b =? 0) && isspace b then ret (inl (s + 1)) else ret (inr s)) s.

(** [*s] is passed in and its new value returned beside the token. *)
Definition strsep (s : option Z) (ct : Z) : M mem (option Z * option Z) :=
  match s with
  | None => ret (None, s)
  | Some sbegin =>
      let! e := strpbrk sbegin ct in
      match e with
      | Some e => storeb e 0 ;;; ret (Some sbegin, Some (e + 1))
      | None => ret (Some sbegin, None)
      end
  end.

(** ** Strings and areas in memory *)

(** A terminated string [l] at [s]; bytes [l] at [s]. *)
Fixpoint str (m : mem) (s : Z) (l : list Z) : Prop :=
  match l with
  | [] => m !! s = Some 0
  | b :: l' => m !! s = Some b /\ 0 < b < 256 /\ str m (s + 1) l'
  end.
Fixpoint area (m : mem) (s : Z) (l : list Z) : Prop :=
  match l with [] => True | b :: l' => m !! s = Some b /\ area m (s + 1) l' end.

Lemma str_delete m s l a : str m s l -> a < s -> str (delete a m) s l.
Proof.
  revert s. induction l as [|b l IH]; intros s; simpl.
  - intros H Ha. by rewrite lookup_delete_ne by lia.
  - intros (Hb & Hr & Hl) Ha. rewrite lookup_delete_ne by lia. split; [done|]. split; [done|]. apply IH; [done|lia].
Qed.

Lemma str_size m s l : str m s l -> (length l < size m)%nat.
Proof.
  revert m s. induction l as [|b l IH]; intros m s; simpl.
  - intros H. apply Nat.neq_0_lt_0. intros E. apply map_size_empty_inv in E. by subst.
  - intros (Hb & _ & Hl). apply (str_delete _ _ _ s) in Hl; [|lia]. apply IH in Hl.
    rewrite map_size_delete_Some in Hl by eauto. lia.
Qed.

Lemma str_area m s l : str m s l -> area m s (l ++ [0]).
Proof. revert s. induction l as [|b l IH]; intros s; simpl; [done|]. naive_solver. Qed.

Lemma area_lookup m s l i : area m s l -> (i < length l)%nat -> m !! (s + Z.of_nat i) = l !! i.
Proof.
  revert s i. induction l as [|b l IH]; intros s i; simpl; [lia|]. intros [Hb Hl] Hi.
  destruct i as [|i]; simpl; [by rewrite Z.add_0_r|]. rewrite <-(IH (s + 1)) by (done || lia). f_equal. lia.
Qed.

Lemma load_ok m a b : m !! a = Some b -> load a m = Ok (b, m).
Proof. apply deref_ok. Qed.

Section Loops.
  Context {S L R : Type} (body : L -> M S (L + R)).

Lemma loop_inl n l s l' s' : body l s = Ok (inl l', s') -> loop (Datatypes.S n) body l s = loop n body l' s'.
Proof. intros H. simpl. by rewrite (bind_ok _ _ _ _ _ H). Qed.

Lemma loop_inr n l s r s' : body l s = Ok (inr r, s') -> loop (Datatypes.S n) body l s = Ok (r, s').
Proof. intros H. simpl. by rewrite (bind_ok _ _ _ _ _ H). Qed.
End Loops.

Lemma eqb_byte_0 b : 0 < b < 256 -> (b =? 0) = false.
Proof. intros. apply Z.eqb_neq. lia. Qed.

(** *** Scans *)

(** The first element that satisfies [P], with its position. *)
Fixpoint first {A} (P : A -> bool) (l : list A) : option (nat * A) :=
  match l with
  | [] => None
  | a :: l' => if P a then Some (O, a) else prod_map S id <$> first P l'
  end.

Lemma first_Some {A} (P : A -> bool) l i a :
  first P l = Some (i, a) <->
  l !! i = Some a /\ P a = true /\ forall j b, (j < i)%nat -> l !! j = Some b -> P b = false.
Proof.
  revert i. induction l as [|x l IH]; intros i; simpl; [naive_solver|].
  destruct (P x) eqn:Ex.
  - split; [intros [= <- <-]; split_and!; [done|done|lia]|].
    intros (Hi & Ha & Hj). destruct i as [|i]; [naive_solver|]. specialize (Hj O x ltac:(lia) eq_refl). congruence.
  - destruct i as [|i]; split.
    + by destruct (first P l) as [[]|].
    + intros (Hi & Ha & _). simpl in Hi. congruence.
    + destruct (first P l) as [[i' a']|]; [|done]. simpl. intros [= <- <-].
      destruct (proj1 (IH i') eq_refl) as (H1 & H2 & H3). split_and!; [done|done|].
      intros [|j] b Hj Hb; [naive_solver|]. apply (H3 j); [lia|done].
    + intros (Hi & Ha & Hj). rewrite (proj2 (IH i)); [done|]. split_and!; [done|done|].
      intros j b Hji Hb. apply (Hj (S j)); [lia|done].
Qed.

Lemma first_None {A} (P : A -> bool) l :
  first P l = None <-> forall a, a ∈ l -> P a = false.
Proof.
  induction l as [|x l IH]; simpl; [split; [by intros _ a Ha%elem_of_nil|done]|].
  destruct (P x) eqn:Ex; split.
  - done.
  - intros H. rewrite (H x) in Ex by left. done.
  - intros H. destruct (first P l) as [[]|] eqn:Ef; [done|]. intros a [->|Ha]%elem_of_cons; [done|].
    by apply IH.
  - intros H. rewrite (proj2 IH); [done|]. intros a Ha. apply H. by right.
Qed.

(** A loop that goes through a list until an element makes it leave: [st i]
    are the local variables at element [i]. *)
Lemma scan_loop {A L R} (body : L -> M mem (L + R)) m (st : nat -> L) (P : A -> bool) (h : nat -> A -> R) g l n :
  (length l < n)%nat ->
  (forall i a, l !! i = Some a ->
    body (st i) m = Ok (if P a then inr (h i a) else inl (st (S i)), m)) ->
  (first P l = None -> body (st (length l)) m = Ok (inr g, m)) ->
  loop n body (st O) m = Ok (match first P l with Some (i, a) => h i a | None => g end, m).
Proof.
  revert st h n. induction l as [|x l IH]; intros st h [|n] Hn Hb H0; simpl in Hn; try lia.
  - apply loop_inr. by apply H0.
  - specialize (Hb O x eq_refl) as Hx. simpl first in *. destruct (P x) eqn:Ex.
    + by apply loop_inr.
    + rewrite (loop_inl _ _ _ _ _ _ Hx).
      rewrite (IH (fun i => st (S i)) (fun i => h (S i)) n); [|lia| |].
      * by destruct (first P l) as [[]|].
      * intros i a Hi. apply (Hb (S i)). done.
      * intros E. rewrite E in H0. by apply H0.
Qed.

(** The bytes of a string, the terminator included, in order. *)
Lemma str_lookup m s l i b :
  str m s l -> l !! i = Some b -> m !! (s + Z.of_nat i) = Some b /\ 0 < b < 256.
Proof.
  revert s i. induction l as [|x l IH]; intros s i; simpl; [done|]. intros (Hb & Hr & Hl).
  destruct i as [|i]; simpl; [rewrite Z.add_0_r; naive_solver|]. intros Hi.
  destruct (IH (s + 1) i Hl Hi) as [H1 H2]. split; [|done]. rewrite <-H1. f_equal. lia.
Qed.

Lemma str_end m s l : str m s l -> m !! (s + Z.of_nat (length l)) = Some 0.
Proof.
  revert s. induction l as [|x l IH]; intros s; simpl; [by rewrite Z.add_0_r|]. intros (_ & _ & Hl).
  rewrite <-(IH (s + 1) Hl). f_equal. lia.
Qed.

Lemma mloop_str {L R} (body : L -> M mem (L + R)) m (st : nat -> L) (P : Z -> bool) (h : nat -> Z -> R) g l0 s l :
  str m s l -> l0 = st O ->
  (forall i b, 0 < b < 256 -> m !! (s + Z.of_nat i) = Some b ->
    body (st i) m = Ok (if P b then inr (h i b) else inl (st (S i)), m)) ->
  (m !! (s + Z.of_nat (length l)) = Some 0 -> body (st (length l)) m = Ok (inr g, m)) ->
  mloop body l0 m = Ok (match first P l with Some (i, b) => h i b | None => g end, m).
Proof.
  intros Hs -> Hb H0. apply scan_loop.
  - apply str_size in Hs. lia.
  - intros i b Hi. destruct (str_lookup _ _ _ _ _ Hs Hi). auto.
  - intros _. apply H0. by apply str_end.
Qed.

Lemma inl_eq {L R} (a b : L) (m : mem) : a = b -> Ok (inl a : L + R, m) = Ok (inl b, m).
Proof. by intros ->. Qed.
Lemma inr_eq {L R} (a b : R) (m : mem) : a = b -> Ok (inr a : L + R, m) = Ok (inr b, m).
Proof. by intros ->. Qed.

(** One round of a scan: perform the loads, decide the branches, compare the
    local variables. *)
Ltac one_round :=
  intros; cbv beta iota zeta; unfold bind, ret;
  repeat first
    [ erewrite load_ok by eassumption; cbv beta iota
    | rewrite eqb_byte_0 by assumption; cbn [negb andb]; cbv iota
    | match goal with |- context [isspace ?b] => destruct (isspace b) eqn:?; cbn [negb andb] in * end;
      try (exfalso; congruence)
    | match goal with |- context [if ?b then _ else _] => destruct b eqn:? end; try (exfalso; first [congruence | lia]) ];
  (apply inl_eq || apply inr_eq); repeat (apply pair_equal_spec; split); (lia || (f_equal; lia) || done).

Lemma first_false {A} (l : list A) : first (fun _ => false) l = None.
Proof. by apply first_None. Qed.

Lemma strlen_ok m s l : str m s l -> strlen s m = Ok (Z.of_nat (length l), m).
Proof.
  intros Hs. unfold strlen.
  rewrite (mloop_str _ m (fun i => s + Z.of_nat i) (fun _ => false) (fun _ _ => 0)
    (Z.of_nat (length l)) s s l Hs) by (lia || one_round).
  by rewrite first_false.
Qed.

Lemma string_end_ok m s l : str m s l -> string_end s m = Ok (s + Z.of_nat (length l), m).
Proof.
  intros Hs. unfold string_end.
  rewrite (mloop_str _ m (fun i => s + Z.of_nat i) (fun _ => false) (fun _ _ => 0)
    (s + Z.of_nat (length l)) s s l Hs) by (lia || one_round).
  by rewrite first_false.
Qed.

(** An address found in a string or area at [s]. *)
Definition found (s : Z) (r : option (nat * Z)) : option Z := (fun x => s + Z.of_nat x.1) <$> r.

Lemma char_in_ok m a l b : str m a l -> char_in b a m = Ok (bool_decide (b ∈ l), m).
Proof.
  intros Hs. unfold char_in.
  rewrite (mloop_str _ m (fun i => a + Z.of_nat i) (fun c => b =? c) (fun _ _ => true) false a a l Hs)
    by (lia || one_round).
  f_equal. f_equal. destruct (first _ l) as [[i c]|] eqn:E.
  - apply first_Some in E as (Hi & Hc%Z.eqb_eq & _). subst. rewrite bool_decide_true; [done|].
    by eapply list_elem_of_lookup_2.
  - rewrite bool_decide_false; [done|]. intros Hb. rewrite first_None in E.
    specialize (E b Hb). rewrite Z.eqb_refl in E. done.
Qed.

Lemma first_app {A} (P : A -> bool) l1 l2 :
  first P (l1 ++ l2) =
  match first P l1 with
  | Some r => Some r
  | None => prod_map (Nat.add (length l1)) id <$> first P l2
  end.
Proof.
  induction l1 as [|x l1 IH]; simpl; [by destruct (first P l2) as [[]|]|].
  destruct (P x); [done|]. rewrite IH. destruct (first P l1) as [[]|]; [done|].
  by destruct (first P l2) as [[]|].
Qed.

Lemma strchr_ok m s l c :
  str m s l -> strchr s c m = Ok (found s (first (fun b => b =? u8 c) (l ++ [0])), m).
Proof.
  intros Hs. unfold strchr.
  rewrite (mloop_str _ m (fun i => s + Z.of_nat i) (fun b => b =? u8 c)
    (fun i _ => Some (s + Z.of_nat i)) (if 0 =? u8 c then Some (s + Z.of_nat (length l)) else None) s s l Hs)
    by (lia || one_round).
  rewrite first_app. destruct (first _ l) as [[]|]; [done|]. cbn [first]. destruct (0 =? u8 c); [|done].
  cbn. unfold found. cbn. by rewrite Nat.add_0_r.
Qed.

(** Loops with a counter, over [count] bytes of an area. *)
Lemma area_loop {L R} (body : L -> M mem (L + R)) m (st : nat -> L) (P : Z -> bool) (h : nat -> Z -> R) g l0 s l n :
  area m s l -> l0 = st O -> n = S (length l) ->
  (forall i b, (i < length l)%nat -> m !! (s + Z.of_nat i) = Some b ->
    body (st i) m = Ok (if P b then inr (h i b) else inl (st (S i)), m)) ->
  body (st (length l)) m = Ok (inr g, m) ->
  loop n body l0 m = Ok (match first P l with Some (i, b) => h i b | None => g end, m).
Proof.
  intros Ha -> -> Hb H0. apply scan_loop; [lia| |done].
  intros i b Hi. apply Hb; [by eapply lookup_lt_Some|].
  rewrite (area_lookup _ _ _ _ Ha); [done|]. by eapply lookup_lt_Some.
Qed.

Lemma memscan_ok m s l c :
  area m s l ->
  memscan s c (Z.of_nat (length l)) m =
  Ok (default (s + Z.of_nat (length l)) (found s (first (fun b => b =? c) l)), m).
Proof.
  intros Ha. unfold memscan.
  rewrite (area_loop _ m (fun i => (s + Z.of_nat i, Z.of_nat (length l) - Z.of_nat i)) (fun b => b =? c)
    (fun i _ => s + Z.of_nat i) (s + Z.of_nat (length l)) _ s l _ Ha); [| |lia|one_round|one_round].
  - by destruct (first _ l) as [[]|].
  - f_equal; lia.
Qed.

Lemma memchr_ok m s l c :
  area m s l ->
  memchr s c (Z.of_nat (length l)) m = Ok (found s (first (fun b => u8 c =? b) l), m).
Proof.
  intros Ha. unfold memchr.
  rewrite (area_loop _ m (fun i => (s + Z.of_nat i, Z.of_nat (length l) - Z.of_nat i)) (fun b => u8 c =? b)
    (fun i _ => Some (s + Z.of_nat i)) None _ s l _ Ha); [| |lia|one_round|one_round].
  - by destruct (first _ l) as [[]|].
  - f_equal; lia.
Qed.

(** Loops with a counter, over a string. *)
Lemma nstr_loop {L R} (body : L -> M mem (L + R)) m (st : nat -> L) (P : Z -> bool) (h : nat -> Z -> R) g l0 s l count :
  str m s l -> 0 <= count -> l0 = st O ->
  (forall i b, Z.of_nat i < count -> 0 < b < 256 -> m !! (s + Z.of_nat i) = Some b ->
    body (st i) m = Ok (if P b then inr (h i b) else inl (st (S i)), m)) ->
  (forall i, Z.of_nat i = Z.min count (Z.of_nat (length l)) -> m !! (s + Z.of_nat i) = Some 0 \/ Z.of_nat i = count ->
    body (st i) m = Ok (inr g, m)) ->
  loop (S (Z.to_nat count)) body l0 m =
  Ok (match first P (take (Z.to_nat count) l) with Some (i, b) => h i b | None => g end, m).
Proof.
  intros Hs Hc -> Hb H0. apply scan_loop.
  - rewrite length_take. lia.
  - intros i b [Hi Hlt]%lookup_take_Some. destruct (str_lookup _ _ _ _ _ Hs Hi). apply Hb; try done. lia.
  - intros _. rewrite length_take. apply H0; [lia|].
    destruct (Z.le_gt_cases count (Z.of_nat (length l))); [right; lia|left].
    rewrite Nat.min_r by lia. by apply str_end.
Qed.

Ltac end_round := intros ?i ?Hmin [?|?]; one_round.

Lemma strnlen_ok m s l count :
  str m s l -> 0 <= count -> strnlen s count m = Ok (Z.min count (Z.of_nat (length l)), m).
Proof.
  intros Hs Hc. unfold strnlen.
  rewrite (nstr_loop _ m (fun i => (s + Z.of_nat i, count - Z.of_nat i)) (fun _ => false) (fun _ _ => 0)
    (Z.min count (Z.of_nat (length l))) _ s l count Hs Hc).
  - by rewrite first_false.
  - f_equal; lia.
  - one_round.
  - end_round.
Qed.

Lemma strnchr_ok m s l count c :
  str m s l -> 0 <= count ->
  strnchr s count c m = Ok (found s (first (fun b => b =? u8 c) (take (Z.to_nat count) l)), m).
Proof.
  intros Hs Hc. unfold strnchr.
  rewrite (nstr_loop _ m (fun i => (s + Z.of_nat i, count - Z.of_nat i)) (fun b => b =? u8 c)
    (fun i _ => Some (s + Z.of_nat i)) None _ s l count Hs Hc).
  - by destruct (first _ _) as [[]|].
  - f_equal; lia.
  - one_round.
  - end_round.
Qed.

(** [strspn], [strcspn], [strpbrk]: the set is the string [k] at [a]. *)
Definition prefix_len (P : Z -> bool) (l : list Z) : nat :=
  match first P l with Some (i, _) => i | None => length l end.

Ltac set_round Ha := intros; unfold bind; erewrite load_ok by eassumption; cbv beta iota;
  rewrite ?eqb_byte_0 by assumption; rewrite ?(char_in_ok _ _ _ _ Ha); try one_round.

Lemma strspn_ok m s l a k :
  str m s l -> str m a k ->
  strspn s a m = Ok (Z.of_nat (prefix_len (fun b => negb (bool_decide (b ∈ k))) l), m).
Proof.
  intros Hs Ha. unfold strspn.
  rewrite (mloop_str _ m (fun i => (s + Z.of_nat i, Z.of_nat i)) (fun b => negb (bool_decide (b ∈ k)))
    (fun i _ => Z.of_nat i) (Z.of_nat (length l)) _ s l Hs); [|f_equal; lia|set_round Ha|set_round Ha].
  unfold prefix_len. by destruct (first _ l) as [[]|].
Qed.

Lemma strcspn_ok m s l a k :
  str m s l -> str m a k ->
  strcspn s a m = Ok (Z.of_nat (prefix_len (fun b => bool_decide (b ∈ k)) l), m).
Proof.
  intros Hs Ha. unfold strcspn.
  rewrite (mloop_str _ m (fun i => (s + Z.of_nat i, Z.of_nat i)) (fun b => bool_decide (b ∈ k))
    (fun i _ => Z.of_nat i) (Z.of_nat (length l)) _ s l Hs); [|f_equal; lia|set_round Ha|set_round Ha].
  unfold prefix_len. by destruct (first _ l) as [[]|].
Qed.

Lemma strpbrk_ok m s l a k :
  str m s l -> str m a k ->
  strpbrk s a m = Ok (found s (first (fun b => bool_decide (b ∈ k)) l), m).
Proof.
  intros Hs Ha. unfold strpbrk.
  rewrite (mloop_str _ m (fun i => s + Z.of_nat i) (fun b => bool_decide (b ∈ k))
    (fun i _ => Some (s + Z.of_nat i)) None _ s l Hs); [|lia|set_round Ha|set_round Ha].
  by destruct (first _ l) as [[]|].
Qed.

(** [strrchr] looks at the bytes from the terminator down. *)
Lemma strrchr_ok m s l c :
  str m s l ->
  strrchr s c m =
  Ok ((fun x => s + (Z.of_nat (length l) - Z.of_nat x.1)) <$> first (fun b => b =? u8 c) (rev (l ++ [0])), m).
Proof.
  intros Hs. unfold strrchr. rewrite (bind_ok _ _ _ _ _ (strlen_ok _ _ _ Hs)).
  pose proof (str_area _ _ _ Hs) as Ha. destruct (l ++ [0]) as [|x t] eqn:Et; [by destruct l|].
  assert (Hlen : length l = length t).
  { apply (f_equal length) in Et. rewrite length_app in Et. simpl in Et. lia. }
  assert (Hm : forall i, (i <= length l)%nat -> m !! (s + Z.of_nat i) = (x :: t) !! i).
  { intros i Hi. apply area_lookup; [done|]. simpl. lia. }
  rewrite Nat2Z.id. replace (s + Z.of_nat (length l)) with (s + (Z.of_nat (length l) - Z.of_nat 0)) at 1 by lia.
  rewrite (scan_loop _ m (fun i => s + (Z.of_nat (length l) - Z.of_nat i)) (fun b => b =? u8 c)
    (fun i _ => Some (s + (Z.of_nat (length l) - Z.of_nat i))) (if x =? u8 c then Some s else None) (rev t)).
  - cbn [rev]. rewrite first_app, length_rev, <-Hlen. destruct (first _ (rev t)) as [[]|]; [done|].
    cbn [first]. destruct (x =? u8 c); [|done]. cbn. repeat f_equal. lia.
  - rewrite length_rev. lia.
  - intros i b Hi. pose proof (lookup_lt_Some _ _ _ Hi) as Hlt. rewrite length_rev in Hlt.
    assert (Hb : m !! (s + (Z.of_nat (length l) - Z.of_nat i)) = Some b).
    { replace (Z.of_nat (length l) - Z.of_nat i) with (Z.of_nat (S (length t - S i))) by lia.
      rewrite Hm by lia. rewrite rev_alt in Hi. by apply reverse_lookup_Some in Hi as [Hi _]. }
    one_round.
  - intros _. rewrite length_rev, <-Hlen.
    assert (Hb : m !! (s + (Z.of_nat (length l) - Z.of_nat (length l))) = Some x).
    { rewrite Z.sub_diag. exact (Hm O ltac:(lia)). }
    one_round.
Qed.

(** *** Two strings side by side *)

Definition pairs (l1 l2 : list Z) : list (Z * Z) := zip (l1 ++ [0]) (l2 ++ [0]).

Abbreviation byte_list := (Forall (fun b => 0 < b < 256)).

Lemma str_bytes m s l : str m s l -> byte_list l.
Proof. revert s. induction l; intros s; simpl; [constructor|]. intros (_ & ? & ?). constructor; eauto. Qed.

Lemma pairs_lookup m s1 s2 l1 l2 i c1 c2 :
  str m s1 l1 -> str m s2 l2 -> pairs l1 l2 !! i = Some (c1, c2) ->
  m !! (s1 + Z.of_nat i) = Some c1 /\ m !! (s2 + Z.of_nat i) = Some c2.
Proof.
  intros H1%str_area H2%str_area Hi. unfold pairs in Hi. apply lookup_zip_Some in Hi as [Hi1 Hi2].
  rewrite (area_lookup _ _ _ _ H1), (area_lookup _ _ _ _ H2) by (by eapply lookup_lt_Some). done.
Qed.

(** The loop ends at the shorter string's terminator at the latest. *)
Lemma pairs_first (P : Z * Z -> bool) l1 l2 :
  byte_list l1 -> byte_list l2 ->
  (forall c, P (0, c) = true) -> (forall c, 0 < c < 256 -> P (c, 0) = true) -> first P (pairs l1 l2) <> None.
Proof.
  intros H1 H2 P1 P2. unfold pairs. revert l2 H2. induction H1 as [|x l1 Hx H1 IH]; intros [|y l2] H2; simpl.
  - by rewrite P1.
  - by rewrite P1.
  - by rewrite P2.
  - destruct (P (x, y)); [done|]. specialize (IH l2 ltac:(by inversion H2)).
    by destruct (first P _) as [[]|].
Qed.

Section Compare.
  Context {L : Type} (body : L -> M mem (L + Z)) (m : mem) (st : nat -> L) (P : Z * Z -> bool)
    (h : Z * Z -> Z) (l0 : L) (s1 s2 : Z) (l1 l2 : list Z).
  Hypothesis H1 : str m s1 l1.
  Hypothesis H2 : str m s2 l2.
  Hypothesis HP1 : forall c, P (0, c) = true.
  Hypothesis HP2 : forall c, 0 < c < 256 -> P (c, 0) = true.
  Hypothesis Hl0 : l0 = st O.

(** Without a counter. *)
Lemma mloop_strs :
  (forall i c1 c2, m !! (s1 + Z.of_nat i) = Some c1 -> m !! (s2 + Z.of_nat i) = Some c2 ->
    body (st i) m = Ok (if P (c1, c2) then inr (h (c1, c2)) else inl (st (S i)), m)) ->
  mloop body l0 m = Ok (match first P (pairs l1 l2) with Some (_, c) => h c | None => 0 end, m).
Proof.
  intros Hb. rewrite Hl0. unfold mloop, bind, gets.
  rewrite (scan_loop body m st P (fun _ => h) 0 (pairs l1 l2)); [done| | |].
  - unfold pairs. rewrite length_zip_with, !length_app. pose proof (str_size _ _ _ H1). simpl. lia.
  - intros i [c1 c2] Hi. destruct (pairs_lookup _ _ _ _ _ _ _ _ H1 H2 Hi). auto.
  - intros E. exfalso. revert E. apply pairs_first; eauto using str_bytes.
Qed.

(** With a counter. *)
Lemma loop_strs n g :
  (forall i c1 c2, (i < n)%nat -> m !! (s1 + Z.of_nat i) = Some c1 -> m !! (s2 + Z.of_nat i) = Some c2 ->
    body (st i) m = Ok (if P (c1, c2) then inr (h (c1, c2)) else inl (st (S i)), m)) ->
  body (st n) m = Ok (inr g, m) ->
  loop (S n) body l0 m = Ok (match first P (take n (pairs l1 l2)) with Some (_, c) => h c | None => g end, m).
Proof.
  intros Hb H0. rewrite Hl0.
  rewrite (scan_loop body m st P (fun _ => h) g (take n (pairs l1 l2))); [done| | |].
  - rewrite length_take. lia.
  - intros i [c1 c2] [Hi Hn]%lookup_take_Some. destruct (pairs_lookup _ _ _ _ _ _ _ _ H1 H2 Hi). auto.
  - intros E. rewrite length_take. destruct (Nat.le_gt_cases n (length (pairs l1 l2))).
    + by rewrite Nat.min_l.
    + exfalso. rewrite take_ge in E by lia. revert E. apply pairs_first; eauto using str_bytes.
Qed.
End Compare.

(** The order of strings: the first byte in which they differ decides. *)
Fixpoint lex (l1 l2 : list Z) : Z :=
  match l1, l2 with
  | [], [] => 0
  | [], _ => -1
  | _, [] => 1
  | x :: l1, y :: l2 => if x =? y then lex l1 l2 else if x <? y then -1 else 1
  end.

Lemma lex_0 l1 l2 : lex l1 l2 = 0 <-> l1 = l2.
Proof.
  revert l2. induction l1 as [|x l1 IH]; intros [|y l2]; simpl; try done.
  destruct (Z.eqb_spec x y) as [->|]; [rewrite IH; naive_solver|]. destruct (x <? y); naive_solver.
Qed.

Lemma lex_antisym l1 l2 : lex l2 l1 = - lex l1 l2.
Proof.
  revert l2. induction l1 as [|x l1 IH]; intros [|y l2]; simpl; try done.
  rewrite Z.eqb_sym. destruct (Z.eqb_spec x y); [done|].
  destruct (Z.ltb_spec x y), (Z.ltb_spec y x); try lia; done.
Qed.

Definition stop : Z * Z -> bool := fun '(c1, c2) => negb (c1 =? c2) || (c1 =? 0).
Definition order : Z * Z -> Z := fun '(c1, c2) => if negb (c1 =? c2) then if c1 <? c2 then -1 else 1 else 0.

Lemma stop_0 c : stop (0, c) = true.
Proof. unfold stop. lia. Qed.
Lemma stop_byte c : 0 < c < 256 -> stop (c, 0) = true.
Proof. unfold stop. lia. Qed.

Lemma first_lex n l1 l2 :
  byte_list l1 -> byte_list l2 ->
  match first stop (take n (pairs l1 l2)) with Some (_, c) => order c | None => 0 end =
  lex (take n l1) (take n l2).
Proof.
  intros H1. unfold pairs. revert n l2. induction H1 as [|x l1 Hx H1 IH]; intros [|n] [|y l2] H2; try done; simpl.
  - inversion H2; subst. destruct y as [|p|p]; [lia|by rewrite ?take_nil|lia].
  - destruct x as [|p|p]; [lia|done|lia].
  - inversion H2; subst. destruct (Z.eqb_spec x y) as [->|Hne]; simpl.
    + rewrite eqb_byte_0 by done. rewrite <-IH by done. by destruct (first stop _) as [[]|].
    + rewrite (proj2 (Z.eqb_neq x y)) by done. done.
Qed.

Lemma strcmp_ok m s1 s2 l1 l2 :
  str m s1 l1 -> str m s2 l2 -> strcmp s1 s2 m = Ok (lex l1 l2, m).
Proof.
  intros H1 H2. unfold strcmp.
  rewrite (mloop_strs _ m (fun i => (s1 + Z.of_nat i, s2 + Z.of_nat i)) stop order _ s1 s2 l1 l2 H1 H2
    stop_0 stop_byte); [|f_equal; lia|unfold stop, order; one_round].
  rewrite <-(take_ge (pairs l1 l2) (S (length l1 + length l2)))
    by (unfold pairs; rewrite length_zip_with, !length_app; simpl; lia).
  rewrite first_lex by eauto using str_bytes. by rewrite !take_ge by lia.
Qed.

Lemma strncmp_ok m s1 s2 l1 l2 n :
  str m s1 l1 -> str m s2 l2 -> 0 <= n ->
  strncmp s1 s2 n m = Ok (lex (take (Z.to_nat n) l1) (take (Z.to_nat n) l2), m).
Proof.
  intros H1 H2 Hn. unfold strncmp.
  rewrite (loop_strs _ m (fun i => (s1 + Z.of_nat i, s2 + Z.of_nat i, n - Z.of_nat i)) stop order _ s1 s2
    l1 l2 H1 H2 stop_0 stop_byte) with (g := 0);
    [|repeat f_equal; lia|unfold stop, order; one_round|rewrite Z2Nat.id by done; one_round].
  by rewrite first_lex by eauto using str_bytes.
Qed.

(** *** Comparisons that ignore case *)

Abbreviation lower := (map __tolower).

Lemma byte_cases (P : Z -> bool) :
  forallb (fun n => P (Z.of_nat n)) (seq 0 256) = true -> forall c, 0 <= c < 256 -> P c = true.
Proof.
  intros H c Hc. rewrite forallb_forall in H. specialize (H (Z.to_nat c)).
  rewrite Z2Nat.id in H by lia. apply H, in_seq. lia.
Qed.

Lemma tolower_range c : 0 < c < 256 -> 0 < __tolower c < 256.
Proof.
  intros Hc. pose proof (byte_cases (fun c => (c =? 0) || (0 <? __tolower c) && (__tolower c <? 256))
    ltac:(vm_compute; reflexivity) c ltac:(lia)) as H. cbv beta in H. lia.
Qed.

Lemma tolower_0 : __tolower 0 = 0.
Proof. reflexivity. Qed.

Lemma lower_cons x l1 y l2 : lower (x :: l1) = lower (y :: l2) <-> __tolower x = __tolower y /\ lower l1 = lower l2.
Proof. cbn [map]. split; [by intros [= -> ->]|by intros [-> ->]]. Qed.

(** Two strings as the recursive definition of [str] shows them, byte by byte. *)
Definition hd0 (l : list Z) : Z := hd 0 l.

Lemma str_hd m s l : str m s l -> m !! s = Some (hd0 l) /\ 0 <= hd0 l < 256 /\ (hd0 l = 0 <-> l = []).
Proof.
  destruct l as [|b l]; simpl.
  - intros H. split; [done|]. split; [lia|done].
  - intros (H & Hb & _). split; [done|]. split; [lia|]. split; [lia|done].
Qed.

Lemma str_tl m s l : str m s l -> l <> [] -> str m (s + 1) (tl l).
Proof. destruct l; simpl; [done|]. naive_solver. Qed.

(** What a round does: [next] when the bytes agree, else it leaves with a
    result that is zero exactly when both strings end. *)
Definition case_round {L} (r : res ((L + Z) * mem)) (next : L + Z) (m : mem) (l1 l2 : list Z) : Prop :=
  match l1, l2 with
  | [], [] => r = Ok (inr 0, m)
  | x :: _, y :: _ =>
      if __tolower x =? __tolower y then r = Ok (next, m) else exists d, d <> 0 /\ r = Ok (inr d, m)
  | _, _ => exists d, d <> 0 /\ r = Ok (inr d, m)
  end.

Ltac case_round_tac H1 H2 :=
  destruct (str_hd _ _ _ H1) as (Hh1 & _), (str_hd _ _ _ H2) as (Hh2 & _);
  unfold bind; rewrite (load_ok _ _ _ Hh1), (load_ok _ _ _ Hh2); cbn [hd0 hd];
  match type of H1 with
  | str _ _ ?l1 => match type of H2 with
    | str _ _ ?l2 => destruct l1 as [|x l1], l2 as [|y l2]; cbn [hd0 hd case_round]
    end
  end;
  try (destruct H2 as (_ & Hy & _); pose proof (tolower_range _ Hy); pose proof (eqb_byte_0 _ Hy) as Ey);
  try (destruct H1 as (_ & Hx & _); pose proof (tolower_range _ Hx); pose proof (eqb_byte_0 _ Hx) as Ex);
  rewrite ?tolower_0;
  repeat match goal with E : (_ =? 0) = false |- _ => try rewrite E; clear E end.

Lemma strnicmp_round_ok m s1 s2 l1 l2 n :
  str m s1 l1 -> str m s2 l2 ->
  case_round (strnicmp_round (s1, s2, n) m)
    (if n - 1 =? 0 then inr 0 else inl (s1 + 1, s2 + 1, n - 1)) m l1 l2.
Proof.
  intros H1 H2. unfold strnicmp_round. case_round_tac H1 H2; cbn [Z.eqb].
  - done.
  - eexists. split; [|reflexivity]. lia.
  - eexists. split; [|reflexivity]. lia.
  - destruct (Z.eqb_spec x y) as [->|Hne].
    + rewrite Z.eqb_refl, Z.sub_diag. done.
    + destruct (Z.eqb_spec (__tolower x) (__tolower y)) as [E|E]; cbn [negb].
      * by rewrite E, Z.sub_diag.
      * eexists. split; [|reflexivity]. lia.
Qed.

Lemma strcasecmp_round_ok m s1 s2 l1 l2 :
  str m s1 l1 -> str m s2 l2 ->
  case_round (strcasecmp_round (s1, s2) m) (inl (s1 + 1, s2 + 1)) m l1 l2.
Proof.
  intros H1 H2. unfold strcasecmp_round. case_round_tac H1 H2.
  - done.
  - rewrite (proj2 (Z.eqb_neq 0 _)) by lia. eexists. split; [|reflexivity]. lia.
  - rewrite (proj2 (Z.eqb_neq _ 0)) by lia. eexists. split; [|reflexivity]. lia.
  - destruct (Z.eqb_spec (__tolower x) (__tolower y)) as [E|E].
    + by rewrite (proj2 (Z.eqb_neq _ 0)) by lia.
    + eexists. split; [|reflexivity]. lia.
Qed.

Lemma strncasecmp_round_ok m s1 s2 l1 l2 n :
  str m s1 l1 -> str m s2 l2 ->
  case_round (strncasecmp_round (s1, s2, n) m)
    (if 0 <? u64 (n - 1) then inl (s1 + 1, s2 + 1, u64 (n - 1)) else inr 0) m l1 l2.
Proof.
  intros H1 H2. unfold strncasecmp_round. case_round_tac H1 H2.
  - by rewrite !andb_false_r.
  - rewrite (proj2 (Z.eqb_neq 0 _)), andb_false_r by lia. eexists. split; [|reflexivity]. lia.
  - rewrite (proj2 (Z.eqb_neq _ 0)), andb_false_r by lia. eexists. split; [|reflexivity]. lia.
  - destruct (Z.eqb_spec (__tolower x) (__tolower y)) as [E|E].
    + rewrite (proj2 (Z.eqb_neq _ 0)), !andb_true_r by lia. rewrite E, Z.sub_diag. by destruct (0 <? _).
    + rewrite andb_false_r. eexists. split; [|reflexivity]. lia.
Qed.

(** Whether [r] reports that [l1] and [l2] agree. *)
Definition reports (r : res (Z * mem)) (m : mem) (l1 l2 : list Z) : Prop :=
  exists d, r = Ok (d, m) /\ (d = 0 <-> lower l1 = lower l2).

Lemma case_loop {L} (round : L -> M mem (L + Z)) m n st next l1 l2 k :
  case_round (round st m) next m l1 l2 -> (0 < k)%nat ->
  (l1 <> [] -> l2 <> [] ->
   match next with
   | inl st' => reports (loop n round st' m) m (take (k - 1) (tl l1)) (take (k - 1) (tl l2))
   | inr d => d = 0 /\ k = 1%nat
   end) -> reports (loop (S n) round st m) m (take k l1) (take k l2).
Proof.
  intros Hr Hk Hn. destruct k as [|k]; [lia|]. destruct l1 as [|x l1], l2 as [|y l2]; cbn [case_round take tl] in *.
  - exists 0. by rewrite (loop_inr _ _ _ _ _ _ Hr).
  - destruct Hr as (d & Hd & Hr). exists d. rewrite (loop_inr _ _ _ _ _ _ Hr). done.
  - destruct Hr as (d & Hd & Hr). exists d. rewrite (loop_inr _ _ _ _ _ _ Hr). done.
  - specialize (Hn ltac:(done) ltac:(done)). rewrite Nat.sub_0_r in Hn || cbn in Hn.
    destruct (Z.eqb_spec (__tolower x) (__tolower y)) as [E|E].
    + destruct next as [st'|d].
      * rewrite ?Nat.sub_0_r in Hn. destruct Hn as (d & Hd & Hiff). exists d. rewrite (loop_inl _ _ _ _ _ _ Hr). split; [done|].
        rewrite Hiff, lower_cons. naive_solver.
      * destruct Hn as [-> [= ->]]. exists 0. rewrite (loop_inr _ _ _ _ _ _ Hr). cbn. by rewrite E.
    + destruct Hr as (d & Hd & Hr). exists d. rewrite (loop_inr _ _ _ _ _ _ Hr). split; [done|].
      rewrite lower_cons. naive_solver.
Qed.

Lemma strcasecmp_ok m s1 s2 l1 l2 :
  str m s1 l1 -> str m s2 l2 -> reports (strcasecmp s1 s2 m) m l1 l2.
Proof.
  intros H1 H2.
  enough (H : forall n k s1 s2 l1 l2, str m s1 l1 -> str m s2 l2 -> (length l1 < n)%nat ->
    (length l1 < k)%nat -> (length l2 < k)%nat ->
    reports (loop n strcasecmp_round (s1, s2) m) m (take k l1) (take k l2)).
  { pose proof (str_size _ _ _ H1). pose proof (H (S (size m)) (S (length l1 + length l2)) s1 s2 l1 l2 H1 H2) as H'.
    rewrite !take_ge in H' by lia. apply H'; lia. }
  clear. induction n as [|n IH]; intros k s1 s2 l1 l2 H1 H2 Hn Hk1 Hk2; [lia|].
  eapply case_loop; [by apply strcasecmp_round_ok|lia|]. intros N1 N2.
  destruct l1 as [|x l1], l2 as [|y l2]; try done. simpl in Hn, Hk1, Hk2. apply IH; [apply H1|apply H2|simpl; lia..].
Qed.

Lemma strnicmp_ok m s1 s2 l1 l2 n :
  str m s1 l1 -> str m s2 l2 -> 0 <= n ->
  reports (strnicmp s1 s2 n m) m (take (Z.to_nat n) l1) (take (Z.to_nat n) l2).
Proof.
  intros H1 H2 Hn. unfold strnicmp. destruct (Z.eqb_spec n 0) as [->|Hne]; [by exists 0|].
  destruct (Z.to_nat n) as [|k] eqn:Ek; [lia|]. assert (n = Z.of_nat (S k)) as -> by lia. clear Hn Hne Ek.
  revert s1 s2 l1 l2 H1 H2. induction k as [|k IH]; intros s1 s2 l1 l2 H1 H2.
  - eapply case_loop; [by apply strnicmp_round_ok|lia|]. done.
  - eapply case_loop; [by apply strnicmp_round_ok|lia|]. intros N1 N2.
    destruct l1 as [|x l1], l2 as [|y l2]; try done. rewrite (proj2 (Z.eqb_neq _ 0)) by lia.
    replace (Z.of_nat (S (S k)) - 1) with (Z.of_nat (S k)) by lia. apply IH; [apply H1|apply H2].
Qed.

(** A limit of 0 works like one of [2 ^ 64]. *)
Lemma strncasecmp_ok m s1 s2 l1 l2 n :
  str m s1 l1 -> str m s2 l2 -> 0 <= n < 2 ^ 64 ->
  let k := Z.to_nat (if n =? 0 then 2 ^ 64 else n) in
  reports (strncasecmp s1 s2 n m) m (take k l1) (take k l2).
Proof.
  intros H1 H2 Hn. unfold strncasecmp, mloop, bind, gets. pose proof (str_size _ _ _ H1) as Hs.
  assert (Hf : (length l1 < S (size m))%nat) by lia. clear Hs. revert Hf. generalize (S (size m)) as f.
  intros f. revert n s1 s2 l1 l2 H1 H2 Hn. induction f as [|f IH]; intros n s1 s2 l1 l2 H1 H2 Hn Hf; [lia|].
  set (k := Z.to_nat (if n =? 0 then 2 ^ 64 else n)).
  assert (Hk : Z.of_nat k = if n =? 0 then 2 ^ 64 else n) by (subst k; destruct (n =? 0) eqn:E; lia).
  assert (Eu : u64 (n - 1) = if n =? 0 then 2 ^ 64 - 1 else n - 1).
  { unfold uwrap. destruct (Z.eqb_spec n 0) as [->|]; [done|]. apply Z.mod_small. lia. }
  eapply case_loop; [by apply strncasecmp_round_ok|destruct (n =? 0) eqn:E; lia|]. intros N1 N2.
  destruct l1 as [|x l1], l2 as [|y l2]; try done. simpl in Hf. clearbody k.
  destruct (Z.ltb_spec 0 (u64 (n - 1))) as [Hlt|Hge].
  - cbn [tl]. assert (Ek : (k - 1)%nat = Z.to_nat (u64 (n - 1))) by (rewrite Eu; destruct (n =? 0); lia).
    assert (Hr : 0 <= u64 (n - 1) < 2 ^ 64) by (by apply uwrap_range).
    specialize (IH (u64 (n - 1)) (s1 + 1) (s2 + 1) l1 l2 (proj2 (proj2 H1)) (proj2 (proj2 H2)) Hr ltac:(lia)).
    rewrite (proj2 (Z.eqb_neq _ 0)) in IH by lia. by rewrite Ek.
  - split; [done|]. rewrite Eu in Hge. destruct (n =? 0) eqn:E; lia.
Qed.

(** *** [sysfs_streq] *)

Definition same_line (l1 l2 : list Z) : Prop := l1 = l2 \/ l1 = l2 ++ [10] \/ l2 = l1 ++ [10].

#[export] Instance same_line_dec l1 l2 : Decision (same_line l1 l2).
Proof. unfold same_line. apply _. Defined.

Lemma same_line_cons x l1 l2 : same_line (x :: l1) (x :: l2) <-> same_line l1 l2.
Proof. unfold same_line. naive_solver. Qed.

(** The strings where the loop stops: their first bytes differ, or both end. *)
Lemma streq_end_ok m s1 s2 l1 l2 :
  str m s1 l1 -> str m s2 l2 -> (l1 = [] \/ hd0 l1 <> hd0 l2) ->
  streq_end s1 s2 m = Ok (bool_decide (same_line l1 l2), m).
Proof.
  intros H1 H2 Hne. unfold streq_end.
  destruct (str_hd _ _ _ H1) as (Hh1 & Hr1 & Hz1), (str_hd _ _ _ H2) as (Hh2 & Hr2 & Hz2).
  rewrite (bind_ok _ _ _ _ _ (load_ok _ _ _ Hh1)), (bind_ok _ _ _ _ _ (load_ok _ _ _ Hh2)).
  destruct l1 as [|x l1], l2 as [|y l2]; cbn [hd0 hd] in *.
  - by rewrite bool_decide_true by (by left).
  - destruct H2 as (_ & Hy & H2). rewrite (proj2 (Z.eqb_neq 0 y)) by lia. cbn [Z.eqb andb].
    destruct (str_hd _ _ _ H2) as (Hn & Hnr & Hnz). destruct (Z.eqb_spec y 10) as [->|Hy10].
    + unfold bind. rewrite (load_ok _ _ _ Hn). cbn [ret]. unfold ret.
      destruct (Z.eqb_spec (hd0 l2) 0) as [E|E].
      * rewrite (proj1 Hnz E). by rewrite bool_decide_true by (unfold same_line; auto).
      * rewrite bool_decide_false; [done|]. unfold same_line. intros [?|[?|?]]; simplify_eq/=.
    + rewrite bool_decide_false; [done|]. unfold same_line. intros [?|[?|?]]; simplify_eq/=.
  - destruct H1 as (_ & Hx & H1). rewrite (proj2 (Z.eqb_neq x 0)) by lia. cbn [andb].
    destruct (str_hd _ _ _ H1) as (Hn & Hnr & Hnz). unfold bind, ret.
    destruct (Z.eqb_spec x 10) as [->|Hx10].
    + rewrite (load_ok _ _ _ Hn). destruct (Z.eqb_spec (hd0 l1) 0) as [E|E].
      * rewrite (proj1 Hnz E). by rewrite bool_decide_true by (unfold same_line; auto).
      * rewrite bool_decide_false; [done|]. unfold same_line. intros [?|[?|?]]; simplify_eq/=.
    + rewrite bool_decide_false; [done|]. unfold same_line. intros [?|[?|?]]; simplify_eq/=.
  - destruct Hne as [?|Hne]; [done|]. rewrite (proj2 (Z.eqb_neq x y)) by done.
    rewrite bool_decide_false by (unfold same_line; intros [?|[?|?]]; simplify_eq/=; congruence).
    destruct H2 as (_ & Hy & _), H1 as (_ & Hx & H1). rewrite (eqb_byte_0 x Hx), (eqb_byte_0 y Hy). cbn [andb].
    unfold bind, ret. destruct (Z.eqb_spec x 10); [|done].
    destruct (str_hd _ _ _ H1) as (Hn & _). rewrite (load_ok _ _ _ Hn). by rewrite andb_false_r.
Qed.

Lemma sysfs_streq_ok m s1 s2 l1 l2 :
  str m s1 l1 -> str m s2 l2 -> sysfs_streq s1 s2 m = Ok (bool_decide (same_line l1 l2), m).
Proof.
  intros H1 H2. unfold sysfs_streq, mloop. pose proof (str_size _ _ _ H1) as Hs.
  rewrite bind_assoc. unfold bind at 1, gets. assert (Hf : (length l1 < S (size m))%nat) by lia.
  clear Hs. revert Hf. generalize (S (size m)) as f. intros f.
  revert s1 s2 l1 l2 H1 H2. induction f as [|f IH]; intros s1 s2 l1 l2 H1 H2 Hf; [lia|].
  destruct (str_hd _ _ _ H1) as (Hh1 & Hr1 & Hz1), (str_hd _ _ _ H2) as (Hh2 & Hr2 & Hz2).
  assert (Hround : streq_round (s1, s2) m =
    Ok (if hd0 l1 =? 0 then inr (s1, s2) else if hd0 l1 =? hd0 l2 then inl (s1 + 1, s2 + 1) else inr (s1, s2), m)).
  { unfold streq_round, bind. rewrite (load_ok _ _ _ Hh1). destruct (hd0 l1 =? 0); [done|].
    rewrite (load_ok _ _ _ Hh2). by destruct (hd0 l1 =? hd0 l2). }
  destruct (Z.eqb_spec (hd0 l1) 0) as [E|E]; [|destruct (Z.eqb_spec (hd0 l1) (hd0 l2)) as [E2|E2]].
  - rewrite (bind_ok _ _ _ _ _ (loop_inr _ _ _ _ _ _ Hround)). apply streq_end_ok; [done|done|]. left. by apply Hz1.
  - destruct l1 as [|x l1], l2 as [|y l2]; cbn [hd0 hd] in *; try congruence.
    subst x.
    unfold bind at 1. rewrite (loop_inl _ _ _ _ _ _ Hround). rewrite (bool_decide_ext _ _ (same_line_cons y l1 l2)).
    apply IH; [apply H1|apply H2|simpl in Hf; lia].
  - rewrite (bind_ok _ _ _ _ _ (loop_inr _ _ _ _ _ _ Hround)). apply streq_end_ok; [done|done|]. by right.
Qed.

(** *** Areas compared *)

Definition differ : Z * Z -> bool := fun '(c1, c2) => negb (c1 - c2 =? 0).

(** The difference of the first two bytes that differ. *)
Definition memdiff (l1 l2 : list Z) : Z :=
  match first differ (zip l1 l2) with Some (_, (c1, c2)) => c1 - c2 | None => 0 end.

Lemma memdiff_0 l1 l2 : length l1 = length l2 -> memdiff l1 l2 = 0 <-> l1 = l2.
Proof.
  unfold memdiff. revert l2. induction l1 as [|x l1 IH]; intros [|y l2] Hl; try done. simpl in *.
  unfold differ at 1. destruct (Z.eqb_spec (x - y) 0) as [E|E]; cbn [negb].
  - assert (x = y) as -> by lia. specialize (IH l2 ltac:(lia)).
    assert (Hc : y :: l1 = y :: l2 <-> l1 = l2) by (split; [by intros [= ->]|by intros ->]).
    rewrite Hc, <-IH. fold differ. by destruct (first differ (zip l1 l2)) as [[? []]|].
  - split; [lia|]. intros [= -> _]. lia.
Qed.

Lemma memcmp_ok m s1 s2 l1 l2 n :
  area m s1 l1 -> area m s2 l2 -> Z.of_nat (length l1) = n -> Z.of_nat (length l2) = n ->
  memcmp s1 s2 n m = Ok (memdiff l1 l2, m).
Proof.
  intros H1 H2 E1 E2. unfold memcmp.
  replace (s1, s2, n) with (s1 + Z.of_nat 0, s2 + Z.of_nat 0, n - Z.of_nat 0) by (repeat f_equal; lia).
  rewrite (scan_loop _ m (fun i => (s1 + Z.of_nat i, s2 + Z.of_nat i, n - Z.of_nat i)) differ
    (fun _ '(c1, c2) => c1 - c2) 0 (zip l1 l2)).
  - unfold memdiff. by destruct (first differ (zip l1 l2)) as [[? []]|].
  - rewrite length_zip_with. lia.
  - intros i [c1 c2] [Hi1 Hi2]%lookup_zip_Some.
    pose proof (lookup_lt_Some _ _ _ Hi1). pose proof (lookup_lt_Some _ _ _ Hi2).
    rewrite <-(area_lookup _ _ _ _ H1) in Hi1 by done. rewrite <-(area_lookup _ _ _ _ H2) in Hi2 by done.
    unfold differ. one_round.
  - intros _. rewrite length_zip_with, Nat.min_l by lia. one_round.
Qed.

Lemma area_drop m s l i : area m s l -> (i <= length l)%nat -> area m (s + Z.of_nat i) (drop i l).
Proof.
  revert s i. induction l as [|b l IH]; intros s [|i] Ha Hi; try (by rewrite Z.add_0_r); simpl in *; [done|].
  replace (s + Z.of_nat (S i)) with (s + 1 + Z.of_nat i) by lia. apply IH; [apply Ha|lia].
Qed.

Lemma area_take m s l i : area m s l -> area m s (take i l).
Proof. revert s i. induction l as [|b l IH]; intros s [|i] Ha; simpl in *; naive_solver. Qed.

(** [k] occurs in [l] at position [i]. *)
Definition occurs (k l : list Z) (i : nat) : Prop := take (length k) (drop i l) = k.

Lemma strstr_ok m s1 s2 l1 l2 :
  str m s1 l1 -> str m s2 l2 -> Z.of_nat (length l1) <= INT_MAX -> Z.of_nat (length l2) <= INT_MAX ->
  exists r, strstr s1 s2 m = Ok (r, m) /\
    match r with
    | Some p => exists i, p = s1 + Z.of_nat i /\ occurs l2 l1 i /\ forall j, (j < i)%nat -> ~ occurs l2 l1 j
    | None => forall j, ~ occurs l2 l1 j
    end.
Proof.
  unfold INT_MAX. intros H1 H2 B1 B2. unfold strstr.
  rewrite (bind_ok _ _ _ _ _ (strlen_ok _ _ _ H2)), swrap_small by lia.
  destruct (Z.eqb_spec (Z.of_nat (length l2)) 0) as [E0|Hne].
  { exists (Some s1). split; [done|]. exists O. destruct l2; [|done]. split_and!; [lia|done|lia]. }
  rewrite (bind_ok _ _ _ _ _ (strlen_ok _ _ _ H1)), swrap_small by lia.
  enough (H : runs (loop (S (S (Z.to_nat (Z.of_nat (length l1))))) (fun '(s1, l1) =>
    if Z.of_nat (length l2) <=? l1 then
      let! r := memcmp s1 s2 (Z.of_nat (length l2)) in
      if r =? 0 then ret (inr (Some s1)) else ret (inl (s1 + 1, l1 - 1))
    else ret (inr None)) (s1, Z.of_nat (length l1))) m (fun r m' => m' = m /\
      match r with
      | Some p => exists i, p = s1 + Z.of_nat i /\ occurs l2 l1 i /\ forall j, (j < i)%nat -> ~ occurs l2 l1 j
      | None => forall j, ~ occurs l2 l1 j
      end)) by (destruct H as (r & m' & E & -> & H); by exists r).
  apply str_area in H1, H2. apply (area_take _ _ _ (length l1)) in H1. apply (area_take _ _ _ (length l2)) in H2.
  rewrite take_app_length in H1, H2.
  apply runs_loop with
    (I := fun '(p, k) m' => m' = m /\ exists i, p = s1 + Z.of_nat i /\ k = Z.of_nat (length l1) - Z.of_nat i /\
       (i <= length l1)%nat /\ forall j, (j < i)%nat -> ~ occurs l2 l1 j)
    (meas := fun '(p, k) _ => Z.to_nat (k + 1)).
  - intros [p k] m' (-> & i & -> & -> & Hi & Hno). destruct (Z.leb_spec (Z.of_nat (length l2)) (Z.of_nat (length l1) - Z.of_nat i)) as [Hle|Hgt].
    + assert (Hc := memcmp_ok m (s1 + Z.of_nat i) s2 (take (length l2) (drop i l1)) l2 (Z.of_nat (length l2))
        (area_take _ _ _ _ (area_drop _ _ _ _ H1 Hi)) H2).
      rewrite length_take, length_drop in Hc. specialize (Hc ltac:(lia) eq_refl).
      wp. apply (runs_ok _ _ _ _ _ Hc).
      assert (Hz : memdiff (take (length l2) (drop i l1)) l2 = 0 <-> occurs l2 l1 i).
      { apply memdiff_0. rewrite length_take, length_drop. lia. }
      destruct (Z.eqb_spec (memdiff (take (length l2) (drop i l1)) l2) 0) as [E|E]; wp.
      * split; [done|]. exists i. split_and!; [done|by apply Hz|done].
      * split; [|lia]. split; [done|]. exists (S i). split_and!; [lia|lia|lia|]. intros j Hj.
        destruct (decide (j = i)) as [->|]; [tauto|apply Hno; lia].
    + wp. split; [done|]. intros j Hj. destruct (decide (j < i)%nat); [by apply (Hno j)|].
      unfold occurs in Hj. apply (f_equal length) in Hj. rewrite length_take, length_drop in Hj. lia.
  - split; [done|]. exists O. split_and!; lia.
  - lia.
Qed.

(** *** Writing *)

(** The memory with the bytes [l] written from [a] on. *)
Fixpoint write (a : Z) (l : list Z) (m : mem) : mem :=
  match l with [] => m | b :: l' => write (a + 1) l' (<[a := b]> m) end.

(** [n] addresses from [a] on can be written. *)
Definition room (m : mem) (a : Z) (n : nat) : Prop :=
  forall i, (i < n)%nat -> is_Some (m !! (a + Z.of_nat i)).

(** Writing [dest] upwards never overwrites what is still to be read. *)
Definition apart (dest src : Z) (n : nat) : Prop := dest <= src \/ src + Z.of_nat n <= dest.

Lemma lookup_write a l m k :
  write a l m !! k = if decide (a <= k < a + Z.of_nat (length l)) then l !! Z.to_nat (k - a) else m !! k.
Proof.
  revert a m. induction l as [|b l IH]; intros a m; simpl; [by rewrite decide_False by lia|].
  rewrite IH. destruct (decide (k = a)) as [->|Hne].
  - rewrite decide_False, decide_True by lia. by rewrite lookup_insert_eq, Z.sub_diag.
  - repeat case_decide; try lia.
    + replace (Z.to_nat (k - a)) with (S (Z.to_nat (k - (a + 1)))) by lia. done.
    + by rewrite lookup_insert_ne.
Qed.

Lemma write_out a l m k : k < a \/ a + Z.of_nat (length l) <= k -> write a l m !! k = m !! k.
Proof. intros. rewrite lookup_write. by rewrite decide_False by lia. Qed.

Lemma write_in a l m i : (i < length l)%nat -> write a l m !! (a + Z.of_nat i) = l !! i.
Proof. intros. rewrite lookup_write, decide_True by lia. f_equal. lia. Qed.

Lemma write_mapped a l m k : is_Some (m !! k) -> is_Some (write a l m !! k).
Proof. intros. rewrite lookup_write. case_decide; [|done]. apply lookup_lt_is_Some_2. lia. Qed.

Lemma write_app a l1 l2 m : write a (l1 ++ l2) m = write (a + Z.of_nat (length l1)) l2 (write a l1 m).
Proof.
  revert a m. induction l1 as [|b l1 IH]; intros a m; simpl; [by rewrite Z.add_0_r|].
  rewrite IH. f_equal. lia.
Qed.

Lemma write_insert_below a b l m : write a l (<[a - 1 := b]> m) = <[a - 1 := b]> (write a l m).
Proof.
  apply map_eq. intros k. rewrite lookup_write. destruct (decide (k = a - 1)) as [->|Hne].
  - rewrite decide_False by lia. by rewrite !lookup_insert_eq.
  - rewrite !lookup_insert_ne by done. by rewrite lookup_write.
Qed.

Lemma write_take_S a l m i b : l !! i = Some b ->
  write a (take (S i) l) m = <[a + Z.of_nat i := b]> (write a (take i l) m).
Proof.
  intros Hi. rewrite (take_S_r _ _ _ Hi), write_app, length_take_le; [done|].
  apply lookup_lt_Some in Hi. lia.
Qed.

Lemma storeb_ok m a v : is_Some (m !! a) -> storeb a v m = Ok (tt, <[a := v]> m).
Proof. intros [x Hx]. unfold storeb. by rewrite Hx. Qed.

(** A loop that only leaves when its counter says so: [st] and [f] are the
    local variables and the memory at each round. *)
Lemma count_loop {L R} (body : L -> M mem (L + R)) (st : nat -> L) (f : nat -> mem) n k r m' :
  (n < k)%nat ->
  (forall i, (i < n)%nat -> body (st i) (f i) = Ok (inl (st (S i)), f (S i))) ->
  body (st n) (f n) = Ok (inr r, m') ->
  loop k body (st O) (f O) = Ok (r, m').
Proof.
  revert st f k. induction n as [|n IH]; intros st f [|k] Hk Hb H0; try lia.
  - by apply loop_inr.
  - rewrite (loop_inl _ _ _ _ _ _ (Hb O ltac:(lia))).
    apply (IH (fun i => st (S i)) (fun i => f (S i))); [lia| |done]. intros i Hi. apply Hb. lia.
Qed.

(** The variant for loops whose start is written differently. *)
Lemma count_loop' {L R} (body : L -> M mem (L + R)) (st : nat -> L) (f : nat -> mem) n k r m m' l0 :
  l0 = st O -> m = f O -> (n < k)%nat ->
  (forall i, (i < n)%nat -> body (st i) (f i) = Ok (inl (st (S i)), f (S i))) ->
  body (st n) (f n) = Ok (inr r, m') ->
  loop k body l0 m = Ok (r, m').
Proof. intros -> ->. apply count_loop. Qed.

Lemma inl_eq2 {L R} (a b : L) (m m' : mem) : a = b -> m = m' -> Ok (inl a : L + R, m) = Ok (inl b, m').
Proof. by intros -> ->. Qed.

Ltac same_vars := repeat (apply pair_equal_spec; split); lia.
Ltac next_state := apply inl_eq2; [same_vars|].

Lemma memset_ok m s c n :
  0 <= n -> room m s (Z.to_nat n) -> memset s c n m = Ok (s, write s (repeat (u8 c) (Z.to_nat n)) m).
Proof.
  intros Hn Hr. unfold memset.
  eapply (count_loop' _ (fun i => (s + Z.of_nat i, n - Z.of_nat i)) (fun i => write s (repeat (u8 c) i) m) (Z.to_nat n)).
  - same_vars.
  - done.
  - lia.
  - intros i Hi. rewrite (proj2 (Z.eqb_neq _ 0)) by lia. unfold bind, ret.
    rewrite storeb_ok by (apply write_mapped, Hr; lia). next_state.
    change (repeat (u8 c) (S i)) with (u8 c :: repeat (u8 c) i).
    by rewrite repeat_cons, write_app, repeat_length.
  - by rewrite Z2Nat.id, Z.sub_diag by lia.
Qed.

(** The upward copy loop of [memcpy] and [memmove]. *)
Lemma copy_up m dest src l n :
  area m src l -> Z.of_nat (length l) = n -> room m dest (length l) -> apart dest src (length l) ->
  memcpy dest src n m = Ok (dest, write dest l m).
Proof.
  intros Ha Hn Hr Hap. unfold memcpy.
  eapply (count_loop' _ (fun i => (dest + Z.of_nat i, src + Z.of_nat i, n - Z.of_nat i))
    (fun i => write dest (take i l) m) (length l)).
  - same_vars.
  - done.
  - lia.
  - intros i Hi. rewrite (proj2 (Z.eqb_neq _ 0)) by lia. unfold bind, ret.
    destruct (lookup_lt_is_Some_2 l i Hi) as [b Hb].
    rewrite (load_ok _ _ b).
    2: { rewrite write_out; [by rewrite (area_lookup _ _ _ _ Ha)|]. rewrite length_take. unfold apart in Hap. lia. }
    rewrite storeb_ok by (apply write_mapped, Hr; lia). rewrite (write_take_S _ _ _ _ _ Hb).
    next_state. done.
  - rewrite Hn, Z.sub_diag, firstn_all. done.
Qed.

Lemma memmove_ok m dest src l n :
  area m src l -> Z.of_nat (length l) = n -> room m dest (length l) ->
  memmove dest src n m = Ok (dest, write dest l m).
Proof.
  intros Ha Hn Hr. unfold memmove. destruct (Z.leb_spec dest src) as [Hle|Hgt].
  { apply copy_up; [done..|]. by left. }
  eapply (count_loop' _ (fun i => (dest + n - Z.of_nat i, src + n - Z.of_nat i, n - Z.of_nat i))
    (fun i => write (dest + n - Z.of_nat i) (drop (length l - i) l) m) (length l)).
  - same_vars.
  - by rewrite Nat.sub_0_r, drop_all.
  - lia.
  - intros i Hi. rewrite (proj2 (Z.eqb_neq _ 0)) by lia. unfold bind, ret.
    destruct (lookup_lt_is_Some_2 l (length l - S i)) as [b Hb]; [lia|].
    rewrite (load_ok _ _ b).
    2: { rewrite write_out by lia. rewrite <-Hb, <-(area_lookup _ _ _ _ Ha) by lia. f_equal. lia. }
    rewrite storeb_ok.
    2: { apply write_mapped. destruct (Hr (length l - S i)%nat) as [x Hx]; [lia|]. exists x. rewrite <-Hx. f_equal. lia. }
    replace (drop (length l - S i) l) with (b :: drop (length l - i) l).
    2: { rewrite (drop_S _ _ _ Hb). do 2 f_equal. lia. }
    cbn [write]. replace (dest + n - Z.of_nat (S i)) with (dest + n - Z.of_nat i - 1) by lia.
    rewrite Z.sub_add, write_insert_below. next_state. done.
  - rewrite Hn, Z.sub_diag. rewrite Nat.sub_diag, drop_0. by rewrite !Z.add_simpl_r.
Qed.

(** One byte of an upward copy of a string, the terminator included. *)
Lemma copy_step m dest src l n i b :
  str m src l -> room m dest n -> apart dest src (S (length l)) -> (i < n)%nat -> (l ++ [0]) !! i = Some b ->
  load (src + Z.of_nat i) (write dest (take i (l ++ [0])) m) = Ok (b, write dest (take i (l ++ [0])) m) /\
  storeb (dest + Z.of_nat i) b (write dest (take i (l ++ [0])) m) =
    Ok (tt, write dest (take (S i) (l ++ [0])) m).
Proof.
  intros Ha%str_area Hr Hap Hi Hb. pose proof (lookup_lt_Some _ _ _ Hb) as Hlt.
  rewrite length_app in Hlt. simpl in Hlt. split.
  - apply load_ok. rewrite write_out, (area_lookup _ _ _ _ Ha); [done|by eapply lookup_lt_Some|].
    rewrite length_take, length_app. unfold apart in Hap. lia.
  - rewrite (write_take_S _ _ _ _ _ Hb). apply storeb_ok, write_mapped, Hr. lia.
Qed.

(** The loop that copies up to and including the terminator. *)
Lemma copy_string_ok m dest src l :
  str m src l -> room m dest (S (length l)) -> apart dest src (S (length l)) ->
  copy_string dest src m = Ok (tt, write dest (l ++ [0]) m).
Proof.
  intros Hs Hr Hap. unfold copy_string, mloop, bind at 1, gets. pose proof (str_size _ _ _ Hs) as Hsz.
  eapply (count_loop' _ (fun i => (dest + Z.of_nat i, src + Z.of_nat i))
    (fun i => write dest (take i (l ++ [0])) m) (length l)).
  - same_vars.
  - done.
  - lia.
  - intros i Hi. destruct (lookup_lt_is_Some_2 l i Hi) as [b Hb]. destruct (str_lookup _ _ _ _ _ Hs Hb) as [_ Hbr].
    destruct (copy_step m dest src l (S (length l)) i b) as [E1 E2]; try done; [lia|by rewrite lookup_app_l|].
    unfold bind, ret. rewrite E1, E2, (eqb_byte_0 _ Hbr). by next_state.
  - destruct (copy_step m dest src l (S (length l)) (length l) 0) as [E1 E2]; try done; [lia|by rewrite lookup_app_r, Nat.sub_diag by lia|].
    unfold bind. rewrite E1, E2. rewrite take_ge by (rewrite length_app; simpl; lia). done.
Qed.

Lemma strcpy_ok m dest src l :
  str m src l -> room m dest (S (length l)) -> apart dest src (S (length l)) ->
  strcpy dest src m = Ok (dest, write dest (l ++ [0]) m).
Proof. intros. unfold strcpy, bind. by rewrite (copy_string_ok _ _ _ l). Qed.

Lemma strcat_ok m dest ld src l :
  str m dest ld -> str m src l -> let d := dest + Z.of_nat (length ld) in
  room m d (S (length l)) -> apart d src (S (length l)) ->
  strcat dest src m = Ok (dest, write d (l ++ [0]) m).
Proof.
  intros Hd Hs d Hr Hap. unfold strcat, bind. rewrite (string_end_ok _ _ _ Hd). fold d.
  by rewrite (copy_string_ok _ _ _ l).
Qed.

(** The first [n] bytes of [l] and a terminator. *)
Definition cut (n : nat) (l : list Z) : list Z := take n l ++ [0].

Lemma cut_copy m dest src l n :
  str m src l -> room m dest (S (Nat.min n (length l))) -> apart dest src (Nat.min n (length l)) ->
  (memcpy dest src (Z.of_nat (Nat.min n (length l))) ;;; storeb (dest + Z.of_nat (Nat.min n (length l))) 0) m =
  Ok (tt, write dest (cut n l) m).
Proof.
  intros Hs Hr Hap. unfold bind. rewrite (copy_up _ _ _ (take n l)).
  - unfold cut. rewrite write_app. cbn [write]. rewrite length_take. apply storeb_ok.
    apply write_mapped, Hr. lia.
  - apply str_area in Hs. apply (area_take _ _ _ (length l)) in Hs. rewrite take_app_length in Hs.
    by apply area_take.
  - by rewrite length_take.
  - rewrite length_take. intros i Hi. apply Hr. lia.
  - by rewrite length_take.
Qed.

Lemma strlcpy_ok m dest src l n :
  str m src l -> 0 < n -> room m dest (S (Nat.min (Z.to_nat (n - 1)) (length l))) ->
  apart dest src (Nat.min (Z.to_nat (n - 1)) (length l)) ->
  strlcpy dest src n m = Ok (Z.of_nat (length l), write dest (cut (Z.to_nat (n - 1)) l) m).
Proof.
  intros Hs Hn Hr Hap. unfold strlcpy. rewrite (bind_ok _ _ _ _ _ (strlen_ok _ _ _ Hs)).
  rewrite (proj2 (Z.eqb_neq n 0)) by lia. cbn [negb].
  replace (if n <=? Z.of_nat (length l) then n - 1 else Z.of_nat (length l))
    with (Z.of_nat (Nat.min (Z.to_nat (n - 1)) (length l))) by (destruct (Z.leb_spec n (Z.of_nat (length l))); lia).
  by rewrite (bind_ok _ _ _ _ _ (cut_copy _ _ _ _ _ Hs Hr Hap)).
Qed.

Lemma strlcat_ok m dest ld src l n :
  str m dest ld -> str m src l -> let d := dest + Z.of_nat (length ld) in
  let k := Z.to_nat (n - Z.of_nat (length ld) - 1) in
  Z.of_nat (length ld) < n -> room m d (S (Nat.min k (length l))) -> apart d src (Nat.min k (length l)) ->
  strlcat dest src n m = Ok (Z.of_nat (length ld) + Z.of_nat (length l), write d (cut k l) m).
Proof.
  intros Hd Hs d k Hn Hr Hap. unfold strlcat.
  rewrite (bind_ok _ _ _ _ _ (strlen_ok _ _ _ Hd)), (bind_ok _ _ _ _ _ (strlen_ok _ _ _ Hs)).
  rewrite (proj2 (Z.leb_gt _ _)) by lia. fold d.
  replace (if n - Z.of_nat (length ld) <=? Z.of_nat (length l) then n - Z.of_nat (length ld) - 1 else Z.of_nat (length l))
    with (Z.of_nat (Nat.min k (length l)))
    by (subst k; destruct (Z.leb_spec (n - Z.of_nat (length ld)) (Z.of_nat (length l))); lia).
  pose proof (cut_copy _ _ _ _ _ Hs Hr Hap) as Hc. unfold bind in Hc |- *.
  destruct (memcpy d src _ m) as [[? ?]|]; [|done]. by rewrite Hc.
Qed.

Lemma strncpy_ok m dest src l n :
  str m src l -> 0 <= n -> room m dest (Z.to_nat n) ->
  dest + n <= src \/ src + Z.of_nat (S (length l)) <= dest ->
  strncpy dest src n m = Ok (dest, write dest (take (Z.to_nat n) (l ++ replicate (Z.to_nat n) 0)) m).
Proof.
  intros Hs Hn Hr Hd. unfold strncpy. set (p := l ++ replicate (Z.to_nat n) 0).
  assert (Hlp : length p = (length l + Z.to_nat n)%nat) by (subst p; by rewrite length_app, length_replicate).
  assert (Hp : forall i, (i < Z.to_nat n)%nat -> exists b, p !! i = Some b /\
    m !! (src + Z.of_nat (Nat.min i (length l))) = Some b /\ (b = 0 <-> (length l <= i)%nat)).
  { intros i Hi. subst p. destruct (Nat.lt_ge_cases i (length l)) as [Hlt|Hge].
    - destruct (lookup_lt_is_Some_2 l i Hlt) as [b Hb]. destruct (str_lookup _ _ _ _ _ Hs Hb).
      exists b. rewrite lookup_app_l, Nat.min_l by lia. split_and!; [done|done|lia].
    - exists 0. rewrite lookup_app_r, Nat.min_r by lia. split_and!; [|by apply str_end|lia].
      apply lookup_replicate_2. lia. }
  eapply (count_loop' _ (fun i => (dest + Z.of_nat i, src + Z.of_nat (Nat.min i (length l)), n - Z.of_nat i))
    (fun i => write dest (take i p) m) (Z.to_nat n)).
  - same_vars.
  - done.
  - lia.
  - intros i Hi. destruct (Hp i Hi) as (b & Hb & Hm & Hz). rewrite (proj2 (Z.eqb_neq _ 0)) by lia. unfold bind, ret.
    rewrite (load_ok _ _ b) by (rewrite write_out; [done|rewrite length_take; lia]).
    rewrite storeb_ok by (apply write_mapped, Hr; lia). rewrite (write_take_S _ _ _ _ _ Hb).
    destruct (Z.eqb_spec b 0); cbn [negb]; by next_state.
  - by rewrite Z2Nat.id, Z.sub_diag by lia.
Qed.

Lemma strncat_ok m dest ld src l n :
  str m dest ld -> str m src l -> let d := dest + Z.of_nat (length ld) in let k := Z.to_nat n in
  0 < n -> room m d (S (Nat.min k (length l))) -> apart d src (S (length l)) ->
  strncat dest src n m = Ok (dest, write d (cut k l) m).
Proof.
  intros Hd Hs d k Hn Hr Hap. unfold strncat. rewrite (proj2 (Z.eqb_neq n 0)) by lia. cbn [negb].
  unfold bind at 1. rewrite (bind_ok _ _ _ _ _ (string_end_ok _ _ _ Hd)). fold d.
  pose proof (copy_step m d src l) as Hl. set (q := Nat.min (k - 1) (length l)).
  erewrite (count_loop' _ (fun i => (d + Z.of_nat i, src + Z.of_nat i, n - Z.of_nat i))
    (fun i => write d (take i (l ++ [0])) m) q); [reflexivity|same_vars|done|lia| |].
  - intros i Hi. destruct (lookup_lt_is_Some_2 l i ltac:(lia)) as [b Hb].
    destruct (str_lookup _ _ _ _ _ Hs Hb) as [_ Hbr].
    destruct (Hl _ i b Hs Hr Hap ltac:(lia)) as [E1 E2]; [by rewrite lookup_app_l by lia|]. unfold bind, ret.
    rewrite E1, E2, (eqb_byte_0 _ Hbr), (proj2 (Z.eqb_neq _ 0)) by lia. by next_state.
  - unfold bind, ret. destruct (Nat.lt_ge_cases (length l) k) as [Hlt|Hge].
    + assert (q = length l) as -> by lia.
      destruct (Hl _ (length l) 0 Hs Hr Hap ltac:(lia)) as [E1 E2]; [by rewrite lookup_app_r, Nat.sub_diag by lia|].
      rewrite E1, E2. cbn [Z.eqb]. unfold cut. rewrite (take_ge l) by lia.
      by rewrite take_ge by (rewrite length_app; simpl; lia).
    + destruct (lookup_lt_is_Some_2 l q ltac:(lia)) as [b Hb]. destruct (str_lookup _ _ _ _ _ Hs Hb) as [_ Hbr].
      destruct (Hl _ q b Hs Hr Hap ltac:(lia)) as [E1 E2]; [by rewrite lookup_app_l by lia|].
      rewrite E1, E2, (eqb_byte_0 _ Hbr), (proj2 (Z.eqb_eq _ 0)) by lia.
      replace (S q) with k by lia. rewrite take_app_le by lia. unfold cut.
      rewrite write_app, length_take, Nat.min_l by lia. cbn [write].
      replace (d + Z.of_nat q + 1) with (d + Z.of_nat k) by lia. by rewrite storeb_ok by (apply write_mapped, Hr; lia).
Qed.

(** *** Splitting and stripping *)

Lemma str_cut m s l j : str m s l -> (j <= length l)%nat -> str (<[s + Z.of_nat j := 0]> m) s (take j l).
Proof.
  revert s j. induction l as [|b l IH]; intros s [|j] Hs Hj; simpl in *; try lia.
  - by rewrite Z.add_0_r, lookup_insert_eq.
  - by rewrite Z.add_0_r, lookup_insert_eq.
  - destruct Hs as (Hb & Hr & Hs). rewrite lookup_insert_ne by lia. split; [done|]. split; [done|].
    replace (s + Z.of_nat (S j)) with (s + 1 + Z.of_nat j) by lia. apply IH; [done|lia].
Qed.

Lemma str_drop m s l j : str m s l -> (j <= length l)%nat -> str m (s + Z.of_nat j) (drop j l).
Proof.
  revert s j. induction l as [|b l IH]; intros s [|j] Hs Hj; try (by rewrite Z.add_0_r); simpl in *; try lia.
  replace (s + Z.of_nat (S j)) with (s + 1 + Z.of_nat j) by lia. apply IH; [apply Hs|lia].
Qed.

Lemma str_frame m m' s l :
  str m s l -> (forall a, s <= a <= s + Z.of_nat (length l) -> m' !! a = m !! a) -> str m' s l.
Proof.
  revert s. induction l as [|b l IH]; intros s Hs Hf; simpl in *.
  - rewrite Hf by lia. done.
  - destruct Hs as (Hb & Hr & Hs). rewrite Hf by lia. split; [done|]. split; [done|].
    apply IH; [done|]. intros a Ha. apply Hf. lia.
Qed.

Definition strip (l : list Z) : list Z :=
  let l := take (length l - prefix_len (fun b => negb (isspace b)) (rev l)) l in
  drop (prefix_len (fun b => negb (isspace b)) l) l.

Lemma prefix_len_le P l : (prefix_len P l <= length l)%nat.
Proof.
  unfold prefix_len. destruct (first P l) as [[i b]|] eqn:E; [|done].
  apply first_Some in E as (Hi & _). apply lookup_lt_Some in Hi. lia.
Qed.

Lemma rev_lookup_str m s l i b :
  str m s l -> rev l !! i = Some b -> m !! (s + Z.of_nat (length l) - 1 - Z.of_nat i) = Some b /\ (i < length l)%nat.
Proof.
  intros Hs Hi. rewrite rev_alt in Hi. apply reverse_lookup_Some in Hi as [Hi Hlt]. split; [|done].
  destruct (str_lookup _ _ _ _ _ Hs Hi) as [H _]. rewrite <-H. f_equal. lia.
Qed.

Lemma strstrip_ok m s l :
  str m s l -> exists r m', strstrip s m = Ok (r, m') /\ str m' r (strip l) /\
    forall a, a < s \/ s + Z.of_nat (length l) < a -> m' !! a = m !! a.
Proof.
  intros Hs. unfold strstrip. rewrite (bind_ok _ _ _ _ _ (strlen_ok _ _ _ Hs)).
  destruct (Z.eqb_spec (Z.of_nat (length l)) 0) as [E0|Hne].
  { destruct l; [|done]. exists s, m. done. }
  set (j := (length l - prefix_len (fun b => negb (isspace b)) (rev l))%nat).
  assert (Hj : (j <= length l)%nat) by lia.
  erewrite bind_ok.
  2: { replace (s + Z.of_nat (length l) - 1) with (s + Z.of_nat (length l) - 1 - Z.of_nat 0) by lia.
       apply (scan_loop _ m (fun i => s + Z.of_nat (length l) - 1 - Z.of_nat i) (fun b => negb (isspace b))
         (fun i _ => s + Z.of_nat (length l) - 1 - Z.of_nat i) (s - 1) (rev l)).
       - rewrite length_rev. lia.
       - intros i b Hi. destruct (rev_lookup_str _ _ _ _ _ Hs Hi) as [Hb Hlt]. one_round.
       - intros _. rewrite length_rev. one_round. }
  assert (Ee : (match first (fun b => negb (isspace b)) (rev l) with
    | Some (i, _) => s + Z.of_nat (length l) - 1 - Z.of_nat i | None => s - 1 end) + 1 = s + Z.of_nat j).
  { subst j. pose proof (prefix_len_le (fun b => negb (isspace b)) (rev l)) as Hp. rewrite length_rev in Hp.
    unfold prefix_len in *. destruct (first _ (rev l)) as [[i b]|]; rewrite ?length_rev; lia. }
  rewrite Ee. pose proof (str_cut _ _ _ _ Hs Hj) as Hc.
  erewrite bind_ok.
  2: { apply storeb_ok. destruct (Nat.eq_dec j (length l)) as [->|]; [rewrite (str_end _ _ _ Hs); eauto|].
       destruct (lookup_lt_is_Some_2 l j ltac:(lia)) as [b Hb]. destruct (str_lookup _ _ _ _ _ Hs Hb) as [-> _]. eauto. }
  rewrite (mloop_str _ _ (fun i => s + Z.of_nat i) (fun b => negb (isspace b)) (fun i _ => s + Z.of_nat i)
    (s + Z.of_nat (length (take j l))) s s (take j l) Hc); [|lia|one_round|one_round].
  eexists _, _. split; [reflexivity|]. split.
  - unfold strip. fold j. set (t := take j l) in *.
    replace (match first _ t with Some (i, _) => _ | None => _ end)
      with (s + Z.of_nat (prefix_len (fun b => negb (isspace b)) t))
      by (unfold prefix_len; by destruct (first _ t) as [[]|]).
    apply str_drop; [done|apply prefix_len_le].
  - intros a Ha. apply lookup_insert_ne. lia.
Qed.

(** Calls of [strsep] until it returns null, as its users make them. *)
Fixpoint strsep_all (n : nat) (s : option Z) (ct : Z) : M mem (list Z) :=
  match n with
  | O => throw Hang
  | S n' =>
      let! (tok, s') := strsep s ct in
      match tok with
      | None => ret []
      | Some t => let! ts := strsep_all n' s' ct in ret (t :: ts)
      end
  end.

(** The tokens of [l] between the bytes of [k]. *)
Fixpoint tokens (k l : list Z) : list (list Z) :=
  match l with
  | [] => [[]]
  | b :: l' =>
      if bool_decide (b ∈ k) then [] :: tokens k l'
      else match tokens k l' with t :: ts => (b :: t) :: ts | [] => [[b]] end
  end.

Lemma tokens_first k l :
  tokens k l = match first (fun b => bool_decide (b ∈ k)) l with
               | None => [l]
               | Some (i, _) => take i l :: tokens k (drop (S i) l)
               end.
Proof.
  induction l as [|b l IH]; [done|]. cbn [tokens first]. destruct (bool_decide (b ∈ k)); [done|].
  rewrite IH. by destruct (first _ l) as [[]|].
Qed.

Lemma strsep_ok m s l ct k :
  str m s l -> str m ct k ->
  strsep (Some s) ct m =
  match first (fun b => bool_decide (b ∈ k)) l with
  | Some (i, _) => Ok ((Some s, Some (s + Z.of_nat i + 1)), <[s + Z.of_nat i := 0]> m)
  | None => Ok ((Some s, None), m)
  end.
Proof.
  intros Hs Hk. unfold strsep, bind. rewrite (strpbrk_ok _ _ _ _ _ Hs Hk).
  destruct (first _ l) as [[i b]|] eqn:Ef; cbn; [|done].
  apply first_Some in Ef as (Hi & _ & _). destruct (str_lookup _ _ _ _ _ Hs Hi) as [Hm _].
  by rewrite storeb_ok by eauto.
Qed.

Lemma strsep_all_ok n : forall m s l ct k,
  str m s l -> str m ct k -> ct + Z.of_nat (length k) < s \/ s + Z.of_nat (length l) < ct ->
  (length l < n)%nat ->
  exists ts m', strsep_all (S n) (Some s) ct m = Ok (ts, m') /\ Forall2 (str m') ts (tokens k l) /\
    (forall a, a < s \/ s + Z.of_nat (length l) < a -> m' !! a = m !! a).
Proof.
  induction n as [|n IH]; intros m s l ct k Hs Hk Hd Hn; [lia|].
  rewrite tokens_first. pose proof (strsep_ok _ _ _ _ _ Hs Hk) as Hsep.
  destruct (first _ l) as [[i b]|] eqn:Ef.
  - apply first_Some in Ef as (Hi & _ & _). pose proof (lookup_lt_Some _ _ _ Hi) as Hlt.
    set (m1 := <[s + Z.of_nat i := 0]> m) in *.
    assert (Hs1 : str m1 (s + Z.of_nat i + 1) (drop (S i) l)).
    { replace (s + Z.of_nat i + 1) with (s + Z.of_nat (S i)) by lia.
      apply (str_frame m); [by apply str_drop|]. intros a Ha. apply lookup_insert_ne. lia. }
    assert (Hk1 : str m1 ct k) by (apply (str_frame m); [done|]; intros a Ha; apply lookup_insert_ne; lia).
    assert (Ht1 : str m1 s (take i l)) by (apply str_cut; [done|lia]).
    destruct (IH m1 (s + Z.of_nat i + 1) (drop (S i) l) ct k) as (ts & m' & E & Hts & Hf); [done|done| |rewrite length_drop; lia|].
    { rewrite length_drop. lia. }
    rewrite length_drop in Hf.
    exists (s :: ts), m'. split; [|split].
    + remember (S n) as n'. cbn [strsep_all]. unfold bind. by rewrite Hsep, E.
    + constructor; [|done]. apply (str_frame m1); [done|]. intros a Ha. rewrite length_take in Ha. apply Hf. lia.
    + intros a Ha. rewrite Hf by lia. apply lookup_insert_ne. lia.
  - exists [s], m. split; [|split; [by repeat constructor|done]].
    cbn [strsep_all]. unfold bind at 1. rewrite Hsep. done.
Qed.

(** *** A concrete memory: "Ab,c d" at 100 and " ,", the set, at 200 *)

Fixpoint place (a : Z) (l : list Z) : mem := match l with [] => ∅ | b :: l' => <[a := b]> (place (a + 1) l') end.

Definition ex_text : list Z := [65; 98; 44; 99; 32; 100].
Definition ex_set : list Z := [32; 44].
Definition ex_mem : mem :=
  place 100 (ex_text ++ [0]) ∪ place 200 (ex_set ++ [0]) ∪ place 300 (repeat 7 16).

Lemma ex_str_text : str ex_mem 100 ex_text.
Proof. vm_compute. intuition congruence. Qed.
Lemma ex_str_set : str ex_mem 200 ex_set.
Proof. vm_compute. intuition congruence. Qed.

Lemma ex_room n : (n <= 16)%nat -> room ex_mem 300 n.
Proof.
  intros Hn i Hi. assert (Hall : forall j, j ∈ seq 0 16 -> is_Some (ex_mem !! (300 + Z.of_nat j))).
  { apply Forall_forall. repeat constructor; by eexists. }
  apply Hall, elem_of_seq. lia.
Qed.

(** ** Claims *)

(** On terminated strings the functions that search end without a fault,
    change nothing and return what their names say: the length, the first or
    last position of a byte, the length of the prefix in or outside a set,
    the first occurrence of a string. *)
Theorem string_searches_correct (m : mem) (s a c n : Z) (l k : list Z)
    (Hs : str m s l) (Hk : str m a k) (Hn : 0 <= n)
    (Hl : Z.of_nat (length l) <= INT_MAX) (Hlk : Z.of_nat (length k) <= INT_MAX) :
  strlen s m = Ok (Z.of_nat (length l), m) /\
  strnlen s n m = Ok (Z.min n (Z.of_nat (length l)), m) /\
  strchr s c m = Ok (found s (first (fun b => b =? u8 c) (l ++ [0])), m) /\
  strnchr s n c m = Ok (found s (first (fun b => b =? u8 c) (take (Z.to_nat n) l)), m) /\
  strrchr s c m = Ok ((fun x => s + (Z.of_nat (length l) - Z.of_nat x.1)) <$>
                        first (fun b => b =? u8 c) (rev (l ++ [0])), m) /\
  strspn s a m = Ok (Z.of_nat (prefix_len (fun b => negb (bool_decide (b ∈ k))) l), m) /\
  strcspn s a m = Ok (Z.of_nat (prefix_len (fun b => bool_decide (b ∈ k)) l), m) /\
  strpbrk s a m = Ok (found s (first (fun b => bool_decide (b ∈ k)) l), m) /\
  exists r, strstr s a m = Ok (r, m) /\
    match r with
    | Some p => exists i, p = s + Z.of_nat i /\ occurs k l i /\ forall j, (j < i)%nat -> ~ occurs k l j
    | None => forall j, ~ occurs k l j
    end.
Proof.
  split_and!; [by apply strlen_ok|by apply strnlen_ok|by apply strchr_ok|by apply strnchr_ok|
    by apply strrchr_ok|by apply strspn_ok|by apply strcspn_ok|by apply strpbrk_ok|by apply strstr_ok].
Qed.

Lemma string_searches_correct_witness :
  strlen 100 ex_mem = Ok (6, ex_mem) /\ strcspn 100 200 ex_mem = Ok (2, ex_mem).
Proof.
  destruct (string_searches_correct ex_mem 100 200 44 3 ex_text ex_set ex_str_text ex_str_set
    ltac:(lia) ltac:(vm_compute; discriminate) ltac:(vm_compute; discriminate))
    as (H1 & _ & _ & _ & _ & _ & H2 & _).
  split; [exact H1|exact H2].
Defined.

(** [strcmp] and [strncmp] give the order of the first byte in which the
    strings differ; the variants that ignore case return 0 exactly when the
    strings agree up to case within the limit, where [strncasecmp] takes a
    limit of 0 for [2 ^ 64]; [sysfs_streq] ignores one newline at the end. *)
Theorem string_comparisons_correct (m : mem) (s1 s2 n : Z) (l1 l2 : list Z)
    (H1 : str m s1 l1) (H2 : str m s2 l2) (Hn : 0 <= n < 2 ^ 64) :
  let k := Z.to_nat n in
  strcmp s1 s2 m = Ok (lex l1 l2, m) /\
  strncmp s1 s2 n m = Ok (lex (take k l1) (take k l2), m) /\
  reports (strcasecmp s1 s2 m) m l1 l2 /\
  reports (strnicmp s1 s2 n m) m (take k l1) (take k l2) /\
  (let k' := Z.to_nat (if n =? 0 then 2 ^ 64 else n) in
   reports (strncasecmp s1 s2 n m) m (take k' l1) (take k' l2)) /\
  sysfs_streq s1 s2 m = Ok (bool_decide (same_line l1 l2), m).
Proof.
  intros k. split_and!; [by apply strcmp_ok|apply strncmp_ok; (done || lia)|by apply strcasecmp_ok|
    apply strnicmp_ok; (done || lia)|by apply strncasecmp_ok|by apply sysfs_streq_ok].
Qed.

Lemma string_comparisons_correct_witness :
  strcmp 100 200 ex_mem = Ok (1, ex_mem) /\ exists d, strncasecmp 100 200 0 ex_mem = Ok (d, ex_mem) /\ d <> 0.
Proof.
  destruct (string_comparisons_correct ex_mem 100 200 0 ex_text ex_set ex_str_text ex_str_set ltac:(lia))
    as (H1 & _ & _ & _ & (d & Hd & Hz) & _).
  split; [exact H1|]. exists d. split; [exact Hd|]. intros ->. destruct Hz as [Hz _]. specialize (Hz eq_refl).
  cbn [Z.eqb] in Hz. rewrite !take_ge in Hz by (apply Nat2Z.inj_le; rewrite Z2Nat.id by lia; vm_compute; discriminate).
  discriminate Hz.
Defined.

Lemma str_written a l j m : byte_list l -> str (write a (cut j l) m) a (take j l).
Proof.
  unfold cut. intros Hb. apply (Forall_take _ j) in Hb. revert Hb. generalize (take j l). clear l.
  intros l. revert a m. induction l as [|b l IH]; intros a m Hb; simpl; [apply lookup_insert_eq|].
  apply Forall_cons in Hb as [Hb Hl]. split; [|split; [done|]].
  - rewrite write_out by lia. by rewrite lookup_insert_eq.
  - by apply IH.
Qed.

(** C27: copying into a buffer of [n] bytes that can be written and does not
    overlap the source string.  [strncpy] fills all [n] bytes: with the string
    and zeros after it, or with its first [n] bytes and no terminator when it
    is not shorter than [n].  [strlcpy] writes as much of it as fits and a
    terminator, nothing when [n] is 0, and returns its length.  [strcpy], of a
    string that fits, writes it and a terminator.  Nothing else is needed of
    what the buffer holds; when it holds a string, [strlcat] appends what fits
    and a terminator and returns the sum of the lengths, or stops at its
    [BUG_ON] when the string is not shorter than [n], [strncat] appends at most
    the given number of bytes and a terminator (nothing for 0), and [strcat]
    appends all of it when it fits.  A copy with a terminator then is the
    string it should be. *)
Theorem string_copies_correct (m : mem) (dest src n : Z) (l : list Z)
    (Hs : str m src l) (Hr : room m dest (Z.to_nat n)) (Hn : 0 <= n)
    (Hap : dest + n <= src \/ src + Z.of_nat (S (length l)) <= dest) :
  strncpy dest src n m = Ok (dest, write dest (take (Z.to_nat n) (l ++ replicate (Z.to_nat n) 0)) m) /\
  strlcpy dest src n m =
    Ok (Z.of_nat (length l), if n =? 0 then m else write dest (cut (Z.to_nat (n - 1)) l) m) /\
  (Z.of_nat (length l) < n -> strcpy dest src m = Ok (dest, write dest (cut (length l) l) m)) /\
  (forall ld, str m dest ld ->
     let d := dest + Z.of_nat (length ld) in
     strlcat dest src n m =
       (if n <=? Z.of_nat (length ld) then Err Oops
        else Ok (Z.of_nat (length ld) + Z.of_nat (length l),
                 write d (cut (Z.to_nat (n - Z.of_nat (length ld) - 1)) l) m)) /\
     (forall c, 0 <= c -> Z.of_nat (length ld) + c < n ->
        strncat dest src c m = Ok (dest, if c =? 0 then m else write d (cut (Z.to_nat c) l) m)) /\
     (Z.of_nat (length ld) + Z.of_nat (length l) < n ->
        strcat dest src m = Ok (dest, write d (cut (length l) l) m))) /\
  (forall a j, str (write a (cut j l) m) a (take j l)).
Proof.
  assert (Hroom : forall j q, (j + q <= Z.to_nat n)%nat -> room m (dest + Z.of_nat j) q).
  { intros j q Hq i Hi. destruct (Hr (j + i)%nat ltac:(lia)) as [x Hx]. exists x. rewrite <-Hx. f_equal. lia. }
  assert (Hroom0 : forall q, (q <= Z.to_nat n)%nat -> room m dest q) by (intros q Hq i Hi; apply Hr; lia).
  assert (Hcut : cut (length l) l = l ++ [0]) by (unfold cut; by rewrite take_ge).
  rewrite Hcut. split_and!.
  - apply strncpy_ok; (done || lia).
  - destruct (Z.eqb_spec n 0) as [->|]; [unfold strlcpy; by rewrite (bind_ok _ _ _ _ _ (strlen_ok _ _ _ Hs))|].
    apply strlcpy_ok; [done|lia|apply Hroom0; lia|unfold apart; lia].
  - intros Hl. apply strcpy_ok; [done|apply Hroom0; lia|unfold apart; lia].
  - intros ld Hd d. split_and!.
    + destruct (Z.leb_spec n (Z.of_nat (length ld))) as [Hle|Hlt].
      * unfold strlcat. rewrite (bind_ok _ _ _ _ _ (strlen_ok _ _ _ Hd)), (bind_ok _ _ _ _ _ (strlen_ok _ _ _ Hs)).
        by rewrite (proj2 (Z.leb_le _ _) Hle).
      * apply strlcat_ok; [done|done|lia|apply Hroom; lia|unfold apart; lia].
    + intros c Hc Hlt. destruct (Z.eqb_spec c 0) as [->|]; [done|].
      apply strncat_ok; [done|done|lia|apply Hroom; lia|unfold apart; lia].
    + intros Hl. apply strcat_ok; [done|done|apply Hroom; lia|unfold apart; lia].
  - intros a j. apply str_written. by eapply str_bytes.
Qed.

Lemma string_copies_correct_witness :
  strlcpy 300 100 4 ex_mem = Ok (6, write 300 [65; 98; 44; 0] ex_mem) /\
  strncpy 300 100 4 ex_mem = Ok (300, write 300 [65; 98; 44; 99] ex_mem).
Proof.
  destruct (string_copies_correct ex_mem 300 100 4 ex_text ex_str_text (ex_room 4 ltac:(lia)) ltac:(lia)
    ltac:(right; vm_compute; discriminate)) as (H1 & H2 & _).
  split; [exact H2|exact H1].
Defined.

(** [memmove] copies correctly however the areas overlap, [memcpy] when
    they are apart; [memset] fills; [memcmp] returns the difference of the
    first bytes that differ, which is 0 exactly for equal areas; [memchr] and
    [memscan] find the first occurrence. *)
Theorem memory_areas_correct (m : mem) (dest src c : Z) (l l' : list Z)
    (Hs : area m src l) (Hd : area m dest l') (Hl : length l' = length l) :
  let n := Z.of_nat (length l) in
  memmove dest src n m = Ok (dest, write dest l m) /\
  (apart dest src (length l) -> memcpy dest src n m = Ok (dest, write dest l m)) /\
  memset dest c n m = Ok (dest, write dest (repeat (u8 c) (length l)) m) /\
  (exists d, memcmp src dest n m = Ok (d, m) /\ (d = 0 <-> l = l')) /\
  memchr src c n m = Ok (found src (first (fun b => u8 c =? b) l), m) /\
  memscan src c n m = Ok (default (src + n) (found src (first (fun b => b =? c) l)), m).
Proof.
  intros n. assert (Hr : room m dest (length l)).
  { intros i Hi. rewrite (area_lookup _ _ _ _ Hd) by lia. apply lookup_lt_is_Some_2. lia. }
  split_and!.
  - by apply memmove_ok.
  - intros Hap. by apply copy_up.
  - subst n. rewrite memset_ok by (rewrite ?Nat2Z.id; (done || lia)). by rewrite Nat2Z.id.
  - exists (memdiff l l'). split; [apply memcmp_ok; (done || lia)|by apply memdiff_0].
  - by apply memchr_ok.
  - by apply memscan_ok.
Qed.

Lemma memory_areas_correct_witness :
  memmove 101 100 3 ex_mem = Ok (101, write 101 [65; 98; 44] ex_mem).
Proof.
  destruct (memory_areas_correct ex_mem 101 100 0 [65; 98; 44] [98; 44; 99]
    ltac:(vm_compute; intuition congruence) ltac:(vm_compute; intuition congruence) ltac:(reflexivity)) as (H & _).
  exact H.
Defined.

(** Calling [strsep] until it returns null yields the tokens between the
    separators, empty ones included, each a terminated string in the final
    memory; [strstrip] returns the string without white space at its ends.
    Neither touches memory outside the string. *)
Theorem string_splitting_correct (m : mem) (s ct : Z) (l k : list Z) (Hs : str m s l) (Hk : str m ct k)
    (Hd : ct + Z.of_nat (length k) < s \/ s + Z.of_nat (length l) < ct) :
  (exists ts m', strsep_all (S (S (length l))) (Some s) ct m = Ok (ts, m') /\
     Forall2 (str m') ts (tokens k l) /\
     (forall a, a < s \/ s + Z.of_nat (length l) < a -> m' !! a = m !! a)) /\
  (exists r m', strstrip s m = Ok (r, m') /\ str m' r (strip l) /\
     (forall a, a < s \/ s + Z.of_nat (length l) < a -> m' !! a = m !! a)).
Proof. split; [apply strsep_all_ok; (done || lia)|by apply strstrip_ok]. Qed.

Lemma string_splitting_correct_witness :
  exists ts m', strsep_all 8 (Some 100) 200 ex_mem = Ok (ts, m') /\ Forall2 (str m') ts [[65; 98]; [99]; [100]].
Proof.
  destruct (string_splitting_correct ex_mem 100 200 ex_text ex_set ex_str_text ex_str_set
    ltac:(right; vm_compute; reflexivity)) as ((ts & m' & H1 & H2 & _) & _).
  exists ts, m'. split; [exact H1|exact H2].
Defined.
