(* ===== verification/PosixAcl.v ===== *)
(** POSIX access control lists: [fs/posix_acl.c].

    An ACL is its reference count and the list of its entries; [a_count] is
    the length of the list.  The functions that change an ACL in place take
    the entries and return the new ones; pointers to entries are positions.
    Tags, permissions and modes are the integers of the C code. *)
From S2P Require Import Prelude.

(** ** Data *)

Definition ACL_UNDEFINED_ID : Z := 4294967295.

Definition ACL_USER_OBJ : Z := 1.
Definition ACL_USER : Z := 2.
Definition ACL_GROUP_OBJ : Z := 4.
Definition ACL_GROUP : Z := 8.
Definition ACL_MASK : Z := 16.
Definition ACL_OTHER : Z := 32.

Definition ACL_READ : Z := 4.
Definition ACL_WRITE : Z := 2.
Definition ACL_EXECUTE : Z := 1.

Definition S_IRWXU : Z := 448.
Definition S_IRWXG : Z := 56.
Definition S_IRWXO : Z := 7.
Definition S_IRWXUGO : Z := Z.lor S_IRWXU (Z.lor S_IRWXG S_IRWXO).

Definition EIO : Z := 5.
Definition ENOMEM : Z := 12.
Definition EACCES : Z := 13.
Definition EINVAL : Z := 22.

Record posix_acl_entry : Type := mk_entry { e_tag : Z; e_perm : Z; e_id : Z }.
Record posix_acl : Type := mk_acl { a_refcount : Z; a_entries : list posix_acl_entry }.

Definition set_perm (p : Z) (e : posix_acl_entry) : posix_acl_entry := mk_entry (e_tag e) p (e_id e).

(** ** Allocation *)

(** [mem] is what [kmalloc] returns, if it succeeds: entries that are not
    initialised. *)
Definition posix_acl_alloc (count : nat) (mem : option (list posix_acl_entry)) : option posix_acl :=
  entries ← mem; Some (mk_acl 1 (take count entries)).

Definition posix_acl_clone (acl : option posix_acl) (mem_ok : bool) : option posix_acl :=
  a ← acl; if mem_ok then Some (mk_acl 1 (a_entries a)) else None.

(** ** Validity *)

(** The loop with its variables [state], [id] and [needs_mask]. *)
Fixpoint valid_loop (state id : Z) (needs_mask : bool) (es : list posix_acl_entry) : Z :=
  match es with
  | [] => if state =? 0 then 0 else - EINVAL
  | pa :: es =>
      if negb (Z.land (e_perm pa) (Z.lnot (Z.lor ACL_READ (Z.lor ACL_WRITE ACL_EXECUTE))) =? 0) then - EINVAL
      else if e_tag pa =? ACL_USER_OBJ then
        if state =? ACL_USER_OBJ then valid_loop ACL_USER 0 needs_mask es else - EINVAL
      else if e_tag pa =? ACL_USER then
        if negb (state =? ACL_USER) then - EINVAL
        else if (e_id pa =? ACL_UNDEFINED_ID) || (e_id pa <? id) then - EINVAL
        else valid_loop state (u32 (e_id pa + 1)) true es
      else if e_tag pa =? ACL_GROUP_OBJ then
        if state =? ACL_USER then valid_loop ACL_GROUP 0 needs_mask es else - EINVAL
      else if e_tag pa =? ACL_GROUP then
        if negb (state =? ACL_GROUP) then - EINVAL
        else if (e_id pa =? ACL_UNDEFINED_ID) || (e_id pa <? id) then - EINVAL
        else valid_loop state (u32 (e_id pa + 1)) true es
      else if e_tag pa =? ACL_MASK then
        if negb (state =? ACL_GROUP) then - EINVAL else valid_loop ACL_OTHER id needs_mask es
      else if e_tag pa =? ACL_OTHER then
        if (state =? ACL_OTHER) || ((state =? ACL_GROUP) && negb needs_mask)
        then valid_loop 0 id needs_mask es else - EINVAL
      else - EINVAL
  end.

Definition posix_acl_valid (acl : posix_acl) : Z := valid_loop ACL_USER_OBJ 0 false (a_entries acl).

(** ** ACLs and file modes *)

Fixpoint equiv_loop (mode not_equiv : Z) (es : list posix_acl_entry) : option (Z * Z) :=
  match es with
  | [] => Some (mode, not_equiv)
  | pa :: es =>
      let bits := Z.land (e_perm pa) S_IRWXO in
      if e_tag pa =? ACL_USER_OBJ then equiv_loop (Z.lor mode (Z.shiftl bits 6)) not_equiv es
      else if e_tag pa =? ACL_GROUP_OBJ then equiv_loop (Z.lor mode (Z.shiftl bits 3)) not_equiv es
      else if e_tag pa =? ACL_OTHER then equiv_loop (Z.lor mode bits) not_equiv es
      else if e_tag pa =? ACL_MASK then
        equiv_loop (Z.lor (Z.land mode (Z.lnot S_IRWXG)) (Z.shiftl bits 3)) 1 es
      else if (e_tag pa =? ACL_USER) || (e_tag pa =? ACL_GROUP) then equiv_loop mode 1 es
      else None
  end.

(** The result and the new value of [*mode_p]. *)
Definition posix_acl_equiv_mode (acl : posix_acl) (mode_p : Z) : Z * Z :=
  match equiv_loop 0 0 (a_entries acl) with
  | None => (- EINVAL, mode_p)
  | Some (mode, not_equiv) => (not_equiv, Z.lor (Z.land mode_p (Z.lnot S_IRWXUGO)) mode)
  end.

(** [None] is [ERR_PTR(-ENOMEM)]. *)
Definition posix_acl_from_mode (mode : Z) (mem_ok : bool) : option posix_acl :=
  if mem_ok then
    Some (mk_acl 1
      [mk_entry ACL_USER_OBJ (Z.shiftr (Z.land mode S_IRWXU) 6) ACL_UNDEFINED_ID;
       mk_entry ACL_GROUP_OBJ (Z.shiftr (Z.land mode S_IRWXG) 3) ACL_UNDEFINED_ID;
       mk_entry ACL_OTHER (Z.land mode S_IRWXO) ACL_UNDEFINED_ID])
  else None.

(** ** Permission *)

Section Permission.
  (** The owner and group of the inode, the user the task acts as on the file
      system, and the groups it is in, which [in_group_p] decides. *)
  Context (i_uid i_gid fsuid : Z) (in_group_p : Z -> bool) (want : Z).

Definition grants (perm : Z) : bool := Z.land perm want =? want.

(** The label [check_perm]. *)
Definition check_perm (pa : posix_acl_entry) : Z := if grants (e_perm pa) then 0 else - EACCES.

(** The label [mask]: [es] are the entries after [pa]. *)
Fixpoint check_mask (pa : posix_acl_entry) (es : list posix_acl_entry) : Z :=
  match es with
  | [] => check_perm pa
  | mask_obj :: es =>
      if e_tag mask_obj =? ACL_MASK then
        if grants (Z.land (e_perm pa) (e_perm mask_obj)) then 0 else - EACCES
      else check_mask pa es
  end.

Fixpoint permission_loop (found : bool) (es : list posix_acl_entry) : Z :=
  match es with
  | [] => - EIO
  | pa :: es =>
      if e_tag pa =? ACL_USER_OBJ then
        if i_uid =? fsuid then check_perm pa else permission_loop found es
      else if e_tag pa =? ACL_USER then
        if e_id pa =? fsuid then check_mask pa es else permission_loop found es
      else if e_tag pa =? ACL_GROUP_OBJ then
        if in_group_p i_gid then
          if grants (e_perm pa) then check_mask pa es else permission_loop true es
        else permission_loop found es
      else if e_tag pa =? ACL_GROUP then
        if in_group_p (e_id pa) then
          if grants (e_perm pa) then check_mask pa es else permission_loop true es
        else permission_loop found es
      else if e_tag pa =? ACL_MASK then permission_loop found es
      else if e_tag pa =? ACL_OTHER then
        if (found : bool) then - EACCES else check_perm pa
      else - EIO
  end.

Definition posix_acl_permission (acl : posix_acl) : Z := permission_loop false (a_entries acl).
End Permission.

(** ** Changing an ACL in place *)

(** The variables of the loops: the mode, the positions of the group and
    mask entries, and [not_equiv]. *)
Record masq : Type := mk_masq {
  q_mode : Z; q_group : option nat; q_mask : option nat; q_not_equiv : Z;
}.

(** The entries after the loop, and its variables unless it met an unknown
    tag. *)
Fixpoint create_loop (i : nat) (q : masq) (es : list posix_acl_entry) : list posix_acl_entry * option masq :=
  match es with
  | [] => ([], Some q)
  | pa :: es' =>
      let '(mk_masq mode g k ne) := q in
      let next pa q := prod_map (cons pa) id (create_loop (S i) q es') in
      if e_tag pa =? ACL_USER_OBJ then
        let perm := Z.land (e_perm pa) (Z.lor (Z.shiftr mode 6) (Z.lnot S_IRWXO)) in
        let mode := Z.land mode (Z.lor (Z.shiftl perm 6) (Z.lnot S_IRWXU)) in
        next (set_perm perm pa) (mk_masq mode g k ne)
      else if (e_tag pa =? ACL_USER) || (e_tag pa =? ACL_GROUP) then next pa (mk_masq mode g k 1)
      else if e_tag pa =? ACL_GROUP_OBJ then next pa (mk_masq mode (Some i) k ne)
      else if e_tag pa =? ACL_OTHER then
        let perm := Z.land (e_perm pa) (Z.lor mode (Z.lnot S_IRWXO)) in
        let mode := Z.land mode (Z.lor perm (Z.lnot S_IRWXO)) in
        next (set_perm perm pa) (mk_masq mode g k ne)
      else if e_tag pa =? ACL_MASK then next pa (mk_masq mode g (Some i) 1)
      else (es, None)
  end.

(** The entry that stands for the group bits: the mask if there is one. *)
Definition group_entry (mask_obj group_obj : option nat) : option nat :=
  match mask_obj with Some i => Some i | None => group_obj end.

(** The result, the ACL and [*mode_p] afterwards. *)
Definition posix_acl_create_masq (acl : posix_acl) (mode_p : Z) : Z * posix_acl * Z :=
  let '(es, oq) := create_loop O (mk_masq mode_p None None 0) (a_entries acl) in
  let fail := (- EIO, mk_acl (a_refcount acl) es, mode_p) in
  match oq with
  | None => fail
  | Some (mk_masq mode g k ne) =>
      match group_entry k g ≫= fun i => pair i <$> es !! i with
      | None => fail
      | Some (i, e) =>
          let perm := Z.land (e_perm e) (Z.lor (Z.shiftr mode 3) (Z.lnot S_IRWXO)) in
          let mode := Z.land mode (Z.lor (Z.shiftl perm 3) (Z.lnot S_IRWXG)) in
          (ne, mk_acl (a_refcount acl) (<[i := set_perm perm e]> es),
           Z.lor (Z.land mode_p (Z.lnot S_IRWXUGO)) mode)
      end
  end.

Fixpoint chmod_loop (i : nat) (mode : Z) (g k : option nat) (es : list posix_acl_entry) :
    list posix_acl_entry * option (option nat * option nat) :=
  match es with
  | [] => ([], Some (g, k))
  | pa :: es' =>
      let next pa g k := prod_map (cons pa) id (chmod_loop (S i) mode g k es') in
      if e_tag pa =? ACL_USER_OBJ then next (set_perm (Z.shiftr (Z.land mode S_IRWXU) 6) pa) g k
      else if (e_tag pa =? ACL_USER) || (e_tag pa =? ACL_GROUP) then next pa g k
      else if e_tag pa =? ACL_GROUP_OBJ then next pa (Some i) k
      else if e_tag pa =? ACL_MASK then next pa g (Some i)
      else if e_tag pa =? ACL_OTHER then next (set_perm (Z.land mode S_IRWXO) pa) g k
      else (es, None)
  end.

Definition posix_acl_chmod_masq (acl : posix_acl) (mode : Z) : Z * posix_acl :=
  let '(es, o) := chmod_loop O mode None None (a_entries acl) in
  let fail := (- EIO, mk_acl (a_refcount acl) es) in
  match o with
  | None => fail
  | Some (g, k) =>
      match group_entry k g ≫= fun i => pair i <$> es !! i with
      | None => fail
      | Some (i, e) => (0, mk_acl (a_refcount acl) (<[i := set_perm (Z.shiftr (Z.land mode S_IRWXG) 3) e]> es))
      end
  end.

(** ** Well-formed ACLs *)

Abbreviation tagged t := (fun e => e_tag e = t).

(** User or group entries: of one tag, with increasing defined ids. *)
Fixpoint ids_from (tag id : Z) (es : list posix_acl_entry) : Prop :=
  match es with
  | [] => True
  | e :: es => e_tag e = tag /\ id <= e_id e < ACL_UNDEFINED_ID /\ ids_from tag (e_id e + 1) es
  end.

(** Owner, users, owning group, groups, mask, others, in this order; the mask
    is there when a user or group is named. *)
Record acl_form (es : list posix_acl_entry) (u : posix_acl_entry) (us : list posix_acl_entry)
    (g : posix_acl_entry) (gs mk : list posix_acl_entry) (o : posix_acl_entry) : Prop := {
  form_eq : es = u :: us ++ g :: gs ++ mk ++ [o];
  form_u : e_tag u = ACL_USER_OBJ;
  form_us : ids_from ACL_USER 0 us;
  form_g : e_tag g = ACL_GROUP_OBJ;
  form_gs : ids_from ACL_GROUP 0 gs;
  form_mk : (mk = [] /\ us = [] /\ gs = []) \/ exists m, mk = [m] /\ e_tag m = ACL_MASK;
  form_o : e_tag o = ACL_OTHER;
}.

Definition perm_ok (e : posix_acl_entry) : Prop := 0 <= e_perm e < 8.
Definition acl_ok (es : list posix_acl_entry) : Prop :=
  Forall perm_ok es /\ exists u us g gs mk o, acl_form es u us g gs mk o.

(** Entries as the C type has them. *)
Definition typed (e : posix_acl_entry) : Prop := 0 <= e_perm e < 65536 /\ 0 <= e_id e <= ACL_UNDEFINED_ID.

Lemma perm_bits p : 0 <= p -> Z.land p (Z.lnot 7) = 0 <-> p < 8.
Proof.
  intros Hp. change 7 with (Z.ones 3). rewrite <-Z.ldiff_land, Z.ldiff_ones_r by lia.
  rewrite Z.shiftl_mul_pow2, Z.shiftr_div_pow2 by lia. change (2 ^ 3) with 8.
  pose proof (Z.div_mod p 8 ltac:(lia)). pose proof (Z.mod_pos_bound p 8 ltac:(lia)). lia.
Qed.

(** What the loop accepts in each of its states. *)
Definition rest_other (es : list posix_acl_entry) : Prop :=
  exists o, es = [o] /\ e_tag o = ACL_OTHER.
Definition rest_group (id : Z) (nm : bool) (es : list posix_acl_entry) : Prop :=
  exists gs mk o, es = gs ++ mk ++ [o] /\ ids_from ACL_GROUP id gs /\ e_tag o = ACL_OTHER /\
    ((mk = [] /\ nm = false /\ gs = []) \/ exists m, mk = [m] /\ e_tag m = ACL_MASK).
Definition rest_user (id : Z) (nm : bool) (es : list posix_acl_entry) : Prop :=
  exists us g gs mk o, es = us ++ g :: gs ++ mk ++ [o] /\ ids_from ACL_USER id us /\ e_tag g = ACL_GROUP_OBJ /\
    ids_from ACL_GROUP 0 gs /\ e_tag o = ACL_OTHER /\
    ((mk = [] /\ nm = false /\ us = [] /\ gs = []) \/ exists m, mk = [m] /\ e_tag m = ACL_MASK).

Lemma perm_test pa :
  typed pa ->
  (Z.land (e_perm pa) (Z.lnot (Z.lor ACL_READ (Z.lor ACL_WRITE ACL_EXECUTE))) =? 0) = (e_perm pa <? 8).
Proof.
  intros [Hp _]. change (Z.lor ACL_READ (Z.lor ACL_WRITE ACL_EXECUTE)) with 7.
  destruct (Z.eqb_spec (Z.land (e_perm pa) (Z.lnot 7)) 0) as [E|E]; rewrite perm_bits in E by lia; lia.
Qed.

(** Cases on the tag of an entry, with the tests on the state computed. *)
Ltac tags := cbn [Z.eqb Pos.eqb negb orb andb ACL_USER_OBJ ACL_USER ACL_GROUP_OBJ ACL_GROUP ACL_MASK ACL_OTHER].
Ltac tag_cases pa :=
  repeat match goal with
    | |- context [e_tag pa =? ?t] => destruct (Z.eqb_spec (e_tag pa) t)
    end; tags.

Lemma valid_0 id nm es : valid_loop 0 id nm es = 0 <-> es = [].
Proof.
  destruct es as [|pa es]; cbn [valid_loop]; [done|]. split; [|done].
  case_match; [done|]. by tag_cases pa.
Qed.

Lemma valid_other id nm es :
  Forall typed es -> valid_loop ACL_OTHER id nm es = 0 <-> Forall perm_ok es /\ rest_other es.
Proof.
  intros Ht. destruct Ht as [|pa es Hpa Ht]; cbn [valid_loop].
  { split; [done|]. by intros (_ & o & ? & _). }
  rewrite perm_test by done. destruct (Z.ltb_spec (e_perm pa) 8) as [Hp|Hp]; cbn [negb].
  2: { split; [done|]. intros [Hall _]. apply Forall_cons_1 in Hall as [H _]. unfold perm_ok in H. lia. }
  assert (Hok : perm_ok pa) by (destruct Hpa; unfold perm_ok; lia).
  split.
  - tag_cases pa; try done. rewrite valid_0. intros ->. split; [by apply Forall_singleton|]. by exists pa.
  - intros (_ & o & [= -> ->] & Ho). rewrite Ho. cbn. done.
Qed.

(** The loop on an entry with legal permissions. *)
Lemma valid_perm st id nm pa es :
  Forall typed (pa :: es) -> valid_loop st id nm (pa :: es) = 0 -> perm_ok pa.
Proof.
  intros Ht%Forall_cons_1. destruct Ht as [Hpa _]. cbn [valid_loop]. rewrite perm_test by done.
  destruct (Z.ltb_spec (e_perm pa) 8); [|done]. intros _. destruct Hpa. unfold perm_ok. lia.
Qed.

Lemma perm_test_ok pa : typed pa -> perm_ok pa ->
  negb (Z.land (e_perm pa) (Z.lnot (Z.lor ACL_READ (Z.lor ACL_WRITE ACL_EXECUTE))) =? 0) = false.
Proof. intros Ht Hp. rewrite perm_test by done. unfold perm_ok in Hp. lia. Qed.

Lemma id_test pa id :
  typed pa -> ((e_id pa =? ACL_UNDEFINED_ID) || (e_id pa <? id) = false) <-> id <= e_id pa < ACL_UNDEFINED_ID.
Proof. intros [_ Hi]. lia. Qed.

Lemma id_next pa : typed pa -> e_id pa < ACL_UNDEFINED_ID -> u32 (e_id pa + 1) = e_id pa + 1.
Proof. intros [_ Hi] Hlt. apply uwrap_small. unfold ACL_UNDEFINED_ID in *. change (2 ^ 32) with 4294967296. lia. Qed.

Lemma valid_group es : forall id nm,
  Forall typed es -> valid_loop ACL_GROUP id nm es = 0 <-> Forall perm_ok es /\ rest_group id nm es.
Proof.
  induction es as [|pa es IH]; intros id nm Ht.
  { split; [done|]. intros (_ & gs & mk & o & E & _). by destruct gs, mk. }
  apply Forall_cons_1 in Ht as Ht'. destruct Ht' as [Hpa Ht2]. split.
  - intros Hv. pose proof (valid_perm _ _ _ _ _ Ht Hv) as Hok. revert Hv. cbn [valid_loop].
    rewrite perm_test_ok by done. tag_cases pa; try done.
    + destruct ((e_id pa =? ACL_UNDEFINED_ID) || (e_id pa <? id)) eqn:Ei; [done|]. apply id_test in Ei; [|done].
      rewrite id_next by lia || done. rewrite IH by done. intros (Hall & gs & mk & o & -> & Hg & Ho & Hm).
      split; [by constructor|]. exists (pa :: gs), mk, o. split_and!; try done.
      right. by destruct Hm as [(_ & ? & _)|].
    + rewrite valid_other by done. intros (Hall & o & -> & Ho). split; [by constructor|].
      exists [], [pa], o. split_and!; try done. right. by exists pa.
    + destruct nm; [done|]. cbn. rewrite valid_0. intros ->. split; [by constructor|].
      exists [], [], pa. split_and!; try done. by left.
  - intros [Hall (gs & mk & o & E & Hg & Ho & Hm)]. apply Forall_cons_1 in Hall as [Hok Hall].
    cbn [valid_loop]. rewrite perm_test_ok by done. destruct gs as [|e gs].
    + destruct Hm as [(-> & -> & _)|(m & -> & Em)]; injection E as -> ->.
      * rewrite Ho. tags. done.
      * rewrite Em. tags. apply valid_other; [done|]. split; [done|]. by exists o.
    + injection E as -> ->. destruct Hg as (Eg & Hi & Hg). rewrite Eg. tags.
      rewrite (proj2 (id_test e id Hpa) Hi), id_next by lia || done. apply IH; [done|]. split; [done|].
      exists gs, mk, o. split_and!; try done. right. by destruct Hm as [(_ & _ & ?)|].
Qed.

Lemma valid_user es : forall id nm,
  Forall typed es -> valid_loop ACL_USER id nm es = 0 <-> Forall perm_ok es /\ rest_user id nm es.
Proof.
  induction es as [|pa es IH]; intros id nm Ht.
  { split; [done|]. intros (_ & us & g & gs & mk & o & E & _). by destruct us. }
  apply Forall_cons_1 in Ht as Ht'. destruct Ht' as [Hpa Ht2]. split.
  - intros Hv. pose proof (valid_perm _ _ _ _ _ Ht Hv) as Hok. revert Hv. cbn [valid_loop].
    rewrite perm_test_ok by done. tag_cases pa; try done.
    + destruct ((e_id pa =? ACL_UNDEFINED_ID) || (e_id pa <? id)) eqn:Ei; [done|]. apply id_test in Ei; [|done].
      rewrite id_next by lia || done. rewrite IH by done.
      intros (Hall & us & g & gs & mk & o & -> & Hu & Eg & Hg & Ho & Hm).
      split; [by constructor|]. exists (pa :: us), g, gs, mk, o. split_and!; try done.
      right. by destruct Hm as [(_ & ? & _)|].
    + rewrite valid_group by done. intros (Hall & gs & mk & o & -> & Hg & Ho & Hm). split; [by constructor|].
      exists [], pa, gs, mk, o. split_and!; try done. naive_solver.
  - intros [Hall (us & g & gs & mk & o & E & Hu & Eg & Hg & Ho & Hm)]. apply Forall_cons_1 in Hall as [Hok Hall].
    cbn [valid_loop]. rewrite perm_test_ok by done. destruct us as [|e us].
    + injection E as -> ->. rewrite Eg. tags. apply valid_group; [done|]. split; [done|].
      exists gs, mk, o. split_and!; try done. naive_solver.
    + injection E as -> ->. destruct Hu as (Et & Hi & Hu). rewrite Et. tags.
      rewrite (proj2 (id_test e id Hpa) Hi), id_next by lia || done. apply IH; [done|]. split; [done|].
      exists us, g, gs, mk, o. split_and!; try done. right. by destruct Hm as [(_ & _ & ? & _)|].
Qed.

Lemma valid_iff es : Forall typed es -> valid_loop ACL_USER_OBJ 0 false es = 0 <-> acl_ok es.
Proof.
  intros Ht. destruct es as [|pa es].
  { split; [done|]. by intros (_ & u & us & g & gs & mk & o & [E _ _ _ _ _ _]). }
  apply Forall_cons_1 in Ht as Ht'. destruct Ht' as [Hpa Ht2]. unfold acl_ok. split.
  - intros Hv. pose proof (valid_perm _ _ _ _ _ Ht Hv) as Hok. revert Hv. cbn [valid_loop].
    rewrite perm_test_ok by done. tag_cases pa; try done. rewrite valid_user by done.
    intros (Hall & us & g & gs & mk & o & -> & Hu & Eg & Hg & Ho & Hm). split; [by constructor|].
    exists pa, us, g, gs, mk, o. split; try done. naive_solver.
  - intros [Hall (u & us & g & gs & mk & o & [E Eu Hu Eg Hg Hm Ho])]. apply Forall_cons_1 in Hall as [Hok Hall].
    injection E as -> ->. cbn [valid_loop]. rewrite perm_test_ok by done. rewrite Eu. tags.
    apply valid_user; [done|]. split; [done|]. exists us, g, gs, mk, o. split_and!; try done. naive_solver.
Qed.

(** ** The access check of POSIX.1e *)

Lemma ids_tags tag id es : ids_from tag id es -> Forall (tagged tag) es.
Proof. revert id. induction es as [|e es IH]; intros id; simpl; [constructor|]. naive_solver. Qed.

Section Access.
  Context (i_uid i_gid fsuid : Z) (in_group_p : Z -> bool) (want : Z).

(** Permissions limited by the mask. *)
Definition masked (mk : list posix_acl_entry) (e : posix_acl_entry) : Z :=
  match mk with [] => e_perm e | m :: _ => Z.land (e_perm e) (e_perm m) end.

(** The owner's entry applies to the owner; else the entry of the user; else
    one of the entries of the groups the task is in has to grant the access;
    only without any of these the entry for others applies. *)
Definition acl_access (u : posix_acl_entry) (us : list posix_acl_entry) (g : posix_acl_entry)
    (gs mk : list posix_acl_entry) (o : posix_acl_entry) : bool :=
  if i_uid =? fsuid then grants want (e_perm u)
  else match find (fun e => e_id e =? fsuid) us with
       | Some e => grants want (masked mk e)
       | None =>
           match (if in_group_p i_gid then [g] else []) ++ List.filter (fun e => in_group_p (e_id e)) gs with
           | [] => grants want (e_perm o)
           | es => existsb (fun e => grants want (masked mk e)) es
           end
       end.

Abbreviation result b := (if b : bool then 0 else - EACCES).

Lemma check_mask_skip pa l1 l2 :
  Forall (fun e => e_tag e <> ACL_MASK) l1 -> check_mask want pa (l1 ++ l2) = check_mask want pa l2.
Proof.
  induction 1 as [|e l1 He _ IH]; [done|]. cbn [app check_mask].
  by rewrite (proj2 (Z.eqb_neq _ _) He).
Qed.

Lemma grants_spec p :
  grants want p = true <-> forall n, 0 <= n -> Z.testbit want n = true -> Z.testbit p n = true.
Proof.
  unfold grants. rewrite Z.eqb_eq. split.
  - intros E n Hn Hw. rewrite <-E, Z.land_spec in Hw. by apply andb_true_iff in Hw as [? _].
  - intros H. apply Z.bits_inj'. intros n Hn. rewrite Z.land_spec.
    destruct (Z.testbit want n) eqn:E; [|apply andb_false_r]. by rewrite (H n Hn E).
Qed.

Lemma grants_land p q : grants want (Z.land p q) = grants want p && grants want q.
Proof.
  apply eq_true_iff_eq. rewrite andb_true_iff, !grants_spec. split.
  - intros H. split; intros n Hn Hw; specialize (H n Hn Hw); rewrite Z.land_spec in H;
      apply andb_true_iff in H; tauto.
  - intros [H1 H2] n Hn Hw. rewrite Z.land_spec, H1, H2 by done. done.
Qed.

(** When an entry's permissions would do but the mask denies them, no other
    entry helps. *)
Lemma mask_denies mk e es :
  grants want (e_perm e) = true -> grants want (masked mk e) = false ->
  existsb (fun e => grants want (masked mk e)) es = false.
Proof.
  intros He Hm. apply not_true_iff_false. intros (e' & _ & He')%existsb_exists. unfold masked in *.
  destruct mk as [|m mk']; [congruence|]. rewrite grants_land in *. rewrite He in Hm. cbn in Hm.
  by rewrite Hm, andb_false_r in He'.
Qed.

Lemma masked_denied mk e : grants want (e_perm e) = false -> grants want (masked mk e) = false.
Proof. unfold masked. destruct mk; [done|]. rewrite grants_land. by intros ->. Qed.

Section Form.
  Context (mk : list posix_acl_entry) (o : posix_acl_entry).
  Hypothesis Hmk : mk = [] \/ exists m, mk = [m] /\ e_tag m = ACL_MASK.
  Hypothesis Ho : e_tag o = ACL_OTHER.

Lemma check_mask_ok pa l1 :
  Forall (fun e => e_tag e <> ACL_MASK) l1 ->
  check_mask want pa (l1 ++ mk ++ [o]) = result (grants want (masked mk pa)).
Proof.
  intros Hl. rewrite check_mask_skip by done. destruct Hmk as [->|(m & -> & Em)]; cbn [app check_mask masked].
  - rewrite Ho. tags. done.
  - rewrite Em. tags. done.
Qed.

(** The part of the list from the owning group's entries on. *)
Lemma permission_groups found gs :
  Forall (tagged ACL_GROUP) gs ->
  permission_loop i_uid i_gid fsuid in_group_p want found (gs ++ mk ++ [o]) =
  match List.filter (fun e => in_group_p (e_id e)) gs with
  | [] => if found then - EACCES else result (grants want (e_perm o))
  | es => result (existsb (fun e => grants want (masked mk e)) es)
  end.
Proof.
  intros Hg. revert found. induction Hg as [|e gs He Hg IH]; intros found; cbn [app List.filter].
  - assert (Hend : permission_loop i_uid i_gid fsuid in_group_p want found [o] =
      (if found then - EACCES else result (grants want (e_perm o)))).
    { cbn [permission_loop]. rewrite Ho. tags. by destruct found. }
    destruct Hmk as [->|(m & -> & Em)]; cbn [app]; [done|].
    rewrite <-Hend. cbn [permission_loop]. rewrite Em. tags. done.
  - cbn [permission_loop]. rewrite He. tags. destruct (in_group_p (e_id e)); [|apply IH].
    assert (Hmask : Forall (fun e => e_tag e <> ACL_MASK) gs) by (eapply Forall_impl; [exact Hg|]; by intros ? ->).
    cbn [existsb]. destruct (grants want (e_perm e)) eqn:Eg.
    + rewrite check_mask_ok by done. destruct (grants want (masked mk e)) eqn:Em; [done|]. cbn [orb].
      by rewrite (mask_denies mk e).
    + rewrite IH. rewrite masked_denied by done. cbn [orb].
      by destruct (List.filter (fun e => in_group_p (e_id e)) gs).
Qed.

Lemma permission_users us l :
  Forall (tagged ACL_USER) us -> Forall (fun e => e_tag e <> ACL_MASK) l ->
  permission_loop i_uid i_gid fsuid in_group_p want false (us ++ l ++ mk ++ [o]) =
  match find (fun e => e_id e =? fsuid) us with
  | Some e => result (grants want (masked mk e))
  | None => permission_loop i_uid i_gid fsuid in_group_p want false (l ++ mk ++ [o])
  end.
Proof.
  intros Hu Hl. induction Hu as [|e us He Hu IH]; cbn [app find]; [done|].
  cbn [permission_loop]. rewrite He. tags. destruct (e_id e =? fsuid); [|apply IH].
  rewrite app_assoc. apply check_mask_ok. apply Forall_app. split; [|done].
  eapply Forall_impl; [exact Hu|]. by intros ? ->.
Qed.
End Form.

Lemma permission_form es u us g gs mk o :
  acl_form es u us g gs mk o ->
  permission_loop i_uid i_gid fsuid in_group_p want false es = result (acl_access u us g gs mk o).
Proof.
  intros [-> Eu Hu%ids_tags Eg Hg%ids_tags Hm Ho]. unfold acl_access. cbn [permission_loop]. rewrite Eu. tags.
  assert (Hmk : mk = [] \/ exists m, mk = [m] /\ e_tag m = ACL_MASK) by naive_solver.
  destruct (i_uid =? fsuid); [done|].
  assert (Hng : Forall (fun e => e_tag e <> ACL_MASK) (g :: gs)).
  { constructor; [by rewrite Eg|]. eapply Forall_impl; [exact Hg|]. by intros ? ->. }
  change (us ++ g :: gs ++ mk ++ [o]) with (us ++ (g :: gs) ++ mk ++ [o]).
  rewrite (permission_users mk o Hmk Ho us (g :: gs)) by done.
  destruct (find _ us); [done|]. cbn [app permission_loop]. rewrite Eg. tags.
  destruct (in_group_p i_gid); cbn [app].
  2: { rewrite (permission_groups mk o Hmk Ho) by done. by destruct (List.filter _ gs). }
  apply Forall_cons_1 in Hng as [_ Hng]. cbn [existsb]. destruct (grants want (e_perm g)) eqn:Egr.
  - rewrite (check_mask_ok mk o Hmk Ho) by done. destruct (grants want (masked mk g)) eqn:Em; [done|]. cbn [orb].
    by rewrite (mask_denies mk g).
  - rewrite (permission_groups mk o Hmk Ho) by done. rewrite masked_denied by done. cbn [orb].
    by destruct (List.filter _ gs).
Qed.
End Access.

(** Only the answers of [in_group_p] matter. *)
Lemma acl_access_ext i_uid i_gid fsuid p q want u us g gs mk o :
  (forall x, p x = q x) ->
  acl_access i_uid i_gid fsuid p want u us g gs mk o = acl_access i_uid i_gid fsuid q want u us g gs mk o.
Proof.
  intros Hpq. unfold acl_access. rewrite Hpq.
  by rewrite (filter_ext (fun e => p (e_id e)) (fun e => q (e_id e))) by (intros; apply Hpq).
Qed.

(** ** Bits of modes *)

Lemma bits_O n : 0 <= n -> Z.testbit S_IRWXO n = (n <? 3).
Proof.
  intros Hn. change S_IRWXO with (Z.ones 3). rewrite Z.testbit_ones_nonneg by lia.
  done.
Qed.
Lemma bits_G n : 0 <= n -> Z.testbit S_IRWXG n = (3 <=? n) && (n <? 6).
Proof.
  intros Hn. change S_IRWXG with (Z.shiftl (Z.ones 3) 3). rewrite Z.shiftl_spec by lia.
  rewrite Z.testbit_ones by lia. lia.
Qed.
Lemma bits_U n : 0 <= n -> Z.testbit S_IRWXU n = (6 <=? n) && (n <? 9).
Proof.
  intros Hn. change S_IRWXU with (Z.shiftl (Z.ones 3) 6). rewrite Z.shiftl_spec by lia.
  rewrite Z.testbit_ones by lia. lia.
Qed.

Lemma perm_high p n : 0 <= p < 8 -> 3 <= n -> Z.testbit p n = false.
Proof.
  intros Hp Hn. destruct (Z.eq_dec p 0) as [->|]; [apply Z.bits_0|]. apply Z.bits_above_log2; [lia|].
  apply Z.log2_lt_pow2; [lia|]. apply Z.lt_le_trans with (2 ^ 3); [lia|]. apply Z.pow_le_mono_r; lia.
Qed.

(** One comparison of the bit number decided by the range it is in. *)
Ltac decide_range n :=
  repeat match goal with
    | |- context [?a <? ?b] => first [rewrite (proj2 (Z.ltb_lt a b)) by lia | rewrite (proj2 (Z.ltb_ge a b)) by lia]
    | |- context [?a <=? ?b] => first [rewrite (proj2 (Z.leb_le a b)) by lia | rewrite (proj2 (Z.leb_gt a b)) by lia]
    end.

Ltac bit_step :=
  match goal with
  | |- context [Z.testbit ?a ?k] =>
      first
        [ rewrite (Z.testbit_neg_r a k) by lia
        | match a with
          | Z.lor ?x ?y => rewrite (Z.lor_spec x y k)
          | Z.land ?x ?y => rewrite (Z.land_spec x y k)
          | Z.lnot ?x => rewrite (Z.lnot_spec x k) by lia
          | Z.shiftl ?x ?j => rewrite (Z.shiftl_spec x j k) by lia
          | Z.shiftr ?x ?j => rewrite (Z.shiftr_spec x j k) by lia
          | S_IRWXO => rewrite (bits_O k) by lia
          | S_IRWXG => rewrite (bits_G k) by lia
          | S_IRWXU => rewrite (bits_U k) by lia
          | 0 => rewrite (Z.bits_0 k)
          | _ => rewrite (perm_high a k) by lia
          end ]
  end.

(** Two modes are equal when they agree in each of the three groups of bits
    and above. *)
Ltac mode_bits :=
  unfold S_IRWXUGO; apply Z.bits_inj'; intros n Hn;
  destruct (Z.ltb_spec n 3); [|destruct (Z.ltb_spec n 6); [|destruct (Z.ltb_spec n 9)]];
  repeat bit_step; decide_range n;
  rewrite ?Z.sub_add, ?Z.add_simpl_r;
  repeat match goal with |- context [Z.testbit ?p ?k] => destruct (Z.testbit p k) end; try done.

(** The mode with the given permissions for owner, group and others. *)
Definition mode3 (u g o : Z) : Z := Z.lor (Z.shiftl u 6) (Z.lor (Z.shiftl g 3) o).

(** The entry whose permissions are the group bits of the mode. *)
Definition group_of (g : posix_acl_entry) (mk : list posix_acl_entry) : posix_acl_entry :=
  match mk with [] => g | m :: _ => m end.

(** Named users and groups only set [not_equiv]. *)
Definition not_equiv_after (ne : Z) (named : list posix_acl_entry) : Z := match named with [] => ne | _ => 1 end.

Lemma equiv_named tag mode ne named l :
  tag = ACL_USER \/ tag = ACL_GROUP -> Forall (tagged tag) named ->
  equiv_loop mode ne (named ++ l) = equiv_loop mode (not_equiv_after ne named) l.
Proof.
  intros Ht Hn. revert ne. induction Hn as [|e named He _ IH]; intros ne; [done|].
  cbn [app equiv_loop not_equiv_after]. assert (E : equiv_loop mode 1 (named ++ l) = equiv_loop mode 1 l).
  { rewrite IH. by destruct named. }
  destruct Ht as [-> | ->]; rewrite He; tags; done.
Qed.

Lemma equiv_form es u us g gs mk o :
  acl_form es u us g gs mk o -> Forall perm_ok es ->
  equiv_loop 0 0 es =
  Some (mode3 (e_perm u) (e_perm (group_of g mk)) (e_perm o), match mk with [] => 0 | _ => 1 end).
Proof.
  intros [-> Eu Hu%ids_tags Eg Hg%ids_tags Hm Ho] Hp.
  apply Forall_cons_1 in Hp as [Pu Hp]. apply Forall_app in Hp as [_ Hp]. apply Forall_cons_1 in Hp as [Pg Hp].
  apply Forall_app in Hp as [_ Hp]. apply Forall_app in Hp as [Pm Po]. apply Forall_cons_1 in Po as [Po _].
  unfold perm_ok in *. cbn [equiv_loop]. rewrite Eu. tags.
  rewrite (equiv_named ACL_USER) by (auto || done). cbn [equiv_loop]. rewrite Eg. tags.
  rewrite (equiv_named ACL_GROUP) by (auto || done).
  destruct Hm as [(-> & -> & ->)|(m & -> & Em)]; cbn [app equiv_loop group_of not_equiv_after].
  - rewrite Ho. tags. do 2 f_equal. unfold mode3. mode_bits.
  - apply Forall_cons_1 in Pm as [Pm _]. rewrite Em. tags. cbn [equiv_loop]. rewrite Ho. tags.
    do 2 f_equal. unfold mode3. mode_bits.
Qed.

(** ** The loops that change permissions *)

Lemma insert_mid {A} (l1 l2 : list A) n x y : n = length l1 -> <[n := x]> (l1 ++ y :: l2) = l1 ++ x :: l2.
Proof. intros ->. induction l1 as [|z l1 IH]; [done|]. cbn. by f_equal. Qed.

Lemma lookup_mid {A} (l1 l2 : list A) n y : n = length l1 -> (l1 ++ y :: l2) !! n = Some y.
Proof. intros ->. by rewrite lookup_app_r, Nat.sub_diag. Qed.

Lemma prod_map_app {A B} (l1 l2 : list A) (r : list A * B) :
  prod_map (app l1) id (prod_map (app l2) id r) = prod_map (app (l1 ++ l2)) id r.
Proof. destruct r. unfold prod_map. simpl. by rewrite app_assoc. Qed.

Lemma create_named tag i mode g k ne named l :
  tag = ACL_USER \/ tag = ACL_GROUP -> Forall (tagged tag) named ->
  create_loop i (mk_masq mode g k ne) (named ++ l) =
  prod_map (app named) id
    (create_loop (i + length named) (mk_masq mode g k (not_equiv_after ne named)) l).
Proof.
  intros Ht Hn. revert i ne. induction Hn as [|e named He _ IH]; intros i ne.
  { cbn. rewrite Nat.add_0_r. by destruct (create_loop i _ l). }
  cbn [app create_loop not_equiv_after length]. destruct Ht as [-> | ->]; rewrite He; tags;
    rewrite IH, Nat.add_succ_comm; replace (not_equiv_after 1 named) with 1 by (by destruct named);
    by destruct (create_loop _ _ l).
Qed.

Lemma chmod_named tag i mode g k named l :
  tag = ACL_USER \/ tag = ACL_GROUP -> Forall (tagged tag) named ->
  chmod_loop i mode g k (named ++ l) = prod_map (app named) id (chmod_loop (i + length named) mode g k l).
Proof.
  intros Ht Hn. revert i. induction Hn as [|e named He _ IH]; intros i.
  { cbn. rewrite Nat.add_0_r. by destruct (chmod_loop i _ _ _ l). }
  cbn [app chmod_loop length]. destruct Ht as [-> | ->]; rewrite He; tags;
    rewrite IH, Nat.add_succ_comm; by destruct (chmod_loop _ _ _ _ l).
Qed.

(** The owning group's entry and the mask with the group permissions [p]. *)
Definition put_group (p : Z) (g : posix_acl_entry) (mk : list posix_acl_entry) :
    posix_acl_entry * list posix_acl_entry :=
  match mk with [] => (set_perm p g, []) | m :: mk => (g, set_perm p m :: mk) end.

Definition build (u : posix_acl_entry) (us : list posix_acl_entry) (g : posix_acl_entry)
    (gs mk : list posix_acl_entry) (o : posix_acl_entry) : list posix_acl_entry :=
  u :: us ++ g :: gs ++ mk ++ [o].

Lemma form_put es u us g gs mk o pu pg po :
  acl_form es u us g gs mk o ->
  let '(g', mk') := put_group pg g mk in
  acl_form (build (set_perm pu u) us g' gs mk' (set_perm po o)) (set_perm pu u) us g' gs mk' (set_perm po o).
Proof.
  intros [-> Eu Hu Eg Hg Hm Ho]. destruct Hm as [(-> & -> & ->)|(m & -> & Em)]; cbn; split; try done.
  - by left.
  - right. by exists (set_perm pg m).
Qed.

Lemma chmod_form es u us g gs mk o rc mode :
  acl_form es u us g gs mk o ->
  posix_acl_chmod_masq (mk_acl rc es) mode =
  (0, let '(g', mk') := put_group (Z.shiftr (Z.land mode S_IRWXG) 3) g mk in
      mk_acl rc (build (set_perm (Z.shiftr (Z.land mode S_IRWXU) 6) u) us g' gs mk'
                   (set_perm (Z.land mode S_IRWXO) o))).
Proof.
  intros [-> Eu Hu%ids_tags Eg Hg%ids_tags Hm Ho]. unfold posix_acl_chmod_masq. cbn [a_entries a_refcount chmod_loop].
  rewrite Eu. tags. rewrite (chmod_named ACL_USER) by (auto || done). cbn [chmod_loop]. rewrite Eg. tags.
  rewrite (chmod_named ACL_GROUP) by (auto || done).
  destruct Hm as [(-> & -> & ->)|(m & -> & Em)]; cbn [app chmod_loop length].
  - rewrite Ho. tags. cbn. done.
  - rewrite Em. tags. cbn [chmod_loop]. rewrite Ho. tags. cbn [chmod_loop prod_map fst snd id].
    cbn [group_entry mbind option_bind put_group]. unfold build.
    set (u' := set_perm _ u). set (o' := set_perm _ o).
    change (u' :: us ++ g :: gs ++ [m; o']) with ((u' :: us) ++ g :: gs ++ m :: [o']).
    replace ((u' :: us) ++ g :: gs ++ [m; o']) with ((u' :: us ++ g :: gs) ++ m :: [o'])
      by (cbn; by rewrite <-app_assoc).
    rewrite lookup_mid by (cbn; rewrite length_app; cbn; lia). cbn [fmap option_fmap option_map].
    rewrite insert_mid by (cbn; rewrite length_app; cbn; lia). cbn. by rewrite <-app_assoc.
Qed.

(** The permissions that both the entry and the mode grant. *)
Lemma create_form es u us g gs mk o rc mode :
  acl_form es u us g gs mk o -> Forall perm_ok es ->
  let pu := Z.land (e_perm u) (Z.shiftr mode 6) in
  let pg := Z.land (e_perm (group_of g mk)) (Z.shiftr mode 3) in
  let po := Z.land (e_perm o) mode in
  posix_acl_create_masq (mk_acl rc es) mode =
  (match mk with [] => 0 | _ => 1 end,
   (let '(g', mk') := put_group pg g mk in mk_acl rc (build (set_perm pu u) us g' gs mk' (set_perm po o))),
   Z.lor (Z.land mode (Z.lnot S_IRWXUGO)) (mode3 pu pg po)).
Proof.
  intros [-> Eu Hu%ids_tags Eg Hg%ids_tags Hm Ho] Hp pu pg po.
  apply Forall_cons_1 in Hp as [Pu Hp]. apply Forall_app in Hp as [_ Hp]. apply Forall_cons_1 in Hp as [Pg Hp].
  apply Forall_app in Hp as [_ Hp]. apply Forall_app in Hp as [Pm Po]. apply Forall_cons_1 in Po as [Po _].
  unfold perm_ok in *.
  assert (E1 : Z.land (e_perm u) (Z.lor (Z.shiftr mode 6) (Z.lnot S_IRWXO)) = pu) by (subst pu; mode_bits).
  set (mode1 := Z.land mode (Z.lor (Z.shiftl pu 6) (Z.lnot S_IRWXU))).
  assert (E2 : Z.land (e_perm o) (Z.lor mode1 (Z.lnot S_IRWXO)) = po) by (subst po mode1 pu; mode_bits).
  set (mode2 := Z.land mode1 (Z.lor po (Z.lnot S_IRWXO))).
  assert (E3 : forall p, 0 <= p < 8 -> Z.land p (Z.lor (Z.shiftr mode2 3) (Z.lnot S_IRWXO)) = Z.land p (Z.shiftr mode 3))
    by (intros p Pp; subst mode2 mode1 po pu; mode_bits).
  assert (E4 : forall p, 0 <= p < 8 -> Z.lor (Z.land mode (Z.lnot S_IRWXUGO))
      (Z.land mode2 (Z.lor (Z.shiftl (Z.land p (Z.shiftr mode 3)) 3) (Z.lnot S_IRWXG))) =
      Z.lor (Z.land mode (Z.lnot S_IRWXUGO)) (mode3 pu (Z.land p (Z.shiftr mode 3)) po))
    by (intros p Pp; unfold mode3; subst mode2 mode1 po pu; mode_bits).
  unfold posix_acl_create_masq. cbn [a_entries a_refcount create_loop].
  rewrite Eu. tags. rewrite E1. fold mode1. rewrite (create_named ACL_USER) by (auto || done).
  cbn [create_loop]. rewrite Eg. tags. rewrite (create_named ACL_GROUP) by (auto || done).
  destruct Hm as [(-> & -> & ->)|(m & -> & Em)]; cbn [app create_loop length].
  - rewrite Ho. tags. rewrite E2. fold mode2. cbn. rewrite E3, E4 by done. done.
  - apply Forall_cons_1 in Pm as [Pm _]. rewrite Em. tags. cbn [create_loop]. rewrite Ho. tags. rewrite E2. fold mode2.
    cbn [create_loop prod_map fst snd id group_entry mbind option_bind put_group group_of] in *. unfold build.
    set (u' := set_perm _ u). set (o' := set_perm _ o).
    replace (u' :: us ++ g :: gs ++ [m; o']) with ((u' :: us ++ g :: gs) ++ m :: [o']) by (cbn; by rewrite <-app_assoc).
    rewrite lookup_mid by (cbn; rewrite length_app; cbn; lia). cbn [fmap option_fmap option_map].
    rewrite insert_mid by (cbn; rewrite length_app; cbn; lia). rewrite E3, E4 by done. cbn. by rewrite <-app_assoc.
Qed.

(** *** Permissions after a change *)

Lemma perm_land p x : 0 <= p < 8 -> 0 <= Z.land p x < 8.
Proof.
  intros Hp. assert (Hn : 0 <= Z.land p x) by (apply Z.land_nonneg; lia). split; [done|].
  apply perm_bits; [done|]. apply Z.bits_inj'. intros n Hn'. change 7 with S_IRWXO.
  rewrite !Z.land_spec, Z.lnot_spec, bits_O, Z.bits_0 by done.
  destruct (Z.ltb_spec n 3); [by rewrite andb_false_r|]. by rewrite perm_high by lia.
Qed.

Lemma mode_perm mode c k : 0 <= k -> c = Z.shiftl 7 k -> 0 <= Z.shiftr (Z.land mode c) k < 8.
Proof.
  intros Hk ->. rewrite Z.shiftr_land, Z.shiftr_shiftl_l by lia. rewrite Z.sub_diag, Z.land_comm.
  apply perm_land. done.
Qed.

Lemma acl_ok_put es u us g gs mk o pu pg po :
  acl_form es u us g gs mk o -> Forall perm_ok es -> 0 <= pu < 8 -> 0 <= pg < 8 -> 0 <= po < 8 ->
  let '(g', mk') := put_group pg g mk in
  acl_ok (build (set_perm pu u) us g' gs mk' (set_perm po o)).
Proof.
  intros Hf Hp Bu Bg Bo. pose proof (form_put _ _ _ _ _ _ _ pu pg po Hf) as Hf'.
  destruct Hf as [-> _ _ _ _ Hm _]. apply Forall_cons_1 in Hp as [_ Hp]. apply Forall_app in Hp as [Hus Hp].
  apply Forall_cons_1 in Hp as [Hg Hp]. apply Forall_app in Hp as [Hgs Hp]. apply Forall_app in Hp as [Hmk _].
  assert (Hmk' : mk = [] \/ exists m, mk = [m]) by naive_solver.
  destruct Hmk' as [-> | (m & ->)]; cbn [put_group] in *; (split; [|by eexists _, _, _, _, _, _]);
    (apply Forall_cons; split; [done|]); (apply Forall_app; split; [done|]);
    (apply Forall_cons; split; [done|]); (apply Forall_app; split; [done|]);
    (apply Forall_app; split; [|by apply Forall_singleton]); [done|by apply Forall_singleton].
Qed.

Lemma equiv_mode_form es u us g gs mk o rc p :
  acl_form es u us g gs mk o -> Forall perm_ok es ->
  posix_acl_equiv_mode (mk_acl rc es) p =
  (match mk with [] => 0 | _ => 1 end,
   Z.lor (Z.land p (Z.lnot S_IRWXUGO)) (mode3 (e_perm u) (e_perm (group_of g mk)) (e_perm o))).
Proof. intros Hf Hp. unfold posix_acl_equiv_mode. cbn [a_entries]. by rewrite (equiv_form _ _ _ _ _ _ _ Hf Hp). Qed.

Lemma form_perms es u us g gs mk o :
  acl_form es u us g gs mk o -> Forall perm_ok es -> perm_ok u /\ perm_ok (group_of g mk) /\ perm_ok o.
Proof.
  intros [-> _ _ _ _ Hm _] Hp. rewrite Forall_forall in Hp. split_and!; apply Hp; [set_solver| |set_solver].
  destruct mk; set_solver.
Qed.

(** The mode of an ACL with new permissions. *)
Lemma equiv_mode_put es u us g gs mk o rc p pu pg po :
  acl_form es u us g gs mk o -> Forall perm_ok es -> 0 <= pu < 8 -> 0 <= pg < 8 -> 0 <= po < 8 ->
  let '(g', mk') := put_group pg g mk in
  posix_acl_equiv_mode (mk_acl rc (build (set_perm pu u) us g' gs mk' (set_perm po o))) p =
  (match mk with [] => 0 | _ => 1 end, Z.lor (Z.land p (Z.lnot S_IRWXUGO)) (mode3 pu pg po)).
Proof.
  intros Hf Hp Bu Bg Bo. pose proof (form_put _ _ _ _ _ _ _ pu pg po Hf) as Hf'.
  pose proof (acl_ok_put _ _ _ _ _ _ _ pu pg po Hf Hp Bu Bg Bo) as Hok.
  destruct mk as [|m mk]; cbn [put_group] in *; rewrite (equiv_mode_form _ _ _ _ _ _ _ rc p Hf' (proj1 Hok)); done.
Qed.

(** The nine permission bits of [m] in [p]. *)
Definition with_bits (p m : Z) : Z := Z.lor (Z.land p (Z.lnot S_IRWXUGO)) (Z.land m S_IRWXUGO).

(** The ACL of a mode. *)
Lemma from_mode_ok mode p :
  exists acl, posix_acl_from_mode mode true = Some acl /\ acl_ok (a_entries acl) /\
    posix_acl_equiv_mode acl p = (0, with_bits p mode).
Proof.
  eexists. split; [reflexivity|]. cbn [a_entries]. set (es := [_; _; _]).
  assert (Bu : 0 <= Z.shiftr (Z.land mode S_IRWXU) 6 < 8) by (by apply mode_perm).
  assert (Bg : 0 <= Z.shiftr (Z.land mode S_IRWXG) 3 < 8) by (by apply mode_perm).
  assert (Bo : 0 <= Z.land mode S_IRWXO < 8) by (rewrite Z.land_comm; by apply perm_land).
  assert (Hf : acl_form es (mk_entry ACL_USER_OBJ (Z.shiftr (Z.land mode S_IRWXU) 6) ACL_UNDEFINED_ID) []
    (mk_entry ACL_GROUP_OBJ (Z.shiftr (Z.land mode S_IRWXG) 3) ACL_UNDEFINED_ID) [] []
    (mk_entry ACL_OTHER (Z.land mode S_IRWXO) ACL_UNDEFINED_ID)) by (split; auto; done).
  assert (Hp : Forall perm_ok es) by (repeat (apply Forall_cons; split); done).
  split; [split; [done|by eexists _, _, _, _, _, _]|].
  rewrite (equiv_mode_form _ _ _ _ _ _ _ 1 p Hf Hp). cbn [e_perm group_of]. f_equal.
  unfold with_bits, mode3. clear. mode_bits.
Qed.

(** An ACL after [chmod]. *)
Lemma chmod_masq_ok rc es mode p :
  acl_ok es -> exists acl', posix_acl_chmod_masq (mk_acl rc es) mode = (0, acl') /\ acl_ok (a_entries acl') /\
    posix_acl_equiv_mode acl' p = ((posix_acl_equiv_mode (mk_acl rc es) p).1, with_bits p mode).
Proof.
  intros [Hp (u & us & g & gs & mk & o & Hf)].
  assert (Bu : 0 <= Z.shiftr (Z.land mode S_IRWXU) 6 < 8) by (by apply mode_perm).
  assert (Bg : 0 <= Z.shiftr (Z.land mode S_IRWXG) 3 < 8) by (by apply mode_perm).
  assert (Bo : 0 <= Z.land mode S_IRWXO < 8) by (rewrite Z.land_comm; by apply perm_land).
  eexists. split; [by apply (chmod_form _ _ _ _ _ _ _ rc mode Hf)|].
  pose proof (acl_ok_put _ _ _ _ _ _ _ _ _ _ Hf Hp Bu Bg Bo) as Hok.
  pose proof (equiv_mode_put _ _ _ _ _ _ _ rc p _ _ _ Hf Hp Bu Bg Bo) as He.
  destruct (put_group _ g mk) as [g' mk']. split; [done|].
  rewrite He, (equiv_mode_form _ _ _ _ _ _ _ rc p Hf Hp). cbn [fst]. f_equal. unfold with_bits, mode3. clear. mode_bits.
Qed.

(** The ACL of a new file. *)
Lemma create_masq_ok rc es mode p :
  acl_ok es -> exists ne acl' mode', posix_acl_create_masq (mk_acl rc es) mode = (ne, acl', mode') /\
    acl_ok (a_entries acl') /\ mode' = Z.land mode (posix_acl_equiv_mode (mk_acl rc es) mode).2 /\
    posix_acl_equiv_mode acl' p = (ne, with_bits p mode').
Proof.
  intros [Hp (u & us & g & gs & mk & o & Hf)]. destruct (form_perms _ _ _ _ _ _ _ Hf Hp) as (Pu & Pg & Po).
  eexists _, _, _. split; [by apply (create_form _ _ _ _ _ _ _ rc mode Hf Hp)|].
  assert (Cu : 0 <= Z.land (e_perm u) (Z.shiftr mode 6) < 8) by (by apply perm_land).
  assert (Cg : 0 <= Z.land (e_perm (group_of g mk)) (Z.shiftr mode 3) < 8) by (by apply perm_land).
  assert (Co : 0 <= Z.land (e_perm o) mode < 8) by (by apply perm_land).
  pose proof (acl_ok_put _ _ _ _ _ _ _ _ _ _ Hf Hp Cu Cg Co) as Hok.
  pose proof (equiv_mode_put _ _ _ _ _ _ _ rc p _ _ _ Hf Hp Cu Cg Co) as He.
  destruct (put_group _ g mk) as [g' mk']. split; [done|]. unfold perm_ok in *. split.
  - rewrite (equiv_mode_form _ _ _ _ _ _ _ rc mode Hf Hp). unfold mode3. cbn [snd]. mode_bits.
  - rewrite He. f_equal. unfold with_bits, mode3. mode_bits.
Qed.

(** ** Claims *)

(** C29: [posix_acl_valid] accepts exactly the lists made of the owner's entry,
    named users, the owning group's entry, named groups, a mask and the entry
    for others, in this order, with ids increasing and permissions within
    [rwx]; the mask may only be missing when nobody is named. *)
Theorem acl_valid_iff_well_formed (rc : Z) (es : list posix_acl_entry) (Ht : Forall typed es) :
  posix_acl_valid (mk_acl rc es) = 0 <-> acl_ok es.
Proof. by apply valid_iff. Qed.

Definition ex_acl : list posix_acl_entry :=
  [mk_entry ACL_USER_OBJ 7 ACL_UNDEFINED_ID; mk_entry ACL_USER 6 1000; mk_entry ACL_USER 4 1001;
   mk_entry ACL_GROUP_OBJ 5 ACL_UNDEFINED_ID; mk_entry ACL_GROUP 7 50; mk_entry ACL_MASK 5 ACL_UNDEFINED_ID;
   mk_entry ACL_OTHER 1 ACL_UNDEFINED_ID].

Lemma ex_acl_typed : Forall typed ex_acl.
Proof. repeat constructor; vm_compute; discriminate. Qed.

Lemma acl_valid_iff_well_formed_witness : posix_acl_valid (mk_acl 1 ex_acl) = 0 /\ acl_ok ex_acl.
Proof.
  split; [vm_compute; reflexivity|].
  apply (proj1 (acl_valid_iff_well_formed 1 ex_acl ex_acl_typed)). vm_compute. reflexivity.
Defined.

(** C28: on a valid ACL [posix_acl_permission] gives the decision of the POSIX.1e
    access check: the owner's entry for the owner, else the user's entry
    under the mask, else any matching group entry under the mask, else the
    entry for others. *)
Theorem acl_permission_correct (i_uid i_gid fsuid : Z) (in_group_p : Z -> bool) (want rc : Z)
    (es : list posix_acl_entry) (Ht : Forall typed es) (Hv : posix_acl_valid (mk_acl rc es) = 0) :
  exists u us g gs mk o, acl_form es u us g gs mk o /\
    posix_acl_permission i_uid i_gid fsuid in_group_p want (mk_acl rc es) =
    if acl_access i_uid i_gid fsuid in_group_p want u us g gs mk o then 0 else - EACCES.
Proof.
  unfold posix_acl_valid in Hv. cbn [a_entries] in Hv. apply valid_iff in Hv as [_ (u & us & g & gs & mk & o & Hf)]; [|done].
  exists u, us, g, gs, mk, o. split; [done|]. by apply permission_form.
Qed.

Lemma acl_permission_correct_witness :
  exists u us g gs mk o, acl_form ex_acl u us g gs mk o /\
    posix_acl_permission 0 0 1000 (fun _ => false) 2 (mk_acl 1 ex_acl) =
    (if acl_access 0 0 1000 (fun _ => false) 2 u us g gs mk o then 0 else - EACCES).
Proof.
  exact (acl_permission_correct 0 0 1000 (fun _ => false) 2 1 ex_acl ex_acl_typed ltac:(vm_compute; reflexivity)).
Defined.

(** The ACL made from a mode is valid and its mode is that mode again;
    [chmod] on a valid ACL leaves a valid ACL whose mode is the one asked for;
    creating a file leaves a valid ACL whose mode is the mode that is
    returned, which has exactly the bits both the ACL and the request had. *)
Theorem acl_mode_round_trips (mode p rc : Z) (es : list posix_acl_entry) (Ht : Forall typed es)
    (Hv : posix_acl_valid (mk_acl rc es) = 0) :
  (exists acl, posix_acl_from_mode mode true = Some acl /\ acl_ok (a_entries acl) /\
     posix_acl_equiv_mode acl p = (0, with_bits p mode)) /\
  (exists acl', posix_acl_chmod_masq (mk_acl rc es) mode = (0, acl') /\ acl_ok (a_entries acl') /\
     (posix_acl_equiv_mode acl' p).2 = with_bits p mode) /\
  (exists ne acl' mode', posix_acl_create_masq (mk_acl rc es) mode = (ne, acl', mode') /\
     acl_ok (a_entries acl') /\
     mode' = Z.land mode (posix_acl_equiv_mode (mk_acl rc es) mode).2 /\
     posix_acl_equiv_mode acl' p = (ne, with_bits p mode')).
Proof.
  unfold posix_acl_valid in Hv. cbn [a_entries] in Hv. apply valid_iff in Hv as Hok; [|done]. split_and!.
  - apply from_mode_ok.
  - destruct (chmod_masq_ok rc es mode p Hok) as (acl' & E & Ho & He). exists acl'. by rewrite He.
  - by apply create_masq_ok.
Qed.

Lemma acl_mode_round_trips_witness :
  exists acl', posix_acl_chmod_masq (mk_acl 1 ex_acl) 416 = (0, acl') /\
    (posix_acl_equiv_mode acl' 0).2 = with_bits 0 416.
Proof.
  destruct (acl_mode_round_trips 416 0 1 ex_acl ex_acl_typed ltac:(vm_compute; reflexivity))
    as (_ & (acl' & H1 & _ & H2) & _).
  exists acl'. split; [exact H1|exact H2].
Defined.
