(* ===== verification/Kfifo.v ===== *)
(** The byte queue of [kernel/kfifo.c] and [include/linux/kfifo.h].

    A [kfifo] is a buffer whose size is a power of two and two 32-bit indices
    that are never reduced modulo the size, only by their own width.  Copies
    that would leave the buffer are faults.  The operations are given as the
    steps between which another processor can run: reading the other side's
    index, the two copies, and publishing the new index; the barriers of the
    code keep the steps in this order. *)
From S2P Require Import Prelude Wp.

Record kfifo : Type := mk_kfifo { buffer : list Z; fsize : Z; fin : Z; fout : Z }.

Definition set_buffer (b : list Z) (f : kfifo) : kfifo := mk_kfifo b (fsize f) (fin f) (fout f).
Definition set_in (v : Z) (f : kfifo) : kfifo := mk_kfifo (buffer f) (fsize f) v (fout f).
Definition set_out (v : Z) (f : kfifo) : kfifo := mk_kfifo (buffer f) (fsize f) (fin f) v.

(** [memcpy] into and out of the buffer, at offset [pos]. *)
Definition fifo_copy_in (pos : Z) (d : list Z) : M kfifo unit := fun f =>
  if (0 <=? pos) && (pos + Z.of_nat (length d) <=? Z.of_nat (length (buffer f))) then
    let p := Z.to_nat pos in
    Ok (tt, set_buffer (take p (buffer f) ++ d ++ drop (p + length d) (buffer f)) f)
  else Err Oops.
Definition fifo_copy_out (pos : Z) (n : nat) : M kfifo (list Z) := fun f =>
  if (0 <=? pos) && (pos + Z.of_nat n <=? Z.of_nat (length (buffer f))) then
    Ok (take n (drop (Z.to_nat pos) (buffer f)), f)
  else Err Oops.

(** ** Creation *)

Definition is_power_of_2 (n : Z) : bool := negb (n =? 0) && (Z.land n (n - 1) =? 0).

(** The position of the highest bit that is set, counted from 1. *)
Definition fls_long (l : Z) : Z := if l =? 0 then 0 else Z.log2 l + 1.

(** [n] is an [unsigned long]; a shift by 64 is not defined. *)
Definition __roundup_pow_of_two (n : Z) : res Z :=
  let k := fls_long (u64 (n - 1)) in
  if k <? 64 then Ok (u64 (Z.shiftl 1 k)) else Err Undef.

Definition ENOMEM : Z := 12.

(** The state of creation is the number of blocks [kmalloc] has given out and
    [kfree] has not taken back.  [kmalloc n] answers with the memory, not
    initialised, or [None]; [BUG_ON] is an oops and [inr] an error pointer. *)
Definition kmalloc {A} (answer : option A) : M Z (option A) :=
  match answer with Some b => modify (Z.add 1) ;;; ret (Some b) | None => ret None end.
Definition kfree : M Z unit := modify (fun live => live - 1).

Definition kfifo_init (buf : list Z) (size : Z) (mem : option unit) : M Z (kfifo + Z) :=
  (if negb (is_power_of_2 size) then throw Oops else ret tt) ;;;
  let! fifo := kmalloc mem in
  match fifo with
  | None => ret (inr (- ENOMEM))
  | Some _ => ret (inl (mk_kfifo buf size 0 0))
  end.

Definition kfifo_alloc (size : Z) (buf_mem : Z -> option (list Z)) (mem : option unit) : M Z (kfifo + Z) :=
  let! size := (if negb (is_power_of_2 size) then
                  (if 2147483648 <? size then throw Oops else ret tt) ;;;
                  match __roundup_pow_of_two size with Ok s => ret (u32 s) | Err e => throw e end
                else ret size) in
  let! buf := kmalloc (buf_mem size) in
  match buf with
  | None => ret (inr (- ENOMEM))
  | Some buf =>
      let! r := kfifo_init buf size mem in
      match r with
      | inr e => kfree ;;; ret (inr e)
      | inl f => ret (inl f)
      end
  end.

(** The buffer and the structure. *)
Definition kfifo_free (f : kfifo) : M Z unit := kfree ;;; kfree.

(** ** Putting *)

(** Free space, with the indices as they are read now. *)
Definition put_len (len : Z) (f : kfifo) : Z := Z.min len (u32 (u32 (fsize f - fin f) + fout f)).

(** The part that fits before the end of the buffer. *)
Definition to_end (idx len : Z) (f : kfifo) : Z := Z.min len (fsize f - Z.land idx (fsize f - 1)).

(** [n] bytes of the caller's buffer from [off] on. *)
Definition from_caller (d : list Z) (off n : Z) : M kfifo (list Z) :=
  if off + n <=? Z.of_nat (length d) then ret (take (Z.to_nat n) (drop (Z.to_nat off) d)) else throw Oops.

Definition put_first (d : list Z) (len : Z) : M kfifo unit :=
  let! i := gets fin in
  let! l := gets (to_end i len) in
  let! size := gets fsize in
  let! bytes := from_caller d 0 l in
  fifo_copy_in (Z.land i (size - 1)) bytes.

Definition put_second (d : list Z) (len : Z) : M kfifo unit :=
  let! i := gets fin in
  let! l := gets (to_end i len) in
  let! bytes := from_caller d l (len - l) in
  fifo_copy_in 0 bytes.

Definition put_publish (len : Z) : M kfifo unit := modify (fun f => set_in (u32 (fin f + len)) f).

Definition __kfifo_put (d : list Z) (len : Z) : M kfifo Z :=
  let! len := gets (put_len len) in
  put_first d len ;;;
  put_second d len ;;;
  put_publish len ;;;
  ret len.

(** ** Getting *)

Definition get_len (len : Z) (f : kfifo) : Z := Z.min len (u32 (fin f - fout f)).

Definition get_first (len : Z) : M kfifo (list Z) :=
  let! o := gets fout in
  let! l := gets (to_end o len) in
  let! size := gets fsize in
  fifo_copy_out (Z.land o (size - 1)) (Z.to_nat l).

Definition get_second (len : Z) : M kfifo (list Z) :=
  let! o := gets fout in
  let! l := gets (to_end o len) in
  fifo_copy_out 0 (Z.to_nat (len - l)).

Definition get_publish (len : Z) : M kfifo unit := modify (fun f => set_out (u32 (fout f + len)) f).

(** The bytes copied to the caller's buffer; their number is the result. *)
Definition __kfifo_get (len : Z) : M kfifo (list Z) :=
  let! len := gets (get_len len) in
  let! d1 := get_first len in
  let! d2 := get_second len in
  get_publish len ;;;
  ret (d1 ++ d2).

(** ** The operations under the lock *)

Definition __kfifo_reset : M kfifo unit := modify (fun f => set_in 0 (set_out 0 f)).
Definition __kfifo_len : M kfifo Z := gets (fun f => u32 (fin f - fout f)).

(** The lock makes these atomic. *)
Definition kfifo_reset : M kfifo unit := __kfifo_reset.
Definition kfifo_len : M kfifo Z := __kfifo_len.
Definition kfifo_put (d : list Z) (len : Z) : M kfifo Z := __kfifo_put d len.
Definition kfifo_get (len : Z) : M kfifo (list Z) :=
  let! d := __kfifo_get len in
  let! e := gets (fun f => fin f =? fout f) in
  (if (e : bool) then modify (fun f => set_in 0 (set_out 0 f)) else ret tt) ;;;
  ret d.

(** ** Representation *)

Record fifo_wf (f : kfifo) : Prop := {
  wf_pow : exists k, 0 <= k <= 31 /\ fsize f = 2 ^ k;
  wf_buf : Z.of_nat (length (buffer f)) = fsize f;
  wf_in : 0 <= fin f < 2 ^ 32;
  wf_out : 0 <= fout f < 2 ^ 32;
}.

(** Where the byte number [i], counted from index [idx], is kept. *)
Definition slot (f : kfifo) (idx : Z) (i : nat) : nat := Z.to_nat ((idx + Z.of_nat i) mod fsize f).

(** The bytes [q] are in the buffer from index [idx] on. *)
Definition stored (f : kfifo) (idx : Z) (q : list Z) : Prop :=
  forall i b, q !! i = Some b -> buffer f !! slot f idx i = Some b.

(** The queue holds [q]. *)
Record fifo_rep (f : kfifo) (q : list Z) : Prop := {
  rep_len : u32 (fin f - fout f) = Z.of_nat (length q);
  rep_size : Z.of_nat (length q) <= fsize f;
  rep_buf : stored f (fout f) q;
}.

(** *** Arithmetic of the indices *)

Lemma fifo_size f : fifo_wf f -> 0 < fsize f <= 2 ^ 31 /\ exists c, 2 ^ 32 = c * fsize f.
Proof.
  intros [(k & Hk & ->) _ _ _]. split.
  - split; [lia|]. apply Z.pow_le_mono_r; lia.
  - exists (2 ^ (32 - k)). rewrite <-Z.pow_add_r by lia. f_equal. lia.
Qed.

Lemma land_size f x : fifo_wf f -> Z.land x (fsize f - 1) = x mod fsize f.
Proof.
  intros [(k & Hk & ->) _ _ _]. rewrite <-Z.land_ones by lia. f_equal. rewrite Z.ones_equiv. lia.
Qed.

Lemma mod_u32 f x y : fifo_wf f -> (u32 x + y) mod fsize f = (x + y) mod fsize f.
Proof.
  intros Hwf. destruct (fifo_size f Hwf) as [Hs [c Hc]]. unfold uwrap. rewrite Hc.
  pose proof (Z.div_mod x (c * fsize f) ltac:(lia)) as E.
  set (q := x / (c * fsize f)) in *. set (r := x mod (c * fsize f)) in *. rewrite E.
  replace (c * fsize f * q + r + y) with (r + y + c * q * fsize f) by ring. by rewrite Z.mod_add by lia.
Qed.

Lemma slot_u32 f x i : fifo_wf f -> slot f (u32 x) i = slot f x i.
Proof. intros Hwf. unfold slot. by rewrite mod_u32. Qed.

Lemma slot_lt f x i : fifo_wf f -> (slot f x i < length (buffer f))%nat.
Proof.
  intros Hwf. destruct (fifo_size f Hwf) as [Hs _]. unfold slot.
  pose proof (Z.mod_pos_bound (x + Z.of_nat i) (fsize f) ltac:(lia)). rewrite <-(wf_buf _ Hwf) in *. lia.
Qed.

(** Bytes less than a buffer apart are in different places. *)
Lemma slot_inj f x i y j :
  fifo_wf f -> x + Z.of_nat i < y + Z.of_nat j < x + Z.of_nat i + fsize f -> slot f x i <> slot f y j.
Proof.
  intros Hwf Hlt E. destruct (fifo_size f Hwf) as [Hs _]. unfold slot in E.
  pose proof (Z.mod_pos_bound (x + Z.of_nat i) (fsize f) ltac:(lia)).
  pose proof (Z.mod_pos_bound (y + Z.of_nat j) (fsize f) ltac:(lia)).
  apply Z2Nat.inj in E; [|lia|lia].
  pose proof (Z.div_mod (x + Z.of_nat i) (fsize f) ltac:(lia)) as Ex.
  pose proof (Z.div_mod (y + Z.of_nat j) (fsize f) ltac:(lia)) as Ey. rewrite E in Ex.
  assert (Hd : y + Z.of_nat j - (x + Z.of_nat i) =
    fsize f * ((y + Z.of_nat j) / fsize f - (x + Z.of_nat i) / fsize f))
    by (rewrite Z.mul_sub_distr_l; lia).
  set (q := (y + Z.of_nat j) / fsize f - (x + Z.of_nat i) / fsize f) in *.
  destruct (Z.le_gt_cases q 0).
  - pose proof (Z.mul_nonneg_nonpos (fsize f) q ltac:(lia) ltac:(lia)). lia.
  - pose proof (Z.mul_le_mono_nonneg_l 1 q (fsize f) ltac:(lia) ltac:(lia)). lia.
Qed.

(** The two parts of the buffer a run of bytes from [idx] on falls into. *)
Lemma slot_low f idx i :
  fifo_wf f -> Z.of_nat i < fsize f - idx mod fsize f -> Z.of_nat (slot f idx i) = idx mod fsize f + Z.of_nat i.
Proof.
  intros Hwf Hi. destruct (fifo_size f Hwf) as [Hs _]. unfold slot.
  pose proof (Z.mod_pos_bound idx (fsize f) ltac:(lia)).
  rewrite <-Z.add_mod_idemp_l, Z.mod_small by lia. lia.
Qed.

Lemma slot_high f idx i :
  fifo_wf f -> fsize f - idx mod fsize f <= Z.of_nat i < fsize f ->
  Z.of_nat (slot f idx i) = Z.of_nat i - (fsize f - idx mod fsize f).
Proof.
  intros Hwf Hi. destruct (fifo_size f Hwf) as [Hs _]. unfold slot.
  pose proof (Z.mod_pos_bound idx (fsize f) ltac:(lia)).
  rewrite <-Z.add_mod_idemp_l by lia.
  rewrite <-(Z.mod_unique (idx mod fsize f + Z.of_nat i) (fsize f) 1
    (Z.of_nat i - (fsize f - idx mod fsize f))); lia.
Qed.

(** *** The copies *)

Lemma fifo_copy_in_ok pos d f :
  0 <= pos -> pos + Z.of_nat (length d) <= Z.of_nat (length (buffer f)) ->
  exists b, fifo_copy_in pos d f = Ok (tt, set_buffer b f) /\ length b = length (buffer f) /\
    forall j, b !! j = if decide (pos <= Z.of_nat j < pos + Z.of_nat (length d))
                       then d !! (j - Z.to_nat pos)%nat else buffer f !! j.
Proof.
  intros Hp Hl. unfold fifo_copy_in. rewrite (proj2 (Z.leb_le 0 pos) Hp), (proj2 (Z.leb_le _ _) Hl). cbn [andb].
  eexists. split; [done|]. split.
  - rewrite !length_app, length_take, length_drop. lia.
  - intros j. case_decide as Hj.
    + rewrite lookup_app_r, length_take, Nat.min_l by (rewrite ?length_take; lia). rewrite lookup_app_l by lia. done.
    + destruct (Z.lt_ge_cases (Z.of_nat j) pos).
      * rewrite lookup_app_l by (rewrite length_take; lia). by rewrite lookup_take_lt by lia.
      * rewrite lookup_app_r, length_take, Nat.min_l by (rewrite ?length_take; lia).
        rewrite lookup_app_r, lookup_drop by lia. f_equal. lia.
Qed.

Lemma from_caller_ok d off n f :
  off + n <= Z.of_nat (length d) -> from_caller d off n f = Ok (take (Z.to_nat n) (drop (Z.to_nat off) d), f).
Proof. intros H. unfold from_caller. by rewrite (proj2 (Z.leb_le _ _) H). Qed.

(** What the copies of a put do: the bytes from [in] on are stored, nothing
    else changes. *)
Definition keeps_rest (f f' : kfifo) (len : Z) : Prop :=
  exists b, f' = set_buffer b f /\ length b = length (buffer f) /\
    forall j, (forall i, Z.of_nat i < len -> j <> slot f (fin f) i) -> b !! j = buffer f !! j.

Lemma wf_set_buffer b f : fifo_wf f -> length b = length (buffer f) -> fifo_wf (set_buffer b f).
Proof. intros [H1 H2 H3 H4] Hl. split; try done. cbn. by rewrite Hl. Qed.

Lemma put_first_ok d len f :
  fifo_wf f -> 0 <= len <= fsize f -> len <= Z.of_nat (length d) ->
  exists f', put_first d len f = Ok (tt, f') /\ keeps_rest f f' len /\
    stored f' (fin f) (take (Z.to_nat (to_end (fin f) len f)) d).
Proof.
  intros Hwf Hlen Hd. destruct (fifo_size f Hwf) as [Hs _]. pose proof (wf_buf f Hwf) as Hb.
  pose proof (Z.mod_pos_bound (fin f) (fsize f) ltac:(lia)) as Hm.
  unfold put_first, to_end, bind, gets. rewrite land_size by done. set (l := Z.min len _).
  rewrite from_caller_ok, drop_0 by lia.
  destruct (fifo_copy_in_ok (fin f mod fsize f) (take (Z.to_nat l) d) f) as (b & E & Hbl & Hj); [lia|rewrite length_take; lia|].
  rewrite length_take, Nat.min_l in Hj by lia.
  rewrite E. eexists. split; [done|]. split.
  - exists b. split_and!; [done|done|]. intros j Hne. rewrite Hj. case_decide as Hin; [|done].
    exfalso. apply (Hne (Z.to_nat (Z.of_nat j - fin f mod fsize f))); [lia|].
    apply Nat2Z.inj. rewrite slot_low by (done || lia). lia.
  - intros i x [Hx Hi]%lookup_take_Some. unfold slot. cbn [set_buffer buffer fsize].
    change (Z.to_nat ((fin f + Z.of_nat i) mod fsize f)) with (slot f (fin f) i). rewrite Hj.
    pose proof (slot_low f (fin f) i Hwf ltac:(lia)) as Es. rewrite decide_True by lia.
    rewrite lookup_take_lt by lia. rewrite <-Hx. f_equal. lia.
Qed.

Lemma put_second_ok d len f :
  fifo_wf f -> 0 <= len <= fsize f -> len <= Z.of_nat (length d) ->
  stored f (fin f) (take (Z.to_nat (to_end (fin f) len f)) d) ->
  exists f', put_second d len f = Ok (tt, f') /\ keeps_rest f f' len /\
    stored f' (fin f) (take (Z.to_nat len) d).
Proof.
  intros Hwf Hlen Hd Hst. destruct (fifo_size f Hwf) as [Hs _]. pose proof (wf_buf f Hwf) as Hb.
  pose proof (Z.mod_pos_bound (fin f) (fsize f) ltac:(lia)) as Hm.
  unfold put_second, to_end, bind, gets in *. rewrite land_size in * by done. set (l := Z.min len _) in *.
  set (d2 := take (Z.to_nat (len - l)) (drop (Z.to_nat l) d)).
  assert (Hl2 : Z.of_nat (length d2) = len - l) by (subst d2; rewrite length_take, length_drop; lia).
  rewrite from_caller_ok by lia. fold d2. destruct (fifo_copy_in_ok 0 d2 f) as (b & E & Hbl & Hj); [lia|lia|].
  rewrite E. eexists. split; [done|]. split.
  - exists b. split_and!; [done|done|]. intros j Hne. rewrite Hj. case_decide as Hin; [|done].
    exfalso. apply (Hne (Z.to_nat (Z.of_nat j + (fsize f - fin f mod fsize f)))); [lia|].
    apply Nat2Z.inj. rewrite slot_high by (done || lia). lia.
  - intros i x [Hx Hi]%lookup_take_Some. unfold slot. cbn [set_buffer buffer fsize].
    change (Z.to_nat ((fin f + Z.of_nat i) mod fsize f)) with (slot f (fin f) i). rewrite Hj.
    destruct (Z.lt_ge_cases (Z.of_nat i) l) as [Hil|Hil].
    + pose proof (slot_low f (fin f) i Hwf ltac:(lia)). rewrite decide_False by lia.
      apply Hst. by rewrite lookup_take_lt by lia.
    + pose proof (slot_high f (fin f) i Hwf ltac:(lia)) as Es. rewrite decide_True by lia. subst d2.
      rewrite lookup_take_lt, lookup_drop by lia. rewrite <-Hx. f_equal. lia.
Qed.

Lemma fifo_copy_out_ok pos n f :
  0 <= pos -> pos + Z.of_nat n <= Z.of_nat (length (buffer f)) ->
  fifo_copy_out pos n f = Ok (take n (drop (Z.to_nat pos) (buffer f)), f).
Proof.
  intros Hp Hl. unfold fifo_copy_out. by rewrite (proj2 (Z.leb_le 0 pos) Hp), (proj2 (Z.leb_le _ _) Hl).
Qed.

(** A run of the buffer read where bytes are stored. *)
Lemma read_run f idx q pos n k :
  stored f idx q -> (k + n <= length q)%nat ->
  (forall i, (i < n)%nat -> slot f idx (k + i) = (Z.to_nat pos + i)%nat) ->
  (Z.to_nat pos + n <= length (buffer f))%nat ->
  take n (drop (Z.to_nat pos) (buffer f)) = take n (drop k q).
Proof.
  intros Hst Hk Hsl Hb. apply list_eq. intros i. destruct (Nat.lt_ge_cases i n) as [Hi|Hi].
  - rewrite !lookup_take_lt, !lookup_drop by done. rewrite <-Hsl by done.
    destruct (lookup_lt_is_Some_2 q (k + i) ltac:(lia)) as [b Hq]. by rewrite Hq, (Hst _ _ Hq).
  - rewrite !lookup_ge_None_2; [done| |]; rewrite length_take; lia.
Qed.

Lemma get_first_ok f q len :
  fifo_wf f -> stored f (fout f) q -> 0 <= len <= fsize f -> len <= Z.of_nat (length q) ->
  get_first len f = Ok (take (Z.to_nat (to_end (fout f) len f)) q, f).
Proof.
  intros Hwf Hst Hlen Hq. destruct (fifo_size f Hwf) as [Hs _]. pose proof (wf_buf f Hwf) as Hb.
  pose proof (Z.mod_pos_bound (fout f) (fsize f) ltac:(lia)) as Hm.
  unfold get_first, to_end, bind, gets. rewrite land_size by done.
  rewrite fifo_copy_out_ok by lia. f_equal. f_equal.
  rewrite (read_run f (fout f) q (fout f mod fsize f) _ 0 Hst); [by rewrite drop_0|lia| |lia].
  intros i Hi. apply Nat2Z.inj. rewrite slot_low by (done || lia). lia.
Qed.

Lemma get_second_ok f q len :
  fifo_wf f -> stored f (fout f) q -> 0 <= len <= fsize f -> len <= Z.of_nat (length q) ->
  let l := to_end (fout f) len f in
  get_second len f = Ok (take (Z.to_nat (len - l)) (drop (Z.to_nat l) q), f).
Proof.
  intros Hwf Hst Hlen Hq. destruct (fifo_size f Hwf) as [Hs _]. pose proof (wf_buf f Hwf) as Hb.
  pose proof (Z.mod_pos_bound (fout f) (fsize f) ltac:(lia)) as Hm.
  unfold get_second, to_end, bind, gets. rewrite land_size by done. cbv zeta. set (l := Z.min len _).
  rewrite fifo_copy_out_ok by lia. f_equal. f_equal.
  apply (read_run f (fout f) q 0 _ _ Hst); [lia| |lia].
  intros i Hi. apply Nat2Z.inj. rewrite slot_high by (done || lia). lia.
Qed.

(** *** The indices and the queue *)

Lemma u32_range z : 0 <= u32 z < 2 ^ 32.
Proof. auto with kernel. Qed.

Lemma idx_wrap_add z y : u32 (u32 z + y) = u32 (z + y).
Proof. unfold uwrap. apply Z.add_mod_idemp_l. done. Qed.

Lemma in_eq f q : fifo_wf f -> fifo_rep f q -> fin f = u32 (fout f + Z.of_nat (length q)).
Proof.
  intros Hwf [Hl _ _]. rewrite <-Hl, Z.add_comm, idx_wrap_add, Z.sub_add. symmetry. apply uwrap_small, (wf_in _ Hwf).
Qed.

Lemma put_len_ok f q len : fifo_wf f -> fifo_rep f q -> put_len len f = Z.min len (fsize f - Z.of_nat (length q)).
Proof.
  intros Hwf Hrep. destruct (fifo_size f Hwf) as [Hs _]. destruct Hrep as [Hl Hsz _]. unfold put_len. f_equal.
  rewrite idx_wrap_add. replace (fsize f - fin f + fout f) with (fsize f - (fin f - fout f)) by lia.
  unfold uwrap in *. rewrite <-Zminus_mod_idemp_r, Hl. apply Z.mod_small. change (2 ^ 31) with 2147483648 in Hs.
  change (2 ^ 32) with 4294967296. lia.
Qed.

Lemma get_len_ok f q len : fifo_rep f q -> get_len len f = Z.min len (Z.of_nat (length q)).
Proof. intros [Hl _ _]. unfold get_len. by rewrite Hl. Qed.

(** Bytes of the queue and bytes being put do not share places. *)
Lemma slots_apart f q i j len :
  fifo_wf f -> fifo_rep f q -> Z.of_nat (length q) + len <= fsize f ->
  (i < length q)%nat -> Z.of_nat j < len -> slot f (fout f) i <> slot f (fin f) j.
Proof.
  intros Hwf Hrep Hsp Hi Hj. rewrite (in_eq f q Hwf Hrep), slot_u32 by done. apply slot_inj; [done|]. lia.
Qed.

Lemma keeps_rest_rep f f' q len :
  fifo_wf f -> fifo_rep f q -> Z.of_nat (length q) + len <= fsize f -> keeps_rest f f' len ->
  fifo_wf f' /\ fifo_rep f' q.
Proof.
  intros Hwf Hrep Hsp (b & -> & Hb & Hj). split; [by apply wf_set_buffer|].
  destruct Hrep as [Hl Hs Hst] eqn:E. split; [done|done|]. intros i x Hi. cbn [set_buffer buffer fout].
  change (slot (set_buffer b f) (fout f) i) with (slot f (fout f) i). rewrite Hj; [by apply Hst|].
  intros k Hk. apply (slots_apart f q i k len); try done. by eapply lookup_lt_Some.
Qed.

Lemma publish_in_ok f q d len :
  fifo_wf f -> fifo_rep f q -> 0 <= len -> Z.of_nat (length q) + len <= fsize f -> Z.of_nat (length d) = len ->
  stored f (fin f) d ->
  fifo_wf (set_in (u32 (fin f + len)) f) /\ fifo_rep (set_in (u32 (fin f + len)) f) (q ++ d).
Proof.
  intros Hwf Hrep Hlen Hsp Hd Hst. destruct (fifo_size f Hwf) as [Hs _]. pose proof (in_eq f q Hwf Hrep) as Ein.
  destruct Hwf as [H1 H2 H3 H4] eqn:Ewf. destruct Hrep as [Hl Hsz Hq] eqn:Erep. split; [split; try done; apply u32_range|].
  split; cbn [set_in fin fout fsize].
  - rewrite length_app, Nat2Z.inj_add, <-Hl, Hd.
    change (u32 (u32 (fin f + len) + - fout f) = u32 (fin f - fout f) + len).
    rewrite idx_wrap_add. replace (fin f + len + - fout f) with (fin f - fout f + len) by lia. rewrite <-idx_wrap_add.
    rewrite Hl. apply uwrap_small. change (2 ^ 31) with 2147483648 in Hs. change (2 ^ 32) with 4294967296. lia.
  - rewrite length_app. lia.
  - intros i x Hi. change (slot (set_in (u32 (fin f + len)) f) (fout f) i) with (slot f (fout f) i).
    cbn [set_in buffer]. apply lookup_app_Some in Hi as [Hi|[Hge Hi]]; [by apply Hq|].
    rewrite <-(Hst _ _ Hi). f_equal. rewrite Ein, slot_u32 by (by rewrite Ewf || done). unfold slot. f_equal. f_equal. lia.
Qed.

Lemma publish_out_ok f q len :
  fifo_wf f -> fifo_rep f q -> 0 <= len <= Z.of_nat (length q) ->
  fifo_wf (set_out (u32 (fout f + len)) f) /\ fifo_rep (set_out (u32 (fout f + len)) f) (drop (Z.to_nat len) q).
Proof.
  intros Hwf Hrep Hlen. destruct (fifo_size f Hwf) as [Hs _]. pose proof Hwf as Hwf0.
  destruct Hwf as [H1 H2 H3 H4]. destruct Hrep as [Hl Hsz Hq]. split; [split; try done; apply u32_range|].
  split; cbn [set_out fin fout fsize].
  - rewrite length_drop. unfold uwrap in *. rewrite Zminus_mod_idemp_r.
    replace (fin f - (fout f + len)) with (fin f - fout f - len) by lia. rewrite <-Zminus_mod_idemp_l, Hl.
    rewrite Z.mod_small; [lia|]. change (2 ^ 31) with 2147483648 in Hs. change (2 ^ 32) with 4294967296. lia.
  - rewrite length_drop. lia.
  - intros i x Hi. rewrite lookup_drop in Hi. rewrite <-(Hq _ _ Hi). cbn [set_out buffer].
    change (slot (set_out (u32 (fout f + len)) f) (u32 (fout f + len)) i) with (slot f (u32 (fout f + len)) i).
    rewrite slot_u32 by done. unfold slot. f_equal. f_equal. f_equal. lia.
Qed.

(** *** Whole operations *)

Lemma put_ok f q d len :
  fifo_wf f -> fifo_rep f q -> 0 <= len <= Z.of_nat (length d) ->
  let n := Z.min len (fsize f - Z.of_nat (length q)) in
  runs (__kfifo_put d len) f (fun r f' =>
    r = n /\ fsize f' = fsize f /\ fifo_wf f' /\ fifo_rep f' (q ++ take (Z.to_nat n) d)).
Proof.
  intros Hwf Hrep Hlen n. pose proof (rep_size _ _ Hrep) as Hsz. unfold __kfifo_put. wp.
  rewrite (put_len_ok f q len Hwf Hrep). fold n.
  destruct (put_first_ok d n f Hwf) as (f1 & E1 & K1 & S1); [lia|lia|].
  destruct (keeps_rest_rep f f1 q n Hwf Hrep ltac:(lia) K1) as [Hwf1 Hrep1].
  apply (runs_ok _ _ _ _ _ E1). wp.
  assert (fin f1 = fin f /\ fsize f1 = fsize f) as [Ei1 Es1] by (by destruct K1 as (b & -> & _)).
  destruct (put_second_ok d n f1 Hwf1) as (f2 & E2 & K2 & S2); [lia|lia| |].
  { unfold to_end. rewrite Ei1, Es1. exact S1. }
  destruct (keeps_rest_rep f1 f2 q n Hwf1 Hrep1 ltac:(lia) K2) as [Hwf2 Hrep2].
  assert (fin f2 = fin f1 /\ fsize f2 = fsize f1) as [Ei2 Es2] by (by destruct K2 as (b & -> & _)).
  apply (runs_ok _ _ _ _ _ E2). unfold put_publish. wp. split; [done|].
  split; [cbn [set_in fsize]; lia|]. apply publish_in_ok; try done; try lia.
  - rewrite length_take. lia.
  - rewrite Ei2. exact S2.
Qed.

Lemma take_two_parts {A} (l : list A) m n :
  (m <= n)%nat -> take m l ++ take (n - m) (drop m l) = take n l.
Proof.
  intros H. rewrite take_drop_commute, <-(take_drop m (take n l)) at 1. rewrite take_take, Nat.min_l by lia.
  f_equal. f_equal. f_equal. lia.
Qed.

Lemma get_ok f q len :
  fifo_wf f -> fifo_rep f q -> 0 <= len ->
  let n := Z.min len (Z.of_nat (length q)) in
  runs (__kfifo_get len) f (fun r f' =>
    r = take (Z.to_nat n) q /\ fsize f' = fsize f /\ fifo_wf f' /\ fifo_rep f' (drop (Z.to_nat n) q)).
Proof.
  intros Hwf Hrep Hlen n. pose proof (rep_size _ _ Hrep) as Hsz. unfold __kfifo_get. wp.
  rewrite (get_len_ok f q len Hrep). fold n.
  eapply runs_ok; [apply get_first_ok; try done; [apply Hrep|lia|lia]|]. wp.
  eapply runs_ok; [apply get_second_ok; try done; [apply Hrep|lia|lia]|]. unfold get_publish. wp.
  pose proof (publish_out_ok f q n Hwf Hrep ltac:(lia)) as [H1 H2]. split_and!; try done.
  unfold to_end. set (l := Z.min n _).
  destruct (fifo_size f Hwf) as [Hs _]. pose proof (land_size f (fout f) Hwf) as El.
  pose proof (Z.mod_pos_bound (fout f) (fsize f) ltac:(lia)).
  rewrite Z2Nat.inj_sub by lia. apply take_two_parts. lia.
Qed.

Lemma empty_rep f : fifo_wf f -> fin f = fout f -> fifo_rep f [].
Proof.
  intros Hwf E. destruct (fifo_size f Hwf) as [Hs _]. split; cbn [length].
  - by rewrite E, Z.sub_diag.
  - lia.
  - intros i b [=].
Qed.

Lemma reset_rep f : fifo_wf f -> fifo_wf (set_in 0 (set_out 0 f)) /\ fifo_rep (set_in 0 (set_out 0 f)) [].
Proof.
  intros [H1 H2 H3 H4]. assert (Hwf : fifo_wf (set_in 0 (set_out 0 f))) by (split; (done || cbn; lia)).
  split; [done|]. by apply empty_rep.
Qed.

Lemma rep_empty_iff f q : fifo_wf f -> fifo_rep f q -> (fin f =? fout f) = true -> q = [].
Proof.
  intros Hwf [Hl _ _] E%Z.eqb_eq. rewrite E, Z.sub_diag in Hl. change (u32 0) with 0 in Hl.
  destruct q; [done|]. cbn [length] in Hl. lia.
Qed.

(** *** Creation *)

Lemma pow2_is_power k : 0 <= k -> is_power_of_2 (2 ^ k) = true.
Proof.
  intros Hk. unfold is_power_of_2. rewrite (proj2 (Z.eqb_neq _ _)) by lia. cbn [negb andb].
  replace (2 ^ k - 1) with (Z.ones k) by (rewrite Z.ones_equiv; lia). rewrite Z.land_ones by done.
  by rewrite Z.mod_same by lia.
Qed.

Lemma is_power_pow2 n : 0 <= n -> is_power_of_2 n = true -> exists k, 0 <= k /\ n = 2 ^ k.
Proof.
  intros Hn [H0%negb_true_iff%Z.eqb_neq Hl%Z.eqb_eq]%andb_true_iff.
  exists (Z.log2 n). split; [apply Z.log2_nonneg|]. destruct (Z.log2_spec n ltac:(lia)) as [Hlo Hhi].
  destruct (decide (n = 2 ^ Z.log2 n)) as [|Hne]; [done|]. exfalso.
  pose proof (Z.pow_pos_nonneg 2 (Z.log2 n) ltac:(lia) (Z.log2_nonneg n)).
  assert (Hb : Z.testbit (Z.land n (n - 1)) (Z.log2 n) = true); [|by rewrite Hl, Z.testbit_0_l in Hb].
  rewrite Z.land_spec, Z.bit_log2 by lia. cbn [andb].
  replace (Z.log2 n) with (Z.log2 (n - 1)) at 1; [apply Z.bit_log2; lia|].
  apply Z.log2_unique; [apply Z.log2_nonneg|]. rewrite <-Z.add_1_r in Hhi |- *. lia.
Qed.

Lemma roundup_ok n :
  3 <= n <= 2 ^ 31 -> exists k, __roundup_pow_of_two n = Ok (2 ^ k) /\ 0 <= k <= 31 /\ n <= 2 ^ k < 2 * n.
Proof.
  intros Hn. unfold __roundup_pow_of_two, fls_long. change (2 ^ 31) with 2147483648 in Hn.
  rewrite (uwrap_small 64 (n - 1)) by (change (2 ^ 64) with 18446744073709551616; lia).
  rewrite (proj2 (Z.eqb_neq _ _)) by lia. destruct (Z.log2_spec (n - 1) ltac:(lia)) as [Hlo Hhi].
  assert (Hk : Z.log2 (n - 1) < 31) by (apply Z.log2_lt_pow2; [lia|change (2 ^ 31) with 2147483648; lia]).
  pose proof (Z.log2_nonneg (n - 1)). exists (Z.log2 (n - 1) + 1).
  rewrite (proj2 (Z.ltb_lt _ _)) by lia. rewrite Z.shiftl_1_l.
  rewrite <-Z.add_1_r in Hhi. rewrite Z.pow_add_r in * by lia. change (2 ^ 1) with 2 in *.
  rewrite uwrap_small by (change (2 ^ 64) with 18446744073709551616; lia). split_and!; (done || lia).
Qed.

(** What [kmalloc] promises of a buffer. *)
Definition buffer_mem_ok (buf_mem : Z -> option (list Z)) : Prop :=
  forall n b, buf_mem n = Some b -> Z.of_nat (length b) = n.

Lemma init_runs buf k mem live :
  0 <= k <= 31 -> Z.of_nat (length buf) = 2 ^ k ->
  runs (kfifo_init buf (2 ^ k) mem) live (fun r live' =>
    match r with
    | inl f => fsize f = 2 ^ k /\ live' = 1 + live /\ fifo_wf f /\ fifo_rep f []
    | inr e => e = - ENOMEM /\ live' = live
    end).
Proof.
  intros Hk Hb. unfold kfifo_init. rewrite pow2_is_power by lia. cbn [negb]. wp.
  destruct mem; cbn [kmalloc]; wp; [|done].
  assert (Hwf : fifo_wf (mk_kfifo buf (2 ^ k) 0 0)) by (split; cbn; [by exists k|done|lia|lia]).
  split_and!; try done. by apply empty_rep.
Qed.

Lemma alloc_runs size buf_mem mem live :
  0 < size <= 2 ^ 31 -> buffer_mem_ok buf_mem ->
  runs (kfifo_alloc size buf_mem mem) live (fun r live' =>
    match r with
    | inl f => size <= fsize f < 2 * size /\ (is_power_of_2 size = true -> fsize f = size) /\
        live' = live + 2 /\ fifo_wf f /\ fifo_rep f []
    | inr e => e = - ENOMEM /\ live' = live
    end).
Proof.
  intros Hs Hbuf. unfold kfifo_alloc. apply runs_bind.
  apply (runs_mono _ _ (fun s' live' => live' = live /\ exists k, s' = 2 ^ k /\ 0 <= k <= 31 /\
    size <= s' < 2 * size /\ (is_power_of_2 size = true -> s' = size))).
  - destruct (is_power_of_2 size) eqn:Ep; cbn [negb].
    + wp. split; [done|]. destruct (is_power_pow2 size ltac:(lia) Ep) as (k & Hk & ->).
      exists k. split_and!; try done; try lia. apply (Z.pow_le_mono_r_iff 2); lia.
    + rewrite (proj2 (Z.ltb_ge _ _)) by (change (2 ^ 31) with 2147483648 in Hs; lia). wp.
      assert (3 <= size).
      { destruct (decide (size = 1)) as [->|]; [done|]. destruct (decide (size = 2)) as [->|]; [done|]. lia. }
      destruct (roundup_ok size ltac:(lia)) as (k & -> & Hk & Hlt). wp. split; [done|]. exists k.
      pose proof (Z.pow_le_mono_r 2 k 31 ltac:(lia) ltac:(lia)) as Hp. change (2 ^ 31) with 2147483648 in Hp.
      rewrite uwrap_small by (change (2 ^ 32) with 4294967296; lia). done.
  - intros s' ? (-> & k & -> & Hk & Hr & Hpow). destruct (buf_mem (2 ^ k)) as [buf|] eqn:Eb; cbn [kmalloc]; wp; [|done].
    eapply runs_mono; [apply init_runs; [done|by apply Hbuf]|]. cbv beta. intros [f|e] live'.
    + intros (Ef & -> & Hwf & Hrep). wp. rewrite Ef. split_and!; try done; lia.
    + intros (-> & ->). unfold kfree. wp. split; [done|lia].
Qed.

(** ** Refinement to a bounded queue *)

Inductive fop : Type :=
| OpPut (d : list Z) (len : Z)
| OpGet (len : Z)
| OpReset
| OpLen.

(** What an operation answers: a number and the bytes it gives back. *)
Definition run_fop (o : fop) : M kfifo (Z * list Z) :=
  match o with
  | OpPut d len => let! n := kfifo_put d len in ret (n, [])
  | OpGet len => let! d := kfifo_get len in ret (Z.of_nat (length d), d)
  | OpReset => kfifo_reset ;;; ret (0, [])
  | OpLen => let! n := kfifo_len in ret (n, [])
  end.

Fixpoint run_fops (ops : list fop) : M kfifo (list (Z * list Z)) :=
  match ops with
  | [] => ret []
  | o :: ops => let! r := run_fop o in let! rs := run_fops ops in ret (r :: rs)
  end.

(** The specification: a queue of at most [cap] bytes. *)
Definition spec_fop (cap : nat) (o : fop) (q : list Z) : (Z * list Z) * list Z :=
  match o with
  | OpPut d len =>
      let n := (Z.to_nat len `min` (cap - length q))%nat in
      ((Z.of_nat n, []), q ++ take n d)
  | OpGet len =>
      let n := (Z.to_nat len `min` length q)%nat in
      ((Z.of_nat n, take n q), drop n q)
  | OpReset => ((0, []), [])
  | OpLen => ((Z.of_nat (length q), []), q)
  end.

Fixpoint spec_fops (cap : nat) (ops : list fop) (q : list Z) : list (Z * list Z) :=
  match ops with
  | [] => []
  | o :: ops => let '(r, q') := spec_fop cap o q in r :: spec_fops cap ops q'
  end.

(** The caller's buffer has the bytes it says it has. *)
Definition fop_ok (o : fop) : Prop :=
  match o with
  | OpPut d len => 0 <= len <= Z.of_nat (length d)
  | OpGet len => 0 <= len
  | _ => True
  end.

Lemma kfifo_get_ok f q len :
  fifo_wf f -> fifo_rep f q -> 0 <= len ->
  let n := Z.min len (Z.of_nat (length q)) in
  runs (kfifo_get len) f (fun r f' =>
    r = take (Z.to_nat n) q /\ fsize f' = fsize f /\ fifo_wf f' /\ fifo_rep f' (drop (Z.to_nat n) q)).
Proof.
  intros Hwf Hrep Hlen n. unfold kfifo_get. wp.
  eapply runs_mono; [by apply (get_ok f q)|]. cbv beta zeta. fold n. intros r f' (-> & Hs & Hwf' & Hrep'). wp.
  destruct (fin f' =? fout f') eqn:E; wp; [|done].
  rewrite (rep_empty_iff f' _ Hwf' Hrep' E). by destruct (reset_rep f' Hwf').
Qed.

Lemma fop_refines cap o f q :
  fifo_wf f -> fifo_rep f q -> fsize f = Z.of_nat cap -> fop_ok o ->
  runs (run_fop o) f (fun r f' =>
    r = (spec_fop cap o q).1 /\ fsize f' = Z.of_nat cap /\ fifo_wf f' /\ fifo_rep f' (spec_fop cap o q).2).
Proof.
  intros Hwf Hrep Hcap Ho. pose proof (rep_size _ _ Hrep) as Hsz.
  destruct o as [d len|len| |]; cbn [run_fop spec_fop fst snd fop_ok] in *; wp.
  - eapply runs_mono; [by apply (put_ok f q)|]. cbv beta zeta. intros r f' (-> & Hs & Hwf' & Hrep'). wp.
    replace (Z.to_nat len `min` (cap - length q))%nat
      with (Z.to_nat (Z.min len (fsize f - Z.of_nat (length q)))) by lia.
    split_and!; try done; [|lia]. f_equal. lia.
  - eapply runs_mono; [by apply (kfifo_get_ok f q)|]. cbv beta zeta. intros r f' (-> & Hs & Hwf' & Hrep'). wp.
    replace (Z.to_nat len `min` length q)%nat with (Z.to_nat (Z.min len (Z.of_nat (length q)))) by lia.
    split_and!; try done; [|lia]. f_equal. rewrite length_take. lia.
  - unfold kfifo_reset, __kfifo_reset. wp. by destruct (reset_rep f Hwf).
  - unfold kfifo_len, __kfifo_len. wp. by rewrite (rep_len _ _ Hrep).
Qed.

Lemma fops_refine cap ops f q :
  fifo_wf f -> fifo_rep f q -> fsize f = Z.of_nat cap -> Forall fop_ok ops ->
  runs (run_fops ops) f (fun rs f' => rs = spec_fops cap ops q).
Proof.
  intros Hwf Hrep Hcap Hops. revert f q Hwf Hrep Hcap.
  induction Hops as [|o ops Ho _ IH]; intros f q Hwf Hrep Hcap; cbn [run_fops spec_fops]; wp; [done|].
  eapply runs_mono; [by apply (fop_refines cap o f q)|]. cbv beta. intros r f' (-> & Hs & Hwf' & Hrep'). wp.
  destruct (spec_fop cap o q) as [r' q']. cbn [fst snd] in *.
  eapply runs_mono; [by apply (IH f' q')|]. cbv beta. intros rs f'' ->. by wp.
Qed.

(** C36: A queue that [kfifo_alloc] creates refines a bounded queue.  The
    request is rounded up to a power of two, no more than twice as large, and
    every sequence of puts, gets, resets and length queries under the lock
    ends without a fault and answers what a list of at most that many bytes
    answers: bytes come out in the order they went in, a put takes what fits,
    a get gives what is there, although the indices are never reduced modulo
    the size and wrap at 32 bits.  Without memory the result is [-ENOMEM] and
    no block is leaked; [kfifo_free] gives back what creation took. *)
Theorem kfifo_refines_bounded_queue size buf_mem mem live ops :
  0 < size <= 2 ^ 31 -> buffer_mem_ok buf_mem -> Forall fop_ok ops ->
  runs (kfifo_alloc size buf_mem mem) live (fun r live' =>
    match r with
    | inl f =>
        size <= fsize f < 2 * size /\ (is_power_of_2 size = true -> fsize f = size) /\
        runs (run_fops ops) f (fun rs f' => rs = spec_fops (Z.to_nat (fsize f)) ops []) /\
        runs (kfifo_free f) live' (fun _ live'' => live'' = live)
    | inr e => e = - ENOMEM /\ live' = live
    end).
Proof.
  intros Hs Hbuf Hops. eapply runs_mono; [by apply alloc_runs|]. cbv beta.
  intros [f|e] live'; [|done]. intros (Hr & Hp & -> & Hwf & Hrep). split; [done|]. split; [done|]. split.
  - apply fops_refine; try done. lia.
  - unfold kfifo_free, kfree. wp. lia.
Qed.

Definition demo_ops : list fop :=
  [OpPut [1; 2; 3] 3; OpPut [4; 5] 2; OpGet 2; OpPut [6; 7; 8] 3; OpLen; OpGet 9; OpGet 1; OpReset].

Lemma kfifo_refines_bounded_queue_witness :
  runs (kfifo_alloc 3 (fun n => if decide (n = 4) then Some [0; 0; 0; 0] else None) (Some tt)) 0 (fun r live' =>
    match r with
    | inl f => fsize f = 4 /\ live' = 2 /\
        runs (run_fops demo_ops) f (fun rs f' =>
          rs = [(3, []); (1, []); (2, [1; 2]); (2, []); (4, []); (4, [3; 4; 6; 7]); (0, []); (0, [])])
    | inr _ => False
    end).
Proof.
  destruct (kfifo_refines_bounded_queue 3 (fun n => if decide (n = 4) then Some [0; 0; 0; 0] else None) (Some tt) 0 demo_ops)
    as (r & live' & E & HQ).
  - done.
  - intros n b H. case_decide as Hn; [|done]. injection H as <-. by subst.
  - repeat constructor; done.
  - vm_compute in E. injection E as <- <-. destruct HQ as (_ & _ & HQ & _). eexists _, _. split; [reflexivity|].
    split_and!; [reflexivity|reflexivity|]. exact HQ.
Defined.

(** ** One reader and one writer without a lock

    The header of [__kfifo_put] and [__kfifo_get] says that one concurrent
    reader and one concurrent writer need no lock.  The two sides are threads
    that interleave at every step. *)
Module Spsc.

Inductive writer : Type :=
| WIdle
| WFirst (d : list Z) (len : Z)
| WSecond (d : list Z) (len : Z)
| WPublish (d : list Z) (len : Z).

Inductive reader : Type :=
| RIdle
| RFirst (len : Z)
| RSecond (len : Z) (d1 : list Z)
| RPublish (len : Z) (d : list Z).

(** [sent] and [got] are the bytes of the puts and gets that returned. *)
Record sys : Type := mk_sys { fq : kfifo; wr : writer; rd : reader; sent : list Z; got : list Z }.

(** The next step of either side; an idle side starts the call given. *)
Inductive action : Type :=
| Write (d : list Z) (len : Z)
| Read (len : Z).

Definition write_step (d : list Z) (len : Z) (s : sys) : res sys :=
  match wr s with
  | WIdle => Ok (mk_sys (fq s) (WFirst d (put_len len (fq s))) (rd s) (sent s) (got s))
  | WFirst d n =>
      match put_first d n (fq s) with
      | Ok (_, f) => Ok (mk_sys f (WSecond d n) (rd s) (sent s) (got s))
      | Err e => Err e
      end
  | WSecond d n =>
      match put_second d n (fq s) with
      | Ok (_, f) => Ok (mk_sys f (WPublish d n) (rd s) (sent s) (got s))
      | Err e => Err e
      end
  | WPublish d n =>
      match put_publish n (fq s) with
      | Ok (_, f) => Ok (mk_sys f WIdle (rd s) (sent s ++ take (Z.to_nat n) d) (got s))
      | Err e => Err e
      end
  end.

Definition read_step (len : Z) (s : sys) : res sys :=
  match rd s with
  | RIdle => Ok (mk_sys (fq s) (wr s) (RFirst (get_len len (fq s))) (sent s) (got s))
  | RFirst n =>
      match get_first n (fq s) with
      | Ok (d1, f) => Ok (mk_sys f (wr s) (RSecond n d1) (sent s) (got s))
      | Err e => Err e
      end
  | RSecond n d1 =>
      match get_second n (fq s) with
      | Ok (d2, f) => Ok (mk_sys f (wr s) (RPublish n (d1 ++ d2)) (sent s) (got s))
      | Err e => Err e
      end
  | RPublish n d =>
      match get_publish n (fq s) with
      | Ok (_, f) => Ok (mk_sys f (wr s) RIdle (sent s) (got s ++ d))
      | Err e => Err e
      end
  end.

Definition step (a : action) (s : sys) : res sys :=
  match a with Write d len => write_step d len s | Read len => read_step len s end.

Fixpoint run (acts : list action) (s : sys) : res sys :=
  match acts with
  | [] => Ok s
  | a :: acts => match step a s with Ok s' => run acts s' | Err e => Err e end
  end.

Definition action_ok (a : action) : Prop :=
  match a with Write d len => 0 <= len <= Z.of_nat (length d) | Read len => 0 <= len end.

Definition start (f : kfifo) : sys := mk_sys f WIdle RIdle [] [].

(** What each side knows between its steps; the other side's steps keep it. *)
Definition wr_inv (f : kfifo) (q : list Z) (w : writer) : Prop :=
  match w with
  | WIdle => True
  | WFirst d n | WSecond d n | WPublish d n =>
      0 <= n <= Z.of_nat (length d) /\ Z.of_nat (length q) + n <= fsize f /\
      match w with
      | WSecond _ _ => stored f (fin f) (take (Z.to_nat (to_end (fin f) n f)) d)
      | WPublish _ _ => stored f (fin f) (take (Z.to_nat n) d)
      | _ => True
      end
  end.

Definition rd_inv (f : kfifo) (q : list Z) (r : reader) : Prop :=
  match r with
  | RIdle => True
  | RFirst n => 0 <= n <= Z.of_nat (length q)
  | RSecond n d1 => 0 <= n <= Z.of_nat (length q) /\ d1 = take (Z.to_nat (to_end (fout f) n f)) q
  | RPublish n d => 0 <= n <= Z.of_nat (length q) /\ d = take (Z.to_nat n) q
  end.

Record inv (size : Z) (s : sys) (q : list Z) : Prop := {
  inv_size : fsize (fq s) = size;
  inv_wf : fifo_wf (fq s);
  inv_rep : fifo_rep (fq s) q;
  inv_wr : wr_inv (fq s) q (wr s);
  inv_rd : rd_inv (fq s) q (rd s);
  inv_sent : sent s = got s ++ q;
}.

(** The reader's knowledge when the writer publishes. *)
Lemma rd_inv_put f f' q d r :
  fsize f' = fsize f -> fout f' = fout f -> rd_inv f q r -> rd_inv f' (q ++ d) r.
Proof.
  intros Es Eo. destruct r as [|n|n d1|n d1]; cbn [rd_inv]; unfold to_end; rewrite ?Es, ?Eo, ?length_app;
    try done; [lia| |]; intros [Hn ->]; (split; [lia|]); rewrite take_app_le; (done || lia).
Qed.

(** The writer's knowledge when the reader publishes. *)
Lemma wr_inv_get f q n w :
  wr_inv f q w -> wr_inv (set_out (u32 (fout f + n)) f) (drop (Z.to_nat n) q) w.
Proof.
  destruct w as [|d m|d m|d m]; cbn [wr_inv]; [done| | |]; intros (Hm & Hq & Hs);
    (split; [done|]); (split; [rewrite length_drop; cbn [set_out fsize]; lia|]); exact Hs.
Qed.

Lemma write_step_inv size d len s q :
  inv size s q -> 0 <= len <= Z.of_nat (length d) ->
  exists s', write_step d len s = Ok s' /\ exists q', inv size s' q'.
Proof.
  intros [Hs Hwf Hrep Hwr Hrd Hsent] Hlen. pose proof (rep_size _ _ Hrep) as Hsz. unfold write_step.
  destruct (wr s) as [|d' n|d' n|d' n]; cbn [wr_inv] in Hwr.
  - eexists. split; [done|]. exists q. split; try done. cbn [fq wr wr_inv].
    rewrite (put_len_ok _ q) by done. lia.
  - destruct Hwr as (Hn & Hq & _).
    destruct (put_first_ok d' n (fq s) Hwf) as (f & E & K & S); [lia|lia|]. rewrite E.
    destruct (keeps_rest_rep _ f q n Hwf Hrep Hq K) as [Hwf' Hrep']. destruct K as (b & -> & _).
    eexists. split; [done|]. exists q. by split.
  - destruct Hwr as (Hn & Hq & Hst).
    destruct (put_second_ok d' n (fq s) Hwf) as (f & E & K & S); [lia|lia|done|]. rewrite E.
    destruct (keeps_rest_rep _ f q n Hwf Hrep Hq K) as [Hwf' Hrep']. destruct K as (b & -> & _).
    eexists. split; [done|]. exists q. by split.
  - destruct Hwr as (Hn & Hq & Hst). cbn [put_publish modify].
    destruct (publish_in_ok (fq s) q (take (Z.to_nat n) d') n Hwf Hrep) as [Hwf' Hrep'];
      try done; [lia|rewrite length_take; lia|].
    eexists. split; [reflexivity|]. exists (q ++ take (Z.to_nat n) d'). split; try done.
    + by apply (rd_inv_put (fq s)).
    + cbn [sent got]. by rewrite Hsent, app_assoc.
Qed.

Lemma read_step_inv size len s q :
  inv size s q -> 0 <= len -> exists s', read_step len s = Ok s' /\ exists q', inv size s' q'.
Proof.
  intros [Hs Hwf Hrep Hwr Hrd Hsent] Hlen. pose proof (rep_size _ _ Hrep) as Hsz. unfold read_step.
  destruct (rd s) as [|n|n d1|n d1]; cbn [rd_inv] in Hrd.
  - eexists. split; [done|]. exists q. split; try done. cbn [fq rd rd_inv].
    rewrite (get_len_ok _ q) by done. lia.
  - rewrite (get_first_ok _ q) by (done || lia || apply Hrep). eexists. split; [done|]. by exists q.
  - destruct Hrd as [Hn ->]. rewrite (get_second_ok _ q) by (done || lia || apply Hrep).
    eexists. split; [done|]. exists q. split; try done. cbn [rd rd_inv fq]. split; [done|].
    destruct (fifo_size _ Hwf) as [Hp _]. pose proof (land_size (fq s) (fout (fq s)) Hwf) as El.
    pose proof (Z.mod_pos_bound (fout (fq s)) (fsize (fq s)) ltac:(lia)). unfold to_end.
    rewrite Z2Nat.inj_sub by lia. apply take_two_parts. lia.
  - destruct Hrd as [Hn ->]. cbn [get_publish modify].
    destruct (publish_out_ok (fq s) q n Hwf Hrep Hn) as [Hwf' Hrep'].
    eexists. split; [reflexivity|]. exists (drop (Z.to_nat n) q). split; try done.
    + by apply wr_inv_get.
    + cbn [sent got]. by rewrite Hsent, <-app_assoc, take_drop.
Qed.

Lemma run_inv size acts s q :
  inv size s q -> Forall action_ok acts -> exists s', run acts s = Ok s' /\ exists q', inv size s' q'.
Proof.
  intros Hinv Hacts. revert s q Hinv. induction Hacts as [|a acts Ha _ IH]; intros s q Hinv; cbn [run].
  - eauto.
  - assert (exists s', step a s = Ok s' /\ exists q', inv size s' q') as (s' & -> & q' & Hinv').
    { destruct a; cbn [step action_ok] in *; [by eapply write_step_inv|by eapply read_step_inv]. }
    by apply (IH s' q').
Qed.

(** C37: With one reader and one writer the queue needs no lock, as
    [__kfifo_put] and [__kfifo_get] promise.  From an empty queue, whatever
    the interleaving of the steps of the two sides and whatever the sizes they
    ask for, no copy leaves the buffer or reads past the data, the bytes got
    so far are a prefix of the bytes sent so far, and the rest is at most a
    buffer full and at every moment as long as [__kfifo_len] reports. *)
Theorem kfifo_one_reader_one_writer f acts :
  fifo_wf f -> fin f = fout f -> Forall action_ok acts ->
  exists s q, run acts (start f) = Ok s /\ sent s = got s ++ q /\
    Z.of_nat (length q) <= fsize f /\ fsize (fq s) = fsize f /\ __kfifo_len (fq s) = Ok (Z.of_nat (length q), fq s).
Proof.
  intros Hwf Hf Hacts. destruct (run_inv (fsize f) acts (start f) []) as (s & E & q & Hinv); [|done|].
  - split; try done. by apply empty_rep.
  - exists s, q. destruct Hinv as [Hs Hwf' Hrep _ _ Hsent]. split_and!; try done.
    + rewrite <-Hs. apply Hrep.
    + unfold __kfifo_len, gets. by rewrite (rep_len _ _ Hrep).
Qed.

(** A queue whose indices are about to wrap; reads begin before writes end. *)
Definition demo_acts : list action :=
  [Write [1; 2; 3] 3; Read 5; Write [] 0; Write [] 0; Read 0; Write [] 0; Read 0; Write [4; 5; 6] 3;
   Read 0; Read 2; Write [] 0; Read 0; Write [] 0; Read 0; Write [] 0; Read 0].

Lemma kfifo_one_reader_one_writer_witness :
  exists s q, run demo_acts (start (mk_kfifo [0; 0; 0; 0] 4 (2 ^ 32 - 2) (2 ^ 32 - 2))) = Ok s /\
    sent s = [1; 2; 3; 4] /\ got s = [1; 2] /\ sent s = got s ++ q.
Proof.
  destruct (kfifo_one_reader_one_writer (mk_kfifo [0; 0; 0; 0] 4 (2 ^ 32 - 2) (2 ^ 32 - 2)) demo_acts)
    as (s & q & E & Hq & _).
  - split; [by exists 2|done|done|done].
  - done.
  - repeat constructor; done.
  - exists s, q. split; [exact E|]. vm_compute in E. injection E as <-. split; [reflexivity|]. split; [reflexivity|exact Hq].
Defined.
End Spsc.
