(* ===== verification/Bits.v ===== *)
(** Arrays of bits: the word operations of [arch/x86/include/asm/bitops.h],
    and the searches of [lib/find_next_bit.c] and [lib/find_last_bit.c].

    A bitmap is an array of 64-bit words; the store maps the address of each
    array to its words, so that two arguments of a function can be the same
    array.  An access outside an array is an oops. *)
From S2P Require Import Prelude Wp.

Abbreviation store := (gmap Z (list Z)).

(** [bitmap[k]] *)
Definition word (b k : Z) : M store Z := deref (fun s => l ← s !! b; zget l k).

Definition put_word (b k v : Z) : M store unit := fun s =>
  match s !! b with
  | Some l => match zset l k v with Some l' => Ok (tt, <[b := l']> s) | None => Err Oops end
  | None => Err Oops
  end.

(** ** Words *)

Definition BITS_PER_LONG : Z := 64.
Definition ones64 : Z := 2 ^ 64 - 1.
Definition not64 (w : Z) : Z := u64 (Z.lnot w).
(** The processor takes the count of a shift modulo 64. *)
Definition shl64 (w n : Z) : Z := u64 (Z.shiftl w (n mod 64)).
Definition shr64 (w n : Z) : Z := Z.shiftr w (n mod 64).

Fixpoint trailing_zeros (p : positive) : Z :=
  match p with xO p => 1 + trailing_zeros p | _ => 0 end.

(** The number of the lowest bit set, of the lowest bit clear, and of the
    highest bit set; without such a bit the instructions leave their result
    undefined. *)
Definition __ffs (w : Z) : M store Z :=
  match w with Zpos p => ret (trailing_zeros p) | _ => throw Undef end.
Definition ffz (w : Z) : M store Z := __ffs (not64 w).
Definition __fls (w : Z) : M store Z := if 0 <? w then ret (Z.log2 w) else throw Undef.

Definition set_bit (nr addr : Z) : M store unit :=
  let! w := word addr (nr / BITS_PER_LONG) in
  put_word addr (nr / BITS_PER_LONG) (Z.lor w (shl64 1 (nr mod BITS_PER_LONG))).

Definition test_bit (nr addr : Z) : M store bool :=
  let! w := word addr (nr / BITS_PER_LONG) in
  ret (ctrue (Z.land (shl64 1 (nr mod BITS_PER_LONG)) w)).

(** ** Searching *)

(** The loop over whole words: [hit] is the condition of its [if].  It ends
    with the variables and the word found, if any. *)
Definition scan_words (addr : Z) (hit : Z -> bool) (p size result : Z) : M store (Z * Z * Z * option Z) :=
  loop (S (Z.to_nat size)) (fun '(p, size, result) =>
    if Z.land size (-64) =? 0 then ret (inr (p, size, result, None))
    else
      let! tmp := word addr p in
      if hit tmp then ret (inr (p + 1, size, result, Some tmp))
      else ret (inl (p + 1, size - BITS_PER_LONG, result + BITS_PER_LONG))) (p, size, result).

Definition found_middle (tmp result : Z) : M store Z :=
  let! n := __ffs tmp in ret (result + n).

Definition found_first (tmp size result : Z) : M store Z :=
  let tmp := Z.land tmp (shr64 ones64 (BITS_PER_LONG - size)) in
  if tmp =? 0 then ret (result + size) else found_middle tmp result.

Definition after_words (addr : Z) (x : Z * Z * Z * option Z) : M store Z :=
  let '(p, size, result, hit) := x in
  match hit with
  | Some tmp => found_middle tmp result
  | None => if size =? 0 then ret result else let! tmp := word addr p in found_first tmp size result
  end.

Definition find_next_bit (addr size offset : Z) : M store Z :=
  let p := offset / BITS_PER_LONG in
  let result := Z.land offset (-64) in
  if size <=? offset then ret size
  else
    let size := size - result in
    let offset := offset mod BITS_PER_LONG in
    if ctrue offset then
      let! tmp := word addr p in
      let p := p + 1 in
      let tmp := Z.land tmp (shl64 ones64 offset) in
      if size <? BITS_PER_LONG then found_first tmp size result
      else if ctrue tmp then found_middle tmp result
      else let! x := scan_words addr ctrue p (size - BITS_PER_LONG) (result + BITS_PER_LONG) in after_words addr x
    else let! x := scan_words addr ctrue p size result in after_words addr x.

Definition zero_middle (tmp result : Z) : M store Z :=
  let! n := ffz tmp in ret (result + n).

Definition zero_first (tmp size result : Z) : M store Z :=
  let tmp := Z.lor tmp (shl64 ones64 size) in
  if tmp =? ones64 then ret (result + size) else zero_middle tmp result.

Definition after_words_zero (addr : Z) (x : Z * Z * Z * option Z) : M store Z :=
  let '(p, size, result, hit) := x in
  match hit with
  | Some tmp => zero_middle tmp result
  | None => if size =? 0 then ret result else let! tmp := word addr p in zero_first tmp size result
  end.

Definition find_next_zero_bit (addr size offset : Z) : M store Z :=
  let p := offset / BITS_PER_LONG in
  let result := Z.land offset (-64) in
  let hit tmp := ctrue (not64 tmp) in
  if size <=? offset then ret size
  else
    let size := size - result in
    let offset := offset mod BITS_PER_LONG in
    if ctrue offset then
      let! tmp := word addr p in
      let p := p + 1 in
      let tmp := Z.lor tmp (shr64 ones64 (BITS_PER_LONG - offset)) in
      if size <? BITS_PER_LONG then zero_first tmp size result
      else if hit tmp then zero_middle tmp result
      else let! x := scan_words addr hit p (size - BITS_PER_LONG) (result + BITS_PER_LONG) in after_words_zero addr x
    else let! x := scan_words addr hit p size result in after_words_zero addr x.

Definition find_first_bit (addr size : Z) : M store Z :=
  let! x := scan_words addr ctrue 0 size 0 in after_words addr x.

Definition find_first_zero_bit (addr size : Z) : M store Z :=
  let! x := scan_words addr (fun tmp => ctrue (not64 tmp)) 0 size 0 in after_words_zero addr x.

Definition last_loop (addr size words : Z) : M store Z :=
  loop (S (Z.to_nat words)) (fun words =>
    if words =? 0 then ret (inr size)
    else
      let words := words - 1 in
      let! tmp := word addr words in
      if ctrue tmp then let! n := __fls tmp in ret (inr (words * BITS_PER_LONG + n))
      else ret (inl words)) words.

Definition find_last_bit (addr size : Z) : M store Z :=
  let words := size / BITS_PER_LONG in
  let rest := Z.land size (BITS_PER_LONG - 1) in
  if ctrue rest then
    let! w := word addr words in
    let tmp := Z.land w (shr64 ones64 (BITS_PER_LONG - rest)) in
    if ctrue tmp then let! n := __fls tmp in ret (words * BITS_PER_LONG + n)
    else last_loop addr size words
  else last_loop addr size words.

(** ** Bits of words *)

Definition is_word (w : Z) : Prop := 0 <= w < 2 ^ 64.

Lemma is_word_bits w : is_word w <-> 0 <= w /\ forall i, 64 <= i -> Z.testbit w i = false.
Proof.
  unfold is_word. split.
  - intros [H0 Hw]. split; [done|]. intros i Hi. destruct (decide (w = 0)) as [->|]; [apply Z.testbit_0_l|].
    apply Z.bits_above_log2; [done|]. apply Z.log2_lt_pow2; [lia|]. pose proof (Z.pow_le_mono_r 2 64 i). lia.
  - intros [H0 Hb]. split; [done|]. destruct (decide (w = 0)) as [->|]; [lia|]. apply Z.log2_lt_pow2; [lia|].
    destruct (Z.lt_ge_cases (Z.log2 w) 64) as [|Hge]; [done|].
    specialize (Hb _ Hge). rewrite Z.bit_log2 in Hb by lia. done.
Qed.

Lemma word_high w i : is_word w -> 64 <= i -> Z.testbit w i = false.
Proof. intros [_ H]%is_word_bits. apply H. Qed.

Lemma word_eq w w' :
  is_word w -> is_word w' -> (forall i, 0 <= i < 64 -> Z.testbit w i = Z.testbit w' i) -> w = w'.
Proof.
  intros H H' E. apply Z.bits_inj'. intros i Hi. destruct (Z.lt_ge_cases i 64); [by apply E|].
  by rewrite !word_high.
Qed.

Lemma word_zero w : is_word w -> (forall i, 0 <= i < 64 -> Z.testbit w i = false) -> w = 0.
Proof. intros H E. apply word_eq; [done|split; lia|]. intros i Hi. by rewrite E, Z.testbit_0_l. Qed.

Lemma word_u64 z : is_word (u64 z).
Proof. unfold is_word. auto with kernel. Qed.

Lemma word_ones : is_word ones64.
Proof. done. Qed.

Lemma word_0 : is_word 0.
Proof. by split. Qed.

Lemma word_not w : is_word (not64 w).
Proof. apply word_u64. Qed.

Lemma word_shl w n : is_word (shl64 w n).
Proof. apply word_u64. Qed.

Lemma word_land w w' : is_word w -> is_word (Z.land w w').
Proof.
  intros H. pose proof H as [H0 _]. apply is_word_bits. split; [apply Z.land_nonneg; lia|].
  intros i Hi. by rewrite Z.land_spec, word_high.
Qed.

Lemma word_lor w w' : is_word w -> is_word w' -> is_word (Z.lor w w').
Proof.
  intros H H'. apply is_word_bits. split; [apply Z.lor_nonneg; split; [apply H|apply H']|].
  intros i Hi. by rewrite Z.lor_spec, !word_high.
Qed.

Lemma word_lxor w w' : is_word w -> is_word w' -> is_word (Z.lxor w w').
Proof.
  intros H H'. apply is_word_bits. split; [apply Z.lxor_nonneg; split; intros; [apply H'|apply H]|].
  intros i Hi. by rewrite Z.lxor_spec, !word_high.
Qed.

Lemma word_shr w n : is_word w -> is_word (shr64 w n).
Proof.
  intros H. apply is_word_bits. unfold shr64. split; [apply Z.shiftr_nonneg, H|]. intros i Hi.
  pose proof (Z.mod_pos_bound n 64). rewrite Z.shiftr_spec by lia. apply word_high; [done|lia].
Qed.

Create HintDb word.
#[export] Hint Resolve word_0 word_u64 word_ones word_not word_shl word_land word_lor word_lxor word_shr : word.

Lemma bit_u64 z i : 0 <= i < 64 -> Z.testbit (u64 z) i = Z.testbit z i.
Proof. intros Hi. unfold uwrap. by rewrite Z.mod_pow2_bits_low by lia. Qed.

Lemma bit_ones i : 0 <= i < 64 -> Z.testbit ones64 i = true.
Proof. intros Hi. change ones64 with (Z.ones 64). by apply Z.ones_spec_low. Qed.

Lemma bit_not w i : 0 <= i < 64 -> Z.testbit (not64 w) i = negb (Z.testbit w i).
Proof. intros Hi. unfold not64. by rewrite bit_u64, Z.lnot_spec by lia. Qed.

Lemma bit_shl w n i :
  0 <= n < 64 -> 0 <= i < 64 -> Z.testbit (shl64 w n) i = (n <=? i) && Z.testbit w (i - n).
Proof.
  intros Hn Hi. unfold shl64. rewrite bit_u64, Z.mod_small, Z.shiftl_spec by lia.
  destruct (Z.leb_spec n i); [done|]. by rewrite Z.testbit_neg_r by lia.
Qed.

Lemma bit_shr w n i : 0 <= n < 64 -> 0 <= i -> Z.testbit (shr64 w n) i = Z.testbit w (i + n).
Proof. intros Hn Hi. unfold shr64. by rewrite Z.mod_small, Z.shiftr_spec by lia. Qed.

(** The masks of the code. *)
Lemma bit_low_mask size i : 0 < size < 64 -> 0 <= i < 64 -> Z.testbit (shr64 ones64 (64 - size)) i = (i <? size).
Proof.
  intros Hs Hi. rewrite bit_shr by lia. destruct (Z.ltb_spec i size).
  - apply bit_ones. lia.
  - apply (word_high _ _ word_ones). lia.
Qed.

Lemma bit_high_mask n i : 0 <= n < 64 -> 0 <= i < 64 -> Z.testbit (shl64 ones64 n) i = (n <=? i).
Proof.
  intros Hn Hi. rewrite bit_shl by lia. destruct (Z.leb_spec n i); [|done]. apply bit_ones. lia.
Qed.

Lemma bit_one n i : 0 <= n < 64 -> 0 <= i < 64 -> Z.testbit (shl64 1 n) i = (i =? n).
Proof.
  intros Hn Hi. rewrite bit_shl by lia. change 1 with (2 ^ 0). rewrite Z.pow2_bits_eqb by lia.
  destruct (Z.leb_spec n i), (Z.eqb_spec i n), (Z.eqb_spec 0 (i - n)); (done || lia).
Qed.

Lemma ctrue_true w : ctrue w = true <-> w <> 0.
Proof. unfold ctrue. rewrite negb_true_iff. apply Z.eqb_neq. Qed.

Lemma ctrue_false w : ctrue w = false <-> w = 0.
Proof. unfold ctrue. rewrite negb_false_iff. apply Z.eqb_eq. Qed.

(** ** Bits of arrays *)

Definition wat (l : list Z) (k : Z) : Z := default 0 (l !! Z.to_nat k).
Definition bit (l : list Z) (i : Z) : bool := Z.testbit (wat l (i / 64)) (i mod 64).

Lemma bit_at l k j : 0 <= j < 64 -> bit l (64 * k + j) = Z.testbit (wat l k) j.
Proof.
  intros Hj. unfold bit. rewrite (Z.mul_comm 64), Z.div_add_l, Z.div_small, Z.add_0_r by lia.
  by rewrite Z.add_comm, Z.mod_add, Z.mod_small by lia.
Qed.

Lemma wat_word l k : Forall is_word l -> is_word (wat l k).
Proof.
  intros H. unfold wat. destruct (l !! Z.to_nat k) eqn:E; cbn; [|by split].
  rewrite Forall_lookup in H. by eapply H.
Qed.

Lemma word_ok s b l k :
  s !! b = Some l -> 0 <= k < Z.of_nat (length l) -> word b k s = Ok (wat l k, s).
Proof.
  intros Hb Hk. unfold word, wat. destruct (zget_Some l k Hk) as (w & E & El).
  rewrite (deref_ok _ s w); [by rewrite El|]. by rewrite Hb.
Qed.

(** The words cover the bits [0..n). *)
Record bitmap_at (s : store) (b n : Z) (l : list Z) : Prop := {
  at_map : s !! b = Some l;
  at_words : Forall is_word l;
  at_len : n <= 64 * Z.of_nat (length l);
}.

(** [r] is the first index of [lo..hi) where [P] holds, or [hi]. *)
Definition first_from (P : Z -> bool) (lo hi r : Z) : Prop :=
  lo <= r <= hi /\ (forall i, lo <= i < r -> P i = false) /\ (r < hi -> P r = true).

Lemma first_from_unique P lo hi r r' : first_from P lo hi r -> first_from P lo hi r' -> r = r'.
Proof.
  intros (H1 & H2 & H3) (H1' & H2' & H3'). destruct (Z.lt_trichotomy r r') as [Hlt|[|Hlt]]; [|done|].
  - specialize (H3 ltac:(lia)). by rewrite H2' in H3 by lia.
  - specialize (H3' ltac:(lia)). by rewrite H2 in H3' by lia.
Qed.

Lemma ffs_ok w s :
  0 < w -> exists n, __ffs w s = Ok (n, s) /\ first_from (Z.testbit w) 0 (n + 1) n.
Proof.
  destruct w as [|p|p]; try lia. intros _. exists (trailing_zeros p). split; [done|].
  induction p as [p IH|p IH|]; cbn [trailing_zeros].
  - split; [lia|]. split; [lia|done].
  - destruct IH as (H1 & H2 & H3). split; [lia|]. split.
    + intros i Hi. destruct (decide (i = 0)) as [->|]; [done|].
      replace i with (Z.succ (i - 1)) by lia. change (Zpos p~0) with (2 * Zpos p).
      rewrite Z.double_bits_succ. apply H2. lia.
    + intros _. change (Zpos p~0) with (2 * Zpos p). rewrite Z.add_comm. rewrite Z.add_1_r, Z.double_bits_succ.
      apply H3. lia.
  - split; [lia|]. split; [lia|done].
Qed.

(** ** The searches *)

(** The bits of [w] are those of [P] from [result] on that lie in [lo..hi). *)
Definition shows (P : Z -> bool) (lo hi result w : Z) : Prop :=
  is_word w /\ forall j, 0 <= j < 64 ->
    Z.testbit w j = (lo <=? result + j) && (result + j <? hi) && P (result + j).

Definition none_in (P : Z -> bool) (lo hi : Z) : Prop := forall i, lo <= i < hi -> P i = false.

Lemma middle_ok P lo hi result w s :
  shows P lo hi result w -> none_in P lo result -> w <> 0 -> 
  exists r, found_middle w result s = Ok (r, s) /\ first_from P lo hi r.
Proof.
  intros [Hw Hb] Hpre H0. destruct Hw as [Hw0 Hw1] eqn:Ew. clear Ew.
  destruct (ffs_ok w s ltac:(lia)) as (n & E & Hn & Hlow & Hbit). specialize (Hbit ltac:(lia)).
  assert (n < 64).
  { destruct (Z.lt_ge_cases n 64); [done|]. rewrite word_high in Hbit by (done || split; lia). done. }
  rewrite Hb in Hbit by lia. apply andb_true_iff in Hbit as [[Hlo%Z.leb_le Hhi%Z.ltb_lt]%andb_true_iff HP].
  exists (result + n). unfold found_middle. rewrite (bind_ok _ _ _ _ _ E). split; [done|].
  split; [lia|]. split; [|done]. intros i Hi. destruct (Z.lt_ge_cases i result); [apply Hpre; lia|].
  specialize (Hlow (i - result) ltac:(lia)). rewrite Hb in Hlow by lia.
  replace (result + (i - result)) with i in Hlow by lia.
  by rewrite (proj2 (Z.leb_le lo i)), (proj2 (Z.ltb_lt i hi)) in Hlow by lia.
Qed.

Lemma shows_none P lo hi result : shows P lo hi result 0 -> hi <= result + 64 -> none_in P lo result -> none_in P lo hi.
Proof.
  intros [_ Hb] Hhi Hpre i Hi. destruct (Z.lt_ge_cases i result); [apply Hpre; lia|].
  specialize (Hb (i - result) ltac:(lia)). rewrite Z.testbit_0_l in Hb.
  replace (result + (i - result)) with i in Hb by lia.
  by rewrite (proj2 (Z.leb_le lo i)), (proj2 (Z.ltb_lt i hi)) in Hb by lia.
Qed.

Lemma none_first P lo hi : lo <= hi -> none_in P lo hi -> first_from P lo hi hi.
Proof. intros H Hn. split; [lia|]. split; [exact Hn|lia]. Qed.

Lemma first_ok P lo hi' hi result w s :
  shows P lo hi' result w -> none_in P lo result -> 0 < hi - result < 64 -> hi <= hi' -> lo <= hi ->
  exists r, found_first w (hi - result) result s = Ok (r, s) /\ first_from P lo hi r.
Proof.
  intros [Hw Hb] Hpre Hs Hh Hlo. unfold found_first. set (w' := Z.land _ _).
  assert (Hsh : shows P lo hi result w').
  { split; [by apply word_land|]. intros j Hj. subst w'. unfold BITS_PER_LONG.
    rewrite Z.land_spec, bit_low_mask, Hb by lia.
    destruct (lo <=? result + j), (P (result + j)), (Z.ltb_spec (result + j) hi), (Z.ltb_spec (result + j) hi'),
      (Z.ltb_spec j (hi - result)); cbn; (done || lia). }
  destruct (Z.eqb_spec w' 0) as [E|Hne].
  - rewrite E in Hsh. exists hi. split; [unfold ret; f_equal; f_equal; lia|]. apply none_first; [done|].
    apply (shows_none _ _ _ _ Hsh); [lia|done].
  - by apply middle_ok.
Qed.

Lemma land_m64 x : Z.land x (-64) = x - x mod 64.
Proof.
  change (-64) with (Z.lnot (Z.ones 6)). rewrite <-Z.ldiff_land, Z.ldiff_ones_r by lia.
  rewrite Z.shiftl_mul_pow2, Z.shiftr_div_pow2 by lia. change (2 ^ 6) with 64.
  pose proof (Z.div_mod x 64). lia.
Qed.

(** The searches for set and for clear bits, seen as one: [v] is the word as
    it is or inverted, [P] the bit wanted. *)
Section Search.
  Context (v : Z -> Z) (hit : Z -> bool) (mid : Z -> Z -> M store Z) (first : Z -> Z -> Z -> M store Z).
  Context (head : Z -> Z -> Z).
  Context (Hv : forall w, is_word w -> is_word (v w)).
  Context (Hhit : forall w, hit w = ctrue (v w)).
  Context (Hmid : forall w r, mid w r = found_middle (v w) r).
  Context (Hfirst : forall w n r s, is_word w -> 0 < n < 64 -> first w n r s = found_first (v w) n r s).
  Context (Hhead : forall w n, 0 < n < 64 -> is_word w -> is_word (head w n) /\ v (head w n) = Z.land (v w) (shl64 ones64 n)).
  Context (s : store) (addr n : Z) (l : list Z) (Hat : bitmap_at s addr n l).

Definition view (i : Z) : bool := Z.testbit (v (wat l (i / 64))) (i mod 64).

Definition after (x : Z * Z * Z * option Z) : M store Z :=
  let '(p, size, result, hit) := x in
  match hit with
  | Some tmp => mid tmp result
  | None => if size =? 0 then ret result else let! tmp := word addr p in first tmp size result
  end.

Lemma view_at k j : 0 <= j < 64 -> view (64 * k + j) = Z.testbit (v (wat l k)) j.
Proof.
  intros Hj. unfold view. rewrite (Z.mul_comm 64), Z.div_add_l, Z.div_small, Z.add_0_r by lia.
  by rewrite Z.add_comm, Z.mod_add, Z.mod_small by lia.
Qed.

Lemma shows_word lo k : lo <= 64 * k -> shows view lo (64 * k + 64) (64 * k) (v (wat l k)).
Proof.
  intros Hlo. split; [apply Hv, wat_word, Hat|]. intros j Hj. rewrite view_at by done.
  by rewrite (proj2 (Z.leb_le _ _)), (proj2 (Z.ltb_lt _ _)) by lia.
Qed.

Lemma shows_less P lo hi hi' result w :
  shows P lo hi result w -> result + 64 <= hi -> result + 64 <= hi' -> shows P lo hi' result w.
Proof.
  intros [Hw Hb] H1 H2. split; [done|]. intros j Hj. rewrite Hb by done.
  by rewrite !(proj2 (Z.ltb_lt _ _)) by lia.
Qed.

Lemma scan_after k lo hi :
  0 <= k -> 0 <= lo <= hi -> 64 * k <= hi <= n -> lo <= 64 * k -> none_in view lo (64 * k) ->
  exists r, (let! x := scan_words addr hit k (hi - 64 * k) (64 * k) in after x) s = Ok (r, s) /\
    first_from view lo hi r.
Proof.
  intros Hk Hlo Hhi Hlk Hpre. pose proof (at_len _ _ _ _ Hat) as Hlen.
  cut (runs (let! x := scan_words addr hit k (hi - 64 * k) (64 * k) in after x) s
         (fun r s' => s' = s /\ first_from view lo hi r)).
  { intros (r & s' & E & -> & H). by exists r. }
  apply runs_bind. unfold scan_words.
  apply (runs_loop _ (fun '(p, size, result) s' => s' = s /\ result = 64 * p /\ size = hi - result /\
      k <= p /\ result <= hi /\ none_in view lo result)
    (fun '(_, size, _) _ => Z.to_nat size)); [|split_and!; (done || lia)|lia].
  clear Hpre. intros [[p size] result] ? (-> & -> & -> & Hp & Hr & Hpre). rewrite land_m64.
  destruct (Z.eqb_spec (hi - 64 * p - (hi - 64 * p) mod 64) 0) as [E|E]; wp.
  - pose proof (Z.mod_pos_bound (hi - 64 * p) 64 ltac:(lia)). cbn [after].
    destruct (Z.eqb_spec (hi - 64 * p) 0); wp.
    + split; [done|]. replace (64 * p) with hi in * by lia. apply none_first; [lia|done].
    + eapply runs_ok; [apply (word_ok s addr l); [apply Hat|lia]|]. 
      destruct (first_ok view lo (64 * p + 64) hi (64 * p) (v (wat l p)) s) as (r & Er & Hr'); try lia.
      * apply shows_word; lia.
      * done.
      * apply (runs_ok _ _ r s); [|done]. rewrite Hfirst; [done|apply wat_word, Hat|lia].
  - assert (64 <= hi - 64 * p).
    { destruct (Z.lt_ge_cases (hi - 64 * p) 64); [|lia]. rewrite Z.mod_small in E by lia. lia. }
    eapply runs_ok; [apply (word_ok s addr l); [apply Hat|lia]|]. rewrite Hhit.
    pose proof (shows_word lo p ltac:(lia)) as Hsh.
    destruct (ctrue (v (wat l p))) eqn:Eh; wp.
    + cbn [after]. rewrite Hmid. apply ctrue_true in Eh.
      destruct (middle_ok view lo hi (64 * p) (v (wat l p)) s) as (r & Er & Hr'); try done.
      { by apply (shows_less _ _ (64 * p + 64)); try lia. }
      by apply (runs_ok _ _ r s).
    + apply ctrue_false in Eh. rewrite Eh in Hsh. unfold BITS_PER_LONG. split; [|lia].
      split_and!; try done; try lia. by apply (shows_none _ _ _ _ Hsh).
Qed.

Definition next (size offset : Z) : M store Z :=
  let p := offset / BITS_PER_LONG in
  let result := Z.land offset (-64) in
  if size <=? offset then ret size
  else
    let size := size - result in
    let offset := offset mod BITS_PER_LONG in
    if ctrue offset then
      let! tmp := word addr p in
      let p := p + 1 in
      let tmp := head tmp offset in
      if size <? BITS_PER_LONG then first tmp size result
      else if hit tmp then mid tmp result
      else let! x := scan_words addr hit p (size - BITS_PER_LONG) (result + BITS_PER_LONG) in after x
    else let! x := scan_words addr hit p size result in after x.

Lemma shows_head k o :
  0 < o < 64 -> shows view (64 * k + o) (64 * k + 64) (64 * k) (v (head (wat l k) o)).
Proof.
  intros Ho. destruct (Hhead (wat l k) o) as [Hw E]; [lia|apply wat_word, Hat|]. rewrite E.
  split; [apply word_land, Hv, wat_word, Hat|]. intros j Hj. rewrite Z.land_spec, bit_high_mask, view_at by lia.
  destruct (Z.leb_spec o j), (Z.leb_spec (64 * k + o) (64 * k + j)), (Z.ltb_spec (64 * k + j) (64 * k + 64)); try lia;
    by destruct (Z.testbit _ j).
Qed.

Lemma next_ok size offset :
  0 <= offset -> 0 <= size <= n ->
  exists r, next size offset s = Ok (r, s) /\
    (if size <=? offset then r = size else first_from view offset size r).
Proof.
  intros Ho Hs. pose proof (at_len _ _ _ _ Hat) as Hlen. unfold next. rewrite land_m64.
  destruct (Z.leb_spec size offset) as [Hge|Hlt]; [by exists size|].
  pose proof (Z.div_mod offset 64 ltac:(lia)) as Ed. pose proof (Z.mod_pos_bound offset 64 ltac:(lia)) as Hm.
  unfold BITS_PER_LONG in *. set (k := offset / 64) in *. set (o := offset mod 64) in *.
  replace (offset - o) with (64 * k) by lia. destruct (ctrue o) eqn:Eo.
  - apply ctrue_true in Eo. rewrite (bind_ok _ _ _ _ _ (word_ok s addr l k (at_map _ _ _ _ Hat) ltac:(lia))).
    pose proof (shows_head k o ltac:(lia)) as Hsh. rewrite <-Ed in Hsh.
    destruct (Hhead (wat l k) o) as [Hw _]; [lia|apply wat_word, Hat|].
    assert (Hpre : none_in view offset (64 * k)) by (intros i Hi; lia).
    destruct (Z.ltb_spec (size - 64 * k) 64).
    + rewrite Hfirst by (done || lia). apply (first_ok _ _ (64 * k + 64)); (done || lia).
    + rewrite Hhit. destruct (ctrue (v (head (wat l k) o))) eqn:Eh.
      * apply ctrue_true in Eh. rewrite Hmid. apply middle_ok; try done.
        by apply (shows_less _ _ (64 * k + 64)); try lia.
      * apply ctrue_false in Eh. rewrite Eh in Hsh.
        replace (size - 64 * k - 64) with (size - 64 * (k + 1)) by lia.
        replace (64 * k + 64) with (64 * (k + 1)) in * by lia.
        apply scan_after; try lia. apply (shows_none _ _ _ _ Hsh); [lia|done].
  - apply ctrue_false in Eo. apply scan_after; try lia. intros i Hi. lia.
Qed.
End Search.

Lemma not_head w n : 0 < n < 64 -> not64 (Z.lor w (shr64 ones64 (64 - n))) = Z.land (not64 w) (shl64 ones64 n).
Proof.
  intros Hn. apply word_eq; [auto with word..|]. intros i Hi.
  rewrite bit_not, Z.lor_spec, Z.land_spec, bit_not, bit_low_mask, bit_high_mask by lia.
  destruct (Z.ltb_spec i n), (Z.leb_spec n i), (Z.testbit w i); cbn; (done || lia).
Qed.

Lemma not_tail w n : 0 < n < 64 -> not64 (Z.lor w (shl64 ones64 n)) = Z.land (not64 w) (shr64 ones64 (64 - n)).
Proof.
  intros Hn. apply word_eq; [auto with word..|]. intros i Hi.
  rewrite bit_not, Z.lor_spec, Z.land_spec, bit_not, bit_low_mask, bit_high_mask by lia.
  destruct (Z.ltb_spec i n), (Z.leb_spec n i), (Z.testbit w i); cbn; (done || lia).
Qed.

Lemma not64_zero w : is_word w -> (w =? ones64) = (not64 w =? 0).
Proof.
  intros Hw. apply eq_iff_eq_true. rewrite !Z.eqb_eq. split; intros E.
  - by rewrite E.
  - apply word_eq; [done..|]. intros i Hi. rewrite bit_ones by done.
    pose proof (bit_not w i Hi) as Hb. rewrite E, Z.testbit_0_l in Hb. by destruct (Z.testbit w i).
Qed.

Lemma zero_first_view w n r s :
  is_word w -> 0 < n < 64 -> zero_first w n r s = found_first (not64 w) n r s.
Proof.
  intros Hw Hn. unfold zero_first, found_first, BITS_PER_LONG.
  rewrite not64_zero, not_tail by auto with word. destruct (_ =? 0); [done|].
  unfold zero_middle, found_middle, ffz. by rewrite not_tail.
Qed.

Section Find.
  Context (s : store) (addr n : Z) (l : list Z) (Hat : bitmap_at s addr n l).

Lemma view_not i : view not64 l i = negb (bit l i).
Proof. apply bit_not, Z.mod_pos_bound. lia. Qed.

Lemma first_from_ext P P' lo hi r : (forall i, P i = P' i) -> first_from P lo hi r -> first_from P' lo hi r.
Proof. intros E (H1 & H2 & H3). split; [done|]. split; intros; rewrite <-E; auto. Qed.

Lemma find_next_ok size offset :
  0 <= offset -> 0 <= size <= n ->
  exists r, find_next_bit addr size offset s = Ok (r, s) /\
    (if size <=? offset then r = size else first_from (bit l) offset size r).
Proof.
  apply (next_ok id ctrue found_middle found_first (fun w o => Z.land w (shl64 ones64 o))); try done.
  intros w o _ Hw. split; [by apply word_land|done].
Qed.

Lemma find_next_zero_ok size offset :
  0 <= offset -> 0 <= size <= n ->
  exists r, find_next_zero_bit addr size offset s = Ok (r, s) /\
    (if size <=? offset then r = size else first_from (fun i => negb (bit l i)) offset size r).
Proof.
  intros Ho Hs.
  destruct (next_ok not64 (fun w => ctrue (not64 w)) zero_middle zero_first
    (fun w o => Z.lor w (shr64 ones64 (64 - o)))) with (s := s) (addr := addr) (n := n) (l := l)
    (size := size) (offset := offset) as (r & E & Hr); try done.
  - intros. apply word_not.
  - intros. by apply zero_first_view.
  - intros w o Ho' Hw. split; [auto with word|by apply not_head].
  - exists r. split; [done|]. destruct (size <=? offset); [done|].
    by eapply first_from_ext; [apply view_not|].
Qed.

Lemma find_first_ok size :
  0 <= size <= n -> exists r, find_first_bit addr size s = Ok (r, s) /\ first_from (bit l) 0 size r.
Proof.
  intros Hs. pose proof (scan_after id ctrue found_middle found_first) as H.
  destruct (H ltac:(done) ltac:(done) ltac:(done) ltac:(done) s addr n l Hat 0 0 size) as (r & E & Hr); try lia.
  - intros i Hi. lia.
  - rewrite Z.sub_0_r in E. by exists r.
Qed.

Lemma find_first_zero_ok size :
  0 <= size <= n ->
  exists r, find_first_zero_bit addr size s = Ok (r, s) /\ first_from (fun i => negb (bit l i)) 0 size r.
Proof.
  intros Hs. pose proof (scan_after not64 (fun w => ctrue (not64 w)) zero_middle zero_first) as H.
  destruct (H ltac:(intros; apply word_not) ltac:(done) ltac:(done) zero_first_view s addr n l Hat 0 0 size)
    as (r & E & Hr); try lia.
  - intros i Hi. lia.
  - rewrite Z.sub_0_r in E. exists r. split; [done|]. by eapply first_from_ext; [apply view_not|].
Qed.

(** [r] is the last index below [hi] where [P] holds. *)
Definition last_at (P : Z -> bool) (hi r : Z) : Prop := 0 <= r < hi /\ P r = true /\ none_in P (r + 1) hi.

(** The same, or [size] when there is none. *)
Definition last_below (P : Z -> bool) (hi size r : Z) : Prop :=
  (r = size /\ none_in P 0 hi) \/ last_at P hi r.

Lemma fls_ok w k hi s' :
  is_word w -> w <> 0 -> 0 <= k -> 64 * k < hi <= 64 * k + 64 ->
  (forall j, 0 <= j < 64 -> Z.testbit w j = (64 * k + j <? hi) && bit l (64 * k + j)) ->
  runs (__fls w) s' (fun m s'' => s'' = s' /\ last_at (bit l) hi (k * 64 + m)).
Proof.
  intros Hw H0 Hk Hhi Hb. unfold __fls. pose proof Hw as [Hw0 _]. rewrite (proj2 (Z.ltb_lt _ _)) by lia. wp.
  split; [done|]. pose proof (Z.bit_log2 w ltac:(lia)) as Hl. pose proof (Z.log2_nonneg w).
  assert (Z.log2 w < 64).
  { destruct (Z.lt_ge_cases (Z.log2 w) 64); [done|]. by rewrite word_high in Hl. }
  rewrite Hb in Hl by lia. apply andb_true_iff in Hl as [Hlt%Z.ltb_lt Hl]. rewrite (Z.mul_comm k).
  split; [lia|]. split; [done|]. intros i Hi. pose proof (Z.bits_above_log2 w (i - 64 * k) Hw0 ltac:(lia)) as Hz.
  rewrite Hb in Hz by lia. replace (64 * k + (i - 64 * k)) with i in Hz by lia.
  by rewrite (proj2 (Z.ltb_lt i hi)) in Hz by lia.
Qed.

Lemma last_loop_ok size k hi :
  0 <= k -> 64 * k <= hi <= size -> size <= n -> none_in (bit l) (64 * k) hi ->
  runs (last_loop addr size k) s (fun r s' => s' = s /\ last_below (bit l) hi size r).
Proof.
  intros Hk Hhi Hs Hn. pose proof (at_len _ _ _ _ Hat) as Hlen. unfold last_loop.
  apply (runs_loop _ (fun k s' => s' = s /\ 0 <= k /\ 64 * k <= hi /\ none_in (bit l) (64 * k) hi)
    (fun k _ => Z.to_nat k)); [|split_and!; (done || lia)|lia].
  destruct Hhi as [_ Hhs]. clear k Hk Hn. intros k ? (-> & Hk & Hhi & Hn). destruct (Z.eqb_spec k 0) as [->|Hk0]; wp.
  - split; [done|]. left. done.
  - eapply runs_ok; [apply (word_ok s addr l); [apply Hat|lia]|].
    assert (Hw : is_word (wat l (k - 1))) by apply wat_word, Hat.
    assert (Hb : forall j, 0 <= j < 64 -> Z.testbit (wat l (k - 1)) j = bit l (64 * (k - 1) + j))
      by (intros; by rewrite bit_at).
    destruct (ctrue (wat l (k - 1))) eqn:Et; wp.
    + apply ctrue_true in Et. eapply runs_mono; [apply (fls_ok _ (k - 1) (64 * k)); try done; try lia|].
      * intros j Hj. by rewrite (proj2 (Z.ltb_lt _ _)), Hb by lia.
      * cbv beta. intros m ? [-> (H1 & H2 & H3)]. wp. split; [done|]. right. split; [unfold BITS_PER_LONG; lia|].
        split; [done|]. intros i Hi.
        destruct (Z.lt_ge_cases i (64 * k)); [apply H3; unfold BITS_PER_LONG in Hi; lia|apply Hn; lia].
    + apply ctrue_false in Et. split_and!; try done; try lia. intros i Hi.
      destruct (Z.lt_ge_cases i (64 * k)); [|apply Hn; lia]. replace i with (64 * (k - 1) + (i - 64 * (k - 1))) by lia.
      rewrite <-Hb, Et by lia. apply Z.testbit_0_l.
Qed.

Lemma find_last_ok size :
  0 <= size <= n -> runs (find_last_bit addr size) s (fun r s' => s' = s /\ last_below (bit l) size size r).
Proof.
  intros Hs. pose proof (at_len _ _ _ _ Hat) as Hlen. unfold find_last_bit, BITS_PER_LONG.
  change (64 - 1) with (Z.ones 6). rewrite Z.land_ones by lia. change (2 ^ 6) with 64.
  pose proof (Z.div_mod size 64 ltac:(lia)) as Ed. pose proof (Z.mod_pos_bound size 64 ltac:(lia)) as Hm.
  set (k := size / 64) in *. set (o := size mod 64) in *. destruct (ctrue o) eqn:Eo.
  - apply ctrue_true in Eo. wp. eapply runs_ok; [apply (word_ok s addr l); [apply Hat|lia]|].
    set (w := Z.land _ _). assert (Hw : is_word w) by apply word_land, wat_word, Hat.
    assert (Hb : forall j, 0 <= j < 64 -> Z.testbit w j = (64 * k + j <? size) && bit l (64 * k + j)).
    { intros j Hj. subst w. rewrite Z.land_spec, bit_low_mask, bit_at, andb_comm by lia. f_equal.
      destruct (Z.ltb_spec j o), (Z.ltb_spec (64 * k + j) size); (done || lia). }
    destruct (ctrue w) eqn:Et; wp.
    + apply ctrue_true in Et. eapply runs_mono; [apply (fls_ok w k size); try done; lia|].
      cbv beta. intros m ? [-> H]. wp. split; [done|by right].
    + apply ctrue_false in Et. apply last_loop_ok; try lia. intros i Hi.
      specialize (Hb (i - 64 * k) ltac:(lia)). rewrite Et, Z.testbit_0_l in Hb.
      replace (64 * k + (i - 64 * k)) with i in Hb by lia. by rewrite (proj2 (Z.ltb_lt i size)) in Hb by lia.
  - apply ctrue_false in Eo. apply last_loop_ok; try lia. intros i Hi. lia.
Qed.

(** The searches of an array of bits find the right bit.  For a size
    within the array and any offset they stay inside it, change nothing, and
    return the first bit from the offset on that is set (clear), the first or
    the last of all, or the size when there is none, whatever the bits past
    the size are. *)
Theorem bit_searches_correct size offset :
  0 <= offset -> 0 <= size <= n ->
  runs (find_next_bit addr size offset) s (fun r s' => s' = s /\
    if size <=? offset then r = size else first_from (bit l) offset size r) /\
  runs (find_next_zero_bit addr size offset) s (fun r s' => s' = s /\
    if size <=? offset then r = size else first_from (fun i => negb (bit l i)) offset size r) /\
  runs (find_first_bit addr size) s (fun r s' => s' = s /\ first_from (bit l) 0 size r) /\
  runs (find_first_zero_bit addr size) s (fun r s' => s' = s /\ first_from (fun i => negb (bit l i)) 0 size r) /\
  runs (find_last_bit addr size) s (fun r s' => s' = s /\ last_below (bit l) size size r).
Proof.
  intros Ho Hs. split; [|split; [|split; [|split]]].
  - destruct (find_next_ok size offset Ho Hs) as (r & E & H). by exists r, s.
  - destruct (find_next_zero_ok size offset Ho Hs) as (r & E & H). by exists r, s.
  - destruct (find_first_ok size Hs) as (r & E & H). by exists r, s.
  - destruct (find_first_zero_ok size Hs) as (r & E & H). by exists r, s.
  - by apply find_last_ok.
Qed.
End Find.

Lemma bit_searches_correct_witness :
  runs (find_next_bit 7 100 3) {[7 := [5; 2 ^ 10]]} (fun r _ => r = 74 /\ first_from (bit [5; 2 ^ 10]) 3 100 r) /\
  runs (find_next_zero_bit 7 100 2) {[7 := [5; 2 ^ 10]]} (fun r _ => r = 3) /\
  runs (find_last_bit 7 100) {[7 := [5; 2 ^ 10]]} (fun r _ => r = 74).
Proof.
  assert (Hat : bitmap_at {[7 := [5; 2 ^ 10]]} 7 128 [5; 2 ^ 10]) by (split; [done|repeat constructor; done|done]).
  destruct (bit_searches_correct _ 7 128 _ Hat 100 3) as ((r & s' & E & _ & Hr) & _ & _ & _ & (q & s'' & E' & _ & Hq));
    [done|done|].
  split; [|split].
  - exists r, s'. split; [exact E|]. vm_compute in E. injection E as <- _. split; [reflexivity|exact Hr].
  - eexists _, _. split; [vm_compute; reflexivity|reflexivity].
  - exists q, s''. split; [exact E'|]. vm_compute in E'. by injection E' as <- _.
Defined.
