(* ===== verification/Bitmap.v ===== *)
(** Bitmaps as sets: [lib/bitmap.c] and [include/linux/bitmap.h], with the
    population count of [lib/hweight.c].

    Arguments that are arrays are addresses in the store of {Bits}, so that a
    destination can also be a source.  Numbers of bits are not negative.  The
    inline functions of the header have a short form for sizes of at most one
    word the compiler knows; [cst] says whether it knows the size. *)
From S2P Require Import Prelude Wp Bits.

(** ** Loops over words *)

(** [for (k = k0; k < k0 + n; k++)] with a variable. *)
Fixpoint for_acc {A} (n : nat) (k : Z) (acc : A) (body : Z -> A -> M store A) : M store A :=
  match n with
  | O => ret acc
  | S n => let! acc := body k acc in for_acc n (k + 1) acc body
  end.

(** The same with a test that leaves the loop. *)
Fixpoint for_any (n : nat) (k : Z) (test : Z -> M store bool) : M store bool :=
  match n with
  | O => ret false
  | S n => let! t := test k in if (t : bool) then ret true else for_any n (k + 1) test
  end.

Definition BITS_TO_LONGS (nr : Z) : Z := (nr + 63) / 64.

Definition BITMAP_LAST_WORD_MASK (nbits : Z) : Z :=
  if ctrue (nbits mod BITS_PER_LONG) then u64 (shl64 1 (nbits mod BITS_PER_LONG) - 1) else ones64.

(** ** Population count *)

Definition hweight64 (w : Z) : Z :=
  let w := u64 (w - Z.land (Z.shiftr w 1) 0x5555555555555555) in
  let w := u64 (Z.land w 0x3333333333333333 + Z.land (Z.shiftr w 2) 0x3333333333333333) in
  let w := Z.land (u64 (w + Z.shiftr w 4)) 0x0f0f0f0f0f0f0f0f in
  Z.shiftr (u64 (w * 0x0101010101010101)) 56.

Definition hweight_long (w : Z) : Z := hweight64 w.

(** ** Questions *)

(** The shape the predicates share: a test on each whole word, then [w] on the
    bits that are left. *)
Definition any_word (bits : Z) (test : Z -> M store bool) (w : Z -> M store Z) : M store bool :=
  let lim := bits / BITS_PER_LONG in
  let! r := for_any (Z.to_nat lim) 0 test in
  if (r : bool) then ret true
  else if ctrue (bits mod BITS_PER_LONG) then
    let! x := w lim in ret (ctrue (Z.land x (BITMAP_LAST_WORD_MASK bits)))
  else ret false.

Definition nonzero (w : Z -> M store Z) (k : Z) : M store bool := let! x := w k in ret (ctrue x).

Definition __bitmap_empty (bitmap bits : Z) : M store Z :=
  let! r := any_word bits (nonzero (word bitmap)) (word bitmap) in
  ret (cbool (negb r)).

Definition __bitmap_full (bitmap bits : Z) : M store Z :=
  let w k := let! x := word bitmap k in ret (not64 x) in
  let! r := any_word bits (nonzero w) w in
  ret (cbool (negb r)).

Definition __bitmap_equal (bitmap1 bitmap2 bits : Z) : M store Z :=
  let! r := any_word bits
    (fun k => let! x := word bitmap1 k in let! y := word bitmap2 k in ret (negb (x =? y)))
    (fun k => let! x := word bitmap1 k in let! y := word bitmap2 k in ret (Z.lxor x y)) in
  ret (cbool (negb r)).

Definition __bitmap_intersects (bitmap1 bitmap2 bits : Z) : M store Z :=
  let w k := let! x := word bitmap1 k in let! y := word bitmap2 k in ret (Z.land x y) in
  let! r := any_word bits (nonzero w) w in
  ret (cbool r).

Definition __bitmap_subset (bitmap1 bitmap2 bits : Z) : M store Z :=
  let w k := let! x := word bitmap1 k in let! y := word bitmap2 k in ret (Z.land x (not64 y)) in
  let! r := any_word bits (nonzero w) w in
  ret (cbool (negb r)).

Definition __bitmap_weight (bitmap bits : Z) : M store Z :=
  let lim := bits / BITS_PER_LONG in
  let! w := for_acc (Z.to_nat lim) 0 0 (fun k w => let! x := word bitmap k in ret (w + hweight_long x)) in
  if ctrue (bits mod BITS_PER_LONG) then
    let! x := word bitmap lim in ret (w + hweight_long (Z.land x (BITMAP_LAST_WORD_MASK bits)))
  else ret w.

(** ** Operations *)

(** [memset] of whole words. *)
Definition fill_words (dst k n v : Z) : M store unit :=
  for_acc (Z.to_nat n) k tt (fun k _ => put_word dst k v).

Definition __bitmap_complement (dst src bits : Z) : M store unit :=
  let lim := bits / BITS_PER_LONG in
  for_acc (Z.to_nat lim) 0 tt (fun k _ => let! x := word src k in put_word dst k (not64 x)) ;;;
  if ctrue (bits mod BITS_PER_LONG) then
    let! x := word src lim in put_word dst lim (Z.land (not64 x) (BITMAP_LAST_WORD_MASK bits))
  else ret tt.

Definition __bitmap_and (dst bitmap1 bitmap2 bits : Z) : M store Z :=
  let! result := for_acc (Z.to_nat (BITS_TO_LONGS bits)) 0 0 (fun k result =>
    let! x := word bitmap1 k in
    let! y := word bitmap2 k in
    put_word dst k (Z.land x y) ;;;
    ret (Z.lor result (Z.land x y))) in
  ret (cbool (ctrue result)).

Definition __bitmap_or (dst bitmap1 bitmap2 bits : Z) : M store unit :=
  for_acc (Z.to_nat (BITS_TO_LONGS bits)) 0 tt (fun k _ =>
    let! x := word bitmap1 k in
    let! y := word bitmap2 k in
    put_word dst k (Z.lor x y)).

Definition __bitmap_xor (dst bitmap1 bitmap2 bits : Z) : M store unit :=
  for_acc (Z.to_nat (BITS_TO_LONGS bits)) 0 tt (fun k _ =>
    let! x := word bitmap1 k in
    let! y := word bitmap2 k in
    put_word dst k (Z.lxor x y)).

Definition __bitmap_andnot (dst bitmap1 bitmap2 bits : Z) : M store Z :=
  let! result := for_acc (Z.to_nat (BITS_TO_LONGS bits)) 0 0 (fun k result =>
    let! x := word bitmap1 k in
    let! y := word bitmap2 k in
    put_word dst k (Z.land x (not64 y)) ;;;
    ret (Z.lor result (Z.land x (not64 y)))) in
  ret (cbool (ctrue result)).

Definition __bitmap_shift_right (dst src shift bits : Z) : M store unit :=
  let lim := BITS_TO_LONGS bits in
  let left := bits mod BITS_PER_LONG in
  let off := shift / BITS_PER_LONG in
  let rem := shift mod BITS_PER_LONG in
  let mask := u64 (shl64 1 left - 1) in
  for_acc (Z.to_nat (lim - off)) 0 tt (fun k _ =>
    let! upper :=
      (if (rem =? 0) || (lim <=? off + k + 1) then ret 0
       else let! u := word src (off + k + 1) in
            ret (if (off + k + 1 =? lim - 1) && ctrue left then Z.land u mask else u)) in
    let! lower := word src (off + k) in
    let lower := if ctrue left && (off + k =? lim - 1) then Z.land lower mask else lower in
    put_word dst k (Z.lor (shl64 upper (BITS_PER_LONG - rem)) (shr64 lower rem)) ;;;
    if ctrue left && (k =? lim - 1) then let! x := word dst k in put_word dst k (Z.land x mask) else ret tt) ;;;
  if ctrue off then fill_words dst (lim - off) off 0 else ret tt.

(** [for (k = lim - off - 1; k >= 0; --k)] *)
Fixpoint for_down (n : nat) (body : Z -> M store unit) : M store unit :=
  match n with
  | O => ret tt
  | S n => body (Z.of_nat n) ;;; for_down n body
  end.

Definition __bitmap_shift_left (dst src shift bits : Z) : M store unit :=
  let lim := BITS_TO_LONGS bits in
  let left := bits mod BITS_PER_LONG in
  let off := shift / BITS_PER_LONG in
  let rem := shift mod BITS_PER_LONG in
  for_down (Z.to_nat (lim - off)) (fun k =>
    let! lower := (if negb (rem =? 0) && (0 <? k) then word src (k - 1) else ret 0) in
    let! upper := word src k in
    let upper := if ctrue left && (k =? lim - 1) then Z.land upper (u64 (shl64 1 left - 1)) else upper in
    put_word dst (k + off) (Z.lor (shr64 lower (BITS_PER_LONG - rem)) (shl64 upper rem)) ;;;
    if ctrue left && (k + off =? lim - 1) then
      let! x := word dst (k + off) in put_word dst (k + off) (Z.land x (u64 (shl64 1 left - 1)))
    else ret tt) ;;;
  if ctrue off then fill_words dst 0 off 0 else ret tt.

(** ** The inline functions *)

Definition small_const_nbits (cst : bool) (nbits : Z) : bool := cst && (nbits <=? BITS_PER_LONG).

Definition bitmap_zero (cst : bool) (dst nbits : Z) : M store unit :=
  if small_const_nbits cst nbits then put_word dst 0 0
  else fill_words dst 0 (BITS_TO_LONGS nbits) 0.

Definition bitmap_fill (cst : bool) (dst nbits : Z) : M store unit :=
  let nlongs := BITS_TO_LONGS nbits in
  (if negb (small_const_nbits cst nbits) then fill_words dst 0 (nlongs - 1) ones64 else ret tt) ;;;
  put_word dst (nlongs - 1) (BITMAP_LAST_WORD_MASK nbits).

Definition bitmap_copy (cst : bool) (dst src nbits : Z) : M store unit :=
  if small_const_nbits cst nbits then let! x := word src 0 in put_word dst 0 x
  else for_acc (Z.to_nat (BITS_TO_LONGS nbits)) 0 tt (fun k _ => let! x := word src k in put_word dst k x).

Definition bitmap_and (cst : bool) (dst src1 src2 nbits : Z) : M store Z :=
  if small_const_nbits cst nbits then
    let! x := word src1 0 in let! y := word src2 0 in
    put_word dst 0 (Z.land x y) ;;; ret (cbool (ctrue (Z.land x y)))
  else __bitmap_and dst src1 src2 nbits.

Definition bitmap_or (cst : bool) (dst src1 src2 nbits : Z) : M store unit :=
  if small_const_nbits cst nbits then
    let! x := word src1 0 in let! y := word src2 0 in put_word dst 0 (Z.lor x y)
  else __bitmap_or dst src1 src2 nbits.

Definition bitmap_xor (cst : bool) (dst src1 src2 nbits : Z) : M store unit :=
  if small_const_nbits cst nbits then
    let! x := word src1 0 in let! y := word src2 0 in put_word dst 0 (Z.lxor x y)
  else __bitmap_xor dst src1 src2 nbits.

Definition bitmap_andnot (cst : bool) (dst src1 src2 nbits : Z) : M store Z :=
  if small_const_nbits cst nbits then
    let! x := word src1 0 in let! y := word src2 0 in
    put_word dst 0 (Z.land x (not64 y)) ;;; ret (cbool (ctrue (Z.land x (not64 y))))
  else __bitmap_andnot dst src1 src2 nbits.

Definition bitmap_complement (cst : bool) (dst src nbits : Z) : M store unit :=
  if small_const_nbits cst nbits then
    let! x := word src 0 in put_word dst 0 (Z.land (not64 x) (BITMAP_LAST_WORD_MASK nbits))
  else __bitmap_complement dst src nbits.

Definition bitmap_equal (cst : bool) (src1 src2 nbits : Z) : M store Z :=
  if small_const_nbits cst nbits then
    let! x := word src1 0 in let! y := word src2 0 in
    ret (cbool (negb (ctrue (Z.land (Z.lxor x y) (BITMAP_LAST_WORD_MASK nbits)))))
  else __bitmap_equal src1 src2 nbits.

Definition bitmap_intersects (cst : bool) (src1 src2 nbits : Z) : M store Z :=
  if small_const_nbits cst nbits then
    let! x := word src1 0 in let! y := word src2 0 in
    ret (cbool (ctrue (Z.land (Z.land x y) (BITMAP_LAST_WORD_MASK nbits))))
  else __bitmap_intersects src1 src2 nbits.

Definition bitmap_subset (cst : bool) (src1 src2 nbits : Z) : M store Z :=
  if small_const_nbits cst nbits then
    let! x := word src1 0 in let! y := word src2 0 in
    ret (cbool (negb (ctrue (Z.land (Z.land x (not64 y)) (BITMAP_LAST_WORD_MASK nbits)))))
  else __bitmap_subset src1 src2 nbits.

Definition bitmap_empty (cst : bool) (src nbits : Z) : M store Z :=
  if small_const_nbits cst nbits then
    let! x := word src 0 in ret (cbool (negb (ctrue (Z.land x (BITMAP_LAST_WORD_MASK nbits)))))
  else __bitmap_empty src nbits.

Definition bitmap_full (cst : bool) (src nbits : Z) : M store Z :=
  if small_const_nbits cst nbits then
    let! x := word src 0 in ret (cbool (negb (ctrue (Z.land (not64 x) (BITMAP_LAST_WORD_MASK nbits)))))
  else __bitmap_full src nbits.

Definition bitmap_weight (cst : bool) (src nbits : Z) : M store Z :=
  if small_const_nbits cst nbits then
    let! x := word src 0 in ret (hweight_long (Z.land x (BITMAP_LAST_WORD_MASK nbits)))
  else __bitmap_weight src nbits.

Definition bitmap_shift_right (cst : bool) (dst src n nbits : Z) : M store unit :=
  if small_const_nbits cst nbits then let! x := word src 0 in put_word dst 0 (shr64 x n)
  else __bitmap_shift_right dst src n nbits.

Definition bitmap_shift_left (cst : bool) (dst src n nbits : Z) : M store unit :=
  if small_const_nbits cst nbits then
    let! x := word src 0 in put_word dst 0 (Z.land (shl64 x n) (BITMAP_LAST_WORD_MASK nbits))
  else __bitmap_shift_left dst src n nbits.

(** ** Rules for the loops *)

Lemma for_acc_runs {A} (I : Z -> A -> store -> Prop) n k0 acc s body :
  (forall k acc s, k0 <= k < k0 + Z.of_nat n -> I k acc s -> runs (body k acc) s (I (k + 1))) ->
  I k0 acc s -> runs (for_acc n k0 acc body) s (I (k0 + Z.of_nat n)).
Proof.
  revert k0 acc s. induction n as [|n IH]; intros k0 acc s Hb H0; cbn [for_acc]; wp.
  - by rewrite Z.add_0_r.
  - eapply runs_mono; [apply Hb; [lia|done]|]. intros acc' s' H1.
    replace (k0 + Z.of_nat (S n)) with (k0 + 1 + Z.of_nat n) by lia. apply IH; [|done].
    intros k a s'' Hk. apply Hb. lia.
Qed.

Lemma for_any_runs (P : Z -> bool) n k0 s test :
  (forall k, k0 <= k < k0 + Z.of_nat n -> test k s = Ok (P k, s)) ->
  runs (for_any n k0 test) s (fun r s' => s' = s /\
    (r = true <-> exists k, k0 <= k < k0 + Z.of_nat n /\ P k = true)).
Proof.
  revert k0. induction n as [|n IH]; intros k0 Ht; cbn [for_any]; wp.
  - split; [done|]. split; [done|]. intros (k & Hk & _). lia.
  - apply (runs_ok _ _ _ _ _ (Ht k0 ltac:(lia))). destruct (P k0) eqn:E; wp.
    + split; [done|]. split; [|done]. intros _. exists k0. split; [lia|done].
    + eapply runs_mono; [apply (IH (k0 + 1))|].
      * intros k Hk. apply Ht. lia.
      * cbv beta. intros r s' [-> Hr]. split; [done|]. rewrite Hr. split; intros (k & Hk & Hp); exists k.
        -- split; [lia|done].
        -- split; [|done]. assert (k <> k0) by congruence. lia.
Qed.

(** ** Bits of masks and sizes *)

Lemma bit_last_mask n i : 0 <= i < 64 -> n mod 64 <> 0 -> Z.testbit (u64 (shl64 1 (n mod 64) - 1)) i = (i <? n mod 64).
Proof.
  intros Hi Hn. pose proof (Z.mod_pos_bound n 64 ltac:(lia)) as Hm. rewrite bit_u64 by done.
  unfold shl64. rewrite Z.mod_mod, Z.shiftl_1_l by lia.
  pose proof (Z.pow_lt_mono_r 2 (n mod 64) 64 ltac:(lia) ltac:(lia) ltac:(lia)).
  rewrite uwrap_small by lia. replace (2 ^ (n mod 64) - 1) with (Z.ones (n mod 64)) by (rewrite Z.ones_equiv; lia).
  rewrite Z.testbit_ones by lia. by rewrite (proj2 (Z.leb_le 0 i)) by lia.
Qed.

(** Bit [i] of the last word of [n] bits, word [k], is one of the [n]. *)
Lemma bit_LAST n k i :
  0 <= i < 64 -> 64 * k < n <= 64 * k + 64 -> Z.testbit (BITMAP_LAST_WORD_MASK n) i = (64 * k + i <? n).
Proof.
  intros Hi Hn. unfold BITMAP_LAST_WORD_MASK, BITS_PER_LONG.
  pose proof (Z.div_mod n 64 ltac:(lia)) as Ed. pose proof (Z.mod_pos_bound n 64 ltac:(lia)) as Hm.
  destruct (ctrue (n mod 64)) eqn:E.
  - apply ctrue_true in E. rewrite bit_last_mask by done. assert (n / 64 = k) by (symmetry; apply Z.div_unique with (n - 64 * k); lia).
    destruct (Z.ltb_spec i (n mod 64)), (Z.ltb_spec (64 * k + i) n); (done || lia).
  - apply ctrue_false in E. rewrite bit_ones, (proj2 (Z.ltb_lt _ _)) by lia. done.
Qed.

Lemma word_LAST n : is_word (BITMAP_LAST_WORD_MASK n).
Proof. unfold BITMAP_LAST_WORD_MASK. destruct (ctrue _); auto with word. Qed.
#[export] Hint Resolve word_LAST : word.

Lemma longs n : 0 < n -> let k := BITS_TO_LONGS n - 1 in 0 <= k /\ 64 * k < n <= 64 * k + 64.
Proof.
  intros Hn. cbv zeta. unfold BITS_TO_LONGS. pose proof (Z.div_mod (n + 63) 64 ltac:(lia)).
  pose proof (Z.mod_pos_bound (n + 63) 64 ltac:(lia)). lia.
Qed.

Lemma small_longs cst n : 0 < n -> small_const_nbits cst n = true -> n <= 64 /\ BITS_TO_LONGS n = 1.
Proof.
  intros Hn [_ H%Z.leb_le]%andb_true_iff. unfold BITS_PER_LONG in H. pose proof (longs n Hn). cbv zeta in *. lia.
Qed.

(** ** Population count *)

(** The indices below [n] where [P] holds, in order, and their number. *)
Definition ones (P : Z -> bool) (n : Z) : list Z := List.filter P (seqZ 0 n).
Definition count (P : Z -> bool) (n : Z) : Z := Z.of_nat (length (ones P n)).
Definition any (P : Z -> bool) (n : Z) : bool := existsb P (seqZ 0 n).

Lemma any_spec P n : any P n = true <-> exists i, 0 <= i < n /\ P i = true.
Proof.
  unfold any. rewrite existsb_exists. split; intros (i & Hi & HP); exists i; (split; [|done]).
  - apply list_elem_of_In, elem_of_seqZ in Hi. lia.
  - apply list_elem_of_In, elem_of_seqZ. lia.
Qed.

Lemma any_iff P n b : (b = true <-> exists i, 0 <= i < n /\ P i = true) -> b = any P n.
Proof. intros H. apply eq_iff_eq_true. by rewrite H, any_spec. Qed.

Lemma ones_ext P P' n : (forall i, 0 <= i < n -> P i = P' i) -> ones P n = ones P' n.
Proof.
  intros E. apply filter_ext_in. intros i Hi%list_elem_of_In%elem_of_seqZ. apply E. lia.
Qed.

Lemma filter_fmap_bool {A B} (f : A -> B) (P : B -> bool) l :
  List.filter P (f <$> l) = f <$> List.filter (fun x => P (f x)) l.
Proof. induction l as [|x l IH]; [done|]. cbn. destruct (P (f x)); cbn; by rewrite IH. Qed.

Lemma ones_app P m n :
  0 <= m -> 0 <= n -> ones P (m + n) = ones P m ++ (Z.add m <$> ones (fun i => P (m + i)) n).
Proof.
  intros Hm Hn. unfold ones. rewrite seqZ_app, List.filter_app by lia. f_equal.
  rewrite <-filter_fmap_bool, fmap_add_seqZ. f_equal. f_equal. lia.
Qed.

Lemma count_ext P P' n : (forall i, 0 <= i < n -> P i = P' i) -> count P n = count P' n.
Proof. intros E. unfold count. by rewrite (ones_ext P P'). Qed.

Lemma count_app P m n : 0 <= m -> 0 <= n -> count P (m + n) = count P m + count (fun i => P (m + i)) n.
Proof.
  intros Hm Hn. unfold count. rewrite ones_app, length_app, length_fmap by done. lia.
Qed.

Module Weight.

(** A number from its bytes, the lowest first. *)
Fixpoint val (l : list Z) : Z := match l with [] => 0 | b :: l => b + 256 * val l end.
Fixpoint bytes (n : nat) (w : Z) : list Z :=
  match n with O => [] | S n => w mod 256 :: bytes n (w / 256) end.
Definition is_byte (b : Z) : Prop := 0 <= b < 256.

(** The first three steps of [hweight64], with the mask as an argument. *)
Definition pairs (m w : Z) : Z := w - Z.land (Z.shiftr w 1) m.
Definition nibbles (m w : Z) : Z := Z.land w m + Z.land (Z.shiftr w 2) m.
Definition sums (m w : Z) : Z := Z.land (w + Z.shiftr w 4) m.
Definition mask (m : Z) (n : nat) : Z := val (replicate n m).

Lemma val_range l : Forall is_byte l -> 0 <= val l < 256 ^ Z.of_nat (length l).
Proof.
  induction 1 as [|b l Hb _ IH]; [done|]. cbn [val length].
  rewrite Nat2Z.inj_succ, Z.pow_succ_r by lia. unfold is_byte in Hb. lia.
Qed.

Lemma bytes_ok n w : 0 <= w < 256 ^ Z.of_nat n -> val (bytes n w) = w /\ Forall is_byte (bytes n w) /\ length (bytes n w) = n.
Proof.
  revert w. induction n as [|n IH]; intros w Hw; cbn [bytes val length].
  - change (256 ^ Z.of_nat 0) with 1 in Hw. split; [lia|done].
  - rewrite Nat2Z.inj_succ, Z.pow_succ_r in Hw by lia.
    destruct (IH (w / 256)) as (E & Hb & Hl); [split; [apply Z.div_pos; lia|apply Z.div_lt_upper_bound; lia]|].
    rewrite E, Hl. pose proof (Z.div_mod w 256). pose proof (Z.mod_pos_bound w 256).
    split; [lia|]. split; [|done]. constructor; [unfold is_byte; lia|done].
Qed.

Lemma testbit_cat a h i : is_byte a -> 0 <= i -> Z.testbit (a + 256 * h) i = if i <? 8 then Z.testbit a i else Z.testbit h (i - 8).
Proof.
  intros Ha Hi. unfold is_byte in Ha. change 256 with (2 ^ 8) in *. destruct (Z.ltb_spec i 8).
  - rewrite <-(Z.mod_pow2_bits_low _ 8 i) by lia. f_equal. rewrite Z.mul_comm, Z.mod_add, Z.mod_small by lia. done.
  - replace (Z.testbit (a + 2 ^ 8 * h) i) with (Z.testbit ((a + 2 ^ 8 * h) / 2 ^ 8) (i - 8)).
    + rewrite Z.mul_comm, Z.div_add, Z.div_small by lia. done.
    + rewrite Z.div_pow2_bits by lia. f_equal. lia.
Qed.

Lemma byte_land a b : is_byte a -> is_byte (Z.land a b).
Proof.
  intros Ha. unfold is_byte in *. replace (Z.land a b) with (Z.land a b mod 2 ^ 8); [apply Z.mod_pos_bound; lia|].
  apply Z.bits_inj'. intros i Hi. destruct (Z.lt_ge_cases i 8); [by rewrite Z.mod_pow2_bits_low|].
  rewrite Z.mod_pow2_bits_high, Z.land_spec by lia. replace a with (a mod 2 ^ 8) by (apply Z.mod_small; lia).
  by rewrite Z.mod_pow2_bits_high by lia.
Qed.

Lemma cat_land a h b m : is_byte a -> is_byte b -> Z.land (a + 256 * h) (b + 256 * m) = Z.land a b + 256 * Z.land h m.
Proof.
  intros Ha Hb. pose proof (byte_land a b Ha).
  apply Z.bits_inj'. intros i Hi. rewrite Z.land_spec, !testbit_cat, !Z.land_spec by done. by destruct (i <? 8).
Qed.

Lemma cat_shift a h b m k :
  is_byte a -> 0 <= b < 2 ^ (8 - k) -> 0 <= k <= 8 ->
  Z.land (Z.shiftr (a + 256 * h) k) (b + 256 * m) = Z.land (Z.shiftr a k) b + 256 * Z.land (Z.shiftr h k) m.
Proof.
  intros Ha Hb Hk. pose proof (Z.pow_le_mono_r 2 (8 - k) 8 ltac:(lia) ltac:(lia)) as Hp. change (2 ^ 8) with 256 in Hp.
  assert (Hbb : is_byte b) by (unfold is_byte; lia).
  assert (Hbk : forall i, 8 - k <= i -> Z.testbit b i = false).
  { intros i Hi. destruct (decide (b = 0)) as [->|]; [apply Z.testbit_0_l|]. apply Z.bits_above_log2; [lia|].
    assert (Z.log2 b < 8 - k); [|lia]. apply Z.log2_lt_pow2; lia. }
  assert (Hl : is_byte (Z.land (Z.shiftr a k) b)).
  { rewrite Z.land_comm. by apply byte_land. }
  apply Z.bits_inj'. intros i Hi. rewrite Z.land_spec, Z.shiftr_spec by lia.
  rewrite !testbit_cat, !Z.land_spec by (done || lia). destruct (Z.ltb_spec i 8).
  - rewrite Z.shiftr_spec by lia. destruct (Z.ltb_spec (i + k) 8); [done|]. by rewrite (Hbk i), !andb_false_r by lia.
  - rewrite (proj2 (Z.ltb_ge (i + k) 8)), Z.shiftr_spec by lia. f_equal. f_equal. lia.
Qed.

Lemma pairs_val l : Forall is_byte l -> pairs (mask 0x55 (length l)) (val l) = val (map (pairs 0x55) l).
Proof.
  induction 1 as [|b l Hb _ IH]; [done|]. cbn [map val length]. rewrite <-IH. unfold pairs, mask. cbn [replicate val].
  rewrite cat_shift by (done || lia). lia.
Qed.

Lemma nibbles_val l : Forall is_byte l -> nibbles (mask 0x33 (length l)) (val l) = val (map (nibbles 0x33) l).
Proof.
  induction 1 as [|b l Hb _ IH]; [done|]. cbn [map val length]. rewrite <-IH. unfold nibbles, mask. cbn [replicate val].
  rewrite cat_land, cat_shift by (done || lia). lia.
Qed.

(** Both halves of the byte are at most 4. *)
Definition small_halves (b : Z) : Prop := 0 <= b mod 16 <= 4 /\ 0 <= b / 16 <= 4.

Lemma sums_val l : Forall small_halves l -> sums (mask 0x0f (length l)) (val l) = val (map (sums 0x0f) l).
Proof.
  induction 1 as [|b l Hb Hl IH]; [done|]. cbn [map val length]. rewrite <-IH. unfold sums, mask. cbn [replicate val].
  set (v := val l) in *. assert (Hv : 0 <= v mod 16 <= 4).
  { subst v. destruct Hl as [|c l Hc]; [done|]. cbn [val].
    replace (c + 256 * val l) with (c + 16 * val l * 16) by lia. rewrite Z.mod_add by lia. apply Hc. }
  pose proof (Z.div_mod b 16 ltac:(lia)) as Eb. pose proof (Z.div_mod v 16 ltac:(lia)) as Ev.
  destruct Hb as [Hb1 Hb2]. rewrite !Z.shiftr_div_pow2 by lia. change (2 ^ 4) with 16.
  replace (b + 256 * v) with (b + 16 * v * 16) at 2 by lia. rewrite Z.div_add by lia.
  replace (b + 256 * v + (b / 16 + 16 * v)) with (b + b / 16 + 16 * (v mod 16) + 256 * (v + v / 16)) by lia.
  rewrite cat_land by (unfold is_byte; lia). f_equal.
  change 15 with (Z.ones 4). rewrite !Z.land_ones by lia. change (2 ^ 4) with 16.
  rewrite (Z.mul_comm 16 (v mod 16)). by rewrite Z.mod_add by lia.
Qed.

Definition byte_weight (b : Z) : Z := sums 0x0f (nibbles 0x33 (pairs 0x55 b)).

Definition byte_ok (b : Z) : bool :=
  let p := pairs 0x55 b in let q := nibbles 0x33 p in
  (0 <=? p) && (p <? 256) && (0 <=? q) && (q <? 256) && (q mod 16 <=? 4) && (q / 16 <=? 4) && (byte_weight b =? count (Z.testbit b) 8) &&
  (0 <=? byte_weight b) && (byte_weight b <=? 8).

Lemma byte_ok_true b : is_byte b -> byte_ok b = true.
Proof.
  intros Hb. assert (H : forallb byte_ok (seqZ 0 256) = true) by (vm_compute; reflexivity).
  rewrite forallb_forall in H. apply H, list_elem_of_In, elem_of_seqZ. exact Hb.
Qed.

Lemma byte_facts b :
  is_byte b -> is_byte (pairs 0x55 b) /\ is_byte (nibbles 0x33 (pairs 0x55 b)) /\
    small_halves (nibbles 0x33 (pairs 0x55 b)) /\ byte_weight b = count (Z.testbit b) 8 /\ 0 <= byte_weight b <= 8.
Proof.
  intros Hb%byte_ok_true. unfold byte_ok in Hb. cbv zeta in Hb. rewrite !andb_true_iff, !Z.leb_le, !Z.ltb_lt, Z.eqb_eq in Hb.
  unfold is_byte, small_halves. destruct Hb as [[[[[[[[H1 H2] H3] H4] H5] H6] H7] H8] H9].
  pose proof (Z.mod_pos_bound (nibbles 0x33 (pairs 0x55 b)) 16 ltac:(lia)).
  pose proof (Z.div_pos (nibbles 0x33 (pairs 0x55 b)) 16 H3 ltac:(lia)). repeat split; (done || lia).
Qed.

Fixpoint sum (l : list Z) : Z := match l with [] => 0 | b :: l => b + sum l end.

Lemma sum_weight l :
  Forall is_byte l -> sum (map byte_weight l) = count (Z.testbit (val l)) (8 * Z.of_nat (length l)).
Proof.
  induction 1 as [|b l Hb _ IH]; [done|]. cbn [map sum length val].
  replace (8 * Z.of_nat (S (length l))) with (8 + 8 * Z.of_nat (length l)) by lia. rewrite count_app by lia. f_equal.
  - destruct (byte_facts b Hb) as (_ & _ & _ & -> & _). apply count_ext. intros i Hi.
    rewrite testbit_cat by (done || lia). by rewrite (proj2 (Z.ltb_lt i 8)) by lia.
  - rewrite IH. apply count_ext. intros i Hi. rewrite testbit_cat by (done || lia).
    rewrite (proj2 (Z.ltb_ge _ 8)) by lia. f_equal. lia.
Qed.

(** The multiplication adds the bytes in the highest one. *)
Lemma high_byte l :
  length l = 8%nat -> Forall (fun b => 0 <= b <= 8) l -> Z.shiftr (u64 (val l * 0x0101010101010101)) 56 = sum l.
Proof.
  intros Hl H. do 8 (destruct l as [|? l]; [done|]). destruct l; [|done]. clear Hl. rewrite !Forall_cons in H.
  destruct H as (H0 & H1 & H2 & H3 & H4 & H5 & H6 & H7 & _).
  cbn [val sum]. rewrite Z.shiftr_div_pow2 by lia. unfold uwrap.
  set (c := (z + (z0 + (z1 + (z2 + (z3 + (z4 + (z5 + (z6 + 0))))))))).
  set (low := z + 256 * (z + z0) + 65536 * (z + z0 + z1) + 16777216 * (z + z0 + z1 + z2) +
    4294967296 * (z + z0 + z1 + z2 + z3) + 1099511627776 * (z + z0 + z1 + z2 + z3 + z4) +
    281474976710656 * (z + z0 + z1 + z2 + z3 + z4 + z5)).
  set (up := (z0 + z1 + z2 + z3 + z4 + z5 + z6) + 256 * (z1 + z2 + z3 + z4 + z5 + z6) + 65536 * (z2 + z3 + z4 + z5 + z6) +
    16777216 * (z3 + z4 + z5 + z6) + 4294967296 * (z4 + z5 + z6) + 1099511627776 * (z5 + z6) + 281474976710656 * z6).
  replace (_ * 72340172838076673) with (low + c * 2 ^ 56 + up * 2 ^ 64)
    by (subst low c up; change (2 ^ 56) with 72057594037927936; change (2 ^ 64) with 18446744073709551616; ring).
  rewrite Z.mod_add by lia. change (2 ^ 64) with 18446744073709551616. change (2 ^ 56) with 72057594037927936.
  rewrite Z.mod_small by (subst low c; lia). rewrite Z.div_add by lia. rewrite Z.div_small by (subst low; lia). done.
Qed.

Lemma halves_bound l :
  length l = 8%nat -> Forall (fun b => is_byte b /\ small_halves b) l -> 0 <= val l <= 68 * 0x0101010101010101.
Proof.
  intros Hl H. assert (Hb : Forall (fun b => 0 <= b <= 68) l).
  { eapply Forall_impl; [exact H|]. intros b (Hb & H1 & H2). pose proof (Z.div_mod b 16). lia. }
  do 8 (destruct l as [|? l]; [done|]). destruct l; [|done]. rewrite !Forall_cons in Hb. cbn [val]. lia.
Qed.

Lemma hweight64_ok w : is_word w -> hweight64 w = count (Z.testbit w) 64.
Proof.
  intros Hw. destruct (bytes_ok 8 w) as (Ev & Hb & Hl); [exact Hw|].
  set (l := bytes 8 w) in *. clearbody l. subst w. unfold hweight64.
  set (l1 := map (pairs 0x55) l). set (l2 := map (nibbles 0x33) l1). set (l3 := map (sums 0x0f) l2).
  assert (Hb1 : Forall is_byte l1) by (apply Forall_map; eapply Forall_impl; [exact Hb|]; intros b H; apply (byte_facts b H)).
  assert (Hb2 : Forall (fun b => is_byte b /\ small_halves b) l2).
  { subst l2 l1. rewrite map_map. apply Forall_map. eapply Forall_impl; [exact Hb|]. intros b H. split; apply (byte_facts b H). }
  assert (E3 : l3 = map byte_weight l) by (subst l3 l2 l1; by rewrite !map_map).
  assert (Hw8 : forall l', length l' = 8%nat -> Forall is_byte l' -> u64 (val l') = val l').
  { intros l' Hl' H. apply uwrap_small. pose proof (val_range l' H). by rewrite Hl' in *. }
  pose proof (pairs_val l Hb) as P1. rewrite Hl in P1. unfold pairs at 1 in P1. change (mask 85 8) with 0x5555555555555555 in P1.
  rewrite P1. fold l1. rewrite Hw8 by (subst l1; rewrite ?length_map; done).
  pose proof (nibbles_val l1 Hb1) as P2. subst l1. rewrite length_map, Hl in P2. unfold nibbles at 1 in P2.
  change (mask 51 8) with 0x3333333333333333 in P2. rewrite P2. fold l2.
  assert (Hl2 : length l2 = 8%nat) by (subst l2; by rewrite !length_map).
  pose proof (proj1 (Forall_and _ _) Hb2) as [Hbb2 Hs2].
  rewrite Hw8 by done. pose proof (sums_val l2 Hs2) as P3.
  rewrite Hl2 in P3. unfold sums at 1 in P3. change (mask 15 8) with 0x0f0f0f0f0f0f0f0f in P3.
  assert (Hno : u64 (val l2 + Z.shiftr (val l2) 4) = val l2 + Z.shiftr (val l2) 4).
  { apply uwrap_small. pose proof (halves_bound l2 Hl2 Hb2). rewrite Z.shiftr_div_pow2 by lia.
    pose proof (Z.div_pos (val l2) (2 ^ 4)). pose proof (Z.div_le_upper_bound (val l2) (2 ^ 4) (val l2)). lia. }
  rewrite Hno, P3. fold l3. rewrite E3, high_byte.
  - rewrite sum_weight, Hl by done. done.
  - by rewrite length_map.
  - apply Forall_map. eapply Forall_impl; [exact Hb|]. intros b H. apply (byte_facts b H).
Qed.
End Weight.

(** ** Questions are about the bits *)

(** The bits of a sequence of words. *)
Definition bit_of (G : Z -> Z) (i : Z) : bool := Z.testbit (G (i / 64)) (i mod 64).

Lemma bit_of_at G k j : 0 <= j < 64 -> bit_of G (64 * k + j) = Z.testbit (G k) j.
Proof.
  intros Hj. unfold bit_of. rewrite (Z.mul_comm 64), Z.div_add_l, Z.div_small, Z.add_0_r by lia.
  by rewrite Z.add_comm, Z.mod_add, Z.mod_small by lia.
Qed.

Lemma index_split i : i = 64 * (i / 64) + i mod 64 /\ 0 <= i mod 64 < 64.
Proof. split; [apply Z.div_mod; lia|apply Z.mod_pos_bound; lia]. Qed.

Lemma word_nonzero w : is_word w -> (ctrue w = true <-> exists j, 0 <= j < 64 /\ Z.testbit w j = true).
Proof.
  intros Hw. rewrite ctrue_true. split.
  - intros H0. pose proof Hw as [Hw0 _]. exists (Z.log2 w). pose proof (Z.bit_log2 w ltac:(lia)) as Hb.
    split; [|done]. split; [apply Z.log2_nonneg|]. destruct (Z.lt_ge_cases (Z.log2 w) 64); [done|].
    by rewrite word_high in Hb.
  - intros (j & _ & Hj) ->. by rewrite Z.testbit_0_l in Hj.
Qed.

(** The masked last word. *)
Lemma last_word_any G bits k :
  is_word (G k) -> 64 * k < bits <= 64 * k + 64 ->
  (ctrue (Z.land (G k) (BITMAP_LAST_WORD_MASK bits)) = true <-> exists i, 64 * k <= i < bits /\ bit_of G i = true).
Proof.
  intros HG Hk. rewrite word_nonzero by auto with word. split.
  - intros (j & Hj & Hb). rewrite Z.land_spec, (bit_LAST _ k), andb_true_iff, Z.ltb_lt in Hb by lia.
    exists (64 * k + j). rewrite bit_of_at by done. split; [lia|apply Hb].
  - intros (i & Hi & Hb). exists (i - 64 * k). split; [lia|]. rewrite Z.land_spec, (bit_LAST _ k) by lia.
    rewrite (proj2 (Z.ltb_lt _ _)), andb_true_r by lia. rewrite <-bit_of_at by lia. rewrite <-Hb. f_equal. lia.
Qed.

Lemma any_word_runs G bits test w s :
  0 <= bits -> (forall k, is_word (G k)) ->
  (forall k, 0 <= k -> 64 * k < bits -> test k s = Ok (ctrue (G k), s) /\ w k s = Ok (G k, s)) ->
  runs (any_word bits test w) s (fun r s' => s' = s /\ r = any (bit_of G) bits).
Proof.
  intros Hbits HG Hk. unfold any_word, BITS_PER_LONG. destruct (index_split bits) as [Ed Hm].
  set (lim := bits / 64) in *. assert (Hlim : 0 <= lim) by (subst lim; apply Z.div_pos; lia). wp.
  eapply runs_mono; [apply (for_any_runs (fun k => ctrue (G k)))|].
  { intros k Hk'. apply Hk; lia. }
  cbv beta. intros r s' [-> Hr]. rewrite Z2Nat.id in Hr by done.
  assert (Hlow : r = true <-> exists i, 0 <= i < 64 * lim /\ bit_of G i = true).
  { rewrite Hr. split.
    - intros (k & Hk' & (j & Hj & Hb)%(word_nonzero _ (HG k))). exists (64 * k + j). rewrite bit_of_at by done. split; [lia|done].
    - intros (i & Hi & Hb). destruct (index_split i) as [Ei Hj]. exists (i / 64). split; [lia|].
      apply word_nonzero; [done|]. by exists (i mod 64). }
  destruct r.
  - wp. split; [done|]. apply any_iff. split; [|done]. intros _. destruct (proj1 Hlow eq_refl) as (i & Hi & Hb).
    exists i. split; [lia|done].
  - assert (Hno : forall i, 0 <= i < 64 * lim -> bit_of G i = true -> False).
    { intros i Hi Hb. assert (false = true); [|done]. apply Hlow. by exists i. }
    destruct (ctrue (bits mod 64)) eqn:Et.
    + apply ctrue_true in Et. wp. eapply runs_ok; [apply Hk; lia|]. wp. split; [done|].
      apply any_iff. rewrite last_word_any by (done || lia). split; intros (i & Hi & Hb); exists i; (split; [|done]).
      * lia.
      * destruct (Z.lt_ge_cases i (64 * lim)); [|lia]. exfalso. apply (Hno i); [lia|done].
    + wp. split; [done|]. apply any_iff. split; [done|]. intros (i & Hi & Hb). exfalso. apply (Hno i); [|done].
      apply ctrue_false in Et. lia.
Qed.

Section Questions.
  Context (s : store) (bits : Z) (b1 b2 : Z) (l1 l2 : list Z).
  Context (Hbits : 0 < bits) (H1 : bitmap_at s b1 bits l1) (H2 : bitmap_at s b2 bits l2).

Lemma read1 k : 0 <= k -> 64 * k < bits -> word b1 k s = Ok (wat l1 k, s).
Proof. intros Hk Hb. pose proof (at_len _ _ _ _ H1). apply word_ok; [apply H1|lia]. Qed.
Lemma read2 k : 0 <= k -> 64 * k < bits -> word b2 k s = Ok (wat l2 k, s).
Proof. intros Hk Hb. pose proof (at_len _ _ _ _ H2). apply word_ok; [apply H2|lia]. Qed.

Lemma word1 k : is_word (wat l1 k).
Proof. apply wat_word, H1. Qed.
Lemma word2 k : is_word (wat l2 k).
Proof. apply wat_word, H2. Qed.

(** The short form of a question, and both forms together. *)
Lemma short_any G :
  bits <= 64 -> (forall k, is_word (G k)) -> ctrue (Z.land (G 0) (BITMAP_LAST_WORD_MASK bits)) = any (bit_of G) bits.
Proof. intros Hs HG. apply any_iff. rewrite last_word_any by (done || lia). done. Qed.

Lemma any_ext P P' n : (forall i, 0 <= i < n -> P i = P' i) -> any P n = any P' n.
Proof.
  intros E. apply any_iff. rewrite any_spec. split; intros (i & Hi & H); exists i; (split; [done|]).
  - by rewrite <-E.
  - by rewrite E.
Qed.

(** Both forms of a question: [G] is the word asked about, [P] its bits. *)
Lemma question_runs cst (f : bool -> Z) (G : Z -> Z) (P : Z -> bool) (short : M store Z) test w :
  (forall k, is_word (G k)) -> (forall i, 0 <= i -> bit_of G i = P i) ->
  (forall k, 0 <= k -> 64 * k < bits -> test k s = Ok (ctrue (G k), s) /\ w k s = Ok (G k, s)) ->
  short s = Ok (f (ctrue (Z.land (G 0) (BITMAP_LAST_WORD_MASK bits))), s) ->
  runs (if small_const_nbits cst bits then short else let! r := any_word bits test w in ret (f r)) s
    (fun r s' => s' = s /\ r = f (any P bits)).
Proof.
  intros HG HP Hk Hs. rewrite <-(any_ext (bit_of G) P) by (intros; apply HP; lia).
  destruct (small_const_nbits cst bits) eqn:Ec.
  - apply small_longs in Ec as [Hle _]; [|done]. apply (runs_ok _ _ _ _ _ Hs). split; [done|]. by rewrite short_any.
  - wp. eapply runs_mono; [apply (any_word_runs G); (done || lia)|]. cbv beta. intros r s' [-> ->]. by wp.
Qed.

(** Reads of the words, then pure computation. *)
Ltac reads :=
  unfold nonzero; cbv zeta;
  repeat first [rewrite bind_assoc | erewrite bind_ok by (apply read1; lia) | erewrite bind_ok by (apply read2; lia)];
  first [reflexivity | rewrite read1 by lia; reflexivity].

Lemma bit_of_not G i : bit_of (fun k => not64 (G k)) i = negb (bit_of G i).
Proof. apply bit_not, index_split. Qed.

Lemma empty_ok cst :
  runs (bitmap_empty cst b1 bits) s (fun r s' => s' = s /\ r = cbool (negb (any (bit l1) bits))).
Proof.
  apply (question_runs cst (fun r => cbool (negb r)) (wat l1)); try done.
  - apply word1.
  - intros k Hk Hb. split; reads.
  - reads.
Qed.

Lemma full_ok cst :
  runs (bitmap_full cst b1 bits) s (fun r s' => s' = s /\ r = cbool (negb (any (fun i => negb (bit l1 i)) bits))).
Proof.
  apply (question_runs cst (fun r => cbool (negb r)) (fun k => not64 (wat l1 k))); try done.
  - intros. apply word_not.
  - intros i Hi. apply bit_of_not.
  - intros k Hk Hb. split; reads.
  - reads.
Qed.

Lemma equal_ok cst :
  runs (bitmap_equal cst b1 b2 bits) s
    (fun r s' => s' = s /\ r = cbool (negb (any (fun i => xorb (bit l1 i) (bit l2 i)) bits))).
Proof.
  apply (question_runs cst (fun r => cbool (negb r)) (fun k => Z.lxor (wat l1 k) (wat l2 k))); try done.
  - intros. apply word_lxor; [apply word1|apply word2].
  - intros i Hi. apply Z.lxor_spec.
  - intros k Hk Hb. split; [|reads]. erewrite bind_ok by (apply read1; lia). erewrite bind_ok by (apply read2; lia).
    unfold ret. f_equal. f_equal. unfold ctrue. f_equal. apply eq_iff_eq_true. by rewrite !Z.eqb_eq, Z.lxor_eq_0_iff.
  - reads.
Qed.

Lemma intersects_ok cst :
  runs (bitmap_intersects cst b1 b2 bits) s
    (fun r s' => s' = s /\ r = cbool (any (fun i => bit l1 i && bit l2 i) bits)).
Proof.
  apply (question_runs cst cbool (fun k => Z.land (wat l1 k) (wat l2 k))); try done.
  - intros. apply word_land, word1.
  - intros i Hi. apply Z.land_spec.
  - intros k Hk Hb. split; reads.
  - reads.
Qed.

Lemma subset_ok cst :
  runs (bitmap_subset cst b1 b2 bits) s
    (fun r s' => s' = s /\ r = cbool (negb (any (fun i => bit l1 i && negb (bit l2 i)) bits))).
Proof.
  apply (question_runs cst (fun r => cbool (negb r)) (fun k => Z.land (wat l1 k) (not64 (wat l2 k)))); try done.
  - intros. apply word_land, word1.
  - intros i Hi. unfold bit_of. rewrite Z.land_spec. f_equal. apply bit_of_not.
  - intros k Hk Hb. split; reads.
  - reads.
Qed.
Lemma count_none P n : (forall i, 0 <= i < n -> P i = false) -> count P n = 0.
Proof.
  intros H. unfold count, ones. rewrite (filter_ext_in _ (fun _ => false)).
  - by rewrite filter_false.
  - intros i Hi%list_elem_of_In%elem_of_seqZ. apply H. lia.
Qed.

Lemma count_below P m n : 0 <= m <= n -> count (fun i => P i && (i <? m)) n = count P m.
Proof.
  intros Hm. replace n with (m + (n - m)) by lia. rewrite count_app by lia.
  rewrite (count_none (fun i => P (m + i) && (m + i <? m))), Z.add_0_r.
  - apply count_ext. intros i Hi. rewrite (proj2 (Z.ltb_lt i m)) by lia. apply andb_true_r.
  - intros i Hi. rewrite (proj2 (Z.ltb_ge _ m)) by lia. apply andb_false_r.
Qed.

Lemma count_word k : 0 <= k -> count (bit l1) (64 * k + 64) = count (bit l1) (64 * k) + hweight_long (wat l1 k).
Proof.
  intros Hk. rewrite count_app by lia. f_equal. unfold hweight_long. rewrite Weight.hweight64_ok by apply word1.
  apply count_ext. intros i Hi. by apply bit_at.
Qed.

Lemma count_last k :
  0 <= k -> 64 * k < bits <= 64 * k + 64 ->
  count (bit l1) bits = count (bit l1) (64 * k) + hweight_long (Z.land (wat l1 k) (BITMAP_LAST_WORD_MASK bits)).
Proof.
  intros Hk Hb. replace bits with (64 * k + (bits - 64 * k)) at 1 by lia. rewrite count_app by lia. f_equal.
  unfold hweight_long. rewrite Weight.hweight64_ok by (apply word_land, word1).
  rewrite <-(count_below _ (bits - 64 * k) 64) by lia. apply count_ext. intros i Hi.
  rewrite Z.land_spec, (bit_LAST _ k), bit_at by lia. f_equal.
  destruct (Z.ltb_spec i (bits - 64 * k)), (Z.ltb_spec (64 * k + i) bits); (done || lia).
Qed.

Lemma weight_ok cst : runs (bitmap_weight cst b1 bits) s (fun r s' => s' = s /\ r = count (bit l1) bits).
Proof.
  unfold bitmap_weight. destruct (small_const_nbits cst bits) eqn:Ec; wp.
  - apply small_longs in Ec as [Hle _]; [|done]. eapply runs_ok; [apply read1; lia|]. wp. split; [done|].
    by rewrite (count_last 0) by lia.
  - clear Ec. unfold __bitmap_weight, BITS_PER_LONG. destruct (index_split bits) as [Ed Hm]. set (lim := bits / 64) in *.
    assert (Hl : 0 <= lim) by (apply Z.div_pos; lia). wp.
    eapply runs_mono.
    { apply (for_acc_runs (fun k w s' => s' = s /\ w = count (bit l1) (64 * k))); [|done].
      intros k w ? Hk [-> ->]. wp. eapply runs_ok; [apply read1; lia|]. wp. split; [done|].
      rewrite <-count_word by lia. f_equal. lia. }
    cbv beta. intros w ? [-> ->]. rewrite Z2Nat.id, Z.add_0_l by done. destruct (ctrue (bits mod 64)) eqn:Et; wp.
    + apply ctrue_true in Et. eapply runs_ok; [apply read1; lia|]. wp. split; [done|]. rewrite (count_last lim); lia.
    + apply ctrue_false in Et. split; [done|]. f_equal. lia.
Qed.

(** The questions about bitmaps are answered by their bits below the size
    alone, in the short form and in the long one: emptiness, fullness,
    equality, intersection, inclusion, and the number of bits set, which the
    word trick of [hweight64] computes correctly.  Nothing is changed and
    no word outside the arrays is read. *)
Theorem bitmap_questions_correct cst :
  runs (bitmap_empty cst b1 bits) s (fun r s' => s' = s /\ r = cbool (negb (any (bit l1) bits))) /\
  runs (bitmap_full cst b1 bits) s (fun r s' => s' = s /\ r = cbool (negb (any (fun i => negb (bit l1 i)) bits))) /\
  runs (bitmap_equal cst b1 b2 bits) s
    (fun r s' => s' = s /\ r = cbool (negb (any (fun i => xorb (bit l1 i) (bit l2 i)) bits))) /\
  runs (bitmap_intersects cst b1 b2 bits) s
    (fun r s' => s' = s /\ r = cbool (any (fun i => bit l1 i && bit l2 i) bits)) /\
  runs (bitmap_subset cst b1 b2 bits) s
    (fun r s' => s' = s /\ r = cbool (negb (any (fun i => bit l1 i && negb (bit l2 i)) bits))) /\
  runs (bitmap_weight cst b1 bits) s (fun r s' => s' = s /\ r = count (bit l1) bits).
Proof.
  split; [apply empty_ok|]. split; [apply full_ok|]. split; [apply equal_ok|]. split; [apply intersects_ok|].
  split; [apply subset_ok|apply weight_ok].
Qed.
End Questions.

(** The arrays of the examples: 70 bits each, with bits set past the size. *)
Definition demo_maps : store := {[1 := [13; 2 ^ 40]; 2 := [29; 2 ^ 41]; 3 := [0; 0]]}.

Lemma demo_at b l : demo_maps !! b = Some l -> (forallb (fun w => (0 <=? w) && (w <? 2 ^ 64)) l && (length l =? 2)%nat) = true -> bitmap_at demo_maps b 70 l.
Proof.
  intros Hb [Hf Hl%Nat.eqb_eq]%andb_true_iff. split; [done| |rewrite Hl; done]. rewrite forallb_forall in Hf.
  apply Forall_forall. intros w Hw%list_elem_of_In%Hf. apply andb_true_iff in Hw as [H1%Z.leb_le H2%Z.ltb_lt]. by split.
Qed.

Lemma bitmap_questions_correct_witness :
  runs (bitmap_subset false 1 2 70) demo_maps (fun r _ => r = 1) /\
  runs (bitmap_weight false 1 70) demo_maps (fun r _ => r = 3).
Proof.
  destruct (bitmap_questions_correct demo_maps 70 1 2 [13; 2 ^ 40] [29; 2 ^ 41] ltac:(lia)
    (demo_at 1 _ ltac:(reflexivity) ltac:(reflexivity)) (demo_at 2 _ ltac:(reflexivity) ltac:(reflexivity)) false)
    as (_ & _ & _ & _ & (r & s' & E & _ & Hr) & (r' & s'' & E' & _ & Hr')).
  split; [exists r, s'|exists r', s'']; (split; [done|]); subst; vm_compute; reflexivity.
Defined.
