(* ===== verification/BitmapOps.v ===== *)
(** The operations of {Bitmap} that write: set algebra, copies and shifts.

    Every operation is shown to give its destination the bits it promises,
    also when the destination is one of the sources, and to leave everything
    else alone. *)
From S2P Require Import Prelude Wp Bits Bitmap.

(** The store is [s] except that the array [dst] holds the words [f]. *)
Definition holds (s : store) (dst len : Z) (f : Z -> Z) (s' : store) : Prop :=
  exists l', s' = <[dst := l']> s /\ Z.of_nat (length l') = len /\ Forall is_word l' /\
    forall k, 0 <= k < len -> wat l' k = f k.

(** The result of an operation: the first [n] bits of [dst] are those of [g],
    the rest of the array and the other arrays are unchanged. *)
Definition gives (s : store) (dst : Z) (l : list Z) (n : Z) (g : Z -> bool) (s' : store) : Prop :=
  exists l', s' = <[dst := l']> s /\ length l' = length l /\ Forall is_word l' /\
    (forall i, 0 <= i < n -> bit l' i = g i) /\ (forall i, n <= i -> bit l' i = bit l i).

Section Write.
  Context (s : store) (dst : Z) (l : list Z) (Hdst : s !! dst = Some l) (Hw : Forall is_word l).

Lemma holds_start : holds s dst (Z.of_nat (length l)) (wat l) s.
Proof. exists l. split; [by rewrite insert_id|done]. Qed.

Lemma holds_ext f f' len s' :
  (forall k, 0 <= k < len -> f k = f' k) -> holds s dst len f s' -> holds s dst len f' s'.
Proof.
  intros E (l' & -> & Hl & Hw' & Hf). exists l'. split_and!; try done. intros k Hk. by rewrite Hf, E.
Qed.

Lemma holds_put len f s' k v (Q : unit -> store -> Prop) :
  holds s dst len f s' -> 0 <= k < len -> is_word v ->
  (forall s'', holds s dst len (fun i => if i =? k then v else f i) s'' -> Q tt s'') -> runs (put_word dst k v) s' Q.
Proof.
  intros (l' & -> & Hl & Hw' & Hf) Hk Hv HQ. exists tt, (<[dst := <[Z.to_nat k := v]> l']> s).
  unfold put_word. rewrite lookup_insert_eq, zset_lt, insert_insert_eq by lia. split; [done|]. apply HQ.
  exists (<[Z.to_nat k := v]> l'). split_and!; [done|by rewrite length_insert|by apply Forall_insert|].
  intros i Hi. unfold wat. destruct (Z.eqb_spec i k) as [->|Hne].
  - by rewrite list_lookup_insert_eq by lia.
  - rewrite list_lookup_insert_ne by lia. by apply Hf.
Qed.

(** Reading from any array; from [dst] itself at a word not yet written. *)
Lemma holds_read len f s' a la k :
  holds s dst len f s' -> s !! a = Some la -> 0 <= k < Z.of_nat (length la) -> len = Z.of_nat (length l) ->
  (a = dst -> f k = wat la k) -> word a k s' = Ok (wat la k, s').
Proof.
  intros (l' & -> & Hl & Hw' & Hf) Ha Hk Hlen Hal. destruct (decide (a = dst)) as [->|Hne].
  - assert (la = l) as -> by congruence. rewrite <-Hal, <-Hf by (done || lia). apply word_ok; [by rewrite lookup_insert_eq|lia].
  - apply word_ok; [by rewrite lookup_insert_ne|done].
Qed.

Lemma holds_read_dst len f s' k :
  holds s dst len f s' -> 0 <= k < len -> word dst k s' = Ok (f k, s').
Proof.
  intros (l' & -> & Hl & Hw' & Hf) Hk. rewrite <-Hf by done. apply word_ok; [by rewrite lookup_insert_eq|lia].
Qed.

Lemma wat_out (l' : list Z) k : Z.of_nat (length l') <= k -> wat l' k = 0.
Proof. intros H. unfold wat. by rewrite lookup_ge_None_2 by lia. Qed.

Lemma holds_gives f n g s' nr :
  holds s dst (Z.of_nat (length l)) f s' -> n = 64 * nr -> 0 <= nr <= Z.of_nat (length l) ->
  (forall i, 0 <= i < n -> bit_of f i = g i) -> (forall k, nr <= k < Z.of_nat (length l) -> f k = wat l k) ->
  gives s dst l n g s'.
Proof.
  intros (l' & -> & Hl & Hw' & Hf) -> Hnr Hg Hk. exists l'. split; [done|]. split; [lia|]. split; [done|].
  assert (Hdiv : forall i, i / 64 < nr <-> i < 64 * nr).
  { intros i. destruct (index_split i). lia. }
  split; intros i Hi.
  - rewrite <-Hg by done. unfold bit, bit_of. rewrite Hf; [done|]. specialize (Hdiv i). split; [apply Z.div_pos; lia|lia].
  - unfold bit. f_equal. specialize (Hdiv i). destruct (Z.lt_ge_cases (i / 64) (Z.of_nat (length l))).
    + rewrite Hf, Hk by lia. done.
    + by rewrite !wat_out by lia.
Qed.
End Write.

(** The words below [k] are those of [V], the others those of [W]. *)
Definition mix (V W : Z -> Z) (k : Z) (i : Z) : Z := if i <? k then V i else W i.

Section Ops.
  Context (s : store) (dst b1 b2 bits : Z) (l l1 l2 : list Z) (Hbits : 0 < bits).
  Context (Hd : bitmap_at s dst bits l) (H1 : bitmap_at s b1 bits l1) (H2 : bitmap_at s b2 bits l2).

Local Abbreviation nr := (BITS_TO_LONGS bits).
Local Abbreviation len := (Z.of_nat (length l)).

Lemma nr_range : 1 <= nr /\ bits <= 64 * nr < bits + 64.
Proof. pose proof (longs bits Hbits) as H. cbv zeta in H. lia. Qed.

Lemma nr_len (la : list Z) : bits <= 64 * Z.of_nat (length la) -> nr <= Z.of_nat (length la).
Proof. pose proof nr_range. lia. Qed.

Lemma mix_start V : holds s dst len (mix V (wat l) 0) s.
Proof.
  eapply holds_ext; [|apply holds_start; apply Hd]. intros k Hk. unfold mix. by rewrite (proj2 (Z.ltb_ge k 0)) by lia.
Qed.

Lemma mix_put V k s' Q :
  holds s dst len (mix V (wat l) k) s' -> 0 <= k < nr -> is_word (V k) ->
  (forall s'', holds s dst len (mix V (wat l) (k + 1)) s'' -> Q tt s'') -> runs (put_word dst k (V k)) s' Q.
Proof.
  intros Hh Hk HV HQ. pose proof (nr_len l (at_len _ _ _ _ Hd)). eapply holds_put; [exact Hh|lia|done|].
  intros s'' Hh'. apply HQ. eapply holds_ext; [|exact Hh']. intros i Hi. cbv beta. unfold mix.
  destruct (Z.eqb_spec i k) as [->|]; [by rewrite (proj2 (Z.ltb_lt _ _)) by lia|].
  destruct (Z.ltb_spec i k), (Z.ltb_spec i (k + 1)); (done || lia).
Qed.

(** A source read at or after the word the loop is at. *)
Lemma mix_read V a la k k' s' :
  holds s dst len (mix V (wat l) k) s' -> bitmap_at s a bits la -> 0 <= k' < nr -> k <= k' ->
  word a k' s' = Ok (wat la k', s').
Proof.
  intros Hh Ha Hk Hkk. pose proof (nr_len la (at_len _ _ _ _ Ha)).
  apply (holds_read s dst l (at_map _ _ _ _ Hd) len _ s' a la k' Hh); [apply Ha|lia|done|].
  intros ->. unfold mix. rewrite (proj2 (Z.ltb_ge _ _)) by lia. f_equal.
  pose proof (at_map _ _ _ _ Hd). pose proof (at_map _ _ _ _ Ha). congruence.
Qed.

(** A loop that writes one word after the other. *)
Lemma map_runs {A} (J : Z -> A -> Prop) V n acc body :
  0 <= n <= nr -> J 0 acc ->
  (forall k acc s', 0 <= k < n -> J k acc -> holds s dst len (mix V (wat l) k) s' ->
    runs (body k acc) s' (fun acc' s'' => J (k + 1) acc' /\ holds s dst len (mix V (wat l) (k + 1)) s'')) ->
  runs (for_acc (Z.to_nat n) 0 acc body) s (fun acc' s' => J n acc' /\ holds s dst len (mix V (wat l) n) s').
Proof.
  intros Hn H0 Hb. eapply runs_mono.
  - apply (for_acc_runs (fun k acc s' => J k acc /\ holds s dst len (mix V (wat l) k) s')).
    + intros k a s' Hk [HJ Hh]. apply Hb; [lia|done|done].
    + split; [done|apply mix_start].
  - cbv beta. by rewrite Z2Nat.id, Z.add_0_l by lia.
Qed.

Lemma mix_gives V (g : Z -> bool) s' :
  (forall i, 0 <= i < 64 * nr -> bit_of V i = g i) -> holds s dst len (mix V (wat l) nr) s' ->
  gives s dst l (64 * nr) g s'.
Proof.
  intros Hg Hh. pose proof nr_range. pose proof (nr_len l (at_len _ _ _ _ Hd)).
  eapply (holds_gives _ _ _ _ _ _ _ nr); [exact Hh|done|lia| |].
  - intros i Hi. rewrite <-Hg by done. unfold bit_of, mix. destruct (index_split i).
    by rewrite (proj2 (Z.ltb_lt _ _)) by lia.
  - intros k Hk. unfold mix. by rewrite (proj2 (Z.ltb_ge _ _)) by lia.
Qed.

(** One word written is the whole of a short bitmap. *)
Lemma short_gives V (g : Z -> bool) (Q : unit -> store -> Prop) :
  nr = 1 -> is_word (V 0) -> (forall i, 0 <= i < 64 * nr -> bit_of V i = g i) ->
  (forall s', gives s dst l (64 * nr) g s' -> Q tt s') -> runs (put_word dst 0 (V 0)) s Q.
Proof.
  intros Hn HV Hg HQ. eapply mix_put; [apply mix_start|lia|done|]. intros s' Hh. apply HQ.
  eapply mix_gives; [exact Hg|]. by rewrite Hn.
Qed.

Lemma w1 k : is_word (wat l1 k).
Proof. apply wat_word, H1. Qed.
Lemma w2 k : is_word (wat l2 k).
Proof. apply wat_word, H2. Qed.

(** *** Set algebra *)

(** The result of the loops that also collect the words they write. *)
Definition collected (V : Z -> Z) (k acc : Z) : Prop :=
  is_word acc /\ (ctrue acc = true <-> exists i, 0 <= i < 64 * k /\ bit_of V i = true).

Lemma collected_step V k acc :
  0 <= k -> is_word (V k) -> collected V k acc -> collected V (k + 1) (Z.lor acc (V k)).
Proof.
  intros Hk HV [Hw Ha]. split; [auto with word|].
  assert (E : ctrue (Z.lor acc (V k)) = true <-> ctrue acc = true \/ ctrue (V k) = true).
  { rewrite !ctrue_true, Z.lor_eq_0_iff. destruct (decide (acc = 0)); tauto. }
  rewrite E, Ha, word_nonzero by done. split.
  - intros [(i & Hi & Hb)|(j & Hj & Hb)]; [exists i; split; [lia|done]|].
    exists (64 * k + j). rewrite bit_of_at by done. split; [lia|done].
  - intros (i & Hi & Hb). destruct (Z.lt_ge_cases i (64 * k)); [left; exists i; split; [lia|done]|].
    right. exists (i - 64 * k). split; [lia|]. rewrite <-bit_of_at by lia. rewrite <-Hb. f_equal. lia.
Qed.

Lemma collected_any V acc n : collected V n acc -> ctrue acc = any (bit_of V) (64 * n).
Proof. intros [_ H]. by apply any_iff. Qed.

Lemma and_like_runs (op : Z -> Z -> Z) (opb : bool -> bool -> bool) cst (short long : M store Z) :
  (forall x y, is_word x -> is_word y -> is_word (op x y)) ->
  (forall x y i, 0 <= i < 64 -> Z.testbit (op x y) i = opb (Z.testbit x i) (Z.testbit y i)) ->
  short = (let! x := word b1 0 in let! y := word b2 0 in put_word dst 0 (op x y) ;;; ret (cbool (ctrue (op x y)))) ->
  long = (let! result := for_acc (Z.to_nat nr) 0 0 (fun k result =>
    let! x := word b1 k in let! y := word b2 k in
    put_word dst k (op x y) ;;; ret (Z.lor result (op x y))) in ret (cbool (ctrue result))) ->
  runs (if small_const_nbits cst bits then short else long) s (fun r s' =>
    r = cbool (any (fun i => opb (bit l1 i) (bit l2 i)) (64 * nr)) /\
    gives s dst l (64 * nr) (fun i => opb (bit l1 i) (bit l2 i)) s').
Proof.
  intros Hop Hopb -> ->. pose proof nr_range. set (V := fun k => op (wat l1 k) (wat l2 k)).
  assert (HV : forall k, is_word (V k)) by (intros; apply Hop; [apply w1|apply w2]).
  assert (Hg : forall i, bit_of V i = opb (bit l1 i) (bit l2 i)) by (intros; apply Hopb, index_split).
  rewrite <-(any_ext (bit_of V)) by done. destruct (small_const_nbits cst bits) eqn:Ec; wp.
  - apply small_longs in Ec as [_ Ec]; [|done].
    eapply runs_ok; [apply (mix_read V b1 l1 0 0 s); [apply mix_start|done|lia|lia]|]. wp.
    eapply runs_ok; [apply (mix_read V b2 l2 0 0 s); [apply mix_start|done|lia|lia]|]. wp.
    apply (short_gives V (fun i => opb (bit l1 i) (bit l2 i))); try done. intros s' Hgv. wp. split; [|done].
    f_equal. apply (collected_any V (V 0) nr). rewrite Ec. apply (collected_step V 0 0); try done.
    split; [by split|]. split; [done|]. intros (i & Hi & _). lia.
  - eapply runs_mono; [apply (map_runs (collected V) V nr)|].
    + lia.
    + split; [by split|]. split; [done|]. intros (i & Hi & _). lia.
    + intros k acc s' Hk HJ Hh. wp. eapply runs_ok; [apply (mix_read V b1 l1 k k s'); (done || lia)|]. wp.
      eapply runs_ok; [apply (mix_read V b2 l2 k k s'); (done || lia)|]. wp.
      apply (mix_put V k s'); try done. intros s'' Hh'. wp. split; [|done]. by apply (collected_step V); [lia| |].
    + cbv beta. intros acc s' [HJ Hh]. wp. split; [f_equal; by apply collected_any|]. by eapply mix_gives.
Qed.

(** The other loops: the word written is a function of the sources. *)
Lemma store_runs V (body : Z -> unit -> M store unit) n :
  0 <= n <= nr ->
  (forall k s', 0 <= k < n -> holds s dst len (mix V (wat l) k) s' ->
    runs (body k tt) s' (fun _ s'' => holds s dst len (mix V (wat l) (k + 1)) s'')) ->
  runs (for_acc (Z.to_nat n) 0 tt body) s (fun _ s' => holds s dst len (mix V (wat l) n) s').
Proof.
  intros Hn Hb. eapply runs_mono; [apply (map_runs (fun _ _ => True) V n tt); try done|].
  - intros k [] s' Hk _ Hh. eapply runs_mono; [by apply Hb|]. done.
  - cbv beta. by intros _ s' [_ Hh].
Qed.

Lemma or_like_runs (op : Z -> Z -> Z) (opb : bool -> bool -> bool) cst (short long : M store unit) :
  (forall x y, is_word x -> is_word y -> is_word (op x y)) ->
  (forall x y i, 0 <= i < 64 -> Z.testbit (op x y) i = opb (Z.testbit x i) (Z.testbit y i)) ->
  short = (let! x := word b1 0 in let! y := word b2 0 in put_word dst 0 (op x y)) ->
  long = for_acc (Z.to_nat nr) 0 tt (fun k _ =>
    let! x := word b1 k in let! y := word b2 k in put_word dst k (op x y)) ->
  runs (if small_const_nbits cst bits then short else long) s (fun _ s' =>
    gives s dst l (64 * nr) (fun i => opb (bit l1 i) (bit l2 i)) s').
Proof.
  intros Hop Hopb -> ->. pose proof nr_range. set (V := fun k => op (wat l1 k) (wat l2 k)).
  assert (HV : forall k, is_word (V k)) by (intros; apply Hop; [apply w1|apply w2]).
  assert (Hg : forall i, bit_of V i = opb (bit l1 i) (bit l2 i)) by (intros; apply Hopb, index_split).
  destruct (small_const_nbits cst bits) eqn:Ec; wp.
  - apply small_longs in Ec as [_ Ec]; [|done].
    eapply runs_ok; [apply (mix_read V b1 l1 0 0 s); [apply mix_start|done|lia|lia]|]. wp.
    eapply runs_ok; [apply (mix_read V b2 l2 0 0 s); [apply mix_start|done|lia|lia]|]. wp.
    by apply (short_gives V (fun i => opb (bit l1 i) (bit l2 i))).
  - eapply runs_mono; [apply (store_runs V); [lia|]|].
    + intros k s' Hk Hh. wp. eapply runs_ok; [apply (mix_read V b1 l1 k k s'); (done || lia)|]. wp.
      eapply runs_ok; [apply (mix_read V b2 l2 k k s'); (done || lia)|]. wp. by apply (mix_put V k s').
    + cbv beta. intros _ s' Hh. by eapply mix_gives.
Qed.

(** The last word of the sources, masked. *)
Lemma masked_bit x k i :
  64 * k < bits <= 64 * k + 64 -> 0 <= i - 64 * k < 64 ->
  Z.testbit (Z.land x (BITMAP_LAST_WORD_MASK bits)) (i - 64 * k) = (i <? bits) && Z.testbit x (i - 64 * k).
Proof.
  intros Hk Hi. rewrite Z.land_spec, (bit_LAST _ k), andb_comm by lia. f_equal. f_equal. lia.
Qed.

(** A sequence of words, masked in the last word of [bits]. *)
Definition cut (V : Z -> Z) (k : Z) : Z :=
  if k =? nr - 1 then Z.land (V k) (BITMAP_LAST_WORD_MASK bits) else V k.

Lemma cut_word V k : is_word (V k) -> is_word (cut V k).
Proof. intros. unfold cut. destruct (_ =? _); auto with word. Qed.

Lemma cut_bit V i : 0 <= i < 64 * nr -> bit_of (cut V) i = (i <? bits) && bit_of V i.
Proof.
  intros Hi. pose proof (longs bits Hbits) as [_ Hk]. cbv zeta in Hk. destruct (index_split i) as [Ei Hj].
  unfold bit_of, cut. destruct (Z.eqb_spec (i / 64) (nr - 1)) as [E|E].
  - replace (i mod 64) with (i - 64 * (nr - 1)) by lia. rewrite masked_bit by lia. by rewrite E.
  - by rewrite (proj2 (Z.ltb_lt i bits)) by lia.
Qed.

(** The mask changes nothing in a word that is used whole. *)
Lemma cut_whole V k : is_word (V k) -> 64 * k + 64 <= bits -> cut V k = V k.
Proof.
  intros HV Hk. pose proof (longs bits Hbits) as [_ Hn]. cbv zeta in Hn. unfold cut.
  destruct (Z.eqb_spec k (nr - 1)) as [E|]; [|done]. apply word_eq; [auto with word|done|].
  intros i Hi. rewrite Z.land_spec, (bit_LAST _ (nr - 1)) by lia. by rewrite (proj2 (Z.ltb_lt _ _)), andb_true_r by lia.
Qed.

Lemma complement_ok cst :
  runs (bitmap_complement cst dst b1 bits) s (fun _ s' =>
    gives s dst l (64 * nr) (fun i => (i <? bits) && negb (bit l1 i)) s').
Proof.
  pose proof nr_range. set (V := fun k => not64 (wat l1 k)).
  assert (HV : forall k, is_word (V k)) by (intros; apply word_not).
  assert (Hg : forall i, 0 <= i < 64 * nr -> bit_of (cut V) i = (i <? bits) && negb (bit l1 i)).
  { intros i Hi. rewrite cut_bit by done. f_equal. apply bit_not, index_split. }
  unfold bitmap_complement. destruct (small_const_nbits cst bits) eqn:Ec.
  - apply small_longs in Ec as [_ Ec]; [|done]. wp.
    eapply runs_ok; [apply (mix_read V b1 l1 0 0 s); [apply mix_start|done|lia|lia]|].
    replace (Z.land _ _) with (cut V 0) by (unfold cut; by rewrite Ec).
    apply (short_gives (cut V) (fun i => (i <? bits) && negb (bit l1 i))); try done. by apply cut_word.
  - clear Ec. unfold __bitmap_complement, BITS_PER_LONG. destruct (index_split bits) as [Ed Hm]. set (lim := bits / 64) in *.
    apply runs_bind. eapply runs_mono; [apply (store_runs (cut V) _ lim); [lia|]|].
    + intros k s' Hk Hh. wp. eapply runs_ok; [apply (mix_read (cut V) b1 l1 k k s'); (done || lia)|]. wp.
      replace (not64 _) with (cut V k) by (apply (cut_whole V); (done || lia)).
      apply (mix_put (cut V) k s'); [done|lia|by apply cut_word|done].
    + cbv beta. intros _ s' Hh. destruct (ctrue (bits mod 64)) eqn:Et; wp.
      * apply ctrue_true in Et. assert (El : lim = nr - 1) by lia.
        eapply runs_ok; [apply (mix_read (cut V) b1 l1 lim lim s'); (done || lia)|].
        replace (Z.land _ _) with (cut V lim) by (unfold cut; by rewrite El, Z.eqb_refl).
        apply (mix_put (cut V) lim s'); [done|lia|by apply cut_word|]. intros s'' Hh'. eapply mix_gives; [exact Hg|].
        by replace nr with (lim + 1) by lia.
      * apply ctrue_false in Et. eapply mix_gives; [exact Hg|]. by replace nr with lim by lia.
Qed.

(** *** Constants and copies *)

Lemma fill_words_runs f s' k n v :
  holds s dst len f s' -> 0 <= k -> 0 <= n -> k + n <= len -> is_word v ->
  runs (fill_words dst k n v) s' (fun _ s'' =>
    holds s dst len (fun i => if (k <=? i) && (i <? k + n) then v else f i) s'').
Proof.
  intros Hh Hk Hn Hlen Hv. unfold fill_words. eapply runs_mono.
  - apply (for_acc_runs (fun k' _ s'' => holds s dst len (fun i => if (k <=? i) && (i <? k') then v else f i) s'')).
    + intros k' [] s1 Hk' Hh'. eapply holds_put; [exact Hh'|lia|done|]. intros s2 Hh2.
      eapply holds_ext; [|exact Hh2]. intros i Hi. cbv beta.
      destruct (Z.eqb_spec i k'), (Z.leb_spec k i), (Z.ltb_spec i k'), (Z.ltb_spec i (k' + 1)); (done || lia).
    + eapply holds_ext; [|exact Hh]. intros i Hi. cbv beta.
      destruct (Z.leb_spec k i), (Z.ltb_spec i k); (done || lia).
  - cbv beta. by rewrite Z2Nat.id by lia.
Qed.

(** The words of [V] below the end of the bitmap, in any form, are the result. *)
Lemma words_give V g f s' :
  (forall i, 0 <= i < 64 * nr -> bit_of V i = g i) ->
  (forall k, 0 <= k < nr -> f k = V k) -> (forall k, nr <= k -> f k = wat l k) ->
  holds s dst len f s' -> gives s dst l (64 * nr) g s'.
Proof.
  intros Hg HV Hl Hh. eapply mix_gives; [exact Hg|]. eapply holds_ext; [|exact Hh].
  intros k Hk. unfold mix. destruct (Z.ltb_spec k nr); [apply HV|apply Hl]; lia.
Qed.

Lemma zero_ok cst :
  runs (bitmap_zero cst dst bits) s (fun _ s' => gives s dst l (64 * nr) (fun _ => false) s').
Proof.
  pose proof nr_range. pose proof (nr_len l (at_len _ _ _ _ Hd)). unfold bitmap_zero.
  destruct (small_const_nbits cst bits) eqn:Ec.
  - apply small_longs in Ec as [_ Ec]; [|done]. apply (short_gives (fun _ => 0) (fun _ => false)); try done.
    intros i Hi. apply Z.testbit_0_l.
  - eapply runs_mono; [apply (fill_words_runs (wat l)); [apply holds_start; apply Hd|lia|lia|lia|done]|]. cbv beta.
    intros _ s'. apply (words_give (fun _ => 0)).
    + intros i Hi. apply Z.testbit_0_l.
    + intros k Hk. by rewrite (proj2 (Z.leb_le 0 k)), (proj2 (Z.ltb_lt _ _)) by lia.
    + intros k Hk. by rewrite (proj2 (Z.ltb_ge _ _)), andb_false_r by lia.
Qed.

Lemma ones_bit i : bit_of (fun _ => ones64) i = true.
Proof. apply bit_ones, index_split. Qed.

Lemma fill_ok cst :
  runs (bitmap_fill cst dst bits) s (fun _ s' => gives s dst l (64 * nr) (fun i => i <? bits) s').
Proof.
  pose proof nr_range. pose proof (nr_len l (at_len _ _ _ _ Hd)). unfold bitmap_fill. set (n := nr - 1). wp.
  apply (runs_mono _ _ (fun _ s' => holds s dst len (fun i => if i <? n then ones64 else wat l i) s')).
  - destruct (small_const_nbits cst bits) eqn:Ec; cbn [negb].
    + apply small_longs in Ec as [_ Ec]; [|done]. wp. eapply holds_ext; [|apply holds_start; apply Hd].
      intros i Hi. by rewrite (proj2 (Z.ltb_ge i n)) by lia.
    + eapply runs_mono; [apply (fill_words_runs (wat l)); [apply holds_start; apply Hd|lia|lia|lia|done]|]. cbv beta.
      intros _ s'. apply holds_ext. intros i Hi. by rewrite (proj2 (Z.leb_le 0 i)) by lia.
  - intros _ s' Hh. eapply holds_put; [exact Hh|lia|apply word_LAST|]. intros s'' Hh'. revert Hh'.
    apply (words_give (cut (fun _ => ones64))).
    + intros i Hi. rewrite cut_bit, ones_bit by done. apply andb_true_r.
    + intros k Hk. unfold cut. fold n. destruct (Z.eqb_spec k n).
      * rewrite Z.land_comm. apply word_eq; [auto with word|auto with word|]. intros i Hi.
        by rewrite Z.land_spec, bit_ones, andb_true_r.
      * by rewrite (proj2 (Z.ltb_lt k n)) by lia.
    + intros k Hk. rewrite (proj2 (Z.eqb_neq k n)), (proj2 (Z.ltb_ge k n)) by lia. done.
Qed.

Lemma copy_ok cst :
  runs (bitmap_copy cst dst b1 bits) s (fun _ s' => gives s dst l (64 * nr) (bit l1) s').
Proof.
  pose proof nr_range. unfold bitmap_copy. destruct (small_const_nbits cst bits) eqn:Ec; wp.
  - apply small_longs in Ec as [_ Ec]; [|done].
    eapply runs_ok; [apply (mix_read (wat l1) b1 l1 0 0 s); [apply mix_start|done|lia|lia]|].
    apply (short_gives (wat l1) (bit l1)); try done. apply w1.
  - eapply runs_mono; [apply (store_runs (wat l1)); [lia|]|].
    + intros k s' Hk Hh. wp. eapply runs_ok; [apply (mix_read (wat l1) b1 l1 k k s'); (done || lia)|].
      apply (mix_put (wat l1) k s'); (done || apply w1).
    + cbv beta. intros _ s' Hh. by eapply mix_gives.
Qed.

(** *** Shifts *)

(** The mask of the shifts, and the test that guards it. *)
Local Abbreviation smask := (u64 (shl64 1 (bits mod 64) - 1)).

Lemma cut_code V k :
  is_word (V k) -> (if ctrue (bits mod 64) && (k =? nr - 1) then Z.land (V k) smask else V k) = cut V k.
Proof.
  intros HV. unfold cut, BITMAP_LAST_WORD_MASK, BITS_PER_LONG. destruct (ctrue (bits mod 64)); [done|]. cbn [andb].
  destruct (_ =? _); [|done]. apply word_eq; [done|auto with word|]. intros i Hi.
  by rewrite Z.land_spec, bit_ones, andb_true_r.
Qed.

(** The write of a word that is masked again when it is the last. *)
Lemma put_cut f s' k V :
  holds s dst len f s' -> 0 <= k < nr -> is_word (V k) ->
  runs (put_word dst k (V k) ;;;
        if ctrue (bits mod 64) && (k =? nr - 1) then let! x := word dst k in put_word dst k (Z.land x smask) else ret tt) s'
    (fun _ s'' => holds s dst len (fun i => if i =? k then cut V k else f i) s'').
Proof.
  intros Hh Hk HV. pose proof (nr_len l (at_len _ _ _ _ Hd)). wp.
  eapply holds_put; [exact Hh|lia|done|]. intros s1 Hh1. rewrite <-cut_code by done.
  destruct (ctrue (bits mod 64) && (k =? nr - 1)); wp; [|done].
  eapply runs_ok; [apply (holds_read_dst s dst len _ s1 k Hh1); lia|]. cbv beta. rewrite Z.eqb_refl.
  eapply holds_put; [exact Hh1|lia|auto with word|]. intros s2 Hh2. eapply holds_ext; [|exact Hh2].
  intros i Hi. cbv beta. by destruct (Z.eqb_spec i k).
Qed.

(** The words of the source with the bits past the size cleared, and nothing
    past the end. *)
Definition clean (k : Z) : Z := if (0 <=? k) && (k <? nr) then cut (wat l1) k else 0.

Lemma clean_word k : is_word (clean k).
Proof. unfold clean. destruct (_ && _); [apply cut_word, w1|by split]. Qed.

Lemma clean_bit i : bit_of clean i = (0 <=? i) && (i <? bits) && bit l1 i.
Proof.
  pose proof nr_range. destruct (index_split i) as [Ei Hj]. unfold bit_of, clean.
  destruct (Z.leb_spec 0 (i / 64)), (Z.leb_spec 0 i), (Z.ltb_spec (i / 64) nr); cbn [andb]; try lia;
    rewrite ?Z.testbit_0_l; try done.
  - apply (cut_bit (wat l1) i). lia.
  - by rewrite (proj2 (Z.ltb_ge i bits)) by lia.
Qed.

(** Two neighbouring words of [C], shifted right by [rem] into one. *)
Definition right_word (C : Z -> Z) (off rem k : Z) : Z :=
  Z.lor (shl64 (if rem =? 0 then 0 else C (off + k + 1)) (64 - rem)) (shr64 (C (off + k)) rem).

Lemma right_bit C off rem i :
  0 <= rem < 64 -> (forall k, is_word (C k)) -> bit_of (right_word C off rem) i = bit_of C (i + (64 * off + rem)).
Proof.
  intros Hr HC. destruct (index_split i) as [Ei Hj]. unfold bit_of at 1, right_word. set (k := i / 64) in *. set (j := i mod 64) in *.
  replace (i + (64 * off + rem)) with (64 * (off + k) + (j + rem)) by lia.
  rewrite Z.lor_spec, bit_shr by lia. destruct (Z.lt_ge_cases (j + rem) 64).
  - rewrite bit_of_at by lia. destruct (Z.eqb_spec rem 0) as [->|].
    + change (64 - 0) with 64. change (shl64 0 64) with 0. by rewrite Z.testbit_0_l.
    + rewrite bit_shl by lia. by rewrite (proj2 (Z.leb_gt _ _)) by lia.
  - rewrite (word_high (C (off + k))), orb_false_r by (done || lia). rewrite (proj2 (Z.eqb_neq rem 0)) by lia.
    rewrite bit_shl, (proj2 (Z.leb_le _ _)) by lia. cbn [andb].
    replace (64 * (off + k) + (j + rem)) with (64 * (off + k + 1) + (j + rem - 64)) by lia.
    rewrite bit_of_at by lia. f_equal. lia.
Qed.

Lemma right_is_word C off rem k : (forall k, is_word (C k)) -> is_word (right_word C off rem k).
Proof. intros HC. unfold right_word. auto with word. Qed.

(** The word the loop of the shift computes. *)
Lemma right_step off rem k s' (Q : unit -> store -> Prop) body :
  0 <= off -> 0 <= k -> off + k < nr ->
  holds s dst len (mix (cut (right_word clean off rem)) (wat l) k) s' ->
  (runs (body (right_word clean off rem k)) s' Q) ->
  runs (let! upper :=
      (if (rem =? 0) || (nr <=? off + k + 1) then ret 0
       else let! u := word b1 (off + k + 1) in
            ret (if (off + k + 1 =? nr - 1) && ctrue (bits mod 64) then Z.land u smask else u)) in
    let! lower := word b1 (off + k) in
    let lower := if ctrue (bits mod 64) && (off + k =? nr - 1) then Z.land lower smask else lower in
    body (Z.lor (shl64 upper (64 - rem)) (shr64 lower rem))) s' Q.
Proof.
  intros Ho Hk Hok Hh HQ. apply runs_bind.
  apply (runs_mono _ _ (fun u s'' => s'' = s' /\ u = if rem =? 0 then 0 else clean (off + k + 1))).
  - destruct (rem =? 0) eqn:Er; cbn [orb]; [by wp|]. unfold clean. rewrite (proj2 (Z.leb_le 0 _)) by lia. cbn [andb].
    destruct (Z.leb_spec nr (off + k + 1)); wp.
    + by rewrite (proj2 (Z.ltb_ge _ _)) by lia.
    + eapply runs_ok; [apply (mix_read _ b1 l1 k (off + k + 1) s' Hh); (done || lia)|]. wp. split; [done|].
      rewrite (proj2 (Z.ltb_lt _ _)), andb_comm by lia. apply (cut_code (wat l1)), w1.
  - intros u ? [-> ->]. wp. eapply runs_ok; [apply (mix_read _ b1 l1 k (off + k) s' Hh); (done || lia)|]. cbv zeta.
    rewrite (cut_code (wat l1)) by apply w1. revert HQ. unfold right_word, clean at 2.
    by rewrite (proj2 (Z.leb_le 0 (off + k))), (proj2 (Z.ltb_lt (off + k) nr)) by lia.
Qed.

(** All the words of the result of a shift to the right. *)
Definition right_words (off rem k : Z) : Z := if k <? nr - off then cut (right_word clean off rem) k else 0.

Lemma right_words_bit off rem i :
  0 <= off -> 0 <= rem < 64 -> 0 <= i < 64 * nr ->
  bit_of (right_words off rem) i = (i + (64 * off + rem) <? bits) && bit l1 (i + (64 * off + rem)).
Proof.
  intros Ho Hr Hi. pose proof nr_range. destruct (index_split i) as [Ei Hj]. set (shift := 64 * off + rem).
  unfold bit_of, right_words. destruct (Z.ltb_spec (i / 64) (nr - off)).
  - change (bit_of (cut (right_word clean off rem)) i = (i + shift <? bits) && bit l1 (i + shift)). rewrite cut_bit by done.
    rewrite right_bit by (done || apply clean_word). fold shift. rewrite clean_bit, (proj2 (Z.leb_le 0 _)) by lia.
    destruct (Z.ltb_spec i bits), (Z.ltb_spec (i + shift) bits); (done || lia).
  - rewrite Z.testbit_0_l. by rewrite (proj2 (Z.ltb_ge _ _)) by lia.
Qed.

Lemma short_right_ok shift :
  0 <= shift < bits -> bits <= 64 -> (forall i, bits <= i < 64 -> bit l1 i = false) ->
  runs (let! x := word b1 0 in put_word dst 0 (shr64 x shift)) s (fun _ s' =>
    gives s dst l (64 * nr) (fun i => (i + shift <? bits) && bit l1 (i + shift)) s').
Proof.
  intros Hs Hle Hcl. pose proof nr_range. assert (Ec : nr = 1) by lia. wp.
  eapply runs_ok; [apply (mix_read (wat l1) b1 l1 0 0 s); [apply mix_start|done|lia|lia]|].
  apply (short_gives (fun k => shr64 (wat l1 k) shift) (fun i => (i + shift <? bits) && bit l1 (i + shift))); try done.
  - apply word_shr, w1.
  - intros i Hi. rewrite Ec in Hi. unfold bit_of. rewrite (Z.div_small i), (Z.mod_small i), bit_shr by lia.
    destruct (Z.lt_ge_cases (i + shift) 64).
    + rewrite <-(bit_at l1 0) by lia. rewrite Z.mul_0_r, Z.add_0_l. destruct (Z.ltb_spec (i + shift) bits); [done|].
      apply Hcl. lia.
    + rewrite (word_high (wat l1 0)) by (apply w1 || lia). by rewrite (proj2 (Z.ltb_ge _ _)) by lia.
Qed.

Lemma shift_right_ok cst shift :
  0 <= shift < bits -> (small_const_nbits cst bits = true -> forall i, bits <= i < 64 -> bit l1 i = false) ->
  runs (bitmap_shift_right cst dst b1 shift bits) s (fun _ s' =>
    gives s dst l (64 * nr) (fun i => (i + shift <? bits) && bit l1 (i + shift)) s').
Proof.
  intros Hs Hcl. pose proof nr_range. pose proof (nr_len l (at_len _ _ _ _ Hd)). unfold bitmap_shift_right.
  destruct (small_const_nbits cst bits) eqn:Ec.
  { apply small_longs in Ec as [Hle _]; [|done]. apply short_right_ok; auto. }
  clear Ec Hcl. unfold __bitmap_shift_right, BITS_PER_LONG. destruct (index_split shift) as [Es Hr].
  set (off := shift / 64) in *. set (rem := shift mod 64) in *. assert (Hoff : 0 <= off) by (apply Z.div_pos; lia).
  pose proof (right_words_bit off rem) as Hg. rewrite <-Es in Hg. set (W := right_word clean off rem).
  apply runs_bind. eapply runs_mono; [apply (store_runs (cut W)); [lia|]|].
  - intros k s' Hk Hh. apply (right_step off rem k s' _ (fun v => put_word dst k v ;;;
      if ctrue (bits mod 64) && (k =? nr - 1) then let! x := word dst k in put_word dst k (Z.land x smask) else ret tt));
      try done; try lia. fold W.
    eapply runs_mono; [apply (put_cut _ s' k W Hh); [lia|apply right_is_word, clean_word]|]. cbv beta.
    intros _ s''. apply holds_ext. intros i Hi. unfold mix.
    destruct (Z.eqb_spec i k), (Z.ltb_spec i k), (Z.ltb_spec i (k + 1)); (done || lia || congruence).
  - cbv beta. intros _ s' Hh. destruct (ctrue off) eqn:Eo; wp.
    + eapply runs_mono; [apply (fill_words_runs _ s' _ _ _ Hh); (done || lia)|]. cbv beta. intros _ s''.
      apply (words_give (right_words off rem)); [by auto| |]; intros k Hk; unfold mix, right_words.
      * destruct (Z.leb_spec (nr - off) k), (Z.ltb_spec k (nr - off + off)), (Z.ltb_spec k (nr - off)); (done || lia).
      * rewrite (proj2 (Z.ltb_ge k (nr - off + off))), andb_false_r by lia. by rewrite (proj2 (Z.ltb_ge _ _)) by lia.
    + apply ctrue_false in Eo. revert Hh.
      apply (words_give (right_words off rem)); [by auto| |]; intros k Hk; unfold mix, right_words; rewrite Eo, Z.sub_0_r.
      * rewrite (proj2 (Z.ltb_lt _ _)) by lia. subst W. by rewrite Eo.
      * by rewrite (proj2 (Z.ltb_ge _ _)) by lia.
Qed.

(** Two neighbouring words of [C], shifted left by [rem] into one. *)
Definition left_word (C : Z -> Z) (off rem k : Z) : Z :=
  Z.lor (shr64 (if rem =? 0 then 0 else C (k - off - 1)) (64 - rem)) (shl64 (C (k - off)) rem).

Lemma left_bit C off rem i :
  0 <= rem < 64 -> (forall k, is_word (C k)) -> bit_of (left_word C off rem) i = bit_of C (i - (64 * off + rem)).
Proof.
  intros Hr HC. destruct (index_split i) as [Ei Hj]. unfold bit_of at 1, left_word. set (k := i / 64) in *. set (j := i mod 64) in *.
  rewrite Z.lor_spec, bit_shl by lia. destruct (Z.leb_spec rem j); cbn [andb].
  - replace (i - (64 * off + rem)) with (64 * (k - off) + (j - rem)) by lia. rewrite bit_of_at by lia.
    destruct (Z.eqb_spec rem 0) as [->|].
    + change (64 - 0) with 64. change (shr64 0 64) with 0. by rewrite Z.testbit_0_l.
    + rewrite bit_shr, word_high by (done || lia). done.
  - rewrite orb_false_r, (proj2 (Z.eqb_neq rem 0)), bit_shr by lia.
    replace (i - (64 * off + rem)) with (64 * (k - off - 1) + (j + (64 - rem))) by lia. by rewrite bit_of_at by lia.
Qed.

Lemma left_is_word C off rem k : (forall k, is_word (C k)) -> is_word (left_word C off rem k).
Proof. intros HC. unfold left_word. destruct (rem =? 0); auto with word. Qed.

Lemma for_down_runs (I : Z -> store -> Prop) n s' body :
  (forall k s1, 0 <= k < Z.of_nat n -> I (k + 1) s1 -> runs (body k) s1 (fun _ => I k)) ->
  I (Z.of_nat n) s' -> runs (for_down n body) s' (fun _ => I 0).
Proof.
  revert s'. induction n as [|n IH]; intros s' Hb H0; cbn [for_down]; wp; [done|].
  eapply runs_mono; [apply Hb; [lia|by replace (Z.of_nat n + 1) with (Z.of_nat (S n)) by lia]|].
  cbv beta. intros _ s1 H1'. apply IH; [|done]. intros k s2 Hk. apply Hb. lia.
Qed.

(** The words from [off + k] on are those of the result. *)
Definition high (V : Z -> Z) (off k i : Z) : Z := if (off + k <=? i) && (i <? nr) then V i else wat l i.

Definition left_words (off rem k : Z) : Z := if k <? off then 0 else cut (left_word clean off rem) k.

Lemma left_words_bit off rem i :
  0 <= off -> 0 <= rem < 64 -> 0 <= i < 64 * nr ->
  bit_of (left_words off rem) i =
    (64 * off + rem <=? i) && (i <? bits) && bit l1 (i - (64 * off + rem)).
Proof.
  intros Ho Hr Hi. pose proof nr_range. destruct (index_split i) as [Ei Hj]. set (shift := 64 * off + rem).
  unfold bit_of, left_words. destruct (Z.ltb_spec (i / 64) off).
  - rewrite Z.testbit_0_l. by rewrite (proj2 (Z.leb_gt shift i)) by lia.
  - change (bit_of (cut (left_word clean off rem)) i = (shift <=? i) && (i <? bits) && bit l1 (i - shift)).
    rewrite cut_bit, left_bit by (done || apply clean_word). fold shift. rewrite clean_bit.
    destruct (Z.ltb_spec i bits), (Z.leb_spec shift i), (Z.leb_spec 0 (i - shift)), (Z.ltb_spec (i - shift) bits);
      (done || lia).
Qed.

Lemma high_read V off k k' s' :
  holds s dst len (high V off (k + 1)) s' -> 0 <= off -> 0 <= k' <= k -> k < nr ->
  word b1 k' s' = Ok (wat l1 k', s').
Proof.
  intros Hh Ho Hk Hn. pose proof (nr_len l1 (at_len _ _ _ _ H1)).
  apply (holds_read s dst l (at_map _ _ _ _ Hd) len _ s' b1 l1 k' Hh); [apply H1|lia|done|].
  intros E. unfold high. rewrite (proj2 (Z.leb_gt _ _)) by lia. cbn [andb]. f_equal.
  pose proof (at_map _ _ _ _ Hd). pose proof (at_map _ _ _ _ H1). congruence.
Qed.

Lemma left_step V off rem k s' (Q : unit -> store -> Prop) body :
  0 <= off -> 0 <= k < nr -> holds s dst len (high V off (k + 1)) s' ->
  runs (body (left_word clean off rem (k + off))) s' Q ->
  runs (let! lower := (if negb (rem =? 0) && (0 <? k) then word b1 (k - 1) else ret 0) in
    let! upper := word b1 k in
    let upper := if ctrue (bits mod 64) && (k =? nr - 1) then Z.land upper smask else upper in
    body (Z.lor (shr64 lower (64 - rem)) (shl64 upper rem))) s' Q.
Proof.
  intros Ho Hk Hh HQ. pose proof nr_range. apply runs_bind.
  apply (runs_mono _ _ (fun u s'' => s'' = s' /\ u = if rem =? 0 then 0 else clean (k - 1))).
  - destruct (rem =? 0) eqn:Er; cbn [negb andb]; [by wp|]. unfold clean. destruct (Z.ltb_spec 0 k); wp.
    + eapply runs_ok; [apply (high_read V off k (k - 1) s' Hh); lia|]. split; [done|].
      rewrite (proj2 (Z.leb_le 0 _)), (proj2 (Z.ltb_lt (k - 1) nr)) by lia. symmetry. apply cut_whole; [apply w1|lia].
    + by rewrite (proj2 (Z.leb_gt 0 _)) by lia.
  - intros u ? [-> ->]. wp. eapply runs_ok; [apply (high_read V off k k s' Hh); lia|]. cbv zeta.
    rewrite (cut_code (wat l1)) by apply w1. revert HQ. unfold left_word.
    replace (k + off - off) with k by lia. unfold clean at 2.
    by rewrite (proj2 (Z.leb_le 0 k)), (proj2 (Z.ltb_lt k nr)) by lia.
Qed.

Lemma short_left_ok shift :
  0 <= shift < bits -> bits <= 64 ->
  runs (let! x := word b1 0 in put_word dst 0 (Z.land (shl64 x shift) (BITMAP_LAST_WORD_MASK bits))) s (fun _ s' =>
    gives s dst l (64 * nr) (fun i => (shift <=? i) && (i <? bits) && bit l1 (i - shift)) s').
Proof.
  intros Hs Hle. pose proof nr_range. assert (Ec : nr = 1) by lia. wp.
  eapply runs_ok; [apply (mix_read (wat l1) b1 l1 0 0 s); [apply mix_start|done|lia|lia]|].
  set (V := fun k => shl64 (wat l1 k) shift).
  replace (Z.land _ _) with (cut V 0) by (unfold cut; by rewrite Ec).
  apply (short_gives (cut V) (fun i => (shift <=? i) && (i <? bits) && bit l1 (i - shift))); try done.
  - apply cut_word. apply word_shl.
  - intros i Hi. rewrite cut_bit by done. rewrite Ec in Hi. unfold bit_of, V.
    rewrite (Z.div_small i), (Z.mod_small i), bit_shl by lia. destruct (Z.leb_spec shift i); [|by rewrite andb_false_r].
    cbn [andb]. f_equal. by rewrite <-(bit_at l1 0), Z.mul_0_r, Z.add_0_l by lia.
Qed.

Lemma shift_left_ok cst shift :
  0 <= shift < bits ->
  runs (bitmap_shift_left cst dst b1 shift bits) s (fun _ s' =>
    gives s dst l (64 * nr) (fun i => (shift <=? i) && (i <? bits) && bit l1 (i - shift)) s').
Proof.
  intros Hs. pose proof nr_range. pose proof (nr_len l (at_len _ _ _ _ Hd)). unfold bitmap_shift_left.
  destruct (small_const_nbits cst bits) eqn:Ec.
  { apply small_longs in Ec as [Hle _]; [|done]. by apply short_left_ok. }
  clear Ec. unfold __bitmap_shift_left, BITS_PER_LONG. destruct (index_split shift) as [Es Hr].
  set (off := shift / 64) in *. set (rem := shift mod 64) in *. assert (Hoff : 0 <= off) by (apply Z.div_pos; lia).
  pose proof (left_words_bit off rem) as Hg. rewrite <-Es in Hg. set (W := left_word clean off rem).
  apply runs_bind. eapply runs_mono.
  - apply (for_down_runs (fun k s' => holds s dst len (high (cut W) off k) s')).
    + intros k s' Hk Hh. apply (left_step (cut W) off rem k s' _ (fun v => put_word dst (k + off) v ;;;
        if ctrue (bits mod 64) && (k + off =? nr - 1) then let! x := word dst (k + off) in put_word dst (k + off) (Z.land x smask)
        else ret tt)); try done; try lia. fold W.
      eapply runs_mono; [apply (put_cut _ s' (k + off) W Hh); [lia|apply left_is_word, clean_word]|]. cbv beta.
      intros _ s''. apply holds_ext. intros i Hi. unfold high.
      destruct (Z.eqb_spec i (k + off)), (Z.leb_spec (off + (k + 1)) i), (Z.leb_spec (off + k) i), (Z.ltb_spec i nr);
        (done || lia || cbn; congruence).
    + eapply holds_ext; [|apply holds_start; apply Hd]. intros i Hi. unfold high.
      destruct (Z.leb_spec (off + Z.of_nat (Z.to_nat (nr - off))) i), (Z.ltb_spec i nr); (done || lia).
  - cbv beta. intros _ s' Hh. destruct (ctrue off) eqn:Eo; wp.
    + eapply runs_mono; [apply (fill_words_runs _ s' _ _ _ Hh); (done || lia)|]. cbv beta. intros _ s''.
      apply (words_give (left_words off rem)); [by auto| |]; intros k Hk; unfold high, left_words.
      * destruct (Z.leb_spec 0 k), (Z.ltb_spec k (0 + off)), (Z.leb_spec (off + 0) k), (Z.ltb_spec k nr), (Z.ltb_spec k off);
          (done || lia).
      * rewrite (proj2 (Z.ltb_ge k (0 + off))), andb_false_r by lia. by rewrite (proj2 (Z.ltb_ge k nr)), andb_false_r by lia.
    + apply ctrue_false in Eo. revert Hh.
      apply (words_give (left_words off rem)); [by auto| |]; intros k Hk; unfold high, left_words; rewrite Eo.
      * rewrite (proj2 (Z.leb_le _ k)), (proj2 (Z.ltb_lt k nr)), (proj2 (Z.ltb_ge k 0)) by lia. subst W. by rewrite Eo.
      * by rewrite (proj2 (Z.ltb_ge k nr)), andb_false_r by lia.
Qed.

(** *** The set operations together *)

Lemma and_ok cst :
  runs (bitmap_and cst dst b1 b2 bits) s (fun r s' =>
    r = cbool (any (fun i => bit l1 i && bit l2 i) (64 * nr)) /\
    gives s dst l (64 * nr) (fun i => bit l1 i && bit l2 i) s').
Proof.
  apply (and_like_runs Z.land andb); try done; [intros; by apply word_land|intros; apply Z.land_spec].
Qed.

Lemma andnot_ok cst :
  runs (bitmap_andnot cst dst b1 b2 bits) s (fun r s' =>
    r = cbool (any (fun i => bit l1 i && negb (bit l2 i)) (64 * nr)) /\
    gives s dst l (64 * nr) (fun i => bit l1 i && negb (bit l2 i)) s').
Proof.
  apply (and_like_runs (fun x y => Z.land x (not64 y)) (fun x y => x && negb y)); try done.
  - intros. by apply word_land.
  - intros. by rewrite Z.land_spec, bit_not.
Qed.


End Ops.


(** ** Unused bits that show

    [lib/bitmap.c] promises that bits past the size never affect a result.
    Two functions do not keep the promise. *)
Section Unused.
  Context (s : store) (dst b1 b2 bits : Z) (l l1 l2 : list Z) (Hbits : 0 < bits).
  Context (Hd : bitmap_at s dst bits l) (H1 : bitmap_at s b1 bits l1) (H2 : bitmap_at s b2 bits l2).

Lemma short_right_leak shift i :
  bits <= 64 -> 0 <= shift < bits -> 0 <= i -> i + shift < 64 ->
  runs (bitmap_shift_right true dst b1 shift bits) s (fun _ s' =>
    exists l', s' !! dst = Some l' /\ bit l' i = bit l1 (i + shift)).
Proof.
  intros Hle Hs Hi His. pose proof (at_len _ _ _ _ Hd) as Hlen. pose proof (at_len _ _ _ _ H1) as Hlen1.
  unfold bitmap_shift_right, small_const_nbits, BITS_PER_LONG. rewrite (proj2 (Z.leb_le _ _) Hle). cbn [andb]. wp.
  eapply runs_ok; [apply (word_ok s b1 l1); [apply H1|lia]|].
  eapply holds_put; [apply (holds_start s dst l); apply Hd|lia|apply word_shr, wat_word, H1|].
  intros s' (l' & -> & Hl & _ & Hf). exists l'. split; [apply lookup_insert_eq|].
  rewrite <-(Z.add_0_l i) at 1. rewrite <-(Z.mul_0_r 64). rewrite bit_at, Hf by lia. cbn [Z.eqb].
  rewrite bit_shr by lia. by rewrite <-(bit_at l1 0), Z.mul_0_r, Z.add_0_l by lia.
Qed.

(** Unused bits affect two results.  When two bitmaps have no bit in
    common below the size but one past it, [bitmap_and] reports a common bit
    that [bitmap_intersects] denies; and the short form of [bitmap_shift_right]
    moves bits from past the size below it, where the long form gives zeros. *)
Theorem unused_bits_show cst shift i :
  any (fun i => bit l1 i && bit l2 i) bits = false ->
  any (fun i => bit l1 i && bit l2 i) (64 * BITS_TO_LONGS bits) = true ->
  bits <= 64 -> 0 <= shift < bits -> 0 <= i < bits -> bits <= i + shift < 64 -> bit l1 (i + shift) = true ->
  runs (bitmap_and cst dst b1 b2 bits) s (fun r _ => r = 1) /\
  runs (bitmap_intersects cst b1 b2 bits) s (fun r _ => r = 0) /\
  runs (bitmap_shift_right true dst b1 shift bits) s (fun _ s' =>
    exists l', s' !! dst = Some l' /\ bit l' i = true) /\
  runs (bitmap_shift_right false dst b1 shift bits) s (fun _ s' =>
    exists l', s' !! dst = Some l' /\ bit l' i = false).
Proof.
  intros Hlow Hhigh Hle Hs Hi His Hb. split; [|split; [|split]].
  - eapply runs_mono; [by eapply and_ok|]. cbv beta. intros r s' [-> _]. by rewrite Hhigh.
  - eapply runs_mono; [by eapply intersects_ok|]. cbv beta. intros r s' [_ ->]. by rewrite Hlow.
  - eapply runs_mono; [by apply (short_right_leak shift i); try lia|]. cbv beta. by rewrite Hb.
  - eapply runs_mono; [by eapply shift_right_ok|]. cbv beta. intros _ s' (l' & -> & _ & _ & Hg & _).
    exists l'. split; [apply lookup_insert_eq|]. pose proof (longs bits Hbits) as H. cbv zeta in H.
    rewrite Hg by lia. by rewrite (proj2 (Z.ltb_ge _ _)) by lia.
Qed.
End Unused.

Lemma unused_bits_show_witness :
  let s : store := {[1 := [0x185]; 2 := [0x10a]; 3 := [0]]} in
  runs (bitmap_and false 3 1 2 8) s (fun r _ => r = 1) /\
  runs (bitmap_intersects false 1 2 8) s (fun r _ => r = 0) /\
  runs (bitmap_shift_right true 3 1 4 8) s (fun _ s' => exists l', s' !! 3 = Some l' /\ bit l' 4 = true) /\
  runs (bitmap_shift_right false 3 1 4 8) s (fun _ s' => exists l', s' !! 3 = Some l' /\ bit l' 4 = false).
Proof.
  intros s. apply (unused_bits_show s 3 1 2 8 [0] [0x185] [0x10a]); try lia; try reflexivity;
    split; (reflexivity || (repeat constructor; done) || done).
Defined.
