(* ===== verification/BitmapMap.v ===== *)
(** Mapping bitmaps onto each other: [bitmap_remap], [bitmap_bitremap],
    [bitmap_onto] and [bitmap_fold] of [lib/bitmap.c].  Their sizes are never
    known to the compiler, so the long forms of {Bitmap} are used. *)
From S2P Require Import Prelude Wp Bits Bitmap BitmapOps.

Definition bitmap_pos_to_ord (buf pos bits : Z) : M store Z :=
  if (pos <? 0) || (bits <=? pos) then ret (-1)
  else
    let! t := test_bit pos buf in
    if negb t then ret (-1)
    else
      let! i := find_first_bit buf bits in
      let! (i, ord) := loop (S (Z.to_nat bits)) (fun '(i, ord) =>
        if i <? pos then let! i := find_next_bit buf bits (i + 1) in ret (inl (i, ord + 1))
        else ret (inr (i, ord))) (i, 0) in
      if i =? pos then ret ord else throw Oops.

Definition bitmap_ord_to_pos (buf ord bits : Z) : M store Z :=
  if (0 <=? ord) && (ord <? bits) then
    let! i := find_first_bit buf bits in
    let! (i, ord) := loop (S (Z.to_nat bits)) (fun '(i, ord) =>
      if (i <? bits) && (0 <? ord) then
        let ord := ord - 1 in
        let! i := find_next_bit buf bits (i + 1) in ret (inl (i, ord))
      else ret (inr (i, ord))) (i, ord) in
    ret (if (i <? bits) && (ord =? 0) then i else 0)
  else ret 0.

(** The loop over the set bits of [b] the functions below are made of, with a
    variable. *)
Definition each_bit {A} (b bits : Z) (acc : A) (body : Z -> A -> M store A) : M store A :=
  let! i := find_first_bit b bits in
  loop (S (Z.to_nat bits)) (fun '(i, acc) =>
    if i <? bits then
      let! acc := body i acc in
      let! i := find_next_bit b bits (i + 1) in ret (inl (i, acc))
    else ret (inr acc)) (i, acc).

Definition bitmap_remap (dst src old new bits : Z) : M store unit :=
  if dst =? src then ret tt
  else
    bitmap_zero false dst bits ;;;
    let! w := bitmap_weight false new bits in
    each_bit src bits tt (fun oldbit _ =>
      let! n := bitmap_pos_to_ord old oldbit bits in
      if (n <? 0) || (w =? 0) then set_bit oldbit dst
      else let! p := bitmap_ord_to_pos new (n mod w) bits in set_bit p dst).

Definition bitmap_bitremap (oldbit old new bits : Z) : M store Z :=
  let! w := bitmap_weight false new bits in
  let! n := bitmap_pos_to_ord old oldbit bits in
  if (n <? 0) || (w =? 0) then ret oldbit
  else bitmap_ord_to_pos new (n mod w) bits.

Definition bitmap_onto (dst orig relmap bits : Z) : M store unit :=
  if dst =? orig then ret tt
  else
    bitmap_zero false dst bits ;;;
    each_bit relmap bits 0 (fun n m =>
      let! t := test_bit m orig in
      (if (t : bool) then set_bit n dst else ret tt) ;;;
      ret (m + 1)) ;;;
    ret tt.

(** A division by zero has no result. *)
Definition bitmap_fold (dst orig sz bits : Z) : M store unit :=
  if dst =? orig then ret tt
  else
    bitmap_zero false dst bits ;;;
    each_bit orig bits tt (fun oldbit _ =>
      if sz =? 0 then throw Undef else set_bit (oldbit mod sz) dst).

(** ** Counting *)

Lemma count_0 P : count P 0 = 0.
Proof. done. Qed.

Lemma count_skip P p q : 0 <= p <= q -> none_in P p q -> count P q = count P p.
Proof.
  intros Hp Hn. replace q with (p + (q - p)) by lia. rewrite count_app by lia.
  rewrite (count_none (fun i => P (p + i))), Z.add_0_r; [done|]. intros i Hi. apply Hn. lia.
Qed.

Lemma count_succ P i : 0 <= i -> P i = true -> count P (i + 1) = count P i + 1.
Proof.
  intros Hi HP. rewrite count_app by lia. f_equal. unfold count, ones. change (seqZ 0 1) with [0]. cbn [List.filter].
  by rewrite Z.add_0_r, HP.
Qed.

Lemma count_nonneg P n : 0 <= count P n.
Proof. unfold count. lia. Qed.

Lemma count_mono P m n : 0 <= m <= n -> count P m <= count P n.
Proof.
  intros Hm. replace n with (m + (n - m)) by lia. rewrite count_app by lia.
  pose proof (count_nonneg (fun i => P (m + i)) (n - m)). lia.
Qed.

Lemma count_lt P i n : 0 <= i < n -> P i = true -> count P i < count P n.
Proof. intros Hi HP. pose proof (count_mono P (i + 1) n ltac:(lia)). rewrite count_succ in * by (done || lia). lia. Qed.

Lemma count_le P n : 0 <= n -> count P n <= n.
Proof.
  intros Hn. unfold count, ones. pose proof (List.filter_length_le P (seqZ 0 n)) as H. rewrite length_seqZ in H. lia.
Qed.

(** The set bit number [count P i] is [i]. *)
Lemma ones_lookup P i n : 0 <= i < n -> P i = true -> ones P n !! Z.to_nat (count P i) = Some i.
Proof.
  intros Hi HP. replace n with (i + (n - i)) by lia. rewrite ones_app by lia. unfold count at 1. rewrite Nat2Z.id.
  rewrite lookup_app_r, Nat.sub_diag by lia. replace (n - i) with (1 + (n - i - 1)) by lia. rewrite ones_app by lia.
  unfold ones at 1. change (seqZ 0 1) with [0]. cbn [List.filter]. rewrite Z.add_0_r, HP. cbn. f_equal. lia.
Qed.

Lemma ones_spec P n i : i ∈ ones P n <-> 0 <= i < n /\ P i = true.
Proof.
  unfold ones. rewrite list_elem_of_In, filter_In, <-list_elem_of_In, elem_of_seqZ. split; intros [? ?]; (split; [lia|done]).
Qed.

(** ** Reading bits *)

Lemma test_bit_ok s b n l i :
  bitmap_at s b n l -> 0 <= i < n -> test_bit i b s = Ok (bit l i, s).
Proof.
  intros Hat Hi. pose proof (at_len _ _ _ _ Hat). destruct (index_split i) as [Ei Hj]. unfold test_bit, BITS_PER_LONG.
  erewrite bind_ok by (apply (word_ok s b l); [apply Hat|lia]). unfold ret. f_equal. f_equal.
  apply eq_iff_eq_true. rewrite word_nonzero by auto with word. unfold bit. split.
  - intros (j & Hj' & Hb). rewrite Z.land_spec, bit_one, andb_true_iff, Z.eqb_eq in Hb by lia. by destruct Hb as [<- Hb].
  - intros Hb. exists (i mod 64). split; [done|]. rewrite Z.land_spec, bit_one, Z.eqb_refl by lia. done.
Qed.

Section Read.
  Context (s : store) (b bits : Z) (l : list Z) (Hbits : 0 < bits) (Hat : bitmap_at s b bits l).

Definition ord_of (pos : Z) : Z :=
  if (0 <=? pos) && (pos <? bits) && bit l pos then count (bit l) pos else -1.
Definition pos_of (ord : Z) : Z := default 0 (ones (bit l) bits !! Z.to_nat ord).

(** The next set bit after a set bit; [bits] when there is none. *)
Lemma next_after i :
  0 <= i < bits ->
  exists i', find_next_bit b bits (i + 1) s = Ok (i', s) /\ first_from (bit l) (i + 1) bits i'.
Proof.
  intros Hi. destruct (find_next_ok s b bits l Hat bits (i + 1)) as (i' & E & H); [lia|lia|].
  exists i'. split; [done|]. destruct (Z.leb_spec bits (i + 1)); [|done]. subst i'.
  split; [lia|]. split; [intros j Hj; lia|lia].
Qed.

Lemma pos_to_ord_ok pos : runs (bitmap_pos_to_ord b pos bits) s (fun r s' => s' = s /\ r = ord_of pos).
Proof.
  unfold bitmap_pos_to_ord, ord_of. destruct (Z.ltb_spec pos 0) as [Hp|Hp]; cbn [orb].
  { wp. by rewrite (proj2 (Z.leb_gt 0 pos)). }
  rewrite (proj2 (Z.leb_le 0 pos)) by done. cbn [andb]. destruct (Z.leb_spec bits pos) as [Hb|Hb].
  { wp. by rewrite (proj2 (Z.ltb_ge pos bits)). }
  rewrite (proj2 (Z.ltb_lt pos bits)) by done. cbn [andb]. wp.
  eapply runs_ok; [apply (test_bit_ok s b bits l); (done || lia)|]. destruct (bit l pos) eqn:Eb; cbn [negb]; [|by wp]. wp.
  destruct (find_first_ok s b bits l Hat bits ltac:(lia)) as (i & E & Hi & Hn & Hset). apply (runs_ok _ _ _ _ _ E). wp.
  eapply runs_mono.
  - apply (runs_loop _ (fun '(i, ord) s' => s' = s /\ 0 <= i <= pos /\ ord = count (bit l) i /\ bit l i = true)
      (fun '(i, _) _ => Z.to_nat (bits - i)) (fun '(i, ord) s' => s' = s /\ i = pos /\ ord = count (bit l) pos)).
    + clear i E Hi Hn Hset. intros [i ord] ? (-> & Hi & -> & Hb'). destruct (Z.ltb_spec i pos); wp.
      * destruct (next_after i) as (i' & E & Hi' & Hn & Hset); [lia|]. apply (runs_ok _ _ _ _ _ E). wp.
        assert (i' <= pos).
        { destruct (Z.le_gt_cases i' pos); [done|]. rewrite Hn in Eb by lia. done. }
        split; [|lia]. split_and!; [done|lia|lia| |apply Hset; lia].
        rewrite (count_skip _ (i + 1) i'), count_succ by (done || lia). done.
      * assert (i = pos) by lia. by subst.
    + assert (i <= pos). { destruct (Z.le_gt_cases i pos); [done|]. rewrite Hn in Eb by lia. done. }
      split_and!; [done|lia|lia| |apply Hset; lia]. rewrite (count_skip _ 0 i) by (done || lia). done.
    + lia.
  - cbv beta. intros [i' ord] ? (-> & -> & ->). rewrite Z.eqb_refl. by wp.
Qed.

Lemma ord_to_pos_ok ord : 0 <= ord -> runs (bitmap_ord_to_pos b ord bits) s (fun r s' => s' = s /\ r = pos_of ord).
Proof.
  intros Ho. unfold bitmap_ord_to_pos, pos_of. rewrite (proj2 (Z.leb_le 0 ord)) by done. cbn [andb].
  destruct (Z.ltb_spec ord bits).
  2:{ wp. split; [done|]. rewrite lookup_ge_None_2; [done|]. pose proof (count_le (bit l) bits ltac:(lia)) as Hc.
      unfold count in Hc. lia. }
  wp. destruct (find_first_ok s b bits l Hat bits ltac:(lia)) as (i & E & Hi & Hn & Hset). apply (runs_ok _ _ _ _ _ E). wp.
  eapply runs_mono.
  - apply (runs_loop _ (fun '(i, o) s' => s' = s /\ 0 <= i <= bits /\ 0 <= o /\ o + count (bit l) i = ord /\
        (i < bits -> bit l i = true))
      (fun '(i, _) _ => Z.to_nat (bits - i)) (fun '(i, o) s' => s' = s /\ 0 <= i <= bits /\ 0 <= o /\
        o + count (bit l) i = ord /\ (i < bits -> bit l i = true /\ o = 0))).
    + clear i E Hi Hn Hset. intros [i o] ? (-> & Hi & Ho' & Ho2 & Hb). destruct (Z.ltb_spec i bits); cbn [andb].
      * destruct (Z.ltb_spec 0 o); wp.
        -- destruct (next_after i) as (i' & E & Hi' & Hn & Hset); [lia|]. apply (runs_ok _ _ _ _ _ E). wp.
           split; [|lia]. split_and!; [done|lia|lia|lia| |done].
           rewrite (count_skip _ (i + 1) i'), count_succ by (auto || lia). lia.
        -- split_and!; try done; try lia. intros. split; [auto|lia].
      * wp. split_and!; (done || lia).
    + split_and!; [done|lia|lia|lia| |done]. rewrite (count_skip _ 0 i) by (done || lia). rewrite count_0. lia.
    + lia.
  - cbv beta. intros [i' o] ? (-> & Hi' & Ho' & Ho2 & Hb). wp. split; [done|]. destruct (Z.ltb_spec i' bits); cbn [andb].
    + destruct Hb as [Hb ->]; [done|]. cbn [Z.eqb]. rewrite Z.add_0_l in Ho2. subst ord.
      by rewrite ones_lookup by (done || lia).
    + assert (i' = bits) as -> by lia. rewrite lookup_ge_None_2; [done|]. unfold count in Ho2. lia.
Qed.
End Read.

(** ** Loops over set bits *)

(** [I p acc s]: the set bits below [p] have been visited. *)
Lemma each_bit_runs {A} (I : Z -> A -> store -> Prop) b bits l acc s body :
  0 < bits ->
  (forall p acc s, I p acc s -> bitmap_at s b bits l) ->
  (forall p q acc s, I p acc s -> 0 <= p <= q -> q <= bits -> none_in (bit l) p q -> I q acc s) ->
  (forall i acc s, I i acc s -> 0 <= i < bits -> bit l i = true -> runs (body i acc) s (I (i + 1))) ->
  I 0 acc s -> runs (each_bit b bits acc body) s (I bits).
Proof.
  intros Hbits Hat Hskip Hb H0. unfold each_bit. apply runs_bind.
  destruct (find_first_ok s b bits l (Hat _ _ _ H0) bits ltac:(lia)) as (i & E & Hi & Hn & Hset).
  apply (runs_ok _ _ _ _ _ E).
  apply (runs_loop _ (fun '(i, acc) s => I i acc s /\ 0 <= i <= bits /\ (i < bits -> bit l i = true))
    (fun '(i, _) _ => Z.to_nat (bits - i))).
  - clear i E Hi Hn Hset acc s H0. intros [i acc] s (HI & Hi & Hset). destruct (Z.ltb_spec i bits); wp.
    + eapply runs_mono; [apply Hb; [done|lia|auto]|]. intros acc' s' HI'. apply runs_bind.
      destruct (next_after s' b bits l Hbits (Hat _ _ _ HI') i) as (i' & E & Hi' & Hn & Hset'); [lia|].
      apply (runs_ok _ _ _ _ _ E). wp. split; [|lia]. split; [|split; [lia|done]].
      by apply (Hskip (i + 1)); try lia.
    + by replace bits with i by lia.
  - split; [by apply (Hskip 0); try lia|]. split; [lia|done].
  - lia.
Qed.

(** The bits of [dst] are [g], the other arrays those of [s]. *)
Definition dst_bits (s : store) (dst : Z) (n : nat) (g : Z -> bool) (s' : store) : Prop :=
  exists l', s' = <[dst := l']> s /\ length l' = n /\ Forall is_word l' /\ forall i, 0 <= i -> bit l' i = g i.

Lemma dst_bits_ext s dst n g g' s' :
  (forall i, 0 <= i -> g i = g' i) -> dst_bits s dst n g s' -> dst_bits s dst n g' s'.
Proof.
  intros E (l' & -> & Hl & Hw & Hg). exists l'. split_and!; try done. intros i Hi. by rewrite Hg, E.
Qed.

Lemma set_bit_runs s dst n g s' i :
  dst_bits s dst n g s' -> 0 <= i < 64 * Z.of_nat n ->
  runs (set_bit i dst) s' (fun _ s'' => dst_bits s dst n (fun j => g j || (j =? i)) s'').
Proof.
  intros (l' & -> & <- & Hw & Hg) Hi. destruct (index_split i) as [Ei Hj]. unfold set_bit, BITS_PER_LONG. wp.
  eapply runs_ok; [apply (word_ok _ dst l'); [apply lookup_insert_eq|lia]|].
  set (w := Z.lor _ _). exists tt, (<[dst := <[Z.to_nat (i / 64) := w]> l']> s).
  unfold put_word. rewrite lookup_insert_eq, zset_lt, insert_insert_eq by lia. split; [done|].
  exists (<[Z.to_nat (i / 64) := w]> l'). split; [done|]. split; [apply length_insert|].
  assert (Hww : is_word w) by (subst w; apply word_lor; [by apply wat_word|apply word_shl]).
  split; [by apply Forall_insert|]. intros j Hj0. rewrite <-Hg by done. destruct (index_split j) as [Ej Hjj].
  assert (0 <= j / 64) by (apply Z.div_pos; lia). unfold bit, wat. destruct (decide (j / 64 = i / 64)) as [E|E].
  - rewrite E, list_lookup_insert_eq by lia. cbn. subst w. rewrite Z.lor_spec, bit_one by lia. unfold wat. f_equal.
    destruct (Z.eqb_spec (j mod 64) (i mod 64)), (Z.eqb_spec j i); (done || lia).
  - rewrite list_lookup_insert_ne by lia. rewrite (proj2 (Z.eqb_neq j i)), orb_false_r by congruence. done.
Qed.

Lemma zero_dst s dst bits l :
  0 < bits -> bitmap_at s dst bits l ->
  runs (bitmap_zero false dst bits) s (fun _ s' =>
    dst_bits s dst (length l) (fun i => (64 * BITS_TO_LONGS bits <=? i) && bit l i) s').
Proof.
  intros Hb Hd. eapply runs_mono; [by eapply zero_ok|]. cbv beta. intros _ s' (l' & -> & Hl & Hw & Hlow & Hhigh).
  exists l'. split_and!; try done. intros i Hi. destruct (Z.leb_spec (64 * BITS_TO_LONGS bits) i).
  - by rewrite Hhigh.
  - by rewrite Hlow.
Qed.

(** Indices of other arrays. *)
Lemma dst_bits_at s dst n g s' b bits l :
  dst_bits s dst n g s' -> b <> dst -> bitmap_at s b bits l -> bitmap_at s' b bits l.
Proof. intros (l' & -> & _) Hne [H1 H2 H3]. split; try done. by rewrite lookup_insert_ne. Qed.

(** What is set so far: the images under [f] of the set bits below [p]. *)
Definition image (P : Z -> bool) (f : Z -> Z) (p j : Z) : bool := any (fun i => P i && (f i =? j)) p.

Lemma any_split P m n : 0 <= m <= n -> any P n = any P m || any (fun i => P (m + i)) (n - m).
Proof.
  intros Hm. symmetry. apply any_iff. rewrite orb_true_iff, !any_spec. split.
  - intros [(i & Hi & H)|(i & Hi & H)]; [exists i|exists (m + i)]; (split; [lia|done]).
  - intros (i & Hi & H). destruct (Z.lt_ge_cases i m); [left; exists i; split; [lia|done]|].
    right. exists (i - m). split; [lia|]. by replace (m + (i - m)) with i by lia.
Qed.

Lemma image_skip P f p q j : 0 <= p <= q -> none_in P p q -> image P f q j = image P f p j.
Proof.
  intros Hp Hn. unfold image. rewrite (any_split _ p q) by done. destruct (any _ p); [done|]. cbn [orb].
  apply not_true_is_false. intros (i & Hi & H)%any_spec. rewrite Hn in H by lia. done.
Qed.

Lemma image_step P f i j : 0 <= i -> P i = true -> image P f (i + 1) j = image P f i j || (j =? f i).
Proof.
  intros Hi HP. unfold image. rewrite (any_split _ i (i + 1)) by lia. f_equal.
  replace (i + 1 - i) with 1 by lia. unfold any. change (seqZ 0 1) with [0]. cbn [existsb]. rewrite Z.add_0_r, HP, orb_false_r.
  cbn [andb]. apply Z.eqb_sym.
Qed.

Section Maps.
  Context (s : store) (dst b1 b2 b3 bits : Z) (l l1 l2 l3 : list Z) (Hbits : 0 < bits).
  Context (Hd : bitmap_at s dst bits l).
  Context (H1 : bitmap_at s b1 bits l1) (H2 : bitmap_at s b2 bits l2) (H3 : bitmap_at s b3 bits l3).
  Context (N1 : b1 <> dst) (N2 : b2 <> dst) (N3 : b3 <> dst).

Local Abbreviation nr := (BITS_TO_LONGS bits).

(** Where [old] and [new] send a position. *)
Definition remap_of (i : Z) : Z :=
  let n := ord_of bits l2 i in
  let w := count (bit l3) bits in
  if (n <? 0) || (w =? 0) then i else pos_of bits l3 (n mod w).

Lemma ord_cases i :
  (ord_of bits l2 i = -1) \/ (0 <= i < bits /\ bit l2 i = true /\ ord_of bits l2 i = count (bit l2) i).
Proof.
  unfold ord_of. destruct (Z.leb_spec 0 i), (Z.ltb_spec i bits), (bit l2 i) eqn:E; cbn [andb]; auto. 
Qed.

Lemma ord_of_low i : -1 <= ord_of bits l2 i.
Proof. destruct (ord_cases i) as [->|(_ & _ & ->)]; [done|]. pose proof (count_nonneg (bit l2) i). lia. Qed.

Lemma pos_of_range ord : 0 <= pos_of bits l3 ord < bits.
Proof.
  unfold pos_of. destruct (ones (bit l3) bits !! Z.to_nat ord) as [i|] eqn:E; cbn; [|lia].
  apply list_elem_of_lookup_2, ones_spec in E. lia.
Qed.

Lemma remap_range i : 0 <= i < bits -> 0 <= remap_of i < bits.
Proof. intros Hi. unfold remap_of. destruct (_ || _); [done|apply pos_of_range]. Qed.

Lemma bitremap_ok i : runs (bitmap_bitremap i b2 b3 bits) s (fun r s' => s' = s /\ r = remap_of i).
Proof.
  unfold bitmap_bitremap, remap_of. wp.
  eapply runs_mono; [by apply (weight_ok s bits b3 l3)|]. cbv beta. intros w ? [-> ->]. wp.
  eapply runs_mono; [by apply (pos_to_ord_ok s b2 bits l2)|]. cbv beta. intros n ? [-> ->].
  pose proof (ord_of_low i). destruct (Z.ltb_spec (ord_of bits l2 i) 0); cbn [orb]; [by wp|].
  destruct (Z.eqb_spec (count (bit l3) bits) 0); [by wp|]. apply ord_to_pos_ok; try done.
  apply Z.mod_pos_bound. pose proof (count_nonneg (bit l3) bits). lia.
Qed.

(** The bits written so far, and those past the bitmap. *)
Definition so_far (g : Z -> bool) (i : Z) : bool := (64 * nr <=? i) && bit l i || g i.

Lemma dst_len : bits <= 64 * Z.of_nat (length l).
Proof. apply Hd. Qed.

Lemma so_far_step s' g g' i :
  dst_bits s dst (length l) (so_far g) s' -> 0 <= i < bits -> (forall j, 0 <= j -> g' j = g j || (j =? i)) ->
  runs (set_bit i dst) s' (fun _ s'' => dst_bits s dst (length l) (so_far g') s'').
Proof.
  intros Hs Hi Hg. pose proof dst_len. eapply runs_mono; [by apply (set_bit_runs s dst (length l) (so_far g)); try lia|].
  cbv beta. intros _ s''. apply dst_bits_ext. intros j Hj. unfold so_far. by rewrite Hg, orb_assoc.
Qed.

Lemma so_far_ext s' g g' :
  (forall j, 0 <= j -> g j = g' j) -> dst_bits s dst (length l) (so_far g) s' -> dst_bits s dst (length l) (so_far g') s'.
Proof. intros E. apply dst_bits_ext. intros j Hj. unfold so_far. by rewrite E. Qed.

Lemma so_far_start g s' :
  (forall j, 0 <= j -> g j = false) ->
  dst_bits s dst (length l) (fun i => (64 * nr <=? i) && bit l i) s' -> dst_bits s dst (length l) (so_far g) s'.
Proof. intros Hg. apply dst_bits_ext. intros i Hi. unfold so_far. by rewrite Hg, orb_false_r by done. Qed.

Lemma so_far_gives g s' :
  (forall j, bits <= j -> g j = false) -> dst_bits s dst (length l) (so_far g) s' -> gives s dst l (64 * nr) g s'.
Proof.
  intros Hg (l' & -> & Hl & Hw & Hb). pose proof (longs bits Hbits) as Hn. cbv zeta in Hn.
  exists l'. split_and!; try done; intros i Hi; rewrite Hb by lia; unfold so_far.
  - by rewrite (proj2 (Z.leb_gt _ _)) by lia.
  - rewrite (proj2 (Z.leb_le _ _)), Hg by lia. apply orb_false_r.
Qed.

(** A loop that sets the image of each set bit. *)
Lemma image_runs (f : Z -> Z) body s0 :
  (forall i, 0 <= i < bits -> 0 <= f i < bits) ->
  (forall i s', 0 <= i < bits -> bit l1 i = true ->
    (forall b lb, b <> dst -> bitmap_at s b bits lb -> bitmap_at s' b bits lb) ->
    forall Q, runs (set_bit (f i) dst) s' Q -> runs (body i tt) s' Q) ->
  dst_bits s dst (length l) (fun i => (64 * nr <=? i) && bit l i) s0 ->
  runs (each_bit b1 bits tt body) s0 (fun _ s' => gives s dst l (64 * nr) (image (bit l1) f bits) s').
Proof.
  intros Hf Hbody Hs0. eapply runs_mono.
  - apply (each_bit_runs (fun p _ s' => dst_bits s dst (length l) (so_far (image (bit l1) f p)) s') b1 bits l1); [done| | | |].
    + intros p _ s' Hs'. by eapply dst_bits_at.
    + intros p q _ s' Hs' Hp Hq Hn. eapply so_far_ext; [|exact Hs']. intros j Hj. symmetry. apply image_skip; [lia|done].
    + intros i [] s' Hs' Hi Hb. apply Hbody; try done.
      * intros b lb Hne Hat. by eapply dst_bits_at.
      * apply (so_far_step s' (image (bit l1) f i)); [done|by apply Hf|]. intros j Hj. apply image_step; [lia|done].
    + by apply so_far_start.
  - cbv beta. intros _ s'. apply so_far_gives. intros j Hj. apply not_true_is_false.
    intros (i & Hi & [_ E%Z.eqb_eq]%andb_true_iff)%any_spec. specialize (Hf i Hi). lia.
Qed.

Lemma remap_ok :
  runs (bitmap_remap dst b1 b2 b3 bits) s (fun _ s' => gives s dst l (64 * nr) (image (bit l1) remap_of bits) s').
Proof.
  unfold bitmap_remap. rewrite (proj2 (Z.eqb_neq dst b1)) by done. apply runs_bind.
  eapply runs_mono; [by apply zero_dst|]. cbv beta. intros _ s0 Hs0. apply runs_bind.
  eapply runs_mono; [apply (weight_ok s0 bits b3 l3); [done|by eapply dst_bits_at]|]. cbv beta. intros w ? [-> ->].
  apply image_runs; [apply remap_range| |done]. intros i s' Hi Hb Hat Q HQ. apply runs_bind.
  eapply runs_mono; [by apply (pos_to_ord_ok s' b2 bits l2); auto|]. cbv beta. intros n ? [-> ->].
  unfold remap_of in HQ. pose proof (ord_of_low i). destruct (Z.ltb_spec (ord_of bits l2 i) 0); cbn [orb] in *; [done|].
  destruct (Z.eqb_spec (count (bit l3) bits) 0); [done|]. apply runs_bind.
  eapply runs_mono; [apply (ord_to_pos_ok s' b3 bits l3); auto|by cbv beta; intros p ? [-> ->]].
  apply Z.mod_pos_bound. pose proof (count_nonneg (bit l3) bits). lia.
Qed.

Lemma fold_ok sz :
  0 < sz -> runs (bitmap_fold dst b1 sz bits) s (fun _ s' =>
    gives s dst l (64 * nr) (image (bit l1) (fun i => i mod sz) bits) s').
Proof.
  intros Hsz. unfold bitmap_fold. rewrite (proj2 (Z.eqb_neq dst b1)) by done. apply runs_bind.
  eapply runs_mono; [by apply zero_dst|]. cbv beta. intros _ s0 Hs0.
  apply image_runs; [|intros; by rewrite (proj2 (Z.eqb_neq sz 0)) by lia|done].
  intros i Hi. pose proof (Z.mod_pos_bound i sz Hsz). pose proof (Z.mod_le i sz). lia.
Qed.

(** The set bits of [relmap] that [orig] selects by their number. *)
Definition onto_of (p j : Z) : bool := (j <? p) && bit l1 j && bit l2 (count (bit l1) j).

Lemma onto_step i j :
  0 <= i -> bit l1 i = true -> onto_of (i + 1) j = onto_of i j || (j =? i) && bit l2 (count (bit l1) i).
Proof.
  intros Hi Hb. unfold onto_of.
  destruct (Z.ltb_spec j (i + 1)), (Z.ltb_spec j i), (Z.eqb_spec j i) as [->|]; cbn [andb orb];
    rewrite ?Hb, ?orb_false_r; try done; lia.
Qed.

Lemma onto_ok :
  runs (bitmap_onto dst b2 b1 bits) s (fun _ s' => gives s dst l (64 * nr) (onto_of bits) s').
Proof.
  unfold bitmap_onto. rewrite (proj2 (Z.eqb_neq dst b2)) by done. apply runs_bind.
  eapply runs_mono; [by apply zero_dst|]. cbv beta. intros _ s0 Hs0. apply runs_bind. eapply runs_mono.
  - apply (each_bit_runs (fun p m s' => m = count (bit l1) p /\ dst_bits s dst (length l) (so_far (onto_of p)) s') b1 bits l1);
      [done| | | |].
    + intros p m s' [_ Hs']. by eapply dst_bits_at.
    + intros p q m s' [-> Hs'] Hp Hq Hn. split; [symmetry; by apply count_skip|].
      eapply so_far_ext; [|exact Hs']. intros j Hj. unfold onto_of.
      destruct (Z.ltb_spec j p), (Z.ltb_spec j q); cbn [andb]; try done; [lia|]. by rewrite Hn by lia.
    + intros i m s' [-> Hs'] Hi Hb. pose proof (count_lt (bit l1) i bits Hi Hb). pose proof (count_nonneg (bit l1) i).
      pose proof (count_le (bit l1) bits ltac:(lia)). apply runs_bind.
      eapply runs_ok; [apply (test_bit_ok s' b2 bits l2); [by eapply dst_bits_at|lia]|].
      pose proof (onto_step i) as Hstep. apply runs_bind. destruct (bit l2 (count (bit l1) i)) eqn:E.
      * eapply runs_mono; [apply (so_far_step s' (onto_of i) (onto_of (i + 1))); [done|done|]|].
        -- intros j Hj. rewrite Hstep by (done || lia). by rewrite andb_true_r.
        -- cbv beta. intros _ s'' Hs''. wp. split; [|done]. symmetry. apply count_succ; [lia|done].
      * wp. split; [symmetry; apply count_succ; [lia|done]|]. eapply so_far_ext; [|exact Hs'].
        intros j Hj. rewrite Hstep by (done || lia). by rewrite andb_false_r, orb_false_r.
    + split; [done|]. apply so_far_start; [|done]. intros j Hj. unfold onto_of. by rewrite (proj2 (Z.ltb_ge j 0)) by lia.
  - cbv beta. intros m s' [_ Hs']. wp. apply so_far_gives; [|done]. intros j Hj. unfold onto_of.
    by rewrite (proj2 (Z.ltb_ge j bits)) by lia.
Qed.

(** Position and number of a set bit determine each other. *)
Lemma ord_pos_inverse i : 0 <= i < bits -> bit l2 i = true -> pos_of bits l2 (ord_of bits l2 i) = i.
Proof.
  intros Hi Hb. destruct (ord_cases i) as [E|(_ & _ & ->)].
  - unfold ord_of in E. rewrite (proj2 (Z.leb_le 0 i)), (proj2 (Z.ltb_lt i bits)), Hb in E by lia. cbn in E.
    pose proof (count_nonneg (bit l2) i). lia.
  - unfold pos_of. by rewrite ones_lookup.
Qed.

(** C39: The mappings between bitmaps do what their comments define.  The
    number of a set bit and the position of the bit with a number are
    computed correctly and are inverse to each other; [bitmap_remap] sets
    exactly the images of the bits of the source under the map from the n-th
    bit of [old] to the bit n modulo the weight of [new], and
    [bitmap_bitremap] is that map; [bitmap_onto] keeps the bits of [relmap]
    whose numbers are in [orig]; [bitmap_fold] sets the bits of the source
    modulo the size.  All end without a fault, clear what was in the
    destination and change nothing else; with the source as destination
    nothing is changed. *)
Theorem bitmap_mappings_correct sz pos :
  0 < sz ->
  runs (bitmap_pos_to_ord b2 pos bits) s (fun r s' => s' = s /\ r = ord_of bits l2 pos) /\
  (0 <= pos -> runs (bitmap_ord_to_pos b2 pos bits) s (fun r s' => s' = s /\ r = pos_of bits l2 pos)) /\
  (0 <= pos < bits -> bit l2 pos = true -> pos_of bits l2 (ord_of bits l2 pos) = pos) /\
  runs (bitmap_bitremap pos b2 b3 bits) s (fun r s' => s' = s /\ r = remap_of pos) /\
  runs (bitmap_remap dst b1 b2 b3 bits) s (fun _ s' => gives s dst l (64 * nr) (image (bit l1) remap_of bits) s') /\
  runs (bitmap_onto dst b2 b1 bits) s (fun _ s' => gives s dst l (64 * nr) (onto_of bits) s') /\
  runs (bitmap_fold dst b1 sz bits) s (fun _ s' =>
    gives s dst l (64 * nr) (image (bit l1) (fun i => i mod sz) bits) s') /\
  runs (bitmap_remap dst dst b2 b3 bits) s (fun _ s' => s' = s).
Proof.
  intros Hsz. split; [by apply pos_to_ord_ok|]. split; [intros; by apply ord_to_pos_ok|].
  split; [apply ord_pos_inverse|]. split; [apply bitremap_ok|]. split; [apply remap_ok|]. split; [apply onto_ok|].
  split; [by apply fold_ok|]. unfold bitmap_remap. rewrite Z.eqb_refl. by wp.
Qed.
End Maps.

(** The example of the comment of [bitmap_onto]: the bits 0, 9, 18 and 27
    folded at 10, onto a bitmap of ten bits. *)
Definition onto_example : store := {[
  1 := [2 ^ 40 + 2 ^ 41 + 2 ^ 42 + 2 ^ 43 + 2 ^ 45 + 2 ^ 48 + 2 ^ 53 + 2 ^ 61; 2 ^ 10 + 2 ^ 31];
  2 := [2 ^ 0 + 2 ^ 9 + 2 ^ 18 + 2 ^ 27; 0]; 3 := [7; 7]; 4 := [0; 0]]}.

Lemma example_at b (l : list Z) :
  onto_example !! b = Some l -> forallb (fun w => (0 <=? w) && (w <? 2 ^ 64)) l = true -> length l = 2%nat ->
  bitmap_at onto_example b 96 l.
Proof.
  intros Hb Hf Hl. split; [done| |rewrite Hl; done]. rewrite forallb_forall in Hf.
  apply Forall_forall. intros w Hw%list_elem_of_In%Hf. apply andb_true_iff in Hw as [H1%Z.leb_le H2%Z.ltb_lt]. by split.
Qed.

Lemma bitmap_mappings_correct_witness :
  runs (bitmap_fold 3 2 10 96 ;;; bitmap_onto 4 3 1 96) onto_example (fun _ s' =>
    s' !! 4 = Some [2 ^ 40 + 2 ^ 61; 2 ^ 10 + 2 ^ 31]) /\
  runs (bitmap_pos_to_ord 1 48 96) onto_example (fun r _ => r = 5) /\
  runs (bitmap_fold 3 2 10 96) onto_example (fun _ s' =>
    gives onto_example 3 [7; 7] 128 (image (bit [2 ^ 0 + 2 ^ 9 + 2 ^ 18 + 2 ^ 27; 0]) (fun i => i mod 10) 96) s').
Proof.
  split; [eexists _, _; split; [vm_compute; reflexivity|vm_compute; reflexivity]|].
  split; [eexists _, _; split; [vm_compute; reflexivity|reflexivity]|].
  destruct (bitmap_mappings_correct onto_example 3 2 1 1 96 [7; 7] [2 ^ 0 + 2 ^ 9 + 2 ^ 18 + 2 ^ 27; 0]
    [2 ^ 40 + 2 ^ 41 + 2 ^ 42 + 2 ^ 43 + 2 ^ 45 + 2 ^ 48 + 2 ^ 53 + 2 ^ 61; 2 ^ 10 + 2 ^ 31]
    [2 ^ 40 + 2 ^ 41 + 2 ^ 42 + 2 ^ 43 + 2 ^ 45 + 2 ^ 48 + 2 ^ 53 + 2 ^ 61; 2 ^ 10 + 2 ^ 31] ltac:(lia)
    ltac:(by apply example_at) ltac:(by apply example_at) ltac:(by apply example_at) ltac:(by apply example_at)
    ltac:(done) ltac:(done) ltac:(done) 10 0 ltac:(lia)) as (_ & _ & _ & _ & _ & _ & H & _).
  exact H.
Defined.
