(* ===== verification/BitmapRegion.v ===== *)
(** Allocating aligned regions of a bitmap: [__reg_op] and the functions built
    on it in [lib/bitmap.c].

    A region is [2 ^ order] bits that begin at a multiple of their number. *)
From S2P Require Import Prelude Wp Bits Bitmap BitmapOps BitmapMap.

Inductive reg_op : Type := REG_OP_ISFREE | REG_OP_ALLOC | REG_OP_RELEASE.

Definition ENOMEM : Z := 12.
Definition EBUSY : Z := 16.

(** [1 << order] of an [int]. *)
Definition region_size (order : Z) : Z := Z.shiftl 1 order.

Definition region_mask (offset nbitsinlong : Z) : Z :=
  let mask := shl64 1 (nbitsinlong - 1) in
  let mask := u64 (mask + (mask - 1)) in
  shl64 mask offset.

Definition __reg_op (bitmap pos order : Z) (op : reg_op) : M store Z :=
  let nbits_reg := region_size order in
  let index := pos / BITS_PER_LONG in
  let offset := pos - index * BITS_PER_LONG in
  let nlongs_reg := BITS_TO_LONGS nbits_reg in
  let nbitsinlong := Z.min nbits_reg BITS_PER_LONG in
  let mask := region_mask offset nbitsinlong in
  match op with
  | REG_OP_ISFREE =>
      let! used := for_any (Z.to_nat nlongs_reg) 0 (fun i =>
        let! w := word bitmap (index + i) in ret (ctrue (Z.land w mask))) in
      ret (if (used : bool) then 0 else 1)
  | REG_OP_ALLOC =>
      for_acc (Z.to_nat nlongs_reg) 0 tt (fun i _ =>
        let! w := word bitmap (index + i) in put_word bitmap (index + i) (Z.lor w mask)) ;;;
      ret 0
  | REG_OP_RELEASE =>
      for_acc (Z.to_nat nlongs_reg) 0 tt (fun i _ =>
        let! w := word bitmap (index + i) in put_word bitmap (index + i) (Z.land w (not64 mask))) ;;;
      ret 0
  end.

(** The end of a region is an [int]: past [INT_MAX] it has no value. *)
Definition bitmap_find_free_region (bitmap bits order : Z) : M store Z :=
  loop (S (Z.to_nat bits)) (fun pos =>
    let end_ := pos + region_size order in
    if INT_MAX <? end_ then throw Undef
    else if end_ <=? bits then
      let! free := __reg_op bitmap pos order REG_OP_ISFREE in
      if free =? 0 then ret (inl end_)
      else __reg_op bitmap pos order REG_OP_ALLOC ;;; ret (inr pos)
    else ret (inr (- ENOMEM))) 0.

Definition bitmap_release_region (bitmap pos order : Z) : M store unit :=
  __reg_op bitmap pos order REG_OP_RELEASE ;;; ret tt.

Definition bitmap_allocate_region (bitmap pos order : Z) : M store Z :=
  let! free := __reg_op bitmap pos order REG_OP_ISFREE in
  if free =? 0 then ret (- EBUSY)
  else __reg_op bitmap pos order REG_OP_ALLOC ;;; ret 0.

(** ** The mask *)

Definition in_region (pos order i : Z) : bool := (pos <=? i) && (i <? pos + 2 ^ order).

Lemma region_size_ok order : 0 <= order -> region_size order = 2 ^ order.
Proof. intros H. unfold region_size. apply Z.shiftl_1_l. Qed.

Lemma low_ones n : 1 <= n <= 64 -> u64 (shl64 1 (n - 1) + (shl64 1 (n - 1) - 1)) = Z.ones n.
Proof.
  intros Hn. unfold shl64. rewrite Z.mod_small, Z.shiftl_1_l by lia.
  pose proof (Z.pow_pos_nonneg 2 (n - 1) ltac:(lia) ltac:(lia)).
  pose proof (Z.pow_le_mono_r 2 n 64 ltac:(lia) ltac:(lia)) as Hle.
  assert (E : 2 ^ n = 2 * 2 ^ (n - 1)) by (rewrite <-Z.pow_succ_r by lia; f_equal; lia).
  rewrite (uwrap_small 64 (2 ^ (n - 1))) by lia. rewrite uwrap_small, Z.ones_equiv by lia. lia.
Qed.

Lemma mask_bit offset n j :
  1 <= n <= 64 -> 0 <= offset < 64 -> 0 <= j < 64 ->
  Z.testbit (region_mask offset n) j = (offset <=? j) && (j <? offset + n).
Proof.
  intros Hn Ho Hj. unfold region_mask. rewrite low_ones, bit_shl by done. destruct (Z.leb_spec offset j); [|done].
  cbn [andb]. rewrite Z.testbit_ones by lia. rewrite (proj2 (Z.leb_le 0 _)) by lia. cbn [andb].
  destruct (Z.ltb_spec (j - offset) n), (Z.ltb_spec j (offset + n)); (done || lia).
Qed.

(** An aligned region inside one word, or made of whole words. *)
Lemma region_cases pos order :
  0 <= pos -> 0 <= order -> pos mod 2 ^ order = 0 ->
  (order <= 6 /\ pos mod 64 + 2 ^ order <= 64 /\ BITS_TO_LONGS (2 ^ order) = 1 /\ 2 ^ order <= 64) \/
  (6 <= order /\ pos mod 64 = 0 /\ 2 ^ order = 64 * BITS_TO_LONGS (2 ^ order) /\ 64 <= 2 ^ order).
Proof.
  intros Hp Ho Ha. pose proof (Z.mod_pos_bound pos 64 ltac:(lia)) as Hm.
  pose proof (Z.pow_pos_nonneg 2 order ltac:(lia) Ho) as Hpos. set (n := 2 ^ order) in *.
  destruct (Z.le_gt_cases order 6) as [Hle|Hgt]; [left|right].
  - assert (E : 64 = 2 ^ (6 - order) * n) by (subst n; rewrite <-Z.pow_add_r by lia; by replace (6 - order + order) with 6 by lia).
    assert (Hn : n <= 64) by (pose proof (Z.pow_pos_nonneg 2 (6 - order)); nia).
    split; [done|]. split; [|split; [|done]].
    + assert (Hd : (pos mod 64) mod n = 0).
      { rewrite E, Z.mul_comm. rewrite Z.rem_mul_r by lia. rewrite Ha, Z.add_0_l, Z.mul_comm. apply Z.mod_mul. lia. }
      apply Z.div_exact in Hd; [|lia]. set (q := pos mod 64 / n) in *.
      assert (q < 2 ^ (6 - order)) by nia. nia.
    + unfold BITS_TO_LONGS. rewrite <-(Z.div_unique (n + 63) 64 1 (n - 1)); lia.
  - assert (E : n = 64 * 2 ^ (order - 6)) by (subst n; change 64 with (2 ^ 6); rewrite <-Z.pow_add_r by lia; f_equal; lia).
    pose proof (Z.pow_pos_nonneg 2 (order - 6) ltac:(lia) ltac:(lia)). set (m := 2 ^ (order - 6)) in *.
    split; [lia|]. split; [|split; [|lia]].
    + apply Z.div_exact in Ha; [|lia]. rewrite Ha, E. replace (64 * m * (pos / (64 * m))) with (m * (pos / (64 * m)) * 64) by ring.
      by rewrite Z.mod_mul.
    + unfold BITS_TO_LONGS. rewrite E. rewrite <-(Z.div_unique (64 * m + 63) 64 m 63); lia.
Qed.

Lemma region_word pos order i j :
  0 <= pos -> 0 <= order -> pos mod 2 ^ order = 0 -> 0 <= i < BITS_TO_LONGS (2 ^ order) -> 0 <= j < 64 ->
  Z.testbit (region_mask (pos - pos / 64 * 64) (Z.min (2 ^ order) 64)) j = in_region pos order (64 * (pos / 64 + i) + j).
Proof.
  intros Hp Ho Ha Hi Hj. destruct (index_split pos) as [Ep Hm].
  pose proof (Z.pow_pos_nonneg 2 order ltac:(lia) Ho). replace (pos - pos / 64 * 64) with (pos mod 64) by lia.
  rewrite mask_bit by lia. unfold in_region.
  destruct (region_cases pos order Hp Ho Ha) as [(H1 & H2 & H3 & H4)|(H1 & H2 & H3 & H4)].
  - assert (i = 0) as -> by lia. rewrite Z.min_l by lia.
    destruct (Z.leb_spec (pos mod 64) j), (Z.ltb_spec j (pos mod 64 + 2 ^ order)),
      (Z.leb_spec pos (64 * (pos / 64 + 0) + j)), (Z.ltb_spec (64 * (pos / 64 + 0) + j) (pos + 2 ^ order)); (done || lia).
  - rewrite Z.min_r by lia.
    destruct (Z.leb_spec (pos mod 64) j), (Z.ltb_spec j (pos mod 64 + 64)),
      (Z.leb_spec pos (64 * (pos / 64 + i) + j)), (Z.ltb_spec (64 * (pos / 64 + i) + j) (pos + 2 ^ order)); (done || lia).
Qed.

(** The words of the region hold all of it. *)
Lemma region_index pos order i :
  0 <= pos -> 0 <= order -> pos mod 2 ^ order = 0 -> in_region pos order i = true ->
  pos / 64 <= i / 64 < pos / 64 + BITS_TO_LONGS (2 ^ order).
Proof.
  intros Hp Ho Ha [H1%Z.leb_le H2%Z.ltb_lt]%andb_true_iff. destruct (index_split pos) as [E1 E1'], (index_split i) as [E2 E2'].
  destruct (region_cases pos order Hp Ho Ha) as [(H3 & H4 & H5 & H6)|(H3 & H4 & H5 & H6)]; lia.
Qed.

(** ** The operations *)

Section Region.
  Context (s : store) (b n : Z) (l : list Z) (Hat : bitmap_at s b n l).
  Context (pos order : Z) (Hpos : 0 <= pos) (Hord : 0 <= order) (Hal : pos mod 2 ^ order = 0) (Hin : pos + 2 ^ order <= n).

Local Abbreviation index := (pos / 64).
Local Abbreviation nlongs := (BITS_TO_LONGS (2 ^ order)).
Local Abbreviation mask := (region_mask (pos - pos / 64 * 64) (Z.min (2 ^ order) 64)).

Lemma region_fits : 0 <= index /\ 1 <= nlongs /\ index + nlongs <= Z.of_nat (length l).
Proof.
  pose proof (at_len _ _ _ _ Hat). pose proof (Z.pow_pos_nonneg 2 order ltac:(lia) Hord). destruct (index_split pos) as [E1 E2].
  assert (0 <= pos / 64) by (apply Z.div_pos; lia).
  destruct (region_cases pos order Hpos Hord Hal) as [(H3 & H4 & H5 & H6)|(H3 & H4 & H5 & H6)]; lia.
Qed.

(** Some bit of the region is set. *)
Definition used : bool := any (fun i => in_region pos order i && bit l i) n.

Lemma used_spec : used = true <-> exists i, in_region pos order i = true /\ bit l i = true.
Proof.
  unfold used. rewrite any_spec. split.
  - intros (i & _ & H%andb_true_iff). by exists i.
  - intros (i & Hr & Hb). exists i. rewrite Hr, Hb. split; [|done].
    apply andb_true_iff in Hr as [H1%Z.leb_le H2%Z.ltb_lt]. lia.
Qed.

Lemma isfree_ok : runs (__reg_op b pos order REG_OP_ISFREE) s (fun r s' => s' = s /\ r = if used then 0 else 1).
Proof.
  pose proof region_fits. unfold __reg_op, BITS_PER_LONG. rewrite region_size_ok by done. wp.
  eapply runs_mono; [apply (for_any_runs (fun i => ctrue (Z.land (wat l (index + i)) mask)))|].
  - intros i Hi. by erewrite bind_ok by (apply (word_ok s b l); [apply Hat|lia]).
  - cbv beta. intros r ? [-> Hr]. wp. split; [done|]. replace used with r; [done|]. apply eq_iff_eq_true.
    rewrite Hr, used_spec, Z2Nat.id by lia. split.
    + intros (i & Hi & (j & Hj & Hb)%word_nonzero); [|apply word_land, wat_word, Hat].
      rewrite Z.land_spec, (region_word pos order i), andb_true_iff in Hb by (done || lia).
      exists (64 * (index + i) + j). rewrite bit_at by done. tauto.
    + intros (i & Hr' & Hb). pose proof (region_index pos order i Hpos Hord Hal Hr'). destruct (index_split i) as [Ei Hj].
      exists (i / 64 - index). split; [lia|]. apply word_nonzero; [apply word_land, wat_word, Hat|].
      exists (i mod 64). split; [done|]. rewrite Z.land_spec, (region_word pos order (i / 64 - index)) by (done || lia).
      replace (index + (i / 64 - index)) with (i / 64) by lia. by rewrite <-Ei, Hr', andb_true_r.
Qed.

(** Setting or clearing the region. *)
Lemma region_update (F : Z -> Z) (c : bool) :
  (forall w, is_word w -> is_word (F w)) ->
  (forall w j, 0 <= j < 64 -> Z.testbit (F w) j = if Z.testbit mask j then c else Z.testbit w j) ->
  runs (for_acc (Z.to_nat nlongs) 0 tt (fun i _ => let! w := word b (index + i) in put_word b (index + i) (F w))) s
    (fun _ s' => dst_bits s b (length l) (fun i => if in_region pos order i then c else bit l i) s').
Proof.
  intros HF Hbit. pose proof region_fits.
  set (f := fun i k => if (index <=? k) && (k <? index + i) then F (wat l k) else wat l k).
  eapply runs_mono; [apply (for_acc_runs (fun i _ s' => holds s b (Z.of_nat (length l)) (f i) s'))|].
  - intros i [] s' Hi Hh. wp. eapply runs_ok; [apply (holds_read_dst s b _ (f i) s' (index + i) Hh); lia|].
    replace (f i (index + i)) with (wat l (index + i)) by (unfold f; by rewrite (proj2 (Z.ltb_ge _ _)), andb_false_r by lia).
    eapply holds_put; [exact Hh|lia|apply HF, wat_word, Hat|]. intros s'' Hh'. eapply holds_ext; [|exact Hh'].
    intros k Hk. unfold f. cbv beta.
    destruct (Z.eqb_spec k (index + i)), (Z.leb_spec index k), (Z.ltb_spec k (index + i)), (Z.ltb_spec k (index + (i + 1)));
      cbn [andb]; (done || lia || congruence).
  - eapply holds_ext; [|apply holds_start; apply Hat]. intros k Hk. unfold f.
    destruct (Z.leb_spec index k), (Z.ltb_spec k (index + 0)); (done || lia).
  - cbv beta. rewrite Z2Nat.id, Z.add_0_l by lia. intros _ s' (l' & -> & Hl & Hw & Hf). exists l'. split; [done|].
    split; [lia|]. split; [done|]. intros i Hi. destruct (index_split i) as [Ei Hj]. assert (0 <= i / 64) by (apply Z.div_pos; lia).
    unfold bit. destruct (Z.lt_ge_cases (i / 64) (Z.of_nat (length l))).
    + rewrite Hf by lia. unfold f. destruct (in_region pos order i) eqn:Er.
      * pose proof (region_index pos order i Hpos Hord Hal Er).
        rewrite (proj2 (Z.leb_le _ _)), (proj2 (Z.ltb_lt _ _)) by lia. cbn [andb]. rewrite Hbit by done.
        rewrite (region_word pos order (i / 64 - index)) by (done || lia).
        replace (index + (i / 64 - index)) with (i / 64) by lia. by rewrite <-Ei, Er.
      * destruct (Z.leb_spec index (i / 64)), (Z.ltb_spec (i / 64) (index + nlongs)); cbn [andb]; try done.
        rewrite Hbit by done. rewrite (region_word pos order (i / 64 - index)) by (done || lia).
        replace (index + (i / 64 - index)) with (i / 64) by lia. by rewrite <-Ei, Er.
    + rewrite !wat_out by lia. destruct (in_region pos order i) eqn:Er; [|done].
      pose proof (region_index pos order i Hpos Hord Hal Er). lia.
Qed.

Lemma alloc_ok :
  runs (__reg_op b pos order REG_OP_ALLOC) s (fun r s' =>
    r = 0 /\ dst_bits s b (length l) (fun i => in_region pos order i || bit l i) s').
Proof.
  unfold __reg_op, BITS_PER_LONG. rewrite region_size_ok by done. apply runs_bind.
  eapply runs_mono; [apply (region_update (fun w => Z.lor w mask) true)|].
  - intros w Hw. apply word_lor; [done|apply word_shl].
  - intros w j Hj. rewrite Z.lor_spec, orb_comm. by destruct (Z.testbit mask j).
  - cbv beta. intros _ s' Hs'. wp. split; [done|]. eapply dst_bits_ext; [|exact Hs']. intros i Hi. cbv beta. by destruct (in_region pos order i).
Qed.

Lemma release_ok :
  runs (__reg_op b pos order REG_OP_RELEASE) s (fun r s' =>
    r = 0 /\ dst_bits s b (length l) (fun i => negb (in_region pos order i) && bit l i) s').
Proof.
  unfold __reg_op, BITS_PER_LONG. rewrite region_size_ok by done. apply runs_bind.
  eapply runs_mono; [apply (region_update (fun w => Z.land w (not64 mask)) false)|].
  - intros w Hw. by apply word_land.
  - intros w j Hj. rewrite Z.land_spec, bit_not, andb_comm by done. by destruct (Z.testbit mask j).
  - cbv beta. intros _ s' Hs'. wp. split; [done|]. eapply dst_bits_ext; [|exact Hs']. intros i Hi. cbv beta. by destruct (in_region pos order i).
Qed.
End Region.

(** An array with the same bits is the same array. *)
Lemma dst_bits_same s b n l s' :
  bitmap_at s b n l -> dst_bits s b (length l) (bit l) s' -> s' = s.
Proof.
  intros Hat (l' & -> & Hl & Hw & Hg). replace l' with l; [apply insert_id, Hat|].
  apply list_eq_same_length with (length l); [done|done|]. intros i x y Hi Hx Hy.
  pose proof (at_words _ _ _ _ Hat) as Hwl. rewrite Forall_lookup in Hw, Hwl.
  apply word_eq; [by eapply Hwl|by eapply Hw|]. intros j Hj.
  pose proof (Hg (64 * Z.of_nat i + j) ltac:(lia)) as E. rewrite !bit_at in E by done. unfold wat in E.
  rewrite Nat2Z.id in E. by rewrite Hx, Hy in E.
Qed.

Section Regions.
  Context (s : store) (b bits : Z) (l : list Z) (Hat : bitmap_at s b bits l).
  Context (order : Z) (Hord : 0 <= order) (Hbits : 0 <= bits) (Hmax : bits + 2 ^ order <= INT_MAX).

(** An aligned region of the bitmap. *)
Definition is_region (p : Z) : Prop := 0 <= p /\ p mod 2 ^ order = 0 /\ p + 2 ^ order <= bits.

(** The region at [p] was free and is now taken, nothing else changed. *)
Definition taken (p : Z) (s' : store) : Prop :=
  used bits l p order = false /\ dst_bits s b (length l) (fun i => in_region p order i || bit l i) s'.

Lemma aligned_next p q :
  p mod 2 ^ order = 0 -> q mod 2 ^ order = 0 -> p <= q < p + 2 ^ order -> q = p.
Proof.
  pose proof (Z.pow_pos_nonneg 2 order ltac:(lia) Hord) as Hn. intros Hp Hq Hr.
  apply Z.div_exact in Hp; [|lia]. apply Z.div_exact in Hq; [|lia]. set (n := 2 ^ order) in *.
  set (x := p / n) in *. set (y := q / n) in *. assert (x = y) as E; [|by rewrite Hp, Hq, E].
  destruct (Z.lt_trichotomy x y) as [H|[H|H]]; [|done|];
    [pose proof (Z.mul_le_mono_nonneg_l (x + 1) y n)|pose proof (Z.mul_le_mono_nonneg_l (y + 1) x n)]; lia.
Qed.

(** The round of the search at a region. *)
Lemma round_ok p :
  is_region p ->
  runs (let! free := __reg_op b p order REG_OP_ISFREE in
        if free =? 0 then ret (inl (p + 2 ^ order))
        else __reg_op b p order REG_OP_ALLOC ;;; ret (inr p)) s (fun x s' =>
    match x with
    | inl p' => p' = p + 2 ^ order /\ s' = s /\ used bits l p order = true
    | inr r => r = p /\ taken p s'
    end).
Proof.
  intros (Hp & Ha & Hi). apply runs_bind. eapply runs_mono; [by apply (isfree_ok s b bits l)|].
  cbv beta. intros r ? [-> ->]. destruct (used bits l p order) eqn:Eu; cbn [Z.eqb]; wp; [done|].
  eapply runs_mono; [by apply (alloc_ok s b bits l)|]. cbv beta. intros ? s' [-> Hs']. wp. done.
Qed.

Lemma find_free_ok :
  runs (bitmap_find_free_region b bits order) s (fun r s' =>
    (r = - ENOMEM /\ s' = s /\ forall p, is_region p -> used bits l p order = true) \/
    (is_region r /\ taken r s' /\ forall p, is_region p -> p < r -> used bits l p order = true)).
Proof.
  pose proof (Z.pow_pos_nonneg 2 order ltac:(lia) Hord) as Hpow. unfold bitmap_find_free_region. rewrite region_size_ok by done.
  apply (runs_loop _ (fun pos s' => s' = s /\ 0 <= pos <= bits /\ pos mod 2 ^ order = 0 /\
      forall p, is_region p -> p < pos -> used bits l p order = true)
    (fun pos _ => Z.to_nat (bits - pos))).
  - intros pos ? (-> & Hp & Ha & Hbefore). rewrite (proj2 (Z.ltb_ge _ _)) by lia.
    destruct (Z.leb_spec (pos + 2 ^ order) bits).
    + assert (Hreg : is_region pos) by (split_and!; (done || lia)).
      eapply runs_mono; [by apply round_ok|]. cbv beta. intros [p'|r] s'.
      * intros (-> & -> & Hu). split; [|lia]. split; [done|]. split; [lia|]. split.
        -- rewrite <-(Z.mul_1_l (2 ^ order)) at 1. by rewrite Z.mod_add by lia.
        -- intros p Hpr Hlt. destruct (Z.lt_ge_cases p pos); [by apply Hbefore|].
           by rewrite (aligned_next pos p); [|done|apply Hpr|lia].
      * intros [-> Ht]. right. done.
    + wp. left. split; [done|]. split; [done|]. intros p Hpr. apply Hbefore; [done|].
      destruct Hpr as (Hp0 & Hpa & Hpi). lia.
  - split; [done|]. split; [lia|]. split; [apply Z.mod_0_l; lia|]. intros p (Hp & _) Hlt. lia.
  - lia.
Qed.

Lemma free_again p s' :
  is_region p -> taken p s' -> runs (bitmap_release_region b p order) s' (fun _ s'' => s'' = s).
Proof.
  intros (Hp & Ha & Hi) [Hu (l' & -> & Hl & Hw & Hg)]. unfold bitmap_release_region. apply runs_bind.
  assert (Hat' : bitmap_at (<[b := l']> s) b bits l').
  { split; [apply lookup_insert_eq|done|]. rewrite Hl. apply Hat. }
  eapply runs_mono; [by apply (release_ok _ b bits l' Hat')|]. cbv beta. intros ? s'' [_ (l'' & -> & Hl'' & Hw'' & Hg'')]. wp.
  rewrite insert_insert_eq. eapply dst_bits_same; [exact Hat|]. exists l''. split; [done|]. split; [lia|]. split; [done|].
  intros i Hi0. rewrite Hg'', Hg by done. destruct (in_region p order i) eqn:E; [|done]. cbn [negb andb].
  symmetry. apply not_true_is_false. intros Hb. assert (used bits l p order = true); [|congruence].
  apply used_spec; try done. by exists i.
Qed.

Lemma allocate_ok p :
  is_region p ->
  runs (bitmap_allocate_region b p order) s (fun r s' =>
    (r = - EBUSY /\ s' = s /\ used bits l p order = true) \/ (r = 0 /\ taken p s')).
Proof.
  intros (Hp & Ha & Hi). unfold bitmap_allocate_region. apply runs_bind.
  eapply runs_mono; [by apply (isfree_ok s b bits l)|].
  cbv beta. intros r ? [-> ->]. destruct (used bits l p order) eqn:Eu; cbn [Z.eqb]; wp; [by left|].
  eapply runs_mono; [by apply (alloc_ok s b bits l)|]. cbv beta. intros ? s' [-> Hs']. wp. right. done.
Qed.

(** C40: Regions are allocated correctly.  [bitmap_find_free_region] takes
    the first free region of the size asked for, sets exactly its bits and returns
    its position, or returns [-ENOMEM] without a change when every region
    of that size has a bit set; [bitmap_allocate_region] takes the region named
    or returns [-EBUSY] without a change; and releasing a region that was
    taken restores the bitmap exactly. *)
Theorem bitmap_regions_correct p :
  is_region p ->
  runs (bitmap_find_free_region b bits order) s (fun r s' =>
    (r = - ENOMEM /\ s' = s /\ forall p, is_region p -> used bits l p order = true) \/
    (is_region r /\ taken r s' /\ (forall p, is_region p -> p < r -> used bits l p order = true) /\
     runs (bitmap_release_region b r order) s' (fun _ s'' => s'' = s))) /\
  runs (bitmap_allocate_region b p order) s (fun r s' =>
    (r = - EBUSY /\ s' = s /\ used bits l p order = true) \/
    (r = 0 /\ taken p s' /\ runs (bitmap_release_region b p order) s' (fun _ s'' => s'' = s))).
Proof.
  intros Hp. split.
  - eapply runs_mono; [apply find_free_ok|]. cbv beta. intros r s' [H|(Hr & Ht & Hf)]; [by left|]. right.
    split_and!; try done. by apply free_again.
  - eapply runs_mono; [by apply allocate_ok|]. cbv beta. intros r s' [H|(Hr & Ht)]; [by left|]. right.
    split_and!; try done. by apply free_again.
Qed.
End Regions.

Lemma bitmap_regions_correct_witness :
  let s : store := {[1 := [0x17; 0; 0]]} in
  runs (bitmap_find_free_region 1 192 3) s (fun r s' => r = 8 /\ s' !! 1 = Some [0xff17; 0; 0] /\
    runs (bitmap_release_region 1 r 3) s' (fun _ s'' => s'' = s)) /\
  runs (bitmap_find_free_region 1 192 6) s (fun r s' => r = 64 /\ s' !! 1 = Some [0x17; ones64; 0]).
Proof.
  intros s. assert (Hat : bitmap_at s 1 192 [0x17; 0; 0]) by (split; [done|repeat constructor; done|done]).
  split; [|eexists _, _; split; [vm_compute; reflexivity|done]].
  destruct (bitmap_regions_correct s 1 192 [0x17; 0; 0] Hat 3 ltac:(lia) ltac:(lia) ltac:(done) 0) as [(r & s' & E & HQ) _].
  { done. }
  exists r, s'. split; [exact E|]. vm_compute in E. injection E as <- <-. destruct HQ as [(H & _)|(_ & _ & _ & H)]; [done|].
  split; [reflexivity|]. split; [reflexivity|]. exact H.
Defined.
