(* ===== verification/Vfs.v ===== *)
(** Inodes and the changes of their attributes: [fs/attr.c], the inode parts of
    [include/linux/fs.h] and [include/linux/stat.h], [timespec_trunc] of
    [kernel/time.c] and [vmtruncate] of [mm/truncate.c].

    What these functions ask about the calling task is the interface
    [Subject]; [Task.v] shows that a task with the credentials of [Creds.v]
    and the supplementary groups of [Groups.v] provides it.  The two ACL
    pointers of an inode have the type [A]: addresses in the kernel, contents
    in the specification. *)
From S2P Require Import Prelude Creds PosixAcl.

(** ** The calling task *)

Class Subject (T : Type) := {
  current_fsuid : T -> Z;
  current_fsgid : T -> Z;
  current_umask : T -> Z;
  in_group_p : T -> Z -> bool;
  capable : T -> Z -> bool;
}.

(** What the interface promises: [in_group_p] decides membership in the groups
    of the task, and the umask has permission bits only. *)
Class SubjectLaws (T : Type) `{Subject T} := {
  subject_ok : T -> Prop;
  subject_groups : T -> list Z;
  subject_umask : forall t, subject_ok t -> 0 <= current_umask t < 512;
  in_group_p_spec : forall t g, subject_ok t -> in_group_p t g = bool_decide (g ∈ subject_groups t);
}.

(** ** Modes *)

Definition S_IFMT : Z := 61440.
Definition S_IFLNK : Z := 40960.
Definition S_IFREG : Z := 32768.
Definition S_IFBLK : Z := 24576.
Definition S_IFDIR : Z := 16384.
Definition S_IFCHR : Z := 8192.
Definition S_ISUID : Z := 2048.
Definition S_ISGID : Z := 1024.
Definition S_ISVTX : Z := 512.
Definition S_IXGRP : Z := 8.
Definition S_IXUGO : Z := 73.
Definition S_IALLUGO : Z := Z.lor S_ISUID (Z.lor S_ISGID (Z.lor S_ISVTX S_IRWXUGO)).

Definition is_type (t m : Z) : bool := Z.land m S_IFMT =? t.
Definition S_ISLNK (m : Z) : bool := is_type S_IFLNK m.
Definition S_ISREG (m : Z) : bool := is_type S_IFREG m.
Definition S_ISDIR (m : Z) : bool := is_type S_IFDIR m.
Definition S_ISCHR (m : Z) : bool := is_type S_IFCHR m.
Definition S_ISBLK (m : Z) : bool := is_type S_IFBLK m.

(** ** Inodes *)

Record super_block : Type := mk_sb { s_flags : Z; s_maxbytes : Z; s_time_gran : Z }.
Record timespec : Type := mk_ts { tv_sec : Z; tv_nsec : Z }.

Record inode {A : Type} : Type := mk_inode {
  i_mode : Z; i_uid : Z; i_gid : Z; i_rdev : Z;
  i_size : Z; i_atime : timespec; i_mtime : timespec; i_ctime : timespec;
  i_flags : Z; i_sb : super_block;
  i_acl : option A; i_default_acl : option A;
}.
Arguments inode : clear implicits.
Arguments mk_inode {A}.

Definition flag (flags f : Z) : bool := negb (Z.land flags f =? 0).

Definition MS_RDONLY : Z := 1.
Definition MS_POSIXACL : Z := 65536.
Definition S_APPEND : Z := 4.
Definition S_IMMUTABLE : Z := 8.
Definition S_SWAPFILE : Z := 256.

Section Inode.
  Context {A : Type}.
  Implicit Types i : inode A.

Definition IS_RDONLY i : bool := flag (s_flags (i_sb i)) MS_RDONLY.
Definition IS_POSIXACL i : bool := flag (s_flags (i_sb i)) MS_POSIXACL.
Definition IS_APPEND i : bool := flag (i_flags i) S_APPEND.
Definition IS_IMMUTABLE i : bool := flag (i_flags i) S_IMMUTABLE.
Definition IS_SWAPFILE i : bool := flag (i_flags i) S_SWAPFILE.

Definition set_mode (m : Z) i : inode A :=
  mk_inode m (i_uid i) (i_gid i) (i_rdev i) (i_size i) (i_atime i) (i_mtime i) (i_ctime i)
    (i_flags i) (i_sb i) (i_acl i) (i_default_acl i).
Definition set_owner (u g : Z) i : inode A :=
  mk_inode (i_mode i) u g (i_rdev i) (i_size i) (i_atime i) (i_mtime i) (i_ctime i)
    (i_flags i) (i_sb i) (i_acl i) (i_default_acl i).
Definition set_size (sz : Z) i : inode A :=
  mk_inode (i_mode i) (i_uid i) (i_gid i) (i_rdev i) sz (i_atime i) (i_mtime i) (i_ctime i)
    (i_flags i) (i_sb i) (i_acl i) (i_default_acl i).
Definition set_times (a m c : timespec) i : inode A :=
  mk_inode (i_mode i) (i_uid i) (i_gid i) (i_rdev i) (i_size i) a m c
    (i_flags i) (i_sb i) (i_acl i) (i_default_acl i).
Definition set_acls {B} (a d : option B) i : inode B :=
  mk_inode (i_mode i) (i_uid i) (i_gid i) (i_rdev i) (i_size i) (i_atime i) (i_mtime i) (i_ctime i)
    (i_flags i) (i_sb i) a d.

Definition execute_ok i : bool := flag (i_mode i) S_IXUGO || S_ISDIR (i_mode i).
End Inode.

(** ** Attribute changes *)

Definition ATTR_MODE : Z := 1.
Definition ATTR_UID : Z := 2.
Definition ATTR_GID : Z := 4.
Definition ATTR_SIZE : Z := 8.
Definition ATTR_ATIME : Z := 16.
Definition ATTR_MTIME : Z := 32.
Definition ATTR_CTIME : Z := 64.
Definition ATTR_ATIME_SET : Z := 128.
Definition ATTR_MTIME_SET : Z := 256.
Definition ATTR_FORCE : Z := 512.
Definition ATTR_KILL_SUID : Z := 2048.
Definition ATTR_KILL_SGID : Z := 4096.
Definition ATTR_KILL_PRIV : Z := 16384.
Definition ATTR_TIMES_SET : Z := 65536.

Definition EDQUOT : Z := 122.
Definition EFBIG : Z := 27.
Definition ETXTBSY : Z := 26.

Record iattr : Type := mk_iattr {
  ia_valid : Z; ia_mode : Z; ia_uid : Z; ia_gid : Z; ia_size : Z;
  ia_atime : timespec; ia_mtime : timespec; ia_ctime : timespec;
}.

Definition set_ia_valid (v : Z) (a : iattr) : iattr :=
  mk_iattr v (ia_mode a) (ia_uid a) (ia_gid a) (ia_size a) (ia_atime a) (ia_mtime a) (ia_ctime a).
Definition set_ia_mode (m : Z) (a : iattr) : iattr :=
  mk_iattr (ia_valid a) m (ia_uid a) (ia_gid a) (ia_size a) (ia_atime a) (ia_mtime a) (ia_ctime a).
Definition set_ia_times (at_ mt ct : timespec) (a : iattr) : iattr :=
  mk_iattr (ia_valid a) (ia_mode a) (ia_uid a) (ia_gid a) (ia_size a) at_ mt ct.

(** [CONFIG_HZ] of the x86-64 default configuration. *)
Definition HZ : Z := 1000.
Definition USEC_PER_SEC : Z := 1000000.
Definition jiffies_to_usecs (j : Z) : Z := u32 (USEC_PER_SEC / HZ * j).

Definition timespec_trunc (t : timespec) (gran : Z) : timespec :=
  if gran <=? u32 (jiffies_to_usecs 1 * 1000) then t
  else if gran =? 1000000000 then mk_ts (tv_sec t) 0
  else mk_ts (tv_sec t) (tv_nsec t - Z.rem (tv_nsec t) gran).

Definition RLIM_INFINITY : Z := 18446744073709551615.

(** The result, and whether [SIGXFSZ] is sent; [limit] is the task's
    [RLIMIT_FSIZE]. *)
Definition inode_newsize_ok {A} (limit : Z) (i : inode A) (offset : Z) : Z * bool :=
  if i_size i <? offset then
    if negb (limit =? RLIM_INFINITY) && (limit <? u64 offset) then (- EFBIG, true)
    else if s_maxbytes (i_sb i) <? offset then (- EFBIG, false)
    else (0, false)
  else if IS_SWAPFILE i then (- ETXTBSY, false) else (0, false).

(** The page cache is not part of the model. *)
Definition vmtruncate {A} (limit : Z) (i : inode A) (offset : Z) : Z * inode A :=
  let error := (inode_newsize_ok limit i offset).1 in
  if negb (error =? 0) then (error, i) else (error, set_size offset i).

Section Attr.
  Context {T : Type} `{Subject T} (cur : T) {A : Type}.
  Implicit Types i : inode A.

Definition is_owner_or_cap i : bool := (current_fsuid cur =? i_uid i) || capable cur CAP_FOWNER.

(** The result, and [*attr] afterwards. *)
Definition inode_change_ok i (attr : iattr) : Z * iattr :=
  let valid := flag (ia_valid attr) in
  if valid ATTR_FORCE then (0, attr)
  else if valid ATTR_UID &&
      (negb (current_fsuid cur =? i_uid i) || negb (ia_uid attr =? i_uid i)) && negb (capable cur CAP_CHOWN)
  then (- EPERM, attr)
  else if valid ATTR_GID &&
      (negb (current_fsuid cur =? i_uid i) ||
       (negb (in_group_p cur (ia_gid attr)) && negb (ia_gid attr =? i_gid i))) && negb (capable cur CAP_CHOWN)
  then (- EPERM, attr)
  else if valid ATTR_MODE && negb (is_owner_or_cap i) then (- EPERM, attr)
  else
    let attr :=
      if valid ATTR_MODE && negb (in_group_p cur (if valid ATTR_GID then ia_gid attr else i_gid i)) &&
         negb (capable cur CAP_FSETID)
      then set_ia_mode (Z.land (ia_mode attr) (Z.lnot S_ISGID)) attr else attr in
    if valid (Z.lor ATTR_MTIME_SET (Z.lor ATTR_ATIME_SET ATTR_TIMES_SET)) && negb (is_owner_or_cap i)
    then (- EPERM, attr) else (0, attr).

(** Marking the inode dirty is not part of the model. *)
Definition inode_setattr (limit : Z) i (attr : iattr) : Z * inode A :=
  let valid := flag (ia_valid attr) in
  let '(error, i) :=
    if valid ATTR_SIZE && negb (ia_size attr =? i_size i) then vmtruncate limit i (ia_size attr) else (0, i) in
  if negb (error =? 0) then (error, i)
  else
    let i := set_owner (if valid ATTR_UID then ia_uid attr else i_uid i)
                       (if valid ATTR_GID then ia_gid attr else i_gid i) i in
    let time f new old := if valid f then timespec_trunc new (s_time_gran (i_sb i)) else old in
    let i := set_times (time ATTR_ATIME (ia_atime attr) (i_atime i)) (time ATTR_MTIME (ia_mtime attr) (i_mtime i))
                       (time ATTR_CTIME (ia_ctime attr) (i_ctime i)) i in
    let i :=
      if valid ATTR_MODE then
        let mode := ia_mode attr in
        set_mode (if negb (in_group_p cur (i_gid i)) && negb (capable cur CAP_FSETID)
                  then Z.land mode (Z.lnot S_ISGID) else mode) i
      else i in
    (0, i).

(** The set-user-id and set-group-id bits in [notify_change]. *)
Definition kill_bits i (attr : iattr) : iattr :=
  let mode := i_mode i in
  let attr :=
    if flag (ia_valid attr) ATTR_KILL_SUID && flag mode S_ISUID
    then set_ia_mode (Z.land mode (Z.lnot S_ISUID)) (set_ia_valid (Z.lor (ia_valid attr) ATTR_MODE) attr)
    else attr in
  if flag (ia_valid attr) ATTR_KILL_SGID && (Z.land mode (Z.lor S_ISGID S_IXGRP) =? Z.lor S_ISGID S_IXGRP) then
    let attr :=
      if negb (flag (ia_valid attr) ATTR_MODE)
      then set_ia_mode mode (set_ia_valid (Z.lor (ia_valid attr) ATTR_MODE) attr) else attr in
    set_ia_mode (Z.land (ia_mode attr) (Z.lnot S_ISGID)) attr
  else attr.

(** [notify_change] up to the call of [setattr]: the new [*attr], or the value
    it returns early.  [now] is [current_kernel_time()]; [need_killpriv] and
    [killpriv] are what the hooks of the security module return. *)
Definition notify_prepare (now : timespec) (need_killpriv killpriv : Z) i (attr : iattr) : M unit (Z + iattr) :=
  let valid := flag (ia_valid attr) in
  if valid (Z.lor ATTR_MODE (Z.lor ATTR_UID (Z.lor ATTR_GID ATTR_TIMES_SET))) && (IS_IMMUTABLE i || IS_APPEND i)
  then ret (inl (- EPERM))
  else
    let now := timespec_trunc now (s_time_gran (i_sb i)) in
    let attr := set_ia_times (if valid ATTR_ATIME_SET then ia_atime attr else now)
                             (if valid ATTR_MTIME_SET then ia_mtime attr else now) now attr in
    let error := if valid ATTR_KILL_PRIV then if 0 <? need_killpriv then killpriv else need_killpriv else 0 in
    let attr :=
      if valid ATTR_KILL_PRIV
      then set_ia_valid (Z.land (ia_valid attr) (Z.lnot ATTR_KILL_PRIV)) attr else attr in
    if negb (error =? 0) then ret (inl error)
    else if flag (ia_valid attr) (Z.lor ATTR_KILL_SUID ATTR_KILL_SGID) && flag (ia_valid attr) ATTR_MODE
    then throw Oops
    else
      let attr := kill_bits i attr in
      if Z.land (ia_valid attr) (Z.lnot (Z.lor ATTR_KILL_SUID ATTR_KILL_SGID)) =? 0 then ret (inl 0)
      else ret (inr attr).
End Attr.
