(* ===== verification/Task.v ===== *)
(** Tasks as the subjects of access checks: credentials as in [Creds.v],
    supplementary groups as in [Groups.v], and the umask of [sys_umask]
    ([kernel/sys.c]). *)
From S2P Require Import Prelude PosixAcl Creds Groups Vfs.

Record task : Type := mk_task { t_cred : cred; t_groups : gstate; t_umask : Z }.

(** The old umask, and the task with the new one. *)
Definition umask (mask : Z) (t : task) : Z * task :=
  (t_umask t, mk_task (t_cred t) (t_groups t) (Z.land mask S_IRWXUGO)).

#[export] Instance task_subject : Subject task := {
  current_fsuid t := fsuid (t_cred t);
  current_fsgid t := fsgid (t_cred t);
  current_umask := t_umask;
  in_group_p t g := match Groups.in_group_p g (t_groups t) with Ok (r, _) => ctrue r | Err _ => false end;
  capable t c := Creds.capable (t_cred t) c;
}.

Record task_ok (t : task) : Prop := {
  task_groups_ok : gs_ok (t_groups t);
  task_fsgid : cur_fsgid (t_groups t) = fsgid (t_cred t);
  task_umask_ok : 0 <= t_umask t < 512;
}.

Definition task_groups (t : task) : list Z :=
  fsgid (t_cred t) :: default [] (gids <$> store (t_groups t) !! cur_groups (t_groups t)).

Lemma task_in_group_p t g : task_ok t -> in_group_p t g = bool_decide (g ∈ task_groups t).
Proof.
  intros [Hg Hf _]. cbn [in_group_p task_subject]. unfold Groups.in_group_p, bind, gets.
  destruct (runs_in_group_p g (cur_fsgid (t_groups t)) (t_groups t) Hg) as (gi & Hgi & E).
  assert (E' : (if negb (g =? cur_fsgid (t_groups t))
    then at_gi (cur_groups (t_groups t)) (groups_search g) (t_groups t) else Ok (1, t_groups t)) =
    Ok (cbool (bool_decide (g = cur_fsgid (t_groups t) \/ g ∈ gids gi)), t_groups t))
    by (rewrite <-E; by destruct (negb _)).
  transitivity (bool_decide (g = cur_fsgid (t_groups t) \/ g ∈ gids gi)).
  - destruct (negb (g =? cur_fsgid (t_groups t))); rewrite ?E'; [by case_bool_decide|].
    injection E' as E'. by rewrite E'; case_bool_decide.
  - apply bool_decide_ext. unfold task_groups. rewrite Hgi, Hf, elem_of_cons. done.
Qed.

#[export] Instance task_laws : SubjectLaws task := {
  subject_ok := task_ok;
  subject_groups := task_groups;
  subject_umask t Ht := task_umask_ok t Ht;
  in_group_p_spec := task_in_group_p;
}.

Lemma umask_ok mask t : task_ok t -> task_ok (umask mask t).2.
Proof.
  intros [Hg Hf _]. split; try done. cbn [umask snd t_umask]. change S_IRWXUGO with (Z.ones 9).
  rewrite Z.land_ones by lia. apply Z.mod_pos_bound. lia.
Qed.
