(* ===== verification/XattrAcl.v ===== *)
(** ACLs as extended attributes: the format of [include/linux/posix_acl_xattr.h]
    and the conversions of [fs/xattr_acl.c].

    An attribute value is the list of its bytes.  This file has the conversion
    of entries and of whole ACLs and the theorem that they are inverse to each
    other; [FileAcl.v] places the decoded ACL in kernel memory. *)
From S2P Require Import Prelude UserMem PosixAcl.

(** ** Format *)

Definition POSIX_ACL_XATTR_VERSION : Z := 2.

Definition ERANGE : Z := 34.

Definition posix_acl_xattr_size (count : Z) : Z := u64 (4 + u64 (u64 count * 8)).

Definition posix_acl_xattr_count (size : Z) : Z :=
  if size <? 4 then -1
  else
    let size := size - 4 in
    if negb (size mod 8 =? 0) then -1 else s32 (size / 8).

Definition le16 (v : Z) : list Z := [Z.land v 255; Z.land (Z.shiftr v 8) 255].

(** [short] *)
Abbreviation s16 := (swrap 16).

(** ** One entry *)

(** The fields of the entry at the front of the bytes, and the bytes after
    it. *)
Definition xattr_entry (bs : list Z) : option (Z * Z * Z * list Z) :=
  match bs with
  | t0 :: t1 :: p0 :: p1 :: i0 :: i1 :: i2 :: i3 :: bs =>
      Some (t0 + 256 * t1, p0 + 256 * p1, of_le32 [i0; i1; i2; i3], bs)
  | _ => None
  end.

(** What the [switch] of [posix_acl_from_xattr] stores in [e_id]; [None] is
    the label [fail]. *)
Definition entry_id (e_tag id : Z) : option Z :=
  if (e_tag =? ACL_USER_OBJ) || (e_tag =? ACL_GROUP_OBJ) || (e_tag =? ACL_MASK) || (e_tag =? ACL_OTHER)
  then Some ACL_UNDEFINED_ID
  else if (e_tag =? ACL_USER) || (e_tag =? ACL_GROUP) then Some id
  else None.

Definition entry_bytes (e : posix_acl_entry) : list Z := le16 (e_tag e) ++ le16 (e_perm e) ++ le32 (e_id e).

(** ** Whole ACLs *)

(** The value returned, and the bytes written to the buffer, if there is a
    buffer. *)
Definition posix_acl_to_xattr (acl : posix_acl) (buffer : bool) (size : Z) : Z * list Z :=
  let real_size := s32 (posix_acl_xattr_size (Z.of_nat (length (a_entries acl)))) in
  if negb buffer then (real_size, [])
  else if size <? u64 real_size then (- ERANGE, [])
  else (real_size, le32 POSIX_ACL_XATTR_VERSION ++ (a_entries acl ≫= entry_bytes)).

(** The entries that the loop of [posix_acl_from_xattr] leaves in the ACL, if
    it does not fail. *)
Fixpoint decode_entries (n : nat) (bs : list Z) : option (list posix_acl_entry) :=
  match n with
  | O => Some []
  | S n =>
      '(tag, perm, id, bs) ← xattr_entry bs;
      id ← entry_id (s16 tag) id;
      es ← decode_entries n bs;
      Some (mk_entry (s16 tag) perm id :: es)
  end.

(** ** Round trip *)

(** Entries as [posix_acl_from_xattr] makes them. *)
Definition canonical (e : posix_acl_entry) : Prop :=
  typed e /\ entry_id (e_tag e) (e_id e) = Some (e_id e).

Definition is_byte (b : Z) : Prop := 0 <= b < 256.

Lemma le16_round_trip v : 0 <= v < 65536 -> Z.land v 255 + 256 * Z.land (Z.shiftr v 8) 255 = v.
Proof.
  intros Hv. rewrite !land_255, Z.shiftr_div_pow2 by lia. change (2 ^ 8) with 256. Z.div_mod_to_equations. lia.
Qed.

Lemma canonical_tag e : canonical e -> 1 <= e_tag e <= 32.
Proof.
  intros [_ E]. unfold entry_id in E. unfold ACL_USER_OBJ, ACL_GROUP_OBJ, ACL_MASK, ACL_OTHER, ACL_USER, ACL_GROUP in E.
  repeat case_match; try done; lia.
Qed.

Lemma s16_small v : 0 <= v < 32768 -> s16 v = v.
Proof. intros Hv. unfold swrap. change (2 ^ (16 - 1)) with 32768. change (2 ^ 16) with 65536. rewrite Z.mod_small; lia. Qed.

Lemma xattr_entry_bytes e bs :
  canonical e -> xattr_entry (entry_bytes e ++ bs) = Some (e_tag e, e_perm e, e_id e, bs).
Proof.
  intros Hc. pose proof (canonical_tag e Hc). destruct Hc as [[Hp Hi] _].
  unfold entry_bytes, le16, xattr_entry. cbn [app le32].
  change [Z.land (e_id e) 255; Z.land (Z.shiftr (e_id e) 8) 255; Z.land (Z.shiftr (e_id e) 16) 255;
    Z.land (Z.shiftr (e_id e) 24) 255] with (le32 (e_id e)).
  rewrite !le16_round_trip, le32_round_trip by lia. unfold uwrap, ACL_UNDEFINED_ID in *.
  by rewrite Z.mod_small by lia.
Qed.

Lemma decode_encode es bs :
  Forall canonical es -> decode_entries (length es) ((es ≫= entry_bytes) ++ bs) = Some es.
Proof.
  induction 1 as [|e es He _ IH]; [done|]. cbn [length decode_entries mbind list_bind].
  rewrite <-app_assoc, xattr_entry_bytes by done. cbn [mbind option_bind].
  rewrite s16_small by (pose proof (canonical_tag e He); lia). destruct He as [_ He]. rewrite He. cbn [mbind option_bind].
  rewrite IH. cbn. by destruct e.
Qed.

Lemma bytes_le16 b0 b1 : is_byte b0 -> is_byte b1 -> le16 (b0 + 256 * b1) = [b0; b1].
Proof.
  unfold is_byte, le16. intros. rewrite !land_255, Z.shiftr_div_pow2 by lia. change (2 ^ 8) with 256.
  repeat f_equal; Z.div_mod_to_equations; lia.
Qed.

Lemma bytes_le32 b0 b1 b2 b3 :
  is_byte b0 -> is_byte b1 -> is_byte b2 -> is_byte b3 ->
  le32 (b0 + 256 * b1 + 65536 * b2 + 16777216 * b3) = [b0; b1; b2; b3].
Proof.
  unfold is_byte, le32. intros. rewrite !land_255, !Z.shiftr_div_pow2 by lia.
  change (2 ^ 8) with 256. change (2 ^ 16) with 65536. change (2 ^ 24) with 16777216.
  repeat f_equal; Z.div_mod_to_equations; lia.
Qed.

Lemma xattr_entry_spec bs tag perm id bs' :
  Forall is_byte bs -> xattr_entry bs = Some (tag, perm, id, bs') ->
  bs = le16 tag ++ le16 perm ++ le32 id ++ bs' /\ Forall is_byte bs' /\ 0 <= tag < 65536 /\ 0 <= perm < 65536 /\
  0 <= id <= ACL_UNDEFINED_ID.
Proof.
  intros Hb E. destruct bs as [|t0 [|t1 [|p0 [|p1 [|i0 [|i1 [|i2 [|i3 r]]]]]]]]; try done. injection E as <- <- <- <-.
  repeat (apply Forall_cons in Hb as [? Hb]).
  rewrite !bytes_le16, bytes_le32 by done. unfold is_byte, ACL_UNDEFINED_ID in *. cbn. split_and!; try done; lia.
Qed.

Lemma entry_id_canonical tag perm id id' :
  0 <= perm < 65536 -> 0 <= id <= ACL_UNDEFINED_ID -> entry_id tag id = Some id' -> canonical (mk_entry tag perm id').
Proof.
  unfold canonical, typed, entry_id. cbn. intros Hp Hi E. unfold ACL_UNDEFINED_ID in *.
  repeat case_match; simplify_eq; split_and!; try done; lia.
Qed.

Lemma decode_length n bs es : decode_entries n bs = Some es -> length es = n.
Proof.
  revert bs es. induction n as [|n IH]; intros bs es; cbn [decode_entries]; [by intros [= <-]|].
  intros ([[[tag perm] id] bs'] & _ & (id' & _ & (es' & E & [= <-])%bind_Some)%bind_Some)%bind_Some.
  cbn. f_equal. by apply (IH bs').
Qed.

Lemma decode_canonical n bs es :
  Forall is_byte bs -> decode_entries n bs = Some es -> Forall canonical es.
Proof.
  revert bs es. induction n as [|n IH]; intros bs es Hb; cbn [decode_entries]; [by intros [= <-]|].
  intros ([[[tag perm] id] bs'] & (_ & Hb' & _ & Hp & Hi)%xattr_entry_spec & (id' & Eid & (es' & E & [= <-])%bind_Some)%bind_Some)%bind_Some;
    [|done].
  constructor; [by eapply entry_id_canonical|by eapply IH].
Qed.

(** Bytes with the undefined id in the entries that name nobody. *)
Fixpoint canonical_bytes (n : nat) (bs : list Z) : bool :=
  match n with
  | O => match bs with [] => true | _ => false end
  | S n =>
      match xattr_entry bs with
      | None => false
      | Some (tag, _, id, bs) =>
          match entry_id tag id with Some id' => (id' =? id) && canonical_bytes n bs | None => false end
      end
  end.

Lemma encode_decode n bs :
  Forall is_byte bs -> canonical_bytes n bs = true ->
  exists es, decode_entries n bs = Some es /\ (es ≫= entry_bytes) = bs.
Proof.
  revert bs. induction n as [|n IH]; intros bs Hb; cbn [canonical_bytes decode_entries].
  { destruct bs; [|done]. by exists []. }
  destruct (xattr_entry bs) as [[[[tag perm] id] bs']|] eqn:E; [|done].
  destruct (xattr_entry_spec _ _ _ _ _ Hb E) as (-> & Hb' & Ht & Hp & Hi).
  destruct (entry_id tag id) as [id'|] eqn:Ei; [|done]. intros [->%Z.eqb_eq Hc]%andb_true_iff.
  destruct (IH bs' Hb' Hc) as (es & Ed & Ee).
  assert (Hs : s16 tag = tag).
  { apply s16_small. pose proof (canonical_tag _ (entry_id_canonical tag perm id id Hp Hi Ei)). cbn in *. lia. }
  exists (mk_entry tag perm id :: es). cbn [mbind option_bind]. rewrite Hs, Ei. cbn [mbind option_bind]. rewrite Ed.
  split; [done|]. rewrite bind_cons, Ee. unfold entry_bytes. cbn [e_tag e_perm e_id]. by rewrite <-!app_assoc.
Qed.

(** *** Sizes *)

Lemma entries_bytes_length es : length (es ≫= entry_bytes) = (8 * length es)%nat.
Proof.
  induction es as [|e es IH]; [done|].
  rewrite bind_cons, length_app, IH. cbn. lia.
Qed.

Lemma xattr_size_small n : 0 <= n < 2 ^ 28 -> posix_acl_xattr_size n = 4 + 8 * n /\ s32 (posix_acl_xattr_size n) = 4 + 8 * n.
Proof.
  intros Hn. unfold posix_acl_xattr_size, uwrap. rewrite (Z.mod_small n) by lia.
  rewrite (Z.mod_small (n * 8)), Z.mod_small by lia. split; [lia|].
  unfold swrap. change (2 ^ (32 - 1)) with 2147483648. rewrite Z.mod_small by lia. lia.
Qed.

Lemma xattr_count_size n : 0 <= n < 2 ^ 28 -> posix_acl_xattr_count (4 + 8 * n) = n.
Proof.
  intros Hn. unfold posix_acl_xattr_count. rewrite (proj2 (Z.ltb_ge _ _)) by lia.
  replace (4 + 8 * n - 4) with (n * 8) by lia. rewrite Z.mod_mul, Z.div_mul by lia. cbn.
  unfold swrap. change (2 ^ (32 - 1)) with 2147483648. rewrite Z.mod_small by lia. lia.
Qed.

Lemma to_xattr_fits acl size :
  Z.of_nat (length (a_entries acl)) < 2 ^ 28 -> 4 + 8 * Z.of_nat (length (a_entries acl)) <= size ->
  posix_acl_to_xattr acl true size =
  (4 + 8 * Z.of_nat (length (a_entries acl)), le32 POSIX_ACL_XATTR_VERSION ++ (a_entries acl ≫= entry_bytes)).
Proof.
  intros Hn Hs. unfold posix_acl_to_xattr. cbn [negb].
  rewrite (proj2 (xattr_size_small _ ltac:(split; [apply Zle_0_nat|exact Hn]))).
  unfold uwrap. rewrite Z.mod_small by lia. by rewrite (proj2 (Z.ltb_ge _ _)) by lia.
Qed.
