(* ===== verification/FileAcl.v ===== *)
(** The ACLs of files in memory: [fs/generic_acl.c] and [mm/shmem_acl.c], the
    conversion [posix_acl_from_xattr] of [fs/xattr_acl.c], the reference counts
    of [include/linux/posix_acl.h], and the operations of [mm/shmem.c],
    [fs/attr.c], [fs/open.c] and [fs/inode.c] that create inodes, change their
    mode and owner, and destroy them.

    ACLs are objects in kernel memory: inodes hold pointers to them, several
    pointers to one object are counted in [a_refcount], and an object is freed
    when the count drops to zero.  Access to an object that is not there is a
    fault.  The functions run with [inode->i_mutex] held, one at a time. *)
From stdpp Require Import strings.
From S2P Require Import Prelude Creds PosixAcl UserMem Vfs XattrAcl.

(** ** State *)

Record fstate : Type := mk_fstate {
  inodes : list (option (inode Z));
  acls : gmap Z posix_acl;
  mem_ok : list bool;
  junk : nat -> posix_acl_entry;
  sb : super_block; max_inodes : Z; free_inodes : Z;
}.

Definition with_inodes (v : list (option (inode Z))) (s : fstate) : fstate :=
  mk_fstate v (acls s) (mem_ok s) (junk s) (sb s) (max_inodes s) (free_inodes s).
Definition with_acls (v : gmap Z posix_acl) (s : fstate) : fstate :=
  mk_fstate (inodes s) v (mem_ok s) (junk s) (sb s) (max_inodes s) (free_inodes s).
Definition with_mem (v : list bool) (s : fstate) : fstate :=
  mk_fstate (inodes s) (acls s) v (junk s) (sb s) (max_inodes s) (free_inodes s).
Definition with_free_inodes (v : Z) (s : fstate) : fstate :=
  mk_fstate (inodes s) (acls s) (mem_ok s) (junk s) (sb s) (max_inodes s) v.

(** Inodes are named by their position; a destroyed inode leaves [None]. *)
Definition get_inode (n : nat) : M fstate (inode Z) := deref (fun s => mjoin (inodes s !! n)).
Definition put_inode (n : nat) (i : inode Z) : M fstate unit :=
  modify (fun s => with_inodes (<[n := Some i]> (inodes s)) s).

(** ** ACL objects *)

Definition get_acl (p : Z) : M fstate posix_acl := deref (fun s => acls s !! p).
Definition put_acl (p : Z) (a : posix_acl) : M fstate unit :=
  modify (fun s => with_acls (<[p := a]> (acls s)) s).

(** Whether the next allocation succeeds; when nothing is said it fails. *)
Definition kmalloc : M fstate bool :=
  let! m := gets mem_ok in
  modify (with_mem (tail m)) ;;; ret (default false (head m)).

(** The address of a new object: past all objects in use. *)
Definition new_addr (m : gmap Z posix_acl) : Z := map_fold (fun p _ q => Z.max (p + 1) q) 1 m.

(** [posix_acl_alloc]: the entries are what the memory held before. *)
Definition acl_alloc (count : nat) : M fstate (option Z) :=
  let! ok := kmalloc in
  let! s := gets id in
  match posix_acl_alloc count (if ok then Some (map (junk s) (seq 0 count)) else None) with
  | None => ret None
  | Some a => put_acl (new_addr (acls s)) a ;;; ret (Some (new_addr (acls s)))
  end.

(** [posix_acl_clone] *)
Definition acl_clone (acl : option Z) : M fstate (option Z) :=
  match acl with
  | None => ret None
  | Some p =>
      let! a := get_acl p in
      let! ok := kmalloc in
      let! q := gets (fun s => new_addr (acls s)) in
      match posix_acl_clone (Some a) ok with
      | None => ret None
      | Some c => put_acl q c ;;; ret (Some q)
      end
  end.

Definition kfree (p : Z) : M fstate unit := modify (fun s => with_acls (delete p (acls s)) s).

Definition posix_acl_dup (acl : option Z) : M fstate (option Z) :=
  match acl with
  | None => ret None
  | Some p =>
      let! a := get_acl p in
      put_acl p (mk_acl (s32 (a_refcount a + 1)) (a_entries a)) ;;; ret acl
  end.

Definition posix_acl_release (acl : option Z) : M fstate unit :=
  match acl with
  | None => ret tt
  | Some p =>
      let! a := get_acl p in
      let rc := s32 (a_refcount a - 1) in
      put_acl p (mk_acl rc (a_entries a)) ;;;
      if rc =? 0 then kfree p else ret tt
  end.

(** ** From the extended attribute *)

Definition EOPNOTSUPP : Z := 95.
Definition ENODATA : Z := 61.
Definition ENOSPC : Z := 28.

(** What [posix_acl_from_xattr] returns: [ERR_PTR], or a pointer that may be
    [NULL]. *)
Inductive acl_ret : Type := ERR_PTR (err : Z) | ACL_PTR (acl : option Z).

(** The loop, [true] when it reaches the end and [false] at the label [fail];
    the entries are written one field after the other. *)
Fixpoint from_xattr_loop (p : Z) (pos n : nat) (bs : list Z) : M fstate bool :=
  match n with
  | O => ret true
  | S n =>
      match xattr_entry bs with
      | None => throw Oops
      | Some (tag, perm, id, bs) =>
          let! a := get_acl p in
          let old := default 0 (e_id <$> a_entries a !! pos) in
          let write id := put_acl p (mk_acl (a_refcount a) (<[pos := mk_entry (s16 tag) perm id]> (a_entries a))) in
          match entry_id (s16 tag) id with
          | Some id => write id ;;; from_xattr_loop p (S pos) n bs
          | None => write old ;;; ret false
          end
      end
  end.

Definition posix_acl_from_xattr (value : option (list Z)) : M fstate acl_ret :=
  match value with
  | None => ret (ACL_PTR None)
  | Some value =>
      let size := Z.of_nat (length value) in
      if size <? 4 then ret (ERR_PTR (- EINVAL))
      else if negb (of_le32 (take 4 value) =? POSIX_ACL_XATTR_VERSION) then ret (ERR_PTR (- EOPNOTSUPP))
      else
        let count := posix_acl_xattr_count size in
        if count <? 0 then ret (ERR_PTR (- EINVAL))
        else if count =? 0 then ret (ACL_PTR None)
        else
          let! acl := acl_alloc (Z.to_nat count) in
          match acl with
          | None => ret (ERR_PTR (- ENOMEM))
          | Some p =>
              let! done := from_xattr_loop p 0 (Z.to_nat count) (drop 4 value) in
              if (done : bool) then ret (ACL_PTR acl)
              else posix_acl_release acl ;;; ret (ERR_PTR (- EINVAL))
          end
  end.

(** ** The operations a file system provides *)

Definition ACL_TYPE_ACCESS : Z := 32768.
Definition ACL_TYPE_DEFAULT : Z := 16384.

Record generic_acl_operations : Type := mk_ops {
  getacl : nat -> Z -> M fstate (option Z);
  setacl : nat -> Z -> option Z -> M fstate unit;
}.

Definition shmem_get_acl (n : nat) (type : Z) : M fstate (option Z) :=
  let! i := get_inode n in
  if type =? ACL_TYPE_ACCESS then posix_acl_dup (i_acl i)
  else if type =? ACL_TYPE_DEFAULT then posix_acl_dup (i_default_acl i)
  else ret None.

Definition shmem_set_acl (n : nat) (type : Z) (acl : option Z) : M fstate unit :=
  let! i := get_inode n in
  if type =? ACL_TYPE_ACCESS then
    let! acl := posix_acl_dup acl in
    put_inode n (set_acls acl (i_default_acl i) i) ;;; posix_acl_release (i_acl i)
  else if type =? ACL_TYPE_DEFAULT then
    let! acl := posix_acl_dup acl in
    put_inode n (set_acls (i_acl i) acl i) ;;; posix_acl_release (i_default_acl i)
  else ret tt.

Definition shmem_acl_ops : generic_acl_operations := mk_ops shmem_get_acl shmem_set_acl.

(** ** [fs/generic_acl.c] *)

Definition POSIX_ACL_XATTR_ACCESS : string := "system.posix_acl_access".
Definition POSIX_ACL_XATTR_DEFAULT : string := "system.posix_acl_default".

Section Generic.
  Context {T : Type} `{Subject T} (cur : T) (ops : generic_acl_operations).

(** The size, and the name that is copied to the list with its terminator;
    [list] tells whether there is a buffer. *)
Definition generic_acl_list (n : nat) (type : Z) (list : bool) (list_size : Z) : M fstate (Z * option string) :=
  let! acl := getacl ops n type in
  match acl with
  | None => ret (0, None)
  | Some _ =>
      posix_acl_release acl ;;;
      let copy name :=
        let size := Z.of_nat (String.length name) + 1 in
        ret (size, if list && (size <=? list_size) then Some name else None) in
      if type =? ACL_TYPE_ACCESS then copy POSIX_ACL_XATTR_ACCESS
      else if type =? ACL_TYPE_DEFAULT then copy POSIX_ACL_XATTR_DEFAULT
      else ret (0, None)
  end.

(** The result, and the bytes written to the buffer. *)
Definition generic_acl_get (n : nat) (type : Z) (buffer : bool) (size : Z) : M fstate (Z * list Z) :=
  let! acl := getacl ops n type in
  match acl with
  | None => ret (- ENODATA, [])
  | Some p =>
      let! a := get_acl p in
      let r := posix_acl_to_xattr a buffer size in
      posix_acl_release acl ;;; ret r
  end.

(** The label [failed]. *)
Definition set_failed (acl : option Z) (error : Z) : M fstate Z := posix_acl_release acl ;;; ret error.

Definition set_done (n : nat) (type : Z) (acl : option Z) : M fstate Z :=
  setacl ops n type acl ;;; set_failed acl 0.

Definition generic_acl_set (n : nat) (type : Z) (value : option (list Z)) : M fstate Z :=
  let! i := get_inode n in
  if S_ISLNK (i_mode i) then ret (- EOPNOTSUPP)
  else if negb (is_owner_or_cap cur i) then ret (- EPERM)
  else
    let! r := posix_acl_from_xattr value in
    match r with
    | ERR_PTR e => ret e
    | ACL_PTR None => set_done n type None
    | ACL_PTR (Some p) =>
        let! a := get_acl p in
        let error := posix_acl_valid a in
        if negb (error =? 0) then set_failed (Some p) error
        else if type =? ACL_TYPE_ACCESS then
          let '(error, mode) := posix_acl_equiv_mode a (i_mode i) in
          if error <? 0 then set_failed (Some p) error
          else
            put_inode n (set_mode mode i) ;;;
            if error =? 0 then posix_acl_release (Some p) ;;; set_done n type None
            else set_done n type (Some p)
        else if (type =? ACL_TYPE_DEFAULT) && negb (S_ISDIR (i_mode i)) then set_failed (Some p) (- EINVAL)
        else set_done n type (Some p)
    end.

(** From the second [posix_acl_clone] on; [mode] is the mode before the umask. *)
Definition init_access (n : nat) (acl : option Z) (mode : Z) : M fstate Z :=
  let! clone := acl_clone acl in
  match clone with
  | None => set_failed acl (- ENOMEM)
  | Some q =>
      let! c := get_acl q in
      let '(error, c, mode) := posix_acl_create_masq c mode in
      put_acl q c ;;;
      (if 0 <=? error then
         let! i := get_inode n in
         put_inode n (set_mode mode i) ;;;
         if 0 <? error then setacl ops n ACL_TYPE_ACCESS clone else ret tt
       else ret tt) ;;;
      posix_acl_release clone ;;; set_failed acl 0
  end.

Definition generic_acl_init (n dir : nat) : M fstate Z :=
  let! i := get_inode n in
  let mode := i_mode i in
  let i := set_mode (Z.land mode (Z.lnot (current_umask cur))) i in
  put_inode n i ;;;
  let! acl := if negb (S_ISLNK (i_mode i)) then getacl ops dir ACL_TYPE_DEFAULT else ret None in
  match acl with
  | None => set_failed acl 0
  | Some _ =>
      if S_ISDIR (i_mode i) then
        let! clone := acl_clone acl in
        match clone with
        | None => set_failed acl (- ENOMEM)
        | Some _ => setacl ops n ACL_TYPE_DEFAULT clone ;;; posix_acl_release clone ;;; init_access n acl mode
        end
      else init_access n acl mode
  end.

Definition generic_acl_chmod (n : nat) : M fstate Z :=
  let! i := get_inode n in
  if S_ISLNK (i_mode i) then ret (- EOPNOTSUPP)
  else
    let! acl := getacl ops n ACL_TYPE_ACCESS in
    match acl with
    | None => ret 0
    | Some _ =>
        let! clone := acl_clone acl in
        posix_acl_release acl ;;;
        match clone with
        | None => ret (- ENOMEM)
        | Some q =>
            let! c := get_acl q in
            let '(error, c) := posix_acl_chmod_masq c (i_mode i) in
            put_acl q c ;;;
            (if error =? 0 then setacl ops n ACL_TYPE_ACCESS clone else ret tt) ;;;
            posix_acl_release clone ;;; ret error
        end
    end.
End Generic.

(** ** [mm/shmem_acl.c] and [mm/shmem.c] *)

(** What the hooks of the security module return. *)
Record hooks : Type := mk_hooks {
  need_killpriv : Z; killpriv : Z; inode_setattr_hook : Z; init_security : Z;
}.

Definition BOGO_DIRENT_SIZE : Z := 20.

Section Shmem.
  Context {T : Type} `{Subject T} (cur : T).

Definition shmem_list_acl_access (n : nat) (list : bool) (list_size : Z) : M fstate (Z * option string) :=
  generic_acl_list shmem_acl_ops n ACL_TYPE_ACCESS list list_size.
Definition shmem_list_acl_default (n : nat) (list : bool) (list_size : Z) : M fstate (Z * option string) :=
  generic_acl_list shmem_acl_ops n ACL_TYPE_DEFAULT list list_size.

Definition shmem_get_acl_access (n : nat) (name : string) (buffer : bool) (size : Z) : M fstate (Z * list Z) :=
  if negb (String.eqb name "") then ret (- EINVAL, [])
  else generic_acl_get shmem_acl_ops n ACL_TYPE_ACCESS buffer size.
Definition shmem_get_acl_default (n : nat) (name : string) (buffer : bool) (size : Z) : M fstate (Z * list Z) :=
  if negb (String.eqb name "") then ret (- EINVAL, [])
  else generic_acl_get shmem_acl_ops n ACL_TYPE_DEFAULT buffer size.

Definition shmem_set_acl_access (n : nat) (name : string) (value : option (list Z)) : M fstate Z :=
  if negb (String.eqb name "") then ret (- EINVAL)
  else generic_acl_set cur shmem_acl_ops n ACL_TYPE_ACCESS value.
Definition shmem_set_acl_default (n : nat) (name : string) (value : option (list Z)) : M fstate Z :=
  if negb (String.eqb name "") then ret (- EINVAL)
  else generic_acl_set cur shmem_acl_ops n ACL_TYPE_DEFAULT value.

Definition shmem_acl_init (n dir : nat) : M fstate Z := generic_acl_init cur shmem_acl_ops n dir.

Definition shmem_check_acl (n : nat) (mask : Z) : M fstate Z :=
  let! acl := shmem_get_acl n ACL_TYPE_ACCESS in
  match acl with
  | Some p =>
      let! i := get_inode n in
      let! a := get_acl p in
      let error := posix_acl_permission (i_uid i) (i_gid i) (current_fsuid cur) (in_group_p cur) mask a in
      posix_acl_release acl ;;; ret error
  | None => ret (- EAGAIN)
  end.

(** *** Creating and destroying inodes *)

Definition shmem_reserve_inode : M fstate Z :=
  let! s := gets id in
  if negb (max_inodes s =? 0) then
    if free_inodes s =? 0 then ret (- ENOSPC)
    else modify (with_free_inodes (free_inodes s - 1)) ;;; ret 0
  else ret 0.

Definition shmem_free_inode : M fstate unit :=
  let! s := gets id in
  if negb (max_inodes s =? 0) then modify (with_free_inodes (u64 (free_inodes s + 1))) else ret tt.

Definition cache_no_acl {A} (i : inode A) : inode A := set_acls None None i.

(** [new_inode] gives an inode with its fields cleared, or [NULL]. *)
Definition shmem_get_inode (now : timespec) (mode dev : Z) : M fstate (option nat) :=
  let! r := shmem_reserve_inode in
  if negb (r =? 0) then ret None
  else
    let! ok := kmalloc in
    if (ok : bool) then
      let! s := gets id in
      let size := if S_ISDIR mode then 2 * BOGO_DIRENT_SIZE else 0 in
      let rdev := if S_ISCHR mode || S_ISBLK mode then dev else 0 in
      let i := mk_inode (u16 mode) (current_fsuid cur) (current_fsgid cur) rdev size now now now 0 (sb s) None None in
      modify (with_inodes (inodes s ++ [Some (cache_no_acl i)])) ;;; ret (Some (length (inodes s)))
    else shmem_free_inode ;;; ret None.

(** The ACLs of an inode that goes away; pointers of tmpfs inodes are always
    cached. *)
Definition __destroy_inode (n : nat) : M fstate unit :=
  let! i := get_inode n in
  posix_acl_release (i_acl i) ;;; posix_acl_release (i_default_acl i).

(** [iput] of the last reference: tmpfs deletes the inode. *)
Definition delete_inode (n : nat) : M fstate unit :=
  shmem_free_inode ;;; __destroy_inode n ;;;
  modify (fun s => with_inodes (<[n := None]> (inodes s)) s).

(** The directory entry is not part of the model; the new inode is returned
    with the result. *)
Definition shmem_mknod (h : hooks) (now : timespec) (dir : nat) (mode dev : Z) : M fstate (Z * option nat) :=
  let! r := shmem_get_inode now mode dev in
  match r with
  | None => ret (- ENOSPC, None)
  | Some n =>
      let error := init_security h in
      if negb (error =? 0) && negb (error =? - EOPNOTSUPP) then delete_inode n ;;; ret (error, None)
      else
        let! error := shmem_acl_init n dir in
        if negb (error =? 0) then delete_inode n ;;; ret (error, None)
        else
          let! d := get_inode dir in
          (if flag (i_mode d) S_ISGID then
             let! i := get_inode n in
             put_inode n (set_mode (if S_ISDIR mode then Z.lor (i_mode i) S_ISGID else i_mode i)
                            (set_owner (i_uid i) (i_gid d) i))
           else ret tt) ;;;
          put_inode dir (set_times (i_atime d) now now (set_size (i_size d + BOGO_DIRENT_SIZE) d)) ;;;
          ret (error, Some n)
  end.

(** *** Changing mode and owner *)

(** The pages of the file are not part of the model. *)
Definition shmem_notify_change (limit : Z) (n : nat) (attr : iattr) : M fstate Z :=
  let! i := get_inode n in
  let '(error, attr) := inode_change_ok cur i attr in
  if negb (error =? 0) then ret error
  else
    let '(error, i) := inode_setattr cur limit i attr in
    put_inode n i ;;;
    if (error =? 0) && flag (ia_valid attr) ATTR_MODE then generic_acl_chmod shmem_acl_ops n else ret error.

(** Symbolic links of tmpfs have no [setattr]; there are no quotas. *)
Definition default_setattr (limit : Z) (n : nat) (attr : iattr) : M fstate Z :=
  let! i := get_inode n in
  let '(error, attr) := inode_change_ok cur i attr in
  if negb (error =? 0) then ret error
  else let '(error, i) := inode_setattr cur limit i attr in put_inode n i ;;; ret error.

Definition notify_change (h : hooks) (now : timespec) (limit : Z) (n : nat) (attr : iattr) : M fstate Z :=
  let! i := get_inode n in
  let! r := zoom (fun _ => tt) (fun _ s => s) (notify_prepare now (need_killpriv h) (killpriv h) i attr) in
  match r with
  | inl e => ret e
  | inr attr =>
      if negb (inode_setattr_hook h =? 0) then ret (inode_setattr_hook h)
      else if negb (S_ISLNK (i_mode i)) then shmem_notify_change limit n attr
      else default_setattr limit n attr
  end.

(** The part of [fchmodat] and [fchmod] that holds [i_mutex]; [attr] is
    [newattrs] before it is filled in. *)
Definition chmod_common (h : hooks) (now : timespec) (limit : Z) (n : nat) (mode : Z) (attr : iattr) : M fstate Z :=
  let! i := get_inode n in
  let mode := if mode =? 4294967295 then i_mode i else mode in
  let attr := set_ia_mode (Z.lor (Z.land mode S_IALLUGO) (Z.land (i_mode i) (Z.lnot S_IALLUGO))) attr in
  notify_change h now limit n (set_ia_valid (Z.lor ATTR_MODE ATTR_CTIME) attr).

Definition chown_common (h : hooks) (now : timespec) (limit : Z) (n : nat) (user group : Z) (attr : iattr) :
    M fstate Z :=
  let! i := get_inode n in
  let kill := if negb (S_ISDIR (i_mode i)) then Z.lor ATTR_KILL_SUID (Z.lor ATTR_KILL_SGID ATTR_KILL_PRIV) else 0 in
  let valid := Z.lor (Z.lor (Z.lor ATTR_CTIME (if given user then ATTR_UID else 0)) (if given group then ATTR_GID else 0)) kill in
  notify_change h now limit n
    (mk_iattr valid (ia_mode attr) (if given user then user else ia_uid attr) (if given group then group else ia_gid attr)
       (ia_size attr) (ia_atime attr) (ia_mtime attr) (ia_ctime attr)).
End Shmem.
