(* ===== verification/FileAclRel.v ===== *)
(** Reference counts against contents: what the ACL objects of [FileAcl.v] stand
    for.

    The abstract state has the contents of the ACLs in the inodes.  [Rel H s a]
    says that [s] represents [a] while the running function holds the
    references [H]: the count of every object is the number of references to
    it, from [H] and from inodes, and only objects with references exist.  The
    rules below say how the primitive operations change [H] and [a]. *)
From S2P Require Import Prelude Wp PosixAcl Vfs XattrAcl FileAcl.

Abbreviation acl := (list posix_acl_entry).

(** ** Abstract state *)

Record files : Type := mk_files {
  f_inodes : list (option (inode acl));
  f_mem : list bool;
  f_sb : super_block; f_max : Z; f_free : Z;
}.

Definition abs_acl (m : gmap Z posix_acl) (p : option Z) : option acl := p ≫= fun p => a_entries <$> m !! p.
Definition abs_inode (m : gmap Z posix_acl) (i : inode Z) : inode acl :=
  set_acls (abs_acl m (i_acl i)) (abs_acl m (i_default_acl i)) i.
Definition abs (s : fstate) : files :=
  mk_files ((fun o : option (inode Z) => abs_inode (acls s) <$> o) <$> inodes s) (mem_ok s) (sb s) (max_inodes s) (free_inodes s).

Definition set_inodes (v : list (option (inode acl))) (a : files) : files :=
  mk_files v (f_mem a) (f_sb a) (f_max a) (f_free a).
Definition set_mem (v : list bool) (a : files) : files := mk_files (f_inodes a) v (f_sb a) (f_max a) (f_free a).
Definition set_free (v : Z) (a : files) : files := mk_files (f_inodes a) (f_mem a) (f_sb a) (f_max a) v.
Definition set_inode (n : nat) (o : option (inode acl)) (a : files) : files :=
  set_inodes (<[n := o]> (f_inodes a)) a.

(** ** Counting references *)

Definition cnt (p : Z) (l : list Z) : Z := Z.of_nat (count_occ Z.eq_dec l p).

Definition refs (i : inode Z) : list Z := option_list (i_acl i) ++ option_list (i_default_acl i).
Definition orefs (o : option (inode Z)) : list Z := default [] (refs <$> o).
Definition all_refs (l : list (option (inode Z))) : list Z := l ≫= orefs.

Lemma cnt_app p l1 l2 : cnt p (l1 ++ l2) = cnt p l1 + cnt p l2.
Proof. unfold cnt. rewrite count_occ_app. lia. Qed.

Lemma cnt_cons p q l : cnt p (q :: l) = (if decide (q = p) then 1 else 0) + cnt p l.
Proof. unfold cnt. cbn. destruct (Z.eq_dec q p); case_decide; lia || done. Qed.

Lemma cnt_nonneg p l : 0 <= cnt p l.
Proof. unfold cnt. lia. Qed.

Lemma cnt_length p l : cnt p l <= Z.of_nat (length l).
Proof. unfold cnt. pose proof (count_occ_bound Z.eq_dec p l). lia. Qed.

Lemma cnt_elem p l : p ∈ l <-> 0 < cnt p l.
Proof. unfold cnt. rewrite list_elem_of_In, (count_occ_In Z.eq_dec). lia. Qed.

Lemma refs_length o : (length (orefs o) <= 2)%nat.
Proof. destruct o as [i|]; cbn; [|lia]. unfold refs. destruct (i_acl i), (i_default_acl i); cbn; lia. Qed.

Lemma all_refs_length l : (length (all_refs l) <= 2 * length l)%nat.
Proof.
  induction l as [|o l IH]; [done|]. unfold all_refs. rewrite bind_cons, length_app.
  pose proof (refs_length o). change (l ≫= orefs) with (all_refs l). cbn [length]. lia.
Qed.

Lemma all_refs_insert p l n o o' :
  l !! n = Some o -> cnt p (all_refs (<[n := o']> l)) = cnt p (all_refs l) - cnt p (orefs o) + cnt p (orefs o').
Proof.
  revert n. induction l as [|x l IH]; intros [|n] E; try done.
  - injection E as <-. unfold all_refs. cbn [insert list_insert]. rewrite !bind_cons, !cnt_app. lia.
  - specialize (IH n E). unfold all_refs in *.
    change (<[S n := o']> (x :: l)) with (x :: <[n := o']> l). rewrite !bind_cons, !cnt_app. lia.
Qed.

Lemma all_refs_snoc p l o : cnt p (all_refs (l ++ [o])) = cnt p (all_refs l) + cnt p (orefs o).
Proof. unfold all_refs. rewrite bind_app, cnt_app. cbn. by rewrite app_nil_r. Qed.

Lemma elem_of_all_refs p l n i : l !! n = Some (Some i) -> p ∈ refs i -> p ∈ all_refs l.
Proof. intros E Hp. apply list_elem_of_bind. exists (Some i). split; [done|]. by apply list_elem_of_lookup_2 in E. Qed.

(** ** The representation *)

Abbreviation held := (list (Z * acl)).

(** How many references a function may hold, and so how many inodes there may
    be before a reference count could overflow. *)
Definition max_held : nat := 8.

Record Rel (H : held) (s : fstate) (a : files) : Prop := {
  rel_cnt : forall p, match acls s !! p with
    | Some x => a_refcount x = cnt p (H.*1 ++ all_refs (inodes s)) /\ 0 < a_refcount x
    | None => cnt p (H.*1 ++ all_refs (inodes s)) = 0
    end;
  rel_held : Forall (fun '(p, es) => a_entries <$> acls s !! p = Some es) H;
  rel_abs : abs s = a;
  rel_bound : Z.of_nat (2 * length (inodes s) + max_held) < 2 ^ 31;
}.

Lemma rel_lookup H s a p es : Rel H s a -> (p, es) ∈ H -> exists rc, acls s !! p = Some (mk_acl rc es).
Proof.
  intros HR Hp. pose proof (proj1 (Forall_forall _ _) (rel_held _ _ _ HR) _ Hp) as E. cbn in E.
  apply fmap_Some in E as ([rc es'] & E & ->). by exists rc.
Qed.

Lemma rel_live H s a p : Rel H s a -> p ∈ H.*1 ++ all_refs (inodes s) -> is_Some (acls s !! p).
Proof.
  intros HR Hp%cnt_elem. pose proof (rel_cnt _ _ _ HR p) as E. destruct (acls s !! p); [done|]. lia.
Qed.

Lemma rel_perm H H' s a : H ≡ₚ H' -> Rel H s a -> Rel H' s a.
Proof.
  intros HP [Hc Hh Ha Hb]. split; try done; [|by rewrite <-HP].
  intros p. specialize (Hc p).
  assert (E : cnt p (H.*1 ++ all_refs (inodes s)) = cnt p (H'.*1 ++ all_refs (inodes s))).
  { rewrite !cnt_app. f_equal. unfold cnt. f_equal. apply Permutation_count_occ. by rewrite HP. }
  by rewrite <-E.
Qed.

(** Objects nobody refers to may change. *)
Lemma abs_acls s m :
  (forall p, p ∈ all_refs (inodes s) -> a_entries <$> m !! p = a_entries <$> acls s !! p) ->
  abs (with_acls m s) = abs s.
Proof.
  intros Hm. unfold abs. cbn. f_equal. apply list_eq. intros n. rewrite !list_lookup_fmap.
  destruct (inodes s !! n) as [[i|]|] eqn:E; try done. cbn. do 2 f_equal. unfold abs_inode.
  assert (Hs : forall q, q = i_acl i \/ q = i_default_acl i -> abs_acl m q = abs_acl (acls s) q).
  { intros [q|] Hq; [|done]. cbn. apply Hm. apply (elem_of_all_refs _ _ _ _ E). unfold refs.
    apply elem_of_app. destruct Hq as [<- | <-]; [left|right]; by apply list_elem_of_singleton. }
  by rewrite !Hs by auto.
Qed.

Lemma held_acls (H : held) (m m' : gmap Z posix_acl) :
  (forall p, p ∈ H.*1 -> a_entries <$> m' !! p = a_entries <$> m !! p) ->
  Forall (fun '(p, es) => a_entries <$> m !! p = Some es) H -> Forall (fun '(p, es) => a_entries <$> m' !! p = Some es) H.
Proof.
  intros Hm Hh. rewrite !Forall_forall in *. intros [p es] Hp. rewrite Hm; [by apply (Hh (p, es))|].
  apply list_elem_of_fmap. by exists (p, es).
Qed.

Lemma s32_small v : - 2 ^ 31 <= v < 2 ^ 31 -> s32 v = v.
Proof. intros Hv. unfold swrap. change (2 ^ (32 - 1)) with (2 ^ 31). rewrite Z.mod_small; lia. Qed.

Lemma rel_count_bound H s a p x :
  Rel H s a -> (length H <= max_held)%nat -> acls s !! p = Some x -> 0 < a_refcount x < 2 ^ 31.
Proof.
  intros HR HH E. pose proof (rel_cnt _ _ _ HR p) as Hc. rewrite E in Hc. destruct Hc as [Hc Hpos].
  pose proof (rel_bound _ _ _ HR). pose proof (cnt_length p (H.*1 ++ all_refs (inodes s))) as Hl.
  rewrite length_app, length_fmap in Hl. pose proof (all_refs_length (inodes s)). lia.
Qed.

(** ** Rules of the primitive operations *)

(** Writes of objects and inodes, along with the rules of [wp]. *)
Ltac fwp1 :=
  lazymatch goal with
  | |- runs (put_acl _ _) _ _ => unfold put_acl at 1
  | |- runs (put_inode _ _) _ _ => unfold put_inode at 1
  | |- runs (kfree _) _ _ => unfold kfree at 1
  | |- runs (set_failed _ _) _ _ => unfold set_failed at 1
  | |- _ => wp1
  end.
Ltac fwp := repeat (fwp1; cbv beta).

Section Rules.
  Context (H : held) (s : fstate) (a : files).

Lemma rel_dup p rc es :
  Rel H s a -> acls s !! p = Some (mk_acl rc es) ->
  Rel ((p, es) :: H) (with_acls (<[p := mk_acl (rc + 1) es]> (acls s)) s) a.
Proof.
  intros [Hc Hh Ha Hb] E.
  assert (Hm : forall q, a_entries <$> <[p := mk_acl (rc + 1) es]> (acls s) !! q = a_entries <$> acls s !! q).
  { intros q. destruct (decide (p = q)) as [<-|]; [by rewrite lookup_insert_eq, E|by rewrite lookup_insert_ne]. }
  split; [| |by rewrite abs_acls|done].
  - intros q. cbn [acls with_acls inodes fmap list_fmap fst app]. specialize (Hc q). rewrite cnt_cons.
    destruct (decide (p = q)) as [<-|].
    + rewrite lookup_insert_eq. rewrite E in Hc. cbn in *. lia.
    + rewrite lookup_insert_ne by done. by rewrite Z.add_0_l.
  - constructor; [by rewrite Hm, E|]. by apply (held_acls H (acls s)).
Qed.

Lemma runs_get_acl p x (Q : posix_acl -> fstate -> Prop) :
  acls s !! p = Some x -> Q x s -> runs (get_acl p) s Q.
Proof. apply (runs_deref (fun s => acls s !! p)). Qed.

Lemma runs_get_inode n i (Q : inode Z -> fstate -> Prop) :
  inodes s !! n = Some (Some i) -> Q i s -> runs (get_inode n) s Q.
Proof. intros E. apply (runs_deref (fun s => mjoin (inodes s !! n))). by rewrite E. Qed.

Lemma runs_dup_live p rc es (Q : option Z -> fstate -> Prop) :
  Rel H s a -> acls s !! p = Some (mk_acl rc es) -> (length H < max_held)%nat ->
  (forall s', inodes s' = inodes s -> Rel ((p, es) :: H) s' a -> Q (Some p) s') ->
  runs (posix_acl_dup (Some p)) s Q.
Proof.
  intros HR E HH HQ. cbn [posix_acl_dup]. apply runs_bind. apply (runs_get_acl _ _ _ E). fwp. cbn [a_refcount a_entries].
  pose proof (rel_dup p rc es HR E) as HR'.
  pose proof (rel_count_bound _ _ _ p _ HR' HH (lookup_insert_eq _ _ _)) as Hb. cbn in Hb.
  rewrite s32_small by lia. by apply HQ.
Qed.

Lemma rel_release p rc es :
  Rel ((p, es) :: H) s a -> acls s !! p = Some (mk_acl rc es) ->
  let m := <[p := mk_acl (rc - 1) es]> (acls s) in
  Rel H (with_acls (if rc - 1 =? 0 then delete p m else m) s) a.
Proof.
  intros [Hc Hh Ha Hb] E m.
  assert (Hp : rc = 1 + cnt p (H.*1 ++ all_refs (inodes s)) /\ 0 < rc).
  { specialize (Hc p). rewrite E in Hc. cbn [fmap list_fmap fst app a_refcount] in Hc.
    rewrite cnt_cons in Hc. rewrite decide_True in Hc by done. lia. }
  set (m' := if rc - 1 =? 0 then delete p m else m).
  assert (Hm : forall q, q ∈ H.*1 ++ all_refs (inodes s) -> a_entries <$> m' !! q = a_entries <$> acls s !! q).
  { intros q Hq%cnt_elem. subst m' m. destruct (Z.eqb_spec (rc - 1) 0) as [E0|E0]; destruct (decide (p = q)) as [<-|].
    - lia.
    - by rewrite lookup_delete_ne, lookup_insert_ne.
    - by rewrite lookup_insert_eq, E.
    - by rewrite lookup_insert_ne. }
  split; [| |rewrite abs_acls; [done|]|done].
  - intros q. cbn [acls with_acls inodes]. specialize (Hc q). cbn [fmap list_fmap fst app] in Hc.
    rewrite cnt_cons in Hc. subst m' m. destruct (decide (p = q)) as [<-|].
    + destruct (Z.eqb_spec (rc - 1) 0); [rewrite lookup_delete_eq; lia|].
      rewrite lookup_insert_eq. cbn [a_refcount]. lia.
    + rewrite Z.add_0_l in Hc. destruct (rc - 1 =? 0); [rewrite lookup_delete_ne by done|]; by rewrite lookup_insert_ne.
  - cbn [acls with_acls]. apply (held_acls H (acls s)); [|by apply Forall_cons_1 in Hh as [_ ?]].
    intros q Hq. apply Hm. apply elem_of_app. by left.
  - intros q Hq. apply Hm. apply elem_of_app. by right.
Qed.

Lemma runs_release_frame p es (Q : unit -> fstate -> Prop) :
  Rel ((p, es) :: H) s a -> (length H < max_held)%nat ->
  (forall s', inodes s' = inodes s -> (forall q, q <> p -> acls s' !! q = acls s !! q) -> Rel H s' a -> Q tt s') ->
  runs (posix_acl_release (Some p)) s Q.
Proof.
  intros HR HH HQ. destruct (rel_lookup _ _ _ p es HR ltac:(by left)) as (rc & E).
  pose proof (rel_release p rc es HR E) as HR'.
  pose proof (rel_count_bound _ _ _ p _ HR HH E) as Hb. cbn in Hb.
  cbn [posix_acl_release]. apply runs_bind. apply (runs_get_acl _ _ _ E). fwp. cbn [a_refcount a_entries].
  rewrite s32_small by lia. destruct (rc - 1 =? 0); fwp; apply HQ; try done; intros q Hq; cbn.
  - by rewrite lookup_delete_ne, lookup_insert_ne.
  - by rewrite lookup_insert_ne.
Qed.

Lemma runs_release p es (Q : unit -> fstate -> Prop) :
  Rel ((p, es) :: H) s a -> (length H < max_held)%nat ->
  (forall s', inodes s' = inodes s -> Rel H s' a -> Q tt s') -> runs (posix_acl_release (Some p)) s Q.
Proof. intros HR HH HQ. apply (runs_release_frame p es); auto. Qed.

(** A new object with one reference. *)
Lemma rel_new q es :
  Rel H s a -> acls s !! q = None -> Rel ((q, es) :: H) (with_acls (<[q := mk_acl 1 es]> (acls s)) s) a.
Proof.
  intros [Hc Hh Ha Hb] E. pose proof (Hc q) as Hq. rewrite E in Hq.
  assert (Hm : forall p, p ∈ H.*1 ++ all_refs (inodes s) ->
    a_entries <$> <[q := mk_acl 1 es]> (acls s) !! p = a_entries <$> acls s !! p).
  { intros p Hp%cnt_elem. destruct (decide (q = p)) as [<-|]; [lia|by rewrite lookup_insert_ne]. }
  split; [| |rewrite abs_acls; [done|]|done].
  - intros p. cbn [acls with_acls inodes fmap list_fmap fst app]. specialize (Hc p). rewrite cnt_cons.
    destruct (decide (q = p)) as [<-|]; [rewrite lookup_insert_eq; cbn; lia|].
    rewrite lookup_insert_ne by done. by rewrite Z.add_0_l.
  - constructor; cbn [acls with_acls]; [by rewrite lookup_insert_eq|]. apply (held_acls H (acls s)); [|done].
    intros p Hp. apply Hm. apply elem_of_app. by left.
  - intros p Hp. apply Hm. apply elem_of_app. by right.
Qed.

(** An object with one reference is not the one of another reference. *)
Lemma rel_private p es q es' :
  Rel ((p, es) :: (q, es') :: H) s a -> acls s !! q = Some (mk_acl 1 es') -> q <> p.
Proof.
  intros HR E ->. pose proof (rel_cnt _ _ _ HR p) as Hc. rewrite E in Hc. cbn [fmap list_fmap fst app a_refcount] in Hc.
  rewrite !cnt_cons, !decide_True in Hc by done. pose proof (cnt_nonneg p (H.*1 ++ all_refs (inodes s))). lia.
Qed.

(** An object with one reference is changed in place. *)
Lemma rel_update q es es' :
  Rel ((q, es) :: H) s a -> acls s !! q = Some (mk_acl 1 es) ->
  Rel ((q, es') :: H) (with_acls (<[q := mk_acl 1 es']> (acls s)) s) a.
Proof.
  intros [Hc Hh Ha Hb] E. pose proof (Hc q) as Hq. rewrite E in Hq. cbn [fmap list_fmap fst app a_refcount] in Hq.
  rewrite cnt_cons, decide_True in Hq by done.
  assert (Hm : forall p, p ∈ H.*1 ++ all_refs (inodes s) ->
    a_entries <$> <[q := mk_acl 1 es']> (acls s) !! p = a_entries <$> acls s !! p).
  { intros p Hp%cnt_elem. destruct (decide (q = p)) as [<-|]; [lia|by rewrite lookup_insert_ne]. }
  split; [| |rewrite abs_acls; [done|]|done].
  - intros p. cbn [acls with_acls inodes fmap list_fmap fst app]. specialize (Hc p).
    cbn [fmap list_fmap fst app] in Hc. destruct (decide (q = p)) as [<-|].
    + rewrite lookup_insert_eq. rewrite E in Hc. done.
    + by rewrite lookup_insert_ne.
  - constructor; cbn [acls with_acls]; [by rewrite lookup_insert_eq|]. apply (held_acls H (acls s)); [|by apply Forall_cons_1 in Hh as [_ ?]].
    intros p Hp. apply Hm. apply elem_of_app. by left.
  - intros p Hp. apply Hm. apply elem_of_app. by right.
Qed.

(** The pointers of an inode change hands with the references held. *)
Lemma rel_swap (H' : held) n o o' :
  Rel H s a -> inodes s !! n = Some o ->
  (forall p, cnt p H.*1 + cnt p (orefs o) = cnt p H'.*1 + cnt p (orefs o')) ->
  Forall (fun '(p, es) => a_entries <$> acls s !! p = Some es) H' ->
  Rel H' (with_inodes (<[n := o']> (inodes s)) s) (set_inode n (abs_inode (acls s) <$> o') a).
Proof.
  intros [Hc Hh Ha Hb] E Hcnt Hh'. split; [| |rewrite <-Ha; unfold abs, set_inode, set_inodes; cbn; f_equal|].
  - intros p. cbn [acls with_inodes inodes]. specialize (Hc p).
    assert (E' : cnt p (H'.*1 ++ all_refs (<[n := o']> (inodes s))) = cnt p (H.*1 ++ all_refs (inodes s))).
    { rewrite !cnt_app, (all_refs_insert _ _ _ _ _ E). specialize (Hcnt p). lia. }
    by rewrite E'.
  - done.
  - by rewrite list_fmap_insert.
  - cbn [inodes with_inodes]. by rewrite length_insert.
Qed.
End Rules.
