(* ===== verification/FileAclSpec.v ===== *)
(** What the functions of [FileAcl.v] do to the contents of ACLs.

    The specification works on inodes with the contents of their ACLs and on
    the outcomes of the allocations to come.  The functions of
    [fs/generic_acl.c] are related to it for every file system whose [getacl]
    and [setacl] satisfy the interface [AclOps]; those of [mm/shmem_acl.c]
    do. *)
From S2P Require Import Prelude Wp Creds PosixAcl UserMem Vfs XattrAcl FileAcl FileAclRel.

(** ** Specification *)

Section Slots.
  Context {A : Type}.

Definition slot (type : Z) (i : inode A) : option A :=
  if type =? ACL_TYPE_ACCESS then i_acl i else if type =? ACL_TYPE_DEFAULT then i_default_acl i else None.

Definition set_slot (type : Z) (v : option A) (i : inode A) : inode A :=
  if type =? ACL_TYPE_ACCESS then set_acls v (i_default_acl i) i
  else if type =? ACL_TYPE_DEFAULT then set_acls (i_acl i) v i else i.
End Slots.

Definition mem_next (m : list bool) : bool := default false (head m).

(** The value of an extended attribute: an error, or the ACL, if any. *)
Definition decode (value : option (list Z)) (m : list bool) : (Z + option acl) * list bool :=
  match value with
  | None => (inr None, m)
  | Some v =>
      let count := posix_acl_xattr_count (Z.of_nat (length v)) in
      if Z.of_nat (length v) <? 4 then (inl (- EINVAL), m)
      else if negb (of_le32 (take 4 v) =? POSIX_ACL_XATTR_VERSION) then (inl (- EOPNOTSUPP), m)
      else if count <? 0 then (inl (- EINVAL), m)
      else if count =? 0 then (inr None, m)
      else if mem_next m then
        match decode_entries (Z.to_nat count) (drop 4 v) with
        | Some es => (inr (Some es), tail m)
        | None => (inl (- EINVAL), tail m)
        end
      else (inl (- ENOMEM), tail m)
  end.

Section Spec.
  Context {T : Type} `{Subject T} (cur : T).
  Implicit Types (i d : inode acl) (m : list bool).

(** An ACL that passes [posix_acl_valid] becomes the inode's. *)
Definition install (type : Z) (es : acl) (i : inode acl) : Z * inode acl :=
  if negb (posix_acl_valid (mk_acl 1 es) =? 0) then (posix_acl_valid (mk_acl 1 es), i)
  else if type =? ACL_TYPE_ACCESS then
    let '(error, mode) := posix_acl_equiv_mode (mk_acl 1 es) (i_mode i) in
    if error <? 0 then (error, i)
    else (0, set_slot type (if error =? 0 then None else Some es) (set_mode mode i))
  else if (type =? ACL_TYPE_DEFAULT) && negb (S_ISDIR (i_mode i)) then (- EINVAL, i)
  else (0, set_slot type (Some es) i).

Definition set_spec (type : Z) (value : option (list Z)) i m : Z * inode acl * list bool :=
  if S_ISLNK (i_mode i) then (- EOPNOTSUPP, i, m)
  else if negb (is_owner_or_cap cur i) then (- EPERM, i, m)
  else
    match decode value m with
    | (inl e, m) => (e, i, m)
    | (inr None, m) => (0, set_slot type None i, m)
    | (inr (Some es), m) => (install type es i, m)
    end.

(** The access ACL of a new file under a default ACL. *)
Definition inherit (es : acl) (mode : Z) (i : inode acl) : inode acl :=
  let '(error, c, mode) := posix_acl_create_masq (mk_acl 1 es) mode in
  if error <? 0 then i
  else set_slot ACL_TYPE_ACCESS (if 0 <? error then Some (a_entries c) else i_acl i) (set_mode mode i).

Definition init_spec d i m : Z * inode acl * list bool :=
  let mode := i_mode i in
  let i := set_mode (Z.land mode (Z.lnot (current_umask cur))) i in
  match (if negb (S_ISLNK (i_mode i)) then i_default_acl d else None) with
  | None => (0, i, m)
  | Some es =>
      let access i m := if mem_next m then (0, inherit es mode i, tail m) else (- ENOMEM, i, tail m) in
      if S_ISDIR (i_mode i) then
        if mem_next m then access (set_slot ACL_TYPE_DEFAULT (Some es) i) (tail m) else (- ENOMEM, i, tail m)
      else access i m
  end.

Definition chmod_spec i m : Z * inode acl * list bool :=
  if S_ISLNK (i_mode i) then (- EOPNOTSUPP, i, m)
  else
    match i_acl i with
    | None => (0, i, m)
    | Some es =>
        if mem_next m then
          let '(error, c) := posix_acl_chmod_masq (mk_acl 1 es) (i_mode i) in
          (error, if error =? 0 then set_slot ACL_TYPE_ACCESS (Some (a_entries c)) i else i, tail m)
        else (- ENOMEM, i, tail m)
    end.

Definition check_spec (mask : Z) i : Z :=
  match i_acl i with
  | None => - EAGAIN
  | Some es => posix_acl_permission (i_uid i) (i_gid i) (current_fsuid cur) (in_group_p cur) mask (mk_acl 1 es)
  end.
End Spec.

(** ** The interface of [fs/generic_acl.c] *)

(** The argument of [setacl]: [NULL], or a reference the caller holds. *)
Definition arg_held (H : held) (p : option Z) (v : option acl) : Prop :=
  match p, v with
  | None, None => True
  | Some p, Some es => (p, es) ∈ H
  | _, _ => False
  end.

Class AclOps (ops : generic_acl_operations) : Prop := {
  getacl_spec H s a n i type Q :
    Rel H s a -> (length H < max_held)%nat -> f_inodes a !! n = Some (Some i) ->
    (slot type i = None -> Rel H s a -> Q None s) ->
    (forall p es s', slot type i = Some es -> Rel ((p, es) :: H) s' a -> Q (Some p) s') ->
    runs (getacl ops n type) s Q;
  setacl_spec H s a n i type p v Q :
    Rel H s a -> (S (length H) < max_held)%nat -> f_inodes a !! n = Some (Some i) -> arg_held H p v ->
    (forall s', Rel H s' (set_inode n (Some (set_slot type v i)) a) -> Q tt s') ->
    runs (setacl ops n type p) s Q;
}.

(** ** Objects and inodes *)

Lemma rel_inode H s a n i :
  Rel H s a -> f_inodes a !! n = Some (Some i) ->
  exists i0, inodes s !! n = Some (Some i0) /\ i = abs_inode (acls s) i0.
Proof.
  intros HR E. rewrite <-(rel_abs _ _ _ HR) in E. cbn in E. apply list_lookup_fmap_Some in E as ([i0|] & E & E').
  - exists i0. split; [done|]. naive_solver.
  - done.
Qed.

Lemma new_addr_fresh m : m !! new_addr m = None.
Proof.
  assert (Hlt : forall p x, m !! p = Some x -> p < new_addr m).
  { unfold new_addr. induction m as [|q y m Hq Hf IH] using map_first_key_ind; intros p x E.
    - done.
    - rewrite map_fold_insert_first_key by done. apply lookup_insert_Some in E as [[-> _]|[_ E]]; [lia|].
      specialize (IH _ _ E). lia. }
  destruct (m !! new_addr m) as [x|] eqn:E; [|done]. specialize (Hlt _ _ E). lia.
Qed.

Lemma rel_mem H s a m : Rel H s a -> Rel H (with_mem m s) (set_mem m a).
Proof. intros [Hc Hh Ha Hb]. split; try done. by rewrite <-Ha. Qed.

Lemma runs_kmalloc H s a (Q : bool -> fstate -> Prop) :
  Rel H s a ->
  (Rel H (with_mem (tail (mem_ok s)) s) (set_mem (tail (f_mem a)) a) ->
   Q (mem_next (f_mem a)) (with_mem (tail (mem_ok s)) s)) -> runs kmalloc s Q.
Proof.
  intros HR HQ. assert (E : f_mem a = mem_ok s) by (by rewrite <-(rel_abs _ _ _ HR)). rewrite E in HQ.
  unfold kmalloc. fwp. apply HQ. by apply rel_mem.
Qed.

Lemma runs_clone H s a p es (Q : option Z -> fstate -> Prop) :
  Rel H s a -> (p, es) ∈ H ->
  (mem_next (f_mem a) = false -> forall s', Rel H s' (set_mem (tail (f_mem a)) a) -> Q None s') ->
  (mem_next (f_mem a) = true -> forall q s', acls s' !! q = Some (mk_acl 1 es) ->
     Rel ((q, es) :: H) s' (set_mem (tail (f_mem a)) a) -> Q (Some q) s') ->
  runs (acl_clone (Some p)) s Q.
Proof.
  intros HR Hp Hno Hyes. destruct (rel_lookup _ _ _ _ _ HR Hp) as (rc & E). unfold acl_clone.
  apply runs_bind. apply (runs_get_acl _ _ _ _ E). apply runs_bind. apply (runs_kmalloc _ _ _ _ HR). intros HR'. fwp.
  cbn [posix_acl_clone mbind option_bind acls with_mem a_entries]. destruct (mem_next (f_mem a)).
  - fwp. apply Hyes; [done|cbn; by rewrite lookup_insert_eq|]. apply rel_new; [done|]. apply new_addr_fresh.
  - fwp. by apply Hno.
Qed.

(** An inode gets new attributes and keeps its pointers. *)
Lemma runs_put_inode H s a n i0 i1 (Q : unit -> fstate -> Prop) :
  Rel H s a -> inodes s !! n = Some (Some i0) -> refs i1 = refs i0 ->
  (forall s', inodes s' = <[n := Some i1]> (inodes s) -> acls s' = acls s ->
     Rel H s' (set_inode n (Some (abs_inode (acls s) i1)) a) -> Q tt s') ->
  runs (put_inode n i1) s Q.
Proof.
  intros HR E Er HQ. fwp. apply HQ; [done|done|].
  apply (rel_swap H s a H n (Some i0) (Some i1)); try done; [|apply HR].
  intros p. cbn. by rewrite Er.
Qed.

(** ** [mm/shmem_acl.c] provides the interface *)

Lemma runs_dup_slot H s a n i0 p (Q : option Z -> fstate -> Prop) :
  Rel H s a -> (length H < max_held)%nat -> inodes s !! n = Some (Some i0) -> (forall q, p = Some q -> q ∈ refs i0) ->
  (abs_acl (acls s) p = None -> Rel H s a -> Q None s) ->
  (forall q es s', abs_acl (acls s) p = Some es -> Rel ((q, es) :: H) s' a -> Q (Some q) s') ->
  runs (posix_acl_dup p) s Q.
Proof.
  intros HR HH E Hp Hno Hyes. destruct p as [q|]; [|by apply runs_ret, Hno].
  destruct (rel_live _ _ _ q HR) as [[rc es] Eq].
  { apply elem_of_app. right. apply (elem_of_all_refs _ _ _ _ E). by apply Hp. }
  apply (runs_dup_live H s a q rc es); try done. intros s' _ HR'. apply (Hyes q es); [|done].
  cbn. by rewrite Eq.
Qed.

Lemma refs_access i p : i_acl i = Some p -> p ∈ refs i.
Proof. intros E. unfold refs. rewrite E. by left. Qed.
Lemma refs_default i p : i_default_acl i = Some p -> p ∈ refs i.
Proof. intros E. unfold refs. rewrite E. apply elem_of_app. right. by apply list_elem_of_singleton. Qed.

Lemma shmem_get_acl_ok H s a n i type Q :
  Rel H s a -> (length H < max_held)%nat -> f_inodes a !! n = Some (Some i) ->
  (slot type i = None -> Rel H s a -> Q None s) ->
  (forall p es s', slot type i = Some es -> Rel ((p, es) :: H) s' a -> Q (Some p) s') ->
  runs (shmem_get_acl n type) s Q.
Proof.
  intros HR HH E Hno Hyes. destruct (rel_inode _ _ _ _ _ HR E) as (i0 & E0 & ->).
  unfold shmem_get_acl. apply runs_bind. apply (runs_get_inode _ _ _ _ E0). unfold slot in *.
  destruct (type =? ACL_TYPE_ACCESS); [|destruct (type =? ACL_TYPE_DEFAULT)].
  - apply (runs_dup_slot H s a n i0); auto using refs_access.
  - apply (runs_dup_slot H s a n i0); auto using refs_default.
  - apply runs_ret. by apply Hno.
Qed.

Definition arg_list (p : option Z) (v : option acl) : held :=
  match p, v with Some p, Some es => [(p, es)] | _, _ => [] end.

Lemma arg_cnt q p v : (p = None <-> v = None) -> cnt q (arg_list p v).*1 = cnt q (option_list p).
Proof. destruct p, v; intros [H1 H2]; try done. by specialize (H2 eq_refl). Qed.

Lemma arg_held_none H p v : arg_held H p v -> p = None <-> v = None.
Proof. by destruct p, v. Qed.

Lemma arg_abs H s a p v : Rel H s a -> arg_held H p v -> abs_acl (acls s) p = v.
Proof.
  intros HR Hp. destruct p as [p|], v as [es|]; try done. cbn.
  destruct (rel_lookup _ _ _ _ _ HR Hp) as (rc & ->). done.
Qed.

Lemma arg_held_weaken H H' p v : arg_held H p v -> arg_held (H' ++ H) p v.
Proof. destruct p, v; cbn; auto. intros. apply elem_of_app. by right. Qed.

Lemma runs_dup_arg H s a p v (Q : option Z -> fstate -> Prop) :
  Rel H s a -> (length H < max_held)%nat -> arg_held H p v ->
  (forall s', inodes s' = inodes s -> Rel (arg_list p v ++ H) s' a -> Q p s') -> runs (posix_acl_dup p) s Q.
Proof.
  intros HR HH Hp HQ. destruct p as [p|], v as [es|]; try done; [|by apply runs_ret, HQ].
  destruct (rel_lookup _ _ _ _ _ HR Hp) as (rc & E). by apply (runs_dup_live H s a p rc es).
Qed.

Lemma runs_release_arg H s a p v (Q : unit -> fstate -> Prop) :
  Rel (arg_list p v ++ H) s a -> (p = None <-> v = None) -> (length H < max_held)%nat ->
  (forall s', inodes s' = inodes s -> Rel H s' a -> Q tt s') -> runs (posix_acl_release p) s Q.
Proof.
  intros HR [Hn1 Hn2] HH HQ. destruct p as [p|], v as [es|].
  - by apply (runs_release H s a p es).
  - by specialize (Hn2 eq_refl).
  - by specialize (Hn1 eq_refl).
  - by apply runs_ret, HQ.
Qed.

(** The new pointer goes into the inode and the old one is released. *)
Lemma runs_replace H s a n i0 i1 p v old (Q : unit -> fstate -> Prop) :
  Rel (arg_list p v ++ H) s a -> (S (length H) < max_held)%nat -> arg_held H p v ->
  inodes s !! n = Some (Some i0) -> (forall q, old = Some q -> q ∈ refs i0) ->
  (forall q, cnt q (option_list p) + cnt q (refs i0) = cnt q (option_list old) + cnt q (refs i1)) ->
  (forall s', Rel H s' (set_inode n (Some (abs_inode (acls s) i1)) a) -> Q tt s') ->
  runs (put_inode n i1 ;;; posix_acl_release old) s Q.
Proof.
  intros HR HH Hp E Hold Hcnt HQ. fwp.
  assert (Ho : exists w, abs_acl (acls s) old = w /\ (old = None <-> w = None)).
  { destruct old as [q|]; [|by exists None]. destruct (rel_live _ _ _ q HR) as [[rc es] Eq].
    { apply elem_of_app. right. apply (elem_of_all_refs _ _ _ _ E). by apply Hold. }
    exists (Some es). cbn. rewrite Eq. naive_solver. }
  destruct Ho as (w & Hw & Hnone).
  assert (HR' : Rel (arg_list old w ++ H) (with_inodes (<[n := Some i1]> (inodes s)) s)
    (set_inode n (Some (abs_inode (acls s) i1)) a)).
  { apply (rel_swap (arg_list p v ++ H) s a _ n (Some i0) (Some i1)); try done.
    - intros q. rewrite !fmap_app, !cnt_app. specialize (Hcnt q). cbn [orefs fmap option_fmap option_map default].
      rewrite !arg_cnt by eauto using arg_held_none. cbn. lia.
    - apply Forall_app. split; [destruct old, w; cbn; auto|].
      pose proof (rel_held _ _ _ HR) as Hh. by apply Forall_app in Hh as [_ ?]. }
  apply (runs_release_arg H _ _ old w _ HR'); [done|lia|]. auto.
Qed.

Lemma shmem_set_acl_ok H s a n i type p v Q :
  Rel H s a -> (S (length H) < max_held)%nat -> f_inodes a !! n = Some (Some i) -> arg_held H p v ->
  (forall s', Rel H s' (set_inode n (Some (set_slot type v i)) a) -> Q tt s') ->
  runs (shmem_set_acl n type p) s Q.
Proof.
  intros HR HH E Hp HQ. destruct (rel_inode _ _ _ _ _ HR E) as (i0 & E0 & Hi).
  unfold shmem_set_acl. apply runs_bind. apply (runs_get_inode _ _ _ _ E0).
  assert (Hin : forall s', inodes s' = inodes s -> Rel (arg_list p v ++ H) s' a ->
    inodes s' !! n = Some (Some i0) /\ i = abs_inode (acls s') i0 /\ abs_acl (acls s') p = v).
  { intros s' Es HR'. rewrite Es. split; [done|]. destruct (rel_inode _ _ _ _ _ HR' E) as (i1 & E1 & ->).
    split; [congruence|]. eapply arg_abs; [done|]. by apply arg_held_weaken. }
  unfold set_slot in HQ. destruct (type =? ACL_TYPE_ACCESS); [|destruct (type =? ACL_TYPE_DEFAULT)].
  - apply runs_bind, (runs_dup_arg H s a p v); [done|lia|done|]. intros s' Es HR'.
    destruct (Hin s' Es HR') as (E0' & -> & Ev).
    apply (runs_replace H s' a n i0 _ p v); try done; [by apply refs_access| |].
    + intros q. unfold refs. cbn. rewrite !cnt_app. lia.
    + rewrite <-Ev in HQ. exact HQ.
  - apply runs_bind, (runs_dup_arg H s a p v); [done|lia|done|]. intros s' Es HR'.
    destruct (Hin s' Es HR') as (E0' & -> & Ev).
    apply (runs_replace H s' a n i0 _ p v); try done; [by apply refs_default| |].
    + intros q. unfold refs. cbn. rewrite !cnt_app. lia.
    + rewrite <-Ev in HQ. exact HQ.
  - apply runs_ret. apply HQ. replace (set_inode n (Some i) a) with a; [done|].
    destruct a. unfold set_inode, set_inodes. cbn in *. by rewrite list_insert_id.
Qed.

#[export] Instance shmem_acl_ops_ok : AclOps shmem_acl_ops.
Proof. split; [exact shmem_get_acl_ok|exact shmem_set_acl_ok]. Qed.
