(* ===== verification/FileAclRefine.v ===== *)
(** The functions of [fs/generic_acl.c] implement the specification of
    [FileAclSpec.v]: for any file system behind the interface [AclOps] they end
    without a fault, give back every reference they take, and change the
    contents as specified. *)
From S2P Require Import Prelude Wp Creds PosixAcl UserMem Vfs XattrAcl FileAcl FileAclRel FileAclSpec.

(** ** [posix_acl_from_xattr] *)

Lemma xattr_entry_long bs :
  (8 <= length bs)%nat -> exists tag perm id bs', xattr_entry bs = Some (tag, perm, id, bs') /\ length bs = (8 + length bs')%nat.
Proof.
  intros Hl. do 8 (destruct bs as [|? bs]; [cbn in Hl; lia|]). eexists _, _, _, bs. split; reflexivity.
Qed.

Lemma take_insert_here {A} (l : list A) n x : (n < length l)%nat -> take (S n) (<[n := x]> l) = take n l ++ [x].
Proof.
  intros Hn. rewrite (take_S_r _ n x) by (by rewrite list_lookup_insert_eq). f_equal. by rewrite take_insert_ge by lia.
Qed.

Lemma runs_from_xattr_loop p n : forall pos bs es0 s a,
  acls s !! p = Some (mk_acl 1 es0) -> Rel [(p, es0)] s a -> (8 * n <= length bs)%nat -> length es0 = (pos + n)%nat ->
  runs (from_xattr_loop p pos n bs) s (fun b s' => inodes s' = inodes s /\
    exists es', acls s' !! p = Some (mk_acl 1 es') /\ Rel [(p, es')] s' a /\
      match decode_entries n bs with Some es => b = true /\ es' = take pos es0 ++ es | None => b = false end).
Proof.
  induction n as [|n IH]; intros pos bs es0 s a E HR Hl Hlen; cbn [from_xattr_loop decode_entries].
  { apply runs_ret. split; [done|]. exists es0. split_and!; try done. by rewrite app_nil_r, take_ge by lia. }
  destruct (xattr_entry_long bs ltac:(lia)) as (tag & perm & id & bs' & -> & Hbs'). cbn [mbind option_bind].
  apply runs_bind, (runs_get_acl _ _ _ _ E). cbn [a_refcount a_entries].
  destruct (entry_id (s16 tag) id) as [id'|]; fwp; cbn [mbind option_bind].
  - set (e := mk_entry _ _ _). set (s1 := with_acls _ s).
    assert (E1 : acls s1 !! p = Some (mk_acl 1 (<[pos := e]> es0))) by (cbn; by rewrite lookup_insert_eq).
    eapply runs_mono.
    + apply (IH (S pos) bs' (<[pos := e]> es0) s1 a E1); [by apply (rel_update [] s a p es0)|lia|].
      rewrite length_insert. lia.
    + intros b s' (Hi & es' & E' & HR' & Hd). split; [done|]. exists es'. split_and!; try done.
      destruct (decode_entries n bs') as [es|]; cbn; [|done]. destruct Hd as [-> ->]. split; [done|].
      rewrite take_insert_here by lia. by rewrite <-app_assoc.
  - split; [done|]. eexists. split_and!; [cbn; by rewrite lookup_insert_eq| |done].
    by apply (rel_update [] s a p es0).
Qed.

Lemma count_fits size : 4 <= size -> 0 <= posix_acl_xattr_count size -> 8 * posix_acl_xattr_count size <= size - 4.
Proof.
  unfold posix_acl_xattr_count. intros Hs. rewrite (proj2 (Z.ltb_ge _ _)) by lia.
  destruct (negb _); [lia|]. intros Hc. assert (Hq : 0 <= (size - 4) / 8) by (apply Z.div_pos; lia).
  assert (Hle : s32 ((size - 4) / 8) <= (size - 4) / 8).
  { revert Hc. unfold swrap. change (2 ^ (32 - 1)) with 2147483648. change (2 ^ 32) with 4294967296.
    generalize dependent ((size - 4) / 8). intros q Hq Hc. Z.div_mod_to_equations. lia. }
  pose proof (Z.mul_div_le (size - 4) 8 ltac:(lia)). lia.
Qed.

(** What the caller gets. *)
Definition from_xattr_post (value : option (list Z)) (s : fstate) (a : files) (r : acl_ret) (s' : fstate) : Prop :=
  inodes s' = inodes s /\
  match decode value (f_mem a) with
  | (inl e, m) => r = ERR_PTR e /\ Rel [] s' (set_mem m a)
  | (inr None, m) => r = ACL_PTR None /\ Rel [] s' (set_mem m a)
  | (inr (Some es), m) =>
      exists p, r = ACL_PTR (Some p) /\ acls s' !! p = Some (mk_acl 1 es) /\ Rel [(p, es)] s' (set_mem m a)
  end.

Lemma set_mem_id a : set_mem (f_mem a) a = a.
Proof. by destruct a. Qed.

Lemma runs_from_xattr value s a : Rel [] s a -> runs (posix_acl_from_xattr value) s (from_xattr_post value s a).
Proof.
  intros HR. unfold posix_acl_from_xattr, from_xattr_post, decode. destruct value as [v|].
  2: { apply runs_ret. by rewrite set_mem_id. }
  destruct (Z.ltb_spec (Z.of_nat (length v)) 4) as [|Hl]; [apply runs_ret; by rewrite set_mem_id|].
  destruct (negb _); [apply runs_ret; by rewrite set_mem_id|].
  set (count := posix_acl_xattr_count _).
  destruct (Z.ltb_spec count 0) as [|Hc]; [apply runs_ret; by rewrite set_mem_id|].
  destruct (Z.eqb_spec count 0) as [|Hc0]; [apply runs_ret; by rewrite set_mem_id|].
  pose proof (count_fits _ Hl Hc) as Hfit. fold count in Hfit.
  unfold acl_alloc. fwp. apply (runs_kmalloc [] s a); [done|]. intros HR'. fwp.
  destruct (mem_next (f_mem a)); cbn [posix_acl_alloc mbind option_bind].
  2: { fwp. done. }
  set (n := Z.to_nat count). rewrite take_ge by (by rewrite length_map, length_seq). fwp.
  set (q := new_addr _). set (es0 := map _ _). set (s1 := with_acls _ _).
  assert (E1 : acls s1 !! q = Some (mk_acl 1 es0)) by (cbn; by rewrite lookup_insert_eq).
  assert (HR1 : Rel [(q, es0)] s1 (set_mem (tail (f_mem a)) a)).
  { apply rel_new; [done|]. apply new_addr_fresh. }
  eapply runs_mono; [apply (runs_from_xattr_loop q n 0 (drop 4 v) es0 s1 _ E1 HR1)|].
  - rewrite length_drop. lia.
  - subst es0. by rewrite length_map, length_seq.
  - intros b s' (Hi & es' & E' & HRl & Hd). destruct (decode_entries n (drop 4 v)) as [es|].
    + destruct Hd as [-> ->]. apply runs_ret. split; [done|]. by exists q.
    + subst b. apply runs_bind, (runs_release [] s' _ q es' _ HRl); [cbn; unfold max_held; lia|].
      intros s'' Hi' HR''. apply runs_ret. split; [by rewrite Hi'|done].
Qed.

(** ** [fs/generic_acl.c] *)

Lemma create_masq_refcount acl mode : a_refcount (posix_acl_create_masq acl mode).1.2 = a_refcount acl.
Proof. unfold posix_acl_create_masq. by repeat case_match. Qed.

Lemma chmod_masq_refcount acl mode : a_refcount (posix_acl_chmod_masq acl mode).2 = a_refcount acl.
Proof. unfold posix_acl_chmod_masq. by repeat case_match. Qed.

(** A function that works on the inode [n]: its result, the inode and the
    outcomes of allocations left over are those of the specification. *)
Definition meets (n : nat) (spec : Z * inode acl * list bool) (a : files) (r : Z) (s' : fstate) : Prop :=
  let '(r0, i', m') := spec in r = r0 /\ Rel [] s' (set_mem m' (set_inode n (Some i') a)).

Definition list_spec (type : Z) (list : bool) (list_size : Z) (i : inode acl) : Z * option String.string :=
  match slot type i with
  | None => (0, None)
  | Some _ =>
      let name := if type =? ACL_TYPE_ACCESS then POSIX_ACL_XATTR_ACCESS else POSIX_ACL_XATTR_DEFAULT in
      let size := Z.of_nat (String.length name) + 1 in
      (size, if list && (size <=? list_size) then Some name else None)
  end.

Definition get_spec (type : Z) (buffer : bool) (size : Z) (i : inode acl) : Z * list Z :=
  match slot type i with
  | None => (- ENODATA, [])
  | Some es => posix_acl_to_xattr (mk_acl 1 es) buffer size
  end.

Lemma set_inode_id n i a : f_inodes a !! n = Some (Some i) -> set_inode n (Some i) a = a.
Proof. intros E. destruct a. unfold set_inode, set_inodes. cbn in *. by rewrite list_insert_id. Qed.

Lemma set_inode_twice n o o' a : set_inode n o (set_inode n o' a) = set_inode n o a.
Proof. unfold set_inode, set_inodes. cbn. by rewrite list_insert_insert_eq. Qed.

Lemma set_inode_lookup n o o' a : f_inodes a !! n = Some o' -> f_inodes (set_inode n o a) !! n = Some o.
Proof. intros E. cbn. apply list_lookup_insert_eq. by eapply lookup_lt_Some. Qed.

Lemma set_inode_mem n o m a : set_inode n o (set_mem m a) = set_mem m (set_inode n o a).
Proof. done. Qed.

(** Computations on at most three references. *)
Ltac few := cbn; unfold max_held; lia.

Section Generic.
  Context {T : Type} `{Subject T} (cur : T) (ops : generic_acl_operations) `{!AclOps ops}.

Lemma runs_acl_list n i type list list_size s a :
  Rel [] s a -> f_inodes a !! n = Some (Some i) ->
  runs (generic_acl_list ops n type list list_size) s (fun r s' => r = list_spec type list list_size i /\ Rel [] s' a).
Proof.
  intros HR E. unfold generic_acl_list, list_spec. apply runs_bind.
  apply (getacl_spec [] s a n i type); [done|few|done| |].
  - intros -> HR'. by apply runs_ret.
  - intros p es s' Hs HR'. rewrite Hs. apply runs_bind, (runs_release [] s' a p es _ HR'); [few|]. intros s'' _ HR''.
    unfold slot in Hs. destruct (type =? ACL_TYPE_ACCESS); [by apply runs_ret|].
    destruct (type =? ACL_TYPE_DEFAULT); [by apply runs_ret|done].
Qed.

Lemma runs_acl_get n i type buffer size s a :
  Rel [] s a -> f_inodes a !! n = Some (Some i) ->
  runs (generic_acl_get ops n type buffer size) s (fun r s' => r = get_spec type buffer size i /\ Rel [] s' a).
Proof.
  intros HR E. unfold generic_acl_get, get_spec. apply runs_bind.
  apply (getacl_spec [] s a n i type); [done|few|done| |].
  - intros -> HR'. by apply runs_ret.
  - intros p es s' -> HR'. destruct (rel_lookup _ _ _ p es HR' ltac:(by left)) as (rc & Ep).
    apply runs_bind, (runs_get_acl _ _ _ _ Ep). apply runs_bind, (runs_release [] s' a p es _ HR'); [few|].
    intros s'' _ HR''. by apply runs_ret.
Qed.

(** The reference the function owns is given back. *)
Lemma runs_set_failed p v s a e (Q : Z -> fstate -> Prop) :
  Rel (arg_list p v) s a -> (p = None <-> v = None) -> (forall s', Rel [] s' a -> Q e s') -> runs (set_failed p e) s Q.
Proof.
  intros HR Hn HQ. fwp. rewrite <-(app_nil_r (arg_list p v)) in HR.
  apply (runs_release_arg [] s a p v _ HR Hn); [few|]. intros. by apply runs_ret, HQ.
Qed.

Lemma runs_set_done n i type p v s a (Q : Z -> fstate -> Prop) :
  Rel (arg_list p v) s a -> (p = None <-> v = None) -> f_inodes a !! n = Some (Some i) ->
  (forall s', Rel [] s' (set_inode n (Some (set_slot type v i)) a) -> Q 0 s') -> runs (set_done ops n type p) s Q.
Proof.
  intros HR Hn E HQ. apply runs_bind. apply (setacl_spec (arg_list p v) s a n i type p v); try done.
  - destruct p, v; few.
  - destruct p, v; try naive_solver. by left.
  - intros s' HR'. by apply (runs_set_failed p v s' _ 0 Q HR').
Qed.

Lemma runs_acl_set n i type value s a :
  Rel [] s a -> f_inodes a !! n = Some (Some i) ->
  runs (generic_acl_set cur ops n type value) s (meets n (set_spec cur type value i (f_mem a)) a).
Proof.
  intros HR E. destruct (rel_inode _ _ _ _ _ HR E) as (i0 & E0 & Hi). unfold generic_acl_set, set_spec, meets.
  assert (Em : i_mode i0 = i_mode i) by (by rewrite Hi).
  assert (Eo : is_owner_or_cap cur i0 = is_owner_or_cap cur i) by (by rewrite Hi).
  apply runs_bind, (runs_get_inode _ _ _ _ E0). rewrite Em, Eo.
  destruct (S_ISLNK (i_mode i)); [apply runs_ret; by rewrite set_inode_id, set_mem_id|].
  destruct (negb _); [apply runs_ret; by rewrite set_inode_id, set_mem_id|].
  apply runs_bind. eapply runs_mono; [by apply runs_from_xattr|]. intros r s' [Ei Hr]. revert Hr.
  destruct (decode value (f_mem a)) as [[e|[es|]] m].
  - intros [-> HR']. apply runs_ret. by rewrite set_inode_id.
  - intros (p & -> & Ep & HR'). apply runs_bind, (runs_get_acl _ _ _ _ Ep). unfold install.
    destruct (posix_acl_valid (mk_acl 1 es) =? 0) eqn:Ev; cbn [negb].
    2: { apply (runs_set_failed (Some p) (Some es) _ _ _ _ HR'); [done|]. intros. by rewrite set_inode_id. }
    destruct (Z.eqb_spec type ACL_TYPE_ACCESS) as [Et|Et].
    + destruct (posix_acl_equiv_mode _ _) as [error mode]. destruct (error <? 0).
      { apply (runs_set_failed (Some p) (Some es) _ _ _ _ HR'); [done|]. intros. by rewrite set_inode_id. }
      apply runs_bind. rewrite <-Ei in E0. apply (runs_put_inode _ _ _ n i0 _ _ HR' E0); [done|].
      destruct (rel_inode _ _ _ _ _ HR' E) as (i1 & E1 & Hi'). replace i1 with i0 in Hi' by congruence.
      intros s1 _ _. replace (abs_inode (acls s') (set_mode mode i0)) with (set_mode mode i) by (by rewrite Hi').
      intros HR1. destruct (error =? 0).
      * apply runs_bind, (runs_release [] _ _ p es _ HR1); [few|]. intros s2 _ HR2.
        apply (runs_set_done n (set_mode mode i) type None None _ _ _ HR2); [done|by eapply set_inode_lookup|].
        intros s3. by rewrite set_inode_twice.
      * apply (runs_set_done n (set_mode mode i) type (Some p) (Some es) _ _ _ HR1); [done|by eapply set_inode_lookup|].
        intros s3. by rewrite set_inode_twice.
    + destruct ((type =? ACL_TYPE_DEFAULT) && negb (S_ISDIR (i_mode i))).
      { apply (runs_set_failed (Some p) (Some es) _ _ _ _ HR'); [done|]. intros. by rewrite set_inode_id. }
      by apply (runs_set_done n i type (Some p) (Some es) _ _ _ HR').
  - intros [-> HR']. by apply (runs_set_done n i type None None _ _ _ HR').
Qed.

(** A private copy is changed in place. *)
Lemma runs_put_private q es c K s a (Q : unit -> fstate -> Prop) :
  Rel ((q, es) :: K) s a -> acls s !! q = Some (mk_acl 1 es) -> a_refcount c = 1 ->
  (forall s', Rel ((q, a_entries c) :: K) s' a -> Q tt s') -> runs (put_acl q c) s Q.
Proof.
  intros HR Eq Hc HQ. fwp. apply HQ. replace c with (mk_acl 1 (a_entries c)) at 2 by (rewrite <-Hc; by destruct c).
  by apply (rel_update K s a q es).
Qed.

Lemma runs_init_access n i p es mode s a :
  Rel [(p, es)] s a -> f_inodes a !! n = Some (Some i) ->
  runs (init_access ops n (Some p) mode) s
    (meets n (if mem_next (f_mem a) then (0, inherit es mode i, tail (f_mem a)) else (- ENOMEM, i, tail (f_mem a))) a).
Proof.
  intros HR E. unfold init_access, meets. apply runs_bind. apply (runs_clone [(p, es)] s a p es); [done|by left| |].
  { intros -> s' HR'. apply (runs_set_failed (Some p) (Some es) _ _ _ _ HR'); [done|]. intros. by rewrite set_inode_id. }
  intros -> q s' Eq HR'. apply runs_bind, (runs_get_acl _ _ _ _ Eq). unfold inherit.
  pose proof (create_masq_refcount (mk_acl 1 es) mode) as Hrc.
  destruct (posix_acl_create_masq (mk_acl 1 es) mode) as [[error c] mode']. cbn [fst snd a_refcount] in Hrc.
  apply runs_bind, (runs_put_private q es c [(p, es)] s' _ _ HR' Eq Hrc). intros s1 HR1. cbv beta. set (es' := a_entries c) in *.
  apply runs_bind. apply (runs_mono _ _ (fun _ s2 => Rel [(q, es'); (p, es)] s2
    (set_mem (tail (f_mem a)) (set_inode n (Some (if error <? 0 then i else
       set_slot ACL_TYPE_ACCESS (if 0 <? error then Some es' else i_acl i) (set_mode mode' i))) a)))).
  - rewrite (Z.leb_antisym error 0). destruct (error <? 0) eqn:Ee; cbn [negb].
    { apply runs_ret. by rewrite set_inode_id. }
    destruct (rel_inode _ _ _ _ _ HR1 E) as (i1 & E1 & Hi). apply runs_bind, (runs_get_inode _ _ _ _ E1).
    apply runs_bind, (runs_put_inode _ _ _ n i1 _ _ HR1 E1); [done|]. intros s2 _ _.
    replace (abs_inode (acls s1) (set_mode mode' i1)) with (set_mode mode' i) by (by rewrite Hi). intros HR2.
    destruct (0 <? error).
    + apply (setacl_spec [(q, es'); (p, es)] s2 _ n (set_mode mode' i) _ (Some q) (Some es') _ HR2);
        [few|by eapply set_inode_lookup|by left|]. intros s3. by rewrite set_inode_twice, set_inode_mem.
    + apply runs_ret. by destruct i.
  - intros _ s2 HR2. cbv beta. apply runs_bind, (runs_release [(p, es)] s2 _ q es' _ HR2); [few|]. intros s3 _ HR3.
    by apply (runs_set_failed (Some p) (Some es) _ _ _ _ HR3).
Qed.

Lemma runs_acl_init n dir i d s a :
  Rel [] s a -> n <> dir -> f_inodes a !! n = Some (Some i) -> f_inodes a !! dir = Some (Some d) ->
  runs (generic_acl_init cur ops n dir) s (meets n (init_spec cur d i (f_mem a)) a).
Proof.
  intros HR Hn E Ed. destruct (rel_inode _ _ _ _ _ HR E) as (i0 & E0 & Hi). unfold generic_acl_init, init_spec.
  apply runs_bind, (runs_get_inode _ _ _ _ E0). assert (Em : i_mode i0 = i_mode i) by (by rewrite Hi). rewrite Em.
  set (mode1 := Z.land _ _). apply runs_bind, (runs_put_inode _ _ _ n i0 _ _ HR E0); [done|]. intros s1 _ _.
  replace (abs_inode (acls s) (set_mode mode1 i0)) with (set_mode mode1 i) by (by rewrite Hi).
  set (i1 := set_mode mode1 i). change (i_mode (set_mode mode1 i0)) with mode1. change (i_mode i1) with mode1.
  set (a1 := set_inode n (Some i1) a). intros HR1.
  assert (E1 : f_inodes a1 !! n = Some (Some i1)) by (by eapply set_inode_lookup).
  assert (Ed1 : f_inodes a1 !! dir = Some (Some d)) by (cbn; by rewrite list_lookup_insert_ne).
  assert (Hmeets : forall r i' m' s', meets n (r, i', m') a1 r s' -> meets n (r, i', m') a r s').
  { unfold meets, a1. intros r i' m' s'. by rewrite set_inode_twice. }
  apply runs_bind. destruct (S_ISLNK mode1); cbn [negb].
  { apply runs_ret. apply (runs_set_failed None None _ _ _ _ HR1); [done|]. intros. apply Hmeets. split; [done|].
    by rewrite set_inode_id. }
  apply (getacl_spec [] s1 a1 dir d ACL_TYPE_DEFAULT); [done|few|done| |]; unfold slot; cbn [Z.eqb ACL_TYPE_DEFAULT ACL_TYPE_ACCESS Pos.eqb].
  { intros -> HR2. apply (runs_set_failed None None _ _ _ _ HR2); [done|]. intros. apply Hmeets. split; [done|].
    by rewrite set_inode_id. }
  intros p es s2 -> HR2. destruct (S_ISDIR mode1).
  2: { eapply runs_mono; [by apply (runs_init_access n i1 p es (i_mode i) s2 a1)|]. cbv beta. change (f_mem a1) with (f_mem a).
       destruct (mem_next (f_mem a)); intros r s' Hr; pose proof Hr as [-> _]; by apply Hmeets. }
  apply runs_bind. apply (runs_clone [(p, es)] s2 a1 p es); [done|by left| |]; change (f_mem a1) with (f_mem a).
  { intros -> s' HR'. apply (runs_set_failed (Some p) (Some es) _ _ _ _ HR'); [done|]. intros. apply Hmeets. split; [done|].
    by rewrite set_inode_id. }
  intros -> q s3 _ HR3. apply runs_bind.
  apply (setacl_spec [(q, es); (p, es)] s3 _ n i1 _ (Some q) (Some es) _ HR3); [few|done|by left|]. intros s4 HR4.
  apply runs_bind, (runs_release [(p, es)] s4 _ q es _ HR4); [few|]. intros s5 _ HR5.
  set (i2 := set_slot ACL_TYPE_DEFAULT (Some es) i1) in *.
  eapply runs_mono; [apply (runs_init_access n i2 p es (i_mode i) s5 _ HR5); by eapply set_inode_lookup|].
  change (f_mem (set_inode n (Some i2) (set_mem (tail (f_mem a)) a1))) with (tail (f_mem a)).
  destruct (mem_next (tail (f_mem a))); intros r s' [-> HR']; apply Hmeets; (split; [done|]);
    by rewrite set_inode_twice, set_inode_mem in HR'.
Qed.

Lemma runs_acl_chmod n i s a :
  Rel [] s a -> f_inodes a !! n = Some (Some i) ->
  runs (generic_acl_chmod ops n) s (meets n (chmod_spec i (f_mem a)) a).
Proof.
  intros HR E. destruct (rel_inode _ _ _ _ _ HR E) as (i0 & E0 & Hi). unfold generic_acl_chmod, chmod_spec, meets.
  apply runs_bind, (runs_get_inode _ _ _ _ E0). assert (Em : i_mode i0 = i_mode i) by (by rewrite Hi). rewrite Em.
  destruct (S_ISLNK (i_mode i)); [apply runs_ret; by rewrite set_inode_id, set_mem_id|].
  apply runs_bind. apply (getacl_spec [] s a n i ACL_TYPE_ACCESS); [done|few|done| |]; unfold slot; cbn [Z.eqb ACL_TYPE_ACCESS Pos.eqb].
  { intros -> HR2. apply runs_ret. by rewrite set_inode_id, set_mem_id. }
  intros p es s1 -> HR1. apply runs_bind. apply (runs_clone [(p, es)] s1 a p es); [done|by left| |].
  { intros -> s2 HR2. apply runs_bind, (runs_release [] s2 _ p es _ HR2); [few|]. intros s3 _ HR3. apply runs_ret.
    by rewrite set_inode_id. }
  intros -> q s2 Eq HR2. apply runs_bind.
  apply (rel_perm _ [(p, es); (q, es)]) in HR2; [|by apply perm_swap].
  assert (Hne : q <> p) by (by apply (rel_private _ _ _ _ _ _ _ HR2 Eq)).
  apply (runs_release_frame [(q, es)] s2 _ p es _ HR2); [few|]. intros s3 _ Ea HR3.
  rewrite <-Ea in Eq by done. apply runs_bind, (runs_get_acl _ _ _ _ Eq).
  pose proof (chmod_masq_refcount (mk_acl 1 es) (i_mode i)) as Hrc.
  destruct (posix_acl_chmod_masq (mk_acl 1 es) (i_mode i)) as [error c]. cbn [fst snd a_refcount] in Hrc.
  apply runs_bind, (runs_put_private q es c [] s3 _ _ HR3 Eq Hrc). intros s4 HR4. cbv beta. set (es' := a_entries c) in *.
  apply runs_bind. destruct (error =? 0).
  - apply (setacl_spec [(q, es')] s4 _ n i _ (Some q) (Some es') _ HR4); [few|done|by left|]. intros s5 HR5.
    apply runs_bind, (runs_release [] s5 _ q es' _ HR5); [few|]. intros s6 _ HR6. by apply runs_ret.
  - apply runs_ret. apply runs_bind, (runs_release [] s4 _ q es' _ HR4); [few|]. intros s6 _ HR6. apply runs_ret.
    by rewrite set_inode_id.
Qed.
End Generic.
