(* ===== verification/TmpFs.v ===== *)
(** The tmpfs operations that concern ACLs, one after the other: creating and
    destroying inodes, [chmod], [chown], and the extended attributes
    [system.posix_acl_access] and [system.posix_acl_default].

    Each operation is specified on the contents of ACLs and related to the
    functions of [FileAcl.v]: it runs without a fault, with the results and
    contents of its specification, and gives back every reference it takes. *)
From stdpp Require Import strings.
From S2P Require Import Prelude Wp Creds PosixAcl UserMem Vfs XattrAcl FileAcl FileAclRel FileAclSpec FileAclRefine.

(** ** Specification *)

Section Spec.
  Context {T : Type} `{Subject T} (cur : T).

(** One more free inode, where they are counted. *)
Definition give_back (a : files) : files :=
  if negb (f_max a =? 0) then set_free (u64 (f_free a + 1)) a else a.

Definition delete_spec (n : nat) (a : files) : files := set_inode n None (give_back a).

Definition fresh_inode (now : timespec) (mode dev : Z) (a : files) : inode acl :=
  mk_inode (u16 mode) (current_fsuid cur) (current_fsgid cur) (if S_ISCHR mode || S_ISBLK mode then dev else 0)
    (if S_ISDIR mode then 2 * BOGO_DIRENT_SIZE else 0) now now now 0 (f_sb a) None None.

(** Files of a directory with the set-group-id bit get its group. *)
Definition inherit_group (mode : Z) (d i : inode acl) : inode acl :=
  if flag (i_mode d) S_ISGID
  then set_mode (if S_ISDIR mode then Z.lor (i_mode i) S_ISGID else i_mode i) (set_owner (i_uid i) (i_gid d) i)
  else i.

Definition mknod_spec (h : hooks) (now : timespec) (dir : nat) (d : inode acl) (mode dev : Z) (a : files) :
    (Z * option nat) * files :=
  if negb (f_max a =? 0) && (f_free a =? 0) then ((- ENOSPC, None), a)
  else
    let a := if negb (f_max a =? 0) then set_free (f_free a - 1) a else a in
    let ok := mem_next (f_mem a) in
    let a := set_mem (tail (f_mem a)) a in
    if ok then
      let n := length (f_inodes a) in
      let i := fresh_inode now mode dev a in
      let a := set_inodes (f_inodes a ++ [Some i]) a in
      if negb (init_security h =? 0) && negb (init_security h =? - EOPNOTSUPP)
      then ((init_security h, None), delete_spec n a)
      else
        let '(error, i, m) := init_spec cur d i (f_mem a) in
        let a := set_mem m (set_inode n (Some i) a) in
        if negb (error =? 0) then ((error, None), delete_spec n a)
        else
          let a := set_inode n (Some (inherit_group mode d i)) a in
          ((0, Some n), set_inode dir (Some (set_times (i_atime d) now now (set_size (i_size d + BOGO_DIRENT_SIZE) d))) a)
    else ((- ENOSPC, None), give_back a).

Definition setattr_spec (limit : Z) (attr : iattr) (i : inode acl) (m : list bool) : Z * inode acl * list bool :=
  let '(error, attr) := inode_change_ok cur i attr in
  if negb (error =? 0) then (error, i, m)
  else
    let lnk := S_ISLNK (i_mode i) in
    let '(error, i) := inode_setattr cur limit i attr in
    if (error =? 0) && flag (ia_valid attr) ATTR_MODE && negb lnk then chmod_spec i m else (error, i, m).

Definition notify_spec (h : hooks) (now : timespec) (limit : Z) (attr : iattr) (i : inode acl) (m : list bool) :
    Z * inode acl * list bool :=
  match notify_prepare now (need_killpriv h) (killpriv h) i attr tt with
  | Ok (inr attr, _) =>
      if negb (inode_setattr_hook h =? 0) then (inode_setattr_hook h, i, m) else setattr_spec limit attr i m
  | Ok (inl e, _) => (e, i, m)
  | Err _ => (0, i, m)
  end.

Definition chmod_attr (mode : Z) (attr : iattr) (i : inode acl) : iattr :=
  let mode := if mode =? 4294967295 then i_mode i else mode in
  set_ia_valid (Z.lor ATTR_MODE ATTR_CTIME)
    (set_ia_mode (Z.lor (Z.land mode S_IALLUGO) (Z.land (i_mode i) (Z.lnot S_IALLUGO))) attr).

Definition chown_attr (user group : Z) (attr : iattr) (i : inode acl) : iattr :=
  let kill := if negb (S_ISDIR (i_mode i)) then Z.lor ATTR_KILL_SUID (Z.lor ATTR_KILL_SGID ATTR_KILL_PRIV) else 0 in
  mk_iattr
    (Z.lor (Z.lor (Z.lor ATTR_CTIME (if given user then ATTR_UID else 0)) (if given group then ATTR_GID else 0)) kill)
    (ia_mode attr) (if given user then user else ia_uid attr) (if given group then group else ia_gid attr)
    (ia_size attr) (ia_atime attr) (ia_mtime attr) (ia_ctime attr).
End Spec.

(** ** The operations *)

Section Refinement.
  Context {T : Type} `{Subject T} (cur : T).

Lemma runs_check_acl n i mask s a :
  Rel [] s a -> f_inodes a !! n = Some (Some i) ->
  runs (shmem_check_acl cur n mask) s (fun r s' => r = check_spec cur mask i /\ Rel [] s' a).
Proof.
  intros HR E. unfold shmem_check_acl, check_spec. apply runs_bind.
  apply (shmem_get_acl_ok [] s a n i ACL_TYPE_ACCESS); [done|few|done| |]; unfold slot; cbn [Z.eqb ACL_TYPE_ACCESS Pos.eqb].
  - intros -> HR'. by apply runs_ret.
  - intros p es s1 -> HR1. destruct (rel_inode _ _ _ _ _ HR1 E) as (i1 & E1 & ->).
    apply runs_bind, (runs_get_inode _ _ _ _ E1).
    destruct (rel_lookup _ _ _ p es HR1 ltac:(by left)) as (rc & Ep). apply runs_bind, (runs_get_acl _ _ _ _ Ep).
    apply runs_bind, (runs_release [] s1 a p es _ HR1); [few|]. intros s2 _ HR2. by apply runs_ret.
Qed.

(** *** Creating and destroying *)

Lemma rel_free K s a v : Rel K s a -> Rel K (with_free_inodes v s) (set_free v a).
Proof. intros [Hc Hh Ha Hb]. split; try done. by rewrite <-Ha. Qed.

Lemma runs_free_inode K s a (Q : unit -> fstate -> Prop) :
  Rel K s a -> (forall s', inodes s' = inodes s -> Rel K s' (give_back a) -> Q tt s') -> runs shmem_free_inode s Q.
Proof.
  intros HR HQ. unfold shmem_free_inode, give_back in *. fwp. unfold id.
  assert (E : f_max a = max_inodes s /\ f_free a = free_inodes s) by (by rewrite <-(rel_abs _ _ _ HR)).
  destruct E as [E1 E2]. rewrite E1, E2 in HQ. destruct (negb _); fwp; apply HQ; try done. by apply rel_free.
Qed.

(** Releasing a pointer does not look at inodes. *)
Lemma release_inodes p v s s' :
  posix_acl_release p (with_inodes v s) = Ok (tt, s') -> posix_acl_release p s = Ok (tt, with_inodes (inodes s) s').
Proof.
  destruct p as [p|]; cbn [posix_acl_release]; [|unfold ret; intros [= <-]; by destruct s].
  unfold bind, get_acl, deref, put_acl, modify, kfree, ret. cbn [acls with_inodes].
  destruct (acls s !! p) as [x|]; [|done]. destruct (s32 (a_refcount x - 1) =? 0); intros [= <-]; by destruct s.
Qed.

Lemma runs_destroy n i s a :
  Rel [] s a -> f_inodes a !! n = Some (Some i) ->
  runs (__destroy_inode n ;;; modify (fun s => with_inodes (<[n := None]> (inodes s)) s)) s
    (fun _ s' => Rel [] s' (set_inode n None a)).
Proof.
  intros HR E. destruct (rel_inode _ _ _ _ _ HR E) as (i0 & E0 & _). set (v := <[n := None]> (inodes s)).
  assert (Hl : forall p, p ∈ refs i0 -> exists es, a_entries <$> acls s !! p = Some es).
  { intros p Hp. destruct (rel_live _ _ _ p HR) as [x ->]; [|by eexists]. apply (elem_of_all_refs _ _ _ _ E0 Hp). }
  assert (Hw : exists w1 w2, abs_acl (acls s) (i_acl i0) = w1 /\ abs_acl (acls s) (i_default_acl i0) = w2 /\
    (i_acl i0 = None <-> w1 = None) /\ (i_default_acl i0 = None <-> w2 = None)).
  { eexists _, _. split_and!; [reflexivity..| |].
    - destruct (i_acl i0) as [p|] eqn:Ep; [|done]. destruct (Hl p (refs_access _ _ Ep)) as (es & He). cbn. by rewrite He.
    - destruct (i_default_acl i0) as [p|] eqn:Ep; [|done]. destruct (Hl p (refs_default _ _ Ep)) as (es & He). cbn. by rewrite He. }
  destruct Hw as (w1 & w2 & Hw1 & Hw2 & Hn1 & Hn2).
  assert (HR1 : Rel (arg_list (i_acl i0) w1 ++ arg_list (i_default_acl i0) w2) (with_inodes v s) (set_inode n None a)).
  { apply (rel_swap [] s a _ n (Some i0) None); [done|done| |].
    - intros p. cbn -[cnt]. unfold refs. rewrite fmap_app, !cnt_app, !arg_cnt by done. change (cnt p []) with 0. lia.
    - apply Forall_app. split; [destruct (i_acl i0), w1|destruct (i_default_acl i0), w2]; cbn; auto. }
  assert (H1 : runs (posix_acl_release (i_acl i0)) (with_inodes v s) (fun _ s' => inodes s' = v /\
    Rel (arg_list (i_default_acl i0) w2) s' (set_inode n None a))).
  { apply (runs_release_arg _ _ _ _ _ _ HR1 Hn1); [destruct (i_default_acl i0), w2; few|done]. }
  destruct H1 as ([] & s1 & R1 & Ev & HR2). apply release_inodes in R1.
  assert (H2 : runs (posix_acl_release (i_default_acl i0)) s1 (fun _ s' => inodes s' = v /\ Rel [] s' (set_inode n None a))).
  { rewrite <-(app_nil_r (arg_list _ w2)) in HR2. apply (runs_release_arg [] _ _ _ _ _ HR2 Hn2); [few|].
    intros s' Es HR'. by rewrite Es. }
  destruct H2 as ([] & s2 & R2 & Ev2 & HR3).
  replace s1 with (with_inodes v (with_inodes (inodes s) s1)) in R2 by (rewrite <-Ev; by destruct s1).
  apply release_inodes in R2. unfold __destroy_inode. fwp. apply (runs_get_inode _ _ _ _ E0). fwp.
  eapply runs_ok; [exact R1|]. eapply runs_ok; [exact R2|]. fwp. cbn [inodes with_inodes]. fold v.
  replace (with_inodes v (with_inodes (inodes s) s2)) with s2 by (rewrite <-Ev2; by destruct s2). done.
Qed.

(** The pointers of the inode are released and the inode is gone. *)
Lemma runs_delete_inode n i s a :
  Rel [] s a -> f_inodes a !! n = Some (Some i) ->
  runs (delete_inode n) s (fun _ s' => Rel [] s' (delete_spec n a)).
Proof.
  intros HR E. unfold delete_inode, delete_spec. apply runs_bind, (runs_free_inode _ _ _ _ HR). intros s1 _ HR1.
  apply (runs_destroy n i s1 _ HR1). unfold give_back. by destruct (negb _).
Qed.

Lemma rel_append s a i :
  Rel [] s a -> refs i = [] -> Z.of_nat (2 * S (length (f_inodes a)) + max_held) < 2 ^ 31 ->
  Rel [] (with_inodes (inodes s ++ [Some i]) s) (set_inodes (f_inodes a ++ [Some (abs_inode (acls s) i)]) a).
Proof.
  intros [Hc Hh Ha Hb] Hi Hl. split; try done.
  - intros p. specialize (Hc p). cbn [acls with_inodes inodes fmap list_fmap app] in *.
    rewrite all_refs_snoc. cbn [orefs fmap option_fmap option_map default]. rewrite Hi, Z.add_0_r. exact Hc.
  - rewrite <-Ha. unfold abs, set_inodes. cbn. by rewrite fmap_app.
  - rewrite <-Ha in Hl. cbn in *. rewrite length_fmap in Hl. rewrite length_app. cbn. lia.
Qed.

Lemma runs_reserve_inode s a (Q : Z -> fstate -> Prop) :
  Rel [] s a ->
  (negb (f_max a =? 0) && (f_free a =? 0) = true -> forall s', Rel [] s' a -> Q (- ENOSPC) s') ->
  (negb (f_max a =? 0) && (f_free a =? 0) = false ->
     forall s', Rel [] s' (if negb (f_max a =? 0) then set_free (f_free a - 1) a else a) -> Q 0 s') ->
  runs shmem_reserve_inode s Q.
Proof.
  intros HR Hno Hyes. unfold shmem_reserve_inode. fwp. unfold id.
  assert (E : f_max a = max_inodes s /\ f_free a = free_inodes s) by (by rewrite <-(rel_abs _ _ _ HR)).
  destruct E as [E1 E2]. rewrite E1, E2 in Hno, Hyes. destruct (negb _); cbn [andb] in *.
  - destruct (free_inodes s =? 0); fwp; [by apply Hno|]. apply Hyes; [done|]. by apply rel_free.
  - fwp. by apply Hyes.
Qed.

(** The end of [shmem_mknod]. *)
Lemma runs_mknod_end now dir n mode d i s a (Q : Z * option nat -> fstate -> Prop) :
  Rel [] s a -> n <> dir -> f_inodes a !! n = Some (Some i) -> f_inodes a !! dir = Some (Some d) ->
  (forall s', Rel [] s' (set_inode dir (Some (set_times (i_atime d) now now (set_size (i_size d + BOGO_DIRENT_SIZE) d)))
      (set_inode n (Some (inherit_group mode d i)) a)) -> Q (0, Some n) s') ->
  runs (let! d := get_inode dir in
        (if flag (i_mode d) S_ISGID then
           let! i := get_inode n in
           put_inode n (set_mode (if S_ISDIR mode then Z.lor (i_mode i) S_ISGID else i_mode i)
                          (set_owner (i_uid i) (i_gid d) i))
         else ret tt) ;;;
        put_inode dir (set_times (i_atime d) now now (set_size (i_size d + BOGO_DIRENT_SIZE) d)) ;;;
        ret (0, Some n)) s Q.
Proof.
  intros HR Hn E Ed HQ. destruct (rel_inode _ _ _ _ _ HR Ed) as (d0 & Ed0 & Hd).
  destruct (rel_inode _ _ _ _ _ HR E) as (i0 & E0 & Hi).
  apply runs_bind, (runs_get_inode _ _ _ _ Ed0). apply runs_bind.
  apply (runs_mono _ _ (fun _ s' => inodes s' !! dir = Some (Some d0) /\ acls s' = acls s /\
    Rel [] s' (set_inode n (Some (inherit_group mode d i)) a))).
  - unfold inherit_group. replace (i_mode d) with (i_mode d0) by (by rewrite Hd). destruct (flag (i_mode d0) S_ISGID).
    + apply runs_bind, (runs_get_inode _ _ _ _ E0). apply (runs_put_inode _ _ _ n i0 _ _ HR E0); [done|].
      intros s' Ei Ea HR'. rewrite Ei, list_lookup_insert_ne by done. by subst i d.
    + apply runs_ret. by rewrite set_inode_id.
  - intros _ s1 (Ed1 & Ea & HR1). apply runs_bind, (runs_put_inode _ _ _ dir d0 _ _ HR1 Ed1); [done|].
    intros s2 _ _ HR2. apply runs_ret. apply HQ. by subst d; rewrite <-Ea.
Qed.

Lemma runs_mknod h now dir d mode dev s a :
  Rel [] s a -> f_inodes a !! dir = Some (Some d) -> Z.of_nat (2 * S (length (f_inodes a)) + max_held) < 2 ^ 31 ->
  runs (shmem_mknod cur h now dir mode dev) s
    (fun r s' => r = (mknod_spec cur h now dir d mode dev a).1 /\ Rel [] s' (mknod_spec cur h now dir d mode dev a).2).
Proof.
  intros HR Ed Hl. unfold shmem_mknod, shmem_get_inode, mknod_spec. fwp. apply (runs_reserve_inode s a); [done| |].
  { intros -> s' HR'. change (- ENOSPC =? 0) with false. cbn [negb]. fwp. done. }
  intros -> s1 HR1. cbn [Z.eqb negb]. set (a1 := if negb (f_max a =? 0) then set_free (f_free a - 1) a else a) in *.
  assert (Ei1 : f_inodes a1 = f_inodes a) by (subst a1; by destruct (negb _)). rewrite <-Ei1 in Ed, Hl. clearbody a1.
  fwp. apply (runs_kmalloc [] s1 a1); [done|]. intros HR2. set (s2 := with_mem _ s1) in *.
  set (a2 := set_mem _ a1) in *. destruct (mem_next (f_mem a1)).
  2: { fwp. apply (runs_free_inode [] s2 a2); [done|]. intros s3 _ HR3. fwp. done. }
  fwp. unfold id. assert (Es : length (inodes s2) = length (f_inodes a2) /\ sb s2 = f_sb a2).
  { rewrite <-(rel_abs _ _ _ HR2). cbn. by rewrite length_fmap. }
  destruct Es as [Es Esb]. rewrite Es, Esb. cbv beta. set (n := length (f_inodes a2)).
  assert (Hn : n <> dir) by (apply lookup_lt_Some in Ed; subst n; cbn; lia).
  pose proof (rel_append s2 a2 (mk_inode (u16 mode) (current_fsuid cur) (current_fsgid cur)
    (if S_ISCHR mode || S_ISBLK mode then dev else 0) (if S_ISDIR mode then 2 * BOGO_DIRENT_SIZE else 0) now now now 0
    (f_sb a2) None None) HR2 eq_refl Hl) as HR3.
  change (abs_inode (acls s2) _) with (fresh_inode cur now mode dev a2) in HR3. unfold cache_no_acl, set_acls. cbn [i_mode i_uid i_gid i_rdev i_size i_atime i_mtime i_ctime i_flags i_sb].
  set (i := fresh_inode cur now mode dev a2) in *. set (a3 := set_inodes _ a2) in *.
  assert (E3 : f_inodes a3 !! n = Some (Some i)) by (cbn; by apply list_lookup_middle).
  assert (Ed3 : f_inodes a3 !! dir = Some (Some d)) by (cbn; by apply lookup_app_l_Some).
  destruct (negb (init_security h =? 0) && negb (init_security h =? - EOPNOTSUPP)).
  { fwp. eapply runs_mono; [by apply (runs_delete_inode n i _ a3)|]. intros [] s4 HR4. fwp. done. }
  fwp. eapply runs_mono; [by apply (runs_acl_init cur shmem_acl_ops n dir i d _ a3)|]. unfold meets.
  destruct (init_spec cur d i (f_mem a3)) as [[error i'] m]. intros r s4 [-> HR4]. set (a4 := set_mem m _) in *.
  assert (E4 : f_inodes a4 !! n = Some (Some i')) by (by eapply (set_inode_lookup n (Some i') (Some i) a3)).
  destruct (Z.eqb_spec error 0) as [->|]; cbn [negb].
  - apply (runs_mknod_end now dir n mode d i' s4 a4); [done|done|done| |done].
    cbn. by rewrite list_lookup_insert_ne.
  - fwp. eapply runs_mono; [by apply (runs_delete_inode n i' _ a4)|]. intros [] s5 HR5. fwp. done.
Qed.

(** *** Mode and owner *)

(** Attribute changes do not look at the ACLs. *)
Lemma vmtruncate_acls {A B} limit (x y : option B) (i : inode A) size :
  vmtruncate limit (set_acls x y i) size = ((vmtruncate limit i size).1, set_acls x y (vmtruncate limit i size).2).
Proof.
  unfold vmtruncate. change (inode_newsize_ok limit (set_acls x y i) size) with (inode_newsize_ok limit i size).
  by destruct (negb _).
Qed.

Lemma setattr_acls {A B} limit (x y : option B) (i : inode A) attr :
  inode_setattr cur limit (set_acls x y i) attr =
  ((inode_setattr cur limit i attr).1, set_acls x y (inode_setattr cur limit i attr).2).
Proof.
  unfold inode_setattr. change (i_size (set_acls x y i)) with (i_size i).
  destruct (flag (ia_valid attr) ATTR_SIZE && negb (ia_size attr =? i_size i)).
  - rewrite vmtruncate_acls. destruct (vmtruncate limit i (ia_size attr)) as [e i']. cbn [fst snd].
    destruct (negb (e =? 0)); [done|]. by destruct (flag (ia_valid attr) ATTR_MODE).
  - cbn [Z.eqb negb]. by destruct (flag (ia_valid attr) ATTR_MODE).
Qed.

Lemma setattr_keeps {A} limit (i : inode A) attr :
  i_acl (inode_setattr cur limit i attr).2 = i_acl i /\
  i_default_acl (inode_setattr cur limit i attr).2 = i_default_acl i.
Proof.
  assert (E : i = set_acls (i_acl i) (i_default_acl i) i) by (by destruct i).
  rewrite E at 1 3. rewrite !setattr_acls. done.
Qed.

Lemma setattr_abs m limit (i : inode Z) attr :
  inode_setattr cur limit (abs_inode m i) attr =
  ((inode_setattr cur limit i attr).1, abs_inode m (inode_setattr cur limit i attr).2).
Proof.
  destruct (setattr_keeps limit i attr) as [E1 E2]. unfold abs_inode at 2. rewrite E1, E2. apply setattr_acls.
Qed.

Lemma runs_setattr limit n i attr s a :
  Rel [] s a -> f_inodes a !! n = Some (Some i) ->
  runs (if negb (S_ISLNK (i_mode i)) then shmem_notify_change cur limit n attr else default_setattr cur limit n attr) s
    (meets n (setattr_spec cur limit attr i (f_mem a)) a).
Proof.
  intros HR E. destruct (rel_inode _ _ _ _ _ HR E) as (i0 & E0 & Hi).
  unfold shmem_notify_change, default_setattr, setattr_spec.
  assert (Ec : inode_change_ok cur i attr = inode_change_ok cur i0 attr) by (by rewrite Hi). rewrite Ec.
  destruct (inode_change_ok cur i0 attr) as [e attr'] eqn:E1.
  pose proof (setattr_abs (acls s) limit i0 attr') as Es. rewrite <-Hi in Es.
  destruct (setattr_keeps limit i0 attr') as [Ea Ed]. rewrite Es.
  destruct (inode_setattr cur limit i0 attr') as [e' i1] eqn:E2. cbn [fst snd] in *.
  assert (Er : refs i1 = refs i0) by (unfold refs; by rewrite Ea, Ed).
  destruct (S_ISLNK (i_mode i)); cbn [negb]; apply runs_bind, (runs_get_inode _ _ _ _ E0); rewrite E1;
    (destruct (negb (e =? 0)); [apply runs_ret; unfold meets; by rewrite set_inode_id, set_mem_id|]); rewrite E2;
    apply runs_bind, (runs_put_inode _ _ _ n i0 i1 _ HR E0 Er); intros s1 _ _ HR1.
  - rewrite andb_false_r. by apply runs_ret.
  - rewrite andb_true_r. destruct ((e' =? 0) && flag (ia_valid attr') ATTR_MODE); [|by apply runs_ret].
    eapply runs_mono; [apply (runs_acl_chmod shmem_acl_ops n (abs_inode (acls s) i1) s1 _ HR1); by eapply set_inode_lookup|].
    unfold meets. change (f_mem (set_inode n _ a)) with (f_mem a).
    destruct (chmod_spec _ (f_mem a)) as [[r i2] m]. intros r' s' [-> HR']. by rewrite set_inode_twice in HR'.
Qed.

(** The kernel stops with [BUG] when mode bits are to be set and killed. *)
Definition no_bug (attr : iattr) : bool :=
  negb (flag (ia_valid attr) (Z.lor ATTR_KILL_SUID ATTR_KILL_SGID) && flag (ia_valid attr) ATTR_MODE).

Lemma flag_clear v f g : Z.land f g = 0 -> flag (Z.land v (Z.lnot f)) g = flag v g.
Proof.
  intros Hfg. unfold flag. do 2 f_equal. rewrite <-Z.land_assoc. f_equal. apply Z.bits_inj'. intros n Hn.
  rewrite Z.land_spec, Z.lnot_spec by done. apply (f_equal (fun z => Z.testbit z n)) in Hfg.
  rewrite Z.land_spec, Z.bits_0 in Hfg. destruct (Z.testbit f n), (Z.testbit g n); done.
Qed.

Lemma notify_prepare_ok now nk kp (i : inode acl) attr :
  no_bug attr = true -> exists r, notify_prepare now nk kp i attr tt = Ok (r, tt).
Proof.
  intros Hb. unfold notify_prepare, no_bug in *. destruct (_ && (_ || _)); [by eexists|].
  set (attr1 := set_ia_times _ _ _ attr).
  set (attr2 := if flag (ia_valid attr) ATTR_KILL_PRIV
                then set_ia_valid (Z.land (ia_valid attr1) (Z.lnot ATTR_KILL_PRIV)) attr1 else attr1).
  destruct (negb ((if flag (ia_valid attr) ATTR_KILL_PRIV then if 0 <? nk then kp else nk else 0) =? 0)); [by eexists|].
  assert (E : forall g, Z.land ATTR_KILL_PRIV g = 0 -> flag (ia_valid attr2) g = flag (ia_valid attr) g).
  { intros g Hg. subst attr2. destruct (flag (ia_valid attr) ATTR_KILL_PRIV); [|done]. by apply flag_clear. }
  rewrite !E by done. apply negb_true_iff in Hb. rewrite Hb. destruct (_ =? 0); by eexists.
Qed.

Lemma runs_notify_change h now limit n i attr s a :
  Rel [] s a -> f_inodes a !! n = Some (Some i) -> no_bug attr = true ->
  runs (notify_change cur h now limit n attr) s (meets n (notify_spec cur h now limit attr i (f_mem a)) a).
Proof.
  intros HR E Hb. destruct (rel_inode _ _ _ _ _ HR E) as (i0 & E0 & Hi). unfold notify_change, notify_spec.
  apply runs_bind, (runs_get_inode _ _ _ _ E0).
  destruct (notify_prepare_ok now (need_killpriv h) (killpriv h) i attr Hb) as (r & Er). rewrite Er.
  apply runs_bind. eapply runs_ok; [apply zoom_ok; rewrite <-Er, Hi; reflexivity|].
  destruct r as [e|attr']; [apply runs_ret; unfold meets; by rewrite set_inode_id, set_mem_id|].
  destruct (negb (inode_setattr_hook h =? 0)); [apply runs_ret; unfold meets; by rewrite set_inode_id, set_mem_id|].
  replace (i_mode i0) with (i_mode i) by (by rewrite Hi). by apply runs_setattr.
Qed.

Lemma runs_chmod_common h now limit n mode attr i s a :
  Rel [] s a -> f_inodes a !! n = Some (Some i) ->
  runs (chmod_common cur h now limit n mode attr) s
    (meets n (notify_spec cur h now limit (chmod_attr mode attr i) i (f_mem a)) a).
Proof.
  intros HR E. destruct (rel_inode _ _ _ _ _ HR E) as (i0 & E0 & Hi). apply runs_bind, (runs_get_inode _ _ _ _ E0).
  replace (i_mode i0) with (i_mode i) by (by rewrite Hi). by apply runs_notify_change.
Qed.

Lemma chown_no_bug user group attr i : no_bug (chown_attr user group attr i) = true.
Proof.
  unfold no_bug. apply negb_true_iff, andb_false_intro2. unfold chown_attr. cbn [ia_valid].
  by destruct (given user), (given group), (S_ISDIR (i_mode i)).
Qed.

Lemma runs_chown_common h now limit n user group attr i s a :
  Rel [] s a -> f_inodes a !! n = Some (Some i) ->
  runs (chown_common cur h now limit n user group attr) s
    (meets n (notify_spec cur h now limit (chown_attr user group attr i) i (f_mem a)) a).
Proof.
  intros HR E. destruct (rel_inode _ _ _ _ _ HR E) as (i0 & E0 & Hi). apply runs_bind, (runs_get_inode _ _ _ _ E0).
  replace (i_mode i0) with (i_mode i) by (by rewrite Hi). by apply runs_notify_change, chown_no_bug.
Qed.
End Refinement.
