(* ===== verification/TmpFsProps.v ===== *)
(** Sequences of tmpfs operations: the operations as data, their execution and
    their specification, and that the execution of any sequence on live inodes
    follows the specification. *)
From stdpp Require Import strings.
From S2P Require Import Prelude Wp Creds PosixAcl UserMem Vfs XattrAcl FileAcl FileAclRel FileAclSpec FileAclRefine.
From S2P Require Import TmpFs.

(** ** Operations *)

(** The calls into tmpfs, each with the task that makes it; [dflt] selects the
    handlers of the default ACL. *)
Inductive op {T : Type} : Type :=
  | Mknod (cur : T) (h : hooks) (now : timespec) (dir : nat) (mode dev : Z)
  | Delete (n : nat)
  | SetAcl (cur : T) (dflt : bool) (n : nat) (name : string) (value : option (list Z))
  | GetAcl (dflt : bool) (n : nat) (name : string) (buffer : bool) (size : Z)
  | ListAcl (dflt : bool) (n : nat) (list : bool) (size : Z)
  | CheckAcl (cur : T) (n : nat) (mask : Z)
  | Chmod (cur : T) (h : hooks) (now : timespec) (limit : Z) (n : nat) (mode : Z) (attr : iattr)
  | Chown (cur : T) (h : hooks) (now : timespec) (limit : Z) (n : nat) (user group : Z) (attr : iattr).
Arguments op : clear implicits.

Inductive reply : Type :=
  | Code (error : Z) (created : option nat)
  | Bytes (r : Z * list Z)
  | Name (r : Z * option string).

Section Ops.
  Context {T : Type} `{Subject T}.

Definition do_op (o : op T) : M fstate reply :=
  let code m := let! e := m in ret (Code e None) in
  match o with
  | Mknod cur h now dir mode dev => let! (e, n) := shmem_mknod cur h now dir mode dev in ret (Code e n)
  | Delete n => delete_inode n ;;; ret (Code 0 None)
  | SetAcl cur false n name value => code (shmem_set_acl_access cur n name value)
  | SetAcl cur true n name value => code (shmem_set_acl_default cur n name value)
  | GetAcl false n name buffer size => let! r := shmem_get_acl_access n name buffer size in ret (Bytes r)
  | GetAcl true n name buffer size => let! r := shmem_get_acl_default n name buffer size in ret (Bytes r)
  | ListAcl false n list size => let! r := shmem_list_acl_access n list size in ret (Name r)
  | ListAcl true n list size => let! r := shmem_list_acl_default n list size in ret (Name r)
  | CheckAcl cur n mask => code (shmem_check_acl cur n mask)
  | Chmod cur h now limit n mode attr => code (chmod_common cur h now limit n mode attr)
  | Chown cur h now limit n user group attr => code (chown_common cur h now limit n user group attr)
  end.

Fixpoint do_ops (l : list (op T)) : M fstate (list reply) :=
  match l with
  | [] => ret []
  | o :: l => let! r := do_op o in let! rs := do_ops l in ret (r :: rs)
  end.

(** *** On contents *)

Definition target (o : op T) : nat :=
  match o with
  | Mknod _ _ _ n _ _ | Delete n | SetAcl _ _ n _ _ | GetAcl _ n _ _ _ | ListAcl _ n _ _ | CheckAcl _ n _
  | Chmod _ _ _ _ n _ _ | Chown _ _ _ _ n _ _ _ => n
  end.

Definition acl_type (dflt : bool) : Z := if dflt then ACL_TYPE_DEFAULT else ACL_TYPE_ACCESS.

Definition on_inode (n : nat) (r : Z * inode acl * list bool) (a : files) : reply * files :=
  let '(e, i, m) := r in (Code e None, set_mem m (set_inode n (Some i) a)).

Definition spec_op (o : op T) (a : files) : reply * files :=
  match mjoin (f_inodes a !! target o) with
  | None => (Code 0 None, a)
  | Some i =>
      match o with
      | Mknod cur h now dir mode dev =>
          let '((e, n), a) := mknod_spec cur h now dir i mode dev a in (Code e n, a)
      | Delete n => (Code 0 None, delete_spec n a)
      | SetAcl cur dflt n name value =>
          if negb (String.eqb name "") then (Code (- EINVAL) None, a)
          else on_inode n (set_spec cur (acl_type dflt) value i (f_mem a)) a
      | GetAcl dflt n name buffer size =>
          if negb (String.eqb name "") then (Bytes (- EINVAL, []), a)
          else (Bytes (get_spec (acl_type dflt) buffer size i), a)
      | ListAcl dflt n list size => (Name (list_spec (acl_type dflt) list size i), a)
      | CheckAcl cur n mask => (Code (check_spec cur mask i) None, a)
      | Chmod cur h now limit n mode attr =>
          on_inode n (notify_spec cur h now limit (chmod_attr mode attr i) i (f_mem a)) a
      | Chown cur h now limit n user group attr =>
          on_inode n (notify_spec cur h now limit (chown_attr user group attr i) i (f_mem a)) a
      end
  end.

Fixpoint spec_ops (l : list (op T)) (a : files) : list reply * files :=
  match l with
  | [] => ([], a)
  | o :: l => let '(r, a) := spec_op o a in let '(rs, a) := spec_ops l a in (r :: rs, a)
  end.

(** The caller has a reference to the inode, so it is there. *)
Definition live (a : files) (n : nat) : bool := if mjoin (f_inodes a !! n) is Some _ then true else false.

Fixpoint ops_live (l : list (op T)) (a : files) : bool :=
  match l with [] => true | o :: l => live a (target o) && ops_live l (spec_op o a).2 end.

Lemma live_lookup a n : live a n = true -> exists i, f_inodes a !! n = Some (Some i) /\ mjoin (f_inodes a !! n) = Some i.
Proof. unfold live. destruct (f_inodes a !! n) as [[i|]|] eqn:E; try done. by exists i. Qed.

(** ** One operation *)

Definition room (k : nat) (a : files) : Prop := Z.of_nat (2 * (length (f_inodes a) + k) + max_held) < 2 ^ 31.

Lemma runs_on_inode n m spec s a :
  runs m s (meets n spec a) ->
  runs (let! e := m in ret (Code e None)) s (fun r s' => r = (on_inode n spec a).1 /\ Rel [] s' (on_inode n spec a).2).
Proof.
  intros Hm. apply runs_bind. eapply runs_mono; [done|]. unfold meets, on_inode. destruct spec as [[e i] m'].
  intros r s' [-> HR]. by apply runs_ret.
Qed.

Lemma runs_op o s a :
  Rel [] s a -> live a (target o) = true -> room 1 a ->
  runs (do_op o) s (fun r s' => r = (spec_op o a).1 /\ Rel [] s' (spec_op o a).2).
Proof.
  intros HR (i & E & Em)%live_lookup Hroom. unfold spec_op. rewrite Em.
  destruct o as [cur h now dir mode dev|n|cur dflt n name value|dflt n name buffer size|dflt n list size|cur n mask
    |cur h now limit n mode attr|cur h now limit n user group attr]; cbn [do_op target] in *.
  - apply runs_bind. eapply runs_mono; [apply (runs_mknod cur h now dir i mode dev s a HR E); unfold room in Hroom; lia|].
    destruct (mknod_spec cur h now dir i mode dev a) as [[e n] a']. intros r s' [-> HR']. by apply runs_ret.
  - apply runs_bind. eapply runs_mono; [by apply (runs_delete_inode n i s a)|]. intros [] s' HR'. by apply runs_ret.
  - destruct dflt; unfold shmem_set_acl_access, shmem_set_acl_default; destruct (negb (String.eqb name ""));
      try (fwp; done); apply runs_on_inode; by apply (runs_acl_set cur shmem_acl_ops).
  - destruct dflt; unfold shmem_get_acl_access, shmem_get_acl_default; destruct (negb (String.eqb name ""));
      try (fwp; done); apply runs_bind; (eapply runs_mono; [by apply (runs_acl_get shmem_acl_ops n i)|]);
      intros r s' [-> HR']; by apply runs_ret.
  - destruct dflt; apply runs_bind; (eapply runs_mono; [by apply (runs_acl_list shmem_acl_ops n i)|]);
      intros r s' [-> HR']; by apply runs_ret.
  - apply runs_bind. eapply runs_mono; [by apply (runs_check_acl cur n i)|]. intros r s' [-> HR']. by apply runs_ret.
  - apply runs_on_inode. by apply runs_chmod_common.
  - apply runs_on_inode. by apply runs_chown_common.
Qed.

(** At most one inode is added. *)
Lemma on_inode_length n r a : length (f_inodes (on_inode n r a).2) = length (f_inodes a).
Proof. destruct r as [[e i] m]. cbn. by rewrite length_insert. Qed.

Lemma give_back_length a : length (f_inodes (give_back a)) = length (f_inodes a).
Proof. unfold give_back. by destruct (negb _). Qed.

Lemma mknod_length cur h now dir d mode dev a :
  (length (f_inodes (mknod_spec cur h now dir d mode dev a).2) <= S (length (f_inodes a)))%nat.
Proof.
  unfold mknod_spec. destruct (_ && _); [cbn; lia|]. set (a1 := if negb (f_max a =? 0) then _ else a).
  assert (E : length (f_inodes a1) = length (f_inodes a)) by (subst a1; by destruct (negb _)). rewrite <-E. clearbody a1.
  destruct (mem_next (f_mem a1)); [|cbn [snd]; rewrite give_back_length; cbn; lia].
  destruct (_ && _); [cbn [snd]; unfold delete_spec; cbn; rewrite length_insert, give_back_length; cbn; rewrite length_app; cbn; lia|].
  destruct (init_spec _ _ _ _) as [[e i] m]. destruct (negb (e =? 0)); cbn.
  - rewrite length_insert, give_back_length. cbn. rewrite length_insert, length_app. cbn. lia.
  - rewrite !length_insert, length_app. cbn. lia.
Qed.

Lemma spec_op_length o a : (length (f_inodes (spec_op o a).2) <= S (length (f_inodes a)))%nat.
Proof.
  unfold spec_op. destruct (mjoin (f_inodes a !! target o)) as [i|]; [|cbn; lia].
  destruct o as [cur h now dir mode dev|n|cur dflt n name value|dflt n name buffer size|dflt n list size|cur n mask
    |cur h now limit n mode attr|cur h now limit n user group attr].
  - pose proof (mknod_length cur h now dir i mode dev a) as Hl. by destruct (mknod_spec _ _ _ _ _ _ _ _) as [[e n] a'].
  - cbn. rewrite length_insert, give_back_length. lia.
  - destruct (negb _); [cbn; lia|]. rewrite on_inode_length. lia.
  - destruct (negb _); cbn; lia.
  - cbn. lia.
  - cbn. lia.
  - rewrite on_inode_length. lia.
  - rewrite on_inode_length. lia.
Qed.

Lemma runs_ops l : forall s a,
  Rel [] s a -> ops_live l a = true -> room (length l) a ->
  runs (do_ops l) s (fun rs s' => rs = (spec_ops l a).1 /\ Rel [] s' (spec_ops l a).2).
Proof.
  induction l as [|o l IH]; intros s a HR Hl Hroom; cbn [do_ops spec_ops]; [by apply runs_ret|].
  apply andb_true_iff in Hl as [Ho Hl]. unfold room in *. cbn [length] in Hroom.
  apply runs_bind. eapply runs_mono; [apply (runs_op o s a HR Ho); unfold room; lia|].
  pose proof (spec_op_length o a) as Hlen. destruct (spec_op o a) as [r a1]. cbn [fst snd] in *. intros r' s1 [-> HR1].
  apply runs_bind. eapply runs_mono; [apply (IH s1 a1 HR1 Hl); lia|].
  destruct (spec_ops l a1) as [rs a2]. intros rs' s2 [-> HR2]. by apply runs_ret.
Qed.
End Ops.
