(* ===== verification/TmpFsModes.v ===== *)
(** Modes and ACLs of tmpfs files agree.

    A file whose access ACL has more than the three basic entries keeps the
    ACL's owner, mask and other permissions in the permission bits of its mode;
    default ACLs are on directories only; every stored ACL is valid.  The
    operations of [TmpFs.v] preserve this, as long as [chmod] and [chown] get
    the memory they need. *)
From S2P Require Import Prelude Wp Creds PosixAcl UserMem Vfs XattrAcl FileAcl FileAclRel FileAclSpec FileAclRefine.
From S2P Require Import TmpFs TmpFsProps.

(** ** File types *)

Definition same_type (x y : Z) : Prop := Z.land x S_IFMT = Z.land y S_IFMT.

#[export] Instance same_type_equiv : Equivalence same_type.
Proof. split; unfold same_type; congruence. Qed.

(** The type of a file is in bits 12 to 15 of its mode. *)
Lemma same_type_bits x y : (forall n, 12 <= n < 16 -> Z.testbit x n = Z.testbit y n) -> same_type x y.
Proof.
  intros Hb. apply Z.bits_inj'. intros n Hn. rewrite !Z.land_spec.
  change S_IFMT with (Z.shiftl (Z.ones 4) 12). rewrite Z.shiftl_spec, Z.testbit_ones by lia.
  destruct ((0 <=? n - 12) && (n - 12 <? 4)) eqn:E; [|by rewrite !andb_false_r]. rewrite !andb_true_r. apply Hb. lia.
Qed.

Lemma is_type_same t x y : same_type x y -> is_type t x = is_type t y.
Proof. unfold same_type, is_type. by intros ->. Qed.

#[export] Instance S_ISDIR_proper : Proper (same_type ==> eq) S_ISDIR.
Proof. intros x y. apply is_type_same. Qed.
#[export] Instance S_ISLNK_proper : Proper (same_type ==> eq) S_ISLNK.
Proof. intros x y. apply is_type_same. Qed.

(** Bits past those of a constant. *)
Lemma bit_past c n k : 0 <= c < 2 ^ k -> k <= n -> Z.testbit c n = false.
Proof.
  intros Hc Hn. destruct (decide (c = 0)) as [->|]; [apply Z.bits_0|].
  apply Z.bits_above_log2; [lia|]. assert (Z.log2 c < k) by (apply Z.log2_lt_pow2; lia). lia.
Qed.

Lemma type_lor x c : 0 <= c < 4096 -> same_type (Z.lor x c) x.
Proof.
  intros Hc. apply same_type_bits. intros n Hn. rewrite Z.lor_spec, (bit_past c n 12) by lia. apply orb_false_r.
Qed.

Lemma type_ldiff x c : 0 <= c < 4096 -> same_type (Z.land x (Z.lnot c)) x.
Proof.
  intros Hc. apply same_type_bits. intros n Hn. rewrite Z.land_spec, Z.lnot_spec, (bit_past c n 12) by lia. apply andb_true_r.
Qed.

Lemma type_merge x y c : 0 <= c < 4096 -> same_type (Z.lor (Z.land x c) (Z.land y (Z.lnot c))) y.
Proof.
  intros Hc. apply same_type_bits. intros n Hn.
  rewrite Z.lor_spec, !Z.land_spec, Z.lnot_spec, (bit_past c n 12) by lia. by rewrite andb_false_r, andb_true_r.
Qed.

(** ** The mode an ACL stands for *)

Lemma equiv_shape es :
  acl_ok es -> exists ne k, (ne = 0 \/ ne = 1) /\ 0 <= k < 512 /\
    forall rc p, posix_acl_equiv_mode (mk_acl rc es) p = (ne, Z.lor (Z.land p (Z.lnot S_IRWXUGO)) k).
Proof.
  intros [Hp (u & us & g & gs & mk & o & Hf)]. destruct (form_perms _ _ _ _ _ _ _ Hf Hp) as (Pu & Pg & Po).
  exists (match mk with [] => 0 | _ => 1 end), (mode3 (e_perm u) (e_perm (group_of g mk)) (e_perm o)).
  split_and!; [destruct mk; auto| | |intros rc p; apply (equiv_mode_form _ _ _ _ _ _ _ rc p Hf Hp)]; unfold perm_ok, mode3 in *.
  - rewrite !Z.lor_nonneg, !Z.shiftl_nonneg. lia.
  - rewrite !Z.shiftl_mul_pow2 by lia. set (x := Z.lor _ _).
    assert (Hx : 0 <= x) by (subst x; rewrite !Z.lor_nonneg; lia).
    assert (Hl : forall n, 9 <= n -> Z.testbit x n = false).
    { intros n Hn. subst x. rewrite <-!Z.shiftl_mul_pow2, !Z.lor_spec, !Z.shiftl_spec by lia.
      by rewrite !(bit_past _ _ 3) by lia. }
    destruct (Z.ltb_spec x 512); [done|]. exfalso. specialize (Hl (Z.log2 x)).
    rewrite Z.bit_log2 in Hl by lia. discriminate Hl. apply Z.log2_le_pow2; lia.
Qed.

(** The mode has the permissions of the ACL, which has more than three entries. *)
Definition agrees (m : Z) (es : acl) : Prop := posix_acl_equiv_mode (mk_acl 1 es) m = (1, m).

(** Only the permission bits matter. *)
Lemma agrees_low es m m' :
  acl_ok es -> Z.land m' S_IRWXUGO = Z.land m S_IRWXUGO -> agrees m es -> agrees m' es.
Proof.
  intros Hok Hm. destruct (equiv_shape es Hok) as (ne & k & _ & Hk & He). unfold agrees. rewrite !He.
  intros [= -> Em]. f_equal. rewrite <-Em in Hm. apply Z.bits_inj'. intros n Hn.
  apply (f_equal (fun z => Z.testbit z n)) in Hm.
  rewrite Z.lor_spec, !Z.land_spec, ?Z.lor_spec, ?Z.land_spec, Z.lnot_spec in * by lia.
  assert (E : Z.testbit S_IRWXUGO n = (n <? 9)).
  { change S_IRWXUGO with (Z.ones 9). by rewrite Z.testbit_ones_nonneg by lia. }
  rewrite E in *. destruct (Z.ltb_spec n 9).
  - rewrite andb_false_r, !andb_true_r, orb_false_l in *. done.
  - rewrite (bit_past k n 9) by lia. by rewrite andb_true_r, orb_false_r.
Qed.

(** Modes that agree with one ACL have the same permission bits. *)
Lemma agrees_bits es m m' :
  acl_ok es -> agrees m es -> agrees m' es -> Z.land m S_IRWXUGO = Z.land m' S_IRWXUGO.
Proof.
  intros Hok. destruct (equiv_shape es Hok) as (ne & k & _ & _ & He). unfold agrees. rewrite !He.
  intros [= _ <-] [= _ <-]. rewrite !Z.land_lor_distr_l, <-!Z.land_assoc.
  change (Z.land (Z.lnot S_IRWXUGO) S_IRWXUGO) with 0. by rewrite !Z.land_0_r.
Qed.

(** Setting the mode to that of the ACL makes them agree. *)
Lemma equiv_agrees es m ne m' :
  acl_ok es -> posix_acl_equiv_mode (mk_acl 1 es) m = (ne, m') ->
  same_type m' m /\ (ne = 0 \/ ne = 1) /\ posix_acl_equiv_mode (mk_acl 1 es) m' = (ne, m').
Proof.
  intros Hok. destruct (equiv_shape es Hok) as (ne' & k & Hne & Hk & He). rewrite !He. intros [= <- <-].
  split_and!; [|done|].
  - rewrite type_lor by lia. by apply type_ldiff.
  - f_equal. rewrite Z.land_lor_distr_l, <-Z.land_assoc, Z.land_diag. rewrite <-Z.lor_assoc. f_equal.
    apply Z.bits_inj'. intros n Hn. rewrite Z.lor_spec, Z.land_spec. by destruct (Z.testbit k n), (Z.testbit _ n).
Qed.

Lemma with_bits_same m : with_bits m m = m.
Proof.
  unfold with_bits. apply Z.bits_inj'. intros n Hn. rewrite Z.lor_spec, !Z.land_spec, Z.lnot_spec by lia.
  by destruct (Z.testbit m n), (Z.testbit S_IRWXUGO n).
Qed.

(** ** Files *)

Definition stored (es : acl) : Prop := acl_ok es /\ Forall canonical es.

Record file_ok (i : inode acl) : Prop := {
  file_link : S_ISLNK (i_mode i) = true -> i_acl i = None;
  file_acl : forall es, i_acl i = Some es -> stored es /\ agrees (i_mode i) es;
  file_default : forall es, i_default_acl i = Some es -> S_ISDIR (i_mode i) = true /\ stored es;
}.

Lemma stored_typed es : Forall canonical es -> Forall typed es.
Proof. rewrite !Forall_forall. intros Hc e He. apply (Hc e He). Qed.

(** Changes of permissions keep an ACL storable. *)
Lemma canonical_perm e p : canonical e -> 0 <= p < 8 -> canonical (set_perm p e).
Proof. intros [[_ Hi] He] Hp. split; [|done]. split; [cbn; lia|done]. Qed.

Lemma canonical_put es u us g gs mk o pu pg po :
  acl_form es u us g gs mk o -> Forall canonical es -> 0 <= pu < 8 -> 0 <= pg < 8 -> 0 <= po < 8 ->
  let '(g', mk') := put_group pg g mk in Forall canonical (build (set_perm pu u) us g' gs mk' (set_perm po o)).
Proof.
  intros [-> _ _ _ _ Hm _] Hc Bu Bg Bo. unfold build.
  apply Forall_cons in Hc as [Cu Hc]. apply Forall_app in Hc as [Cus Hc]. apply Forall_cons in Hc as [Cg Hc].
  apply Forall_app in Hc as [Cgs Hc]. apply Forall_app in Hc as [Cm Co]. apply Forall_cons_1 in Co as [Co _].
  assert (Hmk : mk = [] \/ exists m, mk = [m]) by (destruct Hm as [(? & _)|(m & ? & _)]; eauto).
  destruct Hmk as [-> | (m & ->)]; cbn [put_group]; [|apply Forall_cons_1 in Cm as [Cm _]];
    repeat (apply Forall_app_2 || apply Forall_cons_2 || apply Forall_nil_2); auto using canonical_perm.
Qed.

Lemma chmod_stored es mode rc :
  stored es -> exists acl', posix_acl_chmod_masq (mk_acl rc es) mode = (0, acl') /\ stored (a_entries acl') /\
    forall p, posix_acl_equiv_mode (mk_acl 1 (a_entries acl')) p =
              ((posix_acl_equiv_mode (mk_acl 1 es) p).1, with_bits p mode).
Proof.
  intros [Hok Hc]. destruct (chmod_masq_ok rc es mode 0 Hok) as (acl' & E & Hok' & _). exists acl'.
  split; [done|]. split.
  - split; [done|]. destruct Hok as [Hp (u & us & g & gs & mk & o & Hf)].
    rewrite (chmod_form _ _ _ _ _ _ _ rc mode Hf) in E. injection E as <-.
    pose proof (canonical_put _ _ _ _ _ _ _ (Z.shiftr (Z.land mode S_IRWXU) 6) (Z.shiftr (Z.land mode S_IRWXG) 3)
      (Z.land mode S_IRWXO) Hf Hc) as Hput.
    destruct (put_group _ g mk) as [g' mk']. apply Hput; try (by apply mode_perm).
    rewrite Z.land_comm. by apply perm_land.
  - intros p. destruct (chmod_masq_ok rc es mode p Hok) as (acl'' & E' & _ & He). rewrite E in E'. by injection E' as <-.
Qed.

Lemma create_stored es mode rc :
  stored es -> exists ne acl' mode', posix_acl_create_masq (mk_acl rc es) mode = (ne, acl', mode') /\
    stored (a_entries acl') /\ same_type mode' mode /\ (ne = 0 \/ ne = 1) /\
    posix_acl_equiv_mode (mk_acl 1 (a_entries acl')) mode' = (ne, mode').
Proof.
  intros [Hok Hc]. destruct (create_masq_ok rc es mode 0 Hok) as (ne & acl' & mode' & E & Hok' & Em & _).
  exists ne, acl', mode'. split; [done|]. split_and!.
  - split; [done|]. destruct Hok as [Hp (u & us & g & gs & mk & o & Hf)].
    destruct (form_perms _ _ _ _ _ _ _ Hf Hp) as (Pu & Pg & Po).
    rewrite (create_form _ _ _ _ _ _ _ rc mode Hf Hp) in E. injection E as _ <- _.
    pose proof (canonical_put _ _ _ _ _ _ _ (Z.land (e_perm u) (Z.shiftr mode 6))
      (Z.land (e_perm (group_of g mk)) (Z.shiftr mode 3)) (Z.land (e_perm o) mode) Hf Hc) as Hput.
    destruct (put_group _ g mk) as [g' mk']. apply Hput; by apply perm_land.
  - destruct (equiv_shape es Hok) as (ne' & k & _ & Hk & He). rewrite Em, He. cbn [snd].
    apply same_type_bits. intros n Hn. rewrite Z.land_spec, Z.lor_spec, Z.land_spec, Z.lnot_spec by lia.
    rewrite (bit_past k n 9) by lia. rewrite (bit_past S_IRWXUGO n 9); [|by vm_compute|lia].
    by destruct (Z.testbit mode n).
  - destruct (create_masq_ok rc es mode mode' Hok) as (ne2 & acl2 & mode2 & E2 & _ & _ & He).
    rewrite E in E2. injection E2 as <- <- <-. destruct (equiv_shape _ Hok') as (ne' & k & Hne & _ & He').
    destruct acl' as [rc' es']. rewrite He' in He. injection He as -> _. done.
  - destruct (create_masq_ok rc es mode mode' Hok) as (ne2 & acl2 & mode2 & E2 & _ & _ & He).
    rewrite E in E2. injection E2 as <- <- <-. destruct acl' as [rc' es']. cbn [a_entries]. etransitivity; [exact He|].
    by rewrite with_bits_same.
Qed.

(** ** Operations on one file *)

Section Preserve.
  Context {T : Type} `{SubjectLaws T} (cur : T).
  Implicit Types (i d : inode acl) (m : list bool).

(** The mode changes, but neither the type nor the permission bits. *)
Lemma file_ok_mode i mode :
  same_type mode (i_mode i) -> Z.land mode S_IRWXUGO = Z.land (i_mode i) S_IRWXUGO -> file_ok i -> file_ok (set_mode mode i).
Proof.
  intros Ht Hm [Hl Ha Hd]. split; cbn.
  - by rewrite Ht.
  - intros es E. destruct (Ha es E) as [Hs Hg]. split; [done|]. by apply (agrees_low es (i_mode i) mode (proj1 Hs)).
  - intros es E. rewrite Ht. by apply Hd.
Qed.

Lemma install_ok type es i :
  file_ok i -> S_ISLNK (i_mode i) = false -> Forall canonical es -> file_ok (install type es i).2.
Proof.
  intros Hi Hlnk Hc. unfold install. destruct (Z.eqb_spec (posix_acl_valid (mk_acl 1 es)) 0) as [Hv|]; cbn [negb]; [|done].
  assert (Hok : acl_ok es) by (by apply (valid_iff es (stored_typed es Hc))).
  unfold set_slot. destruct (type =? ACL_TYPE_ACCESS).
  - destruct (posix_acl_equiv_mode (mk_acl 1 es) (i_mode i)) as [error mode] eqn:E.
    destruct (equiv_agrees es (i_mode i) error mode Hok E) as (Ht & Hne & Hag).
    destruct Hi as [Hl Ha Hd]. destruct Hne as [-> | ->]; cbn [Z.ltb Z.compare Z.eqb snd fst]; split; cbn; try done.
    + intros es' E'. rewrite Ht. by apply Hd.
    + rewrite Ht. by rewrite Hlnk.
    + by intros es' [= <-].
    + intros es' E'. rewrite Ht. by apply Hd.
  - destruct ((type =? ACL_TYPE_DEFAULT) && negb (S_ISDIR (i_mode i))) eqn:Ed; [done|].
    destruct (type =? ACL_TYPE_DEFAULT); [|done]. apply negb_false_iff in Ed.
    destruct Hi as [Hl Ha Hd]. split; cbn; try done. by intros es' [= <-].
Qed.

Lemma decode_stored value m es m' :
  (forall v, value = Some v -> Forall is_byte v) -> decode value m = (inr (Some es), m') -> Forall canonical es.
Proof.
  intros Hb. unfold decode. destruct value as [v|]; [|done]. repeat case_match; try done. intros [= -> _].
  eapply decode_canonical; [|done]. apply Forall_drop. by apply Hb.
Qed.

Lemma set_spec_ok type value i m :
  (forall v, value = Some v -> Forall is_byte v) -> file_ok i -> file_ok (set_spec cur type value i m).1.2.
Proof.
  intros Hb Hi. unfold set_spec. destruct (S_ISLNK (i_mode i)) eqn:Hl; [done|]. destruct (negb _); [done|].
  destruct (decode value m) as [[e|[es|]] m'] eqn:E; [done| |].
  - pose proof (install_ok type es i Hi Hl (decode_stored _ _ _ _ Hb E)) as Hok.
    by destruct (install type es i) as [r i'].
  - destruct Hi as [Hl' Ha Hd]. unfold set_slot. repeat case_match; split; cbn; done.
Qed.

Lemma inherit_ok es mode i :
  stored es -> same_type mode (i_mode i) -> S_ISLNK (i_mode i) = false -> i_acl i = None -> file_ok i ->
  file_ok (inherit es mode i).
Proof.
  intros Hs Ht Hlnk Hn [Hl Ha Hd]. unfold inherit.
  destruct (create_stored es mode 1 Hs) as (ne & acl' & mode' & -> & Hs' & Ht' & Hne & He).
  assert (Htt : same_type mode' (i_mode i)) by (by transitivity mode).
  assert (Hd' : forall es, i_default_acl i = Some es -> S_ISDIR mode' = true /\ stored es).
  { intros es' E'. rewrite Htt. by apply Hd. }
  destruct Hne as [-> | ->]; cbn [Z.ltb Z.compare]; unfold set_slot; cbn [Z.eqb ACL_TYPE_ACCESS Pos.eqb];
    split; cbn; rewrite ?Hn, ?Htt, ?Hlnk; try done.
  by intros es' [= <-].
Qed.

Lemma init_spec_ok d i m :
  subject_ok cur -> file_ok d -> i_acl i = None -> i_default_acl i = None -> file_ok (init_spec cur d i m).1.2.
Proof.
  intros Hcur Hd Hn1 Hn2. unfold init_spec. set (i1 := set_mode _ i).
  assert (Ht : same_type (i_mode i1) (i_mode i)).
  { apply type_ldiff. pose proof (subject_umask cur Hcur). lia. }
  assert (Hi1 : file_ok i1) by (split; cbn; congruence).
  destruct (S_ISLNK (i_mode i1)) eqn:Hl; cbn [negb]; [done|].
  destruct (i_default_acl d) as [es|] eqn:Ed; [|done]. destruct (file_default d Hd es Ed) as [_ Hs].
  assert (Hacc : forall i' m', file_ok i' -> i_acl i' = None -> i_mode i' = i_mode i1 ->
    file_ok (if mem_next m' then (0, inherit es (i_mode i) i', tail m') else (- ENOMEM, i', tail m')).1.2).
  { intros i' m' Hi' Hn' Em. destruct (mem_next m'); [|done]. apply inherit_ok; rewrite ?Em; done. }
  destruct (S_ISDIR (i_mode i1)) eqn:Edir; [|by apply Hacc].
  destruct (mem_next m); [|done]. apply Hacc; [|done|done]. destruct Hi1 as [? ? ?]. split; cbn; try done.
  by intros es' [= <-].
Qed.

(** [chmod] after the mode was set. *)
Lemma chmod_spec_ok i i1 m :
  file_ok i -> same_type (i_mode i1) (i_mode i) -> i_acl i1 = i_acl i -> i_default_acl i1 = i_default_acl i ->
  mem_next m = true -> file_ok (chmod_spec i1 m).1.2.
Proof.
  intros [Hl Ha Hd] Ht Ea Ed Hm.
  assert (Hd' : forall es, i_default_acl i1 = Some es -> S_ISDIR (i_mode i1) = true /\ stored es).
  { intros es' E'. rewrite Ht. apply Hd. congruence. }
  unfold chmod_spec. rewrite Hm, Ht, Ea. destruct (S_ISLNK (i_mode i)) eqn:Elnk.
  { split; cbn; [intros _; rewrite Ea; by apply Hl| |done]. intros es Ees. rewrite Ea, (Hl eq_refl) in Ees. done. }
  destruct (i_acl i) as [es|] eqn:Ei.
  2: { split; cbn; [done|by rewrite Ea|done]. }
  destruct (Ha es eq_refl) as [Hs Hag]. destruct (chmod_stored es (i_mode i1) 1 Hs) as (acl' & -> & Hs' & He).
  cbn [Z.eqb fst snd]. unfold set_slot. cbn [Z.eqb ACL_TYPE_ACCESS Pos.eqb]. split; cbn; rewrite ?Ht, ?Elnk; try done.
  intros es' [= <-]. split; [done|]. unfold agrees. rewrite He, with_bits_same. f_equal.
  destruct (equiv_shape es (proj1 Hs)) as (ne & k & _ & _ & Hsh). unfold agrees in Hag. rewrite Hsh in *. naive_solver.
Qed.

(** *** Attributes *)

Lemma change_ok_attr i attr :
  ia_valid (inode_change_ok cur i attr).2 = ia_valid attr /\
  same_type (ia_mode (inode_change_ok cur i attr).2) (ia_mode attr).
Proof.
  unfold inode_change_ok. repeat (case_match; try done); cbn; (split; [done|]); by apply type_ldiff.
Qed.

Lemma vmtruncate_mode limit i size : i_mode (vmtruncate limit i size).2 = i_mode i.
Proof. unfold vmtruncate. by destruct (negb _). Qed.

Lemma setattr_mode limit i attr :
  let r := inode_setattr cur limit i attr in
  if (r.1 =? 0) && flag (ia_valid attr) ATTR_MODE then same_type (i_mode r.2) (ia_mode attr) else i_mode r.2 = i_mode i.
Proof.
  unfold inode_setattr.
  set (t := if flag (ia_valid attr) ATTR_SIZE && negb (ia_size attr =? i_size i)
            then vmtruncate limit i (ia_size attr) else (0, i)).
  assert (Et : i_mode t.2 = i_mode i) by (subst t; destruct (_ && _); [apply vmtruncate_mode|done]).
  destruct t as [e i']. cbn [fst snd] in *. destruct (Z.eqb_spec e 0) as [->|Hne]; cbn [negb fst snd].
  - cbn [Z.eqb andb]. destruct (flag (ia_valid attr) ATTR_MODE); cbn; [|done].
    destruct (_ && _); [by apply type_ldiff|done].
  - by rewrite (proj2 (Z.eqb_neq e 0) Hne).
Qed.

Lemma setattr_spec_ok limit attr i m :
  file_ok i -> mem_next m = true ->
  (flag (ia_valid attr) ATTR_MODE = true -> same_type (ia_mode attr) (i_mode i)) ->
  file_ok (setattr_spec cur limit attr i m).1.2.
Proof.
  intros Hi Hm Hmode. unfold setattr_spec. pose proof (change_ok_attr i attr) as [Ev Et].
  destruct (inode_change_ok cur i attr) as [e attr']. cbn [fst snd] in *. destruct (negb _); [done|].
  pose proof (setattr_mode limit i attr') as Hset. pose proof (setattr_keeps cur limit i attr') as [Ea Ed].
  destruct (inode_setattr cur limit i attr') as [e' i1]. cbn [fst snd] in *. rewrite Ev in *.
  destruct ((e' =? 0) && flag (ia_valid attr) ATTR_MODE) eqn:Eb; cbn [andb].
  - apply andb_true_iff in Eb as [_ Eb].
    assert (Ht : same_type (i_mode i1) (i_mode i)) by (rewrite Hset, Et; by apply Hmode).
    destruct (S_ISLNK (i_mode i)) eqn:El; cbn [negb]; [|by apply (chmod_spec_ok i)].
    destruct Hi as [Hl Ha Hd]. specialize (Hl El). split; cbn.
    + by rewrite Ea.
    + intros es E. congruence.
    + intros es E. rewrite Ht. apply Hd. congruence.
  - destruct Hi as [Hl Ha Hd]. split; cbn; rewrite ?Hset, ?Ea, ?Ed; done.
Qed.

Lemma kill_bits_mode i attr :
  (flag (ia_valid attr) ATTR_MODE = true -> same_type (ia_mode attr) (i_mode i)) ->
  flag (ia_valid (kill_bits i attr)) ATTR_MODE = true -> same_type (ia_mode (kill_bits i attr)) (i_mode i).
Proof.
  intros Hm. unfold kill_bits.
  assert (Hk : forall at1, (flag (ia_valid at1) ATTR_MODE = true -> same_type (ia_mode at1) (i_mode i)) ->
    let at2 := if negb (flag (ia_valid at1) ATTR_MODE)
               then set_ia_mode (i_mode i) (set_ia_valid (Z.lor (ia_valid at1) ATTR_MODE) at1) else at1 in
    same_type (ia_mode (set_ia_mode (Z.land (ia_mode at2) (Z.lnot S_ISGID)) at2)) (i_mode i)).
  { intros at1 H1. cbn [ia_mode set_ia_mode]. rewrite type_ldiff by done.
    destruct (flag (ia_valid at1) ATTR_MODE); cbn; [by apply H1|reflexivity]. }
  destruct (flag (ia_valid attr) ATTR_KILL_SUID && flag (i_mode i) S_ISUID).
  - set (at1 := set_ia_mode _ _). assert (H1 : same_type (ia_mode at1) (i_mode i)) by (by apply type_ldiff).
    destruct (_ && _); [|done]. intros _. by apply Hk.
  - destruct (_ && _); [|done]. intros _. by apply Hk.
Qed.

Lemma notify_spec_ok h now limit attr i m :
  file_ok i -> mem_next m = true ->
  (flag (ia_valid attr) ATTR_MODE = true -> same_type (ia_mode attr) (i_mode i)) ->
  file_ok (notify_spec cur h now limit attr i m).1.2.
Proof.
  intros Hi Hm Hmode. unfold notify_spec.
  destruct (notify_prepare _ _ _ i attr tt) as [[[e|attr'] []]|] eqn:E; [done| |done].
  destruct (negb _); [done|]. apply setattr_spec_ok; [done|done|]. revert E. unfold notify_prepare.
  set (attr1 := set_ia_times _ _ _ attr).
  set (attr2 := if flag (ia_valid attr) ATTR_KILL_PRIV
                then set_ia_valid (Z.land (ia_valid attr1) (Z.lnot ATTR_KILL_PRIV)) attr1 else attr1).
  assert (H2 : flag (ia_valid attr2) ATTR_MODE = true -> same_type (ia_mode attr2) (i_mode i)).
  { subst attr2. destruct (flag (ia_valid attr) ATTR_KILL_PRIV); [|done]. cbn [ia_valid ia_mode set_ia_valid].
    rewrite flag_clear by done. done. }
  clearbody attr2. unfold ret, throw. repeat (case_match; try done); intros [= <-]; by apply kill_bits_mode.
Qed.

Lemma chmod_attr_type mode attr i : same_type (ia_mode (chmod_attr mode attr i)) (i_mode i).
Proof. cbn. by apply type_merge. Qed.

Lemma chown_attr_mode user group attr i : flag (ia_valid (chown_attr user group attr i)) ATTR_MODE = false.
Proof. unfold chown_attr. cbn [ia_valid]. by destruct (given user), (given group), (S_ISDIR (i_mode i)). Qed.
End Preserve.

(** ** Set-user-id and set-group-id bits *)

Lemma flag_bit m k : 0 <= k -> flag m (2 ^ k) = Z.testbit m k.
Proof.
  intros Hk. unfold flag. rewrite Z.land_comm. destruct (Z.testbit m k) eqn:E.
  - apply negb_true_iff, Z.eqb_neq. intros E0. apply (f_equal (fun z => Z.testbit z k)) in E0.
    by rewrite Z.land_spec, Z.pow2_bits_true, E, Z.bits_0 in E0 by lia.
  - apply negb_false_iff, Z.eqb_eq. apply Z.bits_inj'. intros n Hn. rewrite Z.land_spec, Z.pow2_bits_eqb, Z.bits_0 by lia.
    by destruct (Z.eqb_spec k n) as [<-|].
Qed.

(** No set-user-id bit, and no set-group-id bit that has an effect. *)
Definition no_setid (m : Z) : Prop := Z.testbit m 11 = false /\ Z.testbit m 10 && Z.testbit m 3 = false.

Lemma no_setid_clear m c : 0 <= c -> no_setid m -> no_setid (Z.land m (Z.lnot c)).
Proof.
  intros Hc [H1 H2]. unfold no_setid. rewrite !Z.land_spec, H1. split; [done|].
  destruct (Z.testbit m 10), (Z.testbit m 3); done || (rewrite ?andb_false_r; done).
Qed.

Lemma setgid_exec_test m :
  (Z.land m (Z.lor S_ISGID S_IXGRP) =? Z.lor S_ISGID S_IXGRP) = Z.testbit m 10 && Z.testbit m 3.
Proof.
  assert (E : forall n, 0 <= n -> Z.testbit (Z.lor S_ISGID S_IXGRP) n = (10 =? n) || (3 =? n)).
  { intros n Hn. change S_ISGID with (2 ^ 10). change S_IXGRP with (2 ^ 3). by rewrite Z.lor_spec, !Z.pow2_bits_eqb by lia. }
  apply eq_true_iff_eq. rewrite Z.eqb_eq, andb_true_iff. split.
  - intros Em. split.
    + apply (f_equal (fun z => Z.testbit z 10)) in Em. rewrite Z.land_spec, E in Em by lia. by rewrite andb_true_r in Em.
    + apply (f_equal (fun z => Z.testbit z 3)) in Em. rewrite Z.land_spec, E in Em by lia. by rewrite andb_true_r in Em.
  - intros [H1 H2]. apply Z.bits_inj'. intros n Hn. rewrite Z.land_spec, E by done.
    destruct (Z.eqb_spec 10 n) as [<-|]; [by rewrite H1|]. destruct (Z.eqb_spec 3 n) as [<-|]; [by rewrite H2|].
    apply andb_false_r.
Qed.

Section Setid.
  Context {T : Type} `{Subject T} (cur : T).
  Implicit Types (i : inode acl) (m : list bool).

(** Killing the bits: the mode that will be set, or else the present one, is
    without them. *)
Lemma kill_bits_setid i attr :
  flag (ia_valid attr) ATTR_KILL_SUID = true -> flag (ia_valid attr) ATTR_KILL_SGID = true ->
  flag (ia_valid attr) ATTR_MODE = false ->
  let attr' := kill_bits i attr in
  if flag (ia_valid attr') ATTR_MODE then no_setid (ia_mode attr') else no_setid (i_mode i).
Proof.
  intros Hu Hg Hm. unfold kill_bits. rewrite Hu, setgid_exec_test. cbn [andb].
  change S_ISUID with (2 ^ 11). rewrite flag_bit by lia.
  assert (Hor : forall v, flag (Z.lor v ATTR_MODE) ATTR_MODE = true).
  { intros v. change ATTR_MODE with (2 ^ 0). rewrite flag_bit, Z.lor_spec by lia. apply orb_true_r. }
  assert (Hor' : forall v, flag v ATTR_KILL_SGID = true -> flag (Z.lor v ATTR_MODE) ATTR_KILL_SGID = true).
  { intros v. change ATTR_KILL_SGID with (2 ^ 12). rewrite !flag_bit, Z.lor_spec by lia. by intros ->. }
  assert (Hclr : forall x, Z.testbit (Z.land x (Z.lnot S_ISGID)) 10 = false).
  { intros x. rewrite Z.land_spec. apply andb_false_r. }
  assert (Hsu : forall x, Z.testbit (Z.land x (Z.lnot (2 ^ 11))) 11 = false).
  { intros x. rewrite Z.land_spec. apply andb_false_r. }
  destruct (Z.testbit (i_mode i) 11) eqn:E11.
  - cbn [ia_valid ia_mode set_ia_mode set_ia_valid]. rewrite (Hor' _ Hg). cbn [andb].
    destruct (Z.testbit (i_mode i) 10 && Z.testbit (i_mode i) 3) eqn:E2.
    + rewrite Hor. cbn [negb ia_valid ia_mode set_ia_mode set_ia_valid]. rewrite Hor. split; [|by rewrite Hclr].
      rewrite Z.land_spec, Hsu. done.
    + cbn [ia_valid ia_mode set_ia_mode set_ia_valid]. rewrite Hor. split; [apply Hsu|].
      rewrite !Z.land_spec. by destruct (Z.testbit (i_mode i) 10), (Z.testbit (i_mode i) 3).
  - rewrite Hg. cbn [andb]. destruct (Z.testbit (i_mode i) 10 && Z.testbit (i_mode i) 3) eqn:E2.
    + rewrite Hm. cbn [negb ia_valid ia_mode set_ia_mode set_ia_valid]. rewrite Hor. split; [|by rewrite Hclr].
      by rewrite Z.land_spec, E11.
    + rewrite Hm. done.
Qed.

Lemma chmod_spec_attrs i m :
  let i' := (chmod_spec i m).1.2 in i_mode i' = i_mode i /\ i_uid i' = i_uid i /\ i_gid i' = i_gid i.
Proof.
  unfold chmod_spec. repeat (case_match; try done).
Qed.

Lemma change_ok_mode i attr :
  ia_mode (inode_change_ok cur i attr).2 = ia_mode attr \/
  ia_mode (inode_change_ok cur i attr).2 = Z.land (ia_mode attr) (Z.lnot S_ISGID).
Proof. unfold inode_change_ok. repeat (case_match; try (by left)); by right. Qed.

Lemma change_ok_ids i attr :
  ia_uid (inode_change_ok cur i attr).2 = ia_uid attr /\ ia_gid (inode_change_ok cur i attr).2 = ia_gid attr.
Proof. unfold inode_change_ok. by repeat case_match. Qed.

(** A change without a new size. *)
Lemma setattr_fields limit i attr :
  flag (ia_valid attr) ATTR_SIZE = false ->
  let '(e, i') := inode_setattr cur limit i attr in
  e = 0 /\ i_uid i' = (if flag (ia_valid attr) ATTR_UID then ia_uid attr else i_uid i) /\
  i_gid i' = (if flag (ia_valid attr) ATTR_GID then ia_gid attr else i_gid i) /\
  (if flag (ia_valid attr) ATTR_MODE
   then i_mode i' = ia_mode attr \/ i_mode i' = Z.land (ia_mode attr) (Z.lnot S_ISGID) else i_mode i' = i_mode i).
Proof.
  intros Hs. unfold inode_setattr. rewrite Hs. cbn [andb Z.eqb negb]. split; [done|].
  destruct (flag (ia_valid attr) ATTR_MODE); cbn; [|done]. split_and!; [done..|]. destruct (_ && _); auto.
Qed.

Lemma flag_set v f g : Z.land f g = 0 -> flag (Z.lor v f) g = flag v g.
Proof. intros Hfg. unfold flag. by rewrite Z.land_lor_distr_l, Hfg, Z.lor_0_r. Qed.

Lemma kill_bits_keeps i attr :
  ia_uid (kill_bits i attr) = ia_uid attr /\ ia_gid (kill_bits i attr) = ia_gid attr /\
  forall g, Z.land ATTR_MODE g = 0 -> flag (ia_valid (kill_bits i attr)) g = flag (ia_valid attr) g.
Proof.
  unfold kill_bits. split_and!; [by repeat case_match..|]. intros g Hg.
  repeat case_match; cbn [ia_valid set_ia_mode set_ia_valid]; rewrite ?flag_set by done; done.
Qed.

(** The attributes [chown] passes on for a file that is not a directory. *)
Lemma chown_prepare now nk kp user group attr i r :
  S_ISDIR (i_mode i) = false -> notify_prepare now nk kp i (chown_attr user group attr i) tt = Ok (r, tt) ->
  match r with
  | inl e => e <> 0
  | inr attr' =>
      flag (ia_valid attr') ATTR_SIZE = false /\
      flag (ia_valid attr') ATTR_UID = given user /\ (given user = true -> ia_uid attr' = user) /\
      flag (ia_valid attr') ATTR_GID = given group /\ (given group = true -> ia_gid attr' = group) /\
      if flag (ia_valid attr') ATTR_MODE then no_setid (ia_mode attr') else no_setid (i_mode i)
  end.
Proof.
  intros Hdir. pose proof (chown_attr_mode user group attr i) as Hmode.
  assert (Hf : ia_valid (chown_attr user group attr i) =
    Z.lor (Z.lor (Z.lor ATTR_CTIME (if given user then ATTR_UID else 0)) (if given group then ATTR_GID else 0))
      (Z.lor ATTR_KILL_SUID (Z.lor ATTR_KILL_SGID ATTR_KILL_PRIV))) by (unfold chown_attr; by rewrite Hdir).
  assert (Hu : given user = true -> ia_uid (chown_attr user group attr i) = user) by (cbn; by intros ->).
  assert (Hg : given group = true -> ia_gid (chown_attr user group attr i) = group) by (cbn; by intros ->).
  set (c := chown_attr user group attr i) in *. clearbody c. unfold notify_prepare, ret, throw.
  set (attr1 := set_ia_times _ _ _ c).
  assert (Hkp : flag (ia_valid c) ATTR_KILL_PRIV = true) by (rewrite Hf; by destruct (given user), (given group)).
  rewrite Hkp. set (attr2 := set_ia_valid (Z.land (ia_valid attr1) (Z.lnot ATTR_KILL_PRIV)) attr1).
  assert (H2 : forall g, Z.land ATTR_KILL_PRIV g = 0 -> flag (ia_valid attr2) g = flag (ia_valid c) g).
  { intros g Hg'. subst attr2. cbn [ia_valid set_ia_valid]. by rewrite flag_clear. }
  assert (Hk : forall g, Z.land ATTR_KILL_PRIV g = 0 -> Z.land ATTR_MODE g = 0 ->
    flag (ia_valid (kill_bits i attr2)) g = flag (ia_valid c) g).
  { intros g H3 H4. destruct (kill_bits_keeps i attr2) as (_ & _ & Hkeep). by rewrite Hkeep, H2. }
  assert (Hct : Z.land (ia_valid (kill_bits i attr2)) (Z.lnot (Z.lor ATTR_KILL_SUID ATTR_KILL_SGID)) <> 0).
  { intros E0. assert (Hc : flag (ia_valid (kill_bits i attr2)) ATTR_CTIME = true).
    { rewrite Hk by done. rewrite Hf. by destruct (given user), (given group). }
    rewrite <-(flag_clear _ (Z.lor ATTR_KILL_SUID ATTR_KILL_SGID)) in Hc by done. by rewrite E0 in Hc. }
  destruct (_ && (_ || _)); [by intros [= <-]|].
  destruct (Z.eqb_spec (if 0 <? nk then kp else nk) 0); cbn [negb]; [|by intros [= <-]].
  destruct (_ && _); [done|]. rewrite (proj2 (Z.eqb_neq _ 0) Hct). intros [= <-].
  destruct (kill_bits_keeps i attr2) as (Eu & Eg & _). rewrite Eu, Eg, !Hk by done. split_and!; try done.
  1-3: rewrite Hf; by destruct (given user), (given group).
  apply kill_bits_setid; rewrite H2 by done; [| |done]; rewrite Hf; by destruct (given user), (given group).
Qed.

Lemma setattr_spec_result limit attr i m :
  flag (ia_valid attr) ATTR_SIZE = false ->
  let '(r, i', _) := setattr_spec cur limit attr i m in
  r = 0 ->
  i_uid i' = (if flag (ia_valid attr) ATTR_UID then ia_uid attr else i_uid i) /\
  i_gid i' = (if flag (ia_valid attr) ATTR_GID then ia_gid attr else i_gid i) /\
  (if flag (ia_valid attr) ATTR_MODE then no_setid (ia_mode attr) -> no_setid (i_mode i') else i_mode i' = i_mode i).
Proof.
  intros Hs. unfold setattr_spec. pose proof (change_ok_attr cur i attr) as [Ev _].
  pose proof (change_ok_mode i attr) as Em. pose proof (change_ok_ids i attr) as [Eu Eg].
  destruct (inode_change_ok cur i attr) as [e attr']. cbn [fst snd] in *.
  destruct (Z.eqb_spec e 0) as [->|]; cbn [negb]; [|done]. rewrite <-Ev in Hs.
  pose proof (setattr_fields limit i attr' Hs) as Hf. destruct (inode_setattr cur limit i attr') as [e' i1].
  destruct Hf as (-> & Hu & Hg & Hm). rewrite Ev, Eu, Eg in *. cbn [Z.eqb andb].
  assert (Hno : if flag (ia_valid attr) ATTR_MODE then no_setid (ia_mode attr) -> no_setid (i_mode i1) else i_mode i1 = i_mode i).
  { destruct (flag (ia_valid attr) ATTR_MODE); [|done]. intros Hn.
    destruct Em as [Em|Em], Hm as [Hm|Hm]; rewrite Hm, Em; auto using no_setid_clear. all: repeat apply no_setid_clear; done. }
  destruct (flag (ia_valid attr) ATTR_MODE && negb (S_ISLNK (i_mode i))); [|done].
  pose proof (chmod_spec_attrs i1 m) as (H1 & H2 & H3). destruct (chmod_spec i1 m) as [[r i2] m2]. cbn in *.
  intros _. rewrite H1, H2, H3. done.
Qed.
End Setid.

(** ** Sequences of operations *)

Definition consistent (a : files) : Prop := forall n i, f_inodes a !! n = Some (Some i) -> file_ok i.

Lemma consistent_set a n o : consistent a -> (forall i, o = Some i -> file_ok i) -> consistent (set_inode n o a).
Proof.
  intros Ha Ho k i E. cbn in E. apply list_lookup_insert_Some in E as [(_ & E & _)|(_ & E)]; [by apply Ho|by apply (Ha k)].
Qed.

Lemma consistent_give_back a : consistent a -> consistent (give_back a).
Proof. unfold give_back. by destruct (negb _). Qed.

Section Sequences.
  Context {T : Type} `{SubjectLaws T}.

(** What the callers guarantee: attribute values are bytes, tasks are in order,
    and [chmod] and [chown] find memory for the new ACL. *)
Definition op_sane (o : op T) (a : files) : Prop :=
  match o with
  | Mknod cur _ _ _ _ _ => subject_ok cur
  | SetAcl _ _ _ _ value => forall v, value = Some v -> Forall is_byte v
  | Chmod _ _ _ _ _ _ _ | Chown _ _ _ _ _ _ _ _ => mem_next (f_mem a) = true
  | _ => True
  end.

Fixpoint ops_sane (l : list (op T)) (a : files) : Prop :=
  match l with [] => True | o :: l => op_sane o a /\ ops_sane l (spec_op o a).2 end.

Lemma consistent_on_inode n r a :
  consistent a -> file_ok r.1.2 -> consistent (on_inode n r a).2.
Proof.
  intros Ha Hr. destruct r as [[e i] m]. cbn in *. apply (consistent_set a n (Some i) Ha). by intros i' [= <-].
Qed.

Lemma mknod_consistent cur h now dir d mode dev a :
  subject_ok cur -> consistent a -> f_inodes a !! dir = Some (Some d) ->
  consistent (mknod_spec cur h now dir d mode dev a).2.
Proof.
  intros Hcur Ha Ed. pose proof (Ha dir d Ed) as Hd. unfold mknod_spec. destruct (_ && _); [done|].
  set (a1 := if negb (f_max a =? 0) then _ else a).
  assert (Ha1 : consistent a1) by (subst a1; by destruct (negb _)). clearbody a1.
  destruct (mem_next (f_mem a1)); [|by apply consistent_give_back].
  set (a2 := set_mem _ a1). set (i := fresh_inode _ _ _ _ a2). set (a3 := set_inodes _ a2).
  assert (Ha3 : consistent a3).
  { intros k i' E. cbn in E. apply lookup_app_Some in E as [E|[_ E]]; [by apply (Ha1 k)|].
    apply list_lookup_singleton_Some in E as [_ [= <-]]. by split. }
  assert (Hdel : forall a' n, consistent a' -> consistent (delete_spec n a')).
  { intros a' n Ha'. apply consistent_set; [by apply consistent_give_back|done]. }
  destruct (_ && _); [by apply Hdel|].
  pose proof (init_spec_ok cur d i (f_mem a3) Hcur Hd eq_refl eq_refl) as Hi.
  destruct (init_spec cur d i (f_mem a3)) as [[e i'] m]. cbn [fst snd] in Hi.
  assert (Ha4 : consistent (set_mem m (set_inode (length (f_inodes a2)) (Some i') a3))).
  { apply (consistent_set a3); [done|]. by intros ? [= <-]. }
  destruct (negb _); [by apply Hdel|]. cbn [snd].
  apply (consistent_set (set_inode _ _ _) dir); [apply consistent_set; [done|]|].
  - intros ? [= <-]. unfold inherit_group. destruct (flag _ _); [|done]. apply file_ok_mode; cbn [i_mode set_owner].
    + destruct (S_ISDIR mode); [by apply type_lor|done].
    + destruct (S_ISDIR mode); [|done]. rewrite Z.land_lor_distr_l. change (Z.land S_ISGID S_IRWXUGO) with 0. by rewrite Z.lor_0_r.
    + by destruct Hi.
  - intros ? [= <-]. by destruct Hd.
Qed.

Lemma spec_op_consistent o a : consistent a -> op_sane o a -> consistent (spec_op o a).2.
Proof.
  intros Ha Ho. unfold spec_op. destruct (f_inodes a !! target o) as [[i|]|] eqn:E; cbn [mjoin option_join]; try done.
  pose proof (Ha _ _ E) as Hi.
  destruct o as [cur h now dir mode dev|n|cur dflt n name value|dflt n name buffer size|dflt n list size|cur n mask
    |cur h now limit n mode attr|cur h now limit n user group attr]; cbn [op_sane target] in *; try done.
  - pose proof (mknod_consistent cur h now dir i mode dev a Ho Ha E) as Hc. by destruct (mknod_spec _ _ _ _ _ _ _ _) as [[e n] a'].
  - apply consistent_set; [by apply consistent_give_back|done].
  - destruct (negb _); [done|]. apply consistent_on_inode; [done|]. by apply set_spec_ok.
  - by destruct (negb _).
  - apply consistent_on_inode; [done|]. apply notify_spec_ok; [done|done|]. intros _. apply chmod_attr_type.
  - apply consistent_on_inode; [done|]. apply notify_spec_ok; [done|done|]. by rewrite chown_attr_mode.
Qed.

Lemma spec_ops_consistent l : forall a, consistent a -> ops_sane l a -> consistent (spec_ops l a).2.
Proof.
  induction l as [|o l IH]; intros a Ha Hl; [done|]. destruct Hl as [Ho Hl]. cbn [spec_ops].
  pose proof (spec_op_consistent o a Ha Ho) as Ha1. destruct (spec_op o a) as [r a1]. cbn [snd] in *.
  specialize (IH a1 Ha1 Hl). by destruct (spec_ops l a1).
Qed.
End Sequences.
