(* ===== verification/TmpFsClaims.v ===== *)
(** What sequences of tmpfs operations guarantee, from a freshly mounted file
    system on. *)
From stdpp Require Import strings.
From S2P Require Import Prelude Wp Creds PosixAcl UserMem Groups Vfs Task XattrAcl FileAcl FileAclRel FileAclSpec.
From S2P Require Import FileAclRefine TmpFs TmpFsProps TmpFsModes.

(** A mounted file system: no ACLs yet. *)
Record mounted (s : fstate) : Prop := {
  mounted_acls : acls s = ∅;
  mounted_inodes : Forall (fun o => orefs o = []) (inodes s);
}.

(** Every ACL object is referred to by as many inode pointers as it counts, and
    every pointer leads to an object. *)
Definition counted (s : fstate) : Prop :=
  forall p, match acls s !! p with
  | Some x => a_refcount x = cnt p (all_refs (inodes s)) /\ 0 < a_refcount x
  | None => p ∉ all_refs (inodes s)
  end.

Lemma mounted_refs s : mounted s -> all_refs (inodes s) = [].
Proof. intros [_ Hi]. unfold all_refs. induction Hi as [|o l Ho _ IH]; [done|]. rewrite bind_cons, Ho. exact IH. Qed.

Lemma mounted_rel s k : mounted s -> room k (abs s) -> Rel [] s (abs s).
Proof.
  intros Hm Hr. split; try done.
  - intros p. rewrite (mounted_acls s Hm), lookup_empty. cbn. by rewrite (mounted_refs s Hm).
  - unfold room in Hr. cbn in Hr. rewrite length_fmap in Hr. lia.
Qed.

Lemma rel_counted s a : Rel [] s a -> counted s.
Proof.
  intros HR p. pose proof (rel_cnt _ _ _ HR p) as Hc. cbn in Hc. destruct (acls s !! p); [done|].
  rewrite cnt_elem. lia.
Qed.

Lemma mounted_consistent s : mounted s -> consistent (abs s).
Proof.
  intros Hm n i E. pose proof (mounted_inodes s Hm) as Hi. cbn in E. rewrite list_lookup_fmap in E.
  destruct (inodes s !! n) as [[i0|]|] eqn:E0; try done. injection E as <-.
  pose proof (Forall_lookup_1 _ _ _ _ Hi E0) as Hr. cbn in Hr. unfold refs in Hr.
  apply app_eq_nil in Hr as [H1 H2]. destruct i0 as [? ? ? ? ? ? ? ? ? ? [?|] [?|]]; try done.
Qed.

Section Claims.
  Context {T : Type} `{SubjectLaws T}.

Lemma spec_ops_app (l1 l2 : list (op T)) a :
  spec_ops (l1 ++ l2) a =
  ((spec_ops l1 a).1 ++ (spec_ops l2 (spec_ops l1 a).2).1, (spec_ops l2 (spec_ops l1 a).2).2).
Proof.
  revert a. induction l1 as [|o l1 IH]; intros a; cbn [app spec_ops].
  { cbn [fst snd app]. by destruct (spec_ops l2 a). }
  destruct (spec_op o a) as [r a1]. rewrite IH. by destruct (spec_ops l1 a1).
Qed.

(** From a mounted file system to the contents. *)
Lemma mounted_run (l : list (op T)) s :
  mounted s -> ops_live l (abs s) = true -> room (length l) (abs s) ->
  exists s', do_ops l s = Ok ((spec_ops l (abs s)).1, s') /\ abs s' = (spec_ops l (abs s)).2 /\ counted s'.
Proof.
  intros Hm Hl Hr. destruct (runs_ops l s (abs s) (mounted_rel s _ Hm Hr) Hl Hr) as (rs & s' & E & -> & HR).
  exists s'. split_and!; [done|apply (rel_abs _ _ _ HR)|by apply (rel_counted _ _ HR)].
Qed.

(** C30: any sequence of tmpfs operations (creating and destroying files, setting,
    reading and listing ACLs, checking them, chmod, chown), with any outcome of
    the memory allocations, runs without a fault: no freed ACL is touched.  Its
    results and the contents of all inodes are those of the specification that
    has ACLs as values, and at the end every ACL object is counted right: none
    is leaked, none is freed while an inode points to it. *)
Theorem shared_acls_refine_values (l : list (op T)) (s : fstate) (Hm : mounted s)
    (Hl : ops_live l (abs s) = true) (Hr : room (length l) (abs s)) :
  exists rs s', do_ops l s = Ok (rs, s') /\ (rs, abs s') = spec_ops l (abs s) /\ counted s'.
Proof.
  destruct (mounted_run l s Hm Hl Hr) as (s' & E & Ha & Hc). exists (spec_ops l (abs s)).1, s'.
  split_and!; [done| |done]. rewrite Ha. by destruct (spec_ops l (abs s)).
Qed.

(** C31: after any sequence of tmpfs operations in which chmod and chown got the
    memory they asked for, every stored ACL is valid, every access ACL has more
    than the three basic entries and its owner, mask and other permissions are
    the permission bits of the file's mode, links have no ACL, and default ACLs
    are on directories. *)
Theorem modes_agree_with_acls (l : list (op T)) (s : fstate) (Hm : mounted s)
    (Hl : ops_live l (abs s) = true) (Hr : room (length l) (abs s)) (Hs : ops_sane l (abs s)) :
  exists rs s', do_ops l s = Ok (rs, s') /\ forall n i, f_inodes (abs s') !! n = Some (Some i) -> file_ok i.
Proof.
  destruct (mounted_run l s Hm Hl Hr) as (s' & E & Ha & _). exists (spec_ops l (abs s)).1, s'. split; [done|].
  rewrite Ha. apply (spec_ops_consistent l (abs s) (mounted_consistent s Hm) Hs).
Qed.

(** *** Extended attributes *)

Definition xattr_value (es : acl) : list Z := le32 POSIX_ACL_XATTR_VERSION ++ (es ≫= entry_bytes).

Lemma xattr_value_length es : Z.of_nat (length (xattr_value es)) = 4 + 8 * Z.of_nat (length es).
Proof. unfold xattr_value. rewrite length_app, entries_bytes_length. cbn. lia. Qed.

Lemma decode_value es m :
  Forall canonical es -> (0 < length es)%nat -> Z.of_nat (length es) < 2 ^ 28 -> mem_next m = true ->
  decode (Some (xattr_value es)) m = (inr (Some es), tail m).
Proof.
  intros Hc Hpos Hl Hm. unfold decode. rewrite xattr_value_length, xattr_count_size by lia.
  rewrite (proj2 (Z.ltb_ge _ 4)), (proj2 (Z.ltb_ge _ 0)), (proj2 (Z.eqb_neq _ 0)), Hm, Nat2Z.id by lia.
  change (take 4 (xattr_value es)) with (le32 POSIX_ACL_XATTR_VERSION).
  change (of_le32 (le32 POSIX_ACL_XATTR_VERSION) =? POSIX_ACL_XATTR_VERSION) with true. cbn [negb].
  change (drop 4 (xattr_value es)) with (es ≫= entry_bytes).
  pose proof (decode_encode es [] Hc) as Hd. rewrite app_nil_r in Hd. by rewrite Hd.
Qed.

Lemma get_value type size i es :
  slot type i = Some es -> Z.of_nat (length es) < 2 ^ 28 -> 4 + 8 * Z.of_nat (length es) <= size ->
  get_spec type true size i = (4 + 8 * Z.of_nat (length es), xattr_value es).
Proof. intros E Hl Hs. unfold get_spec. rewrite E. by rewrite to_xattr_fits. Qed.

Lemma slot_set_slot dflt v (i : inode acl) : slot (acl_type dflt) (set_slot (acl_type dflt) v i) = v.
Proof. by destruct dflt. Qed.

Lemma stored_length es : acl_ok es -> (0 < length es)%nat.
Proof. intros [_ (u & us & g & gs & mk & o & [-> _ _ _ _ _ _])]. cbn. lia. Qed.

(** An ACL that can be stored as the access or default ACL of the inode. *)
Definition storable (dflt : bool) (i : inode acl) (es : acl) : Prop :=
  stored es /\ if dflt then S_ISDIR (i_mode i) = true else (posix_acl_equiv_mode (mk_acl 1 es) (i_mode i)).1 = 1.

Lemma install_storable dflt i es :
  storable dflt i es ->
  install (acl_type dflt) es i =
  (0, set_slot (acl_type dflt) (Some es)
        (if dflt then i else set_mode (posix_acl_equiv_mode (mk_acl 1 es) (i_mode i)).2 i)).
Proof.
  intros [[Hok Hc] Hd]. unfold install. rewrite (proj2 (valid_iff es (stored_typed es Hc)) Hok : posix_acl_valid (mk_acl 1 es) = 0).
  cbn [Z.eqb negb]. destruct dflt; cbn [acl_type Z.eqb ACL_TYPE_ACCESS ACL_TYPE_DEFAULT Pos.eqb].
  - by rewrite Hd.
  - destruct (posix_acl_equiv_mode (mk_acl 1 es) (i_mode i)) as [ne m]. cbn in Hd. by subst ne.
Qed.

(** An access ACL that says no more than a mode is not stored: the mode takes
    its place. *)
Lemma install_equiv i es :
  stored es -> (posix_acl_equiv_mode (mk_acl 1 es) (i_mode i)).1 = 0 ->
  install (acl_type false) es i =
  (0, set_slot (acl_type false) None (set_mode (posix_acl_equiv_mode (mk_acl 1 es) (i_mode i)).2 i)).
Proof.
  intros [Hok Hc] Hd. unfold install. rewrite (proj2 (valid_iff es (stored_typed es Hc)) Hok : posix_acl_valid (mk_acl 1 es) = 0).
  cbn [Z.eqb negb acl_type ACL_TYPE_ACCESS Pos.eqb].
  destruct (posix_acl_equiv_mode (mk_acl 1 es) (i_mode i)) as [ne m]. cbn in Hd. by subst ne.
Qed.

Lemma set_value cur dflt i es m :
  S_ISLNK (i_mode i) = false -> is_owner_or_cap cur i = true -> stored es ->
  Z.of_nat (length es) < 2 ^ 28 -> mem_next m = true ->
  set_spec cur (acl_type dflt) (Some (xattr_value es)) i m = (install (acl_type dflt) es i, tail m).
Proof.
  intros Hl Ho Hs Hn Hm. unfold set_spec. rewrite Hl, Ho. cbn [negb]. destruct Hs as [Hok Hc].
  rewrite decode_value; [done|done|by apply stored_length|done|done].
Qed.

(** What a file has can be stored again, and changes nothing. *)
Lemma file_storable dflt i es :
  file_ok i -> slot (acl_type dflt) i = Some es -> storable dflt i es /\ install (acl_type dflt) es i = (0, i).
Proof.
  intros [_ Ha Hd] E. destruct dflt; cbn in E.
  - destruct (Hd es E) as [Hdir Hs]. assert (Hst : storable true i es) by done. split; [done|].
    rewrite install_storable by done. f_equal. destruct i. cbn in *. by subst.
  - destruct (Ha es E) as [Hs Hag]. assert (Hst : storable false i es) by (split; [done|]; by rewrite Hag). split; [done|].
    rewrite install_storable by done. f_equal. rewrite Hag. destruct i. cbn in *. by subst.
Qed.

Lemma ops_live_app (l1 l2 : list (op T)) a :
  ops_live (l1 ++ l2) a = ops_live l1 a && ops_live l2 (spec_ops l1 a).2.
Proof.
  revert a. induction l1 as [|o l1 IH]; intros a; cbn [app ops_live spec_ops]; [done|]. rewrite IH, andb_assoc.
  destruct (spec_op o a) as [r a1]. cbn [snd]. by destruct (spec_ops l1 a1).
Qed.

(** More operations after a sequence. *)
Lemma run_more (l l2 : list (op T)) s :
  mounted s -> ops_live l (abs s) = true -> room (length l + length l2) (abs s) ->
  ops_live l2 (spec_ops l (abs s)).2 = true ->
  exists s', do_ops (l ++ l2) s = Ok ((spec_ops l (abs s)).1 ++ (spec_ops l2 (spec_ops l (abs s)).2).1, s') /\
    abs s' = (spec_ops l2 (spec_ops l (abs s)).2).2.
Proof.
  intros Hm Hl Hr Hl2. destruct (mounted_run (l ++ l2) s Hm) as (s' & E & Ea & _).
  - by rewrite ops_live_app, Hl, Hl2.
  - by rewrite length_app.
  - rewrite spec_ops_app in E, Ea. by exists s'.
Qed.

Lemma run_two (l : list (op T)) s x y rx ax ry ay :
  mounted s -> ops_live l (abs s) = true -> room (length l + 2) (abs s) ->
  live (spec_ops l (abs s)).2 (target x) = true -> spec_op x (spec_ops l (abs s)).2 = (rx, ax) ->
  live ax (target y) = true -> spec_op y ax = (ry, ay) ->
  exists s', do_ops (l ++ [x; y]) s = Ok ((spec_ops l (abs s)).1 ++ [rx; ry], s') /\ abs s' = ay.
Proof.
  intros Hm Hl Hr Hx Ex Hy Ey. destruct (run_more l [x; y] s Hm Hl Hr) as (s' & E & Ea).
  - cbn [ops_live]. rewrite Hx, Ex. cbn [snd]. by rewrite Hy.
  - cbn [spec_ops] in E, Ea. rewrite Ex, Ey in E, Ea. by exists s'.
Qed.

(** One more operation on the inode [n]. *)
Lemma run_on_inode (l : list (op T)) s o n i r i' m' :
  mounted s -> ops_live l (abs s) = true -> room (length l + 1) (abs s) -> target o = n ->
  f_inodes (spec_ops l (abs s)).2 !! n = Some (Some i) ->
  spec_op o (spec_ops l (abs s)).2 = on_inode n (r, i', m') (spec_ops l (abs s)).2 ->
  exists s', do_ops (l ++ [o]) s = Ok ((spec_ops l (abs s)).1 ++ [Code r None], s') /\
    f_inodes (abs s') !! n = Some (Some i').
Proof.
  intros Hm Hl Hr Ht Hi Ho. destruct (run_more l [o] s Hm Hl Hr) as (s' & E & Ea).
  - cbn [ops_live]. unfold live. by rewrite Ht, Hi.
  - cbn [spec_ops] in E, Ea. rewrite Ho in E, Ea. exists s'. split; [exact E|]. rewrite Ea. cbn.
    apply list_lookup_insert_eq. by eapply lookup_lt_Some.
Qed.


(** *** Mode and owner *)

(** C34: a successful chown of a file that is not a directory leaves no
    set-user-id bit and no set-group-id bit on a group-executable file,
    whatever the privileges of the caller, and sets exactly the owner and group
    that were given. *)
Theorem chown_drops_setid (l : list (op T)) (s : fstate) (cur : T) (h : hooks) (now : timespec) (limit : Z) (n : nat)
    (user group : Z) (attr : iattr) (i : inode acl)
    (Hm : mounted s) (Hl : ops_live l (abs s) = true) (Hr : room (length l + 1) (abs s))
    (Hi : f_inodes (spec_ops l (abs s)).2 !! n = Some (Some i)) (Hdir : S_ISDIR (i_mode i) = false) :
  exists rs r s' i', do_ops (l ++ [Chown cur h now limit n user group attr]) s = Ok (rs ++ [Code r None], s') /\
    f_inodes (abs s') !! n = Some (Some i') /\
    (r = 0 -> no_setid (i_mode i') /\ i_uid i' = (if given user then user else i_uid i) /\
              i_gid i' = (if given group then group else i_gid i)).
Proof.
  set (a := (spec_ops l (abs s)).2) in *.
  assert (Hj : mjoin (f_inodes a !! n) = Some i) by (by rewrite Hi).
  destruct (notify_spec cur h now limit (chown_attr user group attr i) i (f_mem a)) as [[r i'] m'] eqn:En.
  destruct (run_on_inode l s (Chown cur h now limit n user group attr) n i r i' m' Hm Hl Hr eq_refl Hi) as (s' & E & Hi').
  { unfold spec_op. cbn [target]. fold a. by rewrite Hj, En. }
  exists (spec_ops l (abs s)).1, r, s', i'. split_and!; [done|done|]. intros ->. revert En. unfold notify_spec.
  destruct (notify_prepare_ok now (need_killpriv h) (killpriv h) i _ (chown_no_bug user group attr i)) as (x & Ex).
  rewrite Ex. pose proof (chown_prepare now _ _ user group attr i x Hdir Ex) as Hx. destruct x as [e|attr'].
  { intros [= -> _ _]. done. }
  destruct Hx as (Hsz & Hu & Hu' & Hg & Hg' & Hmode).
  destruct (Z.eqb_spec (inode_setattr_hook h) 0) as [|Hh]; cbn [negb]; [|by intros [= ? _ _]].
  intros Es. pose proof (setattr_spec_result cur limit attr' i (f_mem a) Hsz) as Hres. rewrite Es in Hres.
  destruct (Hres eq_refl) as (Eu & Eg & Em). rewrite Hu, Hg in *. split_and!.
  - destruct (flag (ia_valid attr') ATTR_MODE); [by apply Em|by rewrite Em].
  - destruct (given user); rewrite Eu; auto.
  - destruct (given group); rewrite Eg; auto.
Qed.

(** The owner of the file, in the file's group, changes its mode. *)
Lemma chmod_owner_spec cur h now limit mode attr i m es :
  current_fsuid cur = i_uid i -> in_group_p cur (i_gid i) = true -> IS_IMMUTABLE i || IS_APPEND i = false ->
  inode_setattr_hook h = 0 -> S_ISLNK (i_mode i) = false -> i_acl i = Some es -> mem_next m = false -> mode <> 4294967295 ->
  exists i', notify_spec cur h now limit (chmod_attr mode attr i) i m = (- ENOMEM, i', tail m) /\
    i_mode i' = Z.lor (Z.land mode S_IALLUGO) (Z.land (i_mode i) (Z.lnot S_IALLUGO)) /\ i_acl i' = Some es.
Proof.
  intros Hown Hgrp Himm Hh Hlnk Ha Hm Hmode. unfold notify_spec.
  assert (Ep : exists attr', notify_prepare now (need_killpriv h) (killpriv h) i (chmod_attr mode attr i) tt = Ok (inr attr', tt) /\
    ia_valid attr' = Z.lor ATTR_MODE ATTR_CTIME /\
    ia_mode attr' = Z.lor (Z.land mode S_IALLUGO) (Z.land (i_mode i) (Z.lnot S_IALLUGO))).
  { unfold notify_prepare, chmod_attr. cbn [ia_valid ia_mode set_ia_valid set_ia_mode]. rewrite Himm, andb_false_r.
    rewrite (proj2 (Z.eqb_neq mode _) Hmode). eexists. split; [reflexivity|]. done. }
  destruct Ep as (attr' & -> & Hv & Hmo). rewrite Hh. cbn [Z.eqb negb]. unfold setattr_spec.
  assert (Ec : inode_change_ok cur i attr' = (0, attr')).
  { unfold inode_change_ok, is_owner_or_cap. cbv zeta. rewrite Hv, Hown, Z.eqb_refl.
    change (flag (Z.lor ATTR_MODE ATTR_CTIME) ATTR_GID) with false. cbv iota. by rewrite Hgrp. }
  rewrite Ec. cbn [Z.eqb negb]. unfold inode_setattr. cbv zeta. rewrite Hv.
  change (flag (Z.lor ATTR_MODE ATTR_CTIME) ATTR_SIZE) with false. cbn [andb Z.eqb negb].
  change (flag (Z.lor ATTR_MODE ATTR_CTIME) ATTR_MODE) with true. change (flag (Z.lor ATTR_MODE ATTR_CTIME) ATTR_UID) with false.
  change (flag (Z.lor ATTR_MODE ATTR_CTIME) ATTR_GID) with false. cbv iota. cbn [i_gid set_times set_owner]. rewrite Hgrp, Hlnk.
  cbn [negb andb]. unfold chmod_spec. cbn [i_mode set_mode i_acl set_times set_owner]. rewrite Ha, Hm, Hmo.
  rewrite (S_ISLNK_proper _ _ (type_merge mode (i_mode i) S_IALLUGO ltac:(done))), Hlnk.
  eexists. split; [reflexivity|]. done.
Qed.

(** When there is no memory for the new ACL, chmod of a file with an ACL
    fails with ENOMEM although it has already changed the mode: the file has
    the new mode and the old ACL, which no longer agree. *)
Theorem chmod_failure_changes_mode (l : list (op T)) (s : fstate) (cur : T) (h : hooks) (now : timespec) (limit : Z)
    (n : nat) (mode : Z) (attr : iattr) (i : inode acl) (es : acl)
    (Hm : mounted s) (Hl : ops_live l (abs s) = true) (Hr : room (length l + 1) (abs s)) (Hs : ops_sane l (abs s))
    (Hi : f_inodes (spec_ops l (abs s)).2 !! n = Some (Some i)) (Ha : i_acl i = Some es)
    (Hown : current_fsuid cur = i_uid i) (Hgrp : in_group_p cur (i_gid i) = true)
    (Himm : IS_IMMUTABLE i || IS_APPEND i = false) (Hh : inode_setattr_hook h = 0)
    (Hmem : mem_next (f_mem (spec_ops l (abs s)).2) = false) (Hmode : mode <> 4294967295)
    (Hnew : Z.land mode S_IRWXUGO <> Z.land (i_mode i) S_IRWXUGO) :
  exists rs s' i', do_ops (l ++ [Chmod cur h now limit n mode attr]) s = Ok (rs ++ [Code (- ENOMEM) None], s') /\
    f_inodes (abs s') !! n = Some (Some i') /\
    Z.land (i_mode i') S_IRWXUGO = Z.land mode S_IRWXUGO /\ i_acl i' = Some es /\ ~ agrees (i_mode i') es.
Proof.
  pose proof (spec_ops_consistent l (abs s) (mounted_consistent s Hm) Hs n i Hi) as Hfile.
  set (a := (spec_ops l (abs s)).2) in *.
  assert (Hlnk : S_ISLNK (i_mode i) = false).
  { destruct (S_ISLNK (i_mode i)) eqn:El; [|done]. by rewrite (file_link i Hfile El) in Ha. }
  destruct (file_acl i Hfile es Ha) as [[Hok _] Hag].
  destruct (chmod_owner_spec cur h now limit mode attr i (f_mem a) es) as (i' & En & Em & Ea'); try done.
  assert (Hlow : Z.land (i_mode i') S_IRWXUGO = Z.land mode S_IRWXUGO).
  { rewrite Em, Z.land_lor_distr_l, <-!Z.land_assoc. change (Z.land (Z.lnot S_IALLUGO) S_IRWXUGO) with 0.
    change (Z.land S_IALLUGO S_IRWXUGO) with S_IRWXUGO. by rewrite Z.land_0_r, Z.lor_0_r. }
  destruct (run_on_inode l s (Chmod cur h now limit n mode attr) n i (- ENOMEM) i' (tail (f_mem a)) Hm Hl Hr eq_refl Hi)
    as (s' & E & Hi').
  { unfold spec_op. cbn [target]. fold a. rewrite Hi. cbn [mjoin option_join]. by rewrite En. }
  exists (spec_ops l (abs s)).1, s', i'. split_and!; try done. intros Hag'. apply Hnew. rewrite <-Hlow.
  by apply (agrees_bits es).
Qed.
End Claims.

(** ** Examples *)

(** A user without capabilities, in group 100, and a file system whose root
    directory is theirs. *)
Definition ex_task : task :=
  mk_task (mk_cred 1000 100 1000 100 1000 100 1000 100 0 0 0 0 0) ex_gs 18.
Definition ex_now : timespec := mk_ts 1000 0.
Definition ex_sb : super_block := mk_sb MS_POSIXACL 1000000 1.
Definition ex_hooks : hooks := mk_hooks 0 0 0 0.
Definition ex_attr : iattr := mk_iattr 0 0 0 0 0 ex_now ex_now ex_now.
Definition ex_dir : inode Z := mk_inode 16877 1000 100 0 40 ex_now ex_now ex_now 0 ex_sb None None.
Definition ex_fs (mem : list bool) : fstate :=
  mk_fstate [Some ex_dir] ∅ mem (fun _ => mk_entry 0 0 0) ex_sb 0 0.

(** A file with an ACL, a default ACL, and a second file that inherits it. *)
Definition ex_ops : list (op task) :=
  [Mknod ex_task ex_hooks ex_now 0 33188 0;
   SetAcl ex_task false 1 "" (Some (xattr_value ex_acl));
   SetAcl ex_task true 0 "" (Some (xattr_value ex_acl));
   Mknod ex_task ex_hooks ex_now 0 35309 0].

Lemma ex_task_ok : task_ok ex_task.
Proof. split; [exact ex_gs_ok|done|]. split; vm_compute; congruence. Qed.

Lemma ex_mounted mem : mounted (ex_fs mem).
Proof. split; [done|]. by repeat constructor. Qed.

Lemma ex_value_bytes : Forall is_byte (xattr_value ex_acl).
Proof. repeat constructor; vm_compute; congruence. Qed.

Lemma ex_ops_sane mem : ops_sane ex_ops (abs (ex_fs mem)).
Proof.
  split; [exact ex_task_ok|]. split; [intros v [= <-]; exact ex_value_bytes|].
  split; [intros v [= <-]; exact ex_value_bytes|]. split; [exact ex_task_ok|done].
Qed.

Lemma ex_ops_live k : ops_live ex_ops (abs (ex_fs (repeat true (5 + k)))) = true.
Proof. vm_compute. reflexivity. Qed.

Lemma ex_fs_room k mem : (k < 100)%nat -> room k (abs (ex_fs mem)).
Proof. intros Hk. unfold room. cbn. unfold max_held. lia. Qed.

Lemma shared_acls_refine_values_witness :
  exists rs s', do_ops (ex_ops ++ [Delete 1]) (ex_fs (repeat true 9)) = Ok (rs, s') /\
    (rs, abs s') = spec_ops (ex_ops ++ [Delete 1]) (abs (ex_fs (repeat true 9))) /\ counted s'.
Proof.
  assert (Hl : ops_live (ex_ops ++ [Delete 1]) (abs (ex_fs (repeat true 9))) = true) by (vm_compute; reflexivity).
  apply (shared_acls_refine_values _ _ (ex_mounted _) Hl). apply ex_fs_room. cbn. lia.
Defined.

Lemma modes_agree_with_acls_witness :
  exists rs s', do_ops ex_ops (ex_fs (repeat true 9)) = Ok (rs, s') /\
    forall n i, f_inodes (abs s') !! n = Some (Some i) -> file_ok i.
Proof.
  apply (modes_agree_with_acls ex_ops _ (ex_mounted _) (ex_ops_live 4)); [|apply ex_ops_sane]. apply ex_fs_room. cbn. lia.
Defined.

(** The inode [n] after the operations. *)
Definition ex_after (mem : list bool) (n : nat) : option (inode acl) :=
  mjoin (f_inodes (spec_ops ex_ops (abs (ex_fs mem))).2 !! n).


Lemma chown_drops_setid_witness :
  exists rs s' i', do_ops (ex_ops ++ [Chown ex_task ex_hooks ex_now 0 2 1000 100 ex_attr]) (ex_fs (repeat true 9)) =
      Ok (rs ++ [Code 0 None], s') /\
    f_inodes (abs s') !! 2%nat = Some (Some i') /\ no_setid (i_mode i').
Proof.
  destruct (ex_after (repeat true 9) 2) as [i|] eqn:E; [|vm_compute in E; discriminate E].
  destruct (chown_drops_setid ex_ops (ex_fs (repeat true 9)) ex_task ex_hooks ex_now 0 2 1000 100 ex_attr i (ex_mounted _)
    (ex_ops_live 4) ltac:(apply ex_fs_room; cbn; lia)) as (rs & r & s' & i' & H1 & H2 & H3).
  - vm_compute in E. injection E as <-. vm_compute. reflexivity.
  - vm_compute in E. injection E as <-. vm_compute. reflexivity.
  - assert (r = 0) as ->.
    { assert (Hd : exists x, do_ops (ex_ops ++ [Chown ex_task ex_hooks ex_now 0 2 1000 100 ex_attr]) (ex_fs (repeat true 9)) = Ok x /\
        last x.1 = Some (Code 0 None)) by (eexists; split; vm_compute; reflexivity).
      destruct Hd as (x & Hx & Hlast). rewrite H1 in Hx. injection Hx as <-. cbn [fst] in Hlast.
      rewrite last_snoc in Hlast. by injection Hlast. }
    exists rs, s', i'. split; [exact H1|]. split; [exact H2|]. exact (proj1 (H3 eq_refl)).
Defined.

Lemma chmod_failure_changes_mode_witness :
  exists rs s' i', do_ops (ex_ops ++ [Chmod ex_task ex_hooks ex_now 0 1 384 ex_attr]) (ex_fs (repeat true 5)) =
      Ok (rs ++ [Code (-12) None], s') /\
    f_inodes (abs s') !! 1%nat = Some (Some i') /\ Z.land (i_mode i') 511 = 384 /\ i_acl i' = Some ex_acl.
Proof.
  destruct (ex_after (repeat true 5) 1) as [i|] eqn:E; [|vm_compute in E; discriminate E].
  destruct (chmod_failure_changes_mode ex_ops (ex_fs (repeat true 5)) ex_task ex_hooks ex_now 0 1 384 ex_attr i ex_acl
    (ex_mounted _) (ex_ops_live 0) ltac:(apply ex_fs_room; cbn; lia) (ex_ops_sane _))
    as (rs & s' & i' & H1 & H2 & H3 & H4 & _);
    try (vm_compute in E; injection E as <-; vm_compute; congruence).
  exists rs, s', i'. split; [exact H1|]. split; [exact H2|]. split; [exact H3|exact H4].
Defined.
