(* ===== verification/Access.v ===== *)
(** Permission checks of the VFS: [acl_permission_check], [generic_permission],
    [inode_permission], [file_permission] and [exec_permission_lite] of
    [fs/namei.c], with [devcgroup_inode_permission] of
    [security/device_cgroup.c].

    The inode operations and the hook of the security module are arguments, as
    they are function pointers in the kernel.  The theorems are about tmpfs
    files in any state that [TmpFs.v] reaches, and about any task behind the
    interface [Subject]. *)
From stdpp Require Import strings.
From S2P Require Import Prelude Wp Creds PosixAcl Groups Vfs Task XattrAcl FileAcl FileAclRel FileAclSpec FileAclRefine.
From S2P Require Import TmpFs TmpFsProps TmpFsModes TmpFsClaims.

(** ** Device control groups *)

Definition ACC_READ : Z := 2.
Definition ACC_WRITE : Z := 4.
Definition DEV_BLOCK : Z := 1.
Definition DEV_CHAR : Z := 2.
Definition DEV_ALL : Z := 4.

Definition MAY_EXEC : Z := 1.
Definition MAY_WRITE : Z := 2.
Definition MAY_READ : Z := 4.
Definition MAY_APPEND : Z := 8.

Record dev_whitelist_item : Type := mk_wh { wh_major : Z; wh_minor : Z; wh_type : Z; wh_access : Z }.

Definition MINORBITS : Z := 20.
Definition imajor {A} (i : inode A) : Z := Z.shiftr (i_rdev i) MINORBITS.
Definition iminor {A} (i : inode A) : Z := Z.land (i_rdev i) (Z.ones MINORBITS).

(** [~0] as [u32]. *)
Definition ANY : Z := 4294967295.

(** Whether the loop ends at the label [found] for this entry. *)
Definition wh_matches {A} (i : inode A) (mask : Z) (wh : dev_whitelist_item) : bool :=
  if flag (wh_type wh) DEV_ALL then true
  else if flag (wh_type wh) DEV_BLOCK && negb (S_ISBLK (i_mode i)) then false
  else if flag (wh_type wh) DEV_CHAR && negb (S_ISCHR (i_mode i)) then false
  else if negb (wh_major wh =? ANY) && negb (wh_major wh =? imajor i) then false
  else if negb (wh_minor wh =? ANY) && negb (wh_minor wh =? iminor i) then false
  else if flag mask MAY_WRITE && negb (flag (wh_access wh) ACC_WRITE) then false
  else if flag mask MAY_READ && negb (flag (wh_access wh) ACC_READ) then false
  else true.

Definition devcgroup_inode_permission {A} (whitelist : list dev_whitelist_item) (i : inode A) (mask : Z) : Z :=
  if i_rdev i =? 0 then 0
  else if negb (S_ISBLK (i_mode i)) && negb (S_ISCHR (i_mode i)) then 0
  else if existsb (wh_matches i mask) whitelist then 0 else - EPERM.

(** ** [fs/namei.c] *)

Definition EROFS : Z := 30.

(** The operations of an inode that take part in permission checks. *)
Record inode_operations : Type := mk_iop {
  iop_permission : option (nat -> Z -> M fstate Z);
  iop_check_acl : option (nat -> Z -> M fstate Z);
}.

Section Namei.
  Context {T : Type} `{Subject T} (cur : T).
  (** The whitelist of the task's control group, and the hook
      [security_inode_permission]. *)
  Context (whitelist : list dev_whitelist_item) (security_inode_permission : nat -> Z -> Z).

Definition acl_permission_check (n : nat) (mask : Z) (check_acl : option (nat -> Z -> M fstate Z)) : M fstate Z :=
  let! i := get_inode n in
  let mode := i_mode i in
  let mask := Z.land mask (Z.lor MAY_READ (Z.lor MAY_WRITE MAY_EXEC)) in
  let last mode := ret (if Z.land mask (Z.lnot mode) =? 0 then 0 else - EACCES) in
  let group := last (if in_group_p cur (i_gid i) then Z.shiftr mode 3 else mode) in
  if current_fsuid cur =? i_uid i then last (Z.shiftr mode 6)
  else
    match check_acl with
    | Some check_acl =>
        if IS_POSIXACL i && flag mode S_IRWXG then
          let! error := check_acl n mask in
          if negb (error =? - EAGAIN) then ret error else group
        else group
    | None => group
    end.

Definition generic_permission (n : nat) (mask : Z) (check_acl : option (nat -> Z -> M fstate Z)) : M fstate Z :=
  let! r := acl_permission_check n mask check_acl in
  if negb (r =? - EACCES) then ret r
  else
    let! i := get_inode n in
    if (negb (flag mask MAY_EXEC) || execute_ok i) && capable cur CAP_DAC_OVERRIDE then ret 0
    else
      let mask := Z.land mask (Z.lor MAY_READ (Z.lor MAY_WRITE MAY_EXEC)) in
      if ((mask =? MAY_READ) || (S_ISDIR (i_mode i) && negb (flag mask MAY_WRITE))) && capable cur CAP_DAC_READ_SEARCH
      then ret 0
      else ret (- EACCES).

Definition inode_permission (iop : inode_operations) (n : nat) (mask : Z) : M fstate Z :=
  let! i := get_inode n in
  let mode := i_mode i in
  if flag mask MAY_WRITE && (IS_RDONLY i && (S_ISREG mode || S_ISDIR mode || S_ISLNK mode)) then ret (- EROFS)
  else if flag mask MAY_WRITE && IS_IMMUTABLE i then ret (- EACCES)
  else
    let! retval :=
      match iop_permission iop with
      | Some permission => permission n mask
      | None => generic_permission n mask (iop_check_acl iop)
      end in
    if negb (retval =? 0) then ret retval
    else
      let retval := devcgroup_inode_permission whitelist i mask in
      if negb (retval =? 0) then ret retval
      else ret (security_inode_permission n (Z.land mask (Z.lor MAY_READ (Z.lor MAY_WRITE (Z.lor MAY_EXEC MAY_APPEND))))).

(** An open file is the number of its inode. *)
Definition file_permission (iop : inode_operations) (file_inode : nat) (mask : Z) : M fstate Z :=
  inode_permission iop file_inode mask.

Definition exec_permission_lite (iop : inode_operations) (n : nat) : M fstate Z :=
  match iop_permission iop with
  | Some permission =>
      let! r := permission n MAY_EXEC in
      if r =? 0 then ret (security_inode_permission n MAY_EXEC) else ret r
  | None =>
      let! r := acl_permission_check n MAY_EXEC (iop_check_acl iop) in
      if (r =? 0) || (capable cur CAP_DAC_OVERRIDE || capable cur CAP_DAC_READ_SEARCH)
      then ret (security_inode_permission n MAY_EXEC)
      else ret r
  end.

(** The operations of tmpfs files and directories. *)
Definition shmem_iop : inode_operations := mk_iop None (Some (shmem_check_acl cur)).
End Namei.

(** ** What the checks decide *)

Section Decision.
  Context {T : Type} `{SubjectLaws T} (cur : T).
  Implicit Types i : inode acl.

(** The entries of a file: its ACL, or those of its mode. *)
Definition file_entries i : acl :=
  match i_acl i with
  | Some es => es
  | None =>
      [mk_entry ACL_USER_OBJ (Z.shiftr (Z.land (i_mode i) S_IRWXU) 6) ACL_UNDEFINED_ID;
       mk_entry ACL_GROUP_OBJ (Z.shiftr (Z.land (i_mode i) S_IRWXG) 3) ACL_UNDEFINED_ID;
       mk_entry ACL_OTHER (Z.land (i_mode i) S_IRWXO) ACL_UNDEFINED_ID]
  end.

Definition in_groups (g : Z) : bool := bool_decide (g ∈ subject_groups cur).

(** The permission bits of the class the task is in. *)
Definition class_access (want : Z) i : bool :=
  let mode := i_mode i in
  let bits :=
    if current_fsuid cur =? i_uid i then Z.shiftr mode 6
    else if in_groups (i_gid i) then Z.shiftr mode 3 else mode in
  Z.land want (Z.lnot bits) =? 0.

Definition override (want : Z) i : bool :=
  ((negb (flag want MAY_EXEC) || execute_ok i) && capable cur CAP_DAC_OVERRIDE) ||
  (((want =? MAY_READ) || (S_ISDIR (i_mode i) && negb (flag want MAY_WRITE))) && capable cur CAP_DAC_READ_SEARCH).

(** *** Permission bits *)

Lemma bit_small w n : 0 <= w < 8 -> 0 <= n -> Z.testbit w n = true -> n < 3.
Proof. intros Hw Hn Hb. destruct (Z.ltb_spec n 3); [done|]. rewrite (bit_past w n 3) in Hb by lia. done. Qed.

Lemma grants_bits w b : 0 <= w < 8 -> grants w (Z.land b S_IRWXO) = (Z.land w (Z.lnot b) =? 0).
Proof.
  intros Hw. apply eq_true_iff_eq. rewrite grants_spec, Z.eqb_eq. split.
  - intros Hg. apply Z.bits_inj'. intros n Hn. rewrite Z.land_spec, Z.lnot_spec, Z.bits_0 by done.
    destruct (Z.testbit w n) eqn:E; [|done]. specialize (Hg n Hn E). rewrite Z.land_spec in Hg.
    apply andb_true_iff in Hg as [-> _]. done.
  - intros E n Hn Hb. apply (f_equal (fun z => Z.testbit z n)) in E. rewrite Z.land_spec, Z.lnot_spec, Z.bits_0, Hb in E by done.
    rewrite Z.land_spec, bits_O by done. rewrite (proj2 (Z.ltb_lt n 3)) by (by apply (bit_small w)).
    by destruct (Z.testbit b n).
Qed.

Lemma land_small mask : 0 <= Z.land mask (Z.lor MAY_READ (Z.lor MAY_WRITE MAY_EXEC)) < 8.
Proof. change (Z.lor MAY_READ (Z.lor MAY_WRITE MAY_EXEC)) with (Z.ones 3). rewrite Z.land_ones by lia. apply Z.mod_pos_bound. lia. Qed.

Lemma mode3_bits x pu pg po :
  0 <= pu < 8 -> 0 <= pg < 8 -> 0 <= po < 8 ->
  let m := Z.lor (Z.land x (Z.lnot S_IRWXUGO)) (mode3 pu pg po) in
  Z.land (Z.shiftr m 6) S_IRWXO = pu /\ Z.land (Z.shiftr m 3) S_IRWXO = pg /\ Z.land m S_IRWXO = po.
Proof. intros Hu Hg Ho. cbv zeta. unfold mode3. split_and!; mode_bits. Qed.

(** The mode has the permissions of the entries. *)
Lemma entries_form i :
  file_ok i -> exists u us g gs mk o, acl_form (file_entries i) u us g gs mk o /\
    e_perm u = Z.land (Z.shiftr (i_mode i) 6) S_IRWXO /\
    e_perm (group_of g mk) = Z.land (Z.shiftr (i_mode i) 3) S_IRWXO /\ e_perm o = Z.land (i_mode i) S_IRWXO /\
    (i_acl i = None -> us = [] /\ gs = [] /\ mk = []).
Proof.
  intros [_ Ha _]. unfold file_entries. destruct (i_acl i) as [es|].
  - destruct (Ha es eq_refl) as [[[Hp (u & us & g & gs & mk & o & Hf)] _] Hag].
    exists u, us, g, gs, mk, o. split; [done|]. unfold agrees in Hag.
    rewrite (equiv_mode_form _ _ _ _ _ _ _ 1 _ Hf Hp) in Hag. injection Hag as _ Em.
    destruct (form_perms _ _ _ _ _ _ _ Hf Hp) as (Pu & Pg & Po).
    destruct (mode3_bits (i_mode i) _ _ _ Pu Pg Po) as (E1 & E2 & E3). rewrite Em in E1, E2, E3. done.
  - eexists _, [], _, [], [], _. split; [split; [reflexivity|done..|by left|done]|]. cbn [e_perm group_of].
    split_and!; try done; mode_bits.
Qed.

(** Without named users and groups the class of the task decides. *)
Lemma class_access_entries w i u g o :
  0 <= w < 8 -> e_perm u = Z.land (Z.shiftr (i_mode i) 6) S_IRWXO ->
  e_perm g = Z.land (Z.shiftr (i_mode i) 3) S_IRWXO -> e_perm o = Z.land (i_mode i) S_IRWXO ->
  acl_access (i_uid i) (i_gid i) (current_fsuid cur) in_groups w u [] g [] [] o = class_access w i.
Proof.
  intros Hw Eu Eg Eo. unfold acl_access, class_access. rewrite (Z.eqb_sym (i_uid i)). cbn [find List.filter app masked existsb].
  destruct (current_fsuid cur =? i_uid i); [by rewrite Eu, grants_bits|].
  destruct (in_groups (i_gid i)); cbn [app existsb masked]; [by rewrite orb_false_r, Eg, grants_bits|by rewrite Eo, grants_bits].
Qed.

(** The decision for a tmpfs file whose entries are these. *)
Definition may_access (want : Z) i (u : posix_acl_entry) (us : list posix_acl_entry) (g : posix_acl_entry)
    (gs mk : list posix_acl_entry) (o : posix_acl_entry) : bool :=
  if flag (i_mode i) S_IRWXG then acl_access (i_uid i) (i_gid i) (current_fsuid cur) in_groups want u us g gs mk o
  else class_access want i.

Lemma runs_acl_permission_check n i mask s a u us g gs mk o :
  Rel [] s a -> f_inodes a !! n = Some (Some i) -> subject_ok cur -> IS_POSIXACL i = true ->
  acl_form (file_entries i) u us g gs mk o -> e_perm u = Z.land (Z.shiftr (i_mode i) 6) S_IRWXO ->
  e_perm (group_of g mk) = Z.land (Z.shiftr (i_mode i) 3) S_IRWXO -> e_perm o = Z.land (i_mode i) S_IRWXO ->
  (i_acl i = None -> us = [] /\ gs = [] /\ mk = []) ->
  let want := Z.land mask (Z.lor MAY_READ (Z.lor MAY_WRITE MAY_EXEC)) in
  runs (acl_permission_check cur n mask (Some (shmem_check_acl cur))) s
    (fun r s' => r = (if may_access want i u us g gs mk o then 0 else - EACCES) /\ Rel [] s' a).
Proof.
  intros HR E Hcur Hacl Hf Eu Eg Eo Hnone want. pose proof (land_small mask) as Hw. fold want in Hw.
  destruct (rel_inode _ _ _ _ _ HR E) as (i0 & E0 & Hi). unfold acl_permission_check.
  apply runs_bind, (runs_get_inode _ _ _ _ E0). cbv zeta. fold want.
  assert (Ei : i_mode i0 = i_mode i /\ i_uid i0 = i_uid i /\ i_gid i0 = i_gid i /\ IS_POSIXACL i0 = IS_POSIXACL i) by (by rewrite Hi).
  destruct Ei as (-> & -> & -> & ->). rewrite Hacl. cbn [andb].
  assert (Hg : forall g, in_group_p cur g = in_groups g) by (intros; by apply in_group_p_spec).
  assert (Hclass : (if Z.land want (Z.lnot (if current_fsuid cur =? i_uid i then Z.shiftr (i_mode i) 6
    else if in_groups (i_gid i) then Z.shiftr (i_mode i) 3 else i_mode i)) =? 0 then 0 else - EACCES) =
    (if class_access want i then 0 else - EACCES)) by done.
  unfold may_access. destruct (current_fsuid cur =? i_uid i) eqn:Eown.
  { apply runs_ret. split; [|done]. rewrite Hclass. destruct (flag (i_mode i) S_IRWXG); [|done].
    unfold acl_access, class_access. by rewrite (Z.eqb_sym (i_uid i)), Eown, Eu, grants_bits. }
  rewrite Hg. destruct (flag (i_mode i) S_IRWXG); [|apply runs_ret; by rewrite Hclass].
  apply runs_bind. eapply runs_mono; [by apply (runs_check_acl cur n i want s a)|]. intros r s' [-> HR'].
  unfold check_spec. unfold file_entries in Hf. destruct (i_acl i) as [es|].
  - unfold posix_acl_permission. cbn [a_entries]. rewrite (permission_form _ _ _ _ _ _ _ _ _ _ _ _ Hf).
    replace (acl_access (i_uid i) (i_gid i) (current_fsuid cur) (in_group_p cur) want u us g gs mk o)
      with (acl_access (i_uid i) (i_gid i) (current_fsuid cur) in_groups want u us g gs mk o)
      by (symmetry; by apply acl_access_ext).
    destruct (acl_access _ _ _ _ _ _ _ _ _ _ _); by apply runs_ret.
  - change (negb (- EAGAIN =? - EAGAIN)) with false. cbv iota. destruct (Hnone eq_refl) as (-> & -> & ->).
    apply runs_ret. split; [|done]. by rewrite Hclass, class_access_entries.
Qed.
End Decision.

(** ** The checks on a tmpfs file *)

Section Checks.
  Context {T : Type} `{SubjectLaws T} (cur : T).
  Context (whitelist : list dev_whitelist_item) (security_inode_permission : nat -> Z -> Z).
  Context (n : nat) (i : inode acl) (a : files) (u g o : posix_acl_entry) (us gs mk : list posix_acl_entry).
  Context (Hi : f_inodes a !! n = Some (Some i)) (Hcur : subject_ok cur) (Hacl : IS_POSIXACL i = true)
    (Hf : acl_form (file_entries i) u us g gs mk o) (Eu : e_perm u = Z.land (Z.shiftr (i_mode i) 6) S_IRWXO)
    (Eg : e_perm (group_of g mk) = Z.land (Z.shiftr (i_mode i) 3) S_IRWXO) (Eo : e_perm o = Z.land (i_mode i) S_IRWXO)
    (Hnone : i_acl i = None -> us = [] /\ gs = [] /\ mk = []).

Abbreviation rwx mask := (Z.land mask (Z.lor MAY_READ (Z.lor MAY_WRITE MAY_EXEC))).
Abbreviation allowed want := (may_access cur want i u us g gs mk o || override cur want i).

Lemma flag_rwx mask f : Z.land (Z.lor MAY_READ (Z.lor MAY_WRITE MAY_EXEC)) f = f -> flag (rwx mask) f = flag mask f.
Proof. intros Ef. unfold flag. by rewrite <-Z.land_assoc, Ef. Qed.

Lemma runs_generic_permission mask s :
  Rel [] s a ->
  runs (generic_permission cur n mask (Some (shmem_check_acl cur))) s
    (fun r s' => r = (if allowed (rwx mask) then 0 else - EACCES) /\ Rel [] s' a).
Proof.
  intros HR. unfold generic_permission. apply runs_bind.
  eapply runs_mono; [by apply (runs_acl_permission_check cur n i mask s a u us g gs mk o)|]. intros r s' [-> HR'].
  destruct (may_access cur (rwx mask) i u us g gs mk o); cbn [orb]; [by apply runs_ret|].
  change (negb (- EACCES =? - EACCES)) with false. cbv iota.
  destruct (rel_inode _ _ _ _ _ HR' Hi) as (i0 & E0 & Ei). apply runs_bind, (runs_get_inode _ _ _ _ E0).
  assert (Ex : execute_ok i0 = execute_ok i /\ i_mode i0 = i_mode i) by (by rewrite Ei). destruct Ex as [-> ->].
  unfold override. rewrite (flag_rwx mask MAY_EXEC) by done.
  destruct ((negb (flag mask MAY_EXEC) || execute_ok i) && capable cur CAP_DAC_OVERRIDE); [by apply runs_ret|]. cbn [orb].
  destruct (_ && capable cur CAP_DAC_READ_SEARCH); by apply runs_ret.
Qed.

(** What [inode_permission] returns. *)
Definition permission_result (mask : Z) : Z :=
  if flag mask MAY_WRITE && (IS_RDONLY i && (S_ISREG (i_mode i) || S_ISDIR (i_mode i) || S_ISLNK (i_mode i))) then - EROFS
  else if flag mask MAY_WRITE && IS_IMMUTABLE i then - EACCES
  else if negb (allowed (rwx mask)) then - EACCES
  else if negb (devcgroup_inode_permission whitelist i mask =? 0) then devcgroup_inode_permission whitelist i mask
  else security_inode_permission n (Z.land mask (Z.lor MAY_READ (Z.lor MAY_WRITE (Z.lor MAY_EXEC MAY_APPEND)))).

Lemma runs_inode_permission mask s :
  Rel [] s a ->
  runs (inode_permission cur whitelist security_inode_permission (shmem_iop cur) n mask) s
    (fun r s' => r = permission_result mask /\ Rel [] s' a).
Proof.
  intros HR. unfold inode_permission, permission_result. cbn [iop_permission iop_check_acl shmem_iop].
  destruct (rel_inode _ _ _ _ _ HR Hi) as (i0 & E0 & Ei). apply runs_bind, (runs_get_inode _ _ _ _ E0). cbv zeta.
  assert (Ex : i_mode i0 = i_mode i /\ IS_RDONLY i0 = IS_RDONLY i /\ IS_IMMUTABLE i0 = IS_IMMUTABLE i /\
    devcgroup_inode_permission whitelist i0 mask = devcgroup_inode_permission whitelist i mask).
  { by rewrite Ei. }
  destruct Ex as (-> & -> & -> & ->). destruct (flag mask MAY_WRITE && (IS_RDONLY i && _)); [by apply runs_ret|].
  destruct (flag mask MAY_WRITE && IS_IMMUTABLE i); [by apply runs_ret|].
  apply runs_bind. eapply runs_mono; [by apply runs_generic_permission|]. intros r s' [-> HR'].
  destruct (allowed (rwx mask)); cbn [negb]; [|by apply runs_ret]. cbn [Z.eqb negb].
  destruct (negb _); by apply runs_ret.
Qed.

(** On a directory the short cut gives the same answer. *)
Lemma runs_exec_permission_lite s :
  Rel [] s a -> S_ISDIR (i_mode i) = true ->
  runs (exec_permission_lite cur security_inode_permission (shmem_iop cur) n) s
    (fun r s' => r = permission_result MAY_EXEC /\ Rel [] s' a).
Proof.
  intros HR Hdir. unfold exec_permission_lite, permission_result. cbn [iop_permission iop_check_acl shmem_iop].
  apply runs_bind. eapply runs_mono; [by apply (runs_acl_permission_check cur n i MAY_EXEC s a u us g gs mk o)|].
  intros r s' [-> HR']. change (flag MAY_EXEC MAY_WRITE) with false. cbn [andb]. change (rwx MAY_EXEC) with MAY_EXEC.
  assert (Ed : devcgroup_inode_permission whitelist i MAY_EXEC = 0).
  { unfold devcgroup_inode_permission. unfold S_ISDIR, S_ISBLK, S_ISCHR, is_type in *. apply Z.eqb_eq in Hdir. rewrite Hdir.
    by destruct (i_rdev i =? 0). }
  rewrite Ed. cbn [Z.eqb negb]. unfold override. rewrite Hdir. unfold execute_ok. rewrite Hdir.
  change (flag MAY_EXEC MAY_EXEC) with true. change (flag MAY_EXEC MAY_WRITE) with false.
  change (MAY_EXEC =? MAY_READ) with false. rewrite orb_true_r. cbn [negb orb andb].
  destruct (may_access cur MAY_EXEC i u us g gs mk o); cbn [orb negb]; [by apply runs_ret|].
  change (- EACCES =? 0) with false. cbn [orb].
  destruct (capable cur CAP_DAC_OVERRIDE || capable cur CAP_DAC_READ_SEARCH); by apply runs_ret.
Qed.
End Checks.

(** ** Claims *)

Section Claims.
  Context {T : Type} `{SubjectLaws T}.

(** C32: after any sequence of tmpfs operations in which chmod and chown got
    the memory they asked for, and for any task, the permission check of a file
    on a file system with ACLs ends without a fault, changes no contents, and
    decides as follows.  If the group class has any permission,
    access is granted exactly when the POSIX.1e algorithm grants it on the
    file's ACL (or on the entries of its mode) for the task's user and groups,
    or a capability overrides the refusal.  If the group class, and so the
    mask, is empty, the ACL is not consulted and the mode alone decides: named
    users and groups get the permissions of others.  On a directory
    [exec_permission_lite] returns what [inode_permission] returns for
    [MAY_EXEC]. *)
Theorem tmpfs_permission_decision (l : list (op T)) (s : fstate) (cur : T) (n : nat) (i : inode acl)
    (whitelist : list dev_whitelist_item) (hook : nat -> Z -> Z)
    (Hm : mounted s) (Hl : ops_live l (abs s) = true) (Hr : room (length l) (abs s)) (Hs : ops_sane l (abs s))
    (Hi : f_inodes (spec_ops l (abs s)).2 !! n = Some (Some i)) (Hcur : subject_ok cur) (Hacl : IS_POSIXACL i = true) :
  exists rs s0 u us g gs mk o,
    do_ops l s = Ok (rs, s0) /\ acl_form (file_entries i) u us g gs mk o /\
    (forall mask, exists s1,
       inode_permission cur whitelist hook (shmem_iop cur) n mask s0 =
       Ok (permission_result cur whitelist hook n i u g o us gs mk mask, s1) /\ abs s1 = abs s0 /\ counted s1) /\
    (S_ISDIR (i_mode i) = true -> exists s1,
       exec_permission_lite cur hook (shmem_iop cur) n s0 =
       Ok (permission_result cur whitelist hook n i u g o us gs mk MAY_EXEC, s1) /\ abs s1 = abs s0 /\ counted s1).
Proof.
  pose proof (spec_ops_consistent l (abs s) (mounted_consistent s Hm) Hs n i Hi) as Hfile.
  destruct (entries_form i Hfile) as (u & us & g & gs & mk & o & Hf & Eu & Eg & Eo & Hnone).
  destruct (runs_ops l s (abs s) (mounted_rel s _ Hm Hr) Hl Hr) as (rs & s0 & E & -> & HR).
  assert (Hend : forall s1, Rel [] s1 (spec_ops l (abs s)).2 -> abs s1 = abs s0 /\ counted s1).
  { intros s1 HR1. rewrite (rel_abs _ _ _ HR1), (rel_abs _ _ _ HR). split; [done|]. by apply (rel_counted _ _ HR1). }
  exists (spec_ops l (abs s)).1, s0, u, us, g, gs, mk, o. split_and!; [done|done| |].
  - intros mask. destruct (runs_inode_permission cur whitelist hook n i _ u g o us gs mk Hi Hcur Hacl Hf Eu Eg Eo Hnone mask s0 HR)
      as (r & s1 & E1 & -> & HR1). exists s1. split; [done|]. by apply Hend.
  - intros Hdir.
    destruct (runs_exec_permission_lite cur whitelist hook n i _ u g o us gs mk Hi Hcur Hacl Hf Eu Eg Eo Hnone s0 HR Hdir)
      as (r & s1 & E1 & -> & HR1). exists s1. split; [done|]. by apply Hend.
Qed.
End Claims.

(** Another user, whom the ACL of the example names, in group 200. *)
Definition ex_named : task :=
  mk_task (mk_cred 1001 200 1001 200 1001 200 1001 200 0 0 0 0 0)
    (mk_gs (store ex_gs) (free_objs ex_gs) (free_pages ex_gs) (user_gids ex_gs) (cur_groups ex_gs) 200 200 false true) 18.

Lemma ex_named_ok : task_ok ex_named.
Proof.
  split; [|done|split; vm_compute; congruence].
  split; [exact (ok_cur _ ex_gs_ok)|exact (ok_objs _ ex_gs_ok)|exact (ok_pages _ ex_gs_ok)].
Qed.

Lemma tmpfs_permission_decision_witness :
  exists i rs s0 s1 u us g gs mk o,
    do_ops ex_ops (ex_fs (repeat true 9)) = Ok (rs, s0) /\ acl_form (file_entries i) u us g gs mk o /\
    inode_permission ex_named [] (fun _ _ => 0) (shmem_iop ex_named) 1 MAY_READ s0 =
    Ok (permission_result ex_named [] (fun _ _ => 0) 1 i u g o us gs mk MAY_READ, s1).
Proof.
  destruct (ex_after (repeat true 9) 1) as [i|] eqn:E; [|vm_compute in E; discriminate E].
  destruct (tmpfs_permission_decision ex_ops (ex_fs (repeat true 9)) ex_named 1 i [] (fun _ _ => 0) (ex_mounted _)
    (ex_ops_live 4) ltac:(apply ex_fs_room; cbn; lia) (ex_ops_sane _)) as (rs & s0 & u & us & g & gs & mk & o & H1 & H2 & H3 & _).
  - vm_compute in E. injection E as <-. vm_compute. reflexivity.
  - exact ex_named_ok.
  - vm_compute in E. injection E as <-. vm_compute. reflexivity.
  - destruct (H3 MAY_READ) as (s1 & H4 & _). exists i, rs, s0, s1, u, us, g, gs, mk, o.
    split; [exact H1|]. split; [exact H2|exact H4].
Defined.

(** An ACL whose mask is empty, with the right to read for a named user and for
    others. *)
Definition ex_empty_mask : acl :=
  [mk_entry ACL_USER_OBJ 6 ACL_UNDEFINED_ID; mk_entry ACL_USER 4 1001; mk_entry ACL_GROUP_OBJ 4 ACL_UNDEFINED_ID;
   mk_entry ACL_MASK 0 ACL_UNDEFINED_ID; mk_entry ACL_OTHER 4 ACL_UNDEFINED_ID].

(** The ACL denies the named user the right to read, and the permission check
    grants it. *)
Lemma empty_mask_example :
  match (let! rs := do_ops [Mknod ex_task ex_hooks ex_now 0 33188 0;
                            SetAcl ex_task false 1 "" (Some (xattr_value ex_empty_mask));
                            CheckAcl ex_named 1 MAY_READ] in
         let! r := inode_permission ex_named [] (fun _ _ => 0) (shmem_iop ex_named) 1 MAY_READ in
         ret (rs, r)) (ex_fs (repeat true 9)) with
  | Ok (r, _) => r = ([Code 0 (Some 1%nat); Code 0 None; Code (- EACCES) None], 0)
  | Err _ => False
  end.
Proof. vm_compute. reflexivity. Qed.
