(* ===== verification/WriteAccess.v ===== *)
(** Writers and mappings that deny writing: [get_write_access] and
    [deny_write_access] of [fs/namei.c], [put_write_access] and
    [allow_write_access] of [include/linux/fs.h].

    The first two check [i_writecount] and then change it, both under
    [i_lock]; the last two change it without the lock.  Tasks run these
    functions interleaved at every access to the counter and the lock. *)
From S2P Require Import Prelude RwLock.

Definition ETXTBSY : Z := 26.

(** ** The functions *)

(** What each function does to the counter; the result and the new value. *)
Definition get_write_access (i_writecount : Z) : Z * Z :=
  if i_writecount <? 0 then (- ETXTBSY, i_writecount) else (0, s32 (i_writecount + 1)).

Definition deny_write_access (i_writecount : Z) : Z * Z :=
  if 0 <? i_writecount then (- ETXTBSY, i_writecount) else (0, s32 (i_writecount - 1)).

Definition put_write_access (i_writecount : Z) : Z := s32 (i_writecount - 1).

Definition allow_write_access (file : bool) (i_writecount : Z) : Z :=
  if file then s32 (i_writecount + 1) else i_writecount.

(** ** Interleaving *)

(** Where a task is: inside [get_write_access] or [deny_write_access], after
    taking the lock, after the check, after the change; or outside, without
    access, with write access, or with writing denied to others. *)
Inductive pc : Type :=
  | Idle | Writing | Denying
  | GetLocked | GetPassed | GetFailed | GetDone
  | DenyLocked | DenyPassed | DenyFailed | DenyDone.

Inductive call : Type := Get | Deny | Put | Allow | Continue.

Record machine : Type := mk_m { m_lock : bool; m_count : Z; m_pcs : list pc }.

(** One step of a task: its next place, the lock and the counter. *)
Definition instr (c : call) (p : pc) (lock : bool) (count : Z) : option (pc * bool * Z) :=
  match c, p with
  | Get, Idle => if lock then None else Some (GetLocked, true, count)
  | Continue, GetLocked => Some (if count <? 0 then GetFailed else GetPassed, lock, count)
  | Continue, GetPassed => Some (GetDone, lock, s32 (count + 1))
  | Continue, GetDone => Some (Writing, false, count)
  | Continue, GetFailed => Some (Idle, false, count)
  | Put, Writing => Some (Idle, lock, put_write_access count)
  | Deny, Idle => if lock then None else Some (DenyLocked, true, count)
  | Continue, DenyLocked => Some (if 0 <? count then DenyFailed else DenyPassed, lock, count)
  | Continue, DenyPassed => Some (DenyDone, lock, s32 (count - 1))
  | Continue, DenyDone => Some (Denying, false, count)
  | Continue, DenyFailed => Some (Idle, false, count)
  | Allow, Denying => Some (Idle, lock, allow_write_access true count)
  | _, _ => None
  end.

Definition exec (k : nat) (c : call) (m : machine) : option machine :=
  p ← m_pcs m !! k;
  '(p', lock, count) ← instr c p (m_lock m) (m_count m);
  Some (mk_m lock count (<[k := p']> (m_pcs m))).

(** [n] tasks on an inode nobody uses. *)
Inductive reach (n : nat) : machine -> Prop :=
  | reach_init : reach n (mk_m false 0 (replicate n Idle))
  | reach_step m k c m' : reach n m -> exec k c m = Some m' -> reach n m'.

(** ** Invariant *)

Definition writer (p : pc) : Z := match p with Writing | GetDone => 1 | _ => 0 end.
Definition denier (p : pc) : Z := match p with Denying | DenyDone => 1 | _ => 0 end.
Definition locker (p : pc) : Z := match p with Idle | Writing | Denying => 0 | _ => 1 end.

Abbreviation writers m := (total writer (m_pcs m)).
Abbreviation deniers m := (total denier (m_pcs m)).

Record Inv (n : nat) (m : machine) : Prop := {
  inv_length : length (m_pcs m) = n;
  inv_lock : total locker (m_pcs m) = cbool (m_lock m);
  inv_count : m_count m = writers m - deniers m;
  inv_exclusive : writers m = 0 \/ deniers m = 0;
  inv_get : forall k, m_pcs m !! k = Some GetPassed -> deniers m = 0;
  inv_deny : forall k, m_pcs m !! k = Some DenyPassed -> writers m = 0;
}.

Lemma counts_range p : 0 <= writer p <= 1 /\ 0 <= denier p <= 1 /\ 0 <= locker p <= 1.
Proof. destruct p; cbn; lia. Qed.

Lemma inv_bounds n m : Inv n m -> 0 <= writers m <= Z.of_nat n /\ 0 <= deniers m <= Z.of_nat n.
Proof.
  intros Hi. rewrite <-(inv_length _ _ Hi).
  split; apply total_bound; intros p; pose proof (counts_range p); lia.
Qed.

(** The task with the lock is alone in its critical section. *)
Lemma inv_alone n m k j p q :
  Inv n m -> m_pcs m !! k = Some p -> m_pcs m !! j = Some q -> locker p = 1 -> locker q = 1 -> k = j.
Proof.
  intros Hi Hk Hj Hp Hq. destruct (decide (k = j)) as [|Hne]; [done|]. exfalso.
  pose proof (total_two locker _ k j p q (fun p => proj1 (proj2 (proj2 (counts_range p)))) Hk Hj Hne) as Ht.
  rewrite (inv_lock _ _ Hi) in Ht. destruct (m_lock m); cbn in Ht; lia.
Qed.

Lemma inv_locked n m k p : Inv n m -> m_pcs m !! k = Some p -> locker p = 1 -> m_lock m = true.
Proof.
  intros Hi Hk Hp. pose proof (total_one locker _ k p (fun p => proj1 (proj2 (proj2 (counts_range p)))) Hk) as Ht.
  rewrite (inv_lock _ _ Hi), Hp in Ht. by destruct (m_lock m).
Qed.

(** The changes a step may make to the places, with what has to hold for it. *)
Lemma write_inv_update n m k p p' lock count :
  Inv n m -> m_pcs m !! k = Some p ->
  cbool lock = cbool (m_lock m) - locker p + locker p' ->
  count = m_count m + (writer p' - writer p) - (denier p' - denier p) ->
  (writers m + (writer p' - writer p) = 0 \/ deniers m + (denier p' - denier p) = 0) ->
  (forall j, j <> k -> m_pcs m !! j = Some GetPassed -> deniers m + (denier p' - denier p) = 0) ->
  (forall j, j <> k -> m_pcs m !! j = Some DenyPassed -> writers m + (writer p' - writer p) = 0) ->
  (p' = GetPassed -> deniers m = denier p) -> (p' = DenyPassed -> writers m = writer p) ->
  Inv n (mk_m lock count (<[k := p']> (m_pcs m))).
Proof.
  intros [Hn Hl Hc He Hg Hd] Hk Hlock Hcount Hex Hog Hod Hpg Hpd. split; cbn [m_pcs m_lock m_count].
  - by rewrite length_insert.
  - rewrite (total_insert locker _ _ _ _ Hk), Hl. lia.
  - rewrite (total_insert writer _ _ _ _ Hk), (total_insert denier _ _ _ _ Hk). lia.
  - rewrite (total_insert writer _ _ _ _ Hk), (total_insert denier _ _ _ _ Hk). lia.
  - intros j Hj. rewrite (total_insert denier _ _ _ _ Hk).
    apply list_lookup_insert_Some in Hj as [(-> & -> & _)|(Hne & Hj)]; [|specialize (Hog j ltac:(done) Hj); lia].
    specialize (Hpg eq_refl). cbn. lia.
  - intros j Hj. rewrite (total_insert writer _ _ _ _ Hk).
    apply list_lookup_insert_Some in Hj as [(-> & -> & _)|(Hne & Hj)]; [|specialize (Hod j ltac:(done) Hj); lia].
    specialize (Hpd eq_refl). cbn. lia.
Qed.

(** Inside the critical section nobody else is between check and change. *)
Lemma inv_others n m k p j q :
  Inv n m -> m_pcs m !! k = Some p -> locker p = 1 -> j <> k -> m_pcs m !! j = Some q -> locker q = 1 -> False.
Proof. intros Hi Hk Hp Hne Hj Hq. apply Hne. symmetry. by apply (inv_alone n m k j p q). Qed.

Lemma write_exec_inv n k c m m' : Z.of_nat n < 2 ^ 30 -> Inv n m -> exec k c m = Some m' -> Inv n m'.
Proof.
  intros Hn Hi He. unfold exec in He. apply bind_Some in He as (p & Hk & He).
  apply bind_Some in He as ([[p' lock] count] & Hs & [= <-]). pose proof (inv_bounds _ _ Hi) as [Hw Hd].
  pose proof (inv_count _ _ Hi) as Hc. pose proof (inv_exclusive _ _ Hi) as Hx.
  pose proof (total_one writer _ k p (fun p => proj1 (proj1 (counts_range p))) Hk) as Hw1.
  pose proof (total_one denier _ k p (fun p => proj1 (proj1 (proj2 (counts_range p)))) Hk) as Hd1.
  assert (Hs32 : forall z, - Z.of_nat n - 1 <= z <= Z.of_nat n + 1 -> s32 z = z).
  { intros z Hz. apply swrap_small; [|done]. change (32 - 1) with 31. lia. }
  assert (Hgp : p = GetPassed -> deniers m = 0) by (intros ->; by apply (inv_get _ _ Hi k)).
  assert (Hdp : p = DenyPassed -> writers m = 0) by (intros ->; by apply (inv_deny _ _ Hi k)).
  assert (Hog : forall j, j <> k -> m_pcs m !! j = Some GetPassed -> locker p = 0 /\ deniers m = 0).
  { intros j Hj Hjp. split; [|by apply (inv_get _ _ Hi j)]. pose proof (counts_range p).
    destruct (decide (locker p = 1)) as [Hl|]; [|lia]. by destruct (inv_others _ _ _ _ _ _ Hi Hk Hl Hj Hjp). }
  assert (Hod : forall j, j <> k -> m_pcs m !! j = Some DenyPassed -> locker p = 0 /\ writers m = 0).
  { intros j Hj Hjp. split; [|by apply (inv_deny _ _ Hi j)]. pose proof (counts_range p).
    destruct (decide (locker p = 1)) as [Hl|]; [|lia]. by destruct (inv_others _ _ _ _ _ _ Hi Hk Hl Hj Hjp). }
  assert (Hlk : locker p = 1 -> m_lock m = true) by (intros; by apply (inv_locked n m k p)).
  destruct c, p; try done; cbn [instr locker writer denier] in *; unfold put_write_access, allow_write_access in *;
    try (destruct (m_lock m) eqn:Hl; [done|]); try (destruct (Z.ltb_spec (m_count m) 0));
    try (destruct (Z.ltb_spec 0 (m_count m)));
    try (specialize (Hgp eq_refl)); try (specialize (Hdp eq_refl)); injection Hs as <- <- <-;
    apply (write_inv_update n m k _ _ _ _ Hi Hk); cbn [locker writer denier cbool]; try done; try lia;
    solve [ rewrite Hl; cbn; lia | rewrite (Hlk eq_refl); cbn; lia | apply Hs32; lia | rewrite Hs32 by lia; lia
          | intros j Hj Hjp; specialize (Hog j Hj Hjp); lia | intros j Hj Hjp; specialize (Hod j Hj Hjp); lia ].
Qed.

Lemma total_idle f n : f Idle = 0 -> total f (replicate n Idle) = 0.
Proof. intros Hf. induction n as [|n IH]; [done|]. cbn. rewrite Hf. exact IH. Qed.

Lemma write_reach_inv n m : Z.of_nat n < 2 ^ 30 -> reach n m -> Inv n m.
Proof.
  intros Hn. induction 1 as [|m k c m' _ IH He]; [|by apply (write_exec_inv n k c m)].
  split; cbn [m_pcs m_lock m_count]; rewrite ?total_idle; try done.
  - by rewrite length_replicate.
  - by left.
Qed.

(** The steps of an undisturbed call. *)
Fixpoint alone (k : nat) (cs : list call) (m : machine) : option machine :=
  match cs with [] => Some m | c :: cs => exec k c m ≫= alone k cs end.

Lemma alone_reach n k cs : forall m m', reach n m -> alone k cs m = Some m' -> reach n m'.
Proof.
  induction cs as [|c cs IH]; intros m m' Hr E; cbn in E; [by injection E as <-|].
  apply bind_Some in E as (m1 & E1 & E2). apply (IH m1); [by apply (reach_step n m k c)|done].
Qed.

Lemma exec_eq k c m p p' lock count :
  m_pcs m !! k = Some p -> instr c p (m_lock m) (m_count m) = Some (p', lock, count) ->
  exec k c m = Some (mk_m lock count (<[k := p']> (m_pcs m))).
Proof. intros Hk Hs. unfold exec. rewrite Hk. cbn [mbind option_bind]. by rewrite Hs. Qed.

(** A call that is not disturbed does what the function says: after failing the
    task gives the lock back at the third step, after succeeding at the
    fourth. *)
Lemma alone_get k m :
  m_pcs m !! k = Some Idle -> m_lock m = false ->
  let '(r, count) := get_write_access (m_count m) in
  if r =? 0 then alone k [Get; Continue; Continue; Continue] m = Some (mk_m false count (<[k := Writing]> (m_pcs m)))
  else alone k [Get; Continue; Continue] m = Some (mk_m false (m_count m) (<[k := Idle]> (m_pcs m))).
Proof.
  intros Hk Hl. assert (Hlt := lookup_lt_Some _ _ _ Hk). unfold get_write_access.
  destruct (m_count m <? 0) eqn:E; cbn [Z.eqb ETXTBSY Z.opp alone];
    rewrite (exec_eq k Get m Idle GetLocked true (m_count m)) by (done || (cbn; by rewrite Hl)); cbn [mbind option_bind].
  all: erewrite exec_eq; [|by apply list_lookup_insert_eq|cbn; rewrite E; reflexivity]; cbn [mbind option_bind m_pcs];
    rewrite list_insert_insert_eq.
  all: erewrite exec_eq; [|by apply list_lookup_insert_eq|reflexivity]; cbn [mbind option_bind m_pcs m_count];
    rewrite list_insert_insert_eq; try done.
  erewrite exec_eq; [|by apply list_lookup_insert_eq|reflexivity]; cbn [mbind option_bind m_pcs m_count].
  by rewrite list_insert_insert_eq.
Qed.

Lemma alone_deny k m :
  m_pcs m !! k = Some Idle -> m_lock m = false ->
  let '(r, count) := deny_write_access (m_count m) in
  if r =? 0 then alone k [Deny; Continue; Continue; Continue] m = Some (mk_m false count (<[k := Denying]> (m_pcs m)))
  else alone k [Deny; Continue; Continue] m = Some (mk_m false (m_count m) (<[k := Idle]> (m_pcs m))).
Proof.
  intros Hk Hl. assert (Hlt := lookup_lt_Some _ _ _ Hk). unfold deny_write_access.
  destruct (0 <? m_count m) eqn:E; cbn [Z.eqb ETXTBSY Z.opp alone];
    rewrite (exec_eq k Deny m Idle DenyLocked true (m_count m)) by (done || (cbn; by rewrite Hl)); cbn [mbind option_bind].
  all: erewrite exec_eq; [|by apply list_lookup_insert_eq|cbn; rewrite E; reflexivity]; cbn [mbind option_bind m_pcs];
    rewrite list_insert_insert_eq.
  all: erewrite exec_eq; [|by apply list_lookup_insert_eq|reflexivity]; cbn [mbind option_bind m_pcs m_count];
    rewrite list_insert_insert_eq; try done.
  erewrite exec_eq; [|by apply list_lookup_insert_eq|reflexivity]; cbn [mbind option_bind m_pcs m_count].
  by rewrite list_insert_insert_eq.
Qed.

(** ** Claim *)

(** C35: with fewer than 2^30 tasks taking and giving back write access and
    denial of writing to one inode, interleaved at every access to the lock and
    the counter, no task ever has write access while another denies writing.
    When no task is inside the functions, the counter is the number of writers
    or minus the number of those who deny writing, and a call that runs
    undisturbed gets what [get_write_access] or [deny_write_access] returns for
    that number. *)
Theorem writers_exclude_deniers (n : nat) (m : machine) (Hn : Z.of_nat n < 2 ^ 30) (Hr : reach n m) :
  (forall j k, m_pcs m !! j = Some Writing -> m_pcs m !! k = Some Denying -> False) /\
  (Forall (fun p => locker p = 0) (m_pcs m) -> m_lock m = false /\ m_count m = writers m - deniers m) /\
  (forall k, m_pcs m !! k = Some Idle -> m_lock m = false ->
     (if (get_write_access (m_count m)).1 =? 0
      then deniers m = 0 /\ alone k [Get; Continue; Continue; Continue] m =
             Some (mk_m false (get_write_access (m_count m)).2 (<[k := Writing]> (m_pcs m)))
      else 0 < deniers m /\ alone k [Get; Continue; Continue] m = Some (mk_m false (m_count m) (<[k := Idle]> (m_pcs m)))) /\
     (if (deny_write_access (m_count m)).1 =? 0
      then writers m = 0 /\ alone k [Deny; Continue; Continue; Continue] m =
             Some (mk_m false (deny_write_access (m_count m)).2 (<[k := Denying]> (m_pcs m)))
      else 0 < writers m /\ alone k [Deny; Continue; Continue] m = Some (mk_m false (m_count m) (<[k := Idle]> (m_pcs m))))).
Proof.
  pose proof (write_reach_inv n m Hn Hr) as Hi. pose proof (inv_bounds _ _ Hi). pose proof (inv_count _ _ Hi) as Hc.
  pose proof (inv_exclusive _ _ Hi) as Hx. split_and!.
  - intros j k Hj Hk.
    pose proof (total_one writer _ j _ (fun p => proj1 (proj1 (counts_range p))) Hj) as Hw.
    pose proof (total_one denier _ k _ (fun p => proj1 (proj1 (proj2 (counts_range p)))) Hk) as Hd. cbn in Hw, Hd. lia.
  - intros Hout. split; [|done]. pose proof (inv_lock _ _ Hi) as Hl.
    assert (E : total locker (m_pcs m) = 0).
    { clear -Hout. induction Hout as [|p l Hp _ IH]; [done|].
      change (locker p + total locker l = 0). lia. }
    rewrite E in Hl. by destruct (m_lock m).
  - intros k Hk Hl. pose proof (alone_get k m Hk Hl) as Hg. pose proof (alone_deny k m Hk Hl) as Hd.
    unfold get_write_access, deny_write_access in *.
    destruct (Z.ltb_spec (m_count m) 0), (Z.ltb_spec 0 (m_count m)); cbn [fst snd Z.eqb ETXTBSY Z.opp] in *;
      split; split; (lia || done).
Qed.

Lemma writers_exclude_deniers_witness :
  exists m, reach 2 m /\ m_pcs m = [Writing; DenyLocked] /\
    (forall j k, m_pcs m !! j = Some Writing -> m_pcs m !! k = Some Denying -> False).
Proof.
  set (m0 := mk_m false 0 (replicate 2 Idle)).
  destruct (alone 0 [Get; Continue; Continue; Continue] m0) as [m1|] eqn:E1; [|vm_compute in E1; discriminate E1].
  destruct (exec 1 Deny m1) as [m2|] eqn:E2; [|vm_compute in E1; injection E1 as <-; vm_compute in E2; discriminate E2].
  assert (Hr : reach 2 m2).
  { apply (reach_step 2 m1 1 Deny); [|exact E2]. apply (alone_reach 2 0 _ m0 m1 (reach_init 2) E1). }
  exists m2. split; [exact Hr|]. split.
  - vm_compute in E1. injection E1 as <-. vm_compute in E2. injection E2 as <-. reflexivity.
  - exact (proj1 (writers_exclude_deniers 2 m2 ltac:(vm_compute; reflexivity) Hr)).
Defined.
