(* ===== verification/Heap.v ===== *)
(** Heaps of C objects, for code that works on linked structures.

    An address holds an object of one of several types; the class [Holds] says
    which.  Access to an address without an object of the type is a fault. *)
From S2P Require Import Prelude Wp.

(** [V] has objects of type [A] among others. *)
Class Holds (V A : Type) : Type := {
  obj : A -> V;
  as_obj : V -> option A;
  as_obj_obj a : as_obj (obj a) = Some a;
}.

Section Heap.
  Context {V : Type}.

Abbreviation heap := (gmap Z V).

(** Access to the object at an address; a fault if there is none of the type. *)
Definition load {A} `{Holds V A} (p : Z) : M heap A := deref (fun h => h !! p ≫= as_obj).

Definition store {A} `{Holds V A} (p : Z) (a : A) : M heap unit :=
  load (A := A) p ;;; modify <[p := obj a]>.

(** A C loop on the heap; that there are more rounds than objects counts as
    not ending. *)
Definition hloop {L R} (body : L -> M heap (L + R)) (l : L) : M heap R :=
  fun h => loop (S (size h)) body l h.
End Heap.
