(* ===== verification/Rbtree.v ===== *)
(** Red-black trees: the whole of [lib/rbtree.c] and the inline functions of
    [include/linux/rbtree.h].

    Nodes and roots are objects of the heap.  [rb_parent_color] is the address
    of the parent with the colour in its lowest bit, as in the C code. *)
From S2P Require Import Prelude Wp Heap.

Definition NULL : Z := 0.
Definition RB_RED : Z := 0.
Definition RB_BLACK : Z := 1.

Record rb_node : Type := mk_rb { rb_parent_color : Z; rb_right : Z; rb_left : Z }.
Record rb_root : Type := mk_root { root_node : Z }.

(** Where a pointer to a node is stored: the [struct rb_node **] of the users. *)
Inductive link : Type := Root_link (root : Z) | Left_link (parent : Z) | Right_link (parent : Z).

Section Rbtree.
  Context {V : Type} `{Holds V rb_node} `{Holds V rb_root}.

(** ** Fields *)

Definition get_left (p : Z) : M (gmap Z V) Z := let! n := load p in ret (rb_left n).
Definition get_right (p : Z) : M (gmap Z V) Z := let! n := load p in ret (rb_right n).
Definition get_pc (p : Z) : M (gmap Z V) Z := let! n := load p in ret (rb_parent_color n).
Definition set_left (p v : Z) : M (gmap Z V) unit :=
  let! n := load p in store p (mk_rb (rb_parent_color n) (rb_right n) v).
Definition set_right (p v : Z) : M (gmap Z V) unit :=
  let! n := load p in store p (mk_rb (rb_parent_color n) v (rb_left n)).
Definition set_pc (p v : Z) : M (gmap Z V) unit :=
  let! n := load p in store p (mk_rb v (rb_right n) (rb_left n)).
Definition get_root (root : Z) : M (gmap Z V) Z := let! r := load root in ret (root_node r).
Definition set_root (root v : Z) : M (gmap Z V) unit := store root (mk_root v).

(** ** [include/linux/rbtree.h] *)

Definition rb_parent (r : Z) : M (gmap Z V) Z := let! w := get_pc r in ret (Z.land w (Z.lnot 3)).
Definition rb_color (r : Z) : M (gmap Z V) Z := let! w := get_pc r in ret (Z.land w 1).
Definition rb_is_red (r : Z) : M (gmap Z V) bool := let! c := rb_color r in ret (c =? 0).
Definition rb_is_black (r : Z) : M (gmap Z V) bool := let! c := rb_color r in ret (negb (c =? 0)).
Definition rb_set_red (r : Z) : M (gmap Z V) unit := let! w := get_pc r in set_pc r (Z.land w (Z.lnot 1)).
Definition rb_set_black (r : Z) : M (gmap Z V) unit := let! w := get_pc r in set_pc r (Z.lor w 1).

Definition rb_set_parent (rb p : Z) : M (gmap Z V) unit :=
  let! w := get_pc rb in set_pc rb (Z.lor (Z.land w 3) p).

Definition rb_set_color (rb color : Z) : M (gmap Z V) unit :=
  let! w := get_pc rb in set_pc rb (Z.lor (Z.land w (Z.lnot 1)) color).

Definition RB_EMPTY_ROOT (root : Z) : M (gmap Z V) bool := let! n := get_root root in ret (n =? NULL).
Definition RB_EMPTY_NODE (node : Z) : M (gmap Z V) bool := let! p := rb_parent node in ret (p =? node).
Definition RB_CLEAR_NODE (node : Z) : M (gmap Z V) unit := rb_set_parent node node.

Definition read_link (rb_link : link) : M (gmap Z V) Z :=
  match rb_link with
  | Root_link root => get_root root
  | Left_link p => get_left p
  | Right_link p => get_right p
  end.

Definition write_link (rb_link : link) (v : Z) : M (gmap Z V) unit :=
  match rb_link with
  | Root_link root => set_root root v
  | Left_link p => set_left p v
  | Right_link p => set_right p v
  end.

Definition rb_link_node (node parent : Z) (rb_link : link) : M (gmap Z V) unit :=
  set_pc node parent ;;;
  set_right node NULL ;;;
  set_left node NULL ;;;
  write_link rb_link node.

(** ** Rotations *)

Definition __rb_rotate_left (node root : Z) : M (gmap Z V) unit :=
  let! rgt := get_right node in
  let! parent := rb_parent node in
  let! rl := get_left rgt in
  set_right node rl ;;;
  (if negb (rl =? NULL) then let! rl := get_left rgt in rb_set_parent rl node else ret tt) ;;;
  set_left rgt node ;;;
  rb_set_parent rgt parent ;;;
  (if negb (parent =? NULL) then
     let! pl := get_left parent in
     if node =? pl then set_left parent rgt else set_right parent rgt
   else set_root root rgt) ;;;
  rb_set_parent node rgt.

Definition __rb_rotate_right (node root : Z) : M (gmap Z V) unit :=
  let! lft := get_left node in
  let! parent := rb_parent node in
  let! lr := get_right lft in
  set_left node lr ;;;
  (if negb (lr =? NULL) then let! lr := get_right lft in rb_set_parent lr node else ret tt) ;;;
  set_right lft node ;;;
  rb_set_parent lft parent ;;;
  (if negb (parent =? NULL) then
     let! pr := get_right parent in
     if node =? pr then set_right parent lft else set_left parent lft
   else set_root root lft) ;;;
  rb_set_parent node lft.

(** ** Insertion *)

(** The test [p && rb_is_red(p)] of the code. *)
Definition red_node (p : Z) : M (gmap Z V) bool :=
  if p =? NULL then ret false else rb_is_red p.

(** One round of the loop: go on with another node, or leave. *)
Definition insert_round (root node : Z) : M (gmap Z V) (Z + unit) :=
  let! parent := rb_parent node in
  let! parent_red := red_node parent in
  if negb parent_red then ret (inr tt)
  else
    let! gparent := rb_parent parent in
    let! gl := get_left gparent in
    if parent =? gl then
      let! uncle := get_right gparent in
      let! uncle_red := red_node uncle in
      if uncle_red : bool then
        rb_set_black uncle ;;;
        rb_set_black parent ;;;
        rb_set_red gparent ;;;
        ret (inl gparent)
      else
        let! pr := get_right parent in
        let! (node, parent) :=
          (if pr =? node then __rb_rotate_left parent root ;;; ret (parent, node) else ret (node, parent)) in
        rb_set_black parent ;;;
        rb_set_red gparent ;;;
        __rb_rotate_right gparent root ;;;
        ret (inl node)
    else
      let! uncle := get_left gparent in
      let! uncle_red := red_node uncle in
      if uncle_red : bool then
        rb_set_black uncle ;;;
        rb_set_black parent ;;;
        rb_set_red gparent ;;;
        ret (inl gparent)
      else
        let! pl := get_left parent in
        let! (node, parent) :=
          (if pl =? node then __rb_rotate_right parent root ;;; ret (parent, node) else ret (node, parent)) in
        rb_set_black parent ;;;
        rb_set_red gparent ;;;
        __rb_rotate_left gparent root ;;;
        ret (inl node).

Definition rb_insert_color (node root : Z) : M (gmap Z V) unit :=
  hloop (insert_round root) node ;;;
  let! r := get_root root in
  rb_set_black r.

(** ** Deletion *)

(** The test [!p || rb_is_black(p)] of the code. *)
Definition null_or_black (p : Z) : M (gmap Z V) bool :=
  if p =? NULL then ret true else rb_is_black p.

(** One round of the loop on [node] and [parent]; it leaves with the last
    [node]. *)
Definition erase_round (root : Z) (np : Z * Z) : M (gmap Z V) (Z * Z + Z) :=
  let '(node, parent) := np in
  let! black := null_or_black node in
  let! r := get_root root in
  if negb ((black : bool) && negb (node =? r)) then ret (inr node)
  else
    let! pl := get_left parent in
    if pl =? node then
      let! other := get_right parent in
      let! other_red := rb_is_red other in
      let! other :=
        (if other_red : bool then
           rb_set_black other ;;;
           rb_set_red parent ;;;
           __rb_rotate_left parent root ;;;
           get_right parent
         else ret other) in
      let! ol := get_left other in
      let! left_black := null_or_black ol in
      let! both_black := (if left_black : bool then let! or := get_right other in null_or_black or else ret false) in
      if both_black : bool then
        rb_set_red other ;;;
        let! p := rb_parent parent in
        ret (inl (parent, p))
      else
        let! or := get_right other in
        let! right_black := null_or_black or in
        let! other :=
          (if right_black : bool then
             let! ol := get_left other in
             rb_set_black ol ;;;
             rb_set_red other ;;;
             __rb_rotate_right other root ;;;
             get_right parent
           else ret other) in
        let! c := rb_color parent in
        rb_set_color other c ;;;
        rb_set_black parent ;;;
        let! or := get_right other in
        rb_set_black or ;;;
        __rb_rotate_left parent root ;;;
        let! r := get_root root in
        ret (inr r)
    else
      let! other := get_left parent in
      let! other_red := rb_is_red other in
      let! other :=
        (if other_red : bool then
           rb_set_black other ;;;
           rb_set_red parent ;;;
           __rb_rotate_right parent root ;;;
           get_left parent
         else ret other) in
      let! ol := get_left other in
      let! left_black := null_or_black ol in
      let! both_black := (if left_black : bool then let! or := get_right other in null_or_black or else ret false) in
      if both_black : bool then
        rb_set_red other ;;;
        let! p := rb_parent parent in
        ret (inl (parent, p))
      else
        let! ol := get_left other in
        let! left_black := null_or_black ol in
        let! other :=
          (if left_black : bool then
             let! or := get_right other in
             rb_set_black or ;;;
             rb_set_red other ;;;
             __rb_rotate_left other root ;;;
             get_left parent
           else ret other) in
        let! c := rb_color parent in
        rb_set_color other c ;;;
        rb_set_black parent ;;;
        let! ol := get_left other in
        rb_set_black ol ;;;
        __rb_rotate_right parent root ;;;
        let! r := get_root root in
        ret (inr r).

Definition __rb_erase_color (node parent root : Z) : M (gmap Z V) unit :=
  let! node := hloop (erase_round root) (node, parent) in
  if negb (node =? NULL) then rb_set_black node else ret tt.

(** Down to the left, or right, as far as it goes. *)
Definition leftmost (node : Z) : M (gmap Z V) Z :=
  hloop (fun node => let! lft := get_left node in if negb (lft =? NULL) then ret (inl lft) else ret (inr node)) node.
Definition rightmost (node : Z) : M (gmap Z V) Z :=
  hloop (fun node => let! rgt := get_right node in if negb (rgt =? NULL) then ret (inl rgt) else ret (inr node)) node.

(** [node] with two children: its successor takes its place.  The results are
    the variables at the label [color]. *)
Definition erase_inner (old root : Z) : M (gmap Z V) (Z * Z * Z) :=
  let! node := get_right old in
  let! node := leftmost node in
  let! op := rb_parent old in
  (if negb (op =? NULL) then
     let! pl := get_left op in
     if pl =? old then set_left op node else set_right op node
   else set_root root node) ;;;
  let! child := get_right node in
  let! parent := rb_parent node in
  let! color := rb_color node in
  let! parent :=
    (if parent =? old then ret node
     else
       (if negb (child =? NULL) then rb_set_parent child parent else ret tt) ;;;
       set_left parent child ;;;
       let! r := get_right old in
       set_right node r ;;;
       let! r := get_right old in
       rb_set_parent r node ;;;
       ret parent) in
  let! w := get_pc old in
  set_pc node w ;;;
  let! l := get_left old in
  set_left node l ;;;
  let! l := get_left old in
  rb_set_parent l node ;;;
  ret (child, parent, color).

(** [node] with at most one child, [child]. *)
Definition erase_outer (node child root : Z) : M (gmap Z V) (Z * Z * Z) :=
  let! parent := rb_parent node in
  let! color := rb_color node in
  (if negb (child =? NULL) then rb_set_parent child parent else ret tt) ;;;
  (if negb (parent =? NULL) then
     let! pl := get_left parent in
     if pl =? node then set_left parent child else set_right parent child
   else set_root root child) ;;;
  ret (child, parent, color).

Definition rb_erase (node root : Z) : M (gmap Z V) unit :=
  let! lft := get_left node in
  let! rgt := get_right node in
  let! (child, parent, color) :=
    (if lft =? NULL then erase_outer node rgt root
     else if rgt =? NULL then erase_outer node lft root
     else erase_inner node root) in
  if color =? RB_BLACK then __rb_erase_color child parent root else ret tt.

(** ** Walking *)

Definition rb_first (root : Z) : M (gmap Z V) Z :=
  let! n := get_root root in
  if n =? NULL then ret NULL else leftmost n.

Definition rb_last (root : Z) : M (gmap Z V) Z :=
  let! n := get_root root in
  if n =? NULL then ret NULL else rightmost n.

Definition rb_next (node : Z) : M (gmap Z V) Z :=
  let! p := rb_parent node in
  if p =? node then ret NULL
  else
    let! rgt := get_right node in
    if negb (rgt =? NULL) then leftmost rgt
    else
      hloop (fun node =>
        let! parent := rb_parent node in
        if parent =? NULL then ret (inr parent)
        else
          let! pr := get_right parent in
          if node =? pr then ret (inl parent) else ret (inr parent)) node.

Definition rb_prev (node : Z) : M (gmap Z V) Z :=
  let! p := rb_parent node in
  if p =? node then ret NULL
  else
    let! lft := get_left node in
    if negb (lft =? NULL) then rightmost lft
    else
      hloop (fun node =>
        let! parent := rb_parent node in
        if parent =? NULL then ret (inr parent)
        else
          let! pl := get_left parent in
          if node =? pl then ret (inl parent) else ret (inr parent)) node.

Definition rb_replace_node (victim new root : Z) : M (gmap Z V) unit :=
  let! parent := rb_parent victim in
  (if negb (parent =? NULL) then
     let! pl := get_left parent in
     if victim =? pl then set_left parent new else set_right parent new
   else set_root root new) ;;;
  let! l := get_left victim in
  (if negb (l =? NULL) then rb_set_parent l new else ret tt) ;;;
  let! r := get_right victim in
  (if negb (r =? NULL) then rb_set_parent r new else ret tt) ;;;
  let! n := load (A := rb_node) victim in
  load (A := rb_node) new ;;;
  store new n.
End Rbtree.
