(* ===== verification/RbtreeSpec.v ===== *)
(** Red-black trees as functional trees: what the pointer structures of
    [Rbtree.v] stand for.

    A tree carries the addresses of its nodes.  A path from a subtree up to the
    root is a list of frames, and [plug] closes it; this is how the loops of
    [lib/rbtree.c], which follow parent pointers, see a tree. *)
From S2P Require Import Prelude.

Inductive color : Type := Red | Black.

Inductive tree : Type :=
  | Leaf
  | Node (c : color) (l : tree) (x : Z) (r : tree).

Inductive side : Type := L | R.

#[export] Instance color_eq_dec : EqDecision color.
Proof. solve_decision. Defined.
#[export] Instance side_eq_dec : EqDecision side.
Proof. solve_decision. Defined.

Definition flip (d : side) : side := match d with L => R | R => L end.

Lemma flip_flip d : flip (flip d) = d.
Proof. by destruct d. Qed.

Lemma side_cases d e : d = e \/ d = flip e.
Proof. destruct d, e; auto. Qed.

(** A node with its subtrees named from the side [d]: near and far. *)
Definition join (d : side) (c : color) (near : tree) (x : Z) (far : tree) : tree :=
  match d with L => Node c near x far | R => Node c far x near end.

(** The node [x], whose subtree on the side [d] is left open. *)
Inductive frame : Type := Frame (d : side) (c : color) (x : Z) (far : tree).

Fixpoint plug (k : list frame) (t : tree) : tree :=
  match k with
  | [] => t
  | Frame d c x far :: k => plug k (join d c t x far)
  end.

Fixpoint elements (t : tree) : list Z :=
  match t with Leaf => [] | Node _ l x r => elements l ++ x :: elements r end.

(** Equality of sequences up to associativity. *)
Ltac elems := cbn [elements join flip app]; rewrite <-?app_assoc; cbn [app]; rewrite <-?app_assoc; cbn [app];
  rewrite <-?app_assoc; reflexivity.

(** What is left and right of the hole. *)
Fixpoint before (k : list frame) : list Z :=
  match k with
  | [] => []
  | Frame L _ _ _ :: k => before k
  | Frame R _ x far :: k => before k ++ elements far ++ [x]
  end.
Fixpoint after (k : list frame) : list Z :=
  match k with
  | [] => []
  | Frame L _ x far :: k => x :: elements far ++ after k
  | Frame R _ _ _ :: k => after k
  end.

Lemma elements_plug k t : elements (plug k t) = before k ++ elements t ++ after k.
Proof.
  revert t. induction k as [|[[] c x far] k IH]; intros t; cbn [plug before after app].
  - by rewrite app_nil_r.
  - rewrite IH. cbn. by rewrite <-!app_assoc.
  - rewrite IH. cbn. by rewrite <-!app_assoc.
Qed.

Lemma plug_app k1 k2 t : plug (k1 ++ k2) t = plug k2 (plug k1 t).
Proof. revert t. induction k1 as [|[d c x far] k1 IH]; intros t; [done|]. apply IH. Qed.

Lemma length_plug k t : (length k + length (elements t) <= length (elements (plug k t)))%nat.
Proof.
  revert t. induction k as [|[d c x far] k IH]; intros t; cbn [plug length]; [done|].
  etransitivity; [|apply IH]. destruct d; cbn; rewrite length_app; cbn; lia.
Qed.

(** ** Positions *)

Lemma split_unique {A} (l1 l2 m1 m2 : list A) x :
  x ∉ l1 -> x ∉ m1 -> l1 ++ x :: l2 = m1 ++ x :: m2 -> l1 = m1 /\ l2 = m2.
Proof.
  revert m1. induction l1 as [|y l1 IH]; intros [|z m1] Hl Hm E; cbn in E.
  - by injection E as ->.
  - injection E as <- ->. set_solver.
  - injection E as -> <-. set_solver.
  - injection E as <- E. destruct (IH m1) as [-> ->]; [set_solver..|done|done].
Qed.

Lemma elements_elem t x k0 : x ∈ elements t -> exists k c l r, plug k0 t = plug k (Node c l x r).
Proof.
  revert k0. induction t as [|c l IHl y r IHr]; intros k0 Hin; [by apply elem_of_nil in Hin|]. cbn in Hin.
  apply elem_of_app in Hin as [Hin|Hin]; [apply (IHl (Frame L c y r :: k0) Hin)|].
  apply elem_of_cons in Hin as [->|Hin]; [by exists k0, c, l, r|apply (IHr (Frame R c y l :: k0) Hin)].
Qed.

(** A node of a tree, with what is before and after it. *)
Lemma elements_split t es1 x es2 :
  NoDup (elements t) -> elements t = es1 ++ x :: es2 ->
  exists k c l r, t = plug k (Node c l x r) /\ es1 = before k ++ elements l /\ es2 = elements r ++ after k.
Proof.
  intros Hd He. destruct (elements_elem t x []) as (k & c & l & r & E); [rewrite He; set_solver|]. cbn in E. subst t.
  exists k, c, l, r. split; [done|]. rewrite elements_plug in He, Hd. cbn in He, Hd.
  replace (before k ++ (elements l ++ x :: elements r) ++ after k)
    with ((before k ++ elements l) ++ x :: elements r ++ after k) in He, Hd by (by rewrite <-!app_assoc).
  assert (Hn1 : x ∉ before k ++ elements l). { apply NoDup_app in Hd as (_ & Hd & _). set_solver. }
  assert (Hn2 : x ∉ es1). { rewrite He in Hd. apply NoDup_app in Hd as (_ & Hd & _). set_solver. }
  destruct (split_unique _ _ _ _ x Hn1 Hn2 He) as [-> ->]. done.
Qed.

(** ** Ends *)

(** The outermost node on a side, and the first node that is not left of, or
    right of, a hole on the way up; 0 if there is none. *)
Fixpoint tip (d : side) (t : tree) : Z :=
  match t with
  | Leaf => 0
  | Node _ l x r =>
      match d with
      | L => match l with Leaf => x | _ => tip d l end
      | R => match r with Leaf => x | _ => tip d r end
      end
  end.

Fixpoint turn (d : side) (k : list frame) : Z :=
  match k with
  | [] => 0
  | Frame e _ x _ :: k => if decide (e = d) then turn d k else x
  end.

Definition on (d : side) (f : frame) : Prop := match f with Frame e _ _ _ => e = d end.

Lemma tip_left t : tip L t = default 0 (head (elements t)).
Proof. induction t as [|c l IHl x r IHr]; [done|]. cbn. destruct l; [done|]. rewrite IHl. cbn. by destruct (elements l1). Qed.

Lemma tip_right t : tip R t = default 0 (last (elements t)).
Proof.
  induction t as [|c l IHl x r IHr]; [done|]. cbn [tip elements].
  destruct r as [|c' a y b]; [cbn; by rewrite last_snoc|]. rewrite IHr, last_app, last_cons.
  destruct (last (elements (Node c' a y b))) eqn:E; [done|]. apply last_None in E. cbn in E. by destruct (elements a).
Qed.

Lemma turn_right k : turn R k = default 0 (head (after k)).
Proof. induction k as [|[[] c x far] k IH]; done. Qed.

Lemma turn_left k : turn L k = default 0 (last (before k)).
Proof. induction k as [|[[] c x far] k IH]; [done..|]. cbn. by rewrite app_assoc, last_snoc. Qed.

Lemma tip_split d t :
  t <> Leaf -> exists j c s, t = plug j (join d c Leaf (tip d t) s) /\ Forall (on d) j.
Proof.
  intros Ht. assert (forall k, exists j c s, plug k t = plug (j ++ k) (join d c Leaf (tip d t) s) /\ Forall (on d) j) as Hk.
  { induction t as [|c l IHl x r IHr]; [done|]. intros k. destruct d; cbn [tip].
    - destruct l as [|c' l1 y l2]; [by exists [], c, r|].
      destruct (IHl ltac:(done) (Frame L c x r :: k)) as (j & c0 & s & E & Hj). exists (j ++ [Frame L c x r]), c0, s.
      rewrite <-app_assoc. split; [exact E|]. apply Forall_app. repeat constructor; done.
    - destruct r as [|c' l1 y l2]; [by exists [], c, l|].
      destruct (IHr ltac:(done) (Frame R c x l :: k)) as (j & c0 & s & E & Hj). exists (j ++ [Frame R c x l]), c0, s.
      rewrite <-app_assoc. split; [exact E|]. apply Forall_app. repeat constructor; done. }
  destruct (Hk []) as (j & c & s & E & Hj). rewrite app_nil_r in E. by exists j, c, s.
Qed.

Lemma before_left j : Forall (on L) j -> before j = [].
Proof. induction 1 as [|[e c x far] j He _ IH]; [done|]. cbn in He. by subst e. Qed.

(** ** Colours *)

(** [rbt t c n]: the root of [t] has colour [c] (a leaf is black), no red node
    has a red child, and every path down has [n] black nodes. *)
Inductive rbt : tree -> color -> nat -> Prop :=
  | rbt_leaf : rbt Leaf Black 0
  | rbt_red l x r n : rbt l Black n -> rbt r Black n -> rbt (Node Red l x r) Red n
  | rbt_black l x r cl cr n : rbt l cl n -> rbt r cr n -> rbt (Node Black l x r) Black (S n).

(** The tree around the hole is well coloured when the hole gets a tree of
    colour [c] and black height [n]. *)
Inductive ctxt : list frame -> color -> nat -> Prop :=
  | ctxt_top n : ctxt [] Black n
  | ctxt_red d x far k n : rbt far Black n -> ctxt k Red n -> ctxt (Frame d Red x far :: k) Black n
  | ctxt_black d x far k c c' n : rbt far c' n -> ctxt k Black (S n) -> ctxt (Frame d Black x far :: k) c n.

Create HintDb rb.
#[export] Hint Constructors rbt ctxt : rb.

Definition rb_ok (t : tree) : Prop := exists n, rbt t Black n.

Lemma rbt_black_join d near x far n cn cf :
  rbt near cn n -> rbt far cf n -> rbt (join d Black near x far) Black (S n).
Proof. destruct d; cbn; eauto with rb. Qed.
Lemma rbt_red_join d near x far n : rbt near Black n -> rbt far Black n -> rbt (join d Red near x far) Red n.
Proof. destruct d; cbn; eauto with rb. Qed.
#[export] Hint Resolve rbt_black_join rbt_red_join : rb.

Lemma rbt_red_inv d t n :
  rbt t Red n -> exists a x b, t = join d Red a x b /\ rbt a Black n /\ rbt b Black n.
Proof. inversion 1 as [|l x r|]; subst. destruct d; [exists l, x, r|exists r, x, l]; done. Qed.

Lemma rbt_black_inv d t n :
  rbt t Black (S n) -> exists a x b ca cb, t = join d Black a x b /\ rbt a ca n /\ rbt b cb n.
Proof. inversion 1 as [| |l x r cl cr]; subst. destruct d; [exists l, x, r, cl, cr|exists r, x, l, cr, cl]; done. Qed.

(** A place for a red tree can have any tree. *)
Lemma ctxt_any k n c : ctxt k Red n -> ctxt k c n.
Proof. inversion 1; subst; eauto with rb. Qed.
#[export] Hint Resolve ctxt_any : rb.

Lemma plug_ok k t c n : ctxt k c n -> rbt t c n -> rb_ok (plug k t).
Proof.
  intros Hk. revert t. induction Hk as [n|d x far k n Hf Hk IH|d x far k c c' n Hf Hk IH]; intros t Ht; [by exists n|..];
    cbn; eauto with rb.
Qed.

Lemma rb_ok_ctxt k t : rb_ok (plug k t) -> exists c n, rbt t c n /\ ctxt k c n.
Proof.
  revert t. induction k as [|[d c x far] k IH]; intros t; [intros [n Hn]; eauto with rb|].
  intros (c0 & n & Ht & Hk)%IH. destruct d; inversion Ht; subst; eauto 6 with rb.
Qed.

Definition tcolor (t : tree) : color := match t with Leaf => Black | Node c _ _ _ => c end.

Lemma rbt_tcolor t c n : rbt t c n -> tcolor t = c.
Proof. by inversion 1. Qed.

Lemma elements_plug_ext k t t' : elements t = elements t' -> elements (plug k t) = elements (plug k t').
Proof. intros E. by rewrite !elements_plug, E. Qed.

Lemma plug_node k c l x r : exists c' l' y r', plug k (Node c l x r) = Node c' l' y r'.
Proof.
  revert c l x r. induction k as [|[[] c0 y far] k IH]; intros c l x r; cbn; [by eexists _, _, _, _|apply IH..].
Qed.

(** Colours do not depend on which nodes there are. *)
Lemma ctxt_rename j d c x y far k c0 n :
  ctxt (j ++ Frame d c x far :: k) c0 n -> ctxt (j ++ Frame d c y far :: k) c0 n.
Proof.
  revert c0 n. induction j as [|[e c' z far'] j IH]; intros c0 n; cbn [app]; inversion 1; subst; eauto with rb.
Qed.

Lemma rb_ok_rename j d c x y far k t :
  rb_ok (plug (j ++ Frame d c x far :: k) t) -> rb_ok (plug (j ++ Frame d c y far :: k) t).
Proof. intros (c0 & n & Ht & Hk)%rb_ok_ctxt. by eapply plug_ok, Ht; eapply ctxt_rename. Qed.

(** ** Height *)

Fixpoint height (t : tree) : nat :=
  match t with Leaf => 0 | Node _ l _ r => S (Nat.max (height l) (height r)) end.

Lemma rbt_height t c n : rbt t c n -> (height t <= 2 * n + match c with Red => 1 | Black => 0 end)%nat.
Proof. induction 1; cbn in *; repeat case_match; lia. Qed.

Lemma rbt_size t c n : rbt t c n -> (2 ^ n <= S (length (elements t)))%nat.
Proof.
  induction 1; cbn [elements length]; rewrite ?length_app, ?Nat.pow_succ_r'; cbn [length]; [done|lia..].
Qed.

(** No path is longer than twice the logarithm of the number of nodes. *)
Lemma rb_ok_height t : rb_ok t -> (height t <= 2 * Nat.log2 (S (length (elements t))))%nat.
Proof.
  intros [n Hn]. pose proof (rbt_height _ _ _ Hn) as Hh. cbn beta iota in Hh.
  pose proof (Nat.log2_le_mono _ _ (rbt_size _ _ _ Hn)) as Hl. rewrite Nat.log2_pow2 in Hl by lia. lia.
Qed.
