(* ===== verification/HeapLogic.v ===== *)
(** A separation logic for kernel code that works on linked structures.

    The state is a heap of C objects.  [hwp m Q] says that the computation [m]
    ends without a fault from every heap that contains what is owned, with a
    result and ownership of a heap part that satisfy [Q]; everything else in
    the heap stays as it is.  Ownership of objects is that of Iris'
    [gen_heap]. *)
From iris.proofmode Require Import proofmode.
From iris.base_logic Require Import lib.gen_heap.
From S2P Require Import Prelude Wp Heap.

(** ** Total correctness *)

Section Logic.
  Context {V : Type} {Σ : gFunctors} `{!gen_heapGS Z V Σ}.
  Implicit Types P : iProp Σ.

Definition hwp {A} (m : M (gmap Z V) A) (Q : A -> iProp Σ) : iProp Σ :=
  ∀ h, gen_heap_interp h ==∗ ∃ a h', ⌜m h = Ok (a, h')⌝ ∗ gen_heap_interp h' ∗ Q a.

Lemma hwp_ret {A} (a : A) Q : Q a ⊢ hwp (ret a) Q.
Proof. iIntros "HQ" (h) "Hh !>". iExists a, h. by iFrame. Qed.

Lemma hwp_bind {A B} (m : M (gmap Z V) A) (k : A -> M (gmap Z V) B) Q :
  hwp m (fun a => hwp (k a) Q) ⊢ hwp (bind m k) Q.
Proof.
  iIntros "H" (h) "Hh". iMod ("H" with "Hh") as (a h1 E1) "[Hh H]". iMod ("H" with "Hh") as (b h2 E2) "[Hh HQ]".
  iModIntro. iExists b, h2. iFrame. by rw (bind_ok _ _ _ _ _ E1).
Qed.

Lemma hwp_mono {A} (m : M (gmap Z V) A) Q Q' :
  hwp m Q -∗ (∀ a, Q a -∗ Q' a) -∗ hwp m Q'.
Proof.
  iIntros "H HQ" (h) "Hh". iMod ("H" with "Hh") as (a h1 E1) "[Hh Q]". iModIntro. iExists a, h1.
  iFrame. iSplit; [done|]. by iApply "HQ".
Qed.

Lemma hwp_load {A} `{Holds V A} p (a : A) Q :
  pointsto p (DfracOwn 1) (obj a) -∗ (pointsto p (DfracOwn 1) (obj a) -∗ Q a) -∗ hwp (load p) Q.
Proof.
  iIntros "Hp HQ" (h) "Hh". iDestruct (gen_heap_valid with "Hh Hp") as %E. iModIntro. iExists a, h.
  iFrame. iSplit; [|by iApply "HQ"]. iPureIntro. unfold load. apply deref_ok. rw E. apply as_obj_obj.
Qed.

Lemma hwp_store {A} `{Holds V A} p (a a' : A) Q :
  pointsto p (DfracOwn 1) (obj a) -∗ (pointsto p (DfracOwn 1) (obj a') -∗ Q tt) -∗ hwp (store p a') Q.
Proof.
  iIntros "Hp HQ". iApply hwp_bind. iApply (hwp_load with "Hp"). iIntros "Hp" (h) "Hh".
  iMod (gen_heap_update with "Hh Hp") as "[Hh Hp]". iModIntro. iExists tt, _. iFrame. iSplit; [done|]. by iApply "HQ".
Qed.

(** Loops: the owned objects bound the rounds. *)
Lemma hwp_hloop {L R} (body : L -> M (gmap Z V) (L + R)) l P Q n :
  (forall h, gen_heap_interp h -∗ P -∗ ⌜(n <= size h)%nat⌝) ->
  (forall fuel, (n < fuel)%nat -> P ⊢ hwp (loop fuel body l) Q) ->
  P ⊢ hwp (hloop body l) Q.
Proof.
  iIntros (Hn Hl) "HP". iIntros (h) "Hh". iDestruct (Hn with "Hh HP") as %Hle.
  iDestruct (Hl (S (size h)) with "HP") as "HP"; [lia|]. by iApply "HP".
Qed.
End Logic.

(** ** From ownership to heaps *)

Definition cells {V Σ} `{!gen_heapGS Z V Σ} (l : list (Z * V)) : iProp Σ :=
  [∗ list] c ∈ l, pointsto c.1 (DfracOwn 1) c.2.

(** The heap contains these objects. *)
Definition contains {V} (h : gmap Z V) (l : list (Z * V)) : Prop := forall p v, (p, v) ∈ l -> h !! p = Some v.

Section Cells.
  Context {V : Type} {Σ : gFunctors} `{!gen_heapGS Z V Σ}.

Lemma cells_nil : ⊢ cells [].
Proof. by apply big_sepL_nil'. Qed.

Lemma cells_cons p (v : V) l : cells ((p, v) :: l) ⊣⊢ pointsto p (DfracOwn 1) v ∗ cells l.
Proof. apply big_sepL_cons. Qed.

Lemma cells_app (l1 l2 : list (Z * V)) : cells (l1 ++ l2) ⊣⊢ cells l1 ∗ cells l2.
Proof. apply big_sepL_app. Qed.

Lemma cells_contains l h : gen_heap_interp h -∗ cells l -∗ ⌜contains h l⌝.
Proof.
  iIntros "Hh Hl" (p v Hin). iDestruct (big_sepL_elem_of _ _ _ Hin with "Hl") as "Hp".
  by iDestruct (gen_heap_valid with "Hh Hp") as %E.
Qed.

Lemma cells_not_in l p (v : V) : cells l -∗ pointsto p (DfracOwn 1) v -∗ ⌜p ∉ l.*1⌝.
Proof.
  iIntros "Hl Hp" (Hin). apply list_elem_of_fmap in Hin as ([q w] & -> & Hin).
  iDestruct (big_sepL_elem_of _ _ _ Hin with "Hl") as "Hq". by iDestruct (pointsto_ne with "Hp Hq") as %?.
Qed.

Lemma owned_cells_nodup (l : list (Z * V)) : cells l ⊢ ⌜NoDup l.*1⌝.
Proof.
  induction l as [|[p v] l IH]; [iIntros "_"; iPureIntro; constructor|]. iIntros "[Hp Hl]".
  iDestruct (cells_not_in with "Hl Hp") as %Hn. iDestruct (IH with "Hl") as %Hl. iPureIntro. by constructor.
Qed.

Lemma cells_size l h : gen_heap_interp h -∗ cells l -∗ ⌜(length l <= size h)%nat⌝.
Proof.
  iIntros "Hh Hl". iDestruct (owned_cells_nodup with "Hl") as %Hd. iDestruct (cells_contains with "Hh Hl") as %Hc.
  iPureIntro. transitivity (size (list_to_set (C := gset Z) l.*1)).
  { rw size_list_to_set //. by rw length_fmap. }
  rw -(size_dom (D := gset Z) h). apply subseteq_size. intros p Hp. apply elem_of_list_to_set in Hp.
  apply list_elem_of_fmap in Hp as ([q w] & -> & Hin). apply elem_of_dom. exists w. by apply Hc.
Qed.
End Cells.

(** What is proved of owned objects holds of every heap that contains them, and
    the other objects do not change. *)
Lemma heap_adequacy {V A} (m : M (gmap Z V) A) (h : gmap Z V) (l : list (Z * V)) (Q : A -> list (Z * V) -> Prop) :
  NoDup l.*1 -> contains h l ->
  (forall Σ (HΣ : gen_heapGS Z V Σ), cells l ⊢ hwp m (fun a => ∃ l', ⌜Q a l'⌝ ∗ cells l')) ->
  exists a h' l', m h = Ok (a, h') /\ Q a l' /\ NoDup l'.*1 /\ contains h' l' /\
    (forall p v, h !! p = Some v -> p ∉ l.*1 -> h' !! p = Some v /\ p ∉ l'.*1).
Proof.
  intros Hd Hc Hm. set (Σ := #[gen_heapΣ Z V]).
  apply (pure_soundness (PROP := iPropI Σ)). apply uPred.bupd_soundness; [apply _|].
  iMod (gen_heap_init h) as (HΣ) "(Hh & Hall & _)".
  assert (Hsub : list_to_map (M := gmap Z V) l ⊆ h).
  { apply map_subseteq_spec. intros p v Hp. apply Hc. by apply elem_of_list_to_map_2. }
  assert (Eh : h = list_to_map l ∪ (h ∖ list_to_map l)) by (by rw map_difference_union).
  rw {2}Eh. iDestruct (big_sepM_union with "Hall") as "[Hl Hrest]"; [by apply map_disjoint_difference_r1|].
  rw big_sepM_list_to_map //. iMod (Hm Σ HΣ with "Hl Hh") as (a h' E) "[Hh (%l' & %HQ & Hl')]".
  iDestruct (owned_cells_nodup with "Hl'") as %Hd'. iDestruct (cells_contains with "Hh Hl'") as %Hc'.
  iModIntro. iExists a, h', l'. iSplit; [done|]. iSplit; [done|]. iSplit; [done|]. iSplit; [done|].
  iIntros (p v Hp Hn). iDestruct (big_sepM_lookup _ _ p v with "Hrest") as "Hp".
  { apply lookup_difference_Some. split; [done|]. by apply not_elem_of_list_to_map_1. }
  iDestruct (gen_heap_valid with "Hh Hp") as %?. by iDestruct (cells_not_in with "Hl' Hp") as %?.
Qed.
