(* ===== verification/RbtreeProof.v ===== *)
(** The operations of [Rbtree.v] on owned trees.

    [rbtree root t] owns the nodes of [t] and the root object.  The code for
    the left and for the right side is one computation with the side as an
    argument, so that every rule is proved once. *)
From iris.proofmode Require Import proofmode environments.
From iris.base_logic Require Import lib.gen_heap.
From S2P Require Import Prelude Wp Heap HeapLogic Rbtree RbtreeSpec.

(** ** Words of parent and colour *)

Definition bit (c : color) : Z := match c with Red => RB_RED | Black => RB_BLACK end.
Definition is_red (c : color) : bool := match c with Red => true | Black => false end.

(** The address of a node: nodes are aligned to eight bytes. *)
Definition valid (x : Z) : Prop := 0 < x < 2 ^ 64 /\ x mod 8 = 0.
Definition aligned (p : Z) : Prop := p = NULL \/ valid p.

Definition word (par : Z) (c : color) : Z := Z.lor par (bit c).

Lemma aligned_low p : aligned p -> Z.land p 3 = 0.
Proof.
  intros [->|[_ Hm]]; [done|]. change 3 with (Z.ones 2). rw Z.land_ones; [|lia]. change (2 ^ 2) with 4.
  Z.div_mod_to_equations. lia.
Qed.

Lemma valid_nonzero x : valid x -> x <> NULL.
Proof. unfold valid, NULL. lia. Qed.

Lemma aligned_high p : Z.land p 3 = 0 -> Z.land p (Z.lnot 3) = p.
Proof.
  intros E. rw -{2}(Z.land_m1_r p). change (- (1)) with (Z.lor (Z.lnot 3) 3). by rw Z.land_lor_distr_r E Z.lor_0_r.
Qed.

Lemma aligned_land p z : aligned p -> Z.land 3 z = z -> Z.land p z = 0.
Proof. intros Hp <-. by rw Z.land_assoc (aligned_low p Hp) Z.land_0_l. Qed.

Lemma word_parent p c : aligned p -> Z.land (word p c) (Z.lnot 3) = p.
Proof.
  intros Hp. unfold word. rw Z.land_lor_distr_l (aligned_high _ (aligned_low p Hp)). destruct c; cbn; by rw Z.lor_0_r.
Qed.

Lemma word_color p c : aligned p -> Z.land (word p c) 1 = bit c.
Proof.
  intros Hp. unfold word. rw Z.land_lor_distr_l (aligned_land p 1 Hp) //. by destruct c.
Qed.

Lemma word_red p c : aligned p -> Z.land (word p c) (Z.lnot 1) = word p Red.
Proof.
  intros Hp. unfold word. rw Z.land_lor_distr_l. rw (_ : Z.land (bit c) (Z.lnot 1) = 0); [|by destruct c].
  rw -{1}(aligned_high p (aligned_low p Hp)) -Z.land_assoc. change (Z.land (Z.lnot 3) (Z.lnot 1)) with (Z.lnot 3).
  by rw aligned_high; [|apply aligned_low].
Qed.

Lemma word_black p c : Z.lor (word p c) 1 = word p Black.
Proof. unfold word. rw -Z.lor_assoc. by destruct c. Qed.

Lemma word_set_parent p q c : aligned p -> Z.lor (Z.land (word p c) 3) q = word q c.
Proof.
  intros Hp. unfold word. rw Z.land_lor_distr_l (aligned_low p Hp) Z.lor_0_l Z.lor_comm. by destruct c.
Qed.

Lemma word_set_color p c c' : aligned p -> Z.lor (Z.land (word p c) (Z.lnot 1)) (bit c') = word p c'.
Proof. intros Hp. rw (word_red p c Hp). unfold word. cbn. by rw Z.lor_0_r. Qed.

(** ** Sides *)

Section Sides.
  Context {V : Type} `{Holds V rb_node} `{Holds V rb_root}.

Definition get (d : side) (p : Z) : M (gmap Z V) Z := match d with L => get_left p | R => get_right p end.
Definition set (d : side) (p v : Z) : M (gmap Z V) unit := match d with L => set_left p v | R => set_right p v end.
Definition rotate (d : side) (x root : Z) : M (gmap Z V) unit :=
  match d with L => __rb_rotate_left x root | R => __rb_rotate_right x root end.

(** The pointer to a node in its parent becomes [v]; [test] tells the node. *)
Definition relink (test : Z -> bool) (d : side) (root parent v : Z) : M (gmap Z V) unit :=
  if negb (parent =? NULL) then
    let! pn := get d parent in
    if test pn then set d parent v else set (flip d) parent v
  else set_root root v.

Definition set_parent_if (p q : Z) : M (gmap Z V) unit :=
  if negb (p =? NULL) then rb_set_parent p q else ret tt.

Lemma rotate_unfold d x root :
  rotate d x root =
  (let! y := get (flip d) x in
   let! parent := rb_parent x in
   let! b := get d y in
   set (flip d) x b ;;;
   (if negb (b =? NULL) then let! b := get d y in rb_set_parent b x else ret tt) ;;;
   set d y x ;;;
   rb_set_parent y parent ;;;
   relink (Z.eqb x) d root parent y ;;;
   rb_set_parent x y).
Proof. by destruct d. Qed.

(** A round of insertion below a grandparent whose child on side [d] is the
    parent. *)
Definition insert_side (d : side) (root node parent gparent : Z) : M (gmap Z V) (Z + unit) :=
  let! uncle := get (flip d) gparent in
  let! uncle_red := red_node uncle in
  if uncle_red : bool then
    rb_set_black uncle ;;;
    rb_set_black parent ;;;
    rb_set_red gparent ;;;
    ret (inl gparent)
  else
    let! pf := get (flip d) parent in
    let! (node, parent) :=
      (if pf =? node then rotate d parent root ;;; ret (parent, node) else ret (node, parent)) in
    rb_set_black parent ;;;
    rb_set_red gparent ;;;
    rotate (flip d) gparent root ;;;
    ret (inl node).

Lemma insert_round_unfold root node :
  insert_round root node =
  (let! parent := rb_parent node in
   let! parent_red := red_node parent in
   if negb parent_red then ret (inr tt)
   else
     let! gparent := rb_parent parent in
     let! gl := get L gparent in
     if parent =? gl then insert_side L root node parent gparent else insert_side R root node parent gparent).
Proof. done. Qed.

(** A round of deletion where [node] is on side [d] of its parent: the sibling
    is made black, a red nephew is moved to the far side, and a rotation ends
    the loop. *)
Definition erase_finish (d : side) (root parent other : Z) : M (gmap Z V) (Z * Z + Z) :=
  let! c := rb_color parent in
  rb_set_color other c ;;;
  rb_set_black parent ;;;
  let! far := get (flip d) other in
  rb_set_black far ;;;
  rotate d parent root ;;;
  let! r := get_root root in
  ret (inr r).

Definition erase_tail (d : side) (root parent other : Z) : M (gmap Z V) (Z * Z + Z) :=
  let! ol := get_left other in
  let! left_black := null_or_black ol in
  let! both_black := (if left_black : bool then let! or := get_right other in null_or_black or else ret false) in
  if both_black : bool then
    rb_set_red other ;;;
    let! p := rb_parent parent in
    ret (inl (parent, p))
  else
    let! far := get (flip d) other in
    let! far_black := null_or_black far in
    let! other :=
      (if far_black : bool then
         let! near := get d other in
         rb_set_black near ;;;
         rb_set_red other ;;;
         rotate (flip d) other root ;;;
         get (flip d) parent
       else ret other) in
    erase_finish d root parent other.

Definition erase_side (d : side) (root parent : Z) : M (gmap Z V) (Z * Z + Z) :=
  let! other := get (flip d) parent in
  let! other_red := rb_is_red other in
  let! other :=
    (if other_red : bool then
       rb_set_black other ;;;
       rb_set_red parent ;;;
       rotate d parent root ;;;
       get (flip d) parent
     else ret other) in
  erase_tail d root parent other.

Lemma erase_round_unfold root node parent :
  erase_round root (node, parent) =
  (let! black := null_or_black node in
   let! r := get_root root in
   if negb ((black : bool) && negb (node =? r)) then ret (inr node)
   else
     let! pl := get L parent in
     if pl =? node then erase_side L root parent else erase_side R root parent).
Proof. done. Qed.
End Sides.

(** ** Owned trees *)

Definition ptr (t : tree) : Z := match t with Leaf => NULL | Node _ _ x _ => x end.
Definition parent (k : list frame) : Z := match k with [] => NULL | Frame _ _ x _ :: _ => x end.

Section Own.
  Context {V : Type} {HN : Holds V rb_node} {HR : Holds V rb_root} {Σ : gFunctors} `{!gen_heapGS Z V Σ}.
  Implicit Types Q : iProp Σ.

(** The node [p], with its children seen from side [d]. *)
Definition rbn (d : side) (p par : Z) (c : color) (near far : Z) : iProp Σ :=
  ⌜valid p /\ aligned par⌝ ∗
  pointsto p (DfracOwn 1)
    (obj (match d with L => mk_rb (word par c) far near | R => mk_rb (word par c) near far end)).

Definition rbroot (root h : Z) : iProp Σ := pointsto root (DfracOwn 1) (obj (mk_root h)).

Fixpoint owned (par : Z) (t : tree) : iProp Σ :=
  match t with
  | Leaf => True
  | Node c l x r => rbn L x par c (ptr l) (ptr r) ∗ owned x l ∗ owned x r
  end.

(** The tree around a hole, where the pointer [h] is stored. *)
Fixpoint around (root : Z) (k : list frame) (h : Z) : iProp Σ :=
  match k with
  | [] => rbroot root h
  | Frame d c x far :: k => rbn d x (parent k) c h (ptr far) ∗ owned x far ∗ around root k x
  end.

(** A node that is in no tree. *)
Definition rbfree (p : Z) : iProp Σ := ⌜valid p⌝ ∗ ∃ n : rb_node, pointsto p (DfracOwn 1) (obj n).

Definition rbtree (root : Z) (t : tree) : iProp Σ := rbroot root (ptr t) ∗ owned NULL t.

Lemma rbn_flip d p par c near far : rbn d p par c near far ⊣⊢ rbn (flip d) p par c far near.
Proof. by destruct d. Qed.

Lemma rbn_valid d p par c near far : rbn d p par c near far -∗ ⌜valid p /\ aligned par⌝.
Proof. by iIntros "[% _]". Qed.

Lemma rbn_free d p par c near far : rbn d p par c near far ⊢ rbfree p.
Proof. iIntros "[[$ _] Hp]". destruct d; by iExists _. Qed.

Lemma owned_join d par c a x b :
  owned par (join d c a x b) ⊣⊢ rbn d x par c (ptr a) (ptr b) ∗ owned x a ∗ owned x b.
Proof. destruct d; cbn; [done|]. rw (rbn_flip R). cbn. by rw (bi.sep_comm (owned x b)). Qed.

Lemma ptr_join d c a x b : ptr (join d c a x b) = x.
Proof. by destruct d. Qed.

Lemma rbtree_plug root k t : rbtree root (plug k t) ⊣⊢ around root k (ptr t) ∗ owned (parent k) t.
Proof.
  revert t. induction k as [|[d c x far] k IH]; intros t; cbn [plug around parent]; [done|].
  rw IH ptr_join owned_join. iSplit; [iIntros "($ & $ & $ & $)"|iIntros "(($ & $ & $) & $)"].
Qed.

Lemma rbn_ne d d' p q par par' c c' n n' f f' :
  rbn d p par c n f -∗ rbn d' q par' c' n' f' -∗ ⌜p <> q⌝.
Proof. iIntros "[_ H] [_ H']". iApply (pointsto_ne with "H H'"). Qed.

Lemma owned_ne d p par c n f par' t : rbn d p par c n f -∗ owned par' t -∗ ⌜p <> ptr t⌝.
Proof.
  iIntros "Hp Ht". destruct t as [|c' l y r]; cbn.
  - iDestruct (rbn_valid with "Hp") as %[Hp _]. iPureIntro. by apply valid_nonzero.
  - iDestruct "Ht" as "(Hy & _)". iApply (rbn_ne with "Hp Hy").
Qed.

(** ** Rules for the fields *)

Lemma hwp_get d p par c n f Φ : rbn d p par c n f -∗ (rbn d p par c n f -∗ Φ n) -∗ hwp (get d p) Φ.
Proof.
  iIntros "[% Hp] H". destruct d; iApply hwp_bind; iApply (hwp_load with "Hp"); iIntros "Hp"; iApply hwp_ret;
    iApply "H"; by iFrame.
Qed.

Lemma hwp_get_far d p par c n f Φ : rbn d p par c n f -∗ (rbn d p par c n f -∗ Φ f) -∗ hwp (get (flip d) p) Φ.
Proof. rw rbn_flip. iIntros "Hp H". by iApply (hwp_get with "Hp"). Qed.

Lemma hwp_set d p par c n f v Φ : rbn d p par c n f -∗ (rbn d p par c v f -∗ Φ tt) -∗ hwp (set d p v) Φ.
Proof.
  iIntros "[% Hp] H". destruct d; iApply hwp_bind; iApply (hwp_load with "Hp"); iIntros "Hp";
    iApply (hwp_store with "Hp"); iIntros "Hp"; iApply "H"; by iFrame.
Qed.

Lemma hwp_set_far d p par c n f v Φ : rbn d p par c n f -∗ (rbn d p par c n v -∗ Φ tt) -∗ hwp (set (flip d) p v) Φ.
Proof. rw !(rbn_flip d). iIntros "Hp H". by iApply (hwp_set with "Hp"). Qed.

Lemma hwp_get_pc d p par c n f Φ :
  rbn d p par c n f -∗ (⌜aligned par⌝ -∗ rbn d p par c n f -∗ Φ (word par c)) -∗ hwp (get_pc p) Φ.
Proof.
  iIntros "[[% %] Hp] H". destruct d; iApply hwp_bind; iApply (hwp_load with "Hp"); iIntros "Hp"; iApply hwp_ret;
    iApply ("H" with "[//]"); by iFrame.
Qed.

Lemma hwp_set_pc d p par c n f par' c' Φ :
  aligned par' -> rbn d p par c n f -∗ (rbn d p par' c' n f -∗ Φ tt) -∗ hwp (set_pc p (word par' c')) Φ.
Proof.
  iIntros (Ha) "[[% %] Hp] H". destruct d; iApply hwp_bind; iApply (hwp_load with "Hp"); iIntros "Hp";
    iApply (hwp_store with "Hp"); iIntros "Hp"; iApply "H"; by iFrame.
Qed.

Lemma hwp_parent d p par c n f Φ : rbn d p par c n f -∗ (rbn d p par c n f -∗ Φ par) -∗ hwp (rb_parent p) Φ.
Proof.
  iIntros "Hp H". iApply hwp_bind. iApply (hwp_get_pc with "Hp"). iIntros (Ha) "Hp". iApply hwp_ret.
  rw (word_parent _ _ Ha). by iApply "H".
Qed.

Lemma hwp_color d p par c n f Φ : rbn d p par c n f -∗ (rbn d p par c n f -∗ Φ (bit c)) -∗ hwp (rb_color p) Φ.
Proof.
  iIntros "Hp H". iApply hwp_bind. iApply (hwp_get_pc with "Hp"). iIntros (Ha) "Hp". iApply hwp_ret.
  rw (word_color _ _ Ha). by iApply "H".
Qed.

Lemma hwp_is_red d p par c n f Φ : rbn d p par c n f -∗ (rbn d p par c n f -∗ Φ (is_red c)) -∗ hwp (rb_is_red p) Φ.
Proof.
  iIntros "Hp H". iApply hwp_bind. iApply (hwp_color with "Hp"). iIntros "Hp". iApply hwp_ret.
  destruct c; by iApply "H".
Qed.

Lemma hwp_is_black d p par c n f Φ :
  rbn d p par c n f -∗ (rbn d p par c n f -∗ Φ (negb (is_red c))) -∗ hwp (rb_is_black p) Φ.
Proof.
  iIntros "Hp H". iApply hwp_bind. iApply (hwp_color with "Hp"). iIntros "Hp". iApply hwp_ret.
  destruct c; by iApply "H".
Qed.

Lemma hwp_set_red d p par c n f Φ : rbn d p par c n f -∗ (rbn d p par Red n f -∗ Φ tt) -∗ hwp (rb_set_red p) Φ.
Proof.
  iIntros "Hp H". iApply hwp_bind. iApply (hwp_get_pc with "Hp"). iIntros (Ha) "Hp". rw (word_red _ _ Ha).
  by iApply (hwp_set_pc with "Hp").
Qed.

Lemma hwp_set_black d p par c n f Φ : rbn d p par c n f -∗ (rbn d p par Black n f -∗ Φ tt) -∗ hwp (rb_set_black p) Φ.
Proof.
  iIntros "Hp H". iApply hwp_bind. iApply (hwp_get_pc with "Hp"). iIntros (Ha) "Hp". rw (word_black _ c).
  by iApply (hwp_set_pc with "Hp").
Qed.

Lemma hwp_set_color d p par c n f c' Φ :
  rbn d p par c n f -∗ (rbn d p par c' n f -∗ Φ tt) -∗ hwp (rb_set_color p (bit c')) Φ.
Proof.
  iIntros "Hp H". iApply hwp_bind. iApply (hwp_get_pc with "Hp"). iIntros (Ha) "Hp". rw (word_set_color _ _ _ Ha).
  by iApply (hwp_set_pc with "Hp").
Qed.

Lemma hwp_set_parent d p par c n f q Φ :
  aligned q -> rbn d p par c n f -∗ (rbn d p q c n f -∗ Φ tt) -∗ hwp (rb_set_parent p q) Φ.
Proof.
  iIntros (Hq) "Hp H". iApply hwp_bind. iApply (hwp_get_pc with "Hp"). iIntros (Ha) "Hp". rw (word_set_parent _ _ _ Ha).
  by iApply (hwp_set_pc with "Hp").
Qed.

Lemma hwp_get_root root h Φ : rbroot root h -∗ (rbroot root h -∗ Φ h) -∗ hwp (get_root root) Φ.
Proof. iIntros "Hr H". iApply hwp_bind. iApply (hwp_load with "Hr"). iIntros "Hr". iApply hwp_ret. by iApply "H". Qed.

Lemma hwp_set_root root h v Φ : rbroot root h -∗ (rbroot root v -∗ Φ tt) -∗ hwp (set_root root v) Φ.
Proof. iIntros "Hr H". by iApply (hwp_store with "Hr"). Qed.
End Own.

(** One step of a computation: the rule for its first operation, with the
    object it needs from the context. *)
Ltac hstep :=
  lazymatch goal with
  | |- envs_entails _ (hwp (bind _ _) _) => iApply hwp_bind
  | |- envs_entails _ (hwp (ret _) _) => iApply hwp_ret
  | |- envs_entails _ (hwp (get (flip ?d) ?p) _) => iApply (hwp_get_far d p with "[$]"); iIntros "?"
  | |- envs_entails _ (hwp (get ?d ?p) _) => iApply (hwp_get d p with "[$]"); iIntros "?"
  | |- envs_entails _ (hwp (get_left ?p) _) => change (get_left p) with (get L p); hstep
  | |- envs_entails _ (hwp (get_right ?p) _) => change (get_right p) with (get (flip L) p); hstep
  | |- envs_entails _ (hwp (get_pc ?p) _) => iApply (hwp_get_pc _ p with "[$]"); iIntros (?) "?"
  | |- envs_entails _ (hwp (set_pc ?p (word _ _)) _) => iApply (hwp_set_pc _ p with "[$]"); [done|iIntros "?"]
  | |- envs_entails _ (hwp (set_left ?p ?v) _) => change (set_left p v) with (set L p v); hstep
  | |- envs_entails _ (hwp (set_right ?p ?v) _) => change (set_right p v) with (set (flip L) p v); hstep
  | |- envs_entails _ (hwp (set (flip ?d) ?p _) _) => iApply (hwp_set_far d p with "[$]"); iIntros "?"
  | |- envs_entails _ (hwp (set ?d ?p _) _) => iApply (hwp_set d p with "[$]"); iIntros "?"
  | |- envs_entails _ (hwp (rb_parent ?p) _) => iApply (hwp_parent _ p with "[$]"); iIntros "?"
  | |- envs_entails _ (hwp (rb_color ?p) _) => iApply (hwp_color _ p with "[$]"); iIntros "?"
  | |- envs_entails _ (hwp (rb_is_red ?p) _) => iApply (hwp_is_red _ p with "[$]"); iIntros "?"
  | |- envs_entails _ (hwp (rb_is_black ?p) _) => iApply (hwp_is_black _ p with "[$]"); iIntros "?"
  | |- envs_entails _ (hwp (rb_set_red ?p) _) => iApply (hwp_set_red _ p with "[$]"); iIntros "?"
  | |- envs_entails _ (hwp (rb_set_black ?p) _) => iApply (hwp_set_black _ p with "[$]"); iIntros "?"
  | |- envs_entails _ (hwp (rb_set_color ?p _) _) => iApply (hwp_set_color _ p with "[$]"); iIntros "?"
  | |- envs_entails _ (hwp (rb_set_parent ?p _) _) => iApply (hwp_set_parent _ p with "[$]"); [|iIntros "?"]
  | |- envs_entails _ (hwp (get_root ?r) _) => iApply (hwp_get_root r with "[$]"); iIntros "?"
  | |- envs_entails _ (hwp (set_root ?r _) _) => iApply (hwp_set_root r with "[$]"); iIntros "?"
  end.

Ltac hsteps := repeat hstep.

(** ** Rotations *)

Section Rotate.
  Context {V : Type} {HN : Holds V rb_node} {HR : Holds V rb_root} {Σ : gFunctors} `{!gen_heapGS Z V Σ}.

Lemma hwp_relink test d root k x v d' par c n f Φ :
  (forall p, test p = (p =? x)) ->
  around root k x -∗ rbn d' x par c n f -∗ (around root k v -∗ rbn d' x par c n f -∗ Φ tt) -∗
  hwp (relink test d root (parent k) v) Φ.
Proof.
  iIntros (Ht) "Hk Hx H". unfold relink. destruct k as [|[e c0 y far] k]; cbn [around parent].
  { cbn. hstep. by iApply ("H" with "[$]"). }
  iDestruct "Hk" as "(Hy & Hfar & Hk)". iDestruct (rbn_valid with "Hy") as %[Hy _].
  rw (proj2 (Z.eqb_neq y NULL) (valid_nonzero y Hy)). cbn [negb]. iDestruct (owned_ne with "Hx Hfar") as %Hne.
  hstep. destruct (side_cases d e) as [->| ->].
  - hstep. rw Ht Z.eqb_refl. hstep. iApply ("H" with "[-Hx] Hx"). iFrame.
  - hstep. rw Ht (proj2 (Z.eqb_neq _ _) (not_eq_sym Hne)) flip_flip. hstep. iApply ("H" with "[-Hx] Hx"). iFrame.
Qed.

Lemma hwp_set_parent_if p q t Φ :
  aligned q -> owned p t -∗ (owned q t -∗ Φ tt) -∗ hwp (set_parent_if (ptr t) q) Φ.
Proof.
  iIntros (Hq) "Ht H". unfold set_parent_if. destruct t as [|c l x r]; cbn [ptr owned].
  { cbn. hstep. by iApply "H". }
  iDestruct "Ht" as "(Hx & Hl & Hr)". iDestruct (rbn_valid with "Hx") as %[Hx _].
  rw (proj2 (Z.eqb_neq x NULL) (valid_nonzero x Hx)). cbn [negb]. hstep; [done|]. iApply "H". iFrame.
Qed.

(** The subtree next to [y] on side [d] gets the parent [x]. *)
Lemma hwp_reparent d x y q e b f Φ :
  aligned x -> rbn d y q e (ptr b) f -∗ owned y b -∗ (rbn d y q e (ptr b) f -∗ owned x b -∗ Φ tt) -∗
  hwp (if negb (ptr b =? NULL) then let! b := get d y in rb_set_parent b x else ret tt) Φ.
Proof.
  iIntros (Hx) "Hy Hb H". destruct b as [|cb bl z br]; cbn [ptr owned].
  { cbn. hstep. by iApply ("H" with "Hy"). }
  iDestruct "Hb" as "(Hz & Hl & Hr)". iDestruct (rbn_valid with "Hz") as %[Hz _].
  rw (proj2 (Z.eqb_neq z NULL) (valid_nonzero z Hz)). cbn [negb].
  do 2 hstep. hstep; [done|]. iApply ("H" with "[$]"). iFrame.
Qed.

Lemma hwp_rotate d root k c x e y a b f Φ :
  around root k x -∗ rbn d x (parent k) c a y -∗ rbn d y x e (ptr b) f -∗ owned y b -∗
  (around root k y -∗ rbn d y (parent k) e x f -∗ rbn d x y c a (ptr b) -∗ owned x b -∗ Φ tt) -∗
  hwp (rotate d x root) Φ.
Proof.
  iIntros "Hk Hx Hy Hb H". iDestruct (rbn_valid with "Hx") as %[Hx Hpar]. iDestruct (rbn_valid with "Hy") as %[Hy _].
  rw rotate_unfold. do 9 hstep.
  iApply (hwp_reparent d x y with "[$] Hb"); [by right|]. iIntros "Hy Hb". do 3 hstep. hstep; [done|]. hstep.
  iApply (hwp_relink _ d root k x with "Hk [$]"); [apply Z.eqb_sym|]. iIntros "Hk Hx". hstep; [by right|].
  iApply ("H" with "Hk [$] [$] Hb").
Qed.

(** The other way around. *)
Lemma hwp_rotate_back d root k c x e y a b f Φ :
  around root k x -∗ rbn d x (parent k) c y a -∗ rbn d y x e f (ptr b) -∗ owned y b -∗
  (around root k y -∗ rbn d y (parent k) e f x -∗ rbn d x y c (ptr b) a -∗ owned x b -∗ Φ tt) -∗
  hwp (rotate (flip d) x root) Φ.
Proof.
  iIntros "Hk Hx Hy Hb H". iApply (hwp_rotate (flip d) root k with "Hk [Hx] [Hy] Hb"); [by rw (rbn_flip d)..|].
  iIntros "Hk Hy Hx Hb". iApply ("H" with "Hk [Hy] [Hx] Hb"); by rw (rbn_flip d).
Qed.

(** The code finds out on which side of [g] the node [p] is. *)
Lemma hwp_on_side {A} (test : Z -> bool) d g par c p q (m : side -> M (gmap Z V) A) Φ :
  (forall gl, test gl = (gl =? p)) -> p <> q -> rbn d g par c p q -∗ (rbn d g par c p q -∗ hwp (m d) Φ) -∗
  hwp (let! gl := get L g in if test gl then m L else m R) Φ.
Proof.
  iIntros (Htest Hne) "Hg H". hstep. destruct d.
  - hstep. rw Htest Z.eqb_refl. by iApply "H".
  - rw (rbn_flip R). cbn [flip]. hstep. rw Htest (proj2 (Z.eqb_neq _ _) (not_eq_sym Hne)). by iApply "H".
Qed.

Lemma owned_owned_ne p q t o : o <> Leaf -> owned p t -∗ owned q o -∗ ⌜ptr t <> ptr o⌝.
Proof.
  iIntros (Ho) "Ht Ho". destruct o as [|c l y r]; [done|]. cbn [owned ptr]. iDestruct "Ho" as "(Hy & _)".
  iDestruct (owned_ne with "Hy Ht") as %Hne. done.
Qed.
End Rotate.

(** ** The objects of a tree *)

Section Cells.
  Context {V : Type} {HN : Holds V rb_node} {HR : Holds V rb_root}.

Fixpoint node_cells (par : Z) (t : tree) : list (Z * V) :=
  match t with
  | Leaf => []
  | Node c l x r => (x, obj (mk_rb (word par c) (ptr r) (ptr l))) :: node_cells x l ++ node_cells x r
  end.

Definition tree_cells (root : Z) (t : tree) : list (Z * V) :=
  (root, obj (mk_root (ptr t))) :: node_cells NULL t.

Lemma node_cells_keys par t : (node_cells par t).*1 ≡ₚ elements t.
Proof.
  revert par. induction t as [|c l IHl x r IHr]; intros par; [done|]. cbn. rw fmap_app IHl IHr. by rw Permutation_middle.
Qed.

(** [t] is in the heap below the root object [root]. *)
Record tree_in (h : gmap Z V) (root : Z) (t : tree) : Prop := {
  tree_nodup : NoDup (root :: elements t);
  tree_valid : Forall valid (elements t);
  tree_contains : contains h (tree_cells root t);
}.

  Context {Σ : gFunctors} `{!gen_heapGS Z V Σ}.

Lemma owned_cells par t : owned par t ⊢ cells (node_cells par t) ∗ ⌜Forall valid (elements t)⌝.
Proof.
  revert par. induction t as [|c l IHl x r IHr]; intros par; cbn [owned node_cells elements].
  { iIntros "_". iSplit; [iApply cells_nil|]. iPureIntro. constructor. }
  rw IHl IHr cells_cons cells_app. iIntros "([[%Hx %] $] & [$ %] & [$ %])". iPureIntro. apply Forall_app. auto.
Qed.

Lemma cells_owned par t : aligned par -> Forall valid (elements t) -> cells (node_cells par t) ⊢ owned par t.
Proof.
  revert par. induction t as [|c l IHl x r IHr]; intros par Hp Ht; cbn [owned node_cells]; [by iIntros "_"|].
  cbn in Ht. apply Forall_app in Ht as [Hl Hxr]. apply Forall_cons in Hxr as [Hx Hr].
  rw cells_cons cells_app. iIntros "(Hx & Hl & Hr)". iSplitL "Hx"; [by iFrame|].
  iSplitL "Hl"; [iApply (IHl with "Hl")|iApply (IHr with "Hr")]; try done; by right.
Qed.

Lemma rbtree_cells root t : rbtree root t ⊢ cells (tree_cells root t) ∗ ⌜Forall valid (elements t)⌝.
Proof. iIntros "[Hr Ht]". iDestruct (owned_cells with "Ht") as "[Ht $]". rw cells_cons. iFrame. Qed.

Lemma cells_rbtree root t : Forall valid (elements t) -> cells (tree_cells root t) ⊢ rbtree root t.
Proof. rw cells_cons. iIntros (Ht) "[$ Hc]". iApply (cells_owned with "Hc"); [by left|done]. Qed.

Lemma rbtree_size h root t : gen_heap_interp h -∗ rbtree root t -∗ ⌜(length (elements t) < size h)%nat⌝.
Proof.
  iIntros "Hh Ht". iDestruct (rbtree_cells with "Ht") as "[Ht _]". iDestruct (cells_size with "Hh Ht") as %Hs.
  iPureIntro. cbn in Hs. rw -(Permutation_length (node_cells_keys NULL t)) length_fmap. lia.
Qed.
End Cells.
