(* ===== verification/RbtreeWalk.v ===== *)
(** Walking through trees, linking and replacing nodes: [rb_first], [rb_last],
    [rb_next], [rb_prev], [rb_link_node] and [rb_replace_node]. *)
From iris.proofmode Require Import proofmode environments.
From iris.base_logic Require Import lib.gen_heap.
From S2P Require Import Prelude Wp Heap HeapLogic Rbtree RbtreeSpec RbtreeProof.

Section Walk.
  Context {V : Type} {HN : Holds V rb_node} {HR : Holds V rb_root} {Σ : gFunctors} `{!gen_heapGS Z V Σ}.

(** ** Down *)

Definition descend (d : side) (node : Z) : M (gmap Z V) (Z + Z) :=
  let! next := get d node in if negb (next =? NULL) then ret (inl next) else ret (inr node).

Lemma hwp_descend_loop d fuel par t Φ :
  t <> Leaf -> (length (elements t) <= fuel)%nat -> owned par t -∗ (owned par t -∗ Φ (tip d t)) -∗
  hwp (loop fuel (descend d) (ptr t)) Φ.
Proof.
  iIntros (Ht Hf) "Ht H". iInduction fuel as [|fuel] "IH" forall (par t Φ Ht Hf).
  { destruct t; [done|]. cbn in Hf. rw length_app in Hf. cbn in Hf. lia. }
  destruct t as [|c l x r]; [done|]. cbn [loop ptr owned].
  assert (exists a b, Node c l x r = join d c a x b) as (a & b & E) by (destruct d; by eexists _, _).
  change (rbn L x par c (ptr l) (ptr r) ∗ owned x l ∗ owned x r)%I with (owned par (Node c l x r)). rw E owned_join.
  iDestruct "Ht" as "(Hx & Ha & Hb)". unfold descend at 2. hsteps. destruct a as [|c' a1 y a2].
  - cbn. hsteps. rw (_ : tip d (join d c Leaf x b) = x); [|by destruct d]. iApply "H". iFrame.
  - iAssert ⌜valid y⌝%I as %Hy. { iDestruct "Ha" as "([[% %] _] & _)". done. }
    cbn [ptr]. rw (proj2 (Z.eqb_neq y NULL) (valid_nonzero y Hy)). cbn [negb]. hsteps.
    iApply ("IH" $! x (Node c' a1 y a2) with "[//] [] Ha").
    { iPureIntro. assert (E' : elements (Node c l x r) = elements (join d c (Node c' a1 y a2) x b)) by (by rw E).
      apply (f_equal length) in E'. destruct d; cbn [join] in E'; cbn in E', Hf; rw !length_app in E' Hf;
        cbn in *; rw ?length_app in E'; cbn in *; rw ?length_app; cbn; lia. }
    iIntros "Ha". rw (_ : tip d (join d c (Node c' a1 y a2) x b) = tip d (Node c' a1 y a2)); [|by destruct d].
    iApply "H". iFrame.
Qed.

Lemma owned_size h par t : gen_heap_interp h -∗ owned par t -∗ ⌜(length (elements t) <= size h)%nat⌝.
Proof.
  iIntros "Hh Ht". iDestruct (owned_cells with "Ht") as "[Ht _]". iDestruct (cells_size with "Hh Ht") as %Hs.
  iPureIntro. by rw -(Permutation_length (node_cells_keys par t)) length_fmap.
Qed.

Lemma hwp_tip d par t Φ :
  t <> Leaf -> owned par t -∗ (owned par t -∗ Φ (tip d t)) -∗ hwp (hloop (descend d) (ptr t)) Φ.
Proof.
  iIntros (Ht) "Ht H".
  iApply (hwp_hloop _ _ (owned par t ∗ (owned par t -∗ Φ (tip d t))) _ (length (elements t)) with "[$]").
  - iIntros (h) "Hh [Ht _]". iApply (owned_size with "Hh Ht").
  - iIntros (fuel Hf) "[Ht H]". iApply (hwp_descend_loop with "Ht H"); [done|lia].
Qed.

Lemma ptr_null par t : owned par t -∗ ⌜(ptr t =? NULL) = match t with Leaf => true | _ => false end⌝.
Proof.
  iIntros "Ht". destruct t as [|c l x r]; [done|]. iDestruct "Ht" as "([[%Hx _] _] & _)". iPureIntro.
  by apply Z.eqb_neq, valid_nonzero.
Qed.

Lemma hwp_first root t Φ : rbtree root t -∗ (rbtree root t -∗ Φ (tip L t)) -∗ hwp (rb_first root) Φ.
Proof.
  iIntros "[Hr Ht] H". unfold rb_first. hsteps. iDestruct (ptr_null with "Ht") as %->. destruct t; [hsteps; iApply "H"; by iFrame|].
  iApply (hwp_tip L with "Ht"); [done|]. iIntros "Ht". iApply "H". iFrame.
Qed.

Lemma hwp_last root t Φ : rbtree root t -∗ (rbtree root t -∗ Φ (tip R t)) -∗ hwp (rb_last root) Φ.
Proof.
  iIntros "[Hr Ht] H". unfold rb_last. hsteps. iDestruct (ptr_null with "Ht") as %->. destruct t; [hsteps; iApply "H"; by iFrame|].
  iApply (hwp_tip R with "Ht"); [done|]. iIntros "Ht". iApply "H". iFrame.
Qed.

(** ** Up *)

Definition climb (d : side) (node : Z) : M (gmap Z V) (Z + Z) :=
  let! parent := rb_parent node in
  if parent =? NULL then ret (inr parent)
  else let! pd := get d parent in if node =? pd then ret (inl parent) else ret (inr parent).

Lemma hwp_climb_loop d fuel root k e x c n f Φ :
  (length k < fuel)%nat ->
  around root k x -∗ rbn e x (parent k) c n f -∗
  (around root k x ∗ rbn e x (parent k) c n f -∗ Φ (turn d k)) -∗
  hwp (loop fuel (climb d) x) Φ.
Proof.
  iIntros (Hf) "Hk Hx H". iInduction fuel as [|fuel] "IH" forall (k e x c n f Φ Hf); [lia|].
  cbn [loop]. unfold climb at 2. hsteps. destruct k as [|[s c' y far] k]; cbn [parent around turn].
  { rw Z.eqb_refl. hsteps. iApply "H". iFrame. }
  iDestruct "Hk" as "(Hy & Hfar & Hk)". iDestruct (rbn_valid with "Hy") as %[Hy _].
  rw (proj2 (Z.eqb_neq y NULL) (valid_nonzero y Hy)). iDestruct (owned_ne _ x with "[$] Hfar") as %Hne.
  destruct (side_cases d s) as [->| ->].
  - hsteps. rw Z.eqb_refl. hsteps. rw decide_True //. cbn in Hf.
    iApply ("IH" with "[] Hk [$]"); [iPureIntro; lia|]. iIntros "[Hk Hy]". iApply "H". iFrame.
  - hsteps. rw (proj2 (Z.eqb_neq x _) Hne). hsteps. rw decide_False; [|by destruct s]. iApply "H". iFrame.
Qed.

Lemma around_size h root k x : gen_heap_interp h -∗ around root k x -∗ ⌜(length k <= size h)%nat⌝.
Proof.
  iIntros "Hh Hk". iAssert (∃ l : list (Z * V), ⌜length l = length k⌝ ∗ cells l)%I with "[Hk]" as (l <-) "Hl".
  { iInduction k as [|[s c y far] k] "IH" forall (x); cbn [around]; [iExists []; iSplit; [done|iApply cells_nil]|].
    iDestruct "Hk" as "([_ Hy] & _ & Hk)". iDestruct ("IH" with "Hk") as (l Hl) "Hl". iExists ((y, _) :: l).
    iSplit; [by cbn; rw Hl|]. rw cells_cons. iFrame. }
  iApply (cells_size with "Hh Hl").
Qed.

Lemma hwp_climb d root k e x c n f Φ :
  around root k x -∗ rbn e x (parent k) c n f -∗
  (around root k x ∗ rbn e x (parent k) c n f -∗ Φ (turn d k)) -∗ hwp (hloop (climb d) x) Φ.
Proof.
  iIntros "Hk Hx H".
  iApply (hwp_hloop _ _ (around root k x ∗ rbn e x (parent k) c n f ∗ _) _ (length k) with "[$Hk $Hx H]"); [| |iExact "H"].
  - iIntros (h) "Hh (Hk & _)". iApply (around_size with "Hh Hk").
  - iIntros (fuel Hf) "(Hk & Hx & H)". by iApply (hwp_climb_loop with "Hk Hx H").
Qed.

Lemma parent_ne root k h e x par c n f : around root k h -∗ rbn e x par c n f -∗ ⌜parent k <> x⌝.
Proof.
  iIntros "Hk Hx". destruct k as [|[s c' y far] k]; cbn [around parent].
  - iDestruct (rbn_valid with "Hx") as %[Hx _]. iPureIntro. by apply not_eq_sym, valid_nonzero.
  - iDestruct "Hk" as "(Hy & _)". iApply (rbn_ne with "Hy Hx").
Qed.

(** The neighbours of a node in the order of the tree. *)
Lemma hwp_next root k c l x r Φ :
  rbtree root (plug k (Node c l x r)) -∗
  (rbtree root (plug k (Node c l x r)) -∗ Φ (default NULL (head (elements r ++ after k)))) -∗
  hwp (rb_next x) Φ.
Proof.
  rw rbtree_plug. cbn [owned ptr]. iIntros "(Hk & Hx & Hl & Hr) H". iDestruct (parent_ne with "Hk Hx") as %Hp.
  unfold rb_next. hsteps. rw (proj2 (Z.eqb_neq _ _) Hp). hsteps. iDestruct (ptr_null with "Hr") as %->.
  destruct r as [|c' r1 y r2]; cbn [negb].
  - iApply (hwp_climb R root k with "Hk [$]"). iIntros "[Hk Hx]". rw turn_right. iApply "H". iFrame.
  - iApply (hwp_tip L with "Hr"); [done|]. iIntros "Hr". rw tip_left.
    rw (_ : head (elements (Node c' r1 y r2) ++ after k) = head (elements (Node c' r1 y r2))); [|by cbn; destruct (elements r1)].
    iApply "H". iFrame.
Qed.

Lemma hwp_prev root k c l x r Φ :
  rbtree root (plug k (Node c l x r)) -∗
  (rbtree root (plug k (Node c l x r)) -∗ Φ (default NULL (last (before k ++ elements l)))) -∗
  hwp (rb_prev x) Φ.
Proof.
  rw rbtree_plug. cbn [owned ptr]. iIntros "(Hk & Hx & Hl & Hr) H". iDestruct (parent_ne with "Hk Hx") as %Hp.
  unfold rb_prev. hsteps. rw (proj2 (Z.eqb_neq _ _) Hp). hsteps. iDestruct (ptr_null with "Hl") as %->.
  destruct l as [|c' l1 y l2]; cbn [negb].
  - iApply (hwp_climb L root k with "Hk [$]"). iIntros "[Hk Hx]". rw turn_left app_nil_r. iApply "H". iFrame.
  - iApply (hwp_tip R with "Hl"); [done|]. iIntros "Hl". rw tip_right last_app.
    destruct (last (elements (Node c' l1 y l2))) eqn:E; [iApply "H"; iFrame|].
    apply last_None in E. cbn in E. by destruct (elements l1).
Qed.

(** ** Linking and replacing *)

(** Where the pointer of the hole is stored. *)
Definition link_of (root : Z) (k : list frame) : link :=
  match k with
  | [] => Root_link root
  | Frame L _ x _ :: _ => Left_link x
  | Frame R _ x _ :: _ => Right_link x
  end.

Lemma hwp_write_link root k h v Φ :
  around root k h -∗ (around root k v -∗ Φ tt) -∗ hwp (write_link (link_of root k) v) Φ.
Proof.
  iIntros "Hk H". destruct k as [|[d c x far] k]; cbn [link_of write_link around].
  { hsteps. iApply "H". iFrame. }
  iDestruct "Hk" as "(Hx & Hfar & Hk)".
  destruct d; cbn [link_of write_link read_link]; [change (set_left x v) with (set L x v)|change (set_right x v) with (set R x v)]; hsteps; iApply "H"; iFrame.
Qed.

Lemma hwp_read_link root k h Φ :
  around root k h -∗ (around root k h -∗ Φ h) -∗ hwp (read_link (link_of root k)) Φ.
Proof.
  iIntros "Hk H". destruct k as [|[d c x far] k]; cbn [link_of read_link around].
  { hsteps. iApply "H". iFrame. }
  iDestruct "Hk" as "(Hx & Hfar & Hk)".
  destruct d; cbn [link_of write_link read_link]; [change (get_left x) with (get L x)|change (get_right x) with (get R x)]; hsteps; iApply "H"; iFrame.
Qed.

Lemma around_aligned root k h : around root k h -∗ ⌜aligned (parent k)⌝.
Proof.
  iIntros "Hk". destruct k as [|[d c x far] k]; cbn [around parent]; [by iPureIntro; left|].
  iDestruct "Hk" as "([[%Hx _] _] & _)". iPureIntro. by right.
Qed.

(** A free node becomes a red node in the place of a leaf. *)
Lemma hwp_link_node root k x Φ :
  rbtree root (plug k Leaf) -∗ rbfree x -∗ (rbtree root (plug k (Node Red Leaf x Leaf)) -∗ Φ tt) -∗
  hwp (rb_link_node x (parent k) (link_of root k)) Φ.
Proof.
  rw !rbtree_plug. iIntros "[Hk _] [%Hx [%n Hn]] H". iDestruct (around_aligned with "Hk") as %Ha.
  unfold rb_link_node, set_pc, set_right, set_left. hsteps.
  do 3 (iApply (hwp_load with "Hn"); iIntros "Hn"; iApply (hwp_store with "Hn"); iIntros "Hn"; hsteps).
  iApply (hwp_write_link with "Hk"). iIntros "Hk". iApply "H". cbn [owned ptr]. iFrame.
  unfold rbn, word. cbn [bit rb_parent_color rb_right rb_left]. rw Z.lor_0_r. by iFrame.
Qed.

Lemma hwp_replace_node root k c l x r y Φ :
  rbtree root (plug k (Node c l x r)) -∗ rbfree y -∗
  (rbtree root (plug k (Node c l y r)) -∗ rbfree x -∗ Φ tt) -∗ hwp (rb_replace_node x y root) Φ.
Proof.
  rw !rbtree_plug. cbn [owned ptr]. iIntros "(Hk & Hx & Hl & Hr) [%Hy [%n Hn]] H". iDestruct (rbn_valid with "Hx") as %[Hx Hp].
  unfold rb_replace_node. hsteps. iApply (hwp_relink (Z.eqb x) L root k x with "Hk [$]"); [apply Z.eqb_sym|].
  iIntros "Hk Hx". hsteps. iApply (hwp_set_parent_if x with "Hl"); [by right|]. iIntros "Hl". hsteps.
  iApply (hwp_set_parent_if x with "Hr"); [by right|]. iIntros "Hr". hsteps.
  iDestruct select (rbn L x _ _ _ _) as "[_ Hx]". iApply (hwp_load with "Hx"). iIntros "Hx". hsteps.
  iApply (hwp_load with "Hn"). iIntros "Hn". iApply (hwp_store with "Hn"). iIntros "Hn".
  iApply ("H" with "[Hk Hl Hr Hn]"); [iFrame; by iFrame|]. iSplit; [done|]. by iExists _.
Qed.
End Walk.
