(* ===== verification/RbtreeInsert.v ===== *)
(** [rb_insert_color] restores the colours after a node was linked into a tree. *)
From iris.proofmode Require Import proofmode environments.
From iris.base_logic Require Import lib.gen_heap.
From S2P Require Import Prelude Wp Heap HeapLogic Rbtree RbtreeSpec RbtreeProof.

Section Insert.
  Context {V : Type} {HN : Holds V rb_node} {HR : Holds V rb_root} {Σ : gFunctors} `{!gen_heapGS Z V Σ}.

Lemma hwp_red_node par t Φ :
  owned par t -∗ (owned par t -∗ Φ (is_red (tcolor t))) -∗ hwp (red_node (ptr t)) Φ.
Proof.
  iIntros "Ht H". unfold red_node. destruct t as [|c l x r]; cbn [ptr owned tcolor].
  { cbn. hstep. by iApply "H". }
  iDestruct "Ht" as "(Hx & Hl & Hr)". iDestruct (rbn_valid with "Hx") as %[Hx _].
  rw (proj2 (Z.eqb_neq x NULL) (valid_nonzero x Hx)). hstep. iApply "H". iFrame.
Qed.

(** The tree during the loop: [x] is red, all else is well coloured but for a
    red parent of [x]. *)
Definition inserting (k : list frame) (l : tree) (x : Z) (r : tree) : Prop :=
  exists n, rbt l Black n /\ rbt r Black n /\ ctxt k Black n.

(** What a round leaves: the same elements, and the trouble further up. *)
Definition round_done (root : Z) (k : list frame) (t : tree) (res : Z + unit) : iProp Σ :=
  match res with
  | inl y => ∃ k' l' r', ⌜inserting k' l' y r' /\ (length k' < length k)%nat /\
      elements (plug k' (Node Red l' y r')) = elements (plug k t)⌝ ∗ rbtree root (plug k' (Node Red l' y r'))
  | inr _ => False
  end.

Lemma round_next root k t d k' a y b n :
  rbt a Black n -> rbt b Black n -> ctxt k' Black n -> (length k' < length k)%nat ->
  elements (plug k' (join d Red a y b)) = elements (plug k t) ->
  around root k' y -∗ owned (parent k') (join d Red a y b) -∗ round_done root k t (inl y).
Proof.
  iIntros (Ha Hb Hk Hl He) "Hk Ht". destruct d; cbn [join].
  - iExists k', a, b. iSplit; [iPureIntro; split_and!; try done; by exists n|]. rw rbtree_plug. iFrame.
  - iExists k', b, a. iSplit; [iPureIntro; split_and!; try done; by exists n|]. rw rbtree_plug. iFrame.
Qed.

Lemma hwp_insert_side d e root k p s g u a x b n cu :
  rbt a Black n -> rbt b Black n -> rbt s Black n -> rbt u cu n -> ctxt k Black (S n) ->
  let k0 := Frame e Red p s :: Frame d Black g u :: k in
  around root k0 x ∗ owned p (join d Red a x b) -∗
  hwp (insert_side d root x p g) (round_done root k0 (join d Red a x b)).
Proof.
  iIntros (Ha Hb Hs Hu Hk k0) "[Hk Hx]". cbn [around parent k0]. iDestruct "Hk" as "(Hp & Hs & Hg & Hu & Hk)".
  unfold insert_side. hsteps. iApply (hwp_red_node g with "Hu"). iIntros "Hu".
  rw (rbt_tcolor _ _ _ Hu). destruct cu; cbn [is_red].
  - inversion Hu as [|ul uy ur ? Hul Hur|]; subst. cbn [owned ptr]. iDestruct "Hu" as "(Hu & Hul & Hur)".
    hsteps. iApply (round_next _ _ _ d k (join e Black (join d Red a x b) p s) g (Node Black ul uy ur) (S n) with "Hk");
      eauto with rb.
    + cbn. lia.
    + cbn [plug k0]. apply elements_plug_ext. destruct d, e; elems.
    + rw !owned_join !ptr_join. cbn [owned ptr]. iFrame.
  - rw owned_join. iDestruct "Hx" as "(Hx & Ha & Hb)". iDestruct (owned_ne with "Hx Hs") as %Hne.
    destruct (side_cases e d) as [->| ->].
    + hsteps. rw (proj2 (Z.eqb_neq _ _) (not_eq_sym Hne)). hsteps.
      iApply (hwp_rotate_back d root k with "Hk [$] [$] Hs"). iIntros "Hk Hp Hg Hs". hsteps.
      iApply (round_next _ _ _ d (Frame d Black p (join d Red s g u) :: k) a x b n with "[Hk Hp Hg Hs Hu]"); eauto with rb.
      * cbn [plug k0]. apply elements_plug_ext. destruct d; elems.
      * cbn [around]. rw owned_join ptr_join. iFrame.
      * rw owned_join. cbn [parent]. iFrame.
    + hsteps. rw (rbn_flip (flip d) p) flip_flip. hsteps. rw Z.eqb_refl. hsteps.
      iApply (hwp_rotate d root (Frame d Black g u :: k) with "[$] [$] [$] Ha"). cbn [around parent].
      iIntros "(Hg & Hu & Hk) Hx Hp Ha". hsteps.
      iApply (hwp_rotate_back d root k with "Hk [$] [$] Hb"). iIntros "Hk Hx Hg Hb". hsteps.
      iApply (round_next _ _ _ d (Frame d Black x (join d Red b g u) :: k) s p a n with "[Hk Hx Hg Hb Hu]"); eauto with rb.
      * cbn [plug k0]. apply elements_plug_ext. destruct d; elems.
      * cbn [around]. rw owned_join ptr_join. iFrame.
      * rw owned_join. cbn [parent]. iFrame.
Qed.

(** The loop ends with a tree that only lacks the black root. *)
Lemma hwp_insert_loop root fuel k l x r :
  inserting k l x r -> (length k < fuel)%nat ->
  rbtree root (plug k (Node Red l x r)) ⊢
  hwp (loop fuel (insert_round root) x) (fun _ => ∃ c l' y r',
    ⌜rb_ok (Node Black l' y r') /\ elements (Node c l' y r') = elements (plug k (Node Red l x r))⌝ ∗
    rbtree root (Node c l' y r')).
Proof.
  revert k l x r. induction fuel as [|fuel IH]; intros k l x r (n & Hl & Hr & Hk) Hf; [lia|]. cbn [loop].
  rw rbtree_plug insert_round_unfold. iIntros "[Hk Hx]". cbn [owned ptr]. iDestruct "Hx" as "(Hx & Hl & Hr)".
  hsteps. destruct k as [|[e c p s] k]; cbn [parent around].
  { unfold red_node. rw Z.eqb_refl. hsteps. cbn [negb]. hsteps. iExists Red, l, x, r. iSplit; [iPureIntro; split; [by eexists; eauto with rb|done]|].
    unfold rbtree. cbn [ptr owned]. iFrame. }
  iDestruct "Hk" as "(Hp & Hs & Hk)". iDestruct (rbn_valid with "Hp") as %[Hp _]. unfold red_node.
  rw (proj2 (Z.eqb_neq p NULL) (valid_nonzero p Hp)). hsteps. destruct c; cbn [is_red negb]; last first.
  { hsteps. destruct (plug_node (Frame e Black p s :: k) Red l x r) as (c' & l' & y & r' & E). rw E.
    assert (Hok : rb_ok (Node c' l' y r')). { rw -E. inversion Hk; subst. apply (plug_ok _ _ Red n); eauto with rb. }
    assert (c' = Black) as ->. { destruct Hok as [m Hm]. by inversion Hm. }
    iExists Black, l', y, r'. iSplit; [done|]. rw -E rbtree_plug. cbn [around parent owned ptr]. iFrame. }
  inversion Hk as [|? ? ? ? ? Hs Hk'|]; subst. inversion Hk' as [| |d g u k2 ? cu ? Hu Hk2]; subst.
  cbn [around parent]. iDestruct "Hk" as "(Hg & Hu & Hk)". iDestruct (owned_ne _ p with "[$] Hu") as %Hne. do 2 hstep.
  iApply (hwp_on_side (Z.eqb p) d g _ _ p _ (fun d => insert_side d root x p g) with "Hg"); [apply Z.eqb_sym|done|]. iIntros "Hg".
  iApply (hwp_mono _ (round_done root (Frame e Red p s :: Frame d Black g u :: k2) (Node Red l x r)) with "[-]").
  { destruct d; [change (Node Red l x r) with (join L Red l x r)|change (Node Red l x r) with (join R Red r x l)];
      iApply (hwp_insert_side with "[-]"); eauto; cbn [around parent owned join ptr]; iFrame. }
  iIntros ([y|]) "Hd"; [|done]. iDestruct "Hd" as (k' l' r' (Hi & Hl' & He)) "Ht". rw -He.
  iApply (IH with "Ht"); [done|]. cbn in *. lia.
Qed.

(** A red node with two leaves in the place of a leaf. *)
Lemma hwp_insert_color root k x :
  rb_ok (plug k Leaf) ->
  rbtree root (plug k (Node Red Leaf x Leaf)) ⊢
  hwp (rb_insert_color x root) (fun _ => ∃ t,
    ⌜rb_ok t /\ elements t = before k ++ x :: after k⌝ ∗ rbtree root t).
Proof.
  intros (c & n & Hl & Hk)%rb_ok_ctxt. inversion Hl; subst. iIntros "Ht". iApply hwp_bind.
  iApply (hwp_hloop _ _ (rbtree root (plug k (Node Red Leaf x Leaf))) _ (length k) with "Ht").
  { iIntros (h) "Hh Ht". iDestruct (rbtree_size with "Hh Ht") as %Hs. iPureIntro.
    pose proof (length_plug k (Node Red Leaf x Leaf)). lia. }
  iIntros (fuel Hf) "Ht". iApply (hwp_mono with "[Ht]").
  { iApply (hwp_insert_loop with "Ht"); [|done]. exists 0%nat. eauto with rb. }
  iIntros ([]) "(%c & %l & %y & %r & [%Hok %He] & Ht)". iDestruct "Ht" as "[Hr Ht]". cbn [ptr owned].
  iDestruct "Ht" as "(Hy & Hl & Hr')". hsteps. iExists (Node Black l y r). rw elements_plug in He.
  iSplit; [done|]. unfold rbtree. cbn [ptr owned]. iFrame.
Qed.
End Insert.
