(* ===== verification/RbtreeErase.v ===== *)
(** [rb_erase] takes a node out of a tree and restores the colours. *)
From iris.proofmode Require Import proofmode environments.
From iris.base_logic Require Import lib.gen_heap.
From S2P Require Import Prelude Wp Heap HeapLogic Rbtree RbtreeSpec RbtreeProof RbtreeWalk.

Definition blacken (t : tree) : tree := match t with Leaf => Leaf | Node _ l x r => Node Black l x r end.

Lemma elements_blacken t : elements (blacken t) = elements t.
Proof. by destruct t. Qed.

Lemma blacken_black t n : rbt t Black n -> blacken t = t.
Proof. by inversion 1. Qed.

Lemma blacken_join d c a x b : blacken (join d c a x b) = join d Black a x b.
Proof. by destruct d. Qed.

Lemma tcolor_join d c a x b : tcolor (join d c a x b) = c.
Proof. by destruct d. Qed.

Lemma rb_ok_blacken t : rb_ok t -> blacken t = t.
Proof. intros [n Hn]. by eapply blacken_black. Qed.

(** The tree in the hole has one black node too few, or will have enough once
    its root is black. *)
Definition short (t : tree) (n : nat) : Prop :=
  match tcolor t with Black => rbt t Black n | Red => rbt (blacken t) Black (S n) end.

(** Rounds that are left for the loop at the subtree [t] below [k]. *)
Definition rounds (k : list frame) (t : tree) : nat := match tcolor t with Red => 0 | Black => S (length k) end.

(** What taking out a node with at most one child leaves: nothing to do if the
    node was red, and a subtree that lacks a black node otherwise. *)
Lemma erase_short d k c x t : rb_ok (plug k (join d c Leaf x t)) ->
  match c with Red => rb_ok (plug k t) | Black => exists n, short t n /\ ctxt k Black (S n) end.
Proof.
  intros (c' & n & Ht & Hk)%rb_ok_ctxt. pose proof (rbt_tcolor _ _ _ Ht) as Ec. rw tcolor_join in Ec. subst c'. destruct c.
  - destruct (rbt_red_inv d _ _ Ht) as (a & y & b & E & Ha & Hb). apply (plug_ok k t Black n); [by apply ctxt_any|].
    destruct d; injection E as <- <- <-; done.
  - inversion Ht as [E|? ? ? ? ? ? E|l y r cl cr m Hl Hr E]; subst; [by destruct d..|]. exists m. split; [|done].
    assert (exists ct, rbt t ct m /\ m = 0%nat) as (ct & Hct & ->).
    { destruct d; injection E as -> -> ->; [inversion Hl|inversion Hr]; subst; eauto. }
    unfold short. rw (rbt_tcolor _ _ _ Hct). destruct ct; [|done]. inversion Hct; subst. cbn. eauto with rb.
Qed.

Section EraseColor.
  Context {V : Type} {HN : Holds V rb_node} {HR : Holds V rb_root} {Σ : gFunctors} `{!gen_heapGS Z V Σ}.

Lemma hwp_null_or_black par t Φ :
  owned par t -∗ (owned par t -∗ Φ (negb (is_red (tcolor t)))) -∗ hwp (null_or_black (ptr t)) Φ.
Proof.
  iIntros "Ht H". unfold null_or_black. destruct t as [|c l x r]; cbn [ptr owned tcolor].
  { cbn. hstep. by iApply "H". }
  iDestruct "Ht" as "(Hx & Hl & Hr)". iDestruct (rbn_valid with "Hx") as %[Hx _].
  rw (proj2 (Z.eqb_neq x NULL) (valid_nonzero x Hx)). hstep. iApply "H". iFrame.
Qed.

Lemma hwp_both_black {A} d y par c a b (m : bool -> M (gmap Z V) A) Φ :
  rbn d y par c (ptr a) (ptr b) -∗ owned y a -∗ owned y b -∗
  (rbn d y par c (ptr a) (ptr b) -∗ owned y a -∗ owned y b -∗
   hwp (m (negb (is_red (tcolor a)) && negb (is_red (tcolor b)))) Φ) -∗
  hwp (let! ol := get_left y in
       let! left_black := null_or_black ol in
       let! both := (if left_black : bool then let! or := get_right y in null_or_black or else ret false) in
       m both) Φ.
Proof.
  iIntros "Hy Ha Hb H".
  destruct d; [|rw (rbn_flip R); cbn [flip]]; hsteps.
  - iApply (hwp_null_or_black y with "Ha"). iIntros "Ha". hstep. destruct (negb (is_red (tcolor a))); cbn [andb].
    + hsteps. iApply (hwp_null_or_black y with "Hb"). iIntros "Hb". iApply ("H" with "[$] Ha Hb").
    + hsteps. iApply ("H" with "[$] Ha Hb").
  - iApply (hwp_null_or_black y with "Hb"). iIntros "Hb". hstep. rw andb_comm. destruct (negb (is_red (tcolor b))); cbn [andb].
    + hsteps. iApply (hwp_null_or_black y with "Ha"). iIntros "Ha". iApply ("H" with "[$] Ha Hb").
    + hsteps. iApply ("H" with "[$] Ha Hb").
Qed.

(** The root pointer seen from a subtree. *)
Fixpoint top (k : list frame) (h : Z) : Z := match k with [] => h | Frame _ _ x _ :: k => top k x end.

Lemma top_plug k t : ptr (plug k t) = top k (ptr t).
Proof. revert t. induction k as [|[d c x far] k IH]; intros t; [done|]. cbn. by rw IH ptr_join. Qed.

Lemma around_root root k h : around root k h ⊢ rbroot root (top k h) ∗ (rbroot root (top k h) -∗ around root k h).
Proof.
  revert h. induction k as [|[d c x far] k IH]; intros h; cbn [around top]; [by iIntros "$ $"|].
  iIntros "($ & $ & Hk)". by iApply IH.
Qed.

Lemma hwp_around_root root k h Φ : around root k h -∗ (around root k h -∗ Φ (top k h)) -∗ hwp (get_root root) Φ.
Proof.
  iIntros "Hk H". iDestruct (around_root with "Hk") as "[Hr Hk]". hstep. iApply "H". by iApply "Hk".
Qed.

Lemma top_ne root k h x d par c n f : around root k h -∗ rbn d x par c n f -∗ ⌜k <> [] -> top k h <> x⌝.
Proof.
  iIntros "Hk Hx". iInduction k as [|[e c' y far] k] "IH" forall (h); cbn [around top]; [done|].
  iDestruct "Hk" as "(Hy & _ & Hk)". iDestruct (rbn_ne with "Hy Hx") as %Hne.
  destruct k as [|f' k]; [done|]. iDestruct ("IH" with "Hk Hx") as %Hk. iPureIntro. intros _. by apply Hk.
Qed.

Lemma top_valid root k h : around root k h -∗ ⌜k <> [] -> valid (top k h)⌝.
Proof.
  iIntros "Hk". iInduction k as [|[e c' y far] k] "IH" forall (h); cbn [around top]; [done|].
  iDestruct "Hk" as "(Hy & _ & Hk)". iDestruct (rbn_valid with "Hy") as %[Hy _].
  destruct k as [|f' k]; [done|]. iDestruct ("IH" with "Hk") as %Hk. iPureIntro. intros _. by apply Hk.
Qed.

Lemma top_owned_ne root k h q t : k <> [] -> around root k h -∗ owned q t -∗ ⌜ptr t <> top k h⌝.
Proof.
  iIntros (Hk) "Hk Ht". destruct t as [|c l x r]; cbn [owned ptr].
  - iDestruct (top_valid with "Hk") as %Hv. iPureIntro. intros E. by apply (valid_nonzero _ (Hv Hk)).
  - iDestruct "Ht" as "(Hx & _)". iDestruct (top_ne with "Hk Hx") as %Hne. iPureIntro. intros E. by apply (Hne Hk).
Qed.

(** ** Rounds *)

(** What a round leaves: a subtree further up, or the end of the loop. *)
Definition erase_done (root : Z) (r : nat) (es : list Z) (res : Z * Z + Z) : iProp Σ :=
  match res with
  | inl (x, p) => ∃ k t n, ⌜x = ptr t /\ p = parent k /\ short t n /\ ctxt k Black (S n) /\ (rounds k t < r)%nat /\
      elements (plug k t) = es⌝ ∗ around root k x ∗ owned p t
  | inr x => ∃ k t, ⌜x = ptr t /\ rb_ok (plug k (blacken t)) /\ elements (plug k t) = es⌝ ∗ around root k x ∗ owned (parent k) t
  end.

Lemma erase_done_mono root r r' es es' res :
  (r <= r')%nat -> es = es' -> erase_done root r es res -∗ erase_done root r' es' res.
Proof.
  iIntros (Hr <-) "H". destruct res as [[x p]|x]; [|done]. iDestruct "H" as (k t n (? & ? & ? & ? & ? & ?)) "H".
  iExists k, t, n. iFrame. iPureIntro. split_and!; try done. lia.
Qed.

(** The last rotation. *)
Lemma hwp_erase_finish d root k cp p t y a b1 z b2 n cb :
  rbt t Black n -> rbt a cb n -> rbt b1 Black n -> rbt b2 Black n -> ctxt k cp (match cp with Red => S n | Black => S (S n) end) ->
  let T := plug k (join d cp t p (join d Black a y (join d Red b1 z b2))) in
  around root k p -∗ rbn d p (parent k) cp (ptr t) y -∗ owned p t -∗
  rbn d y p Black (ptr a) z -∗ owned y a -∗ owned y (join d Red b1 z b2) -∗
  hwp (erase_finish d root p y) (erase_done root 0 (elements T)).
Proof.
  iIntros (Ht Ha Hb1 Hb2 Hk T) "Hk Hp Ht Hy Ha Hz". rw owned_join. iDestruct "Hz" as "(Hz & Hb1 & Hb2)".
  unfold erase_finish. hsteps. iApply (hwp_rotate d root k with "Hk [$] [$] Ha"). iIntros "Hk Hy Hp Ha". hstep.
  iApply (hwp_around_root with "Hk"). iIntros "Hk". hstep.
  set (T' := join d cp (join d Black t p a) y (join d Black b1 z b2)).
  assert (Hok : rb_ok (plug k T')). { subst T'. destruct cp; (eapply plug_ok; [done|]); eauto with rb. }
  iExists [], (plug k T'). iSplit.
  - iPureIntro. rw top_plug ptr_join. split_and!; [done|by rw (rb_ok_blacken _ Hok)|]. apply (elements_plug_ext k).
    subst T'. destruct d; elems.
  - iAssert (rbtree root (plug k T')) with "[-]" as "[Hr Ht]"; [|rw top_plug ptr_join; iFrame].
    rw rbtree_plug ptr_join !owned_join !ptr_join. iFrame.
Qed.

Lemma hwp_erase_tail d root k cp p t y a b n ca cb :
  rbt t Black n -> rbt a ca n -> rbt b cb n -> ctxt k cp (match cp with Red => S n | Black => S (S n) end) ->
  around root k p -∗ rbn d p (parent k) cp (ptr t) y -∗ owned p t -∗
  rbn d y p Black (ptr a) (ptr b) -∗ owned y a -∗ owned y b -∗
  hwp (erase_tail d root p y) (erase_done root (match cp with Red => 1 | Black => S (S (length k)) end)
    (elements (plug k (join d cp t p (join d Black a y b))))).
Proof.
  iIntros (Ht Ha Hb Hk) "Hk Hp Ht Hy Ha Hb". unfold erase_tail.
  iApply (hwp_both_black d y _ _ a b (fun both => if both then _ else _) with "Hy Ha Hb"). iIntros "Hy Ha Hb".
  rw (rbt_tcolor _ _ _ Ha) (rbt_tcolor _ _ _ Hb).
  destruct ca, cb; cbn [is_red negb andb]; last first.
  { hsteps. iExists k, (join d cp t p (join d Red a y b)), (match cp with Red => n | Black => S n end).
    iSplit; [iPureIntro|rw !owned_join !ptr_join; iFrame].
    rw ptr_join. unfold short, rounds. rw tcolor_join blacken_join.
    split_and!; try done; [destruct cp; eauto with rb..| |apply elements_plug_ext; destruct d; elems].
    destruct cp; lia. }
  all: hsteps; iApply (hwp_null_or_black y with "Hb"); iIntros "Hb"; rw (rbt_tcolor _ _ _ Hb); cbn [is_red negb].
  2: { destruct (rbt_red_inv d a n Ha) as (a1 & z & a2 & -> & Ha1 & Ha2). rw owned_join ptr_join.
    iDestruct "Ha" as "(Hz & Ha1 & Ha2)". hsteps.
    iApply (hwp_rotate_back d root (Frame (flip d) cp p t :: k) with "[Hk Hp Ht] [$] [$] Ha2").
    { cbn [around]. rw (rbn_flip d p). iFrame. }
    cbn [around parent]. iIntros "(Hp & Ht & Hk) Hz Hy Ha2". rw (rbn_flip (flip d) p) flip_flip. hsteps.
    iApply (hwp_mono with "[-]"); [iApply (hwp_erase_finish d root k cp p t z a1 a2 y b n Black with "Hk [$] Ht [$] Ha1"); eauto|].
    { rw owned_join. iFrame. }
    iIntros (x) "Hx". iApply (erase_done_mono with "Hx"); [lia|]. apply elements_plug_ext. destruct d; elems. }
  all: destruct (rbt_red_inv d b n Hb) as (b1 & z & b2 & -> & Hb1 & Hb2); rw ptr_join; hsteps.
  all: iApply (hwp_mono with "[-]"); [iApply (hwp_erase_finish d root k cp p t y a b1 z b2 n with "Hk [$] Ht [$] Ha Hb"); eauto|].
  all: iIntros (x) "Hx"; iApply (erase_done_mono with "Hx"); [lia|done].
Qed.

Lemma hwp_erase_side d root k cp p t o n :
  rbt t Black n -> ctxt (Frame d cp p o :: k) Black (S n) ->
  around root (Frame d cp p o :: k) (ptr t) -∗ owned p t -∗
  hwp (erase_side d root p) (erase_done root (S (S (length k))) (elements (plug (Frame d cp p o :: k) t))).
Proof.
  iIntros (Ht Hk) "Hk Ht". cbn [around plug]. iDestruct "Hk" as "(Hp & Ho & Hk)".
  assert (exists co, rbt o co (S n) /\ ctxt k cp (match cp with Red => S n | Black => S (S n) end) /\ (co = Red -> cp = Black))
    as (co & Hco & Hk' & Hc) by (inversion Hk; subst; eauto).
  unfold erase_side. hsteps. destruct co.
  - rw (Hc eq_refl) in Hk' *. destruct (rbt_red_inv d o _ Hco) as (a & y & b & -> & Ha & Hb). rw ptr_join owned_join.
    iDestruct "Ho" as "(Hy & Ha & Hb)". hsteps. cbn [is_red]. hsteps.
    iApply (hwp_rotate d root k with "Hk [$] [$] Ha"). iIntros "Hk Hy Hp Ha". hsteps.
    destruct (rbt_black_inv d a _ Ha) as (a1 & z & a2 & c1 & c2 & -> & Ha1 & Ha2). rw owned_join ptr_join.
    iDestruct "Ha" as "(Hz & Ha1 & Ha2)".
    iApply (hwp_mono with "[-]").
    { iApply (hwp_erase_tail d root (Frame d Black y b :: k) Red p t z a1 a2 n with "[Hk Hy Hb] [$] Ht Hz Ha1 Ha2"); eauto with rb.
      cbn [around]. iFrame. }
    iIntros (x) "Hx". iApply (erase_done_mono with "Hx"); [lia|]. cbn [plug]. apply elements_plug_ext. destruct d; elems.
  - destruct (rbt_black_inv d o _ Hco) as (a & y & b & ca & cb & -> & Ha & Hb). rw ptr_join owned_join.
    iDestruct "Ho" as "(Hy & Ha & Hb)". hsteps. cbn [is_red]. hsteps. iApply (hwp_mono with "[-]").
    { iApply (hwp_erase_tail d root k cp p t y a b n with "Hk [$] Ht [$] Ha Hb"); eauto. }
    iIntros (x) "Hx". iApply (erase_done_mono with "Hx"); [|done]. destruct cp; lia.
Qed.

Lemma hwp_erase_loop root fuel k t n :
  short t n -> ctxt k Black (S n) -> (rounds k t < fuel)%nat ->
  around root k (ptr t) -∗ owned (parent k) t -∗
  hwp (loop fuel (erase_round root) (ptr t, parent k)) (fun x => erase_done root 0 (elements (plug k t)) (inr x)).
Proof.
  revert k t n. induction fuel as [|fuel IH]; intros k t n Ht Hk Hf; [lia|]. iIntros "Hk Ht". cbn [loop].
  rw erase_round_unfold. hsteps. iApply (hwp_null_or_black with "Ht"). iIntros "Ht". hstep.
  iApply (hwp_around_root with "Hk"). iIntros "Hk". unfold short, rounds in Ht, Hf.
  destruct (tcolor t) eqn:Ec; cbn [is_red negb andb].
  { hsteps. iExists k, t. iFrame. iPureIntro. split_and!; try done. by apply (plug_ok _ _ Black (S n)). }
  destruct k as [|[d cp p o] k]; cbn [top parent].
  { rw Z.eqb_refl. cbn [negb]. hsteps. iExists [], t. iFrame. iPureIntro. split_and!; try done.
    cbn. rw (blacken_black t n Ht). by exists n. }
  iDestruct (top_owned_ne with "Hk Ht") as %Htop; [done|]. cbn [top] in Htop.
  rw (proj2 (Z.eqb_neq _ _) Htop). cbn [negb]. iDestruct "Hk" as "(Hp & Ho & Hk)".
  iDestruct (owned_owned_ne with "Ht Ho") as %Hne.
  { intros ->. inversion Hk as [|? ? ? ? ? Ho|? ? ? ? ? ? ? Ho]; inversion Ho. }
  iApply (hwp_on_side (fun l => l =? ptr t) d p _ _ (ptr t) _ (fun d => erase_side d root p) with "Hp"); [done|done|]. iIntros "Hp".
  iApply (hwp_mono with "[-]").
  { iApply (hwp_erase_side d root k cp p t o n with "[Hp Ho Hk] Ht"); [done|done|]. cbn [around]. iFrame. }
  iIntros ([[x q]|x]) "Hd"; [|by hsteps].
  iDestruct "Hd" as (k' t' n' (-> & -> & Ht' & Hk' & Hr & <-)) "[Hk Ht]".
  iApply (IH with "Hk Ht"); [done|done|]. cbn in Hf. lia.
Qed.

Lemma rounds_size root k t h :
  gen_heap_interp h -∗ around root k (ptr t) ∗ owned (parent k) t -∗ ⌜(rounds k t <= size h)%nat⌝.
Proof.
  rw -rbtree_plug. iIntros "Hh Ht". iDestruct (rbtree_size with "Hh Ht") as %Hs. iPureIntro.
  pose proof (length_plug k t). unfold rounds. case_match; lia.
Qed.

Lemma hwp_erase_color root k t n :
  short t n -> ctxt k Black (S n) -> around root k (ptr t) ∗ owned (parent k) t -∗
  hwp (__rb_erase_color (ptr t) (parent k) root) (fun _ => ∃ t',
    ⌜rb_ok t' /\ elements t' = elements (plug k t)⌝ ∗ rbtree root t').
Proof.
  iIntros (Ht Hk) "Hkt". iApply hwp_bind.
  iApply (hwp_hloop _ _ (around root k (ptr t) ∗ owned (parent k) t) _ (rounds k t) with "Hkt").
  { intros h. apply rounds_size. }
  iIntros (fuel Hf) "[Hk Ht]". iApply (hwp_mono with "[-]"); [by iApply (hwp_erase_loop with "Hk Ht")|].
  iIntros (x) "(%k' & %t' & (-> & %Hok & %He) & Hk & Ht)". destruct t' as [|c l x r]; cbn [ptr owned].
  - cbn. hsteps. iExists (plug k' Leaf). rw rbtree_plug. by iFrame.
  - iDestruct "Ht" as "(Hx & Hl & Hr)". iDestruct (rbn_valid with "Hx") as %[Hx _].
    rw (proj2 (Z.eqb_neq x NULL) (valid_nonzero x Hx)). cbn [negb]. hsteps. iExists (plug k' (Node Black l x r)).
    rw rbtree_plug. cbn [owned ptr]. iFrame. iPureIntro. split; [done|]. rw -He. by apply elements_plug_ext.
Qed.
End EraseColor.

(** ** Taking a node out *)

Section Erase.
  Context {V : Type} {HN : Holds V rb_node} {HR : Holds V rb_root} {Σ : gFunctors} `{!gen_heapGS Z V Σ}.

Lemma hwp_erase_outer d root k c x n f y t Φ :
  around root k x -∗ rbn d x (parent k) c n f -∗ owned y t -∗
  (around root k (ptr t) -∗ owned (parent k) t -∗ rbn d x (parent k) c n f -∗ Φ (ptr t, parent k, bit c)) -∗
  hwp (erase_outer x (ptr t) root) Φ.
Proof.
  iIntros "Hk Hx Ht H". iDestruct (rbn_valid with "Hx") as %[_ Hp]. unfold erase_outer. hsteps.
  iApply (hwp_set_parent_if y with "Ht"); [done|]. iIntros "Ht". hstep.
  iApply (hwp_relink (fun l => l =? x) L root k x with "Hk [$]"); [done|]. iIntros "Hk Hx". hsteps.
  iApply ("H" with "Hk Ht Hx").
Qed.

(** A path from a hole up to the child of the node [par]. *)
Fixpoint segment (par : Z) (j : list frame) (h : Z) : iProp Σ :=
  match j with
  | [] => True
  | Frame d c x far :: j => rbn d x (match j with [] => par | _ => parent j end) c h (ptr far) ∗ owned x far ∗ segment par j x
  end.

Lemma around_app root j d c x far k h :
  around root (j ++ Frame d c x far :: k) h ⊣⊢ segment x j h ∗ around root (Frame d c x far :: k) (top j h).
Proof.
  revert h. induction j as [|[e c' y far'] j IH]; intros h; cbn [app around segment top].
  { by rw bi.True_sep. }
  rw IH. by destruct j as [|[e' c2 z far2] j]; cbn [app parent]; rw -!bi.sep_assoc.
Qed.

Lemma owned_plug par j t :
  owned par (plug j t) ⊣⊢ segment par j (ptr t) ∗ owned (match j with [] => par | _ => parent j end) t.
Proof.
  revert t. induction j as [|[d c x far] j IH]; intros t; cbn [plug segment parent]; [by rw bi.True_sep|].
  rw IH ptr_join owned_join. iSplit; [iIntros "($ & $ & $ & $)"|iIntros "(($ & $ & $) & $)"].
Qed.

(** The topmost node of a path gets another parent. *)
Lemma hwp_segment_parent par j h q Φ :
  j <> [] -> aligned q -> segment par j h -∗ (segment q j h -∗ Φ tt) -∗ hwp (rb_set_parent (top j h) q) Φ.
Proof.
  iIntros (Hj Hq) "Hs H". iInduction j as [|[d c x far] j] "IH" forall (h Φ Hj); [done|]. cbn [segment top].
  iDestruct "Hs" as "(Hx & Hfar & Hs)". destruct j as [|f j].
  - cbn [top]. hstep; [done|]. iApply "H". iFrame.
  - iApply ("IH" with "[//] Hs"). iIntros "Hs". iApply "H". iFrame.
Qed.

Lemma top_frame f j h h' : top (f :: j) h = top (f :: j) h'.
Proof. by destruct f. Qed.

Lemma hwp_set_parent_owned p q t Φ :
  t <> Leaf -> aligned q -> owned p t -∗ (owned q t -∗ Φ tt) -∗ hwp (rb_set_parent (ptr t) q) Φ.
Proof.
  iIntros (Ht Hq) "Ht H". destruct t as [|c l x r]; [done|]. cbn [ptr owned]. iDestruct "Ht" as "(Hx & Hl & Hr)".
  hstep; [done|]. iApply "H". iFrame.
Qed.

(** [x] with two children: its successor [y] takes its place. *)
Lemma hwp_erase_inner root k c l x j cy y ry Φ :
  l <> Leaf -> Forall (on L) j -> y = tip L (plug j (Node cy Leaf y ry)) ->
  let k' := j ++ Frame R c y l :: k in
  rbtree root (plug k (Node c l x (plug j (Node cy Leaf y ry)))) -∗
  (around root k' (ptr ry) ∗ owned (parent k') ry ∗ rbfree x -∗ Φ (ptr ry, parent k', bit cy)) -∗
  hwp (erase_inner x root) Φ.
Proof.
  iIntros (Hl Hj Hy k') "Ht H". rw rbtree_plug. cbn [owned ptr]. iDestruct "Ht" as "(Hk & Hx & Hl & Hr)".
  iDestruct (rbn_valid with "Hx") as %[Hvx _].
  unfold erase_inner. hsteps. iApply (hwp_tip L with "Hr").
  { destruct (plug_node j cy Leaf y ry) as (? & ? & ? & ? & ->). done. }
  iIntros "Hr". rw -Hy. hsteps.
  iApply (hwp_relink (fun l => l =? x) L root k x with "Hk [$]"); [done|]. iIntros "Hk Hx". hstep.
  rw owned_plug top_plug. cbn [owned ptr]. iDestruct "Hr" as "(Hj & Hy & _ & Hry)".
  destruct j as [|[d cp p far] j]; cbn [app top parent k'].
  - hsteps. rw Z.eqb_refl. hsteps. iDestruct (rbn_valid _ y with "[$]") as %[Hvy _].
    iApply (hwp_set_parent_owned with "Hl"); [done|by right|]. iIntros "Hl". hsteps. iApply "H". cbn [around].
    rw (rbn_flip R y). cbn [flip]. iFrame. iDestruct select (rbn L x _ _ _ _) as "Hx". by iApply rbn_free.
  - apply Forall_cons in Hj as [Hd Hj]. cbn in Hd. subst d. cbn [segment parent]. iDestruct "Hj" as "(Hp & Hfar & Hj)".
    iDestruct (rbn_ne _ _ p x with "Hp Hx") as %Hne. hsteps. rw (proj2 (Z.eqb_neq _ _) Hne).
    iDestruct (rbn_valid with "Hp") as %[Hvp _]. iDestruct (rbn_valid _ y with "[$]") as %[Hvy _]. hsteps.
    iApply (hwp_set_parent_if y with "Hry"); [by right|]. iIntros "Hry". hsteps.
    iDestruct select (rbn L p _ _ _ _) as "Hp".
    iApply (hwp_segment_parent x (Frame L cp p far :: j) (ptr ry) y with "[Hp Hfar Hj]"); [done|by right|cbn [segment]; iFrame|].
    iIntros "Hj". hsteps. iApply (hwp_set_parent_owned with "Hl"); [done|by right|]. iIntros "Hl". hsteps. iApply "H".
    change (Frame L cp p far :: j ++ Frame R c y l :: k) with ((Frame L cp p far :: j) ++ Frame R c y l :: k).
    rw around_app. cbn [around top]. rw (rbn_flip R y). cbn [flip]. iFrame.
    iDestruct select (rbn L x _ _ _ _) as "Hx". by iApply rbn_free.
Qed.

(** After the exchange: a node of colour [c] with at most one child [t] is gone
    from the hole of [k]. *)
Lemma hwp_erase_rest root d k c y x t es :
  rb_ok (plug k (join d c Leaf y t)) -> elements (plug k t) = es ->
  around root k (ptr t) ∗ owned (parent k) t ∗ rbfree x -∗
  hwp (if bit c =? RB_BLACK then __rb_erase_color (ptr t) (parent k) root else ret tt) (fun _ => ∃ t',
    ⌜rb_ok t' /\ elements t' = es⌝ ∗ rbtree root t' ∗ rbfree x).
Proof.
  iIntros (Hok He) "(Hk & Ht & Hx)". pose proof (erase_short d k c y t Hok) as Hs. destruct c.
  - cbn. hsteps. iExists (plug k t). rw rbtree_plug. by iFrame.
  - cbn. destruct Hs as (n & Hs & Hk). iApply (hwp_mono with "[Hk Ht]"); [iApply (hwp_erase_color with "[$]"); done|].
    iIntros ([]) "(%t' & [%Hok' %He'] & Ht)". iExists t'. iFrame. by rw He' He.
Qed.

(** [x] leaves the tree; all other nodes keep their order. *)
Lemma hwp_erase root k c l x r :
  rb_ok (plug k (Node c l x r)) ->
  rbtree root (plug k (Node c l x r)) ⊢
  hwp (rb_erase x root) (fun _ => ∃ t,
    ⌜rb_ok t /\ elements t = before k ++ elements l ++ elements r ++ after k⌝ ∗ rbtree root t ∗ rbfree x).
Proof.
  iIntros (Hok) "Ht". unfold rb_erase. rw rbtree_plug. cbn [owned ptr]. iDestruct "Ht" as "(Hk & Hx & Hl & Hr)". hsteps.
  iDestruct (ptr_null with "Hl") as %->. iDestruct (ptr_null with "Hr") as %->.
  iDestruct select (rbn L x _ _ _ _) as "Hx". destruct l as [|cl l1 z l2].
  { iApply (hwp_erase_outer L root k with "Hk Hx Hr"). iIntros "Hk Hr Hx".
    iApply (hwp_erase_rest root L k c x x r with "[-]"); [done|by rw elements_plug|].
    iFrame. by iApply rbn_free. }
  destruct r as [|cr r1 w r2].
  { iApply (hwp_erase_outer L root k with "Hk Hx Hl"). iIntros "Hk Hl Hx".
    iApply (hwp_erase_rest root R k c x x (Node cl l1 z l2) with "[-]"); [done|by rw elements_plug|].
    iFrame. by iApply rbn_free. }
  set (l := Node cl l1 z l2) in *. set (r := Node cr r1 w r2) in *.
  destruct (tip_split L r ltac:(done)) as (j & cy & ry & E & Hj). cbn [join] in E. set (y := tip L r) in E.
  iApply (hwp_erase_inner root k c l x j cy y ry with "[Hk Hx Hl Hr]"); [done|done|by rw -E| |].
  { rw rbtree_plug -E. cbn [owned ptr]. iFrame. }
  iIntros "H". iApply (hwp_erase_rest root L (j ++ Frame R c y l :: k) cy y x ry with "H").
  - apply (rb_ok_rename j R c x). rw plug_app. cbn [plug join]. by rw -E.
  - rw plug_app. cbn [plug join]. rw elements_plug E !elements_plug (before_left j Hj). cbn. rw elements_plug (before_left j Hj).
    by rw -!app_assoc.
Qed.
End Erase.
