(* ===== verification/RbtreeClaims.v ===== *)
(** What the functions of [lib/rbtree.c] do to a tree in the heap. *)
From iris.proofmode Require Import proofmode environments.
From iris.base_logic Require Import lib.gen_heap.
From S2P Require Import Prelude Wp Heap HeapLogic Rbtree RbtreeSpec RbtreeProof RbtreeWalk RbtreeInsert RbtreeErase.

(** ** Trees in the heap *)

Section Heap.
  Context {V : Type} {HN : Holds V rb_node} {HR : Holds V rb_root}.
  Implicit Types h : gmap Z V.

(** A node object that is in no tree. *)
Definition free_in h (x : Z) : Prop := valid x /\ exists n : rb_node, h !! x = Some (obj n).

(** All objects but the root, the nodes of the tree and [xs] are the same. *)
Definition same_but h h' (root : Z) (t : tree) (xs : list Z) : Prop :=
  forall p v, h !! p = Some v -> p ∉ root :: elements t ++ xs -> h' !! p = Some v.

(** Objects of free nodes. *)
Definition node_objs (l : list (Z * V)) : Prop := Forall (fun c => valid c.1 /\ exists n : rb_node, c.2 = obj n) l.

Lemma tree_cells_keys root t : (tree_cells root t).*1 ≡ₚ root :: elements t.
Proof. cbn. by rw node_cells_keys. Qed.

Lemma free_objs h xs : Forall (free_in h) xs -> exists l, l.*1 = xs /\ contains h l /\ node_objs l.
Proof.
  induction 1 as [|x xs [Hx [n E]] _ (l & <- & Hl & Hln)].
  { exists []. split_and!; [done| |constructor]. intros p v Hin. by apply elem_of_nil in Hin. }
  exists ((x, obj n) :: l). split_and!; [done| |constructor; [by split; [|exists n]|done]].
  intros p v [[= -> ->]|Hin]%elem_of_cons; [done|by apply Hl].
Qed.

Lemma objs_free h l : contains h l -> node_objs l -> Forall (free_in h) l.*1.
Proof.
  intros Hc Hl. apply Forall_fmap. apply Forall_forall. intros [x v] Hin.
  pose proof (proj1 (Forall_forall _ _) Hl _ Hin) as [Hx [n E]]. cbn in *. split; [done|]. exists n. rw -E. by apply Hc.
Qed.

Lemma objs_rbfree `{!gen_heapGS Z V Σ} (l : list (Z * V)) : node_objs l -> cells l ⊢ [∗ list] x ∈ l.*1, rbfree x.
Proof.
  induction 1 as [|[x v] l [Hx [n E]] _ IH]; [by iIntros "_"|]. cbn [fst snd] in Hx, E. subst v.
  rw cells_cons fmap_cons big_sepL_cons. iIntros "[Hx Hl]". iSplitL "Hx"; [by iFrame|by iApply IH].
Qed.

Lemma rbfree_objs `{!gen_heapGS Z V Σ} ys : ([∗ list] y ∈ ys, rbfree y) ⊢ ∃ l, ⌜l.*1 = ys /\ node_objs l⌝ ∗ cells l.
Proof.
  induction ys as [|y ys IH]; rw ?big_sepL_cons; [iIntros "_"; iExists []; iSplit; [iPureIntro; split; [done|constructor]|iApply cells_nil]|].
  rw IH. iIntros "[[%Hy [%n Hn]] (%l & [<- %Hl] & Hc)]". iExists ((y, obj n) :: l). rw cells_cons. iFrame.
  iPureIntro. split; [done|]. constructor; [by split; [|exists n]|done].
Qed.

Lemma tree_adequacy {A} (m : M (gmap Z V) A) h root t xs (Q : A -> tree -> list Z -> Prop) :
  tree_in h root t -> Forall (free_in h) xs -> NoDup (root :: elements t ++ xs) ->
  (forall Σ (HΣ : gen_heapGS Z V Σ), rbtree root t ∗ ([∗ list] x ∈ xs, rbfree x) ⊢
     hwp m (fun a => ∃ t' ys, ⌜Q a t' ys⌝ ∗ rbtree root t' ∗ [∗ list] y ∈ ys, rbfree y)) ->
  exists a h' t' ys, m h = Ok (a, h') /\ Q a t' ys /\ tree_in h' root t' /\ Forall (free_in h') ys /\
    NoDup (root :: elements t' ++ ys) /\ same_but h h' root t xs.
Proof.
  intros [Hd Hv Hc] (l & <- & Hl & Hln)%free_objs Hnd Hm.
  destruct (heap_adequacy m h (tree_cells root t ++ l) (fun a l' => exists t' lr, l' = tree_cells root t' ++ lr /\
    node_objs lr /\ Forall valid (elements t') /\ Q a t' lr.*1)) as (a & h' & l' & E & (t' & lr & -> & Hlr & Ht' & HQ) & Hnd' & Hc' & Hs).
  - by rw fmap_app tree_cells_keys.
  - intros p v [Hin|Hin]%elem_of_app; [by apply Hc|by apply Hl].
  - intros Σ HΣ. rw cells_app. rw (cells_rbtree root t Hv) (objs_rbfree l Hln) Hm. iIntros "H".
    iApply (hwp_mono with "H"). iIntros (a) "(%t' & %ys & %HQ & Ht & Hy)".
    iDestruct (rbfree_objs with "Hy") as (lr (<- & Hlr)) "Hl". iDestruct (rbtree_cells with "Ht") as "[Ht %Ht]".
    iExists (tree_cells root t' ++ lr). rw cells_app. iFrame. iPureIntro. by exists t', lr.
  - rw fmap_app tree_cells_keys in Hnd'. exists a, h', t', lr.*1. split_and!; try done.
    + split; [by apply NoDup_app in Hnd' as (? & _)|done|]. intros p v Hin. apply Hc'. set_solver.
    + apply objs_free; [|done]. intros p v Hin. apply Hc'. set_solver.
    + intros p v Hp Hn. apply (Hs p v Hp). by rw fmap_app tree_cells_keys.
Qed.

(** ** Reading does not change the heap *)

Definition readonly {A} (m : M (gmap Z V) A) : Prop := forall h a h', m h = Ok (a, h') -> h' = h.

Lemma readonly_ret {A} (a : A) : readonly (ret a).
Proof. by intros h b h' [= _ <-]. Qed.

Lemma readonly_bind {A B} (m : M (gmap Z V) A) (k : A -> M (gmap Z V) B) :
  readonly m -> (forall a, readonly (k a)) -> readonly (bind m k).
Proof. intros Hm Hk h b h' (a & h1 & E1 & E2)%bind_inv_ok. apply Hk in E2 as ->. by eapply Hm. Qed.

Lemma readonly_if {A} (b : bool) (m1 m2 : M (gmap Z V) A) : readonly m1 -> readonly m2 -> readonly (if b then m1 else m2).
Proof. by destruct b. Qed.

Lemma readonly_load {A} `{Holds V A} p : readonly (load (A := A) p).
Proof. intros h a h' E. unfold load, deref in E. destruct (h !! p ≫= as_obj); [congruence|done]. Qed.

Lemma readonly_hloop {L R} (body : L -> M (gmap Z V) (L + R)) l :
  (forall l, readonly (body l)) -> readonly (hloop body l).
Proof.
  intros Hb h a h'. unfold hloop. generalize (S (size h)) as fuel. intros fuel. revert l h.
  induction fuel as [|fuel IH]; intros l h E; [done|]. cbn [loop] in E.
  apply bind_inv_ok in E as ([l'|r] & h1 & E1 & E2); apply Hb in E1 as ->; [by apply (IH l')|unfold ret in E2; congruence].
Qed.

Create HintDb ro.
#[local] Hint Resolve readonly_ret readonly_bind readonly_if readonly_load readonly_hloop : ro.

Lemma readonly_walk root x :
  readonly (rb_first root) /\ readonly (rb_last root) /\ readonly (rb_next x) /\ readonly (rb_prev x).
Proof.
  unfold rb_first, rb_last, rb_next, rb_prev, leftmost, rightmost, rb_parent, get_root, get_left, get_right, get_pc.
  split_and!; repeat first [progress intros|apply readonly_bind|apply readonly_if|apply readonly_hloop|apply readonly_load|apply readonly_ret].
Qed.

(** ** Claims *)

(** The tree [t] of [h] has become [t'] in [h'], well coloured and so of
    logarithmic height, with these elements, and nothing else has changed but
    the nodes [xs]. *)
Record updated h h' (root : Z) (t : tree) (xs : list Z) (t' : tree) (es : list Z) : Prop := {
  updated_in : tree_in h' root t';
  updated_ok : rb_ok t';
  updated_height : (height t' <= 2 * Nat.log2 (S (length es)))%nat;
  updated_elements : elements t' = es;
  updated_same : same_but h h' root t xs;
}.

Lemma updated_intro h h' root t xs t' es :
  tree_in h' root t' -> rb_ok t' -> elements t' = es -> same_but h h' root t xs -> updated h h' root t xs t' es.
Proof. intros Hi Hok <- Hs. split; try done. by apply rb_ok_height. Qed.

Lemma insert_updates h root k x :
  tree_in h root (plug k Leaf) -> rb_ok (plug k Leaf) -> free_in h x -> x ∉ root :: elements (plug k Leaf) ->
  exists h' t', (rb_link_node x (parent k) (link_of root k) ;;; rb_insert_color x root) h = Ok (tt, h') /\
    updated h h' root (plug k Leaf) [x] t' (before k ++ x :: after k).
Proof.
  intros Ht Hok Hx Hn.
  destruct (tree_adequacy (rb_link_node x (parent k) (link_of root k) ;;; rb_insert_color x root) h root _ [x]
    (fun _ t' _ => rb_ok t' /\ elements t' = before k ++ x :: after k) Ht) as ([] & h' & t' & ys & E & [Hok' He] & Hi & _ & _ & Hs).
  - constructor; [done|constructor].
  - rw app_comm_cons. apply NoDup_app. split_and!; [apply Ht| |apply NoDup_singleton]. set_solver.
  - intros Σ HΣ. iIntros "(Ht & Hx & _)". iApply hwp_bind. iApply (hwp_link_node with "Ht Hx"). iIntros "Ht".
    iApply (hwp_mono with "[Ht]"); [by iApply (hwp_insert_color with "Ht")|]. iIntros ([]) "(%t' & %H & Ht)".
    iExists t', []. iFrame. iSplit; [done|]. by iApply big_sepL_nil.
  - exists h', t'. split; [done|]. by apply updated_intro.
Qed.

Lemma erase_updates h root t es1 x es2 :
  tree_in h root t -> rb_ok t -> elements t = es1 ++ x :: es2 ->
  exists h' t', rb_erase x root h = Ok (tt, h') /\ updated h h' root t [] t' (es1 ++ es2) /\ free_in h' x /\
    x ∉ root :: elements t'.
Proof.
  intros Ht Hok He. pose proof (tree_nodup _ _ _ Ht) as Hnd.
  destruct (elements_split t es1 x es2) as (k & c & l & r & -> & -> & ->); [by inversion Hnd|done|].
  destruct (tree_adequacy (rb_erase x root) h root _ []
    (fun _ t' ys => rb_ok t' /\ elements t' = (before k ++ elements l) ++ elements r ++ after k /\ ys = [x]) Ht)
    as ([] & h' & t' & ys & E & (Hok' & He' & ->) & Hi & Hf & Hd & Hs).
  - constructor.
  - by rw app_nil_r.
  - intros Σ HΣ. iIntros "[Ht _]". iApply (hwp_mono with "[Ht]"); [by iApply (hwp_erase with "Ht")|].
    iIntros ([]) "(%t' & [%Hok' %He'] & Ht & Hx)". iExists t', [x]. iFrame. iSplit; [|by iApply big_sepL_nil].
    iPureIntro. by rw -app_assoc.
  - exists h', t'. split_and!; [done|by apply updated_intro|by inversion Hf|].
    rw app_comm_cons in Hd. apply NoDup_app in Hd as (_ & Hd & _). intros Hx. apply (Hd x Hx). set_solver.
Qed.

Lemma replace_updates h root t es1 x es2 y :
  tree_in h root t -> rb_ok t -> elements t = es1 ++ x :: es2 -> free_in h y -> y ∉ root :: elements t ->
  exists h' t', rb_replace_node x y root h = Ok (tt, h') /\ updated h h' root t [y] t' (es1 ++ y :: es2) /\ free_in h' x.
Proof.
  intros Ht Hok He Hy Hn. pose proof (tree_nodup _ _ _ Ht) as Hnd.
  destruct (elements_split t es1 x es2) as (k & c & l & r & -> & -> & ->); [by inversion Hnd|done|].
  destruct (tree_adequacy (rb_replace_node x y root) h root _ [y]
    (fun _ t' ys => rb_ok t' /\ elements t' = (before k ++ elements l) ++ y :: elements r ++ after k /\ ys = [x]) Ht)
    as ([] & h' & t' & ys & E & (Hok' & He' & ->) & Hi & Hf & Hd & Hs).
  - constructor; [done|constructor].
  - rw app_comm_cons. apply NoDup_app. split_and!; [done| |apply NoDup_singleton]. set_solver.
  - intros Σ HΣ. iIntros "(Ht & Hy & _)". iApply (hwp_replace_node with "Ht Hy"). iIntros "Ht Hx".
    iExists (plug k (Node c l y r)), [x]. iFrame. iSplit; [|by iApply big_sepL_nil]. iPureIntro.
    split_and!; [|by rw elements_plug; cbn; rw -!app_assoc|done].
    by apply (rb_ok_rename [] L c x y r k l).
  - exists h', t'. split_and!; [done|by apply updated_intro|by inversion Hf].
Qed.

(** C16: linking a node at any free place of a red-black tree in the heap and
    calling [rb_insert_color], [rb_erase] of any node, and [rb_replace_node]
    end without a fault; afterwards there is again a red-black tree below the
    root, no path of which is longer than twice the logarithm of its size; its
    order is the old one with the node inserted at the place, taken out, or
    exchanged; and no object outside of the tree has changed. *)
Theorem rbtree_updates_correct h (root : Z) (t : tree) (Ht : tree_in h root t) (Hok : rb_ok t) :
  (forall k x, t = plug k Leaf -> free_in h x -> x ∉ root :: elements t ->
     exists h' t', (rb_link_node x (parent k) (link_of root k) ;;; rb_insert_color x root) h = Ok (tt, h') /\
       updated h h' root t [x] t' (before k ++ x :: after k)) /\
  (forall es1 x es2, elements t = es1 ++ x :: es2 ->
     (exists h' t', rb_erase x root h = Ok (tt, h') /\ updated h h' root t [] t' (es1 ++ es2) /\ free_in h' x /\
        x ∉ root :: elements t') /\
     (forall y, free_in h y -> y ∉ root :: elements t ->
        exists h' t', rb_replace_node x y root h = Ok (tt, h') /\ updated h h' root t [y] t' (es1 ++ y :: es2) /\
          free_in h' x)).
Proof.
  split; [intros k x ->; by apply insert_updates|]. intros es1 x es2 He.
  split; [by apply erase_updates|]. intros y Hy Hn. by apply replace_updates.
Qed.

Lemma walk_result {A} (m : M (gmap Z V) A) h root t a :
  tree_in h root t -> readonly m ->
  (forall Σ (HΣ : gen_heapGS Z V Σ), rbtree root t ⊢ hwp m (fun b => ⌜b = a⌝ ∗ rbtree root t)) -> m h = Ok (a, h).
Proof.
  intros Ht Hr Hm. destruct (tree_adequacy m h root t [] (fun b _ _ => b = a) Ht) as (b & h' & _ & _ & E & -> & _).
  - constructor.
  - rw app_nil_r. apply Ht.
  - intros Σ HΣ. iIntros "[Ht _]". iApply (hwp_mono with "[Ht]"); [by iApply Hm|]. iIntros (b) "[-> Ht]". iExists t, []. iFrame. iSplit; [done|]. by iApply big_sepL_nil.
  - rw E. by rw (Hr _ _ _ E).
Qed.

(** C17: [rb_first], [rb_last], [rb_next] and [rb_prev] end without a fault and
    without a change, and return the first and last node of the tree and the
    nodes after and before a node in the order of the tree, or [NULL]. *)
Theorem rbtree_walks_correct h (root : Z) (t : tree) (Ht : tree_in h root t) :
  rb_first root h = Ok (default NULL (head (elements t)), h) /\
  rb_last root h = Ok (default NULL (last (elements t)), h) /\
  forall es1 x es2, elements t = es1 ++ x :: es2 ->
    rb_next x h = Ok (default NULL (head es2), h) /\ rb_prev x h = Ok (default NULL (last es1), h).
Proof.
  destruct (readonly_walk root 0) as (Hr1 & Hr2 & _). split_and!.
  - apply (walk_result _ _ root t _ Ht Hr1). intros Σ HΣ. iIntros "Ht". iApply (hwp_first with "Ht"). iIntros "$". by rw tip_left.
  - apply (walk_result _ _ root t _ Ht Hr2). intros Σ HΣ. iIntros "Ht". iApply (hwp_last with "Ht"). iIntros "$". by rw tip_right.
  - intros es1 x es2 He. pose proof (tree_nodup _ _ _ Ht) as Hnd. destruct (readonly_walk root x) as (_ & _ & Hr3 & Hr4).
    destruct (elements_split t es1 x es2) as (k & c & l & r & -> & -> & ->); [by inversion Hnd|done|]. split.
    + apply (walk_result _ _ root _ _ Ht Hr3). intros Σ HΣ. iIntros "Ht". iApply (hwp_next with "Ht"). by iIntros "$".
    + apply (walk_result _ _ root _ _ Ht Hr4). intros Σ HΣ. iIntros "Ht". iApply (hwp_prev with "Ht"). by iIntros "$".
Qed.
End Heap.

(** ** Example *)

#[global] Instance sum_holds_l {A B} : Holds (A + B) A :=
  {| obj := inl; as_obj v := match v with inl a => Some a | inr _ => None end; as_obj_obj a := eq_refl |}.
#[global] Instance sum_holds_r {A B} : Holds (A + B) B :=
  {| obj := inr; as_obj v := match v with inl _ => None | inr b => Some b end; as_obj_obj b := eq_refl |}.

(** The nodes 16, 24 and 32, and the free node 40, below the root object 8. *)
Definition ex_tree : tree := Node Black (Node Red Leaf 16 Leaf) 24 (Node Red Leaf 32 Leaf).
Definition ex_rb_heap : gmap Z (rb_node + rb_root) :=
  list_to_map ((40, obj (mk_rb 0 0 0)) :: tree_cells 8 ex_tree).

Lemma ex_valid x : x ∈ [16; 24; 32; 40] -> valid x.
Proof. rw !elem_of_cons. intros [->|[->|[->|[->|Hx]]]]; [by repeat split..|by apply elem_of_nil in Hx]. Qed.

Lemma ex_tree_in : tree_in ex_rb_heap 8 ex_tree.
Proof.
  split.
  - by apply (bool_decide_unpack _).
  - apply Forall_forall. intros x Hx. apply ex_valid. cbn in Hx. set_solver.
  - intros p v Hin. apply elem_of_list_to_map_1; [by apply (bool_decide_unpack _)|]. by apply elem_of_cons; right.
Qed.

Lemma ex_tree_ok : rb_ok ex_tree.
Proof. exists 1%nat. repeat econstructor. Qed.

Lemma ex_free : free_in ex_rb_heap 40.
Proof. split; [apply ex_valid; set_solver|]. by exists (mk_rb 0 0 0). Qed.

Lemma rbtree_updates_correct_witness :
  (exists h' t', (rb_link_node 40 16 (Right_link 16) ;;; rb_insert_color 40 8) ex_rb_heap = Ok (tt, h') /\
     updated ex_rb_heap h' 8 ex_tree [40] t' [16; 40; 24; 32]) /\
  (exists h' t', rb_erase 24 8 ex_rb_heap = Ok (tt, h') /\ updated ex_rb_heap h' 8 ex_tree [] t' [16; 32]).
Proof.
  destruct (rbtree_updates_correct ex_rb_heap 8 ex_tree ex_tree_in ex_tree_ok) as [Hi He]. split.
  - apply (Hi [Frame R Red 16 Leaf; Frame L Black 24 (Node Red Leaf 32 Leaf)] 40 eq_refl ex_free).
    by apply (bool_decide_unpack _).
  - destruct (He [16] 24 [32] eq_refl) as [(h' & t' & E & Hu & _) _]. by exists h', t'.
Defined.

Lemma rbtree_walks_correct_witness :
  rb_first 8 ex_rb_heap = Ok (16, ex_rb_heap) /\ rb_next 24 ex_rb_heap = Ok (32, ex_rb_heap) /\
  rb_prev 16 ex_rb_heap = Ok (NULL, ex_rb_heap).
Proof.
  destruct (rbtree_walks_correct ex_rb_heap 8 ex_tree ex_tree_in) as (H1 & _ & H2). split; [exact H1|].
  split; [exact (proj1 (H2 [16] 24 [32] eq_refl))|exact (proj2 (H2 [] 16 [24; 32] eq_refl))].
Defined.
