(* ===== verification/Cfs.v ===== *)
(** The completely fair scheduler: the run queue operations of
    [kernel/sched_fair.c] with the load arithmetic of [kernel/sched.c].

    The kernel is configured without group scheduling and scheduler statistics:
    every entity is a task, the loops over the hierarchy of entities have one
    round, and [schedstat_*] does nothing.  Features have the values of
    [kernel/sched_features.h]; branches of features that are off are left out
    where they read state that is used for nothing else.

    The functions work on entities, on the run queue and on its timeline, the
    tree of waiting entities, through the class [Sched].  [CfsTree.v] provides
    it with the red-black trees of [Rbtree.v], [CfsSpec.v] with a list. *)
From S2P Require Import Prelude.

(** ** Data *)

Record load_weight : Type := mk_load { weight : Z; inv_weight : Z }.

(** [struct sched_entity] without [run_node] and [group_node], and the policy
    of the task around it. *)
Record sched_entity : Type := mk_se {
  se_load : load_weight;
  on_rq : bool;
  exec_start : Z;
  sum_exec_runtime : Z;
  vruntime : Z;
  prev_sum_exec_runtime : Z;
  avg_wakeup : Z;
  policy : Z;
}.

(** [struct cfs_rq] without the root of the timeline, and what the functions
    use of the [struct rq] around it: its load, its clock, and whether the
    running task has to reschedule.  The list of tasks is the sequence of its
    entries. *)
Record cfs_rq : Type := mk_cfs {
  cfs_load : load_weight;
  nr_running : Z;
  min_vruntime : Z;
  rb_leftmost : Z;
  tasks : list Z;
  cfs_curr : Z;
  cfs_next : Z;
  cfs_last : Z;
  rq_load : load_weight;
  clock_task : Z;
  need_resched : bool;
}.

Definition set_se_load v e := mk_se v (on_rq e) (exec_start e) (sum_exec_runtime e) (vruntime e) (prev_sum_exec_runtime e) (avg_wakeup e) (policy e).
Definition set_on_rq v e := mk_se (se_load e) v (exec_start e) (sum_exec_runtime e) (vruntime e) (prev_sum_exec_runtime e) (avg_wakeup e) (policy e).
Definition set_exec_start v e := mk_se (se_load e) (on_rq e) v (sum_exec_runtime e) (vruntime e) (prev_sum_exec_runtime e) (avg_wakeup e) (policy e).
Definition set_sum_exec v e := mk_se (se_load e) (on_rq e) (exec_start e) v (vruntime e) (prev_sum_exec_runtime e) (avg_wakeup e) (policy e).
Definition set_vruntime v e := mk_se (se_load e) (on_rq e) (exec_start e) (sum_exec_runtime e) v (prev_sum_exec_runtime e) (avg_wakeup e) (policy e).
Definition set_prev_sum v e := mk_se (se_load e) (on_rq e) (exec_start e) (sum_exec_runtime e) (vruntime e) v (avg_wakeup e) (policy e).
Definition set_avg_wakeup v e := mk_se (se_load e) (on_rq e) (exec_start e) (sum_exec_runtime e) (vruntime e) (prev_sum_exec_runtime e) v (policy e).
Definition set_policy v e := mk_se (se_load e) (on_rq e) (exec_start e) (sum_exec_runtime e) (vruntime e) (prev_sum_exec_runtime e) (avg_wakeup e) v.

Definition set_cfs_load v q := mk_cfs v (nr_running q) (min_vruntime q) (rb_leftmost q) (tasks q) (cfs_curr q) (cfs_next q) (cfs_last q) (rq_load q) (clock_task q) (need_resched q).
Definition set_nr_running v q := mk_cfs (cfs_load q) v (min_vruntime q) (rb_leftmost q) (tasks q) (cfs_curr q) (cfs_next q) (cfs_last q) (rq_load q) (clock_task q) (need_resched q).
Definition set_min_vruntime v q := mk_cfs (cfs_load q) (nr_running q) v (rb_leftmost q) (tasks q) (cfs_curr q) (cfs_next q) (cfs_last q) (rq_load q) (clock_task q) (need_resched q).
Definition set_leftmost v q := mk_cfs (cfs_load q) (nr_running q) (min_vruntime q) v (tasks q) (cfs_curr q) (cfs_next q) (cfs_last q) (rq_load q) (clock_task q) (need_resched q).
Definition set_tasks v q := mk_cfs (cfs_load q) (nr_running q) (min_vruntime q) (rb_leftmost q) v (cfs_curr q) (cfs_next q) (cfs_last q) (rq_load q) (clock_task q) (need_resched q).
Definition set_curr v q := mk_cfs (cfs_load q) (nr_running q) (min_vruntime q) (rb_leftmost q) (tasks q) v (cfs_next q) (cfs_last q) (rq_load q) (clock_task q) (need_resched q).
Definition set_next v q := mk_cfs (cfs_load q) (nr_running q) (min_vruntime q) (rb_leftmost q) (tasks q) (cfs_curr q) v (cfs_last q) (rq_load q) (clock_task q) (need_resched q).
Definition set_last v q := mk_cfs (cfs_load q) (nr_running q) (min_vruntime q) (rb_leftmost q) (tasks q) (cfs_curr q) (cfs_next q) v (rq_load q) (clock_task q) (need_resched q).
Definition set_rq_load v q := mk_cfs (cfs_load q) (nr_running q) (min_vruntime q) (rb_leftmost q) (tasks q) (cfs_curr q) (cfs_next q) (cfs_last q) v (clock_task q) (need_resched q).
Definition set_clock v q := mk_cfs (cfs_load q) (nr_running q) (min_vruntime q) (rb_leftmost q) (tasks q) (cfs_curr q) (cfs_next q) (cfs_last q) (rq_load q) v (need_resched q).
Definition set_resched v q := mk_cfs (cfs_load q) (nr_running q) (min_vruntime q) (rb_leftmost q) (tasks q) (cfs_curr q) (cfs_next q) (cfs_last q) (rq_load q) (clock_task q) v.

(** [rb_entry] and its inverse: [run_node] comes after the two words of
    [load]. *)
Definition run_node (se : Z) : Z := se + 16.
Definition rb_entry (n : Z) : Z := n - 16.

(** ** Arithmetic *)

Definition NICE_0_LOAD : Z := 1024.
Definition WMULT_CONST : Z := 2 ^ 32.
Definition WMULT_SHIFT : Z := 32.
Definition LONG_MAX : Z := 2 ^ 63 - 1.

Definition SRR (x y : Z) : Z := Z.shiftr (u64 (x + 2 ^ (y - 1))) y.

(** The result, and [*lw] with its [inv_weight] filled in. *)
Definition calc_delta_mine (delta_exec w : Z) (lw : load_weight) : Z * load_weight :=
  let lw :=
    if inv_weight lw =? 0 then
      mk_load (weight lw)
        (if WMULT_CONST <=? weight lw then 1
         else u64 (1 + (WMULT_CONST - weight lw / 2) / (weight lw + 1)))
    else lw in
  let tmp := u64 (delta_exec * w) in
  let tmp :=
    if WMULT_CONST <? tmp
    then SRR (u64 (SRR tmp (WMULT_SHIFT / 2) * inv_weight lw)) (WMULT_SHIFT / 2)
    else SRR (u64 (tmp * inv_weight lw)) WMULT_SHIFT in
  (Z.min tmp LONG_MAX, lw).

Definition update_load_add (lw : load_weight) (inc : Z) : load_weight := mk_load (u64 (weight lw + inc)) 0.
Definition update_load_sub (lw : load_weight) (dec : Z) : load_weight := mk_load (u64 (weight lw - dec)) 0.

Definition max_vruntime (min_vruntime vruntime : Z) : Z :=
  let delta := s64 (vruntime - min_vruntime) in
  if 0 <? delta then vruntime else min_vruntime.

(** [min_vruntime] of the source. *)
Definition min_vruntime_of (min_vruntime vruntime : Z) : Z :=
  let delta := s64 (vruntime - min_vruntime) in
  if delta <? 0 then vruntime else min_vruntime.

Definition entity_before (a b : sched_entity) : bool := s64 (vruntime a - vruntime b) <? 0.

Definition entity_key (q : cfs_rq) (se : sched_entity) : Z := s64 (vruntime se - min_vruntime q).

(** ** The interface *)

Class Sched (S : Type) : Type := {
  get_se : Z -> M S sched_entity;
  put_se : Z -> sched_entity -> M S unit;
  get_rq : M S cfs_rq;
  put_rq : cfs_rq -> M S unit;
  __enqueue_entity : Z -> M S unit;
  __dequeue_entity : Z -> M S unit;
  __pick_last_entity : M S Z;
}.

(** The variables that [sysctl] sets. *)
Record sysctl : Type := mk_sysctl {
  sched_latency : Z;
  sched_min_granularity : Z;
  sched_wakeup_granularity : Z;
  sched_nr_latency : Z;
  sched_child_runs_first : bool;
  sched_compat_yield : bool;
}.

Definition FAIR_SLEEPERS : bool := true.
Definition GENTLE_FAIR_SLEEPERS : bool := true.
Definition NORMALIZED_SLEEPER : bool := false.
Definition START_DEBIT : bool := true.
Definition WAKEUP_PREEMPT : bool := true.
Definition ADAPTIVE_GRAN : bool := true.
Definition ASYM_GRAN : bool := true.
Definition NEXT_BUDDY : bool := false.
Definition LAST_BUDDY : bool := true.
Definition HRTICK : bool := false.
Definition DOUBLE_TICK : bool := false.

(** Whether the high-resolution tick timer of the run queue is active: it is only
    ever started where [hrtick_enabled], which asks for the feature first. *)
Definition hrtick_active : bool := HRTICK.

Definition SCHED_NORMAL : Z := 0.
Definition SCHED_BATCH : Z := 3.
Definition SCHED_IDLE : Z := 5.

Section Cfs.
  Context {S : Type} `{Sched S} (sys : sysctl).

Definition upd_se (se : Z) (f : sched_entity -> sched_entity) : M S unit := let! e := get_se se in put_se se (f e).
Definition upd_rq (f : cfs_rq -> cfs_rq) : M S unit := let! q := get_rq in put_rq (f q).

Definition __pick_next_entity : M S Z :=
  let! q := get_rq in
  if rb_leftmost q =? 0 then ret 0 else ret (rb_entry (rb_leftmost q)).

Definition update_min_vruntime : M S unit :=
  let! q := get_rq in
  let! vruntime0 :=
    (if negb (cfs_curr q =? 0) then let! c := get_se (cfs_curr q) in ret (vruntime c) else ret (min_vruntime q)) in
  let! vruntime1 :=
    (if negb (rb_leftmost q =? 0) then
       let! e := get_se (rb_entry (rb_leftmost q)) in
       if cfs_curr q =? 0 then ret (vruntime e) else ret (min_vruntime_of vruntime0 (vruntime e))
     else ret vruntime0) in
  put_rq (set_min_vruntime (max_vruntime (min_vruntime q) vruntime1) q).

Definition calc_delta_fair (delta se : Z) : M S Z :=
  let! e := get_se se in
  if negb (weight (se_load e) =? NICE_0_LOAD) then
    let '(delta, lw) := calc_delta_mine delta NICE_0_LOAD (se_load e) in
    put_se se (set_se_load lw e) ;;; ret delta
  else ret delta.

Definition __sched_period (nr : Z) : Z :=
  if sched_nr_latency sys <? nr then u64 (sched_min_granularity sys * nr) else sched_latency sys.

Definition sched_slice (se : Z) : M S Z :=
  let! q := get_rq in
  let! e := get_se se in
  let slice := __sched_period (u64 (nr_running q + (if on_rq e then 0 else 1))) in
  if negb (on_rq e) then
    ret (calc_delta_mine slice (weight (se_load e)) (update_load_add (cfs_load q) (weight (se_load e)))).1
  else
    let '(slice, lw) := calc_delta_mine slice (weight (se_load e)) (cfs_load q) in
    put_rq (set_cfs_load lw q) ;;; ret slice.

Definition sched_vslice (se : Z) : M S Z := let! slice := sched_slice se in calc_delta_fair slice se.

Definition __update_curr (curr delta_exec : Z) : M S unit :=
  upd_se curr (fun e => set_sum_exec (u64 (sum_exec_runtime e + delta_exec)) e) ;;;
  let! delta_exec_weighted := calc_delta_fair delta_exec curr in
  upd_se curr (fun e => set_vruntime (u64 (vruntime e + delta_exec_weighted)) e) ;;;
  update_min_vruntime.

Definition update_curr : M S unit :=
  let! q := get_rq in
  let curr := cfs_curr q in
  let now := clock_task q in
  if curr =? 0 then ret tt
  else
    let! e := get_se curr in
    let delta_exec := u64 (now - exec_start e) in
    if delta_exec =? 0 then ret tt
    else
      __update_curr curr delta_exec ;;;
      upd_se curr (set_exec_start now).

Definition update_stats_curr_start (se : Z) : M S unit :=
  let! q := get_rq in upd_se se (set_exec_start (clock_task q)).

Definition account_entity_enqueue (se : Z) : M S unit :=
  let! e := get_se se in
  upd_rq (fun q => set_cfs_load (update_load_add (cfs_load q) (weight (se_load e))) q) ;;;
  upd_rq (fun q => set_rq_load (update_load_add (rq_load q) (weight (se_load e))) q) ;;;
  upd_rq (fun q => set_tasks (se :: tasks q) q) ;;;
  upd_rq (fun q => set_nr_running (u64 (nr_running q + 1)) q) ;;;
  upd_se se (set_on_rq true).

Definition account_entity_dequeue (se : Z) : M S unit :=
  let! e := get_se se in
  upd_rq (fun q => set_cfs_load (update_load_sub (cfs_load q) (weight (se_load e))) q) ;;;
  upd_rq (fun q => set_rq_load (update_load_sub (rq_load q) (weight (se_load e))) q) ;;;
  upd_rq (fun q => set_tasks (filter (fun x => x <> se) (tasks q)) q) ;;;
  upd_rq (fun q => set_nr_running (u64 (nr_running q - 1)) q) ;;;
  upd_se se (set_on_rq false).

Definition place_entity (se : Z) (initial : bool) : M S unit :=
  let! q := get_rq in
  let vruntime0 := min_vruntime q in
  let! vruntime1 :=
    (if initial && START_DEBIT then let! v := sched_vslice se in ret (u64 (vruntime0 + v)) else ret vruntime0) in
  let! vruntime2 :=
    (if negb initial && FAIR_SLEEPERS then
       let! e := get_se se in
       let! thresh :=
         (if NORMALIZED_SLEEPER && negb (policy e =? SCHED_IDLE) then calc_delta_fair (sched_latency sys) se
          else ret (sched_latency sys)) in
       let thresh := if GENTLE_FAIR_SLEEPERS then Z.shiftr thresh 1 else thresh in
       ret (u64 (vruntime1 - thresh))
     else ret vruntime1) in
  upd_se se (fun e => set_vruntime (max_vruntime (vruntime e) vruntime2) e).

(** [flags]: [ENQUEUE_WAKEUP] and [ENQUEUE_MIGRATE]. *)
Definition enqueue_entity (se : Z) (wakeup migrate : bool) : M S unit :=
  (if negb wakeup || migrate then
     let! q := get_rq in upd_se se (fun e => set_vruntime (u64 (vruntime e + min_vruntime q)) e)
   else ret tt) ;;;
  update_curr ;;;
  account_entity_enqueue se ;;;
  (if wakeup then place_entity se false else ret tt) ;;;
  let! q := get_rq in
  if negb (se =? cfs_curr q) then __enqueue_entity se else ret tt.

Definition __clear_buddies (se : Z) : M S unit :=
  upd_rq (fun q => if (se =? 0) || (cfs_last q =? se) then set_last 0 q else q) ;;;
  upd_rq (fun q => if (se =? 0) || (cfs_next q =? se) then set_next 0 q else q).

Definition clear_buddies (se : Z) : M S unit := if se =? 0 then ret tt else __clear_buddies se.

Definition dequeue_entity (se : Z) (sleep : bool) : M S unit :=
  update_curr ;;;
  clear_buddies se ;;;
  let! q := get_rq in
  (if negb (se =? cfs_curr q) then __dequeue_entity se else ret tt) ;;;
  account_entity_dequeue se ;;;
  update_min_vruntime ;;;
  if negb sleep then
    let! q := get_rq in upd_se se (fun e => set_vruntime (u64 (vruntime e - min_vruntime q)) e)
  else ret tt.

(** Of [resched_task] the flag of the task; the interrupt to another processor
    is left out. *)
Definition resched_task : M S unit := upd_rq (set_resched true).

Definition check_preempt_tick (curr : Z) : M S unit :=
  let! ideal_runtime := sched_slice curr in
  let! c := get_se curr in
  let delta_exec := u64 (sum_exec_runtime c - prev_sum_exec_runtime c) in
  if ideal_runtime <? delta_exec then
    resched_task ;;; clear_buddies curr
  else if negb WAKEUP_PREEMPT then ret tt
  else if delta_exec <? sched_min_granularity sys then ret tt
  else
    let! q := get_rq in
    if 1 <? nr_running q then
      let! se := __pick_next_entity in
      let! e := get_se se in
      let delta := s64 (vruntime c - vruntime e) in
      if delta <? 0 then ret tt
      else if ideal_runtime <? delta then resched_task else ret tt
    else ret tt.

Definition set_next_entity (se : Z) : M S unit :=
  let! e := get_se se in
  (if on_rq e then __dequeue_entity se else ret tt) ;;;
  update_stats_curr_start se ;;;
  upd_rq (set_curr se) ;;;
  upd_se se (fun e => set_prev_sum (sum_exec_runtime e) e).

Definition adaptive_gran (curr se : Z) : M S Z :=
  let! c := get_se curr in
  let! e := get_se se in
  let! q := get_rq in
  let this_run := u64 (sum_exec_runtime c - prev_sum_exec_runtime c) in
  let expected_wakeup := u64 (u64 (2 * avg_wakeup e) * nr_running q) in
  let gran := if this_run <? expected_wakeup then u64 (expected_wakeup - this_run) else 0 in
  ret (u64 (Z.min (s64 gran) (sched_wakeup_granularity sys))).

Definition wakeup_gran (curr se : Z) : M S Z :=
  let! q := get_rq in
  let! gran :=
    (if negb (cfs_curr q =? 0) && ADAPTIVE_GRAN then adaptive_gran curr se
     else ret (sched_wakeup_granularity sys)) in
  let se := if ASYM_GRAN then se else curr in
  let! e := get_se se in
  if negb (weight (se_load e) =? NICE_0_LOAD) then calc_delta_fair gran se else ret gran.

Definition wakeup_preempt_entity (curr se : Z) : M S Z :=
  let! c := get_se curr in
  let! e := get_se se in
  let vdiff := s64 (vruntime c - vruntime e) in
  if vdiff <=? 0 then ret (-1)
  else
    let! gran := wakeup_gran curr se in
    if s64 gran <? vdiff then ret 1 else ret 0.

Definition pick_next_entity : M S Z :=
  let! leftm := __pick_next_entity in
  let! q := get_rq in
  let! se :=
    (if negb (cfs_next q =? 0) then
       let! r := wakeup_preempt_entity (cfs_next q) leftm in ret (if r <? 1 then cfs_next q else leftm)
     else ret leftm) in
  let! q := get_rq in
  let! se :=
    (if negb (cfs_last q =? 0) then
       let! r := wakeup_preempt_entity (cfs_last q) leftm in ret (if r <? 1 then cfs_last q else se)
     else ret se) in
  clear_buddies se ;;;
  ret se.

Definition put_prev_entity (prev : Z) : M S unit :=
  let! e := get_se prev in
  (if on_rq e then update_curr else ret tt) ;;;
  let! e := get_se prev in
  (if on_rq e then __enqueue_entity prev else ret tt) ;;;
  upd_rq (set_curr 0).

Definition entity_tick (curr : Z) (queued : bool) : M S unit :=
  update_curr ;;;
  if queued then resched_task
  else if negb DOUBLE_TICK && hrtick_active then ret tt
  else
    let! q := get_rq in
    if (1 <? nr_running q) || negb WAKEUP_PREEMPT then check_preempt_tick curr else ret tt.

(** ** Operations on tasks *)

(** [waking]: the state of the task is [TASK_WAKING]. *)
Definition enqueue_task_fair (p : Z) (wakeup waking : bool) : M S unit :=
  let! e := get_se p in
  if on_rq e then ret tt else enqueue_entity p wakeup waking.

Definition dequeue_task_fair (p : Z) (sleep : bool) : M S unit := dequeue_entity p sleep.

(** [clock]: what [update_rq_clock] reads. *)
Definition yield_task_fair (curr clock : Z) : M S unit :=
  let! q := get_rq in
  if nr_running q =? 1 then ret tt
  else
    clear_buddies curr ;;;
    let! c := get_se curr in
    if negb (sched_compat_yield sys) && negb (policy c =? SCHED_BATCH) then
      upd_rq (set_clock clock) ;;; update_curr
    else
      let! rightmost := __pick_last_entity in
      if rightmost =? 0 then ret tt
      else
        let! r := get_se rightmost in
        let! c := get_se curr in
        if entity_before r c then ret tt
        else upd_se curr (set_vruntime (u64 (vruntime r + 1))).

Definition task_waking_fair (p : Z) : M S unit :=
  let! q := get_rq in upd_se p (fun e => set_vruntime (u64 (vruntime e - min_vruntime q)) e).

Definition set_last_buddy (se : Z) : M S unit :=
  let! e := get_se se in
  if negb (policy e =? SCHED_IDLE) then upd_rq (set_last se) else ret tt.

Definition set_next_buddy (se : Z) : M S unit :=
  let! e := get_se se in
  if negb (policy e =? SCHED_IDLE) then upd_rq (set_next se) else ret tt.

(** [rt], [fair]: the class of the woken task; [fork]: [WF_FORK] of
    [wake_flags]; [idle]: the running task is the idle task. *)
Definition check_preempt_wakeup (curr p : Z) (rt fair fork idle : bool) : M S unit :=
  let! q := get_rq in
  let scale := sched_nr_latency sys <=? nr_running q in
  update_curr ;;;
  if rt then resched_task
  else if negb fair then ret tt
  else if curr =? p then ret tt
  else
    (if NEXT_BUDDY && scale && negb fork then set_next_buddy p else ret tt) ;;;
    let! q := get_rq in
    let! c := get_se curr in
    let! e := get_se p in
    if need_resched q then ret tt
    else if negb (policy e =? SCHED_NORMAL) then ret tt
    else if policy c =? SCHED_IDLE then resched_task
    else if negb WAKEUP_PREEMPT then ret tt
    else
      let! r := wakeup_preempt_entity curr p in
      if r =? 1 then
        resched_task ;;;
        let! c := get_se curr in
        if negb (on_rq c) || idle then ret tt
        else if LAST_BUDDY && scale then set_last_buddy curr else ret tt
      else ret tt.

Definition pick_next_task_fair : M S Z :=
  let! q := get_rq in
  if nr_running q =? 0 then ret 0
  else
    let! se := pick_next_entity in
    set_next_entity se ;;;
    ret se.

Definition put_prev_task_fair (prev : Z) : M S unit := put_prev_entity prev.

Definition task_tick_fair (curr : Z) (queued : bool) : M S unit := entity_tick curr queued.

Definition task_fork_fair (p clock : Z) : M S unit :=
  let! q := get_rq in
  let curr := cfs_curr q in
  upd_rq (set_clock clock) ;;;
  update_curr ;;;
  (if negb (curr =? 0) then let! c := get_se curr in upd_se p (set_vruntime (vruntime c)) else ret tt) ;;;
  place_entity p true ;;;
  (if sched_child_runs_first sys && negb (curr =? 0) then
     let! c := get_se curr in
     let! e := get_se p in
     if entity_before c e then
       put_se curr (set_vruntime (vruntime e) c) ;;;
       put_se p (set_vruntime (vruntime c) e) ;;;
       resched_task
     else ret tt
   else ret tt) ;;;
  let! q := get_rq in
  upd_se p (fun e => set_vruntime (u64 (vruntime e - min_vruntime q)) e).

Definition set_curr_task_fair (curr : Z) : M S unit := set_next_entity curr.
End Cfs.
