(* ===== verification/CfsSpec.v ===== *)
(** The run queue with its timeline as a list: the specification of the tree.

    The state has the entities and the waiting ones in the order in which they
    are to run.  Where the code relies on the state (the list is sorted, the
    pointer to its first entry is right, an entity is or is not in it) the
    operations on the timeline check it and fail otherwise; the invariant of
    [CfsInv.v] shows that they never do. *)
From S2P Require Import Prelude Wp Cfs.

Record sched_state : Type := mk_ss {
  ss_rq : cfs_rq;
  ss_order : list Z;
  ss_ents : gmap Z sched_entity;
}.

Definition set_ss_rq (v : cfs_rq) (s : sched_state) : sched_state := mk_ss v (ss_order s) (ss_ents s).
Definition set_ss_ents (v : gmap Z sched_entity) (s : sched_state) : sched_state := mk_ss (ss_rq s) (ss_order s) v.

(** The place of an entity on the timeline. *)
Definition key_of (s : sched_state) (p : Z) : Z :=
  match ss_ents s !! p with Some e => entity_key (ss_rq s) e | None => 0 end.

(** The node of the first entity. *)
Definition first_node (order : list Z) : Z := match order with [] => 0 | p :: _ => run_node p end.

(** An entity goes behind all that are not after it. *)
Fixpoint place (key : Z -> Z) (p : Z) (order : list Z) : list Z :=
  match order with
  | [] => [p]
  | x :: l => if key p <? key x then p :: x :: l else x :: place key p l
  end.

Fixpoint sortedb (key : Z -> Z) (order : list Z) : bool :=
  match order with
  | x :: l => forallb (fun y => key x <=? key y) l && sortedb key l
  | [] => true
  end.

(** The timeline is in order. *)
Definition in_order (s : sched_state) : bool :=
  forallb (fun p => match ss_ents s !! p with Some _ => true | None => false end) (ss_order s) &&
  sortedb (key_of s) (ss_order s) && (rb_leftmost (ss_rq s) =? first_node (ss_order s)).

Definition list_enqueue (se : Z) : M sched_state unit := fun s =>
  if in_order s && negb (bool_decide (se ∈ ss_order s)) && bool_decide (is_Some (ss_ents s !! se)) then
    let order := place (key_of s) se (ss_order s) in
    Ok (tt, mk_ss (set_leftmost (first_node order) (ss_rq s)) order (ss_ents s))
  else Err Undef.

Definition list_dequeue (se : Z) : M sched_state unit := fun s =>
  if (rb_leftmost (ss_rq s) =? first_node (ss_order s)) && bool_decide (se ∈ ss_order s) &&
     bool_decide (is_Some (ss_ents s !! se)) then
    let order := filter (fun x => x <> se) (ss_order s) in
    Ok (tt, mk_ss (set_leftmost (first_node order) (ss_rq s)) order (ss_ents s))
  else Err Undef.

#[export] Instance list_sched : Sched sched_state := {|
  get_se p := deref (fun s => ss_ents s !! p);
  put_se p e := deref (fun s => ss_ents s !! p) ;;; modify (fun s => set_ss_ents (<[p := e]> (ss_ents s)) s);
  get_rq := gets ss_rq;
  put_rq q := modify (set_ss_rq q);
  __enqueue_entity := list_enqueue;
  __dequeue_entity := list_dequeue;
  __pick_last_entity := gets (fun s => default 0 (last (ss_order s)));
|}.

(** ** Facts about the order *)

Definition sorted (key : Z -> Z) (order : list Z) : Prop :=
  forall i j x y, (i < j)%nat -> order !! i = Some x -> order !! j = Some y -> key x <= key y.

Lemma sorted_cons key x l : sorted key (x :: l) <-> Forall (fun y => key x <= key y) l /\ sorted key l.
Proof.
  split.
  - intros Hs. split; [|intros i j y z Hij Hi Hj; apply (Hs (S i) (S j)); [lia|done..]].
    apply Forall_lookup. intros i y Hi. by apply (Hs 0%nat (S i)); [lia|..].
  - intros [Hx Hs] i j y z Hij Hi Hj. destruct j as [|j]; [lia|]. cbn in Hj. destruct i as [|i]; cbn in Hi.
    + injection Hi as <-. by apply (Forall_lookup_1 _ _ _ _ Hx Hj).
    + apply (Hs i j); [lia|done..].
Qed.

Lemma sorted_nil key : sorted key [].
Proof. intros i j x y _ Hi. by rewrite lookup_nil in Hi. Qed.

Lemma sortedb_spec key l : sortedb key l = true <-> sorted key l.
Proof.
  induction l as [|x l IH]; cbn; [split; [intros _; apply sorted_nil|done]|].
  rewrite andb_true_iff, IH, sorted_cons, forallb_forall, Forall_forall.
  split; intros [H1 H2]; (split; [|done]); intros y Hy; specialize (H1 y); rewrite Z.leb_le in *;
    apply H1; by apply list_elem_of_In.
Qed.

Lemma sorted_ext key key' l : (forall p, p ∈ l -> key p = key' p) -> sorted key l -> sorted key' l.
Proof.
  intros Hk Hs i j x y Hij Hi Hj. rewrite <-!Hk by (by eapply list_elem_of_lookup_2). by eapply Hs.
Qed.

(** Another measure that orders the elements in the same way. *)
Lemma sorted_mono key key' l :
  (forall p q, p ∈ l -> q ∈ l -> key p <= key q -> key' p <= key' q) -> sorted key l -> sorted key' l.
Proof.
  intros Hk Hs i j x y Hij Hi Hj. apply Hk; [by eapply list_elem_of_lookup_2..|]. by eapply Hs.
Qed.

Lemma elem_of_place key p l x : x ∈ place key p l <-> x = p \/ x ∈ l.
Proof.
  induction l as [|y l IH]; cbn; [set_solver|]. destruct (key p <? key y); set_solver.
Qed.

Lemma place_perm key p l : place key p l ≡ₚ p :: l.
Proof.
  induction l as [|y l IH]; cbn; [done|]. destruct (key p <? key y); [done|]. rewrite IH. apply Permutation_swap.
Qed.

Lemma place_sorted key p l : sorted key l -> sorted key (place key p l).
Proof.
  induction l as [|y l IH]; cbn; [intros _; by apply sorted_cons; split; [constructor|apply sorted_nil]|].
  intros Hs. pose proof Hs as [Hy Hl]%sorted_cons. destruct (Z.ltb_spec (key p) (key y)) as [Hlt|Hge].
  - apply sorted_cons. split; [|done]. constructor; [lia|]. eapply Forall_impl; [exact Hy|]. cbn. lia.
  - apply sorted_cons. split; [|by apply IH]. apply Forall_forall. intros x [->|Hx]%elem_of_place; [lia|].
    by apply (proj1 (Forall_forall _ _) Hy).
Qed.

Lemma sorted_middle key b x a :
  sorted key (b ++ x :: a) -> Forall (fun y => key y <= key x) b /\ Forall (fun y => key x <= key y) a.
Proof.
  induction b as [|z b IH]; cbn; [intros [Hx _]%sorted_cons; by split|].
  intros [Hz [Hb Ha]%IH]%sorted_cons. split; [|done]. constructor; [|done].
  apply (proj1 (Forall_forall _ _) Hz). set_solver.
Qed.

(** Where an entity goes: between those that are not after it and the others. *)
Lemma place_split key p b a :
  Forall (fun x => key x <= key p) b -> Forall (fun x => key p < key x) a -> place key p (b ++ a) = b ++ p :: a.
Proof.
  intros Hb Ha. induction Hb as [|x b Hx _ IH]; cbn.
  - destruct Ha as [|y a Hy _]; cbn; [done|]. by rewrite (proj2 (Z.ltb_lt _ _) Hy).
  - rewrite (proj2 (Z.ltb_ge _ _)) by done. by rewrite IH.
Qed.

Lemma filter_sorted key (P : Z -> Prop) `{!forall x, Decision (P x)} l : sorted key l -> sorted key (filter P l).
Proof.
  induction l as [|y l IH]; [done|]. intros [Hy Hl]%sorted_cons. rewrite filter_cons. destruct (decide (P y)); [|by apply IH].
  apply sorted_cons. split; [|by apply IH]. apply Forall_forall. intros x [_ Hx]%list_elem_of_filter.
  by apply (proj1 (Forall_forall _ _) Hy).
Qed.

Lemma filter_ne_id (x : Z) (l : list Z) : x ∉ l -> filter (fun y => y <> x) l = l.
Proof.
  induction l as [|z l IH]; intros Hl; [done|]. rewrite filter_cons, decide_True by set_solver. by rewrite IH by set_solver.
Qed.

Lemma filter_split (es1 es2 : list Z) (x : Z) :
  x ∉ es1 -> x ∉ es2 -> filter (fun y => y <> x) (es1 ++ x :: es2) = es1 ++ es2.
Proof.
  intros H1 H2. rewrite filter_app, filter_cons, decide_False by naive_solver. by rewrite !filter_ne_id.
Qed.

Lemma in_order_spec s :
  in_order s = true <-> Forall (fun p => is_Some (ss_ents s !! p)) (ss_order s) /\ sorted (key_of s) (ss_order s) /\
    rb_leftmost (ss_rq s) = first_node (ss_order s).
Proof.
  unfold in_order. rewrite !andb_true_iff, sortedb_spec, Z.eqb_eq, forallb_forall, Forall_forall.
  assert (Hx : forall p, match ss_ents s !! p with Some _ => true | None => false end = true <-> is_Some (ss_ents s !! p)).
  { intros p. destruct (ss_ents s !! p); split; by try intros [? ?]. }
  setoid_rewrite Hx. setoid_rewrite list_elem_of_In. tauto.
Qed.
