(* ===== verification/CfsInv.v ===== *)
(** The run queue over time: an invariant of the specification in [CfsSpec.v],
    and that every operation of the scheduler keeps it.

    [Inv off s]: the timeline has the entities on the run queue but those in
    [off], sorted; its first entry is cached; the list of tasks, their number
    and the load agree with the entities; the buddies wait or run.  Between
    operations only the running entity is off the timeline. *)
From S2P Require Import Prelude Wp Cfs CfsSpec.

(** ** Invariant *)

Definition entity_of (s : sched_state) (p : Z) : Prop := is_Some (ss_ents s !! p).
Definition queued (s : sched_state) (p : Z) : Prop := exists e, ss_ents s !! p = Some e /\ on_rq e = true.
Definition weight_of (s : sched_state) (p : Z) : Z :=
  match ss_ents s !! p with Some e => weight (se_load e) | None => 0 end.
Definition total (f : Z -> Z) (l : list Z) : Z := foldr (fun p n => f p + n) 0 l.

Record Inv (off : gset Z) (s : sched_state) : Prop := {
  inv_nodup : NoDup (ss_order s);
  inv_order : forall p, p ∈ ss_order s <-> queued s p /\ p ∉ off;
  inv_sorted : sorted (key_of s) (ss_order s);
  inv_leftmost : rb_leftmost (ss_rq s) = first_node (ss_order s);
  inv_curr : cfs_curr (ss_rq s) = 0 \/ entity_of s (cfs_curr (ss_rq s));
  inv_addr : forall p, entity_of s p -> 0 < p;
  inv_size : Z.of_nat (size (ss_ents s)) < 2 ^ 64;
  inv_tasks_nodup : NoDup (tasks (ss_rq s));
  inv_tasks : forall p, p ∈ tasks (ss_rq s) <-> queued s p;
  inv_nr : nr_running (ss_rq s) = Z.of_nat (length (tasks (ss_rq s)));
  inv_load : weight (cfs_load (ss_rq s)) = u64 (total (weight_of s) (tasks (ss_rq s)));
  inv_next : cfs_next (ss_rq s) = 0 \/ queued s (cfs_next (ss_rq s));
  inv_last : cfs_last (ss_rq s) = 0 \/ queued s (cfs_last (ss_rq s));
}.

(** ** Arithmetic modulo [2 ^ 64] *)

(** Two numbers that differ by a multiple of the modulus. *)
Lemma s64_mod z : exists k, z = s64 z + k * 2 ^ 64.
Proof.
  exists ((z + 2 ^ 63) / 2 ^ 64). unfold swrap. change (64 - 1) with 63.
  pose proof (Z.div_mod (z + 2 ^ 63) (2 ^ 64)). lia.
Qed.

Lemma u64_mod z : exists k, z = u64 z + k * 2 ^ 64.
Proof. exists (z / 2 ^ 64). unfold uwrap. pose proof (Z.div_mod z (2 ^ 64)). lia. Qed.

Lemma s64_range z : - 2 ^ 63 <= s64 z < 2 ^ 63.
Proof. by apply (swrap_range 64). Qed.

Lemma s64_eq z r k : z = r + k * 2 ^ 64 -> - 2 ^ 63 <= r < 2 ^ 63 -> s64 z = r.
Proof.
  intros -> Hr. unfold swrap. change (64 - 1) with 63.
  replace (r + k * 2 ^ 64 + 2 ^ 63) with (r + 2 ^ 63 + k * 2 ^ 64) by lia.
  rewrite Z.mod_add by lia. rewrite Z.mod_small by lia. lia.
Qed.

Lemma u64_idemp_add a b : u64 (u64 a + b) = u64 (a + b).
Proof. unfold uwrap. by rewrite Zplus_mod_idemp_l. Qed.

Lemma u64_idemp_sub a b : u64 (u64 a - b) = u64 (a - b).
Proof. unfold uwrap. by rewrite Zminus_mod_idemp_l. Qed.

(** ** What most functions leave alone *)

(** [s] and [s'] agree in what the invariant is about; only the entities of
    [vs] may have another virtual runtime. *)
Record same (vs : gset Z) (s s' : sched_state) : Prop := {
  same_order : ss_order s' = ss_order s;
  same_min : min_vruntime (ss_rq s') = min_vruntime (ss_rq s);
  same_leftmost : rb_leftmost (ss_rq s') = rb_leftmost (ss_rq s);
  same_tasks : tasks (ss_rq s') = tasks (ss_rq s);
  same_nr : nr_running (ss_rq s') = nr_running (ss_rq s);
  same_load : weight (cfs_load (ss_rq s')) = weight (cfs_load (ss_rq s));
  same_curr : cfs_curr (ss_rq s') = cfs_curr (ss_rq s);
  same_next : cfs_next (ss_rq s') = 0 \/ cfs_next (ss_rq s') = cfs_next (ss_rq s);
  same_last : cfs_last (ss_rq s') = 0 \/ cfs_last (ss_rq s') = cfs_last (ss_rq s);
  same_on_rq : forall p, on_rq <$> ss_ents s' !! p = on_rq <$> ss_ents s !! p;
  same_weight : forall p, (weight ∘ se_load) <$> ss_ents s' !! p = (weight ∘ se_load) <$> ss_ents s !! p;
  same_vruntime : forall p, p ∉ vs -> vruntime <$> ss_ents s' !! p = vruntime <$> ss_ents s !! p;
}.

#[export] Instance same_refl vs : Reflexive (same vs).
Proof. intros s. split; auto. Qed.

#[export] Instance same_trans vs : Transitive (same vs).
Proof.
  intros s1 s2 s3 H1 H2. split; intros.
  1-7: destruct H1, H2; congruence.
  1-2: destruct H1, H2; intuition congruence.
  - by rewrite (same_on_rq _ _ _ H2), (same_on_rq _ _ _ H1).
  - by rewrite (same_weight _ _ _ H2), (same_weight _ _ _ H1).
  - by rewrite (same_vruntime _ _ _ H2), (same_vruntime _ _ _ H1).
Qed.

Lemma same_mono vs vs' s s' : vs ⊆ vs' -> same vs s s' -> same vs' s s'.
Proof. intros Hv []. split; auto. Qed.

Lemma same_queued vs s s' p : same vs s s' -> queued s' p <-> queued s p.
Proof.
  intros H. pose proof (same_on_rq _ _ _ H p) as E. unfold queued.
  destruct (ss_ents s' !! p), (ss_ents s !! p); naive_solver congruence.
Qed.

Lemma same_entity vs s s' p : same vs s s' -> entity_of s' p <-> entity_of s p.
Proof.
  intros H. pose proof (same_on_rq _ _ _ H p) as E. unfold entity_of.
  destruct (ss_ents s' !! p), (ss_ents s !! p); try done; split; by intros [? ?].
Qed.

Lemma same_weight_of vs s s' p : same vs s s' -> weight_of s' p = weight_of s p.
Proof.
  intros H. pose proof (same_weight _ _ _ H p) as E. unfold weight_of. 
  destruct (ss_ents s' !! p), (ss_ents s !! p); naive_solver.
Qed.

Lemma same_key vs s s' p : same vs s s' -> p ∉ vs -> key_of s' p = key_of s p.
Proof.
  intros H Hp. pose proof (same_vruntime _ _ _ H p Hp) as E. unfold key_of, entity_key. rewrite (same_min _ _ _ H).
  destruct (ss_ents s' !! p), (ss_ents s !! p); naive_solver congruence.
Qed.

Lemma total_ext f g l : (forall p, f p = g p) -> total f l = total g l.
Proof. intros H. unfold total. induction l as [|p l IH]; cbn; [done|]. by rewrite H, IH. Qed.

Lemma same_inv vs off s s' :
  same vs s s' -> (forall p, p ∈ ss_order s -> p ∉ vs) -> Inv off s -> Inv off s'.
Proof.
  intros H Hv []. split; rewrite ?(same_order _ _ _ H), ?(same_tasks _ _ _ H); try done.
  - intros p. by rewrite (same_queued _ _ _ _ H).
  - eapply sorted_ext; [|done]. intros p Hp. symmetry. apply (same_key _ _ _ _ H). auto.
  - by rewrite (same_leftmost _ _ _ H).
  - by rewrite (same_curr _ _ _ H), (same_entity _ _ _ _ H).
  - intros p. rewrite (same_entity _ _ _ _ H). auto.
  - rewrite <-(size_dom (D := gset Z)) in *. replace (dom (ss_ents s')) with (dom (ss_ents s)); [done|].
    apply set_eq. intros p. rewrite !elem_of_dom. symmetry. apply (same_entity _ _ _ _ H).
  - intros p. by rewrite (same_queued _ _ _ _ H).
  - by rewrite (same_nr _ _ _ H).
  - rewrite (same_load _ _ _ H). by rewrite (total_ext _ (weight_of s)) by (intros p; by apply (same_weight_of _ _ _ _ H)).
  - destruct (same_next _ _ _ H) as [-> | ->]; [by left|]. by rewrite (same_queued _ _ _ _ H).
  - destruct (same_last _ _ _ H) as [-> | ->]; [by left|]. by rewrite (same_queued _ _ _ _ H).
Qed.

(** ** Rules *)

Lemma runs_get_se s p e (Q : sched_entity -> sched_state -> Prop) :
  ss_ents s !! p = Some e -> Q e s -> runs (get_se p) s Q.
Proof. intros E HQ. by apply (runs_deref _ _ e). Qed.

Lemma runs_put_se s p e e' (Q : unit -> sched_state -> Prop) :
  ss_ents s !! p = Some e -> Q tt (set_ss_ents (<[p := e']> (ss_ents s)) s) -> runs (put_se p e') s Q.
Proof. intros E HQ. apply runs_bind, (runs_deref _ _ e); [done|]. by apply runs_modify. Qed.

Lemma runs_upd_se s p e f (Q : unit -> sched_state -> Prop) :
  ss_ents s !! p = Some e -> Q tt (set_ss_ents (<[p := f e]> (ss_ents s)) s) -> runs (upd_se p f) s Q.
Proof. intros E HQ. apply runs_bind, (runs_get_se _ _ e); [done|]. by apply (runs_put_se _ _ e). Qed.

Lemma runs_get_rq s (Q : cfs_rq -> sched_state -> Prop) : Q (ss_rq s) s -> runs get_rq s Q.
Proof. apply runs_gets. Qed.

Lemma runs_put_rq s q (Q : unit -> sched_state -> Prop) : Q tt (set_ss_rq q s) -> runs (put_rq q) s Q.
Proof. apply runs_modify. Qed.

Lemma runs_upd_rq s f (Q : unit -> sched_state -> Prop) : Q tt (set_ss_rq (f (ss_rq s)) s) -> runs (upd_rq f) s Q.
Proof. intros HQ. by apply runs_bind, runs_get_rq, runs_put_rq. Qed.

(** Changes of an entity or of the run queue that do not matter. *)
Definition plain_se (f : sched_entity -> sched_entity) : Prop :=
  forall e, on_rq (f e) = on_rq e /\ weight (se_load (f e)) = weight (se_load e).
Definition plain_rq (f : cfs_rq -> cfs_rq) : Prop :=
  forall q, min_vruntime (f q) = min_vruntime q /\ rb_leftmost (f q) = rb_leftmost q /\ tasks (f q) = tasks q /\
    nr_running (f q) = nr_running q /\ weight (cfs_load (f q)) = weight (cfs_load q) /\ cfs_curr (f q) = cfs_curr q /\
    (cfs_next (f q) = 0 \/ cfs_next (f q) = cfs_next q) /\ (cfs_last (f q) = 0 \/ cfs_last (f q) = cfs_last q).

Lemma same_put_se vs s p e e' :
  ss_ents s !! p = Some e -> on_rq e' = on_rq e -> weight (se_load e') = weight (se_load e) ->
  p ∈ vs \/ vruntime e' = vruntime e -> same vs s (set_ss_ents (<[p := e']> (ss_ents s)) s).
Proof.
  intros E Ho Hw Hv. split; cbn; auto; intros x; intros; destruct (decide (x = p)) as [->|Hx];
    rewrite ?lookup_insert_eq, ?lookup_insert_ne, ?E by done; cbn; try done.
  - by rewrite Ho.
  - by rewrite Hw.
  - destruct Hv as [|Hv]; [done|by rewrite Hv].
Qed.

Lemma same_put_rq vs s f : plain_rq f -> same vs s (set_ss_rq (f (ss_rq s)) s).
Proof. intros Hf. destruct (Hf (ss_rq s)) as (?&?&?&?&?&?&?&?). by split. Qed.

(** [m] runs where the entities [ps] exist, and changes only what does not
    matter. *)
Definition keeps {A} (vs : gset Z) (ps : list Z) (m : M sched_state A) : Prop :=
  forall s, Forall (entity_of s) ps -> runs m s (fun _ s' => same vs s s').

Lemma same_entities vs s s' ps : same vs s s' -> Forall (entity_of s) ps -> Forall (entity_of s') ps.
Proof. intros H Hp. eapply Forall_impl; [exact Hp|]. intros p. by rewrite (same_entity _ _ _ _ H). Qed.

Lemma keeps_ret {A} vs ps (a : A) : keeps vs ps (ret a).
Proof. intros s _. by apply runs_ret. Qed.

Lemma keeps_bind {A B} vs ps (m : M sched_state A) (k : A -> M sched_state B) :
  keeps vs ps m -> (forall a, keeps vs ps (k a)) -> keeps vs ps (bind m k).
Proof.
  intros Hm Hk s Hs. apply runs_bind. apply (runs_mono _ _ _ _ (Hm s Hs)). intros a s' H. cbn in H.
  apply (runs_mono _ _ _ _ (Hk a s' (same_entities _ _ _ _ H Hs))). intros _ s'' H'. by transitivity s'.
Qed.

Lemma keeps_if {A} vs ps (b : bool) (m1 m2 : M sched_state A) :
  keeps vs ps m1 -> keeps vs ps m2 -> keeps vs ps (if b then m1 else m2).
Proof. by destruct b. Qed.

Lemma keeps_get_rq vs ps : keeps vs ps get_rq.
Proof. intros s _. by apply runs_get_rq. Qed.

Lemma keeps_get_se vs ps p : p ∈ ps -> keeps vs ps (get_se p).
Proof.
  intros Hp s Hs. destruct (proj1 (Forall_forall _ _) Hs p Hp) as [e E]. by apply (runs_get_se _ _ e).
Qed.

Lemma keeps_upd_se vs ps p f :
  p ∈ ps -> plain_se f -> p ∈ vs \/ (forall e, vruntime (f e) = vruntime e) -> keeps vs ps (upd_se p f).
Proof.
  intros Hp Hf Hv s Hs. destruct (proj1 (Forall_forall _ _) Hs p Hp) as [e E]. apply (runs_upd_se _ _ e _ _ E).
  destruct (Hf e). apply (same_put_se _ _ _ e); naive_solver.
Qed.

Lemma keeps_upd_rq vs ps f : plain_rq f -> keeps vs ps (upd_rq f).
Proof. intros Hf s Hs. apply runs_upd_rq. by apply same_put_rq. Qed.

Lemma weight_calc_delta d w lw : weight (calc_delta_mine d w lw).2 = weight lw.
Proof. unfold calc_delta_mine. cbn. by destruct (inv_weight lw =? 0). Qed.

(** The weighted time of an entity. *)
Definition delta_fair (delta : Z) (e : sched_entity) : Z :=
  if negb (weight (se_load e) =? NICE_0_LOAD) then (calc_delta_mine delta NICE_0_LOAD (se_load e)).1 else delta.

Lemma runs_calc_delta_fair s p e delta :
  ss_ents s !! p = Some e -> runs (calc_delta_fair delta p) s (fun d s' => d = delta_fair delta e /\ same ∅ s s').
Proof.
  intros E. unfold calc_delta_fair, delta_fair. apply runs_bind, (runs_get_se _ _ e); [done|].
  case_match; [|by apply runs_ret]. pose proof (weight_calc_delta delta NICE_0_LOAD (se_load e)) as Hw.
  destruct (calc_delta_mine delta NICE_0_LOAD (se_load e)) as [d lw]. cbn in Hw |- *.
  apply runs_bind, (runs_put_se _ _ e); [done|]. apply runs_ret. split; [done|].
  apply (same_put_se _ _ _ e); auto.
Qed.

Lemma keeps_calc_delta_fair vs ps delta p : p ∈ ps -> keeps vs ps (calc_delta_fair delta p).
Proof.
  intros Hp s Hs. destruct (proj1 (Forall_forall _ _) Hs p Hp) as [e E].
  apply (runs_mono _ _ _ _ (runs_calc_delta_fair _ _ _ delta E)). intros d s' [_ H]. by eapply same_mono, H.
Qed.

Create HintDb keeps.
#[export] Hint Resolve keeps_ret keeps_get_rq keeps_get_se keeps_calc_delta_fair : keeps.
#[export] Hint Extern 1 (_ ∈ _) => set_solver : keeps.
#[export] Hint Extern 1 (plain_rq _) => intros ?; cbn; auto 12 : keeps.
#[export] Hint Extern 1 (plain_se _) => intros ?; cbn; auto : keeps.
#[export] Hint Extern 1 (_ \/ (forall e, vruntime _ = vruntime e)) => first [left; set_solver|right; reflexivity] : keeps.

Ltac keeps_go :=
  cbv zeta; repeat (first [ solve [eauto with keeps] | apply keeps_upd_se; [auto with keeps..]
    | apply keeps_upd_rq; [auto with keeps] | apply keeps_bind; [|intros ?] | apply keeps_if | case_match ]; cbv zeta).

Section Ops.
  Context (sys : sysctl).

Lemma keeps_sched_slice vs ps p : p ∈ ps -> keeps vs ps (sched_slice sys p).
Proof.
  intros Hp s Hs. destruct (proj1 (Forall_forall _ _) Hs p Hp) as [e E]. unfold sched_slice.
  apply runs_bind, runs_get_rq. apply runs_bind, (runs_get_se _ _ e); [done|].
  destruct (negb (on_rq e)); [by apply runs_ret|].
  destruct (calc_delta_mine _ _ _) as [d lw] eqn:Ed. apply runs_bind, runs_put_rq, runs_ret.
  apply (f_equal (fun x => weight x.2)) in Ed. cbn [snd] in Ed. rewrite weight_calc_delta in Ed. split; cbn; auto.
Qed.

Lemma keeps_sched_vslice vs ps p : p ∈ ps -> keeps vs ps (sched_vslice sys p).
Proof. intros Hp. apply keeps_bind; [by apply keeps_sched_slice|]. intros a. by apply keeps_calc_delta_fair. Qed.
#[local] Hint Resolve keeps_sched_slice keeps_sched_vslice : keeps.

Lemma keeps_place_entity vs ps p initial : p ∈ ps -> p ∈ vs -> keeps vs ps (place_entity sys p initial).
Proof. intros Hp Hv. unfold place_entity. keeps_go. Qed.

Lemma keeps_update_stats vs ps p : p ∈ ps -> keeps vs ps (update_stats_curr_start p).
Proof. intros Hp. unfold update_stats_curr_start. keeps_go. Qed.

Lemma keeps_resched vs ps : keeps vs ps resched_task.
Proof. unfold resched_task. keeps_go. Qed.

Lemma keeps_clear_buddies vs ps p : keeps vs ps (clear_buddies p).
Proof.
  unfold clear_buddies, __clear_buddies. apply keeps_if; [auto with keeps|].
  apply keeps_bind; [|intros []]; apply keeps_upd_rq; intros q; case_match; cbn; auto 12.
Qed.

Lemma keeps_wakeup_gran vs ps p1 p2 : p1 ∈ ps -> p2 ∈ ps -> keeps vs ps (wakeup_gran sys p1 p2).
Proof. intros H1 H2. unfold wakeup_gran, adaptive_gran. keeps_go. Qed.
#[local] Hint Resolve keeps_place_entity keeps_update_stats keeps_resched keeps_clear_buddies keeps_wakeup_gran : keeps.

Lemma keeps_wakeup_preempt vs ps p1 p2 : p1 ∈ ps -> p2 ∈ ps -> keeps vs ps (wakeup_preempt_entity sys p1 p2).
Proof. intros H1 H2. unfold wakeup_preempt_entity. keeps_go. Qed.
#[local] Hint Resolve keeps_wakeup_preempt : keeps.

(** ** The clock of the run queue *)

Definition WINDOW : Z := 2 ^ 61.

(** The waiting entities and the running one are not too far from the clock. *)
Record window (s : sched_state) : Prop := {
  window_order : forall p, p ∈ ss_order s -> - WINDOW <= key_of s p <= WINDOW;
  window_curr : cfs_curr (ss_rq s) <> 0 -> - WINDOW <= key_of s (cfs_curr (ss_rq s)) <= WINDOW;
}.

(** The clock went on by at most [n] windows: nothing else but the times
    changed. *)
Record later (n : Z) (s s' : sched_state) : Prop := {
  later_curr : cfs_curr (ss_rq s') = cfs_curr (ss_rq s);
  later_on_rq : forall p, on_rq <$> ss_ents s' !! p = on_rq <$> ss_ents s !! p;
  later_weight : forall p, weight_of s' p = weight_of s p;
  later_min : 0 <= s64 (min_vruntime (ss_rq s') - min_vruntime (ss_rq s)) <= n * WINDOW;
}.

Lemma s64_add n m a b c :
  0 <= s64 (b - a) <= n * WINDOW -> 0 <= s64 (c - b) <= m * WINDOW -> n + m < 4 -> 0 <= s64 (c - a) <= (n + m) * WINDOW.
Proof.
  unfold WINDOW. intros H1 H2 Hnm. destruct (s64_mod (b - a)) as [k1 E1]. destruct (s64_mod (c - b)) as [k2 E2].
  rewrite (s64_eq (c - a) (s64 (b - a) + s64 (c - b)) (k1 + k2)); lia.
Qed.

Lemma same_later vs s s' : same vs s s' -> later 0 s s'.
Proof.
  intros H. split; [apply H|apply H|intros p; by apply (same_weight_of _ _ _ _ H)|].
  rewrite (same_min _ _ _ H), Z.sub_diag. by vm_compute.
Qed.

Lemma later_trans n m s1 s2 s3 : later n s1 s2 -> later m s2 s3 -> n + m < 4 -> later (n + m) s1 s3.
Proof.
  intros H1 H2 Hnm. split; intros.
  - by rewrite (later_curr _ _ _ H2), (later_curr _ _ _ H1).
  - by rewrite (later_on_rq _ _ _ H2), (later_on_rq _ _ _ H1).
  - by rewrite (later_weight _ _ _ H2), (later_weight _ _ _ H1).
  - eapply s64_add; [apply H1|apply H2|done].
Qed.

Lemma key_shift s s' p d :
  ss_ents s' !! p = ss_ents s !! p -> s64 (min_vruntime (ss_rq s') - min_vruntime (ss_rq s)) = d ->
  - 2 ^ 63 <= key_of s p - d < 2 ^ 63 -> entity_of s p -> key_of s' p = key_of s p - d.
Proof.
  intros E Hd Hr [e He]. unfold key_of, entity_key in *. rewrite E, He in *.
  destruct (s64_mod (min_vruntime (ss_rq s') - min_vruntime (ss_rq s))) as [k1 E1].
  destruct (s64_mod (vruntime e - min_vruntime (ss_rq s))) as [k2 E2]. rewrite Hd in E1.
  apply (s64_eq _ _ (k2 - k1)); lia.
Qed.

(** The entity at the front, if there is one. *)
Lemma inv_front off s p order : Inv off s -> ss_order s = p :: order ->
  exists e, ss_ents s !! p = Some e /\ rb_leftmost (ss_rq s) = run_node p /\ run_node p <> 0 /\ rb_entry (run_node p) = p.
Proof.
  intros H E. destruct (proj1 (inv_order _ _ H p)) as [[e [He _]] _]; [rewrite E; set_solver|].
  exists e. rewrite (inv_leftmost _ _ H), E. pose proof (inv_addr _ _ H p) as Hp. unfold entity_of in Hp.
  rewrite He in Hp. specialize (Hp ltac:(done)). unfold run_node, rb_entry. cbn. split_and!; [done|done|lia|lia].
Qed.

(** What [update_min_vruntime] compares the clock with. *)
Definition oldest (s : sched_state) : Z :=
  let v := match ss_ents s !! cfs_curr (ss_rq s) with Some c => vruntime c | None => 0 end in
  match ss_order s with
  | [] => if cfs_curr (ss_rq s) =? 0 then min_vruntime (ss_rq s) else v
  | p :: _ =>
      let w := match ss_ents s !! p with Some e => vruntime e | None => 0 end in
      if cfs_curr (ss_rq s) =? 0 then w else min_vruntime_of v w
  end.

Lemma update_min_state off s (Q : unit -> sched_state -> Prop) : Inv off s ->
  Q tt (set_ss_rq (set_min_vruntime (max_vruntime (min_vruntime (ss_rq s)) (oldest s)) (ss_rq s)) s) ->
  runs update_min_vruntime s Q.
Proof.
  intros H HQ. unfold update_min_vruntime, oldest in *. apply runs_bind, runs_get_rq.
  assert (Hc : cfs_curr (ss_rq s) =? 0 = true \/ exists c, cfs_curr (ss_rq s) =? 0 = false /\ ss_ents s !! cfs_curr (ss_rq s) = Some c).
  { destruct (inv_curr _ _ H) as [->|[c Ec]]; [by left|]. right. exists c. split; [|done].
    pose proof (inv_addr _ _ H (cfs_curr (ss_rq s)) (mk_is_Some _ _ Ec)). apply Z.eqb_neq. lia. }
  destruct Hc as [Hc|(c & Hc & Ec)]; rewrite ?Ec, Hc in *; cbn [negb]; apply runs_bind.
  - apply runs_ret, runs_bind. destruct (ss_order s) as [|p order] eqn:Eo.
    + rewrite (inv_leftmost _ _ H), Eo. cbn. apply runs_ret, runs_put_rq, HQ.
    + destruct (inv_front _ _ _ _ H Eo) as (e & He & -> & Hn & Hr). rewrite (proj2 (Z.eqb_neq _ _) Hn). cbn [negb].
      apply runs_bind, (runs_get_se _ _ e); [by rewrite Hr|]. rewrite He in HQ. by apply runs_ret, runs_put_rq.
  - apply runs_bind, (runs_get_se _ _ c); [done|]. apply runs_ret, runs_bind. destruct (ss_order s) as [|p order] eqn:Eo.
    + rewrite (inv_leftmost _ _ H), Eo. cbn. apply runs_ret, runs_put_rq, HQ.
    + destruct (inv_front _ _ _ _ H Eo) as (e & He & -> & Hn & Hr). rewrite (proj2 (Z.eqb_neq _ _) Hn). cbn [negb].
      apply runs_bind, (runs_get_se _ _ e); [by rewrite Hr|]. rewrite He in HQ. by apply runs_ret, runs_put_rq.
Qed.

Lemma key_of_entity s p e : ss_ents s !! p = Some e -> key_of s p = s64 (vruntime e - min_vruntime (ss_rq s)).
Proof. intros E. unfold key_of. by rewrite E. Qed.

(** The difference of two virtual runtimes in the window. *)
Lemma key_diff s p e q c :
  ss_ents s !! p = Some e -> ss_ents s !! q = Some c -> - WINDOW <= key_of s p <= WINDOW -> - WINDOW <= key_of s q <= WINDOW ->
  s64 (vruntime e - vruntime c) = key_of s p - key_of s q.
Proof.
  intros He Hc. rewrite (key_of_entity _ _ _ He), (key_of_entity _ _ _ Hc).
  destruct (s64_mod (vruntime e - min_vruntime (ss_rq s))) as [k1 E1].
  destruct (s64_mod (vruntime c - min_vruntime (ss_rq s))) as [k2 E2].
  unfold WINDOW. intros. apply (s64_eq _ _ (k1 - k2)); lia.
Qed.

(** The clock does not pass an entity. *)
Lemma oldest_key off s : Inv off s -> window s -> 
  let f := s64 (oldest s - min_vruntime (ss_rq s)) in
  f <= WINDOW /\ (forall p, p ∈ ss_order s -> f <= key_of s p) /\ (cfs_curr (ss_rq s) <> 0 -> f <= key_of s (cfs_curr (ss_rq s))).
Proof.
  intros H [Wo Wc] f. subst f. unfold oldest. destruct (ss_order s) as [|p order] eqn:Eo.
  - destruct (Z.eqb_spec (cfs_curr (ss_rq s)) 0) as [Hc|Hc].
    + rewrite Z.sub_diag, (s64_eq 0 0 0) by lia. split_and!; [by vm_compute|set_solver|done].
    + destruct (inv_curr _ _ H) as [|[c Ec]]; [done|]. rewrite Ec, <-(key_of_entity _ _ _ Ec). specialize (Wc Hc).
      split_and!; [lia|set_solver|lia].
  - destruct (inv_front _ _ _ _ H Eo) as (e & He & _). rewrite He. pose proof (inv_sorted _ _ H) as Hs.
    rewrite Eo in Hs. apply sorted_cons in Hs as [Hs _]. pose proof (Wo p ltac:(set_solver)) as Wp.
    assert (Hmin : forall x, x ∈ p :: order -> key_of s p <= key_of s x).
    { intros x [->|Hx]%elem_of_cons; [lia|]. by apply (proj1 (Forall_forall _ _) Hs). }
    destruct (Z.eqb_spec (cfs_curr (ss_rq s)) 0) as [Hc|Hc].
    + rewrite <-(key_of_entity _ _ _ He). split_and!; [lia|done|done].
    + destruct (inv_curr _ _ H) as [|[c Ec]]; [done|]. rewrite Ec. specialize (Wc Hc). unfold min_vruntime_of.
      rewrite (key_diff _ _ _ _ _ He Ec) by done.
      destruct (Z.ltb_spec (key_of s p - key_of s (cfs_curr (ss_rq s))) 0);
        [rewrite <-(key_of_entity _ _ _ He)|rewrite <-(key_of_entity _ _ _ Ec)]; split_and!; try lia.
      * intros x Hx. by apply Hmin.
      * intros x Hx. specialize (Hmin x Hx). lia.
Qed.

Lemma runs_update_min off s : Inv off s -> window s ->
  runs update_min_vruntime s (fun _ s' => Inv off s' /\ window s' /\ later 1 s s' /\ ss_ents s' = ss_ents s).
Proof.
  intros H W. apply (update_min_state off); [done|]. pose proof (oldest_key off s H W) as (Hf & Ho & Hc). cbv zeta in *.
  set (s' := set_ss_rq _ s).
  assert (Hd : exists d, 0 <= d <= WINDOW /\ s64 (min_vruntime (ss_rq s') - min_vruntime (ss_rq s)) = d /\
    (forall p, p ∈ ss_order s -> d = 0 \/ d <= key_of s p) /\
    (cfs_curr (ss_rq s) <> 0 -> d = 0 \/ d <= key_of s (cfs_curr (ss_rq s)))).
  { cbn. unfold max_vruntime. destruct (Z.ltb_spec 0 (s64 (oldest s - min_vruntime (ss_rq s)))).
    - eexists. split_and!; [|done|..]; [lia|lia|auto..].
    - exists 0. rewrite Z.sub_diag. split_and!; auto; by vm_compute. }
  destruct Hd as (d & Hd & Ed & Ho' & Hc'). destruct W as [Wo Wc].
  assert (Hk : forall p, entity_of s p -> - WINDOW <= key_of s p <= WINDOW -> key_of s' p = key_of s p - d).
  { intros p Hp Hw. apply key_shift; [done|done| |done]. unfold WINDOW in *. lia. }
  assert (He : forall p, p ∈ ss_order s -> entity_of s p).
  { intros p Hp. apply (inv_order _ _ H) in Hp as [[e [Ee _]] _]. by exists e. }
  split_and!.
  - destruct H. split; try done. cbn. eapply sorted_mono; [|exact inv_sorted0].
    intros p q Hp Hq Hle. rewrite !Hk by auto. lia.
  - split; cbn.
    + intros p Hp. rewrite Hk by auto. destruct (Ho' p Hp); specialize (Wo p Hp); unfold WINDOW in *; lia.
    + intros Hn. destruct (inv_curr _ _ H) as [|He']; [done|]. rewrite Hk by auto.
      destruct (Hc' Hn); specialize (Wc Hn); unfold WINDOW in *; lia.
  - split; try done. rewrite Ed. lia.
  - done.
Qed.

(** ** The time of the running entity *)

(** What [update_curr] is going to add to its virtual runtime. *)
Definition charge (s : sched_state) : Z :=
  match ss_ents s !! cfs_curr (ss_rq s) with
  | Some c => delta_fair (u64 (clock_task (ss_rq s) - exec_start c)) c
  | None => 0
  end.

(** The window holds, and will hold after [update_curr]. *)
Definition accountable (s : sched_state) : bool :=
  let inside z := (- WINDOW <=? z) && (z <=? WINDOW) in
  let curr := cfs_curr (ss_rq s) in
  forallb (fun p => inside (key_of s p)) (ss_order s) &&
  ((curr =? 0) || inside (key_of s curr) && inside (key_of s curr + charge s)).

Lemma delta_fair_nonneg d e : 0 <= d -> 0 <= delta_fair d e.
Proof.
  intros Hd. unfold delta_fair. case_match; [|done]. unfold calc_delta_mine. cbn [fst]. apply Z.min_glb; [|by vm_compute].
  unfold SRR. case_match; apply Z.shiftr_nonneg, (uwrap_range 64); lia.
Qed.

Lemma accountable_window s : accountable s = true -> window s /\
  (cfs_curr (ss_rq s) <> 0 -> - WINDOW <= key_of s (cfs_curr (ss_rq s)) + charge s <= WINDOW).
Proof.
  unfold accountable. cbv zeta. rewrite andb_true_iff, orb_true_iff, andb_true_iff, forallb_forall, Z.eqb_eq.
  intros [Ho Hc]. rewrite !andb_true_iff, !Z.leb_le in Hc. split; [split|].
  - intros p Hp%list_elem_of_In. specialize (Ho p Hp). rewrite andb_true_iff, !Z.leb_le in Ho. lia.
  - intros Hn. destruct Hc as [|[? _]]; [done|lia].
  - intros Hn. destruct Hc as [|[_ ?]]; [done|lia].
Qed.

Lemma key_add s p e d :
  ss_ents s !! p = Some e -> - 2 ^ 63 <= key_of s p + d < 2 ^ 63 ->
  s64 (u64 (vruntime e + d) - min_vruntime (ss_rq s)) = key_of s p + d.
Proof.
  intros E Hr. rewrite (key_of_entity _ _ _ E) in *.
  destruct (s64_mod (vruntime e - min_vruntime (ss_rq s))) as [k1 E1]. destruct (u64_mod (vruntime e + d)) as [k2 E2].
  apply (s64_eq _ _ (k1 - k2)); lia.
Qed.

(** The window after a change of the running entity. *)
Lemma same_window s s' vs :
  same vs s s' -> vs ⊆ {[cfs_curr (ss_rq s)]} -> (forall p, p ∈ ss_order s -> p ∉ vs) -> window s ->
  (cfs_curr (ss_rq s) <> 0 -> - WINDOW <= key_of s' (cfs_curr (ss_rq s)) <= WINDOW) -> window s'.
Proof.
  intros H Hv Ho [Wo Wc] Hc. split; rewrite ?(same_order _ _ _ H), ?(same_curr _ _ _ H); [|done].
  intros p Hp. rewrite (same_key _ _ _ _ H) by auto. auto.
Qed.

Lemma runs_raw_update_curr off s c d :
  let curr := cfs_curr (ss_rq s) in
  Inv off s -> window s -> curr ∈ off -> curr <> 0 -> ss_ents s !! curr = Some c ->
  - WINDOW <= key_of s curr + delta_fair d c <= WINDOW ->
  runs (__update_curr curr d) s (fun _ s' => Inv off s' /\ window s' /\ later 1 s s').
Proof.
  intros curr H W Hoff Hn Ec Hd. unfold __update_curr.
  assert (Ho : forall p, p ∈ ss_order s -> p ∉ ({[curr]} : gset Z)).
  { intros p Hp. apply (inv_order _ _ H) in Hp as [_ Hp]. set_solver. }
  set (c1 := set_sum_exec (u64 (sum_exec_runtime c + d)) c).
  apply runs_bind, (runs_upd_se _ _ c); [done|]. set (s1 := set_ss_ents _ s).
  assert (S1 : same ∅ s s1) by (apply (same_put_se _ _ _ c); auto).
  assert (Ec1 : ss_ents s1 !! curr = Some c1) by apply lookup_insert_eq.
  apply runs_bind. apply (runs_mono _ _ _ _ (runs_calc_delta_fair s1 curr c1 d Ec1)). intros dw s2 [-> S2].
  change (delta_fair d c1) with (delta_fair d c). assert (S02 : same ∅ s s2) by (by transitivity s1).
  assert (exists c2, ss_ents s2 !! curr = Some c2) as [c2 Ec2] by (apply (same_entity _ _ _ _ S02); by exists c).
  apply runs_bind, (runs_upd_se _ _ c2); [done|]. set (s3 := set_ss_ents _ s2).
  assert (S3 : same {[curr]} s2 s3) by (apply (same_put_se _ _ _ c2); [done..|left; set_solver]).
  assert (S : same {[curr]} s s3) by (transitivity s2; [by eapply same_mono, S02; set_solver|done]).
  assert (Hk : key_of s3 curr = key_of s curr + delta_fair d c).
  { rewrite <-(same_key _ _ _ curr S02) in * by set_solver.
    rewrite (key_of_entity s3 curr _ (lookup_insert_eq _ _ _)).
    apply (key_add s2); [done|]. unfold WINDOW in *. lia. }
  apply (runs_mono _ _ _ _ (runs_update_min off s3 (same_inv _ _ _ _ S Ho H)
    (same_window _ _ _ S ltac:(done) Ho W ltac:(intros _; fold curr; rewrite Hk; done)))).
  intros [] s4 (H4 & W4 & L4 & _). split_and!; [done|done|]. by apply (later_trans 0 1 s s3); [eapply same_later, S|..].
Qed.

Lemma runs_update_curr off s :
  Inv off s -> cfs_curr (ss_rq s) = 0 \/ cfs_curr (ss_rq s) ∈ off -> accountable s = true ->
  runs update_curr s (fun _ s' => Inv off s' /\ window s' /\ later 1 s s').
Proof.
  intros H Hoff [W Hd]%accountable_window. unfold update_curr. apply runs_bind, runs_get_rq. cbv zeta.
  assert (L0 : later 1 s s) by (split; try done; rewrite Z.sub_diag; by vm_compute).
  destruct (Z.eqb_spec (cfs_curr (ss_rq s)) 0) as [|Hn]; [by apply runs_ret|].
  destruct (inv_curr _ _ H) as [|[c Ec]]; [done|]. apply runs_bind, (runs_get_se _ _ c); [done|].
  case_match; [by apply runs_ret|]. unfold charge in Hd. rewrite Ec in Hd. apply runs_bind.
  destruct Hoff as [|Hoff]; [done|].
  apply (runs_mono _ _ _ _ (runs_raw_update_curr off s c _ H W Hoff Hn Ec (Hd Hn))). intros [] s1 (H1 & W1 & L1).
  assert (exists c1, ss_ents s1 !! cfs_curr (ss_rq s) = Some c1) as [c1 Ec1].
  { pose proof (later_on_rq _ _ _ L1 (cfs_curr (ss_rq s))) as E. rewrite Ec in E. destruct (ss_ents s1 !! _) as [c1|]; [by exists c1|done]. }
  apply (runs_upd_se _ _ c1); [done|]. set (s2 := set_ss_ents _ s1).
  assert (S2 : same ∅ s1 s2) by (apply (same_put_se _ _ _ c1); auto).
  split_and!; [by eapply same_inv, H1; [exact S2|set_solver]| |].
  - eapply same_window; [exact S2|set_solver|set_solver|done|]. rewrite (same_key _ _ _ _ S2) by set_solver. apply W1.
  - apply (later_trans 1 0 s s1); [done|by eapply same_later|done].
Qed.
End Ops.
