(* ===== verification/CfsOps.v ===== *)
(** The operations of the scheduler on the specification: in every state that
    the invariant describes they run without a fault and keep it, as long as
    they are called in turn and no virtual runtime is too far from the clock. *)
From S2P Require Import Prelude Wp Cfs CfsSpec CfsInv.

(** ** Effects *)

Definition on_of (s : sched_state) (p : Z) : option bool := on_rq <$> ss_ents s !! p.
Definition mark (p : Z) (b : bool) (on : Z -> option bool) (x : Z) : option bool := if x =? p then Some b else on x.

(** From [s0] to [s] the clock went on by at most [n] windows, weights did not
    change, [c] runs and [on] tells what is on the run queue. *)
Record after (n : Z) (s0 : sched_state) (c : Z) (on : Z -> option bool) (s : sched_state) : Prop := {
  after_curr : cfs_curr (ss_rq s) = c;
  after_on : forall p, on_of s p = on p;
  after_weight : forall p, weight_of s p = weight_of s0 p;
  after_min : 0 <= s64 (min_vruntime (ss_rq s) - min_vruntime (ss_rq s0)) <= n * WINDOW;
}.

Lemma after_refl s : after 0 s (cfs_curr (ss_rq s)) (on_of s) s.
Proof. split; try done. by rewrite Z.sub_diag. Qed.

Lemma after_later n m s0 c on s s' : after n s0 c on s -> later m s s' -> n + m < 4 -> after (n + m) s0 c on s'.
Proof.
  intros H L Hnm. split; intros.
  - by rewrite (later_curr _ _ _ L), (after_curr _ _ _ _ _ H).
  - unfold on_of. rewrite (later_on_rq _ _ _ L). apply (after_on _ _ _ _ _ H).
  - by rewrite (later_weight _ _ _ L), (after_weight _ _ _ _ _ H).
  - eapply s64_add; [apply H|apply L|done].
Qed.

Lemma after_same n vs s0 c on s s' : after n s0 c on s -> same vs s s' -> n < 4 -> after n s0 c on s'.
Proof. intros H S Hn. rewrite <-(Z.add_0_r n). eapply after_later; [done|by eapply same_later|lia]. Qed.

Lemma after_trans n m s0 c on s c' on' on'' s' :
  after n s0 c on s -> after m s c' on' s' -> n + m < 4 -> (forall x, on' x = on'' x) -> after (n + m) s0 c' on'' s'.
Proof.
  intros H H' Hnm Ho. split; intros.
  - apply H'.
  - by rewrite (after_on _ _ _ _ _ H').
  - by rewrite (after_weight _ _ _ _ _ H'), (after_weight _ _ _ _ _ H).
  - eapply s64_add; [apply H|apply H'|done].
Qed.

Lemma queued_on s p : queued s p <-> on_of s p = Some true.
Proof. unfold queued, on_of. destruct (ss_ents s !! p) as [e|]; cbn; naive_solver congruence. Qed.

Lemma entity_on s p : entity_of s p <-> is_Some (on_of s p).
Proof. unfold entity_of, on_of. by rewrite fmap_is_Some. Qed.

(** The entities that are off the timeline matter only while they are on the
    run queue. *)
Lemma inv_off off off' s : (forall p, queued s p -> p ∈ off <-> p ∈ off') -> Inv off s -> Inv off' s.
Proof. intros Ho []. split; try done. intros p. rewrite inv_order. naive_solver. Qed.

(** ** The timeline *)

Lemma after_timeline s n order :
  after 0 s (cfs_curr (ss_rq s)) (on_of s) (mk_ss (set_leftmost n (ss_rq s)) order (ss_ents s)).
Proof. split; [done..|]. apply (after_min _ _ _ _ _ (after_refl s)). Qed.

Lemma inv_timeline off off' s order :
  Inv off s -> NoDup order -> (forall p, p ∈ order <-> queued s p /\ p ∉ off') -> sorted (key_of s) order ->
  Inv off' (mk_ss (set_leftmost (first_node order) (ss_rq s)) order (ss_ents s)).
Proof. intros [] Hd Ho Hs. by split. Qed.

Lemma runs_enqueue off s p :
  Inv off s -> queued s p -> p ∈ off ->
  runs (__enqueue_entity p) s (fun _ s' => Inv (off ∖ {[p]}) s' /\ after 0 s (cfs_curr (ss_rq s)) (on_of s) s').
Proof.
  intros H Hq Hp. assert (Hn : p ∉ ss_order s) by (rewrite (inv_order _ _ H); naive_solver). cbn. unfold list_enqueue.
  assert (Hi : in_order s = true).
  { apply in_order_spec. split_and!; [|apply H|apply H]. apply Forall_forall. intros x Hx.
    apply (inv_order _ _ H) in Hx as [[e [E _]] _]. by exists e. }
  assert (He : is_Some (ss_ents s !! p)) by (destruct Hq as [e [E _]]; by exists e).
  eexists _, _. split; [rewrite Hi, bool_decide_eq_false_2, bool_decide_eq_true_2 by done; reflexivity|].
  split; [|apply after_timeline]. apply (inv_timeline off); [done|..].
  - rewrite place_perm, NoDup_cons. split; [done|apply H].
  - intros x. rewrite elem_of_place, (inv_order _ _ H), elem_of_difference, elem_of_singleton.
    destruct (decide (x = p)) as [->|]; naive_solver.
  - apply place_sorted, H.
Qed.

Lemma runs_dequeue off s p :
  Inv off s -> queued s p -> p ∉ off ->
  runs (__dequeue_entity p) s (fun _ s' => Inv (off ∪ {[p]}) s' /\ after 0 s (cfs_curr (ss_rq s)) (on_of s) s' /\
    cfs_next (ss_rq s') = cfs_next (ss_rq s) /\ cfs_last (ss_rq s') = cfs_last (ss_rq s) /\
    (window s -> window s')).
Proof.
  intros H Hq Hp. cbn. unfold list_dequeue.
  assert (Hin : p ∈ ss_order s) by (by apply (inv_order _ _ H)).
  assert (He : is_Some (ss_ents s !! p)) by (destruct Hq as [e [E _]]; by exists e).
  eexists _, _. split; [rewrite (inv_leftmost _ _ H), Z.eqb_refl, !bool_decide_eq_true_2 by done; reflexivity|].
  split_and!; [|apply after_timeline|done|done|].
  - apply (inv_timeline off); [done|apply NoDup_filter, H| |apply filter_sorted, H].
    intros x. rewrite list_elem_of_filter, (inv_order _ _ H), elem_of_union, elem_of_singleton. naive_solver.
  - intros [Wo Wc]. split; [|exact Wc]. intros x [_ Hx]%list_elem_of_filter. by apply Wo.
Qed.

(** ** Accounting *)

Lemma on_mark s p e b x :
  ss_ents s !! p = Some e -> on_rq <$> (<[p := set_on_rq b e]> (ss_ents s)) !! x = mark p b (on_of s) x.
Proof.
  intros E. unfold mark, on_of. destruct (Z.eqb_spec x p) as [->|Hx]; [by rewrite lookup_insert_eq|].
  by rewrite lookup_insert_ne.
Qed.

(** The entity [p] is marked, and the tasks, their number and the load are
    adjusted. *)
Definition accounted (s : sched_state) (p : Z) (b : bool) (s' : sched_state) : Prop :=
  exists e, ss_ents s !! p = Some e /\ ss_ents s' = <[p := set_on_rq b e]> (ss_ents s) /\ ss_order s' = ss_order s /\
    exists lw, ss_rq s' =
      let q := ss_rq s in
      let w := weight (se_load e) in
      let ts := if b then p :: tasks q else filter (fun x => x <> p) (tasks q) in
      let n := if b then u64 (nr_running q + 1) else u64 (nr_running q - 1) in
      mk_cfs (if b then update_load_add (cfs_load q) w else update_load_sub (cfs_load q) w) n (min_vruntime q)
        (rb_leftmost q) ts (cfs_curr q) (cfs_next q) (cfs_last q) lw (clock_task q) (need_resched q).

Lemma runs_account_enqueue s p : entity_of s p -> runs (account_entity_enqueue p) s (fun _ s' => accounted s p true s').
Proof.
  intros [e E]. apply runs_bind, (runs_get_se _ _ e); [done|]. do 4 apply runs_bind, runs_upd_rq.
  apply (runs_upd_se _ _ e); [done|]. exists e. split_and!; try done. eexists. reflexivity.
Qed.

Lemma runs_account_dequeue s p : entity_of s p -> runs (account_entity_dequeue p) s (fun _ s' => accounted s p false s').
Proof.
  intros [e E]. apply runs_bind, (runs_get_se _ _ e); [done|]. do 4 apply runs_bind, runs_upd_rq.
  apply (runs_upd_se _ _ e); [done|]. exists e. split_and!; try done. eexists. reflexivity.
Qed.

Lemma accounted_key s p b s' x : accounted s p b s' -> key_of s' x = key_of s x.
Proof.
  intros (e & E & Ee & _ & lw & Eq). unfold key_of. rewrite Ee, Eq. destruct (decide (x = p)) as [->|Hx].
  - by rewrite lookup_insert_eq, E.
  - by rewrite lookup_insert_ne.
Qed.

Lemma accounted_weight s p b s' x : accounted s p b s' -> weight_of s' x = weight_of s x.
Proof.
  intros (e & E & Ee & _). unfold weight_of. rewrite Ee. destruct (decide (x = p)) as [->|Hx].
  - by rewrite lookup_insert_eq, E.
  - by rewrite lookup_insert_ne.
Qed.

Lemma accounted_after s p b s' : accounted s p b s' -> after 0 s (cfs_curr (ss_rq s)) (mark p b (on_of s)) s'.
Proof.
  intros Ha. pose proof Ha as (e & E & Ee & Eo & lw & Eq). split.
  - by rewrite Eq.
  - intros x. unfold on_of at 1. rewrite Ee. by apply on_mark.
  - intros x. by eapply accounted_weight.
  - rewrite Eq. cbn [min_vruntime]. rewrite Z.sub_diag. by vm_compute.
Qed.

Lemma accounted_window s p b s' : accounted s p b s' -> window s -> window s'.
Proof.
  intros Ha [Wo Wc]. pose proof Ha as (e & E & Ee & Eo & lw & Eq). split.
  - intros x. rewrite Eo, (accounted_key _ _ _ _ _ Ha). apply Wo.
  - rewrite Eq. cbn [cfs_curr]. rewrite (accounted_key _ _ _ _ _ Ha). apply Wc.
Qed.

Lemma total_filter f p l :
  NoDup l -> p ∈ l -> total f (filter (fun x => x <> p) l) = total f l - f p.
Proof.
  intros Hd (l1 & l2 & ->)%list_elem_of_split. apply NoDup_app in Hd as (_ & H1 & [H2 _]%NoDup_cons).
  rewrite filter_split; [|set_solver|done]. unfold total. rewrite !foldr_app. cbn.
  generalize (foldr (fun p0 n => f p0 + n) 0 l2) as z. clear. induction l1 as [|x l1 IH]; intros z; cbn; [lia|].
  rewrite IH. lia.
Qed.

Lemma length_filter_ne p l : NoDup l -> p ∈ l -> (length l = S (length (filter (fun x : Z => x <> p) l)))%nat.
Proof.
  intros Hd (l1 & l2 & ->)%list_elem_of_split. apply NoDup_app in Hd as (_ & H1 & [H2 _]%NoDup_cons).
  rewrite filter_split; [|set_solver|done]. rewrite !length_app. cbn. lia.
Qed.

(** A list of different entities is not longer than the address space. *)
Lemma entities_length off s l : Inv off s -> NoDup l -> Forall (entity_of s) l -> Z.of_nat (length l) < 2 ^ 64.
Proof.
  intros H Hd Hl. pose proof (inv_size _ _ H) as Hs. rewrite <-(size_dom (D := gset Z)) in Hs.
  rewrite <-(size_list_to_set (C := gset Z)) by done.
  assert (size (list_to_set (C := gset Z) l) <= size (dom (ss_ents s)))%nat; [|lia].
  apply subseteq_size. intros p Hp%elem_of_list_to_set. apply elem_of_dom. by apply (proj1 (Forall_forall _ _) Hl).
Qed.

Lemma accounted_on s p b s' x : accounted s p b s' -> on_of s' x = mark p b (on_of s) x.
Proof. intros Ha. apply (after_on _ _ _ _ _ (accounted_after _ _ _ _ Ha)). Qed.

Lemma accounted_entity s p b s' x : accounted s p b s' -> entity_of s' x <-> entity_of s x.
Proof.
  intros Ha. rewrite !entity_on, (accounted_on _ _ _ _ _ Ha). unfold mark. destruct (Z.eqb_spec x p) as [->|]; [|done].
  destruct Ha as (e & E & _). unfold on_of. rewrite E. by split; intros _; eexists.
Qed.

Lemma accounted_queued s p b s' x : accounted s p b s' -> queued s' x <-> if b then x = p \/ queued s x else queued s x /\ x <> p.
Proof.
  intros Ha. destruct b; rewrite !queued_on, (accounted_on _ _ _ _ _ Ha); unfold mark;
    destruct (Z.eqb_spec x p); intuition congruence.
Qed.

Lemma accounted_tasks off s p b s' :
  Inv off s -> accounted s p b s' -> on_of s p = Some (negb b) ->
  NoDup (tasks (ss_rq s')) /\ (forall x, x ∈ tasks (ss_rq s') <-> queued s' x).
Proof.
  intros H Ha Hb. pose proof Ha as (e & _ & _ & _ & lw & Eq). setoid_rewrite (accounted_queued _ _ _ _ _ Ha).
  rewrite Eq. cbn [tasks]. assert (Hp : p ∈ tasks (ss_rq s) <-> b = false).
  { rewrite (inv_tasks _ _ H), queued_on, Hb. destruct b; cbn; intuition congruence. }
  destruct b; cbn [negb] in *.
  - split; [constructor; [by rewrite Hp|apply H]|]. intros x. by rewrite elem_of_cons, (inv_tasks _ _ H).
  - split; [apply NoDup_filter, H|]. intros x. rewrite list_elem_of_filter, (inv_tasks _ _ H). tauto.
Qed.

Lemma accounted_sums off s p b s' :
  Inv off s -> accounted s p b s' -> on_of s p = Some (negb b) ->
  nr_running (ss_rq s') = Z.of_nat (length (tasks (ss_rq s'))) /\
  weight (cfs_load (ss_rq s')) = u64 (total (weight_of s') (tasks (ss_rq s'))).
Proof.
  intros H Ha Hb. destruct (accounted_tasks _ _ _ _ _ H Ha Hb) as [Hd Ht].
  assert (Hlen : Z.of_nat (length (tasks (ss_rq s'))) < 2 ^ 64).
  { apply (entities_length off s); [done|done|]. apply Forall_forall. intros x [e' [E' _]]%Ht.
    apply (accounted_entity _ _ _ _ _ Ha). by exists e'. }
  rewrite (total_ext _ (weight_of s)) by (intros x; by apply (accounted_weight _ _ _ _ _ Ha)).
  assert (Hp : b = false -> p ∈ tasks (ss_rq s)) by (intros ->; by apply (inv_tasks _ _ H), queued_on).
  pose proof Ha as (e & E & _ & _ & lw & Eq). assert (Hw : weight (se_load e) = weight_of s p) by (unfold weight_of; by rewrite E).
  rewrite Eq in *. cbn [tasks nr_running cfs_load] in *. rewrite Hw, (inv_nr _ _ H). destruct b; cbn [weight update_load_add update_load_sub].
  - rewrite (inv_load _ _ H), u64_idemp_add. split; [|unfold total; cbn; f_equal; lia].
    cbn [length] in *. rewrite (uwrap_small 64) by lia. lia.
  - rewrite (inv_load _ _ H), u64_idemp_sub, (total_filter _ p) by first [apply (inv_tasks_nodup _ _ H)|auto]. split; [|done].
    rewrite (length_filter_ne p) by first [apply (inv_tasks_nodup _ _ H)|auto]. rewrite (uwrap_small 64) by lia. lia.
Qed.

Lemma inv_accounted off s p b s' :
  Inv off s -> accounted s p b s' -> p ∈ off -> on_of s p = Some (negb b) ->
  (b = false -> cfs_next (ss_rq s) <> p /\ cfs_last (ss_rq s) <> p) -> Inv off s'.
Proof.
  intros H Ha Hp Hb Hn. destruct (accounted_tasks _ _ _ _ _ H Ha Hb) as [Hd Ht].
  destruct (accounted_sums _ _ _ _ _ H Ha Hb) as [Hnr Hl]. pose proof Ha as (e & E & Ee & Eo & lw & Eq).
  split; try done; rewrite ?Eo.
  - apply H.
  - intros x. rewrite (inv_order _ _ H), (accounted_queued _ _ _ _ _ Ha). destruct b; [|set_solver]. set_solver.
  - eapply sorted_ext; [|apply H]. intros x _. symmetry. by eapply accounted_key.
  - rewrite Eq. cbn [rb_leftmost]. apply H.
  - rewrite (accounted_entity _ _ _ _ _ Ha), Eq. apply H.
  - intros x. rewrite (accounted_entity _ _ _ _ _ Ha). apply H.
  - rewrite Ee, <-(size_dom (D := gset Z)), dom_insert_lookup_L, size_dom by done. apply H.
  - rewrite (accounted_queued _ _ _ _ _ Ha), Eq. cbn [cfs_next]. pose proof (inv_next _ _ H). destruct b; [tauto|].
    destruct Hn as [? _]; [done|]. tauto.
  - rewrite (accounted_queued _ _ _ _ _ Ha), Eq. cbn [cfs_last]. pose proof (inv_last _ _ H). destruct b; [tauto|].
    destruct Hn as [_ ?]; [done|]. tauto.
Qed.

(** ** Operations *)

(** Between operations. *)
Definition Ready (s : sched_state) : Prop := Inv {[cfs_curr (ss_rq s)]} s.

Section Ops.
  Context (sys : sysctl).

(** The virtual runtime of an entity that is off the run queue is relative to
    the clock, unless it sleeps. *)
Definition absolute (p : Z) (s : sched_state) : sched_state :=
  match ss_ents s !! p with
  | Some e => set_ss_ents (<[p := set_vruntime (u64 (vruntime e + min_vruntime (ss_rq s))) e]> (ss_ents s)) s
  | None => s
  end.

Lemma absolute_same p s : same {[p]} s (absolute p s).
Proof.
  unfold absolute. destruct (ss_ents s !! p) as [e|] eqn:E; [|done]. by apply (same_put_se _ _ _ e); [done..|left; set_solver].
Qed.

Lemma on_same vs s s' p : same vs s s' -> on_of s' p = on_of s p.
Proof. intros S. apply S. Qed.

Lemma on_later n s s' p : later n s s' -> on_of s' p = on_of s p.
Proof. intros L. apply L. Qed.

Lemma inv_not_in off s p b : Inv off s -> on_of s p = Some b -> p ∈ off \/ b = false -> p ∉ ss_order s.
Proof. intros H Hb Hp. rewrite (inv_order _ _ H), queued_on, Hb. naive_solver. Qed.

Lemma after_accounted n s0 c on s p b s' :
  after n s0 c on s -> accounted s p b s' -> n < 4 -> after n s0 c (mark p b on) s'.
Proof.
  intros H Ha Hn. rewrite <-(Z.add_0_r n), <-(after_curr _ _ _ _ _ H).
  eapply after_trans; [done|by apply accounted_after|lia|]. intros x. unfold mark. by rewrite (after_on _ _ _ _ _ H).
Qed.

Lemma after_moved n s0 c on s s' :
  after n s0 c on s -> after 0 s (cfs_curr (ss_rq s)) (on_of s) s' -> n < 4 -> after n s0 c on s'.
Proof.
  intros H H' Hn. rewrite <-(Z.add_0_r n), <-(after_curr _ _ _ _ _ H).
  eapply after_trans; [done|done|lia|]. apply H.
Qed.

Lemma entity_some s p b : on_of s p = Some b -> entity_of s p.
Proof. rewrite entity_on. intros ->. by eexists. Qed.

(** From the accounting on. *)
Lemma enqueue_rest_ok n s0 c on s p (wakeup : bool) :
  Inv {[c; p]} s -> after n s0 c on s -> n < 4 -> on p = Some false ->
  runs (account_entity_enqueue p ;;; (if wakeup then place_entity sys p false else ret tt) ;;;
    let! q := get_rq in if negb (p =? cfs_curr q) then __enqueue_entity p else ret tt) s
    (fun _ s' => Ready s' /\ after n s0 c (mark p true on) s').
Proof.
  intros H A Hn Hp. rewrite <-(after_on _ _ _ _ _ A) in Hp. apply runs_bind.
  apply (runs_mono _ _ _ _ (runs_account_enqueue s p (entity_some _ _ _ Hp))). intros [] s1 Ha.
  pose proof (after_accounted _ _ _ _ _ _ _ _ A Ha Hn) as A1.
  assert (H1 : Inv {[c; p]} s1) by (eapply inv_accounted; [exact H|exact Ha|set_solver|done|done]). apply runs_bind.
  assert (Hp1 : on_of s1 p = Some true) by (rewrite (after_on _ _ _ _ _ A1); unfold mark; by rewrite Z.eqb_refl).
  assert (Hk : keeps {[p]} [p] (if wakeup then place_entity sys p false else ret tt)).
  { apply keeps_if; [apply keeps_place_entity; set_solver|apply keeps_ret]. }
  apply (runs_mono _ _ _ _ (Hk s1 ltac:(constructor; [by eapply entity_some|done]))). intros [] s2 S2.
  assert (A2 : after n s0 c (mark p true on) s2) by (by eapply after_same).
  assert (H2 : Inv {[c; p]} s2).
  { eapply same_inv, H1; [exact S2|]. intros x Hx. rewrite elem_of_singleton. intros ->.
    eapply inv_not_in, Hx; [done..|left; set_solver]. }
  apply runs_bind, runs_get_rq. pose proof (after_curr _ _ _ _ _ A2) as Hc. rewrite Hc.
  destruct (Z.eqb_spec p c) as [->|Hne]; cbn [negb].
  - apply runs_ret. split; [|done]. unfold Ready. rewrite Hc. eapply inv_off, H2. set_solver.
  - rewrite <-(on_same _ _ _ _ S2) in Hp1. eapply runs_mono; [apply (runs_enqueue _ s2 p H2)|]; [by apply queued_on|set_solver|].
    intros [] s3 [H3 A3]. split; [|by apply (after_moved _ _ _ _ s2)].
    unfold Ready. rewrite (after_curr _ _ _ _ _ A3), Hc. eapply inv_off, H3. set_solver.
Qed.

Lemma enqueue_entity_ok s p wakeup migrate :
  Ready s -> on_of s p = Some false ->
  accountable (if negb wakeup || migrate then absolute p s else s) = true ->
  runs (enqueue_entity sys p wakeup migrate) s (fun _ s' =>
    Ready s' /\ after 1 s (cfs_curr (ss_rq s)) (mark p true (on_of s)) s').
Proof.
  set (curr := cfs_curr (ss_rq s)). intros H Hp. set (s1 := if negb wakeup || migrate then absolute p s else s). intros Hacc.
  assert (S1 : same {[p]} s s1) by (subst s1; case_match; [apply absolute_same|done]).
  assert (H1 : Inv {[curr; p]} s1).
  { eapply inv_off, same_inv, H; [|exact S1|].
    - intros x Hx. rewrite queued_on, (on_same _ _ _ _ S1) in Hx. destruct (decide (x = p)) as [->|]; [congruence|set_solver].
    - intros x Hx. rewrite elem_of_singleton. intros ->. eapply inv_not_in, Hx; [done..|by right]. }
  unfold enqueue_entity. apply runs_bind. apply (runs_mono _ _ (fun _ s' => s' = s1)).
  { subst s1. unfold absolute. pose proof Hp as Hp'. unfold on_of in Hp'. destruct (ss_ents s !! p) as [e|] eqn:E; [|done].
    destruct (negb wakeup || migrate); [|by apply runs_ret].
    apply runs_bind, runs_get_rq. by apply (runs_upd_se _ _ e). }
  intros [] ? ->. apply runs_bind.
  assert (Hc : cfs_curr (ss_rq s1) = curr) by apply S1.
  apply (runs_mono _ _ _ _ (runs_update_curr {[curr; p]} s1 H1 ltac:(right; set_solver) Hacc)). intros [] s2 (H2 & _ & L2).
  assert (A2 : after 1 s curr (on_of s) s2).
  { apply (after_later 0 1 _ _ _ s1); [|done|done]. by eapply after_same; [apply after_refl|exact S1|]. }
  by apply enqueue_rest_ok.
Qed.

(** Nothing but the buddies, the load divisor and the need to reschedule. *)
Definition quiet (s s' : sched_state) : Prop :=
  ss_ents s' = ss_ents s /\ ss_order s' = ss_order s /\ min_vruntime (ss_rq s') = min_vruntime (ss_rq s) /\
  cfs_curr (ss_rq s') = cfs_curr (ss_rq s) /\ clock_task (ss_rq s') = clock_task (ss_rq s).

Lemma accountable_quiet s s' : quiet s s' -> accountable s' = accountable s.
Proof.
  intros (Ee & Eo & Em & Ec & Et). unfold accountable. cbv zeta. rewrite Eo, Ec.
  assert (Hk : forall p, key_of s' p = key_of s p) by (intros p; unfold key_of, entity_key; by rewrite Ee, Em).
  assert (Hg : charge s' = charge s) by (unfold charge; by rewrite Ee, Ec, Et).
  rewrite Hg, Hk. f_equal. clear Eo. induction (ss_order s) as [|x l IH]; cbn [forallb]; [done|]. by rewrite Hk, IH.
Qed.

Lemma runs_clear_buddies s p : p <> 0 ->
  runs (clear_buddies p) s (fun _ s' => same ∅ s s' /\ quiet s s' /\ cfs_next (ss_rq s') <> p /\ cfs_last (ss_rq s') <> p).
Proof.
  intros Hp. destruct (keeps_clear_buddies ∅ [] p s (Forall_nil_2 _)) as ([] & s' & E & S).
  exists tt, s'. split; [done|]. split; [done|].
  revert E. unfold clear_buddies, __clear_buddies. rewrite (proj2 (Z.eqb_neq _ _) Hp). cbn [orb].
  unfold upd_rq, bind. cbn. intros [= <-].
  destruct (Z.eqb_spec (cfs_last (ss_rq s)) p); cbn; destruct (Z.eqb_spec (cfs_next (ss_rq s)) p); cbn; by split_and!.
Qed.

Lemma window_same s s' : same ∅ s s' -> window s -> window s'.
Proof.
  intros S W. eapply same_window; [exact S|set_solver|set_solver|done|]. rewrite (same_key _ _ _ _ S) by set_solver. apply W.
Qed.

(** Taking an entity off the timeline, if it is there. *)
Lemma dequeue_step_ok s p :
  Ready s -> queued s p -> window s -> cfs_next (ss_rq s) <> p -> cfs_last (ss_rq s) <> p ->
  runs (if negb (p =? cfs_curr (ss_rq s)) then __dequeue_entity p else ret tt) s (fun _ s' =>
    Inv {[cfs_curr (ss_rq s); p]} s' /\ window s' /\ after 0 s (cfs_curr (ss_rq s)) (on_of s) s' /\
    cfs_next (ss_rq s') <> p /\ cfs_last (ss_rq s') <> p).
Proof.
  intros H Hp W Hn Hl. destruct (Z.eqb_spec p (cfs_curr (ss_rq s))) as [->|Hne]; cbn [negb].
  - apply runs_ret. split_and!; [|done|apply after_refl|done|done]. eapply inv_off, H. set_solver.
  - eapply runs_mono; [apply (runs_dequeue _ s p H Hp); set_solver|]. intros [] s' (H' & A & -> & -> & W').
    split_and!; auto.
Qed.

(** What is left after the accounting. *)
Lemma dequeue_rest_ok n s0 c on s p (sleep : bool) :
  Inv {[c; p]} s -> window s -> after n s0 c on s -> n < 3 -> on p = Some false ->
  runs (update_min_vruntime ;;;
    if negb sleep then let! q := get_rq in upd_se p (fun e => set_vruntime (u64 (vruntime e - min_vruntime q)) e)
    else ret tt) s (fun _ s' => Ready s' /\ after (n + 1) s0 c on s').
Proof.
  intros H W A Hn Hp. apply runs_bind. apply (runs_mono _ _ _ _ (runs_update_min _ s H W)). intros [] s1 (H1 & _ & L1 & _).
  assert (A1 : after (n + 1) s0 c on s1) by (apply (after_later _ _ _ _ _ s); [done|done|lia]).
  assert (Hp1 : on_of s1 p = Some false) by (by rewrite (after_on _ _ _ _ _ A1)).
  assert (Hk : keeps {[p]} [p] (if negb sleep then let! q := get_rq in
    upd_se p (fun e => set_vruntime (u64 (vruntime e - min_vruntime q)) e) else ret tt)) by keeps_go.
  apply (runs_mono _ _ _ _ (Hk s1 ltac:(constructor; [by eapply entity_some|done]))). intros [] s2 S2.
  assert (A2 : after (n + 1) s0 c on s2) by (eapply after_same; [done|exact S2|lia]). split; [|done].
  unfold Ready. rewrite (after_curr _ _ _ _ _ A2). eapply inv_off, same_inv, H1; [|exact S2|].
  - intros x Hx%queued_on. rewrite (after_on _ _ _ _ _ A2) in Hx. destruct (decide (x = p)) as [->|]; [congruence|set_solver].
  - intros x Hx. rewrite elem_of_singleton. intros ->. eapply inv_not_in, Hx; [done..|by right].
Qed.

Lemma dequeue_entity_ok s p sleep :
  Ready s -> on_of s p = Some true -> accountable s = true ->
  runs (dequeue_entity p sleep) s (fun _ s' => Ready s' /\ after 2 s (cfs_curr (ss_rq s)) (mark p false (on_of s)) s').
Proof.
  set (curr := cfs_curr (ss_rq s)). intros H Hp Hacc. unfold dequeue_entity. apply runs_bind.
  apply (runs_mono _ _ _ _ (runs_update_curr _ s H ltac:(right; set_solver) Hacc)). intros [] s1 (H1 & W1 & L1).
  assert (A1 : after 1 s curr (on_of s) s1) by (apply (after_later 0 1 _ _ _ s); [apply after_refl|done|done]).
  assert (Hp0 : p <> 0) by (pose proof (inv_addr _ _ H p (entity_some _ _ _ Hp)); lia).
  apply runs_bind. apply (runs_mono _ _ _ _ (runs_clear_buddies s1 p Hp0)). intros [] s2 (S2 & _ & Hn & Hl).
  assert (A2 : after 1 s curr (on_of s) s2) by (by eapply after_same).
  pose proof (after_curr _ _ _ _ _ A2) as Hc2.
  assert (H2 : Ready s2) by (unfold Ready; rewrite Hc2; eapply same_inv, H1; [exact S2|set_solver]).
  assert (Hp2 : on_of s2 p = Some true) by (by rewrite (after_on _ _ _ _ _ A2)).
  apply runs_bind, runs_get_rq, runs_bind.
  apply (runs_mono _ _ _ _ (dequeue_step_ok s2 p H2 (proj2 (queued_on _ _) Hp2) (window_same _ _ S2 W1) Hn Hl)).
  intros [] s3 (H3 & W3 & A3 & Hn3 & Hl3). apply (after_moved _ _ _ _ _ _ A2) in A3; [|done]. rewrite Hc2 in H3.
  assert (Hp3 : on_of s3 p = Some true) by (by rewrite (after_on _ _ _ _ _ A3)).
  apply runs_bind. apply (runs_mono _ _ _ _ (runs_account_dequeue s3 p (entity_some _ _ _ Hp3))). intros [] s4 A4.
  apply (dequeue_rest_ok 1 s curr _ s4 p sleep); [|by eapply accounted_window|by eapply after_accounted|done|].
  - eapply inv_accounted; [exact H3|exact A4|set_solver|done|done].
  - unfold mark. by rewrite Z.eqb_refl.
Qed.

Lemma same_ready vs s s' : same vs s s' -> (forall p, p ∈ vs -> p ∉ ss_order s) -> Ready s -> Ready s'.
Proof. intros S Hv H. unfold Ready. rewrite (same_curr _ _ _ S). eapply same_inv, H; [exact S|]. intros p Hp Hpv. by apply (Hv p). Qed.

Lemma curr_off s : Ready s -> cfs_curr (ss_rq s) ∉ ss_order s.
Proof. intros H. rewrite (inv_order _ _ H). set_solver. Qed.

Lemma curr_entity s : Ready s -> cfs_curr (ss_rq s) <> 0 -> entity_of s (cfs_curr (ss_rq s)).
Proof. intros H Hn. by destruct (inv_curr _ _ H). Qed.

(** Operations that change nothing the invariant is about. *)
Lemma keeps_ok {A} vs ps (m : M sched_state A) n s0 c on s :
  keeps vs ps m -> Ready s -> after n s0 c on s -> n < 4 -> Forall (entity_of s) ps ->
  (forall p, p ∈ vs -> p ∉ ss_order s) -> runs m s (fun _ s' => Ready s' /\ after n s0 c on s').
Proof.
  intros Hk H Ha Hn Hp Hv. apply (runs_mono _ _ _ _ (Hk s Hp)). intros a s' S.
  split; [by eapply same_ready|by eapply after_same].
Qed.

Lemma update_curr_ok s : Ready s -> accountable s = true ->
  runs update_curr s (fun _ s' => Ready s' /\ after 1 s (cfs_curr (ss_rq s)) (on_of s) s').
Proof.
  intros H Hacc. apply (runs_mono _ _ _ _ (runs_update_curr _ s H ltac:(right; set_solver) Hacc)). intros [] s1 (H1 & _ & L1).
  split; [|by apply (after_later 0 1 _ _ _ s); [apply after_refl|..]]. unfold Ready. by rewrite (later_curr _ _ _ L1).
Qed.

Lemma set_clock_same s clock : same ∅ s (set_ss_rq (set_clock clock (ss_rq s)) s).
Proof. apply (same_put_rq _ _ (set_clock clock)). intros q. cbn. auto 12. Qed.

Lemma yield_ok s clock :
  let curr := cfs_curr (ss_rq s) in
  Ready s -> curr <> 0 -> accountable (set_ss_rq (set_clock clock (ss_rq s)) s) = true ->
  runs (yield_task_fair sys curr clock) s (fun _ s' => Ready s' /\ after 1 s curr (on_of s) s').
Proof.
  intros curr H Hn Hacc. unfold yield_task_fair. apply runs_bind, runs_get_rq.
  assert (A0 : after 1 s curr (on_of s) s) by (destruct (after_refl s) as [? ? ? [? ?]]; split; auto; unfold WINDOW in *; lia).
  case_match; [by apply runs_ret|]. apply runs_bind. apply (runs_mono _ _ _ _ (runs_clear_buddies s curr Hn)). intros [] s1 (S1 & Q1 & _).
  assert (H1 : Ready s1) by (by eapply same_ready; [exact S1|set_solver|]).
  assert (Hc1 : cfs_curr (ss_rq s1) = curr) by apply S1. destruct (curr_entity s1 H1) as [c Ec]; [by rewrite Hc1|]. rewrite Hc1 in Ec.
  apply runs_bind, (runs_get_se _ _ c); [done|]. destruct (negb (sched_compat_yield sys) && _).
  - apply runs_bind, runs_upd_rq. set (s2 := set_ss_rq _ s1). assert (S2 : same ∅ s1 s2) by apply set_clock_same.
    assert (Hc2 : cfs_curr (ss_rq s2) = curr) by (by rewrite (same_curr _ _ _ S2)).
    eapply runs_mono; [apply (update_curr_ok s2); [by eapply same_ready; [exact S2|set_solver|]|]|].
    + rewrite <-Hacc. apply accountable_quiet. destruct Q1 as (? & ? & ? & ? & _). by split_and!.
    + intros [] s3 [H3 A3]. split; [done|]. rewrite Hc2 in A3. eapply (after_trans 0 1 s curr (on_of s) s2); [|exact A3|done|].
      * eapply (after_same _ ∅ _ _ _ s); [apply after_refl|by transitivity s1|done].
      * intros x. by rewrite (on_same _ _ _ _ S2), (on_same _ _ _ _ S1).
  - assert (A1 : after 1 s curr (on_of s) s1) by (by eapply after_same). apply runs_bind, runs_gets.
    destruct (last (ss_order s1)) as [r|] eqn:Er; cbn [default]; [|by apply runs_ret].
    case_match; [by apply runs_ret|]. assert (Hr : r ∈ ss_order s1) by (apply last_Some in Er as [l ->]; set_solver).
    apply (inv_order _ _ H1) in Hr as [[er [Er' _]] _]. apply runs_bind, (runs_get_se _ _ er); [done|].
    apply runs_bind, (runs_get_se _ _ c); [done|]. case_match; [by apply runs_ret|].
    eapply (keeps_ok {[curr]} [curr]); [keeps_go|done|done|done| |].
    + constructor; [|done]. by exists c.
    + intros p Hp%elem_of_singleton. subst p. rewrite <-Hc1. by apply curr_off.
Qed.

(** ** Picking an entity *)

Lemma inv_set_curr off s c : Inv off s -> c = 0 \/ entity_of s c -> Inv off (set_ss_rq (set_curr c (ss_rq s)) s).
Proof. intros [] Hc. by split. Qed.

Lemma after_set_curr n s0 c on s c' :
  after n s0 c on s -> after n s0 c' on (set_ss_rq (set_curr c' (ss_rq s)) s).
Proof. intros []. by split. Qed.

(** Filling in the inverse of a weight does not change its use. *)
Lemma delta_fair_filled d w g e lw :
  0 <= weight (se_load e) -> lw = (calc_delta_mine d w (se_load e)).2 -> delta_fair g (set_se_load lw e) = delta_fair g e.
Proof.
  intros Hw ->. unfold delta_fair. cbn [se_load set_se_load]. rewrite weight_calc_delta. case_match; [|done].
  unfold calc_delta_mine. cbn [fst snd]. destruct (Z.eqb_spec (inv_weight (se_load e)) 0) as [E|E]; cbn [inv_weight weight];
    [|by rewrite (proj2 (Z.eqb_neq _ _) E)].
  rewrite (proj2 (Z.eqb_neq _ 0)); [done|]. case_match; [done|]. unfold WMULT_CONST in *.
  assert (0 <= (2 ^ 32 - weight (se_load e) / 2) / (weight (se_load e) + 1) <= 2 ^ 32); [|rewrite (uwrap_small 64); lia].
  assert (0 <= weight (se_load e) / 2 <= weight (se_load e)) by (split; [apply Z.div_pos; lia|apply Z.div_le_upper_bound; lia]).
  split; [apply Z.div_pos; lia|]. apply Z.div_le_upper_bound; [lia|]. nia.
Qed.

Definition lag (e1 e2 : sched_entity) : Z := s64 (vruntime e1 - vruntime e2).

(** How much later than the first entity a buddy may be. *)
Definition buddy_gran (e : sched_entity) : Z := Z.max 0 (s64 (delta_fair (sched_wakeup_granularity sys) e)).

Lemma wakeup_gran_ok s p1 p2 e2 :
  cfs_curr (ss_rq s) = 0 -> ss_ents s !! p2 = Some e2 ->
  runs (wakeup_gran sys p1 p2) s (fun g s' => g = delta_fair (sched_wakeup_granularity sys) e2 /\ same ∅ s s' /\
    exists e2', ss_ents s' !! p2 = Some e2' /\ (0 <= weight (se_load e2) -> buddy_gran e2' = buddy_gran e2)).
Proof.
  intros Hc E2. unfold wakeup_gran. apply runs_bind, runs_get_rq. rewrite Hc. cbn [Z.eqb negb andb].
  apply runs_bind, runs_ret. cbv zeta. change ASYM_GRAN with true. cbn iota. apply runs_bind, (runs_get_se _ _ e2); [done|].
  destruct (negb (weight (se_load e2) =? NICE_0_LOAD)) eqn:Ew.
  - unfold calc_delta_fair. apply runs_bind, (runs_get_se _ _ e2); [done|]. rewrite Ew.
    destruct (calc_delta_mine _ _ _) as [d lw] eqn:Ed. apply runs_bind, (runs_put_se _ _ e2); [done|].
    pose proof (f_equal snd Ed) as El. cbn [snd] in El. apply runs_ret. split_and!.
    + unfold delta_fair. by rewrite Ew, Ed.
    + apply (same_put_se _ _ _ e2); auto. cbn [se_load set_se_load]. by rewrite <-El, weight_calc_delta.
    + eexists. split; [apply lookup_insert_eq|]. intros Hw. unfold buddy_gran. by erewrite delta_fair_filled.
  - apply runs_ret. split_and!; [unfold delta_fair; by rewrite Ew|done|by exists e2].
Qed.

Lemma wakeup_preempt_ok s p1 e1 p2 e2 :
  cfs_curr (ss_rq s) = 0 -> ss_ents s !! p1 = Some e1 -> ss_ents s !! p2 = Some e2 ->
  runs (wakeup_preempt_entity sys p1 p2) s (fun r s' => same ∅ s s' /\ (r < 1 -> lag e1 e2 <= buddy_gran e2) /\
    exists e2', ss_ents s' !! p2 = Some e2' /\ (0 <= weight (se_load e2) -> buddy_gran e2' = buddy_gran e2)).
Proof.
  intros Hc E1 E2. unfold wakeup_preempt_entity. apply runs_bind, (runs_get_se _ _ e1); [done|].
  apply runs_bind, (runs_get_se _ _ e2); [done|]. cbv zeta. fold (lag e1 e2). destruct (Z.leb_spec (lag e1 e2) 0) as [Hle|Hlt].
  { apply runs_ret. split_and!; [done|unfold buddy_gran; lia|by exists e2]. }
  apply runs_bind. apply (runs_mono _ _ _ _ (wakeup_gran_ok s p1 p2 e2 Hc E2)). intros g s' (-> & S & He). unfold buddy_gran at 1.
  destruct (Z.ltb_spec (s64 (delta_fair (sched_wakeup_granularity sys) e2)) (lag e1 e2)); apply runs_ret; split_and!; auto; lia.
Qed.

(** The choice of [pick_next_entity] is the first entity, or a buddy that is
    not much later. *)
Definition fair_choice (s : sched_state) (se : Z) : Prop :=
  exists h eh e, head (ss_order s) = Some h /\ ss_ents s !! h = Some eh /\ ss_ents s !! se = Some e /\
    (se = h \/ se <> 0 /\ (se = cfs_next (ss_rq s) \/ se = cfs_last (ss_rq s))) /\
    (0 <= weight (se_load eh) -> se = h \/ lag e eh <= buddy_gran eh).

Lemma same_some vs s s' : same vs s s' ->
  forall p x, ss_ents s !! p = Some x -> exists x', ss_ents s' !! p = Some x' /\
    weight (se_load x') = weight (se_load x) /\ (p ∉ vs -> vruntime x' = vruntime x).
Proof.
  intros S p x Ex. pose proof (same_vruntime _ _ _ S p) as E1. pose proof (same_weight _ _ _ S p) as E2.
  pose proof (same_on_rq _ _ _ S p) as E3. rewrite Ex in *. destruct (ss_ents s' !! p) as [x'|]; [|done].
  injection E2 as E2. exists x'. split_and!; [done|done|]. intros Hp. specialize (E1 Hp). by injection E1.
Qed.

(** One buddy. *)
Lemma buddy_ok s h eh b se e :
  cfs_curr (ss_rq s) = 0 -> ss_ents s !! h = Some eh -> ss_ents s !! se = Some e -> b = 0 \/ entity_of s b ->
  (0 <= weight (se_load eh) -> se = h \/ lag e eh <= buddy_gran eh) ->
  runs (if negb (b =? 0) then let! r := wakeup_preempt_entity sys b h in ret (if r <? 1 then b else se) else ret se) s
    (fun se' s' => same ∅ s s' /\ (se' = se \/ b <> 0 /\ se' = b) /\
      exists eh' e', ss_ents s' !! h = Some eh' /\ ss_ents s' !! se' = Some e' /\
        (0 <= weight (se_load eh) -> buddy_gran eh' = buddy_gran eh /\ (se' = h \/ lag e' eh' <= buddy_gran eh'))).
Proof.
  intros Hc Eh Ee Hb Hf. destruct (Z.eqb_spec b 0) as [->|Hb0]; cbn [negb].
  { apply runs_ret. split_and!; [done|by left|]. exists eh, e. auto. }
  destruct Hb as [|[eb Eb]]; [done|]. apply runs_bind.
  apply (runs_mono _ _ _ _ (wakeup_preempt_ok s b eb h eh Hc Eb Eh)). intros r s' (S & Hr & eh' & Eh' & Hg). apply runs_ret.
  split_and!; [done|case_match; auto|]. 
  pose proof (same_some ∅ s s' S) as Hv.
  destruct (Hv _ _ Eh) as (eh'' & Eh'' & _ & Vh). specialize (Vh ltac:(set_solver)). assert (eh'' = eh') as -> by congruence.
  destruct (Z.ltb_spec r 1).
  - destruct (Hv _ _ Eb) as (eb' & Eb' & _ & Vb). specialize (Vb ltac:(set_solver)). exists eh', eb'. split_and!; [done|done|]. intros Hw. rewrite (Hg Hw). split; [done|].
    right. unfold lag. rewrite Vb, Vh. by apply Hr.
  - destruct (Hv _ _ Ee) as (e' & Ee' & _ & Ve). specialize (Ve ltac:(set_solver)). exists eh', e'. split_and!; [done|done|]. intros Hw. rewrite (Hg Hw). split; [done|].
    unfold lag. rewrite Ve, Vh. auto.
Qed.

Lemma pick_next_entity_ok off s h order :
  Inv off s -> cfs_curr (ss_rq s) = 0 -> ss_order s = h :: order ->
  runs (pick_next_entity sys) s (fun se s' => same ∅ s s' /\ queued s se /\ fair_choice s se).
Proof.
  intros H Hc Eo. destruct (inv_front _ _ _ _ H Eo) as (eh & Eh & El & Hn & Hr).
  assert (Hqh : queued s h) by (apply (inv_order _ _ H h); rewrite Eo; set_solver).
  unfold pick_next_entity, __pick_next_entity. apply runs_bind, runs_bind, runs_get_rq.
  rewrite El, (proj2 (Z.eqb_neq _ _) Hn), Hr. apply runs_ret, runs_bind, runs_get_rq, runs_bind.
  assert (Hb : forall b, b = 0 \/ queued s b -> b = 0 \/ entity_of s b).
  { intros b [|[eb [Eb _]]]; [by left|]. right. by exists eb. }
  eapply runs_mono; [apply (buddy_ok s h eh (cfs_next (ss_rq s)) h eh Hc Eh Eh (Hb _ (inv_next _ _ H))); by left|].
  intros se1 s1 (S1 & Hse1 & eh1 & e1 & Eh1 & Ee1 & Hf1). apply runs_bind, runs_get_rq, runs_bind.
  assert (Hl : cfs_last (ss_rq s1) = 0 \/ queued s (cfs_last (ss_rq s1))).
  { destruct (same_last _ _ _ S1) as [-> | ->]; [by left|apply H]. }
  assert (Hl1 : cfs_last (ss_rq s1) = 0 \/ entity_of s1 (cfs_last (ss_rq s1))).
  { destruct (Hb _ Hl) as [|Hx]; [by left|right]. by apply (same_entity _ _ _ _ S1). }
  destruct (same_some _ _ _ S1 h eh Eh) as (eh1' & Eh1' & Wh1 & _). assert (eh1' = eh1) as -> by congruence.
  eapply runs_mono; [apply (buddy_ok s1 h eh1 (cfs_last (ss_rq s1)) se1 e1); [by rewrite (same_curr _ _ _ S1)|done|done|done|]|].
  { rewrite Wh1. intros Hw. apply Hf1, Hw. }
  intros se2 s2 (S2 & Hse2 & eh2 & e2 & Eh2 & Ee2 & Hf2). apply runs_bind.
  eapply runs_mono; [apply (keeps_clear_buddies ∅ [] se2 s2 (Forall_nil_2 _))|]. intros [] s3 S3. apply runs_ret.
  assert (S : same ∅ s s2) by (by transitivity s1).
  assert (Hq : queued s se2).
  { destruct Hse2 as [->|[Hx ->]]; [|by destruct Hl]. destruct Hse1 as [->|[Hx ->]]; [done|]. by destruct (inv_next _ _ H). }
  split_and!; [by transitivity s2|done|]. destruct Hq as [e [Ee _]].
  exists h, eh, e. rewrite Eo. split_and!; [done|done|done| |].
  { destruct Hse2 as [->|[Hx ->]]; [|destruct (same_last _ _ _ S1) as [E|E]; rewrite E in *; [done|by auto]].
    destruct Hse1 as [->|[Hx ->]]; auto. }
  intros Hw.
  destruct (same_some _ _ _ S h eh Eh) as (x & Ex & _ & Vx). destruct (same_some _ _ _ S se2 e Ee) as (y & Ey & _ & Vy).
  specialize (Vx ltac:(set_solver)). specialize (Vy ltac:(set_solver)). rewrite Ex in Eh2. rewrite Ey in Ee2.
  injection Eh2 as ->. injection Ee2 as ->. destruct (Hf1 Hw) as [G1 _]. destruct Hf2 as [G2 [->|Hf2]]; [by rewrite Wh1|by left|].
  right. unfold lag in *. rewrite <-Vx, <-Vy, <-G1, <-G2. done.
Qed.

Lemma set_next_entity_ok s p :
  Ready s -> cfs_curr (ss_rq s) = 0 -> entity_of s p ->
  runs (set_next_entity p) s (fun _ s' => Ready s' /\ after 0 s p (on_of s) s').
Proof.
  intros H Hc [e E]. assert (Hp0 : 0 < p) by (apply (inv_addr _ _ H); by exists e). unfold Ready in H. rewrite Hc in H.
  unfold set_next_entity. apply runs_bind, (runs_get_se _ _ e); [done|]. apply runs_bind.
  apply (runs_mono _ _ (fun _ s' => Inv {[0; p]} s' /\ after 0 s 0 (on_of s) s')).
  { destruct (on_rq e) eqn:Eon.
    - eapply runs_mono; [apply (runs_dequeue {[0]} s p H); [by exists e|set_solver by lia]|]. intros [] s1 (H1 & A1 & _).
      rewrite Hc in A1. done.
    - apply runs_ret. split; [|rewrite <-Hc at 2; apply after_refl]. eapply inv_off, H.
      intros x [ex [Ex Hx]]. assert (x <> p) by congruence. set_solver. }
  intros [] s1 [H1 A1].
  assert (He1 : forall s2, after 0 s 0 (on_of s) s2 -> Forall (entity_of s2) [p]).
  { intros s2 A2. constructor; [|done]. rewrite entity_on, (after_on _ _ _ _ _ A2). unfold on_of. rewrite E. by eexists. }
  apply runs_bind. apply (runs_mono _ _ _ _ (keeps_update_stats ∅ [p] p ltac:(set_solver) s1 (He1 s1 A1))). intros [] s2 S2.
  assert (H2 : Inv {[0; p]} s2) by (eapply same_inv, H1; [exact S2|set_solver]).
  assert (A2 : after 0 s 0 (on_of s) s2) by (by eapply after_same).
  apply runs_bind, runs_upd_rq. set (s3 := set_ss_rq _ s2). pose proof (proj1 (Forall_singleton _ _) (He1 s2 A2)) as He2.
  assert (H3 : Ready s3).
  { unfold Ready. eapply inv_off, inv_set_curr, or_intror, He2; [|exact H2]. intros x Hx. cbn [cfs_curr set_curr ss_rq set_ss_rq s3].
    assert (0 < x); [|set_solver by lia]. apply (inv_addr _ _ H2). destruct Hx as [ex [Ex _]]. by exists ex. }
  assert (A3 : after 0 s p (on_of s) s3) by (by eapply after_set_curr).
  eapply (keeps_ok ∅ [p]); [keeps_go|done|done|done|by constructor|set_solver].
Qed.

(** If anything is on the run queue but the running entity, the timeline is not
    empty. *)
Lemma order_head off s p : Inv off s -> queued s p -> p ∉ off -> exists h order, ss_order s = h :: order.
Proof.
  intros H Hq Hp. assert (Hin : p ∈ ss_order s) by (by apply (inv_order _ _ H)).
  destruct (ss_order s) as [|h order]; [set_solver|by exists h, order].
Qed.

Lemma pick_next_task_ok s :
  Ready s -> cfs_curr (ss_rq s) = 0 ->
  runs (pick_next_task_fair sys) s (fun se s' => Ready s' /\ after 0 s se (on_of s) s' /\
    (if nr_running (ss_rq s) =? 0 then se = 0 else queued s se /\ fair_choice s se)).
Proof.
  intros H Hc. unfold pick_next_task_fair. apply runs_bind, runs_get_rq.
  destruct (Z.eqb_spec (nr_running (ss_rq s)) 0) as [Hz|Hz].
  { apply runs_ret. split_and!; [done|rewrite <-Hc at 2; apply after_refl|done]. }
  destruct (tasks (ss_rq s)) as [|x ts] eqn:Et; [rewrite (inv_nr _ _ H), Et in Hz; done|].
  assert (Hx : queued s x) by (apply (inv_tasks _ _ H); rewrite Et; set_solver).
  assert (Hx0 : 0 < x) by (apply (inv_addr _ _ H); destruct Hx as [e [E _]]; by exists e).
  destruct (order_head _ _ x H Hx) as (h & order & Eo); [rewrite Hc; set_solver by lia|].
  apply runs_bind. apply (runs_mono _ _ _ _ (pick_next_entity_ok _ s h order H Hc Eo)). intros se s1 (S1 & Hq & Hf).
  assert (H1 : Ready s1) by (by eapply same_ready; [exact S1|set_solver|]).
  apply runs_bind. eapply runs_mono; [apply (set_next_entity_ok s1 se H1); [by rewrite (same_curr _ _ _ S1)|]|].
  { apply (same_entity _ _ _ _ S1). destruct Hq as [e [E _]]. by exists e. }
  intros [] s2 [H2 A2]. apply runs_ret. split_and!; [done| |done|done].
  apply (after_trans 0 0 s 0 (on_of s) s1 se (on_of s1)); [|done|done|].
  - eapply (after_same _ ∅ _ _ _ s); [rewrite <-Hc at 2; apply after_refl|exact S1|done].
  - intros y. by rewrite (on_same _ _ _ _ S1).
Qed.

Lemma put_prev_ok s :
  let curr := cfs_curr (ss_rq s) in
  Ready s -> curr <> 0 -> (on_of s curr = Some true -> accountable s = true) ->
  runs (put_prev_task_fair curr) s (fun _ s' => Ready s' /\ after 1 s 0 (on_of s) s').
Proof.
  intros curr H Hn Hacc. destruct (curr_entity s H Hn) as [c Ec]. fold curr in Ec. unfold put_prev_task_fair, put_prev_entity.
  apply runs_bind, (runs_get_se _ _ c); [done|]. apply runs_bind.
  assert (Hon : on_of s curr = Some (on_rq c)) by (unfold on_of; by rewrite Ec).
  apply (runs_mono _ _ (fun _ s' => Ready s' /\ after 1 s curr (on_of s) s')).
  { destruct (on_rq c) eqn:E; [apply update_curr_ok; auto|]. apply runs_ret. split; [done|].
    destruct (after_refl s) as [? ? ? [? ?]]; split; auto; unfold WINDOW in *; lia. }
  intros [] s1 [H1 A1]. pose proof (after_on _ _ _ _ _ A1 curr) as Hon1. rewrite Hon in Hon1. pose proof Hon1 as Hc1. unfold on_of in Hc1.
  destruct (ss_ents s1 !! curr) as [c1|] eqn:Ec1; [|done]. injection Hc1 as Eon. apply runs_bind, (runs_get_se _ _ c1); [done|].
  unfold Ready in H1. rewrite (after_curr _ _ _ _ _ A1) in H1. apply runs_bind.
  apply (runs_mono _ _ (fun _ s' => Inv ∅ s' /\ after 1 s curr (on_of s) s')).
  { rewrite Eon. destruct (on_rq c).
    - eapply runs_mono; [apply (runs_enqueue _ s1 curr H1); [by apply queued_on|set_solver]|]. intros [] s2 [H2 A2].
      split; [|by eapply after_moved]. eapply inv_off, H2. set_solver.
    - apply runs_ret. split; [|done]. eapply inv_off, H1. intros x Hx%queued_on. assert (x <> curr) by congruence. set_solver. }
  intros [] s2 [H2 A2]. apply runs_upd_rq. split; [|by eapply after_set_curr].
  unfold Ready. eapply inv_off, inv_set_curr; [|exact H2|by left]. intros x Hx. cbn [cfs_curr set_curr ss_rq set_ss_rq].
  assert (0 < x); [|set_solver by lia]. apply (inv_addr _ _ H2). destruct Hx as [ex [Ex _]]. by exists ex.
Qed.

(** ** Time and preemption *)

Lemma many_order off s c : Inv off s -> off = {[c]} -> 1 < nr_running (ss_rq s) -> exists h order, ss_order s = h :: order.
Proof.
  intros H -> Hn. rewrite (inv_nr _ _ H) in Hn. pose proof (inv_tasks_nodup _ _ H) as Hd. pose proof (inv_tasks _ _ H) as Ht.
  destruct (tasks (ss_rq s)) as [|x [|y ts]]; cbn [length] in Hn; [lia..|]. apply NoDup_cons in Hd as [Hxy _].
  assert (exists z, queued s z /\ z <> c) as (z & Hz & Hzc).
  { destruct (decide (x = c)) as [->|]; [exists y|exists x]; (split; [apply Ht; set_solver|set_solver]). }
  apply (order_head _ _ z H Hz). set_solver.
Qed.

Lemma check_preempt_tick_ok n s0 c on s :
  Ready s -> after n s0 c on s -> n < 4 -> c <> 0 -> 
  runs (check_preempt_tick sys c) s (fun _ s' => Ready s' /\ after n s0 c on s').
Proof.
  intros H A Hn Hc0. assert (Hc : entity_of s c) by (rewrite <-(after_curr _ _ _ _ _ A) in *; by apply curr_entity).
  unfold check_preempt_tick. apply runs_bind.
  eapply runs_mono; [apply (keeps_ok ∅ [c] (sched_slice sys c) n s0 c on s); [apply keeps_sched_slice; set_solver|done..|by constructor|set_solver]|].
  intros ideal s1 [H1 A1]. assert (Hc1 : entity_of s1 c) by (rewrite <-(after_curr _ _ _ _ _ A1) in *; by apply curr_entity).
  pose proof Hc1 as [e E]. apply runs_bind, (runs_get_se _ _ e); [done|]. cbv zeta.
  case_match; [|case_match; [by apply runs_ret|case_match; [by apply runs_ret|]]].
  - eapply (keeps_ok ∅ []); [|done..|set_solver]. apply keeps_bind; [apply keeps_resched|intros []; apply keeps_clear_buddies].
  - apply runs_bind, runs_get_rq. destruct (Z.ltb_spec 1 (nr_running (ss_rq s1))) as [Hnr|]; [|by apply runs_ret].
    destruct (many_order _ _ _ H1 eq_refl Hnr) as (h & order & Eo). destruct (inv_front _ _ _ _ H1 Eo) as (eh & Eh & El & Hne & Hr).
    unfold __pick_next_entity. apply runs_bind, runs_bind, runs_get_rq. rewrite El, (proj2 (Z.eqb_neq _ _) Hne), Hr.
    apply runs_ret, runs_bind, (runs_get_se _ _ eh); [done|]. case_match; [by apply runs_ret|].
    case_match; [|by apply runs_ret]. eapply (keeps_ok ∅ []); [apply keeps_resched|done..|set_solver].
Qed.

Lemma tick_ok s queued :
  let curr := cfs_curr (ss_rq s) in
  Ready s -> curr <> 0 -> accountable s = true ->
  runs (task_tick_fair sys curr queued) s (fun _ s' => Ready s' /\ after 1 s curr (on_of s) s').
Proof.
  intros curr H Hn Hacc. unfold task_tick_fair, entity_tick. apply runs_bind.
  apply (runs_mono _ _ _ _ (update_curr_ok s H Hacc)). intros [] s1 [H1 A1].
  destruct queued; [eapply (keeps_ok ∅ []); [apply keeps_resched|done..|set_solver]|].
  apply runs_bind, runs_get_rq. case_match; [by apply check_preempt_tick_ok|by apply runs_ret].
Qed.

(** The part of the period that an entity may run. *)
Definition slice_of (s : sched_state) (e : sched_entity) : Z :=
  let q := ss_rq s in
  let w := weight (se_load e) in
  (calc_delta_mine (__sched_period sys (u64 (nr_running q + (if on_rq e then 0 else 1)))) w
     (if on_rq e then cfs_load q else update_load_add (cfs_load q) w)).1.

Lemma runs_sched_slice s p e : ss_ents s !! p = Some e ->
  runs (sched_slice sys p) s (fun d s' => d = slice_of s e /\ exists lw, s' = set_ss_rq (set_cfs_load lw (ss_rq s)) s).
Proof.
  intros E. unfold sched_slice, slice_of. apply runs_bind, runs_get_rq. apply runs_bind, (runs_get_se _ _ e); [done|]. cbv zeta.
  destruct (on_rq e); cbn [negb].
  - destruct (calc_delta_mine _ _ _) as [d lw]. apply runs_bind, runs_put_rq, runs_ret. split; [done|by exists lw].
  - apply runs_ret. split; [done|]. exists (cfs_load (ss_rq s)). destruct s as [[]]. done.
Qed.

(** Whether the tick ends the turn of the running entity [e]: it has used up
    its slice, or it is further ahead of the first entity than its slice. *)
Definition turn_over (s : sched_state) (e : sched_entity) : bool :=
  let ran := u64 (sum_exec_runtime e - prev_sum_exec_runtime e) in
  (slice_of s e <? ran) ||
  negb (ran <? sched_min_granularity sys) &&
  match ss_order s with
  | h :: _ =>
      match ss_ents s !! h with
      | Some eh => (1 <? nr_running (ss_rq s)) && (0 <=? lag e eh) && (slice_of s e <? lag e eh)
      | None => false
      end
  | [] => false
  end.

Lemma resched_clear s p (Q : unit -> sched_state -> Prop) :
  (forall s', need_resched (ss_rq s') = true -> Q tt s') -> runs (resched_task ;;; clear_buddies p) s Q.
Proof.
  intros HQ. apply runs_bind, runs_upd_rq. unfold clear_buddies, __clear_buddies. case_match; [by apply runs_ret, HQ|].
  apply runs_bind, runs_upd_rq, runs_upd_rq, HQ. cbn. by repeat case_match.
Qed.

Lemma check_preempt_tick_turn s c e :
  Ready s -> ss_ents s !! c = Some e ->
  runs (check_preempt_tick sys c) s (fun _ s' => need_resched (ss_rq s') = need_resched (ss_rq s) || turn_over s e).
Proof.
  intros R E. unfold check_preempt_tick. apply runs_bind. apply (runs_mono _ _ _ _ (runs_sched_slice s c e E)).
  intros d s1 (-> & lw & ->). apply runs_bind, (runs_get_se _ _ e); [done|]. unfold turn_over. cbv zeta.
  destruct (slice_of s e <? _) eqn:E1; [apply resched_clear; intros s' ->; by rewrite orb_true_r|]. change WAKEUP_PREEMPT with true. cbn [negb orb].
  destruct (_ <? sched_min_granularity sys); cbn [negb andb]; [apply runs_ret; by rewrite orb_false_r|].
  apply runs_bind, runs_get_rq. cbn [ss_rq set_ss_rq set_cfs_load nr_running].
  destruct (Z.ltb_spec 1 (nr_running (ss_rq s))) as [Hnr|]; cycle 1.
  { apply runs_ret. destruct (ss_order s); [|case_match]; by rewrite ?orb_false_r. }
  destruct (many_order _ _ _ R eq_refl Hnr) as (h & order & Eo). destruct (inv_front _ _ _ _ R Eo) as (eh & Eh & El & Hne & Hr).
  unfold __pick_next_entity. apply runs_bind, runs_bind, runs_get_rq. cbn [ss_rq set_ss_rq set_cfs_load rb_leftmost].
  rewrite El, (proj2 (Z.eqb_neq _ _) Hne), Hr, Eo, Eh. apply runs_ret, runs_bind, (runs_get_se _ _ eh); [done|].
  fold (lag e eh). cbn [andb]. rewrite Z.leb_antisym.
  destruct (lag e eh <? 0); cbn [negb andb]; [apply runs_ret; by rewrite orb_false_r|].
  destruct (slice_of s e <? lag e eh); [apply runs_upd_rq; by rewrite orb_true_r|]. apply runs_ret. by rewrite orb_false_r.
Qed.

Lemma inv_set_last off s p : Inv off s -> queued s p -> Inv off (set_ss_rq (set_last p (ss_rq s)) s).
Proof. intros [] Hp. split; try done. by right. Qed.

Lemma after_set_last n s0 c on s p : after n s0 c on s -> after n s0 c on (set_ss_rq (set_last p (ss_rq s)) s).
Proof. intros []. by split. Qed.

Lemma check_preempt_ok s p rt fair fork idle :
  let curr := cfs_curr (ss_rq s) in
  Ready s -> curr <> 0 -> entity_of s p -> accountable s = true ->
  runs (check_preempt_wakeup sys curr p rt fair fork idle) s (fun _ s' => Ready s' /\ after 1 s curr (on_of s) s').
Proof.
  intros curr H Hn Hp Hacc. unfold check_preempt_wakeup. apply runs_bind, runs_get_rq. cbv zeta. apply runs_bind.
  apply (runs_mono _ _ _ _ (update_curr_ok s H Hacc)). intros [] s1 [R1 A1].
  assert (Hr : runs resched_task s1 (fun _ s' => Ready s' /\ after 1 s curr (on_of s) s')).
  { eapply (keeps_ok ∅ []); [apply keeps_resched|done..|set_solver]. }
  case_match; [done|]. case_match; [by apply runs_ret|]. case_match; [by apply runs_ret|].
  change NEXT_BUDDY with false. cbn [andb]. apply runs_bind, runs_ret, runs_bind, runs_get_rq.
  assert (He : forall x, entity_of s x -> entity_of s1 x) by (intros x; by rewrite !entity_on, (after_on _ _ _ _ _ A1)).
  pose proof (He _ Hp) as Hp1. pose proof (He _ (curr_entity s H Hn)) as Hc1. fold curr in Hc1.
  pose proof Hp1 as [e E]. pose proof Hc1 as [c Ec]. apply runs_bind, (runs_get_se _ _ c); [done|].
  apply runs_bind, (runs_get_se _ _ e); [done|]. do 4 (case_match; [first [exact Hr|by apply runs_ret]|]).
  apply runs_bind. eapply runs_mono; [apply (keeps_ok ∅ [curr; p] _ 1 s curr (on_of s) s1); [apply keeps_wakeup_preempt; set_solver|done..|by repeat constructor|set_solver]|].
  intros r s2 [R2 A2]. case_match; [|by apply runs_ret]. apply runs_bind.
  eapply runs_mono; [apply (keeps_ok ∅ [] _ 1 s curr (on_of s) s2 (keeps_resched _ _)); [done..|set_solver]|]. intros [] s3 [R3 A3].
  assert (Hc3 : entity_of s3 curr) by (rewrite entity_on, (after_on _ _ _ _ _ A3), <-entity_on; by apply curr_entity).
  destruct Hc3 as [c3 Ec3]. apply runs_bind, (runs_get_se _ _ c3); [done|]. destruct (on_rq c3) eqn:Eon; cbn [negb orb]; [|by apply runs_ret].
  case_match; [by apply runs_ret|]. case_match; [|by apply runs_ret]. unfold set_last_buddy.
  apply runs_bind, (runs_get_se _ _ c3); [done|]. case_match; [|by apply runs_ret]. apply runs_upd_rq.
  split; [|by apply after_set_last]. apply inv_set_last; [exact R3|]. by exists c3.
Qed.

(** ** New and waking tasks *)

(** The child takes the place of its parent. *)
Lemma keeps_swap vs ps c p : c ∈ ps -> p ∈ ps -> c ∈ vs -> p ∈ vs -> c <> p ->
  keeps vs ps (let! ec := get_se c in
    let! ep := get_se p in
    if entity_before ec ep then
      put_se c (set_vruntime (vruntime ep) ec) ;;; put_se p (set_vruntime (vruntime ec) ep) ;;; resched_task
    else ret tt).
Proof.
  intros Hc Hp Vc Vp Hne s Hs. destruct (proj1 (Forall_forall _ _) Hs c Hc) as [ec Ec].
  destruct (proj1 (Forall_forall _ _) Hs p Hp) as [ep Ep]. apply runs_bind, (runs_get_se _ _ ec); [done|].
  apply runs_bind, (runs_get_se _ _ ep); [done|]. case_match; [|by apply runs_ret].
  apply runs_bind, (runs_put_se _ _ ec); [done|]. set (s1 := set_ss_ents _ s).
  assert (S1 : same vs s s1) by (apply (same_put_se _ _ _ ec); auto).
  assert (Ep1 : ss_ents s1 !! p = Some ep) by (by apply (eq_trans (lookup_insert_ne _ _ _ _ Hne))).
  apply runs_bind, (runs_put_se _ _ ep); [done|]. set (s2 := set_ss_ents _ s1).
  assert (S2 : same vs s1 s2) by (apply (same_put_se _ _ _ ep); auto).
  eapply runs_mono; [apply (keeps_resched vs [] s2 (Forall_nil_2 _))|]. intros [] s3 S3.
  transitivity s1; [done|]. by transitivity s2.
Qed.

Lemma fork_ok s p clock :
  let curr := cfs_curr (ss_rq s) in
  Ready s -> on_of s p = Some false -> p <> curr -> accountable (set_ss_rq (set_clock clock (ss_rq s)) s) = true ->
  runs (task_fork_fair sys p clock) s (fun _ s' => Ready s' /\ after 1 s curr (on_of s) s').
Proof.
  intros curr H Hp Hne Hacc. unfold task_fork_fair. apply runs_bind, runs_get_rq. cbv zeta. apply runs_bind, runs_upd_rq.
  set (s1 := set_ss_rq _ s). pose proof (set_clock_same s clock : same ∅ s s1) as S1.
  assert (R1 : Ready s1) by (by eapply same_ready; [exact S1|set_solver|]).
  apply runs_bind. apply (runs_mono _ _ _ _ (update_curr_ok s1 R1 Hacc)). intros [] s2 [R2 A2].
  assert (A2' : after 1 s curr (on_of s) s2).
  { apply (after_trans 0 1 s curr (on_of s) s1 curr (on_of s1)); [|done|done|].
    - eapply (after_same _ ∅ _ _ _ s); [apply after_refl|exact S1|done].
    - intros x. by rewrite (on_same _ _ _ _ S1). }
  pose proof (after_curr _ _ _ _ _ A2') as Hc2. pose proof (after_on _ _ _ _ _ A2' p) as Hp2. rewrite Hp in Hp2.
  apply (keeps_ok {[curr; p]} (if curr =? 0 then [p] else [curr; p])); [|done|done|done| |].
  - fold curr. destruct (Z.eqb_spec curr 0) as [|Hn]; cbn [negb]; rewrite ?andb_false_r, ?andb_true_r.
    + pose proof (keeps_place_entity sys {[curr; p]} [p] p true). keeps_go.
    + pose proof (keeps_place_entity sys {[curr; p]} [curr; p] p true).
      pose proof (keeps_swap {[curr; p]} [curr; p] curr p ltac:(set_solver) ltac:(set_solver) ltac:(set_solver) ltac:(set_solver) ltac:(done)).
      keeps_go.
  - assert (entity_of s2 p) by (by eapply entity_some). destruct (Z.eqb_spec curr 0) as [|Hn]; repeat constructor; auto.
    rewrite <-Hc2 in *. by apply curr_entity.
  - intros x [->%elem_of_singleton| ->%elem_of_singleton]%elem_of_union.
    + rewrite <-Hc2. by apply curr_off.
    + eapply inv_not_in; [exact R2|done|by right].
Qed.

Lemma waking_ok s p : Ready s -> on_of s p = Some false ->
  runs (task_waking_fair p) s (fun _ s' => Ready s' /\ after 0 s (cfs_curr (ss_rq s)) (on_of s) s').
Proof.
  intros H Hp. apply (keeps_ok {[p]} [p]); [unfold task_waking_fair; keeps_go|done|apply after_refl|done| |].
  - constructor; [by eapply entity_some|done].
  - intros x ->%elem_of_singleton. eapply inv_not_in; [exact H|done|by right].
Qed.
End Ops.
