(* ===== verification/CfsRun.v ===== *)
(** Sequences of calls of the fair scheduling class, in the orders in which
    [kernel/sched.c] makes them. *)
From S2P Require Import Prelude Wp Cfs CfsSpec CfsInv CfsOps.

(** The calls.  The running task is the one of the run queue; [UpdateClock] is
    [update_rq_clock]. *)
Inductive sched_op : Type :=
| UpdateClock (now : Z)
| EnqueueTask (p : Z) (wakeup waking : bool)
| DequeueTask (p : Z) (sleep : bool)
| YieldTask (clock : Z)
| CheckPreempt (p : Z) (rt fair fork idle : bool)
| PickNextTask
| PutPrevTask
| TaskTick (queued : bool)
| TaskFork (p clock : Z)
| SetCurrTask (p : Z)
| TaskWaking (p : Z).

Section Run.
  Context {S : Type} `{Sched S} (sys : sysctl).

(** The result is the task that was picked. *)
Definition run_op (o : sched_op) : M S Z :=
  let! q := get_rq in
  let curr := cfs_curr q in
  match o with
  | UpdateClock now => upd_rq (set_clock now) ;;; ret 0
  | EnqueueTask p wakeup waking => enqueue_task_fair sys p wakeup waking ;;; ret 0
  | DequeueTask p sleep => dequeue_task_fair p sleep ;;; ret 0
  | YieldTask clock => yield_task_fair sys curr clock ;;; ret 0
  | CheckPreempt p rt fair fork idle => check_preempt_wakeup sys curr p rt fair fork idle ;;; ret 0
  | PickNextTask => pick_next_task_fair sys
  | PutPrevTask => put_prev_task_fair curr ;;; ret 0
  | TaskTick queued => task_tick_fair sys curr queued ;;; ret 0
  | TaskFork p clock => task_fork_fair sys p clock ;;; ret 0
  | SetCurrTask p => set_curr_task_fair p ;;; ret 0
  | TaskWaking p => task_waking_fair p ;;; ret 0
  end.

Fixpoint run_ops (l : list sched_op) : M S (list Z) :=
  match l with
  | [] => ret []
  | o :: l => let! r := run_op o in let! rs := run_ops l in ret (r :: rs)
  end.
End Run.

(** Tasks are queued and dequeued in turn, the next task is picked when none
    runs, and what needs a running task is called while one runs. *)
Definition legal (s : sched_state) (o : sched_op) : bool :=
  let curr := cfs_curr (ss_rq s) in
  let on p b := match on_of s p with Some b' => Bool.eqb b b' | None => false end in
  let exists_ p := match on_of s p with Some _ => true | None => false end in
  match o with
  | UpdateClock _ => true
  | EnqueueTask p _ _ => exists_ p
  | DequeueTask p _ => on p true
  | YieldTask _ | PutPrevTask | TaskTick _ => negb (curr =? 0)
  | CheckPreempt p _ _ _ _ => negb (curr =? 0) && exists_ p
  | PickNextTask => curr =? 0
  | TaskFork p _ => on p false && negb (p =? curr)
  | SetCurrTask p => (curr =? 0) && exists_ p
  | TaskWaking p => on p false
  end.

(** Where the running task is accounted for, the virtual runtimes are and stay
    in the window. *)
Definition fits (s : sched_state) (o : sched_op) : bool :=
  let on p := match on_of s p with Some b => b | None => false end in
  let at_ clock := set_ss_rq (set_clock clock (ss_rq s)) s in
  match o with
  | EnqueueTask p wakeup waking => on p || accountable (if negb wakeup || waking then absolute p s else s)
  | DequeueTask _ _ | CheckPreempt _ _ _ _ _ | TaskTick _ => accountable s
  | PutPrevTask => negb (on (cfs_curr (ss_rq s))) || accountable s
  | YieldTask clock | TaskFork _ clock => accountable (at_ clock)
  | UpdateClock _ | PickNextTask | SetCurrTask _ | TaskWaking _ => true
  end.

(** What is running and what is on the run queue after a call. *)
Definition curr_after (s : sched_state) (o : sched_op) (r : Z) : Z :=
  match o with
  | PickNextTask => r
  | PutPrevTask => 0
  | SetCurrTask p => p
  | _ => cfs_curr (ss_rq s)
  end.
Definition on_after (s : sched_state) (o : sched_op) : Z -> option bool :=
  match o with
  | EnqueueTask p _ _ => mark p true (on_of s)
  | DequeueTask p _ => mark p false (on_of s)
  | _ => on_of s
  end.

Section Steps.
  Context (sys : sysctl).

Lemma after_mono n m s0 c on s : n <= m -> after n s0 c on s -> after m s0 c on s.
Proof. intros Hn [? ? ? [? ?]]. split; auto. unfold WINDOW in *. lia. Qed.

Lemma run_op_unit (m : M sched_state unit) n c on on' s :
  runs m s (fun _ s' => Ready s' /\ after n s c on s') -> n <= 2 -> (forall x, on x = on' x) ->
  runs (m ;;; ret 0) s (fun r s' => Ready s' /\ after 2 s c on' s' /\ r = 0).
Proof.
  intros Hm Hn Ho. apply runs_bind. apply (runs_mono _ _ _ _ Hm). intros [] s' [R [? A ? ?]]. apply runs_ret.
  split_and!; [done| |done]. apply (after_mono n); [done|]. split; [done| |done..]. intros x. rewrite <-(Ho x). apply A.
Qed.

(** The answers of the checks. *)
Lemma legal_on s p b : match on_of s p with Some b' => Bool.eqb b b' | None => false end = true -> on_of s p = Some b.
Proof. destruct (on_of s p); [|done]. by intros ->%eqb_prop. Qed.

Lemma legal_exists s p : match on_of s p with Some _ => true | None => false end = true -> entity_of s p.
Proof. rewrite entity_on. destruct (on_of s p); [by eexists|done]. Qed.

Lemma enqueue_task_ok s p wakeup waking :
  Ready s -> entity_of s p ->
  match on_of s p with Some b => b | None => false end || accountable (if negb wakeup || waking then absolute p s else s) = true ->
  runs (enqueue_task_fair sys p wakeup waking) s (fun _ s' =>
    Ready s' /\ after 1 s (cfs_curr (ss_rq s)) (mark p true (on_of s)) s').
Proof.
  intros R [e E] F. unfold enqueue_task_fair. apply runs_bind, (runs_get_se _ _ e); [done|].
  assert (Eo : on_of s p = Some (on_rq e)) by (unfold on_of; by rewrite E). rewrite Eo in F.
  destruct (on_rq e); [|by apply enqueue_entity_ok].
  apply runs_ret. split; [done|]. destruct (after_mono 0 1 _ _ _ _ ltac:(done) (after_refl s)) as [? _ ? ?]. split; auto.
  intros x. unfold mark. by destruct (Z.eqb_spec x p) as [->|].
Qed.

(** Every legal call that fits runs, and keeps the invariant. *)
Lemma run_op_ok s o : Ready s -> legal s o = true -> fits s o = true ->
  runs (run_op sys o) s (fun r s' => Ready s' /\ after 2 s (curr_after s o r) (on_after s o) s' /\
    match o with
    | PickNextTask => if nr_running (ss_rq s) =? 0 then r = 0 else queued s r /\ fair_choice sys s r
    | _ => r = 0
    end).
Proof.
  intros R L F. unfold run_op. apply runs_bind, runs_get_rq. cbv zeta.
  destruct o; cbn [legal fits curr_after on_after] in *; rewrite ?andb_true_iff, ?negb_true_iff, ?Z.eqb_neq, ?Z.eqb_eq in L.
  - eapply run_op_unit; [|instantiate (1 := 0); lia|done]. eapply (keeps_ok ∅ []); [keeps_go|done|apply after_refl|done|done|set_solver].
  - apply (run_op_unit _ 1 _ (mark p true (on_of s))); [|lia|done]. apply enqueue_task_ok; [done|by apply legal_exists|done].
  - apply (run_op_unit _ 2 _ (mark p false (on_of s))); [|lia|done]. apply dequeue_entity_ok; [done|by apply legal_on|done].
  - apply (run_op_unit _ 1 _ (on_of s)); [|lia|done]. by apply yield_ok.
  - apply (run_op_unit _ 1 _ (on_of s)); [|lia|done]. apply check_preempt_ok; [done|apply L|apply legal_exists, L|done].
  - apply (runs_mono _ _ _ _ (pick_next_task_ok sys s R L)). intros r s' (R' & A & Hf). split_and!; [done|by apply (after_mono 0)|done].
  - apply (run_op_unit _ 1 _ (on_of s)); [|lia|done]. apply put_prev_ok; [done|done|]. intros Ho. by rewrite Ho in F.
  - apply (run_op_unit _ 1 _ (on_of s)); [|lia|done]. by apply tick_ok.
  - apply (run_op_unit _ 1 _ (on_of s)); [|lia|done]. apply fork_ok; [done|apply legal_on, L|apply L|done].
  - apply (run_op_unit _ 0 _ (on_of s)); [|lia|done]. apply set_next_entity_ok; [done|apply L|apply legal_exists, L].
  - apply (run_op_unit _ 0 _ (on_of s)); [|lia|done]. apply waking_ok; [done|by apply legal_on].
Qed.

(** A sequence whose calls are legal and fit when they are made. *)
Fixpoint good_run (s : sched_state) (l : list sched_op) : bool :=
  match l with
  | [] => true
  | o :: l =>
      legal s o && fits s o &&
      match run_op sys o s with Ok (_, s') => good_run s' l | Err _ => true end
  end.

Lemma run_ops_ok l s : Ready s -> good_run s l = true ->
  runs (run_ops sys l) s (fun rs s' => Ready s' /\ length rs = length l).
Proof.
  revert s. induction l as [|o l IH]; intros s R G; [by apply runs_ret|]. cbn [good_run] in G.
  rewrite !andb_true_iff in G. destruct G as [[L F] G]. cbn [run_ops]. apply runs_bind.
  destruct (run_op_ok s o R L F) as (r & s1 & E & R1 & _). rewrite E in G. apply (runs_ok _ _ _ _ _ E).
  apply runs_bind. apply (runs_mono _ _ _ _ (IH s1 R1 G)). intros rs s2 [R2 Hl]. apply runs_ret. split; [done|]. cbn. by rewrite Hl.
Qed.
End Steps.
