(* ===== verification/SchedCore.v ===== *)
(** The core of the scheduler: [schedule], waking, forking, the tick, [nice]
    and [sched_yield] of [kernel/sched.c], on a processor whose tasks are all
    in the fair class.

    The state is that of the run queue of the fair class, behind the interface
    [Sched], with the rest of the run queue and the tasks.  The address 0 stands
    for the idle task, which is in no queue.  What the core calls through
    [p->sched_class] is the parameter [call]; the checks for the class of real
    time tasks, which has none, are left out, as are statistics that only
    features which are off, the balancing between processors or reports read
    ([avg_overlap], [avg_running], [avg_idle], [cpu_load], [nvcsw]). *)
From S2P Require Import Prelude Wp Cfs CfsRun.

(** ** Data *)

Definition TASK_RUNNING : Z := 0.
Definition TASK_INTERRUPTIBLE : Z := 1.
Definition TASK_UNINTERRUPTIBLE : Z := 2.
Definition TASK_WAKEKILL : Z := 128.
Definition TASK_WAKING : Z := 256.

Definition MAX_RT_PRIO : Z := 100.
Definition DEFAULT_PRIO : Z := 120.
Definition NICE_TO_PRIO (nice : Z) : Z := MAX_RT_PRIO + nice + 20.
Definition PRIO_TO_NICE (prio : Z) : Z := prio - MAX_RT_PRIO - 20.

(** Of [struct task_struct] what the core uses beside [se] and the policy.
    [sig_pending], [kill_pending]: a signal, or [SIGKILL], is pending;
    [freezing]: [PF_FREEZING]. *)
Record task_struct : Type := mk_task {
  state : Z;
  sig_pending : bool;
  kill_pending : bool;
  freezing : bool;
  static_prio : Z;
  prio : Z;
  normal_prio : Z;
  rt_priority : Z;
  sched_reset_on_fork : bool;
  last_wakeup : Z;
  start_runtime : Z;
}.

Definition set_state v t := mk_task v (sig_pending t) (kill_pending t) (freezing t) (static_prio t) (prio t) (normal_prio t) (rt_priority t) (sched_reset_on_fork t) (last_wakeup t) (start_runtime t).
Definition set_static_prio v t := mk_task (state t) (sig_pending t) (kill_pending t) (freezing t) v (prio t) (normal_prio t) (rt_priority t) (sched_reset_on_fork t) (last_wakeup t) (start_runtime t).
Definition set_prio v t := mk_task (state t) (sig_pending t) (kill_pending t) (freezing t) (static_prio t) v (normal_prio t) (rt_priority t) (sched_reset_on_fork t) (last_wakeup t) (start_runtime t).
Definition set_normal_prio v t := mk_task (state t) (sig_pending t) (kill_pending t) (freezing t) (static_prio t) (prio t) v (rt_priority t) (sched_reset_on_fork t) (last_wakeup t) (start_runtime t).
Definition set_reset_on_fork v t := mk_task (state t) (sig_pending t) (kill_pending t) (freezing t) (static_prio t) (prio t) (normal_prio t) (rt_priority t) v (last_wakeup t) (start_runtime t).
Definition set_last_wakeup v t := mk_task (state t) (sig_pending t) (kill_pending t) (freezing t) (static_prio t) (prio t) (normal_prio t) (rt_priority t) (sched_reset_on_fork t) v (start_runtime t).
Definition set_start_runtime v t := mk_task (state t) (sig_pending t) (kill_pending t) (freezing t) (static_prio t) (prio t) (normal_prio t) (rt_priority t) (sched_reset_on_fork t) (last_wakeup t) v.
Definition set_signals sig kill t := mk_task (state t) sig kill (freezing t) (static_prio t) (prio t) (normal_prio t) (rt_priority t) (sched_reset_on_fork t) (last_wakeup t) (start_runtime t).

(** Of [struct rq] what is not in the run queue of the fair class, and the
    tasks of the processor. *)
Record rq : Type := mk_rq {
  rq_nr_running : Z;
  nr_switches : Z;
  nr_uninterruptible : Z;
  rq_curr : Z;
  rq_tasks : gmap Z task_struct;
}.

Definition set_rq_nr v r := mk_rq v (nr_switches r) (nr_uninterruptible r) (rq_curr r) (rq_tasks r).
Definition set_nr_switches v r := mk_rq (rq_nr_running r) v (nr_uninterruptible r) (rq_curr r) (rq_tasks r).
Definition set_nr_unint v r := mk_rq (rq_nr_running r) (nr_switches r) v (rq_curr r) (rq_tasks r).
Definition set_rq_curr v r := mk_rq (rq_nr_running r) (nr_switches r) (nr_uninterruptible r) v (rq_tasks r).
Definition set_rq_tasks v r := mk_rq (rq_nr_running r) (nr_switches r) (nr_uninterruptible r) (rq_curr r) v.

(** ** Weights *)

Definition prio_to_weight : list Z :=
  [88761; 71755; 56483; 46273; 36291;
   29154; 23254; 18705; 14949; 11916;
   9548; 7620; 6100; 4904; 3906;
   3121; 2501; 1991; 1586; 1277;
   1024; 820; 655; 526; 423;
   335; 272; 215; 172; 137;
   110; 87; 70; 56; 45;
   36; 29; 23; 18; 15].

Definition prio_to_wmult : list Z :=
  [48388; 59856; 76040; 92818; 118348;
   147320; 184698; 229616; 287308; 360437;
   449829; 563644; 704093; 875809; 1099582;
   1376151; 1717300; 2157191; 2708050; 3363326;
   4194304; 5237765; 6557202; 8165337; 10153587;
   12820798; 15790321; 19976592; 24970740; 31350126;
   39045157; 49367440; 61356676; 76695844; 95443717;
   119304647; 148102320; 186737708; 238609294; 286331153].

Definition WEIGHT_IDLEPRIO : Z := 3.
Definition WMULT_IDLEPRIO : Z := 1431655765.

Definition task_has_rt_policy (e : sched_entity) : bool := (policy e =? 1) || (policy e =? 2).
Definition rt_prio (prio : Z) : bool := prio <? MAX_RT_PRIO.

(** ** Small functions *)

Definition task_contributes_to_load (t : task_struct) : bool :=
  negb (Z.land (state t) TASK_UNINTERRUPTIBLE =? 0) && negb (freezing t).

Definition signal_pending_state (st : Z) (t : task_struct) : bool :=
  if Z.land st (Z.lor TASK_INTERRUPTIBLE TASK_WAKEKILL) =? 0 then false
  else if negb (sig_pending t) then false
  else negb (Z.land st TASK_INTERRUPTIBLE =? 0) || kill_pending t.

Definition update_avg (avg sample : Z) : Z :=
  let diff := s64 (sample - avg) in u64 (avg + Z.shiftr diff 3).

Definition task_normal_prio (e : sched_entity) (t : task_struct) : Z :=
  if task_has_rt_policy e then MAX_RT_PRIO - 1 - rt_priority t else static_prio t.

Section Core.
  Context {S : Type} `{Sched S} (sys : sysctl) (call : sched_op -> M S Z).

(** ** Access to the state *)

Definition cfs {A} (m : M S A) : M (S * rq) A := zoom fst (fun s x => (s, x.2)) m.
Definition call_class (o : sched_op) : M (S * rq) Z := cfs (call o).
Definition get_this : M (S * rq) rq := gets snd.
Definition upd_this (f : rq -> rq) : M (S * rq) unit := modify (fun x => (x.1, f x.2)).
Definition get_task (p : Z) : M (S * rq) task_struct := deref (fun x => rq_tasks x.2 !! p).
Definition upd_task (p : Z) (f : task_struct -> task_struct) : M (S * rq) unit :=
  let! t := get_task p in upd_this (fun r => set_rq_tasks (<[p := f t]> (rq_tasks r)) r).

(** ** Queueing *)

(** [now]: the clock without the time spent in interrupts. *)
Definition update_rq_clock (now : Z) : M (S * rq) unit :=
  let! q := cfs get_rq in
  if clock_task q <? now then call_class (UpdateClock now) ;;; ret tt else ret tt.

(** The clock that a function of the class reads which updates it itself. *)
Definition clock_at (now : Z) : M (S * rq) Z := let! q := cfs get_rq in ret (Z.max (clock_task q) now).

Definition set_load_weight (p : Z) : M (S * rq) unit :=
  let! e := cfs (get_se p) in
  let! t := get_task p in
  if task_has_rt_policy e then cfs (upd_se p (set_se_load (mk_load 0 WMULT_CONST)))
  else if policy e =? SCHED_IDLE then cfs (upd_se p (set_se_load (mk_load WEIGHT_IDLEPRIO WMULT_IDLEPRIO)))
  else
    let! w := deref (fun _ => zget prio_to_weight (static_prio t - MAX_RT_PRIO)) in
    let! i := deref (fun _ => zget prio_to_wmult (static_prio t - MAX_RT_PRIO)) in
    cfs (upd_se p (set_se_load (mk_load w i))).

Definition enqueue_task (p : Z) (wakeup : bool) : M (S * rq) unit :=
  (if wakeup then let! e := cfs (get_se p) in upd_task p (set_start_runtime (sum_exec_runtime e)) else ret tt) ;;;
  let! t := get_task p in
  call_class (EnqueueTask p wakeup (state t =? TASK_WAKING)) ;;;
  cfs (upd_se p (set_on_rq true)).

Definition dequeue_task (p : Z) (sleep : bool) : M (S * rq) unit :=
  (if sleep then
     let! t := get_task p in
     if negb (last_wakeup t =? 0) then upd_task p (set_last_wakeup 0)
     else cfs (upd_se p (fun e => set_avg_wakeup (update_avg (avg_wakeup e) (sched_wakeup_granularity sys)) e))
   else ret tt) ;;;
  call_class (DequeueTask p sleep) ;;;
  cfs (upd_se p (set_on_rq false)).

Definition effective_prio (p : Z) : M (S * rq) Z :=
  let! e := cfs (get_se p) in
  upd_task p (fun t => set_normal_prio (task_normal_prio e t) t) ;;;
  let! t := get_task p in
  if negb (rt_prio (prio t)) then ret (normal_prio t) else ret (prio t).

Definition inc_nr_running : M (S * rq) unit := upd_this (fun r => set_rq_nr (u64 (rq_nr_running r + 1)) r).
Definition dec_nr_running : M (S * rq) unit := upd_this (fun r => set_rq_nr (u64 (rq_nr_running r - 1)) r).

Definition activate_task (p : Z) (wakeup : bool) : M (S * rq) unit :=
  let! t := get_task p in
  (if task_contributes_to_load t then upd_this (fun r => set_nr_unint (u64 (nr_uninterruptible r - 1)) r) else ret tt) ;;;
  enqueue_task p wakeup ;;;
  inc_nr_running.

Definition deactivate_task (p : Z) (sleep : bool) : M (S * rq) unit :=
  let! t := get_task p in
  (if task_contributes_to_load t then upd_this (fun r => set_nr_unint (u64 (nr_uninterruptible r + 1)) r) else ret tt) ;;;
  dequeue_task p sleep ;;;
  dec_nr_running.

(** [fork]: [WF_FORK].  The class of the idle task comes after that of [p]. *)
Definition check_preempt_curr (p : Z) (fork : bool) : M (S * rq) unit :=
  let! r := get_this in
  if negb (rq_curr r =? 0) then call_class (CheckPreempt p false true fork false) ;;; ret tt
  else cfs resched_task.

(** ** Waking and forking *)

(** The task that wakes another one. *)
Definition account_wakeup : M (S * rq) unit :=
  let! r := get_this in
  if rq_curr r =? 0 then ret tt
  else
    let! e := cfs (get_se (rq_curr r)) in
    let! t := get_task (rq_curr r) in
    let sample := sum_exec_runtime e in
    let sample := if negb (last_wakeup t =? 0) then u64 (sample - last_wakeup t) else u64 (sample - start_runtime t) in
    cfs (upd_se (rq_curr r) (fun e => set_avg_wakeup (update_avg (avg_wakeup e) sample) e)) ;;;
    upd_task (rq_curr r) (set_last_wakeup (sum_exec_runtime e)).

(** [mask]: the states to wake; the clock is read again after the processor has
    been chosen. *)
Definition try_to_wake_up (p mask now now' : Z) (in_interrupt : bool) : M (S * rq) Z :=
  update_rq_clock now ;;;
  let! t := get_task p in
  if Z.land (state t) mask =? 0 then ret 0
  else
    let! e := cfs (get_se p) in
    let! success :=
      (if on_rq e then ret 0
       else
         let! r := get_this in
         (if p =? rq_curr r then ret tt
          else
            (if task_contributes_to_load t then upd_this (fun r => set_nr_unint (u64 (nr_uninterruptible r - 1)) r) else ret tt) ;;;
            upd_task p (set_state TASK_WAKING) ;;;
            call_class (TaskWaking p) ;;;
            update_rq_clock now') ;;;
         activate_task p true ;;;
         (if negb in_interrupt then account_wakeup else ret tt) ;;;
         ret 1) in
    check_preempt_curr p false ;;;
    upd_task p (set_state TASK_RUNNING) ;;;
    ret success.

Definition __sched_fork (p : Z) : M (S * rq) unit :=
  cfs (upd_se p (fun e => set_prev_sum 0 (set_sum_exec 0 (set_exec_start 0 e)))) ;;;
  upd_task p (fun t => set_start_runtime 0 (set_last_wakeup 0 t)) ;;;
  cfs (upd_se p (fun e => set_on_rq false (set_avg_wakeup (sched_wakeup_granularity sys) e))).

(** Revert to the default priority and policy if requested. *)
Definition reset_prio (p : Z) (t : task_struct) : M (S * rq) unit :=
  if sched_reset_on_fork t then
    let! e := cfs (get_se p) in
    (if task_has_rt_policy e then
       cfs (upd_se p (set_policy SCHED_NORMAL)) ;;;
       upd_task p (fun t => set_normal_prio (static_prio t) t)
     else ret tt) ;;;
    (if PRIO_TO_NICE (static_prio t) <? 0 then
       upd_task p (fun t => set_normal_prio (NICE_TO_PRIO 0) (set_static_prio (NICE_TO_PRIO 0) t)) ;;;
       set_load_weight p
     else ret tt) ;;;
    upd_task p (set_reset_on_fork false)
  else ret tt.

(** The parent is the running task. *)
Definition sched_fork (p now : Z) : M (S * rq) unit :=
  __sched_fork p ;;;
  upd_task p (set_state TASK_RUNNING) ;;;
  let! t := get_task p in
  reset_prio p t ;;;
  let! r := get_this in
  let! c := get_task (rq_curr r) in
  upd_task p (set_prio (normal_prio c)) ;;;
  let! clock := clock_at now in
  call_class (TaskFork p clock) ;;;
  ret tt.

Definition wake_up_new_task (p now : Z) : M (S * rq) unit :=
  upd_task p (set_state TASK_WAKING) ;;;
  upd_task p (set_state TASK_RUNNING) ;;;
  update_rq_clock now ;;;
  activate_task p false ;;;
  check_preempt_curr p true.

(** ** Time, priorities and switching *)

Definition scheduler_tick (now : Z) : M (S * rq) unit :=
  update_rq_clock now ;;;
  let! r := get_this in
  if negb (rq_curr r =? 0) then call_class (TaskTick false) ;;; ret tt else ret tt.

Definition set_user_nice (p nice now : Z) : M (S * rq) unit :=
  let! t := get_task p in
  if (PRIO_TO_NICE (static_prio t) =? nice) || (nice <? -20) || (19 <? nice) then ret tt
  else
    update_rq_clock now ;;;
    let! e := cfs (get_se p) in
    if task_has_rt_policy e then upd_task p (set_static_prio (NICE_TO_PRIO nice))
    else
      (if on_rq e then dequeue_task p false else ret tt) ;;;
      upd_task p (set_static_prio (NICE_TO_PRIO nice)) ;;;
      set_load_weight p ;;;
      let! t := get_task p in
      let old_prio := prio t in
      let! new := effective_prio p in
      upd_task p (set_prio new) ;;;
      let delta := s32 (new - old_prio) in
      if on_rq e then
        enqueue_task p false ;;;
        let! r := get_this in
        if (delta <? 0) || (0 <? delta) && (rq_curr r =? p) then cfs resched_task else ret tt
      else ret tt.

Definition put_prev_task (p : Z) : M (S * rq) unit :=
  if p =? 0 then ret tt else call_class PutPrevTask ;;; ret tt.

Definition pick_next_task : M (S * rq) Z :=
  let! r := get_this in
  let! q := cfs get_rq in
  let! p := (if rq_nr_running r =? nr_running q then call_class PickNextTask else ret 0) in
  if negb (p =? 0) then ret p else call_class PickNextTask.

(** One pass; [active]: [PREEMPT_ACTIVE] is set. *)
Definition schedule (now : Z) (active : bool) : M (S * rq) unit :=
  let! r := get_this in
  let prev := rq_curr r in
  update_rq_clock now ;;;
  cfs (upd_rq (set_resched false)) ;;;
  (if prev =? 0 then ret tt
   else
     let! t := get_task prev in
     if negb (state t =? TASK_RUNNING) && negb active then
       if signal_pending_state (state t) t then upd_task prev (set_state TASK_RUNNING)
       else deactivate_task prev true
     else ret tt) ;;;
  put_prev_task prev ;;;
  let! next := pick_next_task in
  if negb (prev =? next) then
    upd_this (fun r => set_nr_switches (u64 (nr_switches r + 1)) r) ;;;
    upd_this (set_rq_curr next)
  else ret tt.

Definition sys_sched_yield (now now' : Z) : M (S * rq) unit :=
  let! clock := clock_at now in
  call_class (YieldTask clock) ;;;
  schedule now' false.
End Core.
