(* ===== verification/SchedInv.v ===== *)
(** The core of the scheduler keeps to the protocol of the fair class.

    The core runs on the specification of [CfsSpec.v]; its calls of the class
    are checked first, and a call with virtual runtimes outside of the window
    ends the run with [Horizon].  Whether a call is legal is not checked but
    proved. *)
From S2P Require Import Prelude Wp Cfs CfsSpec CfsInv CfsOps CfsRun SchedCore.

(** ** Runs up to the horizon *)

Definition runsH {S A} (m : M S A) (s : S) (Q : A -> S -> Prop) : Prop := m s = Err Horizon \/ runs m s Q.

Section RunsH.
  Context {S : Type}.

Lemma runsH_runs {A} (m : M S A) s Q : runs m s Q -> runsH m s Q.
Proof. by right. Qed.

Lemma runsH_ret {A} (a : A) s (Q : A -> S -> Prop) : Q a s -> runsH (ret a) s Q.
Proof. intros HQ. by apply runsH_runs, runs_ret. Qed.

Lemma runsH_bind {A B} (m : M S A) (k : A -> M S B) s Q :
  runsH m s (fun a s' => runsH (k a) s' Q) -> runsH (let! a := m in k a) s Q.
Proof.
  intros [E|(a & s' & E & [E'|(b & s'' & E' & HQ)])].
  - left. unfold bind. by rewrite E.
  - left. by rewrite (bind_ok _ _ _ _ _ E).
  - right. exists b, s''. by rewrite (bind_ok _ _ _ _ _ E).
Qed.

Lemma runsH_mono {A} (m : M S A) s (Q Q' : A -> S -> Prop) :
  runsH m s Q -> (forall a s', Q a s' -> Q' a s') -> runsH m s Q'.
Proof. intros [E|HQ] Hm; [by left|right]. by eapply runs_mono. Qed.
End RunsH.

(** ** A view of the state *)

(** What the core's decisions depend on, per task. *)
Record task_core : Type := mk_tc { tc_state : Z; tc_freezing : bool; tc_prio : Z; tc_sig : bool; tc_kill : bool }.
Definition core_of (t : task_struct) : task_core :=
  mk_tc (state t) (freezing t) (static_prio t) (sig_pending t) (kill_pending t).

Abbreviation core_state := (sched_state * rq)%type.

(** The run queue is ready; [on] and [ts] describe the tasks, [c] is the running
    entity, [k] the running task, [n] and [u] are the counters. *)
Record at_view (x : core_state) (on : Z -> option bool) (ts : Z -> option task_core) (c k n u : Z) : Prop := {
  at_ready : Ready x.1;
  at_on : forall p, on_of x.1 p = on p;
  at_ts : forall p, core_of <$> rq_tasks x.2 !! p = ts p;
  at_c : cfs_curr (ss_rq x.1) = c;
  at_k : rq_curr x.2 = k;
  at_n : rq_nr_running x.2 = n;
  at_u : nr_uninterruptible x.2 = u;
}.

Definition put_at {A} (p : Z) (v : A) (f : Z -> option A) (x : Z) : option A := if x =? p then Some v else f x.

Section Views.
  Context (sys : sysctl).

(** The calls of the class, checked. *)
Definition checked (o : sched_op) : M sched_state Z := fun s => if fits s o then run_op sys o s else Err Horizon.

Lemma zoom_runsH {A} (m : M sched_state A) (x : core_state) Q :
  runsH m x.1 (fun a s => Q a (s, x.2)) -> runsH (cfs m) x Q.
Proof.
  unfold cfs. intros [E|(a & s' & E & HQ)].
  - left. unfold zoom. by rewrite E.
  - right. exists a, (s', x.2). by rewrite (zoom_ok _ _ _ _ _ _ E).
Qed.

Lemma call_ok x on ts c k n u o :
  at_view x on ts c k n u -> legal x.1 o = true ->
  runsH (call_class checked o) x (fun r x' =>
    at_view x' (match o with EnqueueTask p _ _ => mark p true on | DequeueTask p _ => mark p false on | _ => on end)
      ts (match o with PickNextTask => r | PutPrevTask => 0 | SetCurrTask p => p | _ => c end) k n u /\
    match o with
    | PickNextTask => if nr_running (ss_rq x.1) =? 0 then r = 0 else on r = Some true /\ fair_choice sys x.1 r
    | _ => r = 0
    end).
Proof.
  intros [R Ho Ht Hc Hk Hn Hu] L. apply zoom_runsH. unfold checked. destruct (fits x.1 o) eqn:F; [right|left; by rewrite F].
  destruct (run_op_ok sys x.1 o R L F) as (r & s' & E & R' & [A1 A2 _ _] & Hf). exists r, s'. rewrite F. split; [done|]. split.
  - split; try done; cbn [fst].
    + intros p. rewrite A2. destruct o; cbn; auto; unfold mark; by case_match.
    + rewrite A1. by destruct o.
  - destruct o; try done. case_match; [done|]. destruct Hf as [Hq Hf]. split; [|done]. rewrite <-Ho. by apply queued_on.
Qed.

(** Changes of entities that do not matter. *)
Lemma keeps_view {A} vs ps (m : M sched_state A) x on ts c k n u :
  keeps vs ps m -> at_view x on ts c k n u -> (forall p, p ∈ ps -> is_Some (on p)) -> (forall p, p ∈ vs -> on p = Some false) ->
  runsH (cfs m) x (fun _ x' => at_view x' on ts c k n u).
Proof.
  intros Hm [R Ho Ht Hc Hk Hn Hu] Hp Hv. apply zoom_runsH, runsH_runs.
  eapply runs_mono; [apply Hm|].
  - apply Forall_forall. intros p Hin. rewrite entity_on, Ho. auto.
  - intros a s' S. split; try done; cbn.
    + eapply same_ready; [exact S| |done]. intros p Hin. eapply inv_not_in; [exact R|rewrite Ho; by apply Hv|by right].
    + intros p. by rewrite (on_same _ _ _ _ S).
    + by rewrite (same_curr _ _ _ S).
Qed.

(** ** Rules *)

Lemma view_ext x on on' ts ts' c k n u :
  at_view x on ts c k n u -> (forall p, on p = on' p) -> (forall p, ts p = ts' p) -> at_view x on' ts' c k n u.
Proof. intros [] Ho Ht. split; try done; intros p; by rewrite <-?Ho, <-?Ht. Qed.

Lemma H_get_task x on ts c k n u p w (Q : task_struct -> core_state -> Prop) :
  at_view x on ts c k n u -> ts p = Some w -> (forall t, core_of t = w -> Q t x) -> runsH (get_task p) x Q.
Proof.
  intros V E HQ. rewrite <-(at_ts _ _ _ _ _ _ _ V) in E. destruct (rq_tasks x.2 !! p) as [t|] eqn:Et; [|done].
  injection E as E. apply runsH_runs, (runs_deref _ _ t); [done|by apply HQ].
Qed.

Lemma H_upd_task x on ts c k n u p w w' f (Q : unit -> core_state -> Prop) :
  at_view x on ts c k n u -> ts p = Some w -> (forall t, core_of t = w -> core_of (f t) = w') ->
  (forall x', at_view x' on (put_at p w' ts) c k n u -> Q tt x') -> runsH (upd_task p f) x Q.
Proof.
  intros V E Hf HQ. apply runsH_bind, (H_get_task _ _ _ _ _ _ _ p w _ V E). intros t Et.
  apply runsH_runs, runs_modify, HQ. destruct V. split; try done; cbn.
  intros q. unfold put_at. destruct (Z.eqb_spec q p) as [->|Hq].
  - rewrite lookup_insert_eq. cbn. by rewrite (Hf t Et).
  - by rewrite lookup_insert_ne.
Qed.

Lemma H_get_se x on ts c k n u p b (Q : sched_entity -> core_state -> Prop) :
  at_view x on ts c k n u -> on p = Some b -> (forall e, on_rq e = b -> Q e x) -> runsH (cfs (get_se p)) x Q.
Proof.
  intros V E HQ. rewrite <-(at_on _ _ _ _ _ _ _ V) in E. unfold on_of in E. destruct (ss_ents x.1 !! p) as [e|] eqn:Ee; [|done].
  injection E as E. apply zoom_runsH, runsH_runs, (runs_get_se _ _ e); [done|]. destruct x. by apply HQ.
Qed.

Lemma H_get_rq x (Q : cfs_rq -> core_state -> Prop) : Q (ss_rq x.1) x -> runsH (cfs get_rq) x Q.
Proof. intros HQ. apply zoom_runsH, runsH_runs, runs_get_rq. by destruct x. Qed.

Lemma H_get_this x (Q : rq -> core_state -> Prop) : Q x.2 x -> runsH get_this x Q.
Proof. intros HQ. by apply runsH_runs, runs_gets. Qed.

Lemma H_upd_this x f (Q : unit -> core_state -> Prop) : Q tt (x.1, f x.2) -> runsH (upd_this f) x Q.
Proof. intros HQ. by apply runsH_runs, runs_modify. Qed.

(** Writing [on_rq] once more. *)
Lemma H_set_on x on ts c k n u p b f (Q : unit -> core_state -> Prop) :
  at_view x on ts c k n u -> on p = Some b ->
  (forall e, on_rq (f e) = b /\ weight (se_load (f e)) = weight (se_load e) /\ vruntime (f e) = vruntime e) ->
  (forall x', at_view x' on ts c k n u -> Q tt x') -> runsH (cfs (upd_se p f)) x Q.
Proof.
  intros V E Hf HQ. pose proof E as E'. rewrite <-(at_on _ _ _ _ _ _ _ V) in E'. unfold on_of in E'.
  destruct (ss_ents x.1 !! p) as [e|] eqn:Ee; [|done]. injection E' as E'. destruct (Hf e) as (F1 & F2 & F3).
  apply zoom_runsH, runsH_runs, (runs_upd_se _ _ e); [done|]. apply HQ.
  assert (S : same ∅ x.1 (set_ss_ents (<[p := f e]> (ss_ents x.1)) x.1)) by (apply (same_put_se _ _ _ e); auto; congruence).
  destruct V. split; try done; cbn [fst]; [by eapply same_ready; [exact S|set_solver|]|].
  intros q. by rewrite (on_same _ _ _ _ S).
Qed.

Lemma H_keeps {A} vs ps (m : M sched_state A) x on ts c k n u (Q : A -> core_state -> Prop) :
  at_view x on ts c k n u -> keeps vs ps m -> (forall p, p ∈ ps -> is_Some (on p)) -> (forall p, p ∈ vs -> on p = Some false) ->
  (forall a x', at_view x' on ts c k n u -> Q a x') -> runsH (cfs m) x Q.
Proof. intros V Hm Hp Hv HQ. eapply runsH_mono; [by eapply keeps_view|]. auto. Qed.

(** A call that is legal by what the view says. *)
Lemma H_call x on ts c k n u o (Q : Z -> core_state -> Prop) :
  at_view x on ts c k n u -> legal x.1 o = true ->
  (forall r x', at_view x' (match o with EnqueueTask p _ _ => mark p true on | DequeueTask p _ => mark p false on | _ => on end)
      ts (match o with PickNextTask => r | PutPrevTask => 0 | SetCurrTask p => p | _ => c end) k n u ->
    match o with
    | PickNextTask => if nr_running (ss_rq x.1) =? 0 then r = 0 else on r = Some true /\ fair_choice sys x.1 r
    | _ => r = 0
    end -> Q r x') -> runsH (call_class checked o) x Q.
Proof. intros V L HQ. eapply runsH_mono; [by apply call_ok|]. intros r x' [V' Hr]. by apply HQ. Qed.

(** ** Weights *)

(** The weight of a task that is not on the run queue does not count. *)
Lemma inv_new_load off s p e lw :
  Inv off s -> ss_ents s !! p = Some e -> on_rq e = false ->
  Inv off (set_ss_ents (<[p := set_se_load lw e]> (ss_ents s)) s).
Proof.
  intros H E Hoff. set (s' := set_ss_ents _ s).
  assert (Ho : forall x, on_of s' x = on_of s x).
  { intros x. unfold on_of, s'. cbn. destruct (decide (x = p)) as [->|Hx]; [by rewrite lookup_insert_eq, E|by rewrite lookup_insert_ne]. }
  assert (Hq : forall x, queued s' x <-> queued s x) by (intros x; by rewrite !queued_on, Ho).
  assert (He : forall x, entity_of s' x <-> entity_of s x) by (intros x; by rewrite !entity_on, Ho).
  assert (Hp : p ∉ tasks (ss_rq s)) by (rewrite (inv_tasks _ _ H); intros [e' [E' ?]]; congruence).
  destruct H. split; try done.
  - intros x. by rewrite Hq.
  - eapply sorted_ext; [|done]. intros x _. unfold key_of, s'. cbn [ss_ents set_ss_ents ss_rq].
    destruct (decide (x = p)) as [->|Hx]; [by rewrite lookup_insert_eq, E|by rewrite lookup_insert_ne].
  - by rewrite He.
  - intros x. rewrite He. auto.
  - unfold s'. cbn [ss_ents set_ss_ents]. rewrite <-(size_dom (D := gset Z)), dom_insert_lookup_L, size_dom; [done|by exists e].
  - intros x. by rewrite Hq.
  - cbn [ss_rq set_ss_ents s']. rewrite inv_load. f_equal. clear -Hp. unfold total. induction (tasks (ss_rq s)) as [|x l IH]; cbn; [done|].
    rewrite IH by set_solver. f_equal. unfold weight_of. cbn. rewrite lookup_insert_ne; [done|set_solver].
  - by rewrite Hq.
  - by rewrite Hq.
Qed.

Lemma H_set_load x on ts c k n u p lw (Q : unit -> core_state -> Prop) :
  at_view x on ts c k n u -> on p = Some false -> (forall x', at_view x' on ts c k n u -> Q tt x') ->
  runsH (cfs (upd_se p (set_se_load lw))) x Q.
Proof.
  intros V E HQ. pose proof E as E'. rewrite <-(at_on _ _ _ _ _ _ _ V) in E'. unfold on_of in E'.
  destruct (ss_ents x.1 !! p) as [e|] eqn:Ee; [|done]. injection E' as E'.
  apply zoom_runsH, runsH_runs, (runs_upd_se _ _ e); [done|]. apply HQ. destruct V. split; try done; cbn [fst].
  - by apply inv_new_load.
  - intros q. rewrite <-at_on0. unfold on_of. cbn. destruct (decide (q = p)) as [->|Hq];
      [by rewrite lookup_insert_eq, Ee|by rewrite lookup_insert_ne].
Qed.

(** ** Queueing *)

Lemma clock_ok x on ts c k n u now (Q : unit -> core_state -> Prop) :
  at_view x on ts c k n u -> (forall x', at_view x' on ts c k n u -> Q tt x') -> runsH (update_rq_clock checked now) x Q.
Proof.
  intros V HQ. apply runsH_bind, H_get_rq. case_match; [|by apply runsH_ret, HQ].
  apply runsH_bind. eapply H_call; [exact V|done|]. intros r x' V' _. by apply runsH_ret, HQ.
Qed.

(** The view does not depend on what a task remembers of its wakeups. *)
Lemma H_upd_same x on ts c k n u p w f (Q : unit -> core_state -> Prop) :
  at_view x on ts c k n u -> ts p = Some w -> (forall t, core_of (f t) = core_of t) ->
  (forall x', at_view x' on ts c k n u -> Q tt x') -> runsH (upd_task p f) x Q.
Proof.
  intros V E Hf HQ. eapply (H_upd_task _ _ _ _ _ _ _ _ w w); [exact V|exact E|by intros t <-|]. intros x' V'. apply HQ.
  eapply view_ext; [exact V'|done|]. intros q. unfold put_at. by destruct (Z.eqb_spec q p) as [->|].
Qed.

Lemma legal_has x on ts c k n u p b :
  at_view x on ts c k n u -> on p = Some b ->
  match on_of x.1 p with Some b' => Bool.eqb b b' | None => false end = true /\
  match on_of x.1 p with Some _ => true | None => false end = true.
Proof. intros V E. rewrite (at_on _ _ _ _ _ _ _ V), E. split; [by destruct b|done]. Qed.

Lemma enqueue_task_view x on ts c k n u p b w wakeup (Q : unit -> core_state -> Prop) :
  at_view x on ts c k n u -> on p = Some b -> ts p = Some w ->
  (forall x', at_view x' (mark p true on) ts c k n u -> Q tt x') -> runsH (enqueue_task checked p wakeup) x Q.
Proof.
  intros V Ep Et HQ. apply runsH_bind. apply (runsH_mono _ _ (fun _ x' => at_view x' on ts c k n u)).
  { destruct wakeup; [|by apply runsH_ret]. apply runsH_bind. eapply H_get_se; [exact V|exact Ep|]. intros e _.
    by eapply H_upd_same; [exact V|exact Et|done|]. }
  intros [] x1 V1. apply runsH_bind. eapply H_get_task; [exact V1|exact Et|]. intros t _. apply runsH_bind.
  eapply H_call; [exact V1|apply (legal_has _ _ _ _ _ _ _ _ _ V1 Ep)|]. intros r x2 V2 _.
  eapply H_set_on; [exact V2|unfold mark; by rewrite Z.eqb_refl|done|exact HQ].
Qed.

Lemma dequeue_task_view x on ts c k n u p w sleep (Q : unit -> core_state -> Prop) :
  at_view x on ts c k n u -> on p = Some true -> ts p = Some w ->
  (forall x', at_view x' (mark p false on) ts c k n u -> Q tt x') -> runsH (dequeue_task sys checked p sleep) x Q.
Proof.
  intros V Ep Et HQ. apply runsH_bind. apply (runsH_mono _ _ (fun _ x' => at_view x' on ts c k n u)).
  { destruct sleep; [|by apply runsH_ret]. apply runsH_bind. eapply H_get_task; [exact V|exact Et|]. intros t _.
    case_match; [by eapply H_upd_same; [exact V|exact Et|done|]|].
    eapply (H_keeps ∅ [p]); [exact V|keeps_go| |set_solver|done]. intros q ->%list_elem_of_singleton. by eexists. }
  intros [] x1 V1. apply runsH_bind. eapply H_call; [exact V1|apply (legal_has _ _ _ _ _ _ _ _ _ V1 Ep)|]. intros r x2 V2 _.
  eapply H_set_on; [exact V2|unfold mark; by rewrite Z.eqb_refl|done|exact HQ].
Qed.

(** Whether a task that sleeps counts as uninterruptible. *)
Definition loads (w : task_core) : bool :=
  negb (Z.land (tc_state w) TASK_UNINTERRUPTIBLE =? 0) && negb (tc_freezing w).

Lemma loads_core t : task_contributes_to_load t = loads (core_of t).
Proof. done. Qed.

(** The counter of uninterruptible tasks moves by [d] if the task counts. *)
Definition shift (w : task_core) (d u : Z) : Z := if loads w then u64 (u + d) else u.

Lemma shift_view x on ts c k n u w d :
  at_view x on ts c k n u ->
  runsH (if loads w then upd_this (fun r => set_nr_unint (u64 (nr_uninterruptible r + d)) r) else ret tt) x
    (fun _ x' => at_view x' on ts c k n (shift w d u)).
Proof.
  unfold shift. intros V. case_match; [|by apply runsH_ret]. apply H_upd_this. destruct V as [? ? ? ? ? ? Hu]. split; try done.
  cbn [snd nr_uninterruptible set_nr_unint]. by rewrite Hu.
Qed.

Lemma activate_task_view x on ts c k n u p b w wakeup (Q : unit -> core_state -> Prop) :
  at_view x on ts c k n u -> on p = Some b -> ts p = Some w ->
  (forall x', at_view x' (mark p true on) ts c k (u64 (n + 1)) (shift w (-1) u) -> Q tt x') ->
  runsH (activate_task checked p wakeup) x Q.
Proof.
  intros V Ep Et HQ. apply runsH_bind. eapply H_get_task; [exact V|exact Et|]. intros t Ht. apply runsH_bind.
  rewrite loads_core, Ht. eapply runsH_mono; [exact (shift_view _ _ _ _ _ _ _ w (-1) V)|]. intros [] x1 V1. apply runsH_bind. eapply enqueue_task_view; [exact V1|exact Ep|exact Et|]. intros x2 V2.
  apply H_upd_this, HQ. destruct V2. split; try done. cbn [snd rq_nr_running set_rq_nr]. by rewrite at_n0.
Qed.

Lemma deactivate_task_view x on ts c k n u p w sleep (Q : unit -> core_state -> Prop) :
  at_view x on ts c k n u -> on p = Some true -> ts p = Some w ->
  (forall x', at_view x' (mark p false on) ts c k (u64 (n - 1)) (shift w 1 u) -> Q tt x') ->
  runsH (deactivate_task sys checked p sleep) x Q.
Proof.
  intros V Ep Et HQ. apply runsH_bind. eapply H_get_task; [exact V|exact Et|]. intros t Ht. apply runsH_bind.
  rewrite loads_core, Ht. eapply runsH_mono; [exact (shift_view _ _ _ _ _ _ _ w 1 V)|]. intros [] x1 V1. apply runsH_bind. eapply dequeue_task_view; [exact V1|exact Ep|exact Et|]. intros x2 V2.
  apply H_upd_this, HQ. destruct V2. split; try done. cbn [snd rq_nr_running set_rq_nr]. by rewrite at_n0.
Qed.

Lemma check_preempt_view x on ts c n u p b fork (Q : unit -> core_state -> Prop) :
  at_view x on ts c c n u -> on p = Some b -> (forall x', at_view x' on ts c c n u -> Q tt x') ->
  runsH (check_preempt_curr checked p fork) x Q.
Proof.
  intros V Ep HQ. apply runsH_bind, H_get_this. rewrite (at_k _ _ _ _ _ _ _ V). destruct (Z.eqb_spec c 0) as [|Hc]; cbn [negb].
  - eapply (H_keeps ∅ []); [exact V|apply keeps_resched|set_solver|set_solver|]. intros [] x' V'. by apply HQ.
  - apply runsH_bind. eapply H_call; [exact V| |]; cbn [legal].
    + rewrite (at_c _ _ _ _ _ _ _ V), (proj2 (Z.eqb_neq _ _) Hc). by apply (legal_has _ _ _ _ _ _ _ _ _ V Ep).
    + intros r x' V' _. by apply runsH_ret, HQ.
Qed.

Lemma set_load_weight_view x on ts c k n u p w (Q : unit -> core_state -> Prop) :
  at_view x on ts c k n u -> on p = Some false -> ts p = Some w -> MAX_RT_PRIO <= tc_prio w < MAX_RT_PRIO + 40 ->
  (forall x', at_view x' on ts c k n u -> Q tt x') -> runsH (set_load_weight p) x Q.
Proof.
  intros V Ep Et Hw HQ. apply runsH_bind. eapply H_get_se; [exact V|exact Ep|]. intros e _. apply runsH_bind.
  eapply H_get_task; [exact V|exact Et|]. intros t Ht. case_match; [by eapply H_set_load|]. case_match; [by eapply H_set_load|].
  assert (Hs : static_prio t = tc_prio w) by (by rewrite <-Ht). unfold MAX_RT_PRIO in *.
  destruct (zget_Some prio_to_weight (static_prio t - 100)) as (v & Ev & _); [cbn; lia|].
  destruct (zget_Some prio_to_wmult (static_prio t - 100)) as (i & Ei & _); [cbn; lia|].
  apply runsH_bind, runsH_runs, (runs_deref _ _ v); [done|]. apply runsH_bind, runsH_runs, (runs_deref _ _ i); [done|].
  by eapply H_set_load.
Qed.

Lemma effective_prio_view x on ts c k n u p b w (Q : Z -> core_state -> Prop) :
  at_view x on ts c k n u -> on p = Some b -> ts p = Some w -> (forall r x', at_view x' on ts c k n u -> Q r x') ->
  runsH (effective_prio p) x Q.
Proof.
  intros V Ep Et HQ. apply runsH_bind. eapply H_get_se; [exact V|exact Ep|]. intros e _. apply runsH_bind.
  eapply H_upd_same; [exact V|exact Et|done|]. intros x1 V1. apply runsH_bind. eapply H_get_task; [exact V1|exact Et|].
  intros t _. case_match; by apply runsH_ret, HQ.
Qed.

Lemma account_wakeup_view x on ts c k n u (Q : unit -> core_state -> Prop) :
  at_view x on ts c k n u -> k = 0 \/ is_Some (on k) /\ is_Some (ts k) -> (forall x', at_view x' on ts c k n u -> Q tt x') ->
  runsH account_wakeup x Q.
Proof.
  intros V Hk HQ. apply runsH_bind, H_get_this. rewrite (at_k _ _ _ _ _ _ _ V). destruct (Z.eqb_spec k 0) as [|Hn]; [by apply runsH_ret, HQ|].
  destruct Hk as [|[[b Eb] [w Ew]]]; [done|]. apply runsH_bind. eapply H_get_se; [exact V|exact Eb|]. intros e _. apply runsH_bind.
  eapply H_get_task; [exact V|exact Ew|]. intros t _. cbv zeta. apply runsH_bind.
  eapply (H_keeps ∅ [k]); [exact V|keeps_go| |set_solver|]; [intros q ->%list_elem_of_singleton; by eexists|]. intros [] x1 V1.
  by eapply H_upd_same; [exact V1|exact Ew|done|].
Qed.
End Views.
