(* ===== verification/SchedOps.v ===== *)
(** The operations of the core keep its invariant. *)
From S2P Require Import Prelude Wp Cfs CfsSpec CfsInv CfsOps CfsRun SchedCore SchedInv.

(** ** Counting *)

(** [n] is the number of addresses with the property [P]. *)
Definition counts (P : Z -> Prop) (n : Z) : Prop := exists X : gset Z, n = Z.of_nat (size X) /\ forall p, p ∈ X <-> P p.

Lemma counts_ext P P' n : (forall p, P p <-> P' p) -> counts P n -> counts P' n.
Proof. intros HP (X & -> & HX). exists X. split; [done|]. intros p. by rewrite HX, HP. Qed.

Lemma counts_unique P n n' : counts P n -> counts P n' -> n = n'.
Proof.
  intros (X & -> & HX) (X' & -> & HX'). assert (X = X') as ->; [|done]. apply set_eq. intros p. by rewrite HX, HX'.
Qed.

Lemma counts_add P P' n p : ~ P p -> (forall q, P' q <-> q = p \/ P q) -> counts P n -> counts P' (n + 1).
Proof.
  intros Hp HP (X & -> & HX). exists ({[p]} ∪ X). split.
  - rewrite size_union, size_singleton; [lia|]. intros q ->%elem_of_singleton. by rewrite HX.
  - intros q. rewrite HP, elem_of_union, elem_of_singleton, HX. done.
Qed.

Lemma counts_remove P P' n p : P p -> (forall q, P' q <-> q <> p /\ P q) -> counts P n -> counts P' (n - 1).
Proof.
  intros Hp HP (X & -> & HX). exists (X ∖ {[p]}). split.
  - assert (Hs : {[p]} ⊆ X) by (intros q ->%elem_of_singleton; by apply HX).
    pose proof (subseteq_size _ _ Hs). rewrite size_singleton in *. rewrite size_difference, size_singleton by done. lia.
  - intros q. rewrite HP, elem_of_difference, elem_of_singleton, HX. tauto.
Qed.

Lemma counts_bound off s P n : Inv off s -> (forall p, P p -> entity_of s p) -> counts P n -> 0 <= n < 2 ^ 64.
Proof.
  intros H HP (X & -> & HX). split; [lia|]. pose proof (inv_size _ _ H) as Hs. rewrite <-(size_dom (D := gset Z)) in Hs.
  assert (size X <= size (dom (ss_ents s)))%nat; [|lia]. apply subseteq_size. intros p Hp. apply elem_of_dom, HP. by apply HX.
Qed.

(** The fair class counts the tasks on its run queue. *)
Lemma counts_queued off s : Inv off s -> counts (queued s) (nr_running (ss_rq s)).
Proof.
  intros H. exists (list_to_set (tasks (ss_rq s))). split.
  - rewrite (inv_nr _ _ H), size_list_to_set by apply H. done.
  - intros p. rewrite elem_of_list_to_set. apply H.
Qed.

(** ** Invariant *)

(** A task that sleeps and counts as load. *)
Definition blocked (on : Z -> option bool) (ts : Z -> option task_core) (p : Z) : Prop :=
  on p = Some false /\ exists w, ts p = Some w /\ loads w = true.

Record good_view (on : Z -> option bool) (ts : Z -> option task_core) (c n u : Z) : Prop := {
  gv_run : c <> 0 -> on c = Some true;
  gv_dom : forall p, is_Some (on p) <-> is_Some (ts p);
  gv_prio : forall p w, ts p = Some w -> MAX_RT_PRIO <= tc_prio w < MAX_RT_PRIO + 40;
  gv_n : counts (fun p => on p = Some true) n;
  gv_u : counts (blocked on ts) u;
}.

Definition ts_of (x : core_state) (p : Z) : option task_core := core_of <$> rq_tasks x.2 !! p.

(** Between operations: the run queue of the fair class is ready, the core and
    the class agree on the running task, which is on the run queue, every entity
    is that of a task with a valid priority, and the counters are right. *)
Record CoreInv (x : core_state) : Prop := {
  core_ready : Ready x.1;
  core_curr : rq_curr x.2 = cfs_curr (ss_rq x.1);
  core_view : good_view (on_of x.1) (ts_of x) (rq_curr x.2) (rq_nr_running x.2) (nr_uninterruptible x.2);
}.

Lemma good_view_ext on on' ts ts' c n u :
  (forall p, on p = on' p) -> (forall p, ts p = ts' p) -> good_view on ts c n u -> good_view on' ts' c n u.
Proof.
  intros Ho Ht []. split.
  - by rewrite <-Ho.
  - intros p. by rewrite <-Ho, <-Ht.
  - intros p w. rewrite <-Ht. apply gv_prio0.
  - eapply counts_ext; [|done]. intros p. cbv beta. by rewrite Ho.
  - eapply counts_ext; [|done]. intros p. unfold blocked. by rewrite Ho, Ht.
Qed.

(** ** Transitions of the view *)

(** [on] is about so few addresses that numbers of them do not overflow. *)
Definition few (on : Z -> option bool) : Prop :=
  forall P n, (forall p, P p -> is_Some (on p)) -> counts P n -> 0 <= n < 2 ^ 64.

Lemma view_few x on ts c k n u : at_view x on ts c k n u -> few on.
Proof.
  intros V P m HP. apply (counts_bound _ _ _ _ (at_ready _ _ _ _ _ _ _ V)). intros p Hp.
  rewrite entity_on, (at_on _ _ _ _ _ _ _ V). auto.
Qed.

Lemma mark_eq p b on : mark p b on p = Some b.
Proof. unfold mark. by rewrite Z.eqb_refl. Qed.
Lemma mark_ne p b on q : q <> p -> mark p b on q = on q.
Proof. intros Hq. unfold mark. by rewrite (proj2 (Z.eqb_neq _ _) Hq). Qed.
Lemma put_at_eq {A} p (v : A) f : put_at p v f p = Some v.
Proof. unfold put_at. by rewrite Z.eqb_refl. Qed.
Lemma put_at_ne {A} p (v : A) f q : q <> p -> put_at p v f q = f q.
Proof. intros Hq. unfold put_at. by rewrite (proj2 (Z.eqb_neq _ _) Hq). Qed.

Lemma mark_dom p b b' on q : on p = Some b -> is_Some (mark p b' on q) <-> is_Some (on q).
Proof. intros E. unfold mark. destruct (Z.eqb_spec q p) as [->|]; [rewrite E|done]. by split; intros _; eexists. Qed.

(** A number of tasks, as the code computes it. *)
Lemma counts_u64 on P n : few on -> (forall p, P p -> is_Some (on p)) -> counts P n -> counts P (u64 n).
Proof. intros Hf HP Hc. by rewrite (uwrap_small 64) by by apply (Hf P). Qed.

(** A task changes its state while it is on the run queue, or to one that counts
    like the old one. *)
Lemma good_put on ts c n u p w w' :
  good_view on ts c n u -> ts p = Some w -> MAX_RT_PRIO <= tc_prio w' < MAX_RT_PRIO + 40 ->
  on p = Some true \/ loads w' = loads w -> good_view on (put_at p w' ts) c n u.
Proof.
  intros [] Et Hw Hp. split; try done.
  - intros q. rewrite gv_dom0. destruct (decide (q = p)) as [->|Hq]; [rewrite put_at_eq, Et|by rewrite put_at_ne].
    by split; intros _; eexists.
  - intros q v. destruct (decide (q = p)) as [->|Hq]; [rewrite put_at_eq; by intros [= <-]|rewrite put_at_ne by done; apply gv_prio0].
  - eapply counts_ext; [|done]. intros q. unfold blocked. destruct (decide (q = p)) as [->|Hq]; [rewrite put_at_eq, Et|by rewrite put_at_ne].
    destruct Hp as [Hp|Hp]; [by rewrite Hp; split; intros [? _]|]. split; intros [H1 (v & [= <-] & Hl)]; (split; [done|]); eexists; (split; [done|congruence]).
Qed.

Lemma good_wake on ts c n u p w :
  good_view on ts c n u -> on p = Some false -> ts p = Some w -> few on ->
  good_view (mark p true on) ts c (u64 (n + 1)) (shift w (-1) u).
Proof.
  intros G Ep Et Hf. pose proof G as []. split.
  - intros Hc. destruct (decide (c = p)) as [->|]; [apply mark_eq|rewrite mark_ne; auto].
  - intros q. by rewrite <-gv_dom0, (mark_dom p false).
  - done.
  - apply (counts_u64 on); [done|intros q Hq; apply (mark_dom p false true on q Ep); by eexists|].
    eapply (counts_add _ _ _ p); [|intros q; cbv beta|exact gv_n0]; [cbv beta; congruence|].
    destruct (decide (q = p)) as [->|]; [rewrite mark_eq; tauto|rewrite mark_ne by done; tauto].
  - assert (Hb : forall q, blocked (mark p true on) ts q <-> q <> p /\ blocked on ts q).
    { intros q. unfold blocked. destruct (decide (q = p)) as [->|Hq]; [rewrite mark_eq|rewrite mark_ne by done; tauto].
      split; [by intros [? _]|by intros [? _]]. }
    unfold shift. destruct (loads w) eqn:El.
    + apply (counts_u64 on); [done|intros q [_ [Hq _]]%Hb; by eexists|].
      apply (counts_remove (blocked on ts) _ _ p); [split; [done|by exists w]|exact Hb|done].
    + eapply counts_ext; [|exact gv_u0]. intros q. rewrite Hb. split; [|tauto]. intros Hq. split; [|done]. intros ->.
      destruct Hq as [_ (v & Ev & Hl)]. congruence.
Qed.

Lemma good_sleep on ts c n u p w :
  good_view on ts c n u -> on p = Some true -> ts p = Some w -> few on ->
  good_view (mark p false on) ts 0 (u64 (n - 1)) (shift w 1 u).
Proof.
  intros G Ep Et Hf. pose proof G as []. split.
  - done.
  - intros q. by rewrite <-gv_dom0, (mark_dom p true).
  - done.
  - apply (counts_u64 on); [done|intros q Hq; apply (mark_dom p true false on q Ep); by eexists|].
    eapply (counts_remove _ _ _ p); [|intros q; cbv beta|exact gv_n0]; [exact Ep|].
    destruct (decide (q = p)) as [->|]; [rewrite mark_eq; split; [done|tauto]|rewrite mark_ne by done; tauto].
  - assert (Hp : ~ blocked on ts p) by (intros [? _]; congruence). unfold shift. destruct (loads w) eqn:El.
    + apply (counts_u64 on); [done|intros q [Hq _]; apply (mark_dom p true false on q Ep); by eexists|].
      eapply (counts_add _ _ _ p); [exact Hp| |exact gv_u0]. intros q. unfold blocked.
      destruct (decide (q = p)) as [->|]; [rewrite mark_eq|rewrite mark_ne by done; tauto].
      split; [by left|]. intros _. split; [done|by exists w].
    + eapply counts_ext; [|exact gv_u0]. intros q. unfold blocked. destruct (decide (q = p)) as [->|]; [rewrite mark_eq|by rewrite mark_ne].
      split; [by intros [? _]; congruence|]. intros [_ (v & Ev & Hl)]. congruence.
Qed.

Lemma good_pick on ts c n u r : good_view on ts c n u -> r = 0 \/ on r = Some true -> good_view on ts r n u.
Proof. intros [] Hr. split; try done. by destruct Hr. Qed.

(** ** States between operations *)

(** [x] satisfies the invariant, and shows [on], [ts] and the running task [c]. *)
Definition shows (x : core_state) (on : Z -> option bool) (ts : Z -> option task_core) (c : Z) : Prop :=
  exists n u, at_view x on ts c c n u /\ good_view on ts c n u.

Lemma inv_shows x : CoreInv x -> shows x (on_of x.1) (ts_of x) (rq_curr x.2).
Proof. intros [R Hc G]. exists (rq_nr_running x.2), (nr_uninterruptible x.2). split; [by split|done]. Qed.

Lemma shows_inv x on ts c : shows x on ts c ->
  CoreInv x /\ (forall p, on_of x.1 p = on p) /\ (forall p, ts_of x p = ts p) /\ rq_curr x.2 = c.
Proof.
  intros (n & u & [R Ho Ht Hc Hk Hn Hu] & G). split; [|done]. split; [done|congruence|]. rewrite Hk, Hn, Hu.
  eapply good_view_ext; [intros p; symmetry; apply Ho|intros p; symmetry; apply Ht|done].
Qed.

(** The idle task is not one of the tasks. *)
Lemma shows_zero x on ts c : shows x on ts c -> on 0 = None /\ ts 0 = None.
Proof.
  intros (n & u & V & G). assert (Eo : on 0 = None).
  { destruct (on 0) as [b|] eqn:E; [|done]. rewrite <-(at_on _ _ _ _ _ _ _ V) in E.
    assert (Ee : entity_of x.1 0) by (apply entity_on; by eexists).
    pose proof (inv_addr _ _ (at_ready _ _ _ _ _ _ _ V) 0 Ee). lia. }
  split; [done|]. pose proof (gv_dom _ _ _ _ _ G 0) as Hd. rewrite Eo in Hd. destruct (ts 0); [|done].
  destruct (proj2 Hd) as [? [=]]. by eexists.
Qed.

(** The task in another state. *)
Definition tc_to (st : Z) (w : task_core) : task_core := mk_tc st (tc_freezing w) (tc_prio w) (tc_sig w) (tc_kill w).

Lemma put_at_twice {A} p (v v' : A) f q : put_at p v' (put_at p v f) q = put_at p v' f q.
Proof. unfold put_at. by case_match. Qed.

Lemma put_at_same {A} p (v : A) f q : f p = Some v -> put_at p v f q = f q.
Proof. intros E. unfold put_at. by destruct (Z.eqb_spec q p) as [->|]. Qed.

Section Ops.
  Context (sys : sysctl).

Lemma H_to x on ts c k n u p w st (Q : unit -> core_state -> Prop) :
  at_view x on ts c k n u -> ts p = Some w -> (forall x', at_view x' on (put_at p (tc_to st w) ts) c k n u -> Q tt x') ->
  runsH (upd_task p (set_state st)) x Q.
Proof. intros V Et HQ. eapply (H_upd_task _ _ _ _ _ _ _ p w (tc_to st w)); [exact V|exact Et|by intros t <-|done]. Qed.

Lemma scheduler_tick_ok x on ts c now :
  shows x on ts c -> runsH (scheduler_tick (checked sys) now) x (fun _ x' => shows x' on ts c).
Proof.
  intros (n & u & V & G). apply runsH_bind. eapply clock_ok; [exact V|]. intros x1 V1. apply runsH_bind, H_get_this.
  rewrite (at_k _ _ _ _ _ _ _ V1). destruct (Z.eqb_spec c 0) as [|Hc]; cbn [negb]; [apply runsH_ret; by exists n, u|].
  apply runsH_bind. eapply H_call; [exact V1| |].
  - cbn [legal]. by rewrite (at_c _ _ _ _ _ _ _ V1), (proj2 (Z.eqb_neq _ _) Hc).
  - intros r x2 V2 _. apply runsH_ret. by exists n, u.
Qed.

(** A new task gets on the run queue. *)
Lemma wake_up_new_task_ok x on ts c p w now :
  shows x on ts c -> on p = Some false -> ts p = Some w -> loads w = false ->
  runsH (wake_up_new_task (checked sys) p now) x (fun _ x' =>
    shows x' (mark p true on) (put_at p (tc_to TASK_RUNNING w) ts) c).
Proof.
  intros (n & u & V & G) Ep Et El. apply runsH_bind. eapply H_to; [exact V|exact Et|]. intros x1 V1. apply runsH_bind.
  eapply H_to; [exact V1|apply put_at_eq|]. intros x2 V2. set (w' := tc_to TASK_RUNNING w).
  apply (view_ext _ _ on _ (put_at p w' ts)) in V2; [|done|intros q; apply put_at_twice].
  assert (G' : good_view on (put_at p w' ts) c n u).
  { eapply good_put; [exact G|exact Et|exact (gv_prio _ _ _ _ _ G p w Et)|right; by rewrite El]. }
  apply runsH_bind. eapply clock_ok; [exact V2|]. intros x3 V3. apply runsH_bind.
  eapply activate_task_view; [exact V3|exact Ep|apply put_at_eq|]. intros x4 V4.
  eapply check_preempt_view; [exact V4|apply mark_eq|]. intros x5 V5. eexists _, _. split; [exact V5|].
  by apply good_wake; [|done|apply put_at_eq|eapply view_few].
Qed.

(** What a wakeup does: the task is woken if it is in one of the states and not
    on the run queue. *)
Definition hits (mask : Z) (w : task_core) : bool := negb (Z.land (tc_state w) mask =? 0).

Lemma wake_accounted x on ts c n u p w now :
  at_view x on ts c c n u -> good_view on ts c n u -> on p = Some false -> ts p = Some w -> p <> c ->
  runsH ((if loads w then upd_this (fun r => set_nr_unint (u64 (nr_uninterruptible r - 1)) r) else ret tt) ;;;
    upd_task p (set_state TASK_WAKING) ;;; call_class (checked sys) (TaskWaking p) ;;; update_rq_clock (checked sys) now) x
    (fun _ x' => at_view x' on (put_at p (tc_to TASK_WAKING w) ts) c c n (shift w (-1) u)).
Proof.
  intros V G Ep Et Hp. apply runsH_bind. eapply runsH_mono; [exact (shift_view _ _ _ _ _ _ _ w (-1) V)|]. intros [] x1 V1. apply runsH_bind. eapply H_to; [exact V1|exact Et|]. intros x2 V2. apply runsH_bind.
  eapply H_call; [exact V2|apply (legal_has _ _ _ _ _ _ _ _ _ V2 Ep)|]. intros r x3 V3 _. eapply clock_ok; [exact V3|done].
Qed.

Lemma wake_task_ok x on ts c n u p t w now irq :
  at_view x on ts c c n u -> good_view on ts c n u -> on p = Some false -> ts p = Some w -> p <> c -> core_of t = w ->
  runsH (let! r := get_this in
    (if p =? rq_curr r then ret tt
     else
       (if task_contributes_to_load t then upd_this (fun r => set_nr_unint (u64 (nr_uninterruptible r - 1)) r) else ret tt) ;;;
       upd_task p (set_state TASK_WAKING) ;;; call_class (checked sys) (TaskWaking p) ;;; update_rq_clock (checked sys) now) ;;;
    activate_task (checked sys) p true ;;; (if negb irq then account_wakeup else ret tt) ;;; ret 1) x
    (fun r x' => exists n' u', r = 1 /\ let on' := mark p true on in let ts' := put_at p (tc_to TASK_WAKING w) ts in
      at_view x' on' ts' c c n' u' /\ good_view on' ts' c n' u').
Proof.
  intros V G Ep Et Hp Ht. apply runsH_bind, H_get_this. rewrite (at_k _ _ _ _ _ _ _ V), (proj2 (Z.eqb_neq _ _) Hp), loads_core, Ht.
  set (w' := tc_to TASK_WAKING w). apply runsH_bind. eapply runsH_mono; [by eapply wake_accounted|]. intros [] x1 V1. apply runsH_bind.
  eapply activate_task_view; [exact V1|exact Ep|apply put_at_eq|]. change (shift (tc_to TASK_WAKING w) (-1)) with (fun u : Z => u).
  cbv beta. intros x2 V2.
  assert (G' : good_view (mark p true on) (put_at p w' ts) c (u64 (n + 1)) (shift w (-1) u)).
  { eapply (good_put _ _ _ _ _ p w); [|exact Et|exact (gv_prio _ _ _ _ _ G p w Et)|left; apply mark_eq].
    apply good_wake; [done..|by eapply view_few]. }
  apply runsH_bind. apply (runsH_mono _ _ (fun _ x' => at_view x' (mark p true on) (put_at p w' ts) c c (u64 (n + 1)) (shift w (-1) u))).
  - destruct irq; cbn [negb]; [by apply runsH_ret|]. eapply account_wakeup_view; [exact V2| |done].
    destruct (decide (c = 0)) as [|Hc]; [by left|right]. pose proof (gv_run _ _ _ _ _ G' Hc) as Ho.
    split; [|apply (gv_dom _ _ _ _ _ G')]; by eexists.
  - intros [] x3 V3. apply runsH_ret. by exists (u64 (n + 1)), (shift w (-1) u).
Qed.

Lemma try_to_wake_up_ok x on ts c p b w mask now now' irq :
  shows x on ts c -> on p = Some b -> ts p = Some w ->
  runsH (try_to_wake_up (checked sys) p mask now now' irq) x (fun r x' =>
    shows x' (if hits mask w && negb b then mark p true on else on)
      (if hits mask w then put_at p (tc_to TASK_RUNNING w) ts else ts) c /\
    r = if hits mask w && negb b then 1 else 0).
Proof.
  intros S Ep Et. pose proof S as (n & u & V & G). apply runsH_bind. eapply clock_ok; [exact V|]. intros x1 V1. apply runsH_bind.
  eapply H_get_task; [exact V1|exact Et|]. intros t Ht. change (state t) with (tc_state (core_of t)). rewrite Ht. unfold hits.
  destruct (Z.land (tc_state w) mask =? 0); cbn [negb andb]; [apply runsH_ret; split; [by exists n, u|done]|].
  apply runsH_bind. eapply H_get_se; [exact V1|exact Ep|]. intros e ->. apply runsH_bind. 
  apply (runsH_mono _ _ (fun r x' => exists w' n' u', r = (if negb b then 1 else 0) /\
    let on' := if negb b then mark p true on else on in let ts' := put_at p w' ts in
    at_view x' on' ts' c c n' u' /\ good_view on' ts' c n' u' /\ tc_to TASK_RUNNING w' = tc_to TASK_RUNNING w)).
  { destruct b; cbn [negb].
    - apply runsH_ret. exists w, n, u. pose proof (fun q => eq_sym (put_at_same p w ts q Et)) as He.
      split_and!; [done|by eapply view_ext|by eapply good_view_ext|done].
    - assert (Hp : p <> c) by (intros ->; destruct (shows_zero _ _ _ _ S); pose proof (gv_run _ _ _ _ _ G); destruct (Z.eq_dec c 0); naive_solver).
      eapply runsH_mono; [exact (wake_task_ok _ _ _ _ _ _ p t w now' irq V1 G Ep Et Hp Ht)|]. intros r x2 (n' & u' & -> & V2 & G2).
      by exists (tc_to TASK_WAKING w), n', u'. }
  intros r x2 (w' & n' & u' & -> & V2 & G2 & Hw'). set (on' := if negb b then mark p true on else on) in *.
  assert (E' : on' p = Some true) by (unfold on'; destruct b; [done|apply mark_eq]). apply runsH_bind.
  eapply check_preempt_view; [exact V2|exact E'|]. intros x3 V3. apply runsH_bind.
  eapply H_to; [exact V3|apply put_at_eq|]. intros x4 V4. apply runsH_ret. split; [|done]. exists n', u'. rewrite <-Hw'.
  split; [eapply view_ext; [exact V4|done|intros q; apply put_at_twice]|].
  eapply good_view_ext; [done|intros q; apply put_at_twice|]. eapply good_put; [exact G2|apply put_at_eq| |by left].
  exact (gv_prio _ _ _ _ _ G2 p w' (put_at_eq _ _ _)).
Qed.

(** The state of the running task, as [set_current_state] sets it. *)
Lemma set_state_ok x on ts c w st :
  shows x on ts c -> c <> 0 -> ts c = Some w ->
  runsH (upd_task c (set_state st)) x (fun _ x' => shows x' on (put_at c (tc_to st w) ts) c).
Proof.
  intros (n & u & V & G) Hc Et. eapply H_to; [exact V|exact Et|]. intros x' V'. exists n, u. split; [done|].
  eapply good_put; [exact G|exact Et|exact (gv_prio _ _ _ _ _ G c w Et)|left; by apply G].
Qed.

Lemma set_signals_ok x on ts c p w sig kill :
  shows x on ts c -> ts p = Some w ->
  runsH (upd_task p (set_signals sig kill)) x (fun _ x' =>
    shows x' on (put_at p (mk_tc (tc_state w) (tc_freezing w) (tc_prio w) sig kill) ts) c).
Proof.
  intros (n & u & V & G) Et. eapply (H_upd_task _ _ _ _ _ _ _ p w (mk_tc (tc_state w) (tc_freezing w) (tc_prio w) sig kill));
    [exact V|exact Et|by intros t <-|]. intros x' V'. exists n, u. split; [exact V'|]. eapply good_put; [exact G|exact Et|exact (gv_prio _ _ _ _ _ G p w Et)|by right].
Qed.

(** A change of the priority. *)
Definition tc_nice (prio : Z) (w : task_core) : task_core := mk_tc (tc_state w) (tc_freezing w) prio (tc_sig w) (tc_kill w).

Lemma good_nice on ts c n u p w prio :
  good_view on ts c n u -> ts p = Some w -> MAX_RT_PRIO <= prio < MAX_RT_PRIO + 40 ->
  good_view on (put_at p (tc_nice prio w) ts) c n u.
Proof. intros G Et Hp. eapply good_put; [exact G|exact Et|done|by right]. Qed.

Lemma H_nice x on ts c k n u p w prio f (Q : unit -> core_state -> Prop) :
  at_view x on ts c k n u -> ts p = Some w -> (forall t, core_of (f t) = tc_nice prio (core_of t)) ->
  (forall x', at_view x' on (put_at p (tc_nice prio w) ts) c k n u -> Q tt x') -> runsH (upd_task p f) x Q.
Proof. intros V Et Hf HQ. eapply (H_upd_task _ _ _ _ _ _ _ p w (tc_nice prio w)); [exact V|exact Et|by intros t <-|done]. Qed.

Definition nice_skipped (nice : Z) (w : task_core) : bool :=
  (PRIO_TO_NICE (tc_prio w) =? nice) || (nice <? -20) || (19 <? nice).

Lemma set_user_nice_ok x on ts c p b w nice now :
  shows x on ts c -> on p = Some b -> ts p = Some w ->
  runsH (set_user_nice sys (checked sys) p nice now) x (fun _ x' =>
    shows x' on (if nice_skipped nice w then ts else put_at p (tc_nice (NICE_TO_PRIO nice) w) ts) c).
Proof.
  intros (n & u & V & G) Ep Et. apply runsH_bind. eapply H_get_task; [exact V|exact Et|]. intros t Ht.
  change (static_prio t) with (tc_prio (core_of t)). rewrite Ht. fold (nice_skipped nice w).
  destruct (nice_skipped nice w) eqn:En; [apply runsH_ret; by exists n, u|].
  assert (Hr : MAX_RT_PRIO <= NICE_TO_PRIO nice < MAX_RT_PRIO + 40) by (unfold nice_skipped, NICE_TO_PRIO in *; lia).
  pose proof (good_nice _ _ _ _ _ p w _ G Et Hr) as G'. set (ts' := put_at p (tc_nice (NICE_TO_PRIO nice) w) ts) in *.
  apply runsH_bind. eapply clock_ok; [exact V|]. intros x1 V1. apply runsH_bind. eapply H_get_se; [exact V1|exact Ep|]. intros e ->.
  case_match; [eapply (H_nice _ _ _ _ _ _ _ _ _ (NICE_TO_PRIO nice)); [exact V1|exact Et|done|]; intros x' V'; by exists n, u|]. apply runsH_bind.
  apply (runsH_mono _ _ (fun _ x' => at_view x' (mark p false on) ts c c n u)).
  { destruct b; [by eapply dequeue_task_view|]. apply runsH_ret. eapply view_ext; [exact V1| |done].
    intros q. destruct (decide (q = p)) as [->|]; [by rewrite mark_eq|by rewrite mark_ne]. }
  intros [] x2 V2. apply runsH_bind. eapply (H_nice _ _ _ _ _ _ _ _ _ (NICE_TO_PRIO nice)); [exact V2|exact Et|done|]. intros x3 V3. apply runsH_bind.
  eapply set_load_weight_view; [exact V3|apply mark_eq|apply put_at_eq|done|]. intros x4 V4. apply runsH_bind.
  eapply H_get_task; [exact V4|apply put_at_eq|]. intros t' Ht'. cbv zeta. apply runsH_bind.
  eapply effective_prio_view; [exact V4|apply mark_eq|apply put_at_eq|]. intros new x5 V5. apply runsH_bind.
  eapply H_upd_same; [exact V5|apply put_at_eq|done|]. intros x6 V6.
  assert (Hm : forall b', on p = Some b' -> forall q, mark p b' (mark p false on) q = on q).
  { intros b' E q. destruct (decide (q = p)) as [->|]; [by rewrite mark_eq|by rewrite !mark_ne]. }
  destruct b.
  - apply runsH_bind. eapply enqueue_task_view; [exact V6|apply mark_eq|apply put_at_eq|]. intros x7 V7.
    apply (view_ext _ _ on _ ts') in V7; [|by apply Hm|done]. apply runsH_bind, H_get_this.
    case_match; [|apply runsH_ret; by exists n, u].
    eapply (H_keeps ∅ []); [exact V7|apply keeps_resched|set_solver|set_solver|]. intros [] x8 V8. by exists n, u.
  - apply runsH_ret. exists n, u. split; [|done]. eapply view_ext; [exact V6| |done]. intros q. rewrite <-(Hm false Ep q).
    unfold mark. by case_match.
Qed.

(** The priority of a new task: that of its parent, or the default one if the
    parent's is to be reset. *)
Definition forked (w : task_core) (prio : Z) : Prop :=
  prio = tc_prio w \/ tc_prio w < DEFAULT_PRIO /\ prio = DEFAULT_PRIO.

Lemma tc_nice_same w : tc_nice (tc_prio w) w = w.
Proof. by destruct w. Qed.

Lemma reset_prio_view x on ts c n u p w t :
  at_view x on ts c c n u -> on p = Some false -> ts p = Some w -> core_of t = w ->
  runsH (reset_prio p t) x (fun _ x' => exists prio, forked w prio /\ at_view x' on (put_at p (tc_nice prio w) ts) c c n u).
Proof.
  intros V Ep Et Ht. unfold reset_prio.
  assert (Hsame : forall x', at_view x' on ts c c n u ->
    exists prio, forked w prio /\ at_view x' on (put_at p (tc_nice prio w) ts) c c n u).
  { intros x' V'. exists (tc_prio w). split; [by left|]. rewrite tc_nice_same. eapply view_ext; [exact V'|done|].
    intros q. by rewrite put_at_same. }
  destruct (sched_reset_on_fork t); [|by apply runsH_ret, Hsame]. apply runsH_bind. eapply H_get_se; [exact V|exact Ep|]. intros e _.
  apply runsH_bind. apply (runsH_mono _ _ (fun _ x' => at_view x' on ts c c n u)).
  { case_match; [|by apply runsH_ret]. apply runsH_bind. eapply (H_keeps ∅ [p]); [exact V|keeps_go| |set_solver|].
    - intros q ->%list_elem_of_singleton. by eexists.
    - intros [] x1 V1. by eapply H_upd_same; [exact V1|exact Et|done|]. }
  intros [] x1 V1. apply runsH_bind. change (static_prio t) with (tc_prio (core_of t)). rewrite Ht.
  apply (runsH_mono _ _ (fun _ x' => exists prio, forked w prio /\ at_view x' on (put_at p (tc_nice prio w) ts) c c n u)).
  - case_match eqn:Hn; [|by apply runsH_ret, Hsame]. apply runsH_bind.
    eapply (H_nice _ _ _ _ _ _ _ _ _ DEFAULT_PRIO); [exact V1|exact Et|done|]. intros x2 V2.
    eapply set_load_weight_view; [exact V2|exact Ep|apply put_at_eq|by cbn|]. intros x3 V3. exists DEFAULT_PRIO. split; [right|done].
    unfold PRIO_TO_NICE, DEFAULT_PRIO, MAX_RT_PRIO in *. lia.
  - intros [] x2 (prio & Hp & V2). eapply H_upd_same; [exact V2|apply put_at_eq|done|]. intros x3 V3. by exists prio.
Qed.

Lemma sched_fork_view x on ts c n u p w :
  at_view x on ts c c n u -> on p = Some false -> ts p = Some w ->
  runsH (__sched_fork sys p) x (fun _ x' => at_view x' on ts c c n u).
Proof.
  intros V Ep Et. apply runsH_bind. eapply (H_keeps ∅ [p]); [exact V|keeps_go| |set_solver|].
  - intros q ->%list_elem_of_singleton. by eexists.
  - intros [] x1 V1. apply runsH_bind. eapply H_upd_same; [exact V1|exact Et|done|]. intros x2 V2.
    by eapply H_set_on; [exact V2|exact Ep|done|].
Qed.

Lemma sched_fork_ok x on ts c p w now :
  shows x on ts c -> on p = Some false -> ts p = Some w -> loads w = false -> c <> 0 ->
  runsH (sched_fork sys (checked sys) p now) x (fun _ x' => exists prio, forked w prio /\
    shows x' on (put_at p (tc_nice prio (tc_to TASK_RUNNING w)) ts) c).
Proof.
  intros (n & u & V & G) Ep Et El Hc. apply runsH_bind. eapply runsH_mono; [by eapply sched_fork_view|]. intros [] x1 V1.
  apply runsH_bind. eapply H_to; [exact V1|exact Et|]. intros x2 V2. apply runsH_bind.
  eapply H_get_task; [exact V2|apply put_at_eq|]. intros t Ht. apply runsH_bind.
  eapply runsH_mono; [eapply reset_prio_view; [exact V2|exact Ep|apply put_at_eq|exact Ht]|]. intros [] x3 (prio & Hf & V3).
  set (w' := tc_nice prio (tc_to TASK_RUNNING w)) in *.
  apply (view_ext _ _ on _ (put_at p w' ts)) in V3; [|done|intros q; apply put_at_twice].
  assert (G' : good_view on (put_at p w' ts) c n u).
  { eapply good_put; [exact G|exact Et| |right; by rewrite El]. pose proof (gv_prio _ _ _ _ _ G p w Et).
    destruct Hf as [->|[_ ->]]; [done|by cbn]. }
  assert (is_Some (put_at p w' ts c)) as [wc Ec] by (apply (gv_dom _ _ _ _ _ G'); eexists; by apply G').
  apply runsH_bind, H_get_this. rewrite (at_k _ _ _ _ _ _ _ V3). apply runsH_bind.
  eapply H_get_task; [exact V3|exact Ec|]. intros tc _. apply runsH_bind.
  eapply H_upd_same; [exact V3|apply put_at_eq|done|]. intros x4 V4. apply runsH_bind, runsH_bind, H_get_rq, runsH_ret.
  apply runsH_bind. eapply H_call; [exact V4| |].
  - cbn [legal]. rewrite (proj1 (legal_has _ _ _ _ _ _ _ _ _ V4 Ep)), (at_c _ _ _ _ _ _ _ V4). cbn [andb].
    apply negb_true_iff, Z.eqb_neq. intros ->. pose proof (gv_run _ _ _ _ _ G Hc). congruence.
  - intros r x5 V5 _. apply runsH_ret. exists prio. split; [done|]. by exists n, u.
Qed.

(** ** Switching *)

Definition sig_core (w : task_core) : bool :=
  if Z.land (tc_state w) (Z.lor TASK_INTERRUPTIBLE TASK_WAKEKILL) =? 0 then false
  else if negb (tc_sig w) then false
  else negb (Z.land (tc_state w) TASK_INTERRUPTIBLE =? 0) || tc_kill w.

(** The running task is about to sleep: it leaves the run queue, unless a signal
    keeps it awake. *)
Definition going (active : bool) (w : task_core) : bool := negb (tc_state w =? TASK_RUNNING) && negb active.
Definition on_block (active : bool) (on : Z -> option bool) (ts : Z -> option task_core) (c : Z) : Z -> option bool :=
  match ts c with Some w => if going active w && negb (sig_core w) then mark c false on else on | None => on end.
Definition ts_block (active : bool) (ts : Z -> option task_core) (c : Z) : Z -> option task_core :=
  match ts c with Some w => if going active w && sig_core w then put_at c (tc_to TASK_RUNNING w) ts else ts | None => ts end.

(** The next task is one of the run queue, if there are any. *)
Definition next_ok (on : Z -> option bool) (next : Z) : Prop :=
  if decide (next = 0) then forall p, on p <> Some true else on next = Some true.

Lemma good_drop on ts c n u : good_view on ts c n u -> good_view on ts 0 n u.
Proof. intros G. by eapply good_pick; [|left]. Qed.

Lemma block_ok x on ts c n u active :
  at_view x on ts c c n u -> good_view on ts c n u -> c <> 0 ->
  runsH (let! t := get_task c in
    if negb (state t =? TASK_RUNNING) && negb active then
      if signal_pending_state (state t) t then upd_task c (set_state TASK_RUNNING) else deactivate_task sys (checked sys) c true
    else ret tt) x (fun _ x' => exists n' u', let on' := on_block active on ts c in let ts' := ts_block active ts c in
      at_view x' on' ts' c c n' u' /\ good_view on' ts' 0 n' u').
Proof.
  intros V G Hc. pose proof (gv_run _ _ _ _ _ G Hc) as Eo. assert (is_Some (ts c)) as [w Et] by (apply G; by eexists).
  apply runsH_bind. eapply H_get_task; [exact V|exact Et|]. intros t Ht. unfold on_block, ts_block. rewrite Et.
  change (negb (state t =? TASK_RUNNING) && negb active) with (going active (core_of t)).
  change (signal_pending_state (state t) t) with (sig_core (core_of t)). rewrite Ht.
  destruct (going active w); cbn [andb]; [|apply runsH_ret; exists n, u; split; [done|by eapply good_drop]].
  destruct (sig_core w); cbn [negb].
  - eapply H_to; [exact V|exact Et|]. intros x' V'. exists n, u. split; [done|]. eapply good_drop, good_put; [exact G|exact Et| |by left].
    exact (gv_prio _ _ _ _ _ G c w Et).
  - eapply deactivate_task_view; [exact V|exact Eo|exact Et|]. intros x' V'. eexists _, _. split; [exact V'|].
    eapply good_sleep; [exact G|done|done|by eapply view_few].
Qed.

(** The core and the class count the same tasks. *)
Lemma view_nr x on ts c k n u : at_view x on ts c k n u -> good_view on ts c n u -> nr_running (ss_rq x.1) = n.
Proof.
  intros V G. eapply counts_unique; [apply (counts_queued _ _ (at_ready _ _ _ _ _ _ _ V))|]. eapply counts_ext; [|apply G].
  intros p. cbv beta. by rewrite queued_on, (at_on _ _ _ _ _ _ _ V).
Qed.

Lemma counts_none P : counts P 0 -> forall p, ~ P p.
Proof. intros (X & E & HX) p Hp. apply HX in Hp. assert (X = ∅) as ->; [|set_solver]. apply leibniz_equiv, size_empty_inv. lia. Qed.

Lemma pick_next_task_core x on ts k n u :
  at_view x on ts 0 k n u -> good_view on ts 0 n u -> on 0 = None ->
  runsH (pick_next_task (checked sys)) x (fun r x' => at_view x' on ts r k n u /\ next_ok on r).
Proof.
  intros V G H0. apply runsH_bind, H_get_this, runsH_bind, H_get_rq. rewrite (at_n _ _ _ _ _ _ _ V), (view_nr _ _ _ _ _ _ _ V G), Z.eqb_refl.
  assert (Hl : forall x', at_view x' on ts 0 k n u -> legal x'.1 PickNextTask = true) by (intros x' V'; cbn; by rewrite (at_c _ _ _ _ _ _ _ V')).
  assert (Hz : n = 0 -> next_ok on 0).
  { intros ->. unfold next_ok. rewrite decide_True by done. apply counts_none, G. }
  apply runsH_bind. eapply H_call; [exact V|by apply Hl|]. cbn [negb]. rewrite (view_nr _ _ _ _ _ _ _ V G). intros r x1 V1.
  destruct (Z.eqb_spec n 0) as [->|Hn].
  - intros ->. rewrite Z.eqb_refl. cbn [negb]. eapply H_call; [exact V1|by apply Hl|]. rewrite (view_nr _ _ _ _ _ _ _ V1 G).
    intros r x2 V2 ->. split; [done|by apply Hz].
  - intros [Er _]. assert (Hr : r <> 0) by congruence. rewrite (proj2 (Z.eqb_neq _ _) Hr). cbn [negb]. apply runsH_ret. split; [done|].
    unfold next_ok. by rewrite decide_False.
Qed.

Lemma good_next on ts n u next : good_view on ts 0 n u -> next_ok on next -> good_view on ts next n u.
Proof. intros G Hn. eapply good_pick; [exact G|]. unfold next_ok in Hn. case_match; [by left|by right]. Qed.

Lemma schedule_ok x on ts c now active :
  shows x on ts c ->
  runsH (schedule sys (checked sys) now active) x (fun _ x' => exists next,
    next_ok (on_block active on ts c) next /\ shows x' (on_block active on ts c) (ts_block active ts c) next).
Proof.
  intros S. destruct (shows_zero _ _ _ _ S) as [Zo Zt]. destruct S as (n & u & V & G). set (on' := on_block _ _ _ _). set (ts' := ts_block _ _ _).
  apply runsH_bind, H_get_this. rewrite (at_k _ _ _ _ _ _ _ V). cbv zeta. apply runsH_bind. eapply clock_ok; [exact V|]. intros x1 V1.
  apply runsH_bind. eapply (H_keeps ∅ []); [exact V1|keeps_go|set_solver|set_solver|]. intros [] x2 V2. apply runsH_bind.
  apply (runsH_mono _ _ (fun _ x' => exists n' u', at_view x' on' ts' c c n' u' /\ good_view on' ts' 0 n' u')).
  { destruct (Z.eqb_spec c 0) as [->|Hc]; [|by eapply block_ok]. apply runsH_ret. unfold on', ts', on_block, ts_block. rewrite Zt. by exists n, u. }
  intros [] x3 (n' & u' & V3 & G'). assert (H0 : on' 0 = None).
  { unfold on', on_block. destruct (ts c) as [w|] eqn:Et; [|done]. case_match; [|done]. rewrite mark_ne; [done|congruence]. }
  apply runsH_bind. apply (runsH_mono _ _ (fun _ x' => at_view x' on' ts' 0 c n' u')).
  { unfold put_prev_task. destruct (Z.eqb_spec c 0) as [->|Hc]; [by apply runsH_ret|]. apply runsH_bind.
    eapply H_call; [exact V3| |intros r x4 V4 _; by apply runsH_ret]. cbn [legal]. by rewrite (at_c _ _ _ _ _ _ _ V3), (proj2 (Z.eqb_neq _ _) Hc). }
  intros [] x4 V4. apply runsH_bind. eapply runsH_mono; [by apply pick_next_task_core|]. intros next x5 [V5 Hn].
  pose proof (good_next _ _ _ _ _ G' Hn) as G5. destruct (Z.eqb_spec c next) as [->|Hc]; cbn [negb].
  - apply runsH_ret. exists next. split; [done|]. by exists n', u'.
  - apply runsH_bind, H_upd_this, H_upd_this. exists next. split; [done|]. exists n', u'. split; [|done]. by destruct V5.
Qed.

Lemma sys_sched_yield_ok x on ts c now now' :
  shows x on ts c -> c <> 0 ->
  runsH (sys_sched_yield sys (checked sys) now now') x (fun _ x' => exists next,
    next_ok (on_block false on ts c) next /\ shows x' (on_block false on ts c) (ts_block false ts c) next).
Proof.
  intros (n & u & V & G) Hc. apply runsH_bind, runsH_bind, H_get_rq, runsH_ret, runsH_bind. eapply H_call; [exact V| |].
  - cbn [legal]. by rewrite (at_c _ _ _ _ _ _ _ V), (proj2 (Z.eqb_neq _ _) Hc).
  - intros r x1 V1 _. apply schedule_ok. by exists n, u.
Qed.
End Ops.
