(* ===== verification/SchedRun.v ===== *)
(** Sequences of operations of the core of the scheduler. *)
From S2P Require Import Prelude Wp Cfs CfsSpec CfsInv CfsOps CfsRun SchedCore SchedInv SchedOps.

(** ** Operations *)

(** What happens on the processor: the running task sets its state, a signal
    comes or is taken, and the calls of the core. *)
Inductive core_op : Type :=
| SetCurrentState (st : Z)
| SetSignals (p : Z) (sig kill : bool)
| Schedule (now : Z) (active : bool)
| SchedYield (now now' : Z)
| TryToWakeUp (p mask now now' : Z) (in_interrupt : bool)
| SchedFork (p now : Z)
| WakeUpNewTask (p now : Z)
| SchedulerTick (now : Z)
| SetUserNice (p nice now : Z).

Section Run.
  Context {S : Type} `{Sched S} (sys : sysctl) (call : sched_op -> M S Z).

Definition set_current_state (st : Z) : M (S * rq) unit :=
  let! r := get_this in upd_task (rq_curr r) (set_state st).

(** The result is that of [try_to_wake_up]. *)
Definition run_core (o : core_op) : M (S * rq) Z :=
  match o with
  | SetCurrentState st => set_current_state st ;;; ret 0
  | SetSignals p sig kill => upd_task p (set_signals sig kill) ;;; ret 0
  | Schedule now active => schedule sys call now active ;;; ret 0
  | SchedYield now now' => sys_sched_yield sys call now now' ;;; ret 0
  | TryToWakeUp p mask now now' irq => try_to_wake_up call p mask now now' irq
  | SchedFork p now => sched_fork sys call p now ;;; ret 0
  | WakeUpNewTask p now => wake_up_new_task call p now ;;; ret 0
  | SchedulerTick now => scheduler_tick call now ;;; ret 0
  | SetUserNice p nice now => set_user_nice sys call p nice now ;;; ret 0
  end.

Fixpoint run_cores (l : list core_op) : M (S * rq) (list Z) :=
  match l with
  | [] => ret []
  | o :: l => let! r := run_core o in let! rs := run_cores l in ret (r :: rs)
  end.
End Run.

(** ** Specification *)

(** A task that may be set up as a new one: not on the run queue, nor asleep in
    a state that counts as load. *)
Definition unused (x : core_state) (p : Z) : bool :=
  match on_of x.1 p, ts_of x p with Some false, Some w => negb (loads w) | _, _ => false end.

Definition core_legal (x : core_state) (o : core_op) : bool :=
  let is_task p := match ts_of x p with Some _ => true | None => false end in
  let runs := negb (rq_curr x.2 =? 0) in
  match o with
  | Schedule _ _ | SchedulerTick _ => true
  | SetCurrentState _ | SchedYield _ _ => runs
  | SetSignals p _ _ | TryToWakeUp p _ _ _ _ | SetUserNice p _ _ => is_task p
  | SchedFork p _ => runs && unused x p
  | WakeUpNewTask p _ => unused x p
  end.

(** What an operation with the result [r] may do: [on] says what is on the run
    queue, [ts] what the tasks are like, [c] is the running task. *)
Definition core_effect (o : core_op) (r : Z) (on : Z -> option bool) (ts : Z -> option task_core) (c : Z)
    (on' : Z -> option bool) (ts' : Z -> option task_core) (c' : Z) : Prop :=
  let becomes on1 ts1 c1 := (forall p, on' p = on1 p) /\ (forall p, ts' p = ts1 p) /\ c' = c1 in
  let set p f := match ts p with Some w => put_at p (f w) ts | None => ts end in
  match o with
  | SetCurrentState st => r = 0 /\ becomes on (set c (tc_to st)) c
  | SetSignals p sig kill => r = 0 /\ becomes on (set p (fun w => mk_tc (tc_state w) (tc_freezing w) (tc_prio w) sig kill)) c
  | Schedule _ active => r = 0 /\ becomes (on_block active on ts c) (ts_block active ts c) c' /\ next_ok on' c'
  | SchedYield _ _ => r = 0 /\ becomes (on_block false on ts c) (ts_block false ts c) c' /\ next_ok on' c'
  | TryToWakeUp p mask _ _ _ =>
      exists w b, ts p = Some w /\ on p = Some b /\ r = (if hits mask w && negb b then 1 else 0) /\
        becomes (if hits mask w then mark p true on else on) (if hits mask w then put_at p (tc_to TASK_RUNNING w) ts else ts) c
  | SchedFork p _ =>
      r = 0 /\ exists w prio, ts p = Some w /\ forked w prio /\ becomes on (put_at p (tc_nice prio (tc_to TASK_RUNNING w)) ts) c
  | WakeUpNewTask p _ => r = 0 /\ becomes (mark p true on) (set p (tc_to TASK_RUNNING)) c
  | SchedulerTick _ => r = 0 /\ becomes on ts c
  | SetUserNice p nice _ =>
      r = 0 /\ becomes on (set p (fun w => if nice_skipped nice w then w else tc_nice (NICE_TO_PRIO nice) w)) c
  end.

Definition core_step (o : core_op) (r : Z) (x x' : core_state) : Prop :=
  core_effect o r (on_of x.1) (ts_of x) (rq_curr x.2) (on_of x'.1) (ts_of x') (rq_curr x'.2).

Section Steps.
  Context (sys : sysctl).

Abbreviation runc o := (run_core sys (checked sys) o).

Lemma runsH_unit (m : M core_state unit) x Q : runsH m x (fun _ x' => Q 0 x') -> runsH (m ;;; ret 0) x Q.
Proof. intros Hm. apply runsH_bind. apply (runsH_mono _ _ _ _ Hm). intros _ x' HQ. by apply runsH_ret. Qed.

Lemma next_ok_ext on on' next : (forall p, on' p = on p) -> next_ok on next -> next_ok on' next.
Proof. intros Ho. unfold next_ok. case_match; [intros Hn p|]; by rewrite Ho. Qed.

Lemma unused_spec x p : unused x p = true -> exists w, on_of x.1 p = Some false /\ ts_of x p = Some w /\ loads w = false.
Proof. unfold unused. destruct (on_of x.1 p) as [[]|], (ts_of x p) as [w|]; try done. intros Hw%negb_true_iff. by exists w. Qed.

(** Every operation runs, up to the horizon, keeps the invariant and does what
    it should. *)
Lemma run_core_ok x o : CoreInv x -> core_legal x o = true ->
  runsH (runc o) x (fun r x' => CoreInv x' /\ core_step o r x x').
Proof.
  intros I L. pose proof (inv_shows x I) as S. unfold core_step.
  assert (Hshow : forall on ts c (Q : Prop) x', shows x' on ts c ->
    ((forall p, on_of x'.1 p = on p) -> (forall p, ts_of x' p = ts p) -> rq_curr x'.2 = c -> Q) -> CoreInv x' /\ Q).
  { intros on ts c Q x' (I' & Ho & Ht & Hc)%shows_inv HQ. auto. }
  assert (Hts : forall p, match ts_of x p with Some _ => true | None => false end = true ->
    exists w b, ts_of x p = Some w /\ on_of x.1 p = Some b).
  { intros p Hp. destruct (ts_of x p) as [w|] eqn:Et; [|done]. destruct (proj2 (gv_dom _ _ _ _ _ (core_view x I) p)) as [b Eb]; [by eexists|].
    by exists w, b. }
  assert (Hc : negb (rq_curr x.2 =? 0) = true -> rq_curr x.2 <> 0 /\ exists w, ts_of x (rq_curr x.2) = Some w).
  { intros Hn%negb_true_iff%Z.eqb_neq. split; [done|]. apply (gv_dom _ _ _ _ _ (core_view x I)). eexists. by apply (core_view x I). }
  destruct o as [st|p sig kill|now active|now now'|p mask now now' irq|p now|p now|now|p nice now]; cbn [run_core core_legal core_effect] in *.
  - destruct (Hc L) as [Hn [w Et]]. rewrite Et. apply runsH_unit, runsH_bind, H_get_this.
    eapply runsH_mono; [by apply set_state_ok|]. intros [] x' S'. by apply (Hshow _ _ _ _ _ S').
  - destruct (Hts p L) as (w & b & Et & _). rewrite Et. apply runsH_unit. eapply runsH_mono; [by apply set_signals_ok|].
    intros [] x' S'. by apply (Hshow _ _ _ _ _ S').
  - apply runsH_unit. eapply runsH_mono; [by apply schedule_ok|]. intros [] x' (next & Hn & S').
    apply (Hshow _ _ _ _ _ S'). intros Ho Ht ->. split_and!; try done. by eapply next_ok_ext.
  - destruct (Hc L) as [Hn _]. apply runsH_unit. eapply runsH_mono; [by apply sys_sched_yield_ok|]. intros [] x' (next & Hx & S').
    apply (Hshow _ _ _ _ _ S'). intros Ho Ht ->. split_and!; try done. by eapply next_ok_ext.
  - destruct (Hts p L) as (w & b & Et & Eo). eapply runsH_mono; [by eapply try_to_wake_up_ok|]. intros r x' [S' ->].
    apply (Hshow _ _ _ _ _ S'). intros Ho Ht Hk. exists w, b. split_and!; try done. intros q. rewrite Ho.
    destruct (hits mask w), b; try done. cbn. destruct (decide (q = p)) as [->|]; [by rewrite mark_eq|by rewrite mark_ne].
  - apply andb_true_iff in L as [L (w & Eo & Et & El)%unused_spec]. destruct (Hc L) as [Hn _]. apply runsH_unit.
    eapply runsH_mono; [by eapply sched_fork_ok|]. intros [] x' (prio & Hf & S'). apply (Hshow _ _ _ _ _ S'). intros Ho Ht Hk.
    split; [done|]. by exists w, prio.
  - apply unused_spec in L as (w & Eo & Et & El). rewrite Et. apply runsH_unit. eapply runsH_mono; [by eapply wake_up_new_task_ok|].
    intros [] x' S'. by apply (Hshow _ _ _ _ _ S').
  - apply runsH_unit. eapply runsH_mono; [by apply scheduler_tick_ok|]. intros [] x' S'. by apply (Hshow _ _ _ _ _ S').
  - destruct (Hts p L) as (w & b & Et & Eo). rewrite Et. apply runsH_unit. eapply runsH_mono; [by eapply set_user_nice_ok|].
    intros [] x' S'. apply (Hshow _ _ _ _ _ S'). intros Ho Ht Hk. split_and!; try done. intros q. rewrite Ht.
    case_match; [by rewrite put_at_same|done].
Qed.

(** ** Sequences *)

(** The operations are legal where they are done, and the horizon is not
    reached. *)
Fixpoint safe_run (x : core_state) (l : list core_op) : bool :=
  match l with
  | [] => true
  | o :: l => core_legal x o && match runc o x with Ok (_, x') => safe_run x' l | Err Horizon => false | Err _ => true end
  end.

(** Step by step, the operations [l] with the results [rs] lead from [x] to
    [x'], with the invariant in between. *)
Fixpoint core_steps (l : list core_op) (rs : list Z) (x x' : core_state) : Prop :=
  match l, rs with
  | [], [] => x = x'
  | o :: l, r :: rs => exists x1, core_step o r x x1 /\ CoreInv x1 /\ core_steps l rs x1 x'
  | _, _ => False
  end.

Lemma run_cores_ok l x : CoreInv x -> safe_run x l = true ->
  runs (run_cores sys (checked sys) l) x (fun rs x' => CoreInv x' /\ core_steps l rs x x').
Proof.
  revert x. induction l as [|o l IH]; intros x I; cbn [safe_run run_cores]; [intros _; by apply runs_ret|].
  intros [L Hs]%andb_true_iff. destruct (run_core_ok x o I L) as [E|(r & x1 & E & I1 & St)]; rewrite E in Hs; [done|].
  apply runs_bind, (runs_ok _ _ _ _ _ E), runs_bind. eapply runs_mono; [by apply IH|]. intros rs x' [I' Ss]. apply runs_ret.
  split; [done|]. by exists x1.
Qed.
End Steps.
