(* ===== verification/SchedWait.v ===== *)
(** The wait queues on the core of the scheduler: what [WaitQueue.v] keeps of
    waking a task and of giving up the processor is what the core does. *)
From S2P Require Import Prelude KState WaitQueue Wp Cfs CfsSpec CfsInv CfsOps CfsRun SchedCore SchedInv SchedOps SchedRun.

(** ** Tasks of the wait queues *)

(** What the model of the wait queues says of the tasks, at the addresses
    [addr], is true of the tasks of the scheduler.  [TASK_WAKEKILL], which that
    model does not have, is in no state. *)
Definition same_tasks (addr : positive -> Z) (ks : kstate) (x : core_state) : Prop :=
  forall t v, KState.tasks ks !! t = Some v -> on_of x.1 (addr t) = Some (KState.on_rq v) /\
    exists w, ts_of x (addr t) = Some w /\ tc_state w = KState.state v /\ tc_sig w = KState.sigpending v /\
      Z.land (tc_state w) TASK_WAKEKILL = 0.

(** The functions of the model of the wait queues that stand for operations of
    the scheduler; [cur] is the running task. *)
Inductive counterpart (addr : positive -> Z) (cur : positive) : core_op -> M kstate Z -> Prop :=
| cp_wake t mask now now' irq : counterpart addr cur (TryToWakeUp (addr t) mask now now' irq) (WaitQueue.try_to_wake_up t mask)
| cp_block now : counterpart addr cur (Schedule now false) (WaitQueue.schedule_prev cur ;;; ret 0)
| cp_state st : Z.land st TASK_WAKEKILL = 0 ->
    counterpart addr cur (SetCurrentState st) (WaitQueue.set_current_state cur st ;;; ret 0).

Section Tasks.
  Context (addr : positive -> Z) {Ha : Inj eq eq addr}.

(** One task changes. *)
Lemma same_tasks_put ks x x' t v w b :
  same_tasks addr ks x -> (forall p, p <> addr t -> on_of x'.1 p = on_of x.1 p) ->
  (forall p, p <> addr t -> ts_of x' p = ts_of x p) ->
  on_of x'.1 (addr t) = Some b -> ts_of x' (addr t) = Some w ->
  KState.on_rq v = b -> tc_state w = KState.state v -> tc_sig w = KState.sigpending v -> Z.land (tc_state w) TASK_WAKEKILL = 0 ->
  same_tasks addr (KState.set_tasks (<[t := v]> (KState.tasks ks)) ks) x'.
Proof.
  intros S Ho Ht Eo Et <- H1 H2 H3 t' v'. cbn. destruct (decide (t' = t)) as [->|Hn].
  - rewrite lookup_insert_eq. intros [= <-]. split; [done|]. by exists w.
  - rewrite lookup_insert_ne by done. intros Ev. assert (addr t' <> addr t) by (intros E; by apply Hn, Ha). rewrite Ho, Ht by done. by apply S.
Qed.

Lemma wakeup_same ks x x' t v mask r :
  same_tasks addr ks x -> KState.tasks ks !! t = Some v -> core_step (TryToWakeUp (addr t) mask 0 0 false) r x x' ->
  r = cbool (wakes mask v) /\ same_tasks addr (KState.set_tasks (alter (woken mask) t (KState.tasks ks)) ks) x'.
Proof.
  intros S Ev (w' & b' & Et' & Eo' & -> & Ho & Ht & _). destruct (S t v Ev) as (Eo & w & Et & H1 & H2 & H3).
  rewrite Eo in Eo'. rewrite Et in Et'. injection Et' as <-. injection Eo' as <-. unfold hits in *. rewrite H1 in *. split.
  { unfold wakes. by destruct (_ && _). }
  rewrite (alter_at _ _ _ v) by done. unfold woken.
  destruct (Z.land (KState.state v) mask =? 0); cbn [negb] in *.
  - apply (same_tasks_put ks x x' t v w (KState.on_rq v)); rewrite ?Ho, ?Ht, ?H1; done.
  - apply (same_tasks_put ks x x' t _ (tc_to TASK_RUNNING w) true); rewrite ?Ho, ?Ht, ?mark_eq, ?put_at_eq; try done.
    + intros p Hp. by rewrite Ho, mark_ne.
    + intros p Hp. by rewrite Ht, put_at_ne.
Qed.

Lemma set_tasks_same ks t v : KState.tasks ks !! t = Some v -> ks = KState.set_tasks (<[t := v]> (KState.tasks ks)) ks.
Proof. intros E. rewrite insert_id by done. by destruct ks. Qed.

Lemma set_state_run cur st ks v :
  KState.tasks ks !! cur = Some v -> WaitQueue.set_current_state cur st ks =
    Ok (tt, KState.set_tasks (<[cur := KState.mk_task st (KState.on_rq v) (KState.sigpending v) (euid v) (egid v)]> (KState.tasks ks)) ks).
Proof. intros E. unfold WaitQueue.set_current_state. by erewrite bind_ok by (apply deref_ok; exact E). Qed.

Lemma task_lookup {B} cur (k : KState.task_struct -> M kstate B) ks y :
  (let! t := WaitQueue.get_task cur in k t) ks = Ok y -> exists v, KState.tasks ks !! cur = Some v /\ k v ks = Ok y.
Proof.
  destruct y as [b ks']. intros (v & s & Ev & E)%bind_inv_ok. unfold WaitQueue.get_task, deref in Ev.
  destruct (KState.tasks ks !! cur) as [v'|] eqn:E'; [|done]. injection Ev as -> ->. by exists v.
Qed.

(** Without [TASK_WAKEKILL] the two tests for signals agree. *)
Lemma sig_core_same w v :
  tc_state w = KState.state v -> tc_sig w = KState.sigpending v -> Z.land (tc_state w) TASK_WAKEKILL = 0 ->
  sig_core w = WaitQueue.signal_pending_state (KState.state v) v.
Proof.
  intros H1 H2 H3. unfold sig_core, WaitQueue.signal_pending_state. rewrite Z.land_lor_distr_r, H3, Z.lor_0_r, H1, H2.
  change WaitQueue.TASK_INTERRUPTIBLE with TASK_INTERRUPTIBLE. case_match; [done|]. by destruct (KState.sigpending v).
Qed.

(** What a task does that gives up the processor. *)
Lemma block_same ks x x' cur v r now ks' :
  same_tasks addr ks x -> rq_curr x.2 = addr cur -> KState.tasks ks !! cur = Some v ->
  schedule_prev cur ks = Ok (tt, ks') -> core_step (Schedule now false) r x x' -> same_tasks addr ks' x'.
Proof.
  intros S Hc Ev E (_ & (Ho & Ht & _) & _). rewrite Hc in *. destruct (S cur v Ev) as (Eo & w & Et & H1 & H2 & H3).
  unfold on_block, ts_block, going in *. rewrite Et in Ho, Ht. rewrite H1 in *. cbn [andb negb] in *.
  rewrite (sig_core_same w v H1 H2) in * by by rewrite H1. unfold schedule_prev in E. erewrite bind_ok in E by (apply deref_ok; exact Ev).
  change TASK_RUNNING with 0 in *. destruct (KState.state v =? 0) eqn:Ez; cbn [negb andb] in *.
  { injection E as <-. rewrite (set_tasks_same ks cur v Ev).
    apply (same_tasks_put ks x x' cur v w (KState.on_rq v)); rewrite ?Ho, ?Ht, ?H1; done. }
  destruct (WaitQueue.signal_pending_state _ _); cbn [negb] in *.
  - rewrite (set_state_run _ _ _ _ Ev) in E. injection E as <-.
    apply (same_tasks_put ks x x' cur _ (tc_to 0 w) (KState.on_rq v)); rewrite ?Ho, ?Ht, ?put_at_eq; try done.
    intros p Hp. by rewrite Ht, put_at_ne.
  - injection E as <-.
    apply (same_tasks_put ks x x' cur _ w false); rewrite ?Ho, ?Ht, ?H1, ?mark_eq; try done.
    intros p Hp. by rewrite Ho, mark_ne.
Qed.

(** The operations of the scheduler do what the model of the wait queues says. *)
Lemma counterpart_same ks ks' x x' cur o m r r' :
  same_tasks addr ks x -> rq_curr x.2 = addr cur -> counterpart addr cur o m -> m ks = Ok (r, ks') ->
  core_step o r' x x' -> r' = r /\ same_tasks addr ks' x'.
Proof.
  intros S Hc Hm E St. destruct Hm as [t mask now now' irq|now|st Hst].
  - pose proof E as (v & Ev & _)%task_lookup. rewrite (try_to_wake_up_run _ _ _ _ Ev) in E. injection E as <- <-.
    by apply (wakeup_same ks x x').
  - apply bind_inv_ok in E as ([] & s & E & [= <- <-]). pose proof E as (v & Ev & _)%task_lookup.
    split; [apply St|by eapply block_same].
  - apply bind_inv_ok in E as ([] & s & E & [= <- <-]). pose proof E as (v & Ev & _)%task_lookup.
    rewrite (set_state_run _ _ _ _ Ev) in E. injection E as <-. destruct (S cur v Ev) as (Eo & w & Et & H1 & H2 & H3).
    destruct St as (-> & Ho & Ht & _). split; [done|]. rewrite Hc, Et in Ht.
    apply (same_tasks_put ks x x' cur _ (tc_to st w) (KState.on_rq v)); rewrite ?Ho, ?Ht, ?put_at_eq; try done.
    intros p Hp. by rewrite Ht, put_at_ne.
Qed.

Lemma counterpart_legal ks ks' x cur o m r :
  CoreInv x -> same_tasks addr ks x -> rq_curr x.2 = addr cur -> counterpart addr cur o m -> m ks = Ok (r, ks') ->
  core_legal x o = true.
Proof.
  intros I S Hc Hm E. destruct Hm as [t mask now now' irq|now|st Hst]; cbn [core_legal].
  - apply task_lookup in E as (v & Ev & _). destruct (S t v Ev) as (_ & w & -> & _). done.
  - done.
  - apply bind_inv_ok in E as ([] & s & (v & Ev & _)%task_lookup & _). destruct (S cur v Ev) as [Eo _]. rewrite Hc.
    apply negb_true_iff, Z.eqb_neq. intros H0. rewrite H0 in Eo. destruct (shows_zero _ _ _ _ (inv_shows x I)). congruence.
Qed.
End Tasks.
