(* ===== verification/CfsTree.v ===== *)
(** The timeline of [kernel/sched_fair.c] as a red-black tree: the functions of
    its section on the tree data structure, on a heap with run queues,
    entities and nodes. *)
From S2P Require Import Prelude Wp Heap Rbtree Cfs.

(** The root of the timeline in a [struct cfs_rq]: it follows five words. *)
Definition tasks_timeline (cfs : Z) : Z := cfs + 40.

Section Tree.
  Context {V : Type} `{Holds V rb_node} `{Holds V rb_root} `{Holds V sched_entity} `{Holds V cfs_rq}.

(** A round of the search for the place of a new entity. *)
Definition enqueue_round (cfs key : Z) (l : link * Z * bool) : M (gmap Z V) (link * Z * bool + link * Z * bool) :=
  let '(lnk, parent, leftmost) := l in
  let! n := read_link lnk in
  if n =? NULL then ret (inr l)
  else
    let! entry := load (rb_entry n) in
    let! q := load cfs in
    if key <? entity_key q entry then ret (inl (Left_link n, n, leftmost))
    else ret (inl (Right_link n, n, false)).

Definition tree_enqueue (cfs se : Z) : M (gmap Z V) unit :=
  let! q := load cfs in
  let! e := load se in
  let key := entity_key q e in
  let! (lnk, parent, leftmost) := hloop (enqueue_round cfs key) (Root_link (tasks_timeline cfs), NULL, true) in
  (if leftmost : bool then let! q := load cfs in store cfs (set_leftmost (run_node se) q) else ret tt) ;;;
  rb_link_node (run_node se) parent lnk ;;;
  rb_insert_color (run_node se) (tasks_timeline cfs).

Definition tree_dequeue (cfs se : Z) : M (gmap Z V) unit :=
  let! q := load cfs in
  (if rb_leftmost q =? run_node se then
     let! next_node := rb_next (run_node se) in
     let! q := load cfs in
     store cfs (set_leftmost next_node q)
   else ret tt) ;;;
  rb_erase (run_node se) (tasks_timeline cfs).

Definition tree_pick_last (cfs : Z) : M (gmap Z V) Z :=
  let! last := rb_last (tasks_timeline cfs) in
  if last =? NULL then ret 0 else ret (rb_entry last).

(** The run queue at the address [cfs]. *)
Definition tree_sched (cfs : Z) : Sched (gmap Z V) := {|
  get_se p := load p;
  put_se p e := store p e;
  get_rq := load cfs;
  put_rq q := store cfs q;
  __enqueue_entity := tree_enqueue cfs;
  __dequeue_entity := tree_dequeue cfs;
  __pick_last_entity := tree_pick_last cfs;
|}.
End Tree.
