(* ===== verification/CfsRefine.v ===== *)
(** The timeline on the red-black tree implements the timeline on the list.

    [runqueue cfs s] owns the objects that represent the state [s].  A
    computation on the heap simulates one on the list if it gives the same
    result whenever the latter does not fail; the functions of [Cfs.v] are
    built from the operations of the class [Sched] only, so it is enough to
    compare these. *)
From iris.proofmode Require Import proofmode environments.
From iris.base_logic Require Import lib.gen_heap.
From S2P Require Import Prelude Wp Heap HeapLogic Rbtree RbtreeSpec RbtreeProof RbtreeWalk RbtreeInsert RbtreeErase.
From S2P Require Import Cfs CfsSpec CfsRun CfsTree.

Create HintDb sim.

Section Refine.
  Context {V : Type} {HN : Holds V rb_node} {HR : Holds V rb_root} {HE : Holds V sched_entity} {HQ : Holds V cfs_rq}.
  Context {Σ : gFunctors} `{!gen_heapGS Z V Σ} (cfs : Z).


(** ** Representation *)

Definition timeline (order : list Z) : iProp Σ :=
  ∃ t, ⌜rb_ok t /\ elements t = run_node <$> order⌝ ∗ rbtree (tasks_timeline cfs) t.

Definition entities (m : gmap Z sched_entity) : iProp Σ := [∗ map] p ↦ e ∈ m, pointsto p (DfracOwn 1) (obj e).

(** The nodes of the entities that do not wait. *)
Definition unlinked (m : gmap Z sched_entity) (order : list Z) : iProp Σ :=
  [∗ set] p ∈ dom m ∖ list_to_set order, rbfree (run_node p).

Definition runqueue (s : sched_state) : iProp Σ :=
  pointsto cfs (DfracOwn 1) (obj (ss_rq s)) ∗ timeline (ss_order s) ∗ entities (ss_ents s) ∗
  unlinked (ss_ents s) (ss_order s).

(** ** Simulation *)

Definition sim {A} (m : M (gmap Z V) A) (m' : M sched_state A) : Prop :=
  forall s a s', m' s = Ok (a, s') -> runqueue s ⊢ hwp m (fun b => ⌜b = a⌝ ∗ runqueue s').

Lemma sim_ret {A} (a : A) : sim (ret a) (ret a).
Proof. intros s b s' [= <- <-]. iIntros "Hs". iApply hwp_ret. by iFrame. Qed.

Lemma sim_bind {A B} (m : M (gmap Z V) A) m' (k : A -> M (gmap Z V) B) k' :
  sim m m' -> (forall a, sim (k a) (k' a)) -> sim (bind m k) (bind m' k').
Proof.
  intros Hm Hk s b s' (a & s1 & E1 & E2)%bind_inv_ok. iIntros "Hs". iApply hwp_bind.
  iApply (hwp_mono with "[Hs]"); [by iApply (Hm _ _ _ E1)|]. iIntros (a') "[-> Hs]". by iApply (Hk a _ _ _ E2).
Qed.

Lemma sim_if {A} (b : bool) (m1 m2 : M (gmap Z V) A) m1' m2' :
  sim m1 m1' -> sim m2 m2' -> sim (if b then m1 else m2) (if b then m1' else m2').
Proof. by destruct b. Qed.

(** ** Entities and the run queue *)

Lemma sim_get_se p : sim (get_se (Sched := tree_sched cfs) p) (get_se p).
Proof.
  intros s a s'. cbn. unfold deref. destruct (ss_ents s !! p) as [e|] eqn:E; [|done]. intros [= <- <-].
  iIntros "(Hq & Ht & He & Hu)". iDestruct (big_sepM_lookup_acc _ _ _ _ E with "He") as "[Hp He]".
  iApply (hwp_load with "Hp"). iIntros "Hp". iSplit; [done|]. iFrame. by iApply "He".
Qed.

Lemma sim_put_se p e : sim (put_se (Sched := tree_sched cfs) p e) (put_se p e).
Proof.
  intros s a s'. cbn. unfold bind, deref. destruct (ss_ents s !! p) as [e0|] eqn:E; [|done]. intros [= <- <-].
  iIntros "(Hq & Ht & He & Hu)". iDestruct (big_sepM_insert_acc _ _ _ _ E with "He") as "[Hp He]".
  iApply (hwp_store with "Hp"). iIntros "Hp". iSplit; [done|]. unfold runqueue, unlinked. cbn. rw dom_insert_lookup_L //. iFrame.
  by iApply "He".
Qed.

Lemma sim_get_rq : sim (get_rq (Sched := tree_sched cfs)) get_rq.
Proof.
  intros s a s' [= <- <-]. iIntros "(Hq & Ht & He & Hu)". iApply (hwp_load with "Hq"). iIntros "Hq". iSplit; [done|]. iFrame.
Qed.

Lemma sim_put_rq q : sim (put_rq (Sched := tree_sched cfs) q) (put_rq q).
Proof.
  intros s a s' [= <- <-]. iIntros "(Hq & Ht & He & Hu)". iApply (hwp_store with "Hq"). iIntros "Hq". iSplit; [done|]. iFrame.
Qed.

Lemma sim_pick_last : sim (__pick_last_entity (Sched := tree_sched cfs)) __pick_last_entity.
Proof.
  intros s a s' [= <- <-]. iIntros "(Hq & (%t & [%Hok %Ht] & Ht) & He & Hu)". cbn. unfold tree_pick_last.
  iAssert ⌜Forall valid (elements t)⌝%I as %Hv. { iDestruct (rbtree_cells with "Ht") as "[_ %]". done. }
  iApply hwp_bind. iApply (hwp_last with "Ht"). iIntros "Ht". rw tip_right Ht fmap_last. rw Ht in Hv.
  destruct (last (ss_order s)) as [p|] eqn:E; cbn.
  - assert (Hp : valid (run_node p)).
    { rw Forall_fmap in Hv. apply (proj1 (Forall_forall _ _) Hv). apply last_Some in E as [l ->]. set_solver. }
    rw (proj2 (Z.eqb_neq _ NULL) (valid_nonzero _ Hp)). iApply hwp_ret. iSplit; [iPureIntro; unfold rb_entry, run_node; lia|].
    by iFrame.
  - iApply hwp_ret. iSplit; [done|]. by iFrame.
Qed.

(** ** The timeline *)

Lemma run_node_inj : Inj (=) (=) run_node.
Proof. intros x y. unfold run_node. lia. Qed.

Lemma set_leftmost_id q : set_leftmost (rb_leftmost q) q = q.
Proof. by destruct q. Qed.

Lemma rbtree_nodup root t : rbtree root t ⊢ ⌜NoDup (elements t)⌝.
Proof.
  iIntros "Ht". iDestruct (rbtree_cells with "Ht") as "[Ht _]". iDestruct (owned_cells_nodup with "Ht") as %Hd.
  iPureIntro. cbn in Hd. apply NoDup_cons in Hd as [_ Hd]. by rw -(node_cells_keys NULL t).
Qed.

Lemma sim_dequeue se : sim (__dequeue_entity (Sched := tree_sched cfs) se) (__dequeue_entity se).
Proof.
  intros s a s'. cbn. unfold list_dequeue. case_match eqn:G; [|done]. intros [= <- <-].
  apply andb_true_iff in G as [[Hl%Z.eqb_eq Hin%bool_decide_eq_true]%andb_true_iff Hse%bool_decide_eq_true].
  apply list_elem_of_split in Hin as (es1 & es2 & Ho). rw Ho in Hl *.
  iIntros "(Hq & (%t & [%Hok %Ht] & Ht) & He & Hu)". iDestruct (rbtree_nodup with "Ht") as %Hd. rw Ht in Hd.
  assert (Hn : se ∉ es1 /\ se ∉ es2).
  { rw Ho in Hd. apply NoDup_fmap_1 in Hd. apply NoDup_app in Hd as (_ & Hd1 & Hd2).
    split; [intros Hx; apply (Hd1 se Hx); set_solver|by apply NoDup_cons in Hd2 as [? _]]. }
  rw (filter_split _ _ _ (proj1 Hn) (proj2 Hn)). rw Ho fmap_app fmap_cons in Ht. 
  destruct (elements_split t (run_node <$> es1) (run_node se) (run_node <$> es2)) as (k & c & l & r & -> & E1 & E2);
    [by rw Ht; rw Ho fmap_app fmap_cons in Hd|done|].
  unfold tree_dequeue. iApply hwp_bind. iApply (hwp_load with "Hq"). iIntros "Hq". iApply hwp_bind.
  iApply (hwp_mono _ (fun _ => pointsto cfs (DfracOwn 1) (obj (set_leftmost (first_node (es1 ++ es2)) (ss_rq s))) ∗
    rbtree (tasks_timeline cfs) (plug k (Node c l (run_node se) r)))%I with "[Hq Ht]").
  { rw Hl. destruct es1 as [|x es1]; cbn [app first_node].
    - rw Z.eqb_refl. iApply hwp_bind. iApply (hwp_next with "Ht"). iIntros "Ht". rw -E2.
      iApply hwp_bind. iApply (hwp_load with "Hq"). iIntros "Hq". iApply (hwp_store with "Hq"). iIntros "Hq". iFrame.
      by destruct es2.
    - rw (proj2 (Z.eqb_neq _ _)); [|intros E%run_node_inj; set_solver]. iApply hwp_ret. cbn [app first_node] in Hl.
      rw -Hl set_leftmost_id. iFrame. }
  iIntros ([]) "[Hq Ht]". iApply (hwp_mono with "[Ht]"); [by iApply (hwp_erase with "Ht")|].
  iIntros ([]) "(%t' & [%Hok' %He'] & Ht & Hx)". iSplit; [done|]. unfold runqueue. cbn. iFrame. iSplit.
  - iPureIntro. split; [done|]. by rw He' fmap_app E1 E2 -app_assoc.
  - unfold unlinked. rw Ho. iApply (big_sepS_delete _ _ se); [apply elem_of_dom in Hse; set_solver|]. iFrame.
    by rw (_ : dom (ss_ents s) ∖ list_to_set (es1 ++ es2) ∖ {[se]} = dom (ss_ents s) ∖ list_to_set (es1 ++ se :: es2)); [|set_solver].
Qed.

(** The place of a node of the tree. *)
Definition node_key (s : sched_state) (n : Z) : Z := key_of s (rb_entry n).

(** The search keeps what is not after the new entity before the hole, and
    what is after it behind the hole. *)
Lemma hwp_enqueue_loop s key fuel k t :
  (length (elements t) < fuel)%nat -> Forall (fun n => is_Some (ss_ents s !! rb_entry n)) (elements t) ->
  sorted (node_key s) (elements (plug k t)) ->
  Forall (fun n => node_key s n <= key) (before k) -> Forall (fun n => key < node_key s n) (after k) ->
  pointsto cfs (DfracOwn 1) (obj (ss_rq s)) ∗ entities (ss_ents s) ∗ rbtree (tasks_timeline cfs) (plug k t) ⊢
  hwp (loop fuel (enqueue_round cfs key) (link_of (tasks_timeline cfs) k, parent k, bool_decide (before k = []))) (fun res =>
    ∃ k', ⌜res = (link_of (tasks_timeline cfs) k', parent k', bool_decide (before k' = [])) /\ plug k' Leaf = plug k t /\
      Forall (fun n => node_key s n <= key) (before k') /\ Forall (fun n => key < node_key s n) (after k')⌝ ∗
    pointsto cfs (DfracOwn 1) (obj (ss_rq s)) ∗ entities (ss_ents s) ∗ rbtree (tasks_timeline cfs) (plug k t)).
Proof.
  revert k t. induction fuel as [|fuel IH]; intros k t Hf He Hs Hb Ha; [lia|]. cbn [loop]. iIntros "(Hq & He & Ht)".
  iDestruct (rbtree_plug with "Ht") as "[Hk Ht]". do 2 iApply hwp_bind. iApply (hwp_read_link with "Hk"). iIntros "Hk".
  destruct t as [|c l x r].
  { cbn [ptr]. rw Z.eqb_refl. do 2 iApply hwp_ret. iExists k. iFrame. iSplit; [done|]. iApply rbtree_plug. iFrame. }
  iAssert ⌜valid x⌝%I as %Hx. { iDestruct "Ht" as "([[% %] _] & _)". done. }
  cbn [ptr]. rw (proj2 (Z.eqb_neq x NULL) (valid_nonzero x Hx)).
  iAssert (rbtree (tasks_timeline cfs) (plug k (Node c l x r))) with "[Hk Ht]" as "Ht". { iApply rbtree_plug. iFrame. }
  cbn [elements] in He, Hf. rw length_app in Hf. cbn in Hf. apply Forall_app in He as [Hel [Hex Her]%Forall_cons].
  destruct Hex as [e Ee]. iDestruct (big_sepM_lookup_acc _ _ _ _ Ee with "He") as "[Hx He]".
  iApply hwp_bind. iApply (hwp_load with "Hx"). iIntros "Hx". iDestruct ("He" with "Hx") as "He".
  iApply hwp_bind. iApply (hwp_load with "Hq"). iIntros "Hq".
  assert (Hkx : entity_key (ss_rq s) e = node_key s x) by (unfold node_key, key_of; by rw Ee).
  rw Hkx. pose proof (elements_plug k (Node c l x r)) as Hep. cbn [elements] in Hep.
  pose proof Hs as Hs0. rw Hep -!app_assoc app_assoc in Hs0. cbn in Hs0. apply sorted_middle in Hs0 as [Hs1 Hs2].
  apply Forall_app in Hs1 as [_ Hs1]. apply Forall_app in Hs2 as [Hs2 _].
  destruct (Z.ltb_spec key (node_key s x)) as [Hlt|Hge]; iApply hwp_ret.
  - iApply (IH (Frame L c x r :: k) l with "[$]"); [lia|done|done|done|]. cbn. constructor; [done|].
    apply Forall_app. split; [|done]. eapply Forall_impl; [exact Hs2|]. cbn. lia.
  - assert (Hn : bool_decide (before (Frame R c x l :: k) = []) = false)
      by (apply bool_decide_eq_false_2; cbn; by destruct (before k), (elements l)).
    rw (_ : (Right_link x, x, false) = (Right_link x, x, bool_decide (before (Frame R c x l :: k) = []))); [|by rw Hn].
    iApply (IH (Frame R c x l :: k) r with "[$]"); [lia|done|done| |done]. cbn. apply Forall_app. split; [done|].
    apply Forall_app. split; [eapply Forall_impl; [exact Hs1|]; cbn; lia|by constructor].
Qed.

Lemma rb_entry_run_node p : rb_entry (run_node p) = p.
Proof. unfold rb_entry, run_node. lia. Qed.

(** The search from the root finds the gap between what runs before the new
    entity and what runs after it. *)
Lemma hwp_enqueue_search s key t :
  Forall (fun p => is_Some (ss_ents s !! p)) (ss_order s) -> sorted (key_of s) (ss_order s) ->
  elements t = run_node <$> ss_order s ->
  pointsto cfs (DfracOwn 1) (obj (ss_rq s)) ∗ entities (ss_ents s) ∗ rbtree (tasks_timeline cfs) t ⊢
  hwp (hloop (enqueue_round cfs key) (Root_link (tasks_timeline cfs), NULL, true)) (fun res =>
    ∃ k b a, ⌜res = (link_of (tasks_timeline cfs) k, parent k, bool_decide (b = [])) /\ t = plug k Leaf /\
      before k = run_node <$> b /\ after k = run_node <$> a /\ ss_order s = b ++ a /\
      Forall (fun p => key_of s p <= key) b /\ Forall (fun p => key < key_of s p) a⌝ ∗
    pointsto cfs (DfracOwn 1) (obj (ss_rq s)) ∗ entities (ss_ents s) ∗ rbtree (tasks_timeline cfs) t).
Proof.
  intros He Hs Ht. apply (hwp_hloop _ _ _ _ (length (elements t))).
  { iIntros (h) "Hh (_ & _ & Ht)". iDestruct (rbtree_size with "Hh Ht") as %Hsz. iPureIntro. lia. }
  iIntros (fuel Hf) "H". iApply (hwp_mono with "[H]").
  { iApply (hwp_enqueue_loop s key fuel [] t with "H"); [done| | |constructor..]; cbn [plug]; rw Ht.
    - apply Forall_fmap. eapply Forall_impl; [exact He|]. intros p. cbn. by rw rb_entry_run_node.
    - intros i j x y Hij Hi Hj. rw !list_lookup_fmap in Hi Hj.
      apply fmap_Some in Hi as (p & Hi & ->). apply fmap_Some in Hj as (q & Hj & ->).
      unfold node_key. rw !rb_entry_run_node. by apply (Hs i j). }
  iIntros (res) "(%k & (-> & %Hk & %Hb & %Ha) & H)". iFrame. cbn [plug] in Hk. subst t.
  pose proof (elements_plug k Leaf) as E. cbn in E. rw Ht in E. symmetry in E.
  apply symmetry, fmap_app_inv in E as (b & a & Eb & Ea & Eo). iExists k, b, a. iPureIntro.
  rw Eb Forall_fmap in Hb. rw Ea Forall_fmap in Ha. split_and!; try done.
  - f_equal. apply bool_decide_ext. rw Eb. by destruct b.
  - eapply Forall_impl; [exact Hb|]. intros p. cbn. unfold node_key. by rw rb_entry_run_node.
  - eapply Forall_impl; [exact Ha|]. intros p. cbn. unfold node_key. by rw rb_entry_run_node.
Qed.

Lemma sim_enqueue se : sim (__enqueue_entity (Sched := tree_sched cfs) se) (__enqueue_entity se).
Proof.
  intros s a s'. cbn. unfold list_enqueue. case_match eqn:G; [|done]. intros [= <- <-].
  apply andb_true_iff in G as [[(Hents & Hsort & Hl)%in_order_spec Hin%negb_true_iff%bool_decide_eq_false]%andb_true_iff Hse%bool_decide_eq_true].
  pose proof Hse as [e Ee]. iIntros "(Hq & (%t & [%Hok %Ht] & Ht) & He & Hu)". unfold tree_enqueue.
  iApply hwp_bind. iApply (hwp_load with "Hq"). iIntros "Hq".
  iDestruct (big_sepM_lookup_acc _ _ _ _ Ee with "He") as "[Hx He]".
  iApply hwp_bind. iApply (hwp_load with "Hx"). iIntros "Hx". iDestruct ("He" with "Hx") as "He".
  rw (_ : entity_key (ss_rq s) e = key_of s se); [|by unfold key_of; rw Ee].
  iApply hwp_bind. iApply (hwp_mono with "[Hq He Ht]"); [iApply (hwp_enqueue_search s _ t Hents Hsort Ht with "[$]")|].
  iIntros (res) "(%k & %b & %a & (-> & -> & %Eb & %Ea & %Eo & %Hb & %Ha) & Hq & He & Ht)".
  rw Eo (place_split _ _ _ _ Hb Ha). iApply hwp_bind.
  iApply (hwp_mono _ (fun _ => pointsto cfs (DfracOwn 1) (obj (set_leftmost (first_node (b ++ se :: a)) (ss_rq s)))) with "[Hq]").
  { destruct b as [|x b]; cbn [bool_decide].
    - iApply hwp_bind. iApply (hwp_load with "Hq"). iIntros "Hq". iApply (hwp_store with "Hq"). by iIntros "Hq".
    - iApply hwp_ret. rw Eo in Hl. cbn in *. by rw -Hl set_leftmost_id. }
  iIntros ([]) "Hq". unfold unlinked. rw (big_sepS_delete _ _ se); [|apply elem_of_dom in Hse; rw Eo in Hin; set_solver].
  iDestruct "Hu" as "[Hx Hu]". iApply hwp_bind. iApply (hwp_link_node with "Ht Hx"). iIntros "Ht".
  iApply (hwp_mono with "[Ht]"); [by iApply (hwp_insert_color with "Ht")|].
  iIntros ([]) "(%t' & [%Hok' %He'] & Ht)". iSplit; [done|]. unfold runqueue. cbn. iFrame. iSplit.
  - iPureIntro. split; [done|]. by rw He' fmap_app Eb Ea.
  - unfold unlinked.
    by rw (_ : dom (ss_ents s) ∖ list_to_set (b ++ se :: a) = dom (ss_ents s) ∖ list_to_set (b ++ a) ∖ {[se]}); [|set_solver].
Qed.

(** ** The functions of the scheduler *)

Ltac sim_step :=
  first [ apply sim_ret | apply sim_get_se | apply sim_put_se | apply sim_get_rq | apply sim_put_rq
        | apply sim_pick_last | apply sim_enqueue | apply sim_dequeue
        | solve [eauto with sim] | apply sim_bind; [|intros ?] | apply sim_if | case_match ].
Ltac sim_go := cbv zeta; repeat (sim_step; cbv zeta).

Lemma sim_upd_se se f : sim (upd_se (H := tree_sched cfs) se f) (upd_se se f).
Proof. unfold upd_se. sim_go. Qed.
#[local] Hint Resolve sim_upd_se : sim.

Lemma sim_upd_rq f : sim (upd_rq (H := tree_sched cfs) f) (upd_rq f).
Proof. unfold upd_rq. sim_go. Qed.
#[local] Hint Resolve sim_upd_rq : sim.

Lemma sim_raw_pick_next_entity : sim (__pick_next_entity (H := tree_sched cfs) ) (__pick_next_entity ).
Proof. unfold __pick_next_entity. sim_go. Qed.
#[local] Hint Resolve sim_raw_pick_next_entity : sim.

Lemma sim_update_min_vruntime : sim (update_min_vruntime (H := tree_sched cfs) ) (update_min_vruntime ).
Proof. unfold update_min_vruntime. sim_go. Qed.
#[local] Hint Resolve sim_update_min_vruntime : sim.

Lemma sim_calc_delta_fair delta se : sim (calc_delta_fair (H := tree_sched cfs) delta se) (calc_delta_fair delta se).
Proof. unfold calc_delta_fair. sim_go. Qed.
#[local] Hint Resolve sim_calc_delta_fair : sim.

Lemma sim_sched_slice sys se : sim (sched_slice (H := tree_sched cfs) sys se) (sched_slice sys se).
Proof. unfold sched_slice. sim_go. Qed.
#[local] Hint Resolve sim_sched_slice : sim.

Lemma sim_sched_vslice sys se : sim (sched_vslice (H := tree_sched cfs) sys se) (sched_vslice sys se).
Proof. unfold sched_vslice. sim_go. Qed.
#[local] Hint Resolve sim_sched_vslice : sim.

Lemma sim_raw_update_curr curr delta : sim (__update_curr (H := tree_sched cfs) curr delta) (__update_curr curr delta).
Proof. unfold __update_curr. sim_go. Qed.
#[local] Hint Resolve sim_raw_update_curr : sim.

Lemma sim_update_curr : sim (update_curr (H := tree_sched cfs) ) (update_curr ).
Proof. unfold update_curr. sim_go. Qed.
#[local] Hint Resolve sim_update_curr : sim.

Lemma sim_update_stats_curr_start se : sim (update_stats_curr_start (H := tree_sched cfs) se) (update_stats_curr_start se).
Proof. unfold update_stats_curr_start. sim_go. Qed.
#[local] Hint Resolve sim_update_stats_curr_start : sim.

Lemma sim_account_entity_enqueue se : sim (account_entity_enqueue (H := tree_sched cfs) se) (account_entity_enqueue se).
Proof. unfold account_entity_enqueue. sim_go. Qed.
#[local] Hint Resolve sim_account_entity_enqueue : sim.

Lemma sim_account_entity_dequeue se : sim (account_entity_dequeue (H := tree_sched cfs) se) (account_entity_dequeue se).
Proof. unfold account_entity_dequeue. sim_go. Qed.
#[local] Hint Resolve sim_account_entity_dequeue : sim.

Lemma sim_place_entity sys se initial : sim (place_entity (H := tree_sched cfs) sys se initial) (place_entity sys se initial).
Proof. unfold place_entity. sim_go. Qed.
#[local] Hint Resolve sim_place_entity : sim.

Lemma sim_enqueue_entity sys se wakeup migrate : sim (enqueue_entity (H := tree_sched cfs) sys se wakeup migrate) (enqueue_entity sys se wakeup migrate).
Proof. unfold enqueue_entity. sim_go. Qed.
#[local] Hint Resolve sim_enqueue_entity : sim.

Lemma sim_clear_buddies se : sim (clear_buddies (H := tree_sched cfs) se) (clear_buddies se).
Proof. unfold clear_buddies. sim_go. Qed.
#[local] Hint Resolve sim_clear_buddies : sim.

Lemma sim_dequeue_entity se sleep : sim (dequeue_entity (H := tree_sched cfs) se sleep) (dequeue_entity se sleep).
Proof. unfold dequeue_entity. sim_go. Qed.
#[local] Hint Resolve sim_dequeue_entity : sim.

Lemma sim_check_preempt_tick sys curr : sim (check_preempt_tick (H := tree_sched cfs) sys curr) (check_preempt_tick sys curr).
Proof. unfold check_preempt_tick. sim_go. Qed.
#[local] Hint Resolve sim_check_preempt_tick : sim.

Lemma sim_set_next_entity se : sim (set_next_entity (H := tree_sched cfs) se) (set_next_entity se).
Proof. unfold set_next_entity. sim_go. Qed.
#[local] Hint Resolve sim_set_next_entity : sim.

Lemma sim_adaptive_gran sys curr se : sim (adaptive_gran (H := tree_sched cfs) sys curr se) (adaptive_gran sys curr se).
Proof. unfold adaptive_gran. sim_go. Qed.
#[local] Hint Resolve sim_adaptive_gran : sim.

Lemma sim_wakeup_gran sys curr se : sim (wakeup_gran (H := tree_sched cfs) sys curr se) (wakeup_gran sys curr se).
Proof. unfold wakeup_gran. sim_go. Qed.
#[local] Hint Resolve sim_wakeup_gran : sim.

Lemma sim_wakeup_preempt_entity sys curr se : sim (wakeup_preempt_entity (H := tree_sched cfs) sys curr se) (wakeup_preempt_entity sys curr se).
Proof. unfold wakeup_preempt_entity. sim_go. Qed.
#[local] Hint Resolve sim_wakeup_preempt_entity : sim.

Lemma sim_pick_next_entity sys : sim (pick_next_entity (H := tree_sched cfs) sys) (pick_next_entity sys).
Proof. unfold pick_next_entity. sim_go. Qed.
#[local] Hint Resolve sim_pick_next_entity : sim.

Lemma sim_put_prev_entity prev : sim (put_prev_entity (H := tree_sched cfs) prev) (put_prev_entity prev).
Proof. unfold put_prev_entity. sim_go. Qed.
#[local] Hint Resolve sim_put_prev_entity : sim.

Lemma sim_entity_tick sys curr queued : sim (entity_tick (H := tree_sched cfs) sys curr queued) (entity_tick sys curr queued).
Proof. unfold entity_tick. sim_go. Qed.
#[local] Hint Resolve sim_entity_tick : sim.

Lemma sim_enqueue_task_fair sys p wakeup waking : sim (enqueue_task_fair (H := tree_sched cfs) sys p wakeup waking) (enqueue_task_fair sys p wakeup waking).
Proof. unfold enqueue_task_fair. sim_go. Qed.
#[local] Hint Resolve sim_enqueue_task_fair : sim.

Lemma sim_dequeue_task_fair p sleep : sim (dequeue_task_fair (H := tree_sched cfs) p sleep) (dequeue_task_fair p sleep).
Proof. unfold dequeue_task_fair. sim_go. Qed.
#[local] Hint Resolve sim_dequeue_task_fair : sim.

Lemma sim_yield_task_fair sys curr clock : sim (yield_task_fair (H := tree_sched cfs) sys curr clock) (yield_task_fair sys curr clock).
Proof. unfold yield_task_fair. sim_go. Qed.
#[local] Hint Resolve sim_yield_task_fair : sim.

Lemma sim_task_waking_fair p : sim (task_waking_fair (H := tree_sched cfs) p) (task_waking_fair p).
Proof. unfold task_waking_fair. sim_go. Qed.
#[local] Hint Resolve sim_task_waking_fair : sim.

Lemma sim_set_last_buddy se : sim (set_last_buddy (H := tree_sched cfs) se) (set_last_buddy se).
Proof. unfold set_last_buddy. sim_go. Qed.
#[local] Hint Resolve sim_set_last_buddy : sim.

Lemma sim_set_next_buddy se : sim (set_next_buddy (H := tree_sched cfs) se) (set_next_buddy se).
Proof. unfold set_next_buddy. sim_go. Qed.
#[local] Hint Resolve sim_set_next_buddy : sim.

Lemma sim_check_preempt_wakeup sys curr p rt fair fork idle : sim (check_preempt_wakeup (H := tree_sched cfs) sys curr p rt fair fork idle) (check_preempt_wakeup sys curr p rt fair fork idle).
Proof. unfold check_preempt_wakeup. sim_go. Qed.
#[local] Hint Resolve sim_check_preempt_wakeup : sim.

Lemma sim_pick_next_task_fair sys : sim (pick_next_task_fair (H := tree_sched cfs) sys) (pick_next_task_fair sys).
Proof. unfold pick_next_task_fair. sim_go. Qed.
#[local] Hint Resolve sim_pick_next_task_fair : sim.

Lemma sim_put_prev_task_fair prev : sim (put_prev_task_fair (H := tree_sched cfs) prev) (put_prev_task_fair prev).
Proof. unfold put_prev_task_fair. sim_go. Qed.
#[local] Hint Resolve sim_put_prev_task_fair : sim.

Lemma sim_task_tick_fair sys curr queued : sim (task_tick_fair (H := tree_sched cfs) sys curr queued) (task_tick_fair sys curr queued).
Proof. unfold task_tick_fair. sim_go. Qed.
#[local] Hint Resolve sim_task_tick_fair : sim.

Lemma sim_task_fork_fair sys p clock : sim (task_fork_fair (H := tree_sched cfs) sys p clock) (task_fork_fair sys p clock).
Proof. unfold task_fork_fair. sim_go. Qed.
#[local] Hint Resolve sim_task_fork_fair : sim.

Lemma sim_set_curr_task_fair curr : sim (set_curr_task_fair (H := tree_sched cfs) curr) (set_curr_task_fair curr).
Proof. unfold set_curr_task_fair. sim_go. Qed.
#[local] Hint Resolve sim_set_curr_task_fair : sim.

Lemma sim_run_op sys o : sim (run_op (H := tree_sched cfs) sys o) (run_op sys o).
Proof. unfold run_op. destruct o; sim_go. Qed.
#[local] Hint Resolve sim_run_op : sim.

Lemma sim_run_ops sys l : sim (run_ops (H := tree_sched cfs) sys l) (run_ops sys l).
Proof. induction l as [|o l IH]; cbn [run_ops]; sim_go. Qed.
End Refine.
