(* ===== verification/SchedRefine.v ===== *)
(** The core of the scheduler on the run queue in the heap does what it does on
    the list.

    A computation of the core with the rest [r] of the run queue is a
    computation on the run queue of the fair class that returns the new rest;
    the simulation of [CfsRefine.v] is used for these. *)
From iris.proofmode Require Import proofmode environments.
From iris.base_logic Require Import lib.gen_heap.
From S2P Require Import Prelude Wp Heap HeapLogic Rbtree RbtreeSpec RbtreeProof RbtreeWalk RbtreeInsert RbtreeErase.
From S2P Require Import Cfs CfsSpec CfsRun SchedCore SchedInv SchedRun CfsTree CfsRefine.

Create HintDb simc.

Definition run_at {S A} (r : rq) (m : M (S * rq) A) : M S (A * rq) := fun s =>
  match m (s, r) with
  | Ok (a, (s', r')) => Ok ((a, r'), s')
  | Err f => Err f
  end.

Lemma run_at_bind {S A B} r (m : M (S * rq) A) (k : A -> M (S * rq) B) s :
  run_at r (bind m k) s = bind (run_at r m) (fun y => run_at y.2 (k y.1)) s.
Proof. unfold run_at, bind. by destruct (m (s, r)) as [[a [s' r']]|f]. Qed.

Section Refine.
  Context {V : Type} {HN : Holds V rb_node} {HR : Holds V rb_root} {HE : Holds V sched_entity} {HQ : Holds V cfs_rq}.
  Context {Σ : gFunctors} `{!gen_heapGS Z V Σ} (queue : Z).

(** ** Simulation *)

Definition simc {A} (m : M (gmap Z V * rq) A) (m' : M core_state A) : Prop :=
  forall r, sim queue (run_at r m) (run_at r m').

Lemma sim_ext {A} (m1 m2 : M (gmap Z V) A) m1' m2' :
  (forall h, m1 h = m2 h) -> (forall s, m1' s = m2' s) -> sim queue m2 m2' -> sim queue m1 m1'.
Proof.
  intros Hm Hm' Hs s a s' E. rw Hm' in E. rw (Hs _ _ _ E). unfold hwp. iIntros "H" (h) "Hh". rw Hm. by iApply "H".
Qed.

Lemma simc_ret {A} (a : A) : simc (ret a) (ret a).
Proof. intros r. apply sim_ret. Qed.

Lemma simc_bind {A B} (m : M (gmap Z V * rq) A) m' (k : A -> M (gmap Z V * rq) B) k' :
  simc m m' -> (forall a, simc (k a) (k' a)) -> simc (bind m k) (bind m' k').
Proof.
  intros Hm Hk r. eapply sim_ext; [intros h; apply run_at_bind|intros s; apply run_at_bind|].
  apply sim_bind; [apply Hm|intros [a r']; apply Hk].
Qed.

Lemma simc_if {A} (b : bool) (m1 m2 : M (gmap Z V * rq) A) m1' m2' :
  simc m1 m1' -> simc m2 m2' -> simc (if b then m1 else m2) (if b then m1' else m2').
Proof. by destruct b. Qed.

Lemma simc_cfs {A} (m : M (gmap Z V) A) m' : sim queue m m' -> simc (cfs m) (cfs m').
Proof.
  intros Hm r. eapply (sim_ext _ (bind m (fun a => ret (a, r))) _ (bind m' (fun a => ret (a, r)))).
  - intros h. unfold run_at, cfs, zoom, bind. cbn. by destruct (m h) as [[a h']|f].
  - intros s. unfold run_at, cfs, zoom, bind. cbn. by destruct (m' s) as [[a s']|f].
  - apply sim_bind; [done|]. intros a. apply sim_ret.
Qed.

Lemma simc_get_this : simc get_this get_this.
Proof. intros r. apply (sim_ret queue (r, r)). Qed.

Lemma simc_upd_this f : simc (upd_this f) (upd_this f).
Proof. intros r. apply (sim_ret queue (tt, f r)). Qed.

Lemma simc_deref {A} (f : rq -> option A) : simc (deref (fun x => f x.2)) (deref (fun x => f x.2)).
Proof.
  intros r. unfold deref, run_at. cbn [snd]. destruct (f r) as [a|]; [apply (sim_ret queue (a, r))|]. by intros s a s'.
Qed.

(** ** The functions of the core *)

  Context (sys : sysctl).
Abbreviation tree := (tree_sched queue).
Abbreviation tree_call := (run_op (H := tree) sys).

Lemma simc_call o : simc (call_class tree_call o) (call_class (checked sys) o).
Proof.
  apply simc_cfs. intros s a s'. unfold checked. case_match; [|done]. apply sim_run_op.
Qed.

Lemma simc_get_task p : simc (get_task p) (get_task p).
Proof. apply (simc_deref (fun r => rq_tasks r !! p)). Qed.

Lemma simc_zget {A} (l : list A) i : simc (deref (fun _ => zget l i)) (deref (fun _ => zget l i)).
Proof. apply (simc_deref (fun _ => zget l i)). Qed.

Lemma simc_get_se p : simc (cfs (get_se (Sched := tree) p)) (cfs (get_se p)).
Proof. apply simc_cfs, sim_get_se. Qed.
Lemma simc_upd_se p f : simc (cfs (upd_se (H := tree) p f)) (cfs (upd_se p f)).
Proof. apply simc_cfs, sim_upd_se. Qed.
Lemma simc_get_rq : simc (cfs (get_rq (Sched := tree))) (cfs get_rq).
Proof. apply simc_cfs, sim_get_rq. Qed.
Lemma simc_upd_rq f : simc (cfs (upd_rq (H := tree) f)) (cfs (upd_rq f)).
Proof. apply simc_cfs, sim_upd_rq. Qed.
Lemma simc_resched : simc (cfs (resched_task (H := tree))) (cfs resched_task).
Proof. apply simc_cfs, sim_upd_rq. Qed.

Ltac simc_step :=
  first [ apply simc_ret | apply simc_get_this | apply simc_upd_this | apply simc_get_task | apply simc_call | apply simc_zget
        | apply simc_get_se | apply simc_upd_se | apply simc_get_rq | apply simc_upd_rq | apply simc_resched
        | solve [eauto with simc] | apply simc_bind; [|intros ?] | apply simc_if | case_match ].
Ltac simc_go := cbv zeta; repeat (simc_step; cbv zeta).

Lemma simc_upd_task p f : simc (upd_task p f) (upd_task p f).
Proof. unfold upd_task. simc_go. Qed.
#[local] Hint Resolve simc_upd_task : simc.

Lemma simc_update_rq_clock now : simc (update_rq_clock (H := tree) tree_call now) (update_rq_clock (checked sys) now).
Proof. unfold update_rq_clock. simc_go. Qed.
#[local] Hint Resolve simc_update_rq_clock : simc.

Lemma simc_clock_at now : simc (clock_at (H := tree) now) (clock_at now).
Proof. unfold clock_at. simc_go. Qed.
#[local] Hint Resolve simc_clock_at : simc.

Lemma simc_set_load_weight p : simc (set_load_weight (H := tree) p) (set_load_weight p).
Proof. unfold set_load_weight. simc_go. Qed.
#[local] Hint Resolve simc_set_load_weight : simc.

Lemma simc_enqueue_task p wakeup : simc (enqueue_task (H := tree) tree_call p wakeup) (enqueue_task (checked sys) p wakeup).
Proof. unfold enqueue_task. simc_go. Qed.
#[local] Hint Resolve simc_enqueue_task : simc.

Lemma simc_dequeue_task p sleep : simc (dequeue_task (H := tree) sys tree_call p sleep) (dequeue_task sys (checked sys) p sleep).
Proof. unfold dequeue_task. simc_go. Qed.
#[local] Hint Resolve simc_dequeue_task : simc.

Lemma simc_effective_prio p : simc (effective_prio (H := tree) p) (effective_prio p).
Proof. unfold effective_prio. simc_go. Qed.
#[local] Hint Resolve simc_effective_prio : simc.

Lemma simc_activate_task p wakeup : simc (activate_task (H := tree) tree_call p wakeup) (activate_task (checked sys) p wakeup).
Proof. unfold activate_task. simc_go. Qed.
#[local] Hint Resolve simc_activate_task : simc.

Lemma simc_deactivate_task p sleep : simc (deactivate_task (H := tree) sys tree_call p sleep) (deactivate_task sys (checked sys) p sleep).
Proof. unfold deactivate_task. simc_go. Qed.
#[local] Hint Resolve simc_deactivate_task : simc.

Lemma simc_check_preempt_curr p fork : simc (check_preempt_curr (H := tree) tree_call p fork) (check_preempt_curr (checked sys) p fork).
Proof. unfold check_preempt_curr. simc_go. Qed.
#[local] Hint Resolve simc_check_preempt_curr : simc.

Lemma simc_account_wakeup : simc (account_wakeup (H := tree)) (account_wakeup).
Proof. unfold account_wakeup. simc_go. Qed.
#[local] Hint Resolve simc_account_wakeup : simc.

Lemma simc_try_to_wake_up p mask now now' irq : simc (try_to_wake_up (H := tree) tree_call p mask now now' irq) (try_to_wake_up (checked sys) p mask now now' irq).
Proof. unfold try_to_wake_up. simc_go. Qed.
#[local] Hint Resolve simc_try_to_wake_up : simc.

Lemma simc_raw_sched_fork p : simc (__sched_fork (H := tree) sys p) (__sched_fork sys p).
Proof. unfold __sched_fork. simc_go. Qed.
#[local] Hint Resolve simc_raw_sched_fork : simc.

Lemma simc_reset_prio p t : simc (reset_prio (H := tree) p t) (reset_prio p t).
Proof. unfold reset_prio. simc_go. Qed.
#[local] Hint Resolve simc_reset_prio : simc.

Lemma simc_sched_fork p now : simc (sched_fork (H := tree) sys tree_call p now) (sched_fork sys (checked sys) p now).
Proof. unfold sched_fork. simc_go. Qed.
#[local] Hint Resolve simc_sched_fork : simc.

Lemma simc_wake_up_new_task p now : simc (wake_up_new_task (H := tree) tree_call p now) (wake_up_new_task (checked sys) p now).
Proof. unfold wake_up_new_task. simc_go. Qed.
#[local] Hint Resolve simc_wake_up_new_task : simc.

Lemma simc_scheduler_tick now : simc (scheduler_tick (H := tree) tree_call now) (scheduler_tick (checked sys) now).
Proof. unfold scheduler_tick. simc_go. Qed.
#[local] Hint Resolve simc_scheduler_tick : simc.

Lemma simc_set_user_nice p nice now : simc (set_user_nice (H := tree) sys tree_call p nice now) (set_user_nice sys (checked sys) p nice now).
Proof. unfold set_user_nice. simc_go. Qed.
#[local] Hint Resolve simc_set_user_nice : simc.

Lemma simc_put_prev_task p : simc (put_prev_task tree_call p) (put_prev_task (checked sys) p).
Proof. unfold put_prev_task. simc_go. Qed.
#[local] Hint Resolve simc_put_prev_task : simc.

Lemma simc_pick_next_task : simc (pick_next_task (H := tree) tree_call) (pick_next_task (checked sys)).
Proof. unfold pick_next_task. simc_go. Qed.
#[local] Hint Resolve simc_pick_next_task : simc.

Lemma simc_schedule now active : simc (schedule (H := tree) sys tree_call now active) (schedule sys (checked sys) now active).
Proof. unfold schedule. simc_go. Qed.
#[local] Hint Resolve simc_schedule : simc.

Lemma simc_sys_sched_yield now now' : simc (sys_sched_yield (H := tree) sys tree_call now now') (sys_sched_yield sys (checked sys) now now').
Proof. unfold sys_sched_yield. simc_go. Qed.
#[local] Hint Resolve simc_sys_sched_yield : simc.

Lemma simc_set_current_state st : simc (set_current_state st) (set_current_state st).
Proof. unfold set_current_state. simc_go. Qed.
#[local] Hint Resolve simc_set_current_state : simc.

Lemma simc_run_core o : simc (run_core (H := tree) sys tree_call o) (run_core sys (checked sys) o).
Proof. unfold run_core. destruct o; simc_go. Qed.
#[local] Hint Resolve simc_run_core : simc.

Lemma simc_run_cores l : simc (run_cores (H := tree) sys tree_call l) (run_cores sys (checked sys) l).
Proof. induction l as [|o l IH]; cbn [run_cores]; simc_go. Qed.
End Refine.
