(* ===== verification/CfsClaims.v ===== *)
(** The fair scheduler on the red-black tree in the heap. *)
From iris.proofmode Require Import proofmode environments.
From iris.base_logic Require Import lib.gen_heap.
From S2P Require Import Prelude Wp Heap HeapLogic Rbtree RbtreeSpec RbtreeProof RbtreeWalk RbtreeInsert RbtreeErase RbtreeClaims.
From S2P Require Import Cfs CfsSpec CfsTree CfsRefine CfsInv CfsOps CfsRun.

(** ** Run queues in the heap *)

Section Heap.
  Context {V : Type} {HN : Holds V rb_node} {HR : Holds V rb_root} {HE : Holds V sched_entity} {HQ : Holds V cfs_rq}.
  Implicit Types h : gmap Z V.

(** The entities that do not wait. *)
Definition idle (s : sched_state) : list Z := base.elements (dom (ss_ents s) ∖ list_to_set (ss_order s)).

(** The addresses of the objects of a run queue. *)
Definition footprint (cfs : Z) (s : sched_state) : list Z :=
  cfs :: tasks_timeline cfs :: (map_to_list (ss_ents s)).*1 ++ (run_node <$> ss_order s ++ idle s).

(** The objects of [h] represent the state [s]: the run queue at [cfs], the
    entities, and below the root a red-black tree with the nodes of the waiting
    ones in their order. *)
Record queue_in h (cfs : Z) (s : sched_state) (t : tree) : Prop := {
  queue_rq : h !! cfs = Some (obj (ss_rq s));
  queue_ents : forall p e, ss_ents s !! p = Some e -> h !! p = Some (obj e);
  queue_tree : tree_in h (tasks_timeline cfs) t;
  queue_ok : rb_ok t;
  queue_order : elements t = run_node <$> ss_order s;
  queue_idle : Forall (free_in h) (run_node <$> idle s);
  queue_nodup : NoDup (footprint cfs s);
}.

Definition ent_cells (m : gmap Z sched_entity) : list (Z * V) := prod_map id obj <$> map_to_list m.

Definition queue_cells (cfs : Z) (s : sched_state) (t : tree) (l : list (Z * V)) : list (Z * V) :=
  (cfs, obj (ss_rq s)) :: tree_cells (tasks_timeline cfs) t ++ ent_cells (ss_ents s) ++ l.

Lemma queue_keys cfs s t l :
  elements t = run_node <$> ss_order s -> l.*1 = run_node <$> idle s ->
  (queue_cells cfs s t l).*1 ≡ₚ footprint cfs s.
Proof.
  intros Ht Hl. unfold queue_cells, footprint, ent_cells. cbn [fmap list_fmap fst]. rw !fmap_app tree_cells_keys Hl Ht.
  rw -list_fmap_compose. rw (list_fmap_ext (fst ∘ prod_map id obj) fst); [|by intros ? []].
  constructor. cbn. constructor. rw !app_assoc. f_equiv. apply Permutation_app_comm.
Qed.

Lemma ent_cells_lookup m p v : (p, v) ∈ ent_cells m <-> exists e, m !! p = Some e /\ v = obj e.
Proof.
  unfold ent_cells. rw list_elem_of_fmap. split.
  - intros ([q e] & [= -> ->] & Hin). apply elem_of_map_to_list in Hin. by exists e.
  - intros (e & E & ->). exists (p, e). split; [done|]. by apply elem_of_map_to_list.
Qed.

Section Own.
  Context {Σ : gFunctors} `{!gen_heapGS Z V Σ}.

Lemma entities_cells m : entities m ⊣⊢ cells (ent_cells m).
Proof. unfold entities, cells, ent_cells. rw big_sepL_fmap big_opM_map_to_list. apply big_sepL_proper. by intros ? []. Qed.

Lemma unlinked_list s : unlinked (ss_ents s) (ss_order s) ⊣⊢ [∗ list] x ∈ run_node <$> idle s, rbfree x.
Proof. unfold unlinked, idle. by rw big_sepL_fmap big_sepS_elements. Qed.

Lemma runqueue_cells cfs s : runqueue cfs s ⊢ ∃ t l,
  ⌜rb_ok t /\ elements t = run_node <$> ss_order s /\ Forall valid (elements t) /\
   l.*1 = run_node <$> idle s /\ node_objs l⌝ ∗ cells (queue_cells cfs s t l).
Proof.
  unfold runqueue. rw entities_cells unlinked_list. iIntros "(Hq & (%t & [%Hok %Ht] & Ht) & He & Hu)".
  iDestruct (rbtree_cells with "Ht") as "[Ht %Hv]". iDestruct (rbfree_objs with "Hu") as (l (Hl & Hn)) "Hl".
  iExists t, l. iSplit; [done|]. unfold queue_cells. rw cells_cons !cells_app. iFrame.
Qed.

Lemma cells_runqueue cfs s t l :
  rb_ok t -> elements t = run_node <$> ss_order s -> Forall valid (elements t) ->
  l.*1 = run_node <$> idle s -> node_objs l -> cells (queue_cells cfs s t l) ⊢ runqueue cfs s.
Proof.
  intros Hok Ht Hv Hl Hn. unfold queue_cells, runqueue. rw cells_cons !cells_app entities_cells unlinked_list -Hl.
  iIntros "($ & Ht & $ & Hl)". iSplitL "Ht"; [iExists t; iSplit; [done|]; by iApply cells_rbtree|]. by iApply objs_rbfree.
Qed.
End Own.

Lemma cells_queue_in h cfs s t l :
  contains h (queue_cells cfs s t l) -> rb_ok t -> elements t = run_node <$> ss_order s -> Forall valid (elements t) ->
  l.*1 = run_node <$> idle s -> node_objs l -> NoDup (footprint cfs s) -> queue_in h cfs s t.
Proof.
  intros Hc Hok Ho Hv Hl Hn Hd.
  assert (Hin : forall p v, (p, v) = (cfs, obj (ss_rq s)) \/ (p, v) ∈ tree_cells (tasks_timeline cfs) t \/
    (p, v) ∈ ent_cells (ss_ents s) \/ (p, v) ∈ l -> h !! p = Some v).
  { intros p v Hin. apply Hc. unfold queue_cells. by rw elem_of_cons !elem_of_app. }
  split; try done.
  - apply Hin. by left.
  - intros p e Ee. apply Hin. right. right. left. apply ent_cells_lookup. by exists e.
  - split; [|done|intros p v Hp; apply Hin; auto]. rw Ho. unfold footprint in Hd. rw NoDup_cons fmap_app in Hd.
    destruct Hd as [_ Hd]. rw (Permutation_app_comm (map_to_list _).*1) -app_assoc app_comm_cons in Hd.
    by apply NoDup_app in Hd as [? _].
  - rw -Hl. apply objs_free; [|done]. intros p v Hp. apply Hin. auto.
Qed.

(** What the specification does, the run queue in the heap does. *)
Lemma queue_adequacy {A} (m : M (gmap Z V) A) (m' : M sched_state A) h cfs s t a s' :
  (forall Σ (HΣ : gen_heapGS Z V Σ), sim cfs m m') -> m' s = Ok (a, s') -> queue_in h cfs s t ->
  exists h' t', m h = Ok (a, h') /\ queue_in h' cfs s' t' /\
    forall p v, h !! p = Some v -> p ∉ footprint cfs s -> h' !! p = Some v.
Proof.
  intros Hsim E [Hrq He Ht Hok Ho Hi Hd]. apply free_objs in Hi as (l & Hl & Hlc & Hln). pose proof Ht as [_ Hv Hc].
  destruct (heap_adequacy m h (queue_cells cfs s t l) (fun b l' => b = a /\ exists t' lr, l' = queue_cells cfs s' t' lr /\
    rb_ok t' /\ elements t' = run_node <$> ss_order s' /\ Forall valid (elements t') /\ lr.*1 = run_node <$> idle s' /\ node_objs lr))
    as (b & h' & l' & Em & (-> & t' & lr & -> & Hok' & Ho' & Hv' & Hl' & Hln') & Hd' & Hc' & Hs).
  - by rw queue_keys.
  - intros p v Hin. unfold queue_cells in Hin. rw elem_of_cons !elem_of_app ent_cells_lookup in Hin.
    destruct Hin as [[= -> ->]|[Hin|[(e & Ee & ->)|Hin]]]; auto.
  - intros Σ HΣ. rw (cells_runqueue cfs s t l) //. rw (Hsim Σ HΣ _ _ _ E). iIntros "H". iApply (hwp_mono with "H").
    iIntros (b) "[-> H]". iDestruct (runqueue_cells with "H") as (t' lr H) "H". iExists _. iFrame. iPureIntro.
    split; [done|]. exists t', lr. by destruct H as (? & ? & ? & ? & ?).
  - rw queue_keys // in Hd'. exists h', t'. split; [done|]. split; [by apply (cells_queue_in h' cfs s' t' lr)|].
    intros p v Hp Hn. apply (Hs p v Hp). by rw queue_keys.
Qed.

(** ** Claims *)

  Context (sys : sysctl) (cfs : Z).

(** C18: any sequence of calls of the fair scheduling class, in an order in which
    the scheduler makes them and as long as the virtual runtimes stay in the
    window in which they can be compared, runs without a fault on the run queue in the heap
    and picks the same tasks as on a sorted list; afterwards the heap represents
    the same state as the list: the timeline is a red-black tree, sorted by
    virtual runtime, of the tasks on the run queue but the running one, its
    leftmost node is cached, and the task list, the number of running tasks and
    the load agree with it; and no object outside of the run queue has
    changed. *)
Theorem fair_class_refines h s t l (Hq : queue_in h cfs s t) (R : Ready s) (G : good_run sys s l = true) :
  exists rs h' s' t', run_ops (H := tree_sched cfs) sys l h = Ok (rs, h') /\ run_ops sys l s = Ok (rs, s') /\
    queue_in h' cfs s' t' /\ Ready s' /\ forall p v, h !! p = Some v -> p ∉ footprint cfs s -> h' !! p = Some v.
Proof.
  destruct (run_ops_ok sys l s R G) as (rs & s' & E & R' & _).
  destruct (queue_adequacy _ _ h cfs s t rs s' (fun Σ HΣ => sim_run_ops cfs sys l) E Hq) as (h' & t' & E' & Hq' & Hs).
  by exists rs, h', s', t'.
Qed.

(** C19: a call that the scheduler can make at that point, with virtual runtimes
    in the window in which they can be compared, changes what runs and what is on the run queue as it should (a
    task is queued, dequeued, picked or put back; every other call leaves both
    alone), changes no weight, and never sets the clock of the run queue,
    [min_vruntime], back. *)
Theorem fair_class_calls h s t o (Hq : queue_in h cfs s t) (R : Ready s) (L : legal s o = true) (F : fits s o = true) :
  exists r h' s' t', run_op (H := tree_sched cfs) sys o h = Ok (r, h') /\ queue_in h' cfs s' t' /\ Ready s' /\
    cfs_curr (ss_rq s') = curr_after s o r /\ (forall p, on_of s' p = on_after s o p) /\
    (forall p, weight_of s' p = weight_of s p) /\ 0 <= s64 (min_vruntime (ss_rq s') - min_vruntime (ss_rq s)).
Proof.
  destruct (run_op_ok sys s o R L F) as (r & s' & E & R' & [A1 A2 A3 A4] & _).
  destruct (queue_adequacy _ _ h cfs s t r s' (fun Σ HΣ => sim_run_op cfs sys o) E Hq) as (h' & t' & E' & Hq' & _).
  exists r, h', s', t'. split_and!; try done. apply A4.
Qed.

(** C20: [pick_next_task_fair] returns a task of the run queue, and no other task
    there has a smaller virtual runtime, unless the choice is a buddy, whose
    virtual runtime then is at most the wakeup granularity of the first task
    larger than that of any other. *)
Theorem pick_next_task_fairness h s t
    (Hq : queue_in h cfs s t) (R : Ready s) (Hc : cfs_curr (ss_rq s) = 0) (Hn : nr_running (ss_rq s) <> 0)
    (W : window s) (Hw : forall p, 0 <= weight_of s p) :
  exists r h' s' t' er first ef, pick_next_task_fair (H := tree_sched cfs) sys h = Ok (r, h') /\ queue_in h' cfs s' t' /\
    cfs_curr (ss_rq s') = r /\ ss_ents s !! r = Some er /\ on_rq er = true /\ ss_ents s !! first = Some ef /\
    (r = first \/ r = cfs_next (ss_rq s) \/ r = cfs_last (ss_rq s)) /\
    forall p e, ss_ents s !! p = Some e -> on_rq e = true -> lag er e <= if r =? first then 0 else buddy_gran sys ef.
Proof.
  destruct (pick_next_task_ok sys s R Hc) as (r & s' & E & R' & A & Hf). rw (proj2 (Z.eqb_neq _ _) Hn) in Hf.
  destruct Hf as [[er [Er Hon]] (first & ef & er' & Hh & Ef & Er' & Hch & Hlag)]. assert (er' = er) as -> by congruence.
  destruct (queue_adequacy _ _ h cfs s t r s' (fun Σ HΣ => sim_pick_next_task_fair cfs sys) E Hq) as (h' & t' & E' & Hq' & _).
  exists r, h', s', t', er, first, ef. split_and!; try done; [apply A|tauto|]. intros p e Ep Hp.
  assert (Hin : forall x ex, ss_ents s !! x = Some ex -> on_rq ex = true -> x ∈ ss_order s).
  { intros x ex Ex Hx. apply (inv_order _ _ R). split; [by exists ex|]. rw Hc elem_of_singleton. intros ->.
    pose proof (inv_addr _ _ R 0 (mk_is_Some _ _ Ex)). lia. }
  assert (Hfirst : forall x, x ∈ ss_order s -> key_of s first <= key_of s x).
  { pose proof (inv_sorted _ _ R) as Hs. destruct (ss_order s) as [|y l]; [done|]. injection Hh as ->.
    apply sorted_cons in Hs as [Hs _]. intros x [->|Hx]%elem_of_cons; [lia|]. by apply (proj1 (Forall_forall _ _) Hs). }
  assert (Hlk : forall x ex, ss_ents s !! x = Some ex -> on_rq ex = true -> lag er ex = key_of s r - key_of s x).
  { intros x ex Ex Hx. by apply key_diff; [| |apply W, (Hin _ er)|apply W, (Hin _ ex)]. }
  pose proof (Hfirst p (Hin p e Ep Hp)) as Hle. rw (Hlk p e Ep Hp). destruct (Z.eqb_spec r first) as [->|Hne]; [lia|].
  destruct (proj1 (inv_order _ _ R first)) as [[ef' [Ef' Hf']] _]; [by destruct (ss_order s); [|injection Hh as ->; set_solver]|].
  assert (ef' = ef) as -> by congruence. destruct Hlag as [|Hlag]; [|done|rw (Hlk _ _ Ef Hf') in Hlag; lia].
  specialize (Hw first). unfold weight_of in Hw. by rw Ef in Hw.
Qed.

(** C21: with virtual runtimes in the window in which they can be compared, after
    [task_tick_fair] the running task has to reschedule if it had to
    before, if the tick is a queued one, or if there are other tasks and either
    it has used up its slice (its share of the period by weight), or it has run
    for [sched_min_granularity] since it was picked and its virtual runtime is
    further ahead of the first task than its slice; and otherwise not. *)
Theorem task_tick_preempts h s t queued
    (Hq : queue_in h cfs s t) (R : Ready s) (Hn : cfs_curr (ss_rq s) <> 0) (F : accountable s = true) :
  let curr := cfs_curr (ss_rq s) in
  exists h' s1 s' t' e, update_curr s = Ok (tt, s1) /\ ss_ents s1 !! curr = Some e /\
    task_tick_fair (H := tree_sched cfs) sys curr queued h = Ok (tt, h') /\ queue_in h' cfs s' t' /\
    need_resched (ss_rq s') =
      need_resched (ss_rq s1) || queued || (1 <? nr_running (ss_rq s1)) && turn_over sys s1 e.
Proof.
  intros curr. destruct (update_curr_ok s R F) as ([] & s1 & E1 & R1 & A1).
  assert (exists e, ss_ents s1 !! curr = Some e) as [e Ee].
  { rw -/curr in Hn. unfold curr. rw -(after_curr _ _ _ _ _ A1). apply curr_entity; [done|]. by rw (after_curr _ _ _ _ _ A1). }
  assert (Ht : runs (task_tick_fair sys curr queued) s (fun _ s' => need_resched (ss_rq s') =
    need_resched (ss_rq s1) || queued || (1 <? nr_running (ss_rq s1)) && turn_over sys s1 e)).
  { apply runs_bind, (runs_ok _ _ _ _ _ E1). destruct queued; [apply runs_upd_rq; cbn; by rw orb_true_r|].
    apply runs_bind, runs_get_rq. change WAKEUP_PREEMPT with true. cbn [negb]. rw !orb_false_r.
    destruct (1 <? nr_running (ss_rq s1)); [by apply check_preempt_tick_turn|]. apply runs_ret. by rw orb_false_r. }
  destruct Ht as ([] & s' & E & Hr).
  destruct (queue_adequacy _ _ h cfs s t tt s' (fun Σ HΣ => sim_task_tick_fair cfs sys curr queued) E Hq) as (h' & t' & E' & Hq' & _).
  by exists h', s1, s', t', e.
Qed.
End Heap.

(** ** Example *)

Inductive kobj : Type := KNode (n : rb_node) | KRoot (r : rb_root) | KEntity (e : sched_entity) | KQueue (q : cfs_rq).
#[global] Instance kobj_node : Holds kobj rb_node :=
  {| obj := KNode; as_obj v := match v with KNode a => Some a | _ => None end; as_obj_obj a := eq_refl |}.
#[global] Instance kobj_root : Holds kobj rb_root :=
  {| obj := KRoot; as_obj v := match v with KRoot a => Some a | _ => None end; as_obj_obj a := eq_refl |}.
#[global] Instance kobj_entity : Holds kobj sched_entity :=
  {| obj := KEntity; as_obj v := match v with KEntity a => Some a | _ => None end; as_obj_obj a := eq_refl |}.
#[global] Instance kobj_queue : Holds kobj cfs_rq :=
  {| obj := KQueue; as_obj v := match v with KQueue a => Some a | _ => None end; as_obj_obj a := eq_refl |}.

(** The default settings, in nanoseconds. *)
Definition ex_sys : sysctl := mk_sysctl 5000000 1000000 1000000 5 false false.

(** A task of nice 0 that runs, and one of nice 1 and one of nice 0 that wait. *)
Definition ex_entity (w : Z) (on : bool) (v : Z) : sched_entity := mk_se (mk_load w 0) on 0 0 v 0 0 SCHED_NORMAL.
Definition ex_ents : gmap Z sched_entity :=
  {[ 1024 := ex_entity 1024 true 300; 2048 := ex_entity 820 true 100; 4096 := ex_entity 1024 true 200 ]}.
Definition ex_rq (curr : Z) : cfs_rq :=
  mk_cfs (mk_load 2868 0) 3 100 (2048 + 16) [1024; 2048; 4096] curr 0 0 (mk_load 2868 0) 20000000 false.
Definition ex_state : sched_state := mk_ss (ex_rq 1024) [2048; 4096] ex_ents.
Definition ex_timeline : tree := Node Black Leaf (2048 + 16) (Node Red Leaf (4096 + 16) Leaf).
Definition ex_queue_heap : gmap Z kobj :=
  list_to_map (queue_cells 8192 ex_state ex_timeline [(1024 + 16, KNode (mk_rb 0 0 0))]).

(** Where no task runs: all wait. *)
Definition ex_state0 : sched_state := mk_ss (ex_rq 0) [2048; 4096; 1024] ex_ents.
Definition ex_timeline0 : tree := Node Black (Node Red Leaf (2048 + 16) Leaf) (4096 + 16) (Node Red Leaf (1024 + 16) Leaf).
Definition ex_queue_heap0 : gmap Z kobj := list_to_map (queue_cells 8192 ex_state0 ex_timeline0 []).

Definition ex_ops : list sched_op :=
  [TaskTick false; PutPrevTask; PickNextTask; UpdateClock 24000000; DequeueTask 4096 true; TaskTick false;
   EnqueueTask 4096 true false; PutPrevTask; PickNextTask].

Lemma ex_run : good_run ex_sys ex_state ex_ops = true.
Proof. by vm_compute. Qed.

Lemma ex_lookup p e : ex_ents !! p = Some e -> p ∈ [1024; 2048; 4096] /\ on_rq e = true.
Proof.
  unfold ex_ents. rw !lookup_insert_Some lookup_empty. intros [[<- <-]|[_ [[<- <-]|[_ [[<- <-]|[_ ?]]]]]]; [set_solver..|done].
Qed.

Lemma ex_queued s p : ss_ents s = ex_ents -> queued s p <-> p ∈ [1024; 2048; 4096].
Proof.
  intros Es. unfold queued. rw Es. split; [intros (e & E & _); by apply ex_lookup in E as [? _]|].
  rw !elem_of_cons. intros [->|[->|[->|Hp]]]; [by eexists..|by apply elem_of_nil in Hp].
Qed.

Lemma ex_inv s off : ss_ents s = ex_ents -> NoDup (ss_order s) -> (forall p, p ∈ ss_order s <-> p ∈ [1024; 2048; 4096] /\ p ∉ off) ->
  sortedb (key_of s) (ss_order s) = true -> (exists c, ss_rq s = ex_rq c /\ (c = 0 \/ c = 1024)) ->
  head (ss_order s) = Some 2048 -> Inv off s.
Proof.
  intros Es Hd Ho Hs (c & Eq & Hc) Hh. pose proof (fun p => ex_queued s p Es) as Hq. split; rw ?Eq; try done.
  - intros p. by rw Hq.
  - by apply sortedb_spec.
  - by destruct (ss_order s); [|injection Hh as ->].
  - destruct Hc as [->| ->]; [by left|right]. unfold entity_of. rw Es. by eexists.
  - intros p [e E]. rw Es in E. apply ex_lookup in E as [Hp _]. rw !elem_of_cons in Hp.
    destruct Hp as [->|[->|[->|Hp]]]; [lia..|by apply elem_of_nil in Hp].
  - rw Es. by vm_compute.
  - by apply (bool_decide_unpack _).
  - unfold weight_of. rw Es. by vm_compute.
  - by left.
  - by left.
Qed.

Lemma ex_ready : Ready ex_state.
Proof.
  apply ex_inv; [done|by apply (bool_decide_unpack _)| |by vm_compute|by exists 1024; auto|done]. cbn. set_solver by lia.
Qed.

Lemma ex_ready0 : Ready ex_state0.
Proof.
  apply ex_inv; [done|by apply (bool_decide_unpack _)| |by vm_compute|by exists 0; auto|done]. cbn. set_solver by lia.
Qed.

Lemma ex_valid_node p : p ∈ [1024; 2048; 4096] -> valid (p + 16).
Proof. rw !elem_of_cons. intros [->|[->|[->|Hp]]]; [by repeat split..|by apply elem_of_nil in Hp]. Qed.

Lemma ex_queue_in : queue_in ex_queue_heap 8192 ex_state ex_timeline.
Proof.
  apply (cells_queue_in _ _ _ _ [(1024 + 16, KNode (mk_rb 0 0 0))]).
  - intros p v Hin. apply elem_of_list_to_map_1; [by apply (bool_decide_unpack _); vm_compute|done].
  - exists 1%nat. repeat econstructor.
  - done.
  - repeat constructor; apply ex_valid_node; set_solver.
  - by vm_compute.
  - constructor; [split; [apply ex_valid_node; set_solver|by eexists]|constructor].
  - by apply (bool_decide_unpack _); vm_compute.
Qed.

Lemma ex_queue_in0 : queue_in ex_queue_heap0 8192 ex_state0 ex_timeline0.
Proof.
  apply (cells_queue_in _ _ _ _ []).
  - intros p v Hin. apply elem_of_list_to_map_1; [by apply (bool_decide_unpack _); vm_compute|done].
  - exists 1%nat. repeat econstructor.
  - done.
  - repeat constructor; apply ex_valid_node; set_solver.
  - by vm_compute.
  - constructor.
  - by apply (bool_decide_unpack _); vm_compute.
Qed.

Lemma fair_class_refines_witness :
  good_run ex_sys ex_state ex_ops = true /\
  exists rs h' s' t', run_ops (H := tree_sched 8192) ex_sys ex_ops ex_queue_heap = Ok (rs, h') /\
    queue_in h' 8192 s' t' /\ Ready s'.
Proof.
  split; [exact ex_run|].
  destruct (fair_class_refines ex_sys 8192 ex_queue_heap ex_state ex_timeline ex_ops ex_queue_in ex_ready ex_run)
    as (rs & h' & s' & t' & E & _ & Hq & R & _). exists rs, h', s', t'. exact (conj E (conj Hq R)).
Defined.

Lemma fair_class_calls_witness :
  exists r h' s' t', run_op (H := tree_sched 8192) ex_sys (DequeueTask 4096 true) ex_queue_heap = Ok (r, h') /\
    queue_in h' 8192 s' t' /\ on_of s' 4096 = Some false /\ cfs_curr (ss_rq s') = 1024.
Proof.
  destruct (fair_class_calls ex_sys 8192 ex_queue_heap ex_state ex_timeline (DequeueTask 4096 true) ex_queue_in ex_ready)
    as (r & h' & s' & t' & E & Hq & _ & Hc & Ho & _); [by vm_compute|by vm_compute|].
  exists r, h', s', t'. split_and!; [exact E|exact Hq|exact (Ho 4096)|exact Hc].
Defined.

Lemma ex_window0 : window ex_state0.
Proof. by apply accountable_window; vm_compute. Qed.

Lemma ex_weights p : 0 <= weight_of ex_state0 p.
Proof.
  unfold weight_of. cbn [ss_ents ex_state0]. destruct (ex_ents !! p) as [e|] eqn:E; [|done]. revert E. unfold ex_ents.
  rw !lookup_insert_Some lookup_empty. by intros [[_ <-]|[_ [[_ <-]|[_ [[_ <-]|[_ ?]]]]]].
Qed.

Lemma pick_next_task_fairness_witness :
  exists r h' s' t' er, pick_next_task_fair (H := tree_sched 8192) ex_sys ex_queue_heap0 = Ok (r, h') /\
    queue_in h' 8192 s' t' /\ ss_ents ex_state0 !! r = Some er.
Proof.
  destruct (pick_next_task_fairness ex_sys 8192 ex_queue_heap0 ex_state0 ex_timeline0 ex_queue_in0 ex_ready0)
    as (r & h' & s' & t' & er & _ & _ & E & Hq & _ & Hr & _); [done|done|exact ex_window0|exact ex_weights|].
  exists r, h', s', t', er. exact (conj E (conj Hq Hr)).
Defined.

Lemma task_tick_preempts_witness :
  exists h' s' t', task_tick_fair (H := tree_sched 8192) ex_sys 1024 true ex_queue_heap = Ok (tt, h') /\
    queue_in h' 8192 s' t' /\ need_resched (ss_rq s') = true.
Proof.
  destruct (task_tick_preempts ex_sys 8192 ex_queue_heap ex_state ex_timeline true ex_queue_in ex_ready)
    as (h' & s1 & s' & t' & e & _ & _ & E & Hq & Hr); [done|by vm_compute|].
  exists h', s', t'. split_and!; [exact E|exact Hq|]. by rw Hr orb_true_r.
Defined.
