(* ===== verification/SchedClaims.v ===== *)
(** The core of the scheduler, on the run queue in the heap. *)
From iris.proofmode Require Import proofmode environments.
From iris.base_logic Require Import lib.gen_heap.
From S2P Require Import Prelude KState WaitQueue.
From S2P Require Import Wp Heap HeapLogic Rbtree RbtreeSpec RbtreeProof RbtreeWalk RbtreeInsert RbtreeErase.
From S2P Require Import Cfs CfsSpec CfsInv CfsOps CfsRun SchedCore SchedInv SchedOps SchedRun SchedWait CfsTree CfsRefine SchedRefine CfsClaims.


Section Claims.
  Context {V : Type} {HN : Holds V rb_node} {HR : Holds V rb_root} {HE : Holds V sched_entity} {HQ : Holds V cfs_rq}.
  Implicit Types h : gmap Z V.
  Context (sys : sysctl) (queue : Z).

(** The core on the run queue in the heap. *)
Abbreviation heap_cores l := (run_cores (H := tree_sched queue) sys (run_op (H := tree_sched queue) sys) l).
Abbreviation heap_core o := (run_core (H := tree_sched queue) sys (run_op (H := tree_sched queue) sys) o).

Lemma core_adequacy {A} (m : M (gmap Z V * rq) A) (m' : M core_state A) h x t a x' :
  (forall Σ (HΣ : gen_heapGS Z V Σ), simc queue m m') -> m' x = Ok (a, x') -> queue_in h queue x.1 t ->
  exists h' t', m (h, x.2) = Ok (a, (h', x'.2)) /\ queue_in h' queue x'.1 t' /\
    forall p v, h !! p = Some v -> p ∉ footprint queue x.1 -> h' !! p = Some v.
Proof.
  intros Hs E Hq. destruct x as [s r], x' as [s' r']. assert (E' : run_at r m' s = Ok ((a, r'), s')) by (unfold run_at; by rw E).
  destruct (queue_adequacy _ _ h queue s t _ _ (fun Σ HΣ => Hs Σ HΣ r) E' Hq) as (h' & t' & Em & Hq' & Hf).
  exists h', t'. split; [|done]. unfold run_at in Em. cbn. destruct (m (h, r)) as [[b [h1 r1]]|f]; [|done]. by injection Em as -> -> ->.
Qed.

(** C22: any sequence of operations of the core, with the fair class on the
    red-black tree in the heap, runs without a fault, whatever is asked of it
    in whatever order, as long as the virtual runtimes stay in their window:
    the core keeps to the protocol of the class.  After every step the running
    task is on the run queue, the counters of running and uninterruptible tasks
    are exact, and the step did what it should: a task that blocks leaves the
    run queue unless a signal keeps it awake, a woken or new task is on it and
    runnable, and [schedule] switches to a task of the run queue if there is
    one and to the idle task if not. *)
Theorem core_scheduler_correct h x t l (Hq : queue_in h queue x.1 t) (I : CoreInv x) (G : safe_run sys x l = true) :
  exists rs h' x' t', heap_cores l (h, x.2) = Ok (rs, (h', x'.2)) /\ queue_in h' queue x'.1 t' /\ CoreInv x' /\
    core_steps l rs x x' /\ forall p v, h !! p = Some v -> p ∉ footprint queue x.1 -> h' !! p = Some v.
Proof.
  destruct (run_cores_ok sys l x I G) as (rs & x' & E & I' & St).
  destruct (core_adequacy _ _ h x t rs x' (fun Σ HΣ => simc_run_cores queue sys l) E Hq) as (h' & t' & E' & Hq' & Hs).
  by exists rs, h', x', t'.
Qed.

(** C23: what the model of the wait queues assumes of the scheduler is true of it:
    where the scheduler's tasks are as that model says, and as long as virtual
    runtimes stay in the window in which they can be compared, [try_to_wake_up],
    [schedule] and [set_current_state] return what the model's functions
    return, and the tasks again are as the model says. *)
Theorem wait_queue_tasks_scheduled h x t addr ks cur o m r ks'
    (Hq : queue_in h queue x.1 t) (I : CoreInv x) (Ha : Inj eq eq addr) (Hs : same_tasks addr ks x) (Hc : rq_curr x.2 = addr cur)
    (Hm : counterpart addr cur o m) (Em : m ks = Ok (r, ks')) (G : run_core sys (checked sys) o x <> Err Horizon) :
  exists h' x' t', heap_core o (h, x.2) = Ok (r, (h', x'.2)) /\ queue_in h' queue x'.1 t' /\ CoreInv x' /\ same_tasks addr ks' x'.
Proof.
  destruct (run_core_ok sys x o I (counterpart_legal addr _ _ _ _ _ _ _ I Hs Hc Hm Em)) as [E|(r' & x' & E & I' & St)]; [done|].
  destruct (counterpart_same addr _ _ _ _ _ _ _ _ _ Hs Hc Hm Em St) as [-> Hs'].
  destruct (core_adequacy _ _ h x t r x' (fun Σ HΣ => simc_run_core queue sys o) E Hq) as (h' & t' & E' & Hq' & _).
  by exists h', x', t'.
Qed.
End Claims.

(** ** Example *)

(** The tasks of [ex_state]; the running one is about to sleep. *)
Definition ex_task (st : Z) : task_struct := mk_task st false false false 120 120 120 0 false 0 0.
Definition ex_tasks : gmap Z task_struct :=
  {[ 1024 := ex_task TASK_INTERRUPTIBLE; 2048 := ex_task TASK_RUNNING; 4096 := ex_task TASK_RUNNING ]}.
Definition ex_core : core_state := (ex_state, mk_rq 3 0 0 1024 ex_tasks).

(** The first task sleeps and is woken, the tasks take turns, one of them is made
    nicer, another one ends and its memory is used for a new task; in the end all
    sleep, and one of them is woken. *)
Definition ex_core_ops : list core_op :=
  [Schedule 21000000 false; SchedulerTick 22000000; TryToWakeUp 1024 3 23000000 23000000 true; SetUserNice 2048 5 24000000;
   Schedule 25000000 true; SchedYield 26000000 26000000; SetCurrentState 64; Schedule 26000000 false;
   SchedFork 4096 26100000; WakeUpNewTask 4096 26200000; Schedule 26300000 true; SetCurrentState 2; Schedule 27000000 false; SetCurrentState 2;
   Schedule 28000000 false; SetCurrentState 2; Schedule 29000000 false; TryToWakeUp 1024 3 30000000 30000000 true;
   Schedule 31000000 false; SchedulerTick 32000000].

Lemma ex_safe : safe_run ex_sys ex_core ex_core_ops = true.
Proof. by vm_compute. Qed.

Lemma ex_on p : on_of ex_state p = Some true <-> p ∈ [1024; 2048; 4096].
Proof. rw -queued_on. by apply ex_queued. Qed.

Lemma ex_task_of p w : ts_of ex_core p = Some w ->
  p ∈ [1024; 2048; 4096] /\ w = core_of (ex_task (if p =? 1024 then TASK_INTERRUPTIBLE else TASK_RUNNING)).
Proof.
  unfold ts_of, ex_core. cbn [snd rq_tasks]. rw fmap_Some. intros (t & Et & ->). revert Et. unfold ex_tasks.
  rw !lookup_insert_Some lookup_empty. intros [[<- <-]|[_ [[<- <-]|[_ [[<- <-]|[_ ?]]]]]]; [split; [set_solver|done]..|done].
Qed.

Lemma ex_core_inv : CoreInv ex_core.
Proof.
  split; [exact ex_ready|done|]. cbn [fst snd ex_core rq_curr rq_nr_running nr_uninterruptible]. split.
  - intros _. by apply ex_on; set_solver.
  - intros p. split; [intros [b Eb]|intros [w Ew]].
    + assert (p ∈ [1024; 2048; 4096]) as Hp.
      { unfold on_of in Eb. cbn [ss_ents ex_state] in Eb. destruct (ex_ents !! p) as [e|] eqn:E; [|done]. by apply ex_lookup in E as [? _]. }
      rw !elem_of_cons in Hp. destruct Hp as [->|[->|[->|Hp]]]; [by eexists..|by apply elem_of_nil in Hp].
    + apply ex_task_of in Ew as [Hp _]. eexists. by apply ex_on.
  - intros p w [_ ->]%ex_task_of. cbn. unfold MAX_RT_PRIO. lia.
  - exists (list_to_set [1024; 2048; 4096]). split; [done|]. intros p. by rw elem_of_list_to_set ex_on.
  - exists ∅. split; [done|]. intros p. split; [set_solver|]. intros [Eo (w & [Hp _]%ex_task_of & _)]. apply ex_on in Hp. congruence.
Qed.

Lemma core_scheduler_correct_witness :
  safe_run ex_sys ex_core ex_core_ops = true /\
  exists rs h' x' t', run_cores (H := tree_sched 8192) ex_sys (run_op (H := tree_sched 8192) ex_sys) ex_core_ops (ex_queue_heap, ex_core.2) =
      Ok (rs, (h', x'.2)) /\ queue_in h' 8192 x'.1 t' /\ CoreInv x'.
Proof.
  split; [exact ex_safe|].
  destruct (core_scheduler_correct ex_sys 8192 ex_queue_heap ex_core ex_timeline ex_core_ops ex_queue_in ex_core_inv ex_safe)
    as (rs & h' & x' & t' & E & Hq & I & _). exists rs, h', x', t'. exact (conj E (conj Hq I)).
Defined.

(** The same tasks as the wait queues see them. *)
Definition ex_addr (t : positive) : Z := 1024 * Zpos t.
Definition ex_wq_task (st : Z) (on : bool) : KState.task_struct := KState.mk_task st on false 0 0.
Definition ex_kstate : kstate :=
  mk_kstate ∅ ∅ ∅ ∅ {[ 1%positive := ex_wq_task 1 true; 2%positive := ex_wq_task 0 true; 4%positive := ex_wq_task 0 true ]} 0 0 true 0 ∅.

Lemma ex_same_tasks : same_tasks ex_addr ex_kstate ex_core.
Proof.
  intros t v. cbn [KState.tasks ex_kstate]. rw !lookup_insert_Some lookup_empty.
  intros [[<- <-]|[_ [[<- <-]|[_ [[<- <-]|[_ ?]]]]]]; [split; [by apply ex_on; cbn; set_solver|by eexists]..|done].
Qed.

(** The running task goes to sleep. *)
Lemma wait_queue_tasks_scheduled_witness :
  exists h' x' t', run_core (H := tree_sched 8192) ex_sys (run_op (H := tree_sched 8192) ex_sys) (Schedule 21000000 false)
      (ex_queue_heap, ex_core.2) = Ok (0, (h', x'.2)) /\ queue_in h' 8192 x'.1 t' /\ CoreInv x' /\
    same_tasks ex_addr (KState.set_tasks (<[1%positive := ex_wq_task 1 false]> (KState.tasks ex_kstate)) ex_kstate) x'.
Proof.
  apply (wait_queue_tasks_scheduled ex_sys 8192 ex_queue_heap ex_core ex_timeline ex_addr ex_kstate 1%positive (Schedule 21000000 false)
    (WaitQueue.schedule_prev 1%positive ;;; ret 0) 0 _ ex_queue_in ex_core_inv).
  - intros t t'. unfold ex_addr. lia.
  - exact ex_same_tasks.
  - done.
  - constructor.
  - by vm_compute.
  - by vm_compute.
Defined.
